(* ===== verification/_CoqProject ===== *)
-Q . S2P
Prelude.v
Float64.v
Hll.v
Clock.v
Strconv.v
Http.v
Utf8.v
Decimal.v
Store.v
Json.v
StoreSpec.v
StoreQuery.v
StoreProps.v
Locks.v
StoreLocks.v
Queue.v
Metrics.v
Worker.v
Kafka.v
KafkaGroup.v
Ratelimit.v
Ingest.v
Grpc.v
JsonEvent.v
Response.v
Main.v
Loadgen.v
Flags.v
Server.v
Pipeline.v
Doors.v
Process.v
KafkaProcess.v
Wire.v
Chaos.v
