(* ===== verification/Prelude.v ===== *)
(** * Tally: a verification development

    Tally counts events.  Two doors, an HTTP API ([internal/ingest]) and a gRPC
    service ([internal/grpcingest]), validate events, ask a rate limiter
    ([internal/ratelimit]) and put them on a queue ([internal/queue]): a bounded
    channel in memory, or a Kafka topic.  A pool of workers ([internal/worker])
    or a group of Kafka consumers takes them off in batches and writes them to
    Postgres ([internal/store]), which keeps one row per event id, per-minute
    counts and one HyperLogLog sketch ([internal/hll]) of the user ids per name
    and day.  [cmd/tally] reads the configuration, wires the parts and shuts them
    down in order; [cmd/loadgen] fires events at it and counts them.  The promise
    of the system: an accepted event is counted exactly once, although clients
    re-send, connections fail at the worst moment, batches race for the same
    rows, the broker redelivers and processes crash.

    ** Files and what they model

    Shared:
    - [Prelude]: results, fixed-width integers, counting, [same_elems], orders,
      tactics, the hint database [tally].
    - [Float64]: binary64 arithmetic over the Standard Library's [SpecFloat],
      with the facts on rounding that the proofs need.
    - [Clock]: instants in nanoseconds, the civil calendar,
      [Format("2006-01-02")] and the [::date] cast that reads it back.
    - [Strconv]: [strings.Split], [strconv.Atoi] and [time.ParseDuration], with
      the printers they invert.
    - [Http]: the parts of [net/http] that routing uses: path cleaning, patterns,
      conflicts, the routing tree of [ServeMux], query strings, redirects.
    - [Utf8], [Decimal], [Json]: [encoding/json] from the bytes up: runes and
      string literals, [ParseFloat] and the shortest decimal of a [float64] by
      exact arithmetic, the parser with its nesting limit, [any] and its encoder.

    Storage:
    - [Hll] ([internal/hll/hll.go]): [Sketch], [New], [Add], [Estimate],
      [Merge], [Bytes], [FromBytes], [hash64].  An index out of range is [None].
    - [Store] ([internal/store/store.go], [migrations/]): the tables as finite
      maps, [insertBatchSQL] clause by clause, the transaction of [InsertBatch]
      with [updateUniques], the queries, and the connection loop of [New].
      Every round trip consumes one [fault]; a lost reply to [Commit] leaves the
      batch applied.  Sort orders, the jsonb cast and the session time zone (the
      date of an instant and the beginning of a date, so also zones with daylight
      saving) are the class [Postgres]; [json.Marshal] is the class [Json], of which
      [JsonEvent] has Go's instance.  Text that is not UTF-8 or has a NUL byte is
      refused, in rows and in the arguments of queries.
    - [StoreSpec]: [represents L t], the abstract specification (the tables are
      those of the log [L] of delivered events), and the simulation.
    - [StoreQuery]: what the queries return in terms of the log.
    - [StoreProps]: the theorems about the write path, and a concrete server.
    - [Locks]: transactions as programs over rows, interleaved under Postgres'
      row locks (read committed): serializability of transactions that lock what
      they read, and freedom from deadlock for a common order of rows.
    - [StoreLocks]: [InsertBatch] as such a program, row by row.

    Queue and workers:
    - [Queue] ([internal/queue/queue.go]): the channel and its flag; operations
      one at a time as functions, and the interleavings of [Enqueue] with
      [Close] as a step relation.  [Enqueuer] is the interface of the doors.
    - [Metrics] ([internal/metrics/metrics.go]): the counters as a record.
    - [Worker] ([internal/worker/worker.go]): [New], the retry loop of [flush] as
      a function, and the pool as a step relation in which any number of workers
      share the queue and the sink.  [BatchInserter] and [IdempotentInserter]
      are the interface to storage that the pool is verified against.  With a
      queue of size 0 a producer hands its event to a waiting worker
      ([hand_over]); with any other size events go through the buffer.
    - [Kafka] ([internal/queue/kafka.go]): [KafkaProducer] with its constructor,
      [Enqueue] and [Close], and [KafkaConsumer.Run] as a state machine.  The
      franz-go client is the class [Kgo]; what the producer relies on is
      [OutboxLaws].
    - [KafkaGroup]: any number of [Run]s in one consumer group, with
      cancellation, rebalances, restarts and crashes.  The broker is the class
      [Group] with the laws [GroupLaws]; a one-partition broker with fencing
      shows that they can hold.

    Doors and program:
    - [Ratelimit] ([internal/ratelimit/ratelimit.go]): [ClientKey] with
      [net.SplitHostPort] written out, the map of token buckets with its janitor
      and concurrent callers (the locked part of [Allow] and the token taken after
      it are two steps), the Lua script and its caller.
    - [Ingest] ([internal/ingest/handler.go]) and [Grpc]
      ([internal/grpcingest/server.go]): the handlers on every branch, with the
      metrics they count.
    - [JsonEvent] ([store.Event], [eventRequest], [kafka.go]): the JSON of events
      and requests, with field matching and RFC 3339 times; the instances of the
      classes [Json], [Codec] and [JsonDecoder].
    - [Response] ([writeJSON], [http.Error], [NameCount], [MinutePoint]): the bytes
      of the HTTP answers, and a client that decodes them.
    - [Main] ([cmd/tally/main.go]): [loadConfig], the wiring, [onFlush], the
      shutdown sequence.
    - [Server] ([cmd/tally/main.go], [ingest.Register],
      [internal/dashboard/dashboard.go]): the routes and the server that
      dispatches requests to the handlers; what [net/http/pprof] answers is the
      class [Pprof].
    - [Loadgen] ([cmd/loadgen/main.go]): the senders one atomic operation at a
      time, the pacing loop, the wait and the report.
    - [Flags] ([cmd/loadgen/main.go]): [flag.Parse] on its command line.

    Composition:
    - [Pipeline]: the store discharges the storage interface; both modes of the
      system end to end.
    - [Doors], [Process], [KafkaProcess] ([cmd/tally/main.go] with [queue.go],
      [worker.go] and [kafka.go]): the whole process from start to exit, with the
      memory queue and with Kafka: requests inside the two doors, workers or
      consumer, broker client, and the main goroutine through its shutdown; a
      failing [ListenAndServe] ends the process on the spot ([Crashed]).
    - [Wire]: the doors, Kafka and the load generator with their JSON.
    - [Chaos]: the load generator against the tables, and the comparison that
      [scripts/chaos.sh] makes.

    ** What the theorems show

    - Storage: [InsertBatch] refines "append to the log", all or nothing also
      when replies are lost; replays change nothing; rollups always equal the
      counts of the rows; batching, order and retries leave no trace in the
      tables; a batch that can be stored is stored.  Concurrent batches are serializable
      in the order of their answers and never deadlock.
    - Queries: a count takes one delivery of each id, also when re-sends have new
      time stamps; totals and unique-user estimates are the stated functions of
      the delivered events.
    - Sketches: each register is the largest rank of its values, merging is
      union, the encoding round-trips.
    - Queue and pool: bounded FIFO; conservation of events over all
      interleavings; bounded retries; after [Close] the pool drains in a bounded
      number of steps; what is lost was reported.
    - Kafka: the producer accounts for every accepted event; nothing is
      committed before it is stored, with any number of consumers; caught up
      means exactly-once effect.
    - JSON: every event that a door accepts survives marshalling and
      unmarshalling (nested properties, numbers to the last bit, time stamps);
      the answers of the service decode to what the queries returned; the body of
      the load generator is the request that the handler sees.
    - Process: shutdown in both modes finishes, uses no closed store, sends on the
      closed channel or accepts on the closed client only for a request that
      [srv.Shutdown] gave up on, and leaves no accepted event unaccounted for.
    - Doors, limiter, wiring: requests reach the handlers they are registered
      for; every response matches what happened to the queue and the counters, and
      an accepted event is the one of the request; clients are isolated from each
      other as long as idle buckets refill before the janitor evicts them; the
      global window admits at most the limit and the calls that got no reply; the
      settings in the environment and the defaults of the others are what the
      program runs with.
    - Load generator: its count brackets the number of events in the tables; it
      terminates; its report never indexes out of range; its flags read back.
    - End to end: in both modes the tables represent exactly the accepted
      events.
    - Some theorems state behaviour that the documentation does not: duplicates
      still feed the sketches, "today" follows the session time zone, an event
      with a NUL byte wedges its Kafka partition, a failed second copy makes the
      load generator's count too low, the chaos script cannot report success, and
      a gRPC request blocked in the producer can hold up the shutdown.

    ** Bounds and fuel

    Loops are structural over a list or over the number of attempts left
    ([MaxRetries], 30 pings).  Fuel is the length of the text where a text is
    consumed: [strconv.terms] ([strconv.terms_fuel]: more fuel changes nothing),
    [utf8.units] and the escapes of a literal, and twice the length plus one for
    the JSON parser ([json.parse_fuel]), whose nesting limit is the 10000 of
    [encoding/json].  Numbers: [strconv.itoa_aux] takes 20, the digits of a 64-bit
    number ([strconv.decimal_spec]); the shortest decimal of a [float64] is
    searched up to 17 digits, which always suffice ([decimal.shortest_spec]).
    Termination of the pool is proved with the
    measure [worker.work], of the load generator with [loadgen.work], of
    concurrent transactions as strong normalization ([locks.schedules_finite]).
    Integers are [Z]; the places where Go's width matters ([uint8] and [uint64]
    in the sketch, [int32] in the gRPC response, bigint in Postgres, [int64]
    conversions and durations) wrap, saturate or fail as there.

    ** Not modelled

    The bodies of franz-go, pgx, the Redis and Prometheus clients, of
    [golang.org/x/time/rate] and of [net/http/pprof] (parameters with laws, or
    their documented effect);
    the error of the estimator (no theory of real logarithms of floats here);
    TLS, HTTP framing and the timeouts of the server, logging; the
    HTML of the dashboard and the text of [/metrics]; generated protobuf code;
    the parts of the chaos script that start and kill processes, the k6 load
    test, and the deployment files. *)

From stdpp Require Import prelude gmap strings list sorting.
From Stdlib Require Import ZArith Lia.

Open Scope Z_scope.

(** ** Results: Go's [(value, error)] pairs *)

Inductive result (E A : Type) : Type :=
  | Ok (a : A)
  | Err (e : E).
Arguments Ok {E A} _.
Arguments Err {E A} _.

Definition result_bind {E A B} (r : result E A) (k : A → result E B) : result E B :=
  match r with Ok a => k a | Err e => Err e end.

Declare Scope tally_scope.
Delimit Scope tally_scope with tally.
Notation "'let*' x ':=' r 'in' k" := (result_bind r (λ x, k))
  (at level 10, x pattern, r at level 100, k at level 200) : tally_scope.

Definition is_ok {E A} (r : result E A) : bool :=
  match r with Ok _ => true | Err _ => false end.

(** A run whose first component is known. *)
Lemma pair_fst {A B} (p : A * B) a : p.1 = a → p = (a, p.2).
Proof. destruct p. simpl. congruence. Qed.

(** ** Fixed-width integers

    A Go integer of width [w] is a [Z] kept in its range; arithmetic wraps. *)

Definition u8 (z : Z) : Z := z mod 2 ^ 8.
Definition u64 (z : Z) : Z := z mod 2 ^ 64.
Definition int32 (z : Z) : Z := (z + 2 ^ 31) mod 2 ^ 32 - 2 ^ 31.
Definition int64 (z : Z) : Z := (z + 2 ^ 63) mod 2 ^ 64 - 2 ^ 63.
Definition int64_max : Z := 2 ^ 63 - 1.

Lemma int64_range z : - 2 ^ 63 ≤ int64 z ≤ int64_max.
Proof. unfold int64, int64_max. pose proof (Z.mod_pos_bound (z + 2 ^ 63) (2 ^ 64)). lia. Qed.

Lemma u64_range z : 0 ≤ u64 z < 2 ^ 64.
Proof. unfold u64. apply Z.mod_pos_bound. lia. Qed.

Lemma u64_small z : 0 ≤ z < 2 ^ 64 → u64 z = z.
Proof. unfold u64. apply Z.mod_small. Qed.

Lemma u8_small z : 0 ≤ z < 2 ^ 8 → u8 z = z.
Proof. unfold u8. apply Z.mod_small. Qed.

Lemma int32_small z : - 2 ^ 31 ≤ z < 2 ^ 31 → int32 z = z.
Proof. intros. unfold int32. rewrite Z.mod_small; lia. Qed.

(** ** Automation *)

Create HintDb tally.
#[export] Hint Resolve u64_range : tally.

(** Case on the scrutinee of a [match] in the goal or in a hypothesis and
    clean up the resulting equations. *)
Ltac case_step :=
  first [ case_match | case_decide | case_bool_decide ]; simplify_eq/=.

(** Turn boolean comparisons into their propositions. *)
Ltac bool_props :=
  repeat match goal with
  | H : (_ <? _) = true |- _ => apply Z.ltb_lt in H
  | H : (_ <? _) = false |- _ => apply Z.ltb_ge in H
  | H : (_ <=? _) = true |- _ => apply Z.leb_le in H
  | H : (_ <=? _) = false |- _ => apply Z.leb_gt in H
  | H : (_ =? _) = true |- _ => apply Z.eqb_eq in H
  | H : (_ =? _) = false |- _ => apply Z.eqb_neq in H
  | H : negb _ = true |- _ => apply negb_true_iff in H
  | H : negb _ = false |- _ => apply negb_false_iff in H
  end.

(** ** Lists *)

(** The number of elements satisfying a boolean test. *)
Fixpoint count {A} (P : A → bool) (l : list A) : Z :=
  match l with
  | [] => 0
  | x :: l => (if P x then 1 else 0) + count P l
  end.

Section count.
Context {A : Type}.
Implicit Types (P : A → bool) (l : list A).

Lemma count_nonneg P l : 0 ≤ count P l.
Proof. induction l; simpl; [lia|]. destruct (P a); lia. Qed.

Lemma count_le_length P l : count P l ≤ Z.of_nat (length l).
Proof. induction l; simpl; [lia|]. destruct (P a); lia. Qed.

Lemma count_app P l1 l2 : count P (l1 ++ l2) = count P l1 + count P l2.
Proof. induction l1; simpl; [lia|]. rewrite IHl1. lia. Qed.

Lemma count_perm P l1 l2 : l1 ≡ₚ l2 → count P l1 = count P l2.
Proof. induction 1; simpl; lia. Qed.

Lemma count_ext P Q l : (∀ x, x ∈ l → P x = Q x) → count P l = count Q l.
Proof.
  induction l as [|x l IH]; simpl; intros H; [done|].
  rewrite (H x) by left. rewrite IH; [done|]. intros y Hy. apply H. by right.
Qed.

Lemma count_zero P l : count P l = 0 ↔ ∀ x, x ∈ l → P x = false.
Proof.
  induction l as [|x l IH]; simpl.
  { split; [|done]. intros _ x Hx. by apply not_elem_of_nil in Hx. }
  pose proof (count_nonneg P l). split.
  - intros Hc y [->|Hy]%elem_of_cons; [destruct (P x); [lia|done]|].
    apply IH; [destruct (P x); lia|done].
  - intros Hall. rewrite (Hall x) by left. rewrite (proj2 IH); [done|].
    intros y Hy. apply Hall. by right.
Qed.

Lemma count_true l : count (λ _, true) l = Z.of_nat (length l).
Proof. induction l; simpl; lia. Qed.

Lemma count_map {B} (f : B → A) P (l : list B) :
  count P (map f l) = count (λ x, P (f x)) l.
Proof. induction l; simpl; congruence. Qed.
End count.

Lemma list_alter_insert {A} (f : A → A) (l : list A) i x :
  l !! i = Some x → alter f i l = <[i := f x]> l.
Proof.
  revert i. induction l as [|y l IH]; intros [|i] Hi; simplify_eq/=; [done|].
  f_equal. by apply IH.
Qed.

Lemma list_filter_ext_in {A} (P Q : A → Prop) `{!∀ x, Decision (P x), !∀ x, Decision (Q x)}
    (l : list A) :
  (∀ x, x ∈ l → P x ↔ Q x) → filter P l = filter Q l.
Proof.
  induction l as [|x l IH]; intros Hl; [done|].
  assert (filter P l = filter Q l) as Hf by (apply IH; intros; apply Hl; by right).
  destruct (decide (P x)) as [HP|HP].
  - rewrite !filter_cons_True, Hf; [done|by apply Hl; [left|]|done].
  - rewrite !filter_cons_False, Hf; [done| |done]. intros HQ. apply HP, Hl; [left|done].
Qed.

Lemma list_filter_nil {A} (P : A → Prop) `{!∀ x, Decision (P x)} (l : list A) :
  filter P l = [] ↔ ∀ x, x ∈ l → ¬ P x.
Proof.
  split.
  - intros Hf x Hx HP. assert (x ∈ filter P l) as Hin by (by apply list_elem_of_filter).
    rewrite Hf in Hin. by apply not_elem_of_nil in Hin.
  - intros Hl. destruct (filter P l) as [|x l'] eqn:Hf; [done|].
    assert (x ∈ filter P l) as [HP Hx]%list_elem_of_filter by (rewrite Hf; left).
    by destruct (Hl x Hx).
Qed.

Lemma filter_length_lt {A} (P Q : A → Prop) `{!∀ x, Decision (P x), !∀ x, Decision (Q x)}
    (l : list A) x :
  (∀ y, P y → Q y) → x ∈ l → Q x → ¬ P x →
  (length (filter P l) < length (filter Q l))%nat.
Proof.
  intros HPQ Hx HQ HP.
  rewrite (list_filter_ext_in P (λ y, P y ∧ Q y)) by (intros; split; [auto|tauto]).
  rewrite <- list_filter_filter. apply (length_filter_lt _ _ x); [|done].
  by apply list_elem_of_filter.
Qed.

(** The pointwise maximum of two lists is a join. *)
Lemma zip_max_comm (l1 l2 : list Z) : zip_with Z.max l1 l2 = zip_with Z.max l2 l1.
Proof.
  revert l2. induction l1 as [|x l1 IH]; intros [|y l2]; simpl; try done.
  rewrite IH. f_equal. lia.
Qed.

Lemma zip_max_assoc (l1 l2 l3 : list Z) :
  zip_with Z.max l1 (zip_with Z.max l2 l3) = zip_with Z.max (zip_with Z.max l1 l2) l3.
Proof.
  revert l2 l3. induction l1 as [|x l1 IH]; intros [|y l2] [|z l3]; simpl; try done.
  rewrite IH. f_equal. lia.
Qed.

Lemma zip_max_idemp (l : list Z) : zip_with Z.max l l = l.
Proof. induction l as [|x l IH]; simpl; [done|]. rewrite IH. f_equal. lia. Qed.

(** Two lists with the same elements, whatever the order and the repetitions. *)
Definition same_elems {A} (l1 l2 : list A) : Prop := ∀ x, x ∈ l1 ↔ x ∈ l2.

#[export] Instance same_elems_equiv {A} : Equivalence (@same_elems A).
Proof.
  split.
  - by intros l x.
  - intros l1 l2 H x. symmetry. apply H.
  - intros l1 l2 l3 H1 H2 x. rewrite (H1 x). apply H2.
Qed.

#[export] Instance perm_same_elems {A} : subrelation (≡ₚ) (@same_elems A).
Proof. intros l1 l2 H x. by rewrite H. Qed.

(** ** Orders *)

(** Lexicographic order: [ORDER BY 1, 2]. *)
Definition lex {A B} `{EqDecision A} (R : relation A) (S : relation B) : relation (A * B) :=
  λ p q, if decide (p.1 = q.1) then S p.2 q.2 else R p.1 q.1.

#[export] Instance lex_dec {A B} `{EqDecision A} (R : relation A) (S : relation B)
    `{!RelDecision R, !RelDecision S} : RelDecision (lex R S).
Proof. intros p q. unfold lex. case_decide; apply _. Defined.

#[export] Instance lex_po {A B} `{EqDecision A} (R : relation A) (S : relation B)
    `{!PartialOrder R, !PartialOrder S} : PartialOrder (lex R S).
Proof.
  split; [split|].
  - intros p. unfold lex. by rewrite decide_True.
  - intros [a1 b1] [a2 b2] [a3 b3]. unfold lex. simpl. intros H12 H23.
    repeat case_decide; subst; try done; try (by etrans).
    assert (a3 = a2) by (by apply (anti_symm R)). by subst.
  - intros [a1 b1] [a2 b2]. unfold lex. simpl. intros H12 H21.
    repeat case_decide; subst; try done.
    + f_equal. by apply (anti_symm S).
    + assert (a1 = a2) by (by apply (anti_symm R)). by subst.
Qed.

(** An order seen through an injection. *)
Lemma pullback_po {A B} (f : A → B) (R : relation B) `{!PartialOrder R, !Inj (=) (=) f} :
  PartialOrder (λ x y, R (f x) (f y)).
Proof.
  split; [split|].
  - by intros x.
  - intros x y z ??. by etrans.
  - intros x y ??. apply (inj f). by apply (anti_symm R).
Qed.

Lemma StronglySorted_lookup {A} (R : relation A) (l : list A) i j x y :
  StronglySorted R l → l !! i = Some x → l !! j = Some y → (i < j)%nat → R x y.
Proof.
  intros HS. revert i j. induction HS as [|z l HS IH Hz]; intros [|i] [|j] Hx Hy Hij; simplify_eq/=; try lia.
  - rewrite Forall_forall in Hz. apply Hz. by eapply list_elem_of_lookup_2.
  - apply (IH i j); [done|done|lia].
Qed.

(** ** Updating one element of a list *)

Lemma list_lookup_split {A} (l : list A) i x :
  l !! i = Some x → ∃ l1 l2, l = l1 ++ x :: l2 ∧ ∀ y, <[i := y]> l = l1 ++ y :: l2.
Proof.
  intros Hi. exists (take i l), (drop (S i) l). split.
  - symmetry. by apply take_drop_middle.
  - intros y. apply insert_take_drop. by eapply lookup_lt_Some.
Qed.

Lemma sum_list_with_insert {A} (f : A → nat) l i x y :
  l !! i = Some x →
  (sum_list_with f (<[i := y]> l) + f x = sum_list_with f l + f y)%nat.
Proof.
  intros Hi. destruct (list_lookup_split l i x Hi) as (l1 & l2 & -> & ->).
  rewrite !sum_list_with_app. simpl. lia.
Qed.

Lemma concat_map_insert {A B} (f : A → list B) l i x y :
  l !! i = Some x → concat (map f (<[i := y]> l)) ++ f x ≡ₚ concat (map f l) ++ f y.
Proof.
  intros Hi. destruct (list_lookup_split l i x Hi) as (l1 & l2 & -> & ->).
  rewrite !map_app, !concat_app. simpl. solve_Permutation.
Qed.

(** ** Bit-level facts on bounded integers *)

Lemma lxor_range n a b :
  0 ≤ n → 0 ≤ a < 2 ^ n → 0 ≤ b < 2 ^ n → 0 ≤ Z.lxor a b < 2 ^ n.
Proof.
  intros Hn Ha Hb. assert (0 ≤ Z.lxor a b) as Hx by (apply Z.lxor_nonneg; lia).
  split; [done|]. destruct (decide (Z.lxor a b = 0)) as [->|Hne]; [lia|].
  assert (a ≠ 0 ∨ b ≠ 0) as Hab.
  { destruct (decide (a = 0)) as [->|]; [right|by left]. intros ->. done. }
  apply Z.log2_lt_pow2; [lia|].
  eapply Z.le_lt_trans; [apply Z.log2_lxor; lia|].
  destruct (decide (n = 0)) as [->|]; [lia|].
  apply Z.max_lub_lt.
  - destruct (decide (a = 0)) as [->|]; [simpl; lia|]. apply Z.log2_lt_pow2; lia.
  - destruct (decide (b = 0)) as [->|]; [simpl; lia|]. apply Z.log2_lt_pow2; lia.
Qed.

Lemma shiftr_range n k a : 0 ≤ k → 0 ≤ a < 2 ^ n → 0 ≤ Z.shiftr a k < 2 ^ n.
Proof.
  intros Hk Ha. rewrite Z.shiftr_div_pow2 by done.
  assert (0 < 2 ^ k) by (apply Z.pow_pos_nonneg; lia).
  split; [apply Z.div_pos; lia|].
  apply Z.le_lt_trans with a; [|lia]. apply Z.div_le_upper_bound; nia.
Qed.

(** The xor-shift [x ^= x >> k] loses no information. *)
Lemma xorshift_inj k x y :
  0 < k → 0 ≤ x → 0 ≤ y →
  Z.lxor x (Z.shiftr x k) = Z.lxor y (Z.shiftr y k) → x = y.
Proof.
  intros Hk Hx Hy H. apply Z.lxor_eq. set (d := Z.lxor x y).
  assert (0 ≤ d) as Hd by (apply Z.lxor_nonneg; lia).
  assert (d = Z.shiftr d k) as Hfix.
  { apply Z.lxor_eq. unfold d. rewrite Z.shiftr_lxor.
    rewrite Z.lxor_assoc, (Z.lxor_comm (Z.shiftr x k)), <- (Z.lxor_assoc y).
    rewrite <- H, Z.lxor_assoc, Z.lxor_nilpotent, Z.lxor_0_r.
    apply Z.lxor_nilpotent. }
  rewrite Z.shiftr_div_pow2 in Hfix by lia.
  destruct (decide (d = 0)) as [|Hne]; [done|].
  assert (d / 2 ^ k < d); [|lia]. apply Z.div_lt; [lia|].
  apply Z.pow_gt_1; lia.
Qed.

(** Multiplication by a unit modulo [2^64] loses no information. *)
Lemma u64_mul_inj c ci x y :
  u64 (c * ci) = 1 → 0 ≤ x < 2 ^ 64 → 0 ≤ y < 2 ^ 64 →
  u64 (x * c) = u64 (y * c) → x = y.
Proof.
  intros Hc Hx Hy H.
  assert (∀ z, 0 ≤ z < 2 ^ 64 → u64 (u64 (z * c) * ci) = z) as Hinv.
  { intros z Hz. unfold u64 in *. rewrite Zmult_mod_idemp_l, <- Z.mul_assoc.
    rewrite <- Zmult_mod_idemp_r, Hc, Z.mul_1_r. by apply Z.mod_small. }
  by rewrite <- (Hinv x Hx), <- (Hinv y Hy), H.
Qed.
