(* ===== verification/Float64.v ===== *)
(** * IEEE-754 binary64 arithmetic, as Go's [float64] uses it

    Go's [float64] operators round to nearest even at 53 bits of precision.
    The operations are the executable ones of [SpecFloat]; a decimal
    literal of the source is the correctly rounded quotient of two integers. *)

From S2P Require Import Prelude.
From stdpp Require Import prelude.
From Stdlib Require Import ZArith Lia.
From Stdlib Require SpecFloat.
Open Scope Z_scope.

Module float64.

Definition t : Type := SpecFloat.spec_float.

Definition add : t → t → t := SpecFloat.SFadd 53 1024.
Definition mul : t → t → t := SpecFloat.SFmul 53 1024.
Definition div : t → t → t := SpecFloat.SFdiv 53 1024.
Definition leb : t → t → bool := SpecFloat.SFleb.

(** [float64(z)] of an integer [z]. *)
Definition of_Z (z : Z) : t := SpecFloat.binary_normalize 53 1024 z 0 false.

(** The literal [n/d], rounded once. *)
Definition literal (n d : Z) : t := div (of_Z n) (of_Z d).

(** Truncation towards zero. *)
Definition trunc (f : t) : option Z :=
  match f with
  | SpecFloat.S754_zero _ => Some 0
  | SpecFloat.S754_finite neg mant e =>
      let mag := Z.shiftl (Z.pos mant) e in Some (if neg then - mag else mag)
  | _ => None
  end.

(** [uint64(f)] and [int(f)]: [None] where Go leaves the result of the
    conversion to the implementation (NaN, infinities, out of range). *)
Definition to_uint64 (f : t) : option Z :=
  z ← trunc f; if (0 <=? z) && (z <? 2 ^ 64) then Some z else None.
Definition to_int (f : t) : option Z :=
  z ← trunc f; if (- 2 ^ 63 <=? z) && (z <? 2 ^ 63) then Some z else None.

(** ** Rounding

    What the proofs need of [SpecFloat]'s rounding in the normal range: the
    product of two numbers is the exact product rounded to 53 bits, rounding is
    monotone, and it leaves a number of 53 bits alone. *)

Definition bits (m : Z) : Z := Z.log2 m + 1.

(** Nearest even multiple of [2^n], as a multiple. *)
Definition rne (m n : Z) : Z :=
  let q := m / 2 ^ n in
  let r := m mod 2 ^ n in
  if 2 * r <? 2 ^ n then q
  else if 2 * r =? 2 ^ n then (if Z.even q then q else q + 1)
  else q + 1.

(** A number of more than 53 bits, rounded to 53. *)
Definition round53 (m : Z) : Z := rne m (bits m - 53) * 2 ^ (bits m - 53).

Lemma digits2_bits p : Z.pos (SpecFloat.digits2_pos p) = bits (Z.pos p).
Proof.
  unfold bits. induction p as [p IH|p IH|]; [| |done]; cbn [SpecFloat.digits2_pos].
  - rewrite Pos2Z.inj_succ, IH, (Pos2Z.inj_xI p), Z.log2_succ_double by lia. lia.
  - rewrite Pos2Z.inj_succ, IH, (Pos2Z.inj_xO p), Z.log2_double by lia. lia.
Qed.

Lemma bits_spec m d : 0 < m → bits m = d ↔ 2 ^ (d - 1) ≤ m < 2 ^ d.
Proof.
  intros Hm. unfold bits. pose proof (Z.log2_nonneg m). split.
  - intros <-. replace (Z.log2 m + 1 - 1) with (Z.log2 m) by lia. by apply Z.log2_spec.
  - intros [Hlo Hhi]. destruct (decide (d ≤ 0)).
    + destruct (decide (d = 0)) as [->|]; [simpl in Hhi; lia|rewrite (Z.pow_neg_r 2 d) in Hhi by lia; lia].
    + rewrite (Z.log2_unique m (d - 1)); [lia|lia|]. split; [lia|]. by replace (Z.succ (d - 1)) with d by lia.
Qed.

Lemma rne_range m n : 0 ≤ n → 0 ≤ m → m / 2 ^ n ≤ rne m n ≤ m / 2 ^ n + 1.
Proof. intros. unfold rne. repeat case_match; lia. Qed.

Lemma rne_exact m n : 0 ≤ n → rne (m * 2 ^ n) n = m.
Proof.
  intros Hn. assert (0 < 2 ^ n) by (apply Z.pow_pos_nonneg; lia).
  unfold rne. rewrite Z.div_mul, Z.mod_mul by lia. destruct (Z.ltb_spec (2 * 0) (2 ^ n)); lia.
Qed.

Lemma rne_mono m m' n : 0 ≤ n → 0 ≤ m ≤ m' → rne m n ≤ rne m' n.
Proof.
  intros Hn [H0 Hle]. assert (0 < 2 ^ n) as Hp by (apply Z.pow_pos_nonneg; lia).
  pose proof (Z.div_le_mono m m' (2 ^ n) Hp Hle).
  destruct (decide (m / 2 ^ n = m' / 2 ^ n)) as [Heq|Hne].
  - pose proof (Z.div_mod m (2 ^ n)). pose proof (Z.div_mod m' (2 ^ n)).
    unfold rne. rewrite <- Heq. repeat case_match; bool_props; lia.
  - pose proof (rne_range m n Hn H0). pose proof (rne_range m' n). lia.
Qed.

(** Rounding to 53 bits gives 53 bits, or the next power of two. *)
Lemma rne53_bounds m : 53 ≤ bits m → 0 < m → 2 ^ 52 ≤ rne m (bits m - 53) ≤ 2 ^ 53.
Proof.
  intros Hb Hm. set (n := bits m - 53).
  pose proof (proj1 (bits_spec m (bits m) Hm) eq_refl) as [Hlo Hhi].
  replace (2 ^ (bits m - 1)) with (2 ^ 52 * 2 ^ n) in Hlo by (rewrite <- Z.pow_add_r by lia; f_equal; lia).
  replace (2 ^ bits m) with (2 ^ 53 * 2 ^ n) in Hhi by (rewrite <- Z.pow_add_r by lia; f_equal; lia).
  rewrite <- (rne_exact (2 ^ 52) n), <- (rne_exact (2 ^ 53) n) by lia.
  assert (0 < 2 ^ n) by (apply Z.pow_pos_nonneg; lia). split; apply rne_mono; lia.
Qed.

Lemma round53_bounds m : 53 ≤ bits m → 0 < m → 2 ^ (bits m - 1) ≤ round53 m ≤ 2 ^ bits m.
Proof.
  intros Hb Hm. pose proof (rne53_bounds m Hb Hm) as Hq. unfold round53. set (n := bits m - 53) in *.
  replace (2 ^ (bits m - 1)) with (2 ^ 52 * 2 ^ n) by (rewrite <- Z.pow_add_r by lia; f_equal; lia).
  replace (2 ^ bits m) with (2 ^ 53 * 2 ^ n) by (rewrite <- Z.pow_add_r by lia; f_equal; lia).
  assert (0 < 2 ^ n) by (apply Z.pow_pos_nonneg; lia).
  split; apply Z.mul_le_mono_nonneg_r; lia.
Qed.

Lemma bits_mono m m' : m ≤ m' → bits m ≤ bits m'.
Proof. intros. unfold bits. pose proof (Z.log2_le_mono m m'). lia. Qed.

Lemma round53_mono m m' : 53 ≤ bits m → 0 < m ≤ m' → round53 m ≤ round53 m'.
Proof.
  intros Hb Hm. pose proof (bits_mono m m').
  destruct (decide (bits m = bits m')) as [Heq|Hne].
  - unfold round53. rewrite <- Heq. apply Z.mul_le_mono_nonneg_r; [apply Z.pow_nonneg; lia|].
    apply rne_mono; lia.
  - pose proof (round53_bounds m Hb). pose proof (round53_bounds m').
    pose proof (Z.pow_le_mono_r 2 (bits m) (bits m' - 1)). lia.
Qed.

Lemma round53_fix k n : 0 < k → 53 ≤ bits (k * 2 ^ n) → bits k ≤ 53 → 0 ≤ n → round53 (k * 2 ^ n) = k * 2 ^ n.
Proof.
  intros Hk Hb Hk53 Hn. unfold round53.
  assert (bits (k * 2 ^ n) = bits k + n) as E.
  { unfold bits. rewrite Z.log2_mul_pow2 by lia. lia. }
  rewrite E in *. set (j := bits k + n - 53) in *.
  replace (2 ^ n) with (2 ^ (n - j) * 2 ^ j) by (rewrite <- Z.pow_add_r by lia; f_equal; lia).
  rewrite Z.mul_assoc, rne_exact by lia. done.
Qed.

(** [SpecFloat] shifts one bit at a time, keeping the bit shifted out last and
    whether a bit before it was set. *)
Lemma iter_pos_nat {A} (f : A → A) n x : SpecFloat.iter_pos f n x = Nat.iter (Pos.to_nat n) f x.
Proof.
  revert x. induction n as [n IH|n IH|]; intros x; cbn [SpecFloat.iter_pos];
    rewrite ?IH; [| |done].
  - replace (Pos.to_nat n~1) with (Pos.to_nat n + (Pos.to_nat n + 1))%nat by lia.
    by rewrite !Nat.iter_add.
  - replace (Pos.to_nat n~0) with (Pos.to_nat n + Pos.to_nat n)%nat by lia.
    by rewrite Nat.iter_add.
Qed.

Lemma shr_1_spec m r s :
  0 ≤ m →
  SpecFloat.shr_1 (SpecFloat.Build_shr_record m r s)
  = SpecFloat.Build_shr_record (m / 2) (Z.odd m) (r || s).
Proof.
  intros Hm. destruct m as [|[p|p|]|]; [done| | |done|lia]; simpl; f_equal.
  - rewrite Pos2Z.inj_xI. replace (2 * Z.pos p + 1) with (1 + Z.pos p * 2) by lia.
    by rewrite Z.div_add.
  - rewrite Pos2Z.inj_xO. replace (2 * Z.pos p) with (Z.pos p * 2) by lia. by rewrite Z.div_mul.
Qed.

Lemma shr_iter m (n : nat) :
  0 ≤ m →
  Nat.iter (S n) SpecFloat.shr_1 (SpecFloat.Build_shr_record m false false)
  = SpecFloat.Build_shr_record (m / 2 ^ Z.of_nat (S n)) (Z.odd (m / 2 ^ Z.of_nat n))
      (negb (m mod 2 ^ Z.of_nat n =? 0)).
Proof.
  intros Hm. induction n as [|n IH].
  - change (Nat.iter 1 SpecFloat.shr_1 ?x) with (SpecFloat.shr_1 x). rewrite shr_1_spec by done.
    change (2 ^ Z.of_nat 0) with 1. by rewrite Z.div_1_r, Z.mod_1_r.
  - change (Nat.iter (S (S n)) SpecFloat.shr_1 ?x) with (SpecFloat.shr_1 (Nat.iter (S n) SpecFloat.shr_1 x)).
    rewrite IH, shr_1_spec by (apply Z.div_pos; [done|apply Z.pow_pos_nonneg; lia]).
    assert (0 < 2 ^ Z.of_nat n) as Hp by (apply Z.pow_pos_nonneg; lia).
    assert (∀ j, 2 ^ Z.of_nat (S j) = 2 ^ Z.of_nat j * 2) as E.
    { intros j. rewrite Nat2Z.inj_succ, Z.pow_succ_r by lia. lia. }
    f_equal.
    + rewrite Z.div_div, <- E; [done| |lia]. pose proof (E n). lia.
    + rewrite (E n), (Z.rem_mul_r m (2 ^ Z.of_nat n) 2) by lia.
      rewrite Zmod_odd. pose proof (Z.mod_pos_bound m (2 ^ Z.of_nat n) Hp).
      destruct (Z.odd _); simpl; [|by rewrite Z.mul_0_r, Z.add_0_r].
      symmetry. apply negb_true_iff, Z.eqb_neq. lia.
Qed.

Lemma round_shr m e n :
  0 < n → 0 ≤ m →
  let mrs := (SpecFloat.shr (SpecFloat.shr_record_of_loc m SpecFloat.loc_Exact) e n).1 in
  SpecFloat.round_nearest_even (SpecFloat.shr_m mrs) (SpecFloat.loc_of_shr_record mrs) = rne m n.
Proof.
  intros Hn Hm. destruct n as [|p|]; [lia| |lia]. simpl. rewrite iter_pos_nat.
  destruct (Pos.to_nat p) as [|j] eqn:Hj; [lia|]. rewrite shr_iter by done.
  replace (Z.pos p) with (Z.of_nat (S j)) by lia. unfold rne. simpl SpecFloat.shr_m.
  assert (0 < 2 ^ Z.of_nat j) as Hp by (apply Z.pow_pos_nonneg; lia).
  rewrite !Nat2Z.inj_succ, Z.pow_succ_r, (Z.mul_comm 2 (2 ^ _)) by lia.
  rewrite (Z.rem_mul_r m (2 ^ Z.of_nat j) 2), Zmod_odd by lia.
  pose proof (Z.mod_pos_bound m (2 ^ Z.of_nat j) Hp).
  destruct (Z.odd (m / 2 ^ Z.of_nat j)), (Z.eqb_spec (m mod 2 ^ Z.of_nat j) 0); simpl;
    repeat case_match; bool_props; lia.
Qed.

Lemma shr_exponent mrs e n : 0 ≤ n → (SpecFloat.shr mrs e n).2 = e + n.
Proof. intros. destruct n; simpl; lia. Qed.

Lemma Zdigits2_bits m : 0 < m → SpecFloat.Zdigits2 m = bits m.
Proof. destruct m as [|p|p]; [lia| |lia]. intros _. apply digits2_bits. Qed.

Lemma fexp53 d e : -1000 ≤ d + e → SpecFloat.fexp 53 1024 (d + e) - e = d - 53.
Proof. unfold SpecFloat.fexp, SpecFloat.emin. lia. Qed.

(** A mantissa in the range of the result is kept, the power of two above it
    shifted by one place. *)
Lemma renormalize q e :
  2 ^ 52 ≤ q ≤ 2 ^ 53 → -900 ≤ e ≤ 0 →
  (let '(mrs, e') := SpecFloat.shr_fexp 53 1024 q e SpecFloat.loc_Exact in
   trunc (match SpecFloat.shr_m mrs with
          | 0 => SpecFloat.S754_zero false
          | Z.pos m => if e' <=? 1024 - 53 then SpecFloat.S754_finite false m e' else SpecFloat.S754_infinity false
          | _ => SpecFloat.S754_nan
          end)) = Some (q / 2 ^ (- e)).
Proof.
  intros Hq He. unfold SpecFloat.shr_fexp. rewrite Zdigits2_bits by lia.
  destruct (decide (q = 2 ^ 53)) as [->|Hne].
  - change (bits (2 ^ 53)) with 54. rewrite fexp53 by lia.
    change (SpecFloat.shr _ e (54 - 53)) with (SpecFloat.Build_shr_record 4503599627370496 false false, e + 1).
    cbn [SpecFloat.shr_m]. destruct (Z.leb_spec (e + 1) (1024 - 53)); [|lia]. cbn [trunc]. f_equal.
    change (2 ^ 53) with (4503599627370496 * 2). generalize 4503599627370496. intros z.
    destruct (decide (e = 0)) as [->|]; [rewrite Z.shiftl_mul_pow2, Z.div_1_r by lia; done|].
    replace (- e) with (- (e + 1) + 1) by lia. rewrite Z.pow_add_r, Z.pow_1_r by lia.
    rewrite Z.div_mul_cancel_r, <- Z.shiftr_div_pow2 by (try apply Z.pow_nonzero; lia).
    by rewrite <- Z.shiftl_opp_r, Z.opp_involutive.
  - assert (bits q = 53) as Hb by (apply bits_spec; lia). rewrite Hb, fexp53 by lia.
    change (SpecFloat.shr ?r e (53 - 53)) with (r, e). cbn [SpecFloat.shr_m SpecFloat.shr_record_of_loc].
    destruct q as [|q|q]; [lia| |lia]. destruct (Z.leb_spec e (1024 - 53)); [|lia]. cbn [trunc]. f_equal.
    by rewrite <- Z.shiftr_div_pow2, <- Z.shiftl_opp_r, Z.opp_involutive by lia.
Qed.

(** The rounded product of two positive numbers, truncated. *)
Lemma round_aux_trunc m e :
  54 ≤ bits m → 0 < m → -900 ≤ e → bits m + e ≤ 53 →
  trunc (SpecFloat.binary_round_aux 53 1024 false m e SpecFloat.loc_Exact) = Some (round53 m / 2 ^ (- e)).
Proof.
  intros Hb Hm He Hme. unfold SpecFloat.binary_round_aux. unfold SpecFloat.shr_fexp at 1.
  rewrite Zdigits2_bits, fexp53 by lia. set (n := bits m - 53).
  pose proof (round_shr m e n ltac:(lia) ltac:(lia)) as Hr.
  pose proof (shr_exponent (SpecFloat.shr_record_of_loc m SpecFloat.loc_Exact) e n ltac:(lia)) as Hx.
  destruct (SpecFloat.shr _ e n) as [mrs e']. simpl in Hr, Hx. rewrite Hr, Hx.
  pose proof (renormalize (rne m n) (e + n) (rne53_bounds m ltac:(lia) Hm) ltac:(lia)) as Hq.
  destruct (SpecFloat.shr_fexp 53 1024 (rne m n) (e + n) SpecFloat.loc_Exact) as [mrs2 e2].
  refine (eq_trans Hq _). f_equal. unfold round53. fold n.
  replace (- e) with (- (e + n) + n) by lia. rewrite Z.pow_add_r by lia.
  rewrite Z.div_mul_cancel_r; [done| |]; apply Z.pow_nonzero; lia.
Qed.

(** *** An integer below [2^53], and a fraction of it *)

Lemma iter_xO m d : Z.pos (Pos.iter xO m d) = Z.pos m * 2 ^ Z.pos d.
Proof.
  induction d as [|d IH] using Pos.peano_ind; [simpl; lia|].
  rewrite Pos.iter_succ, Pos2Z.inj_xO, IH, Pos2Z.inj_succ, Z.pow_succ_r by lia. lia.
Qed.

Lemma round_aux_exact m e :
  bits (Z.pos m) = 53 → -900 ≤ e ≤ 900 →
  SpecFloat.binary_round_aux 53 1024 false (Z.pos m) e SpecFloat.loc_Exact = SpecFloat.S754_finite false m e.
Proof.
  intros Hb He. unfold SpecFloat.binary_round_aux, SpecFloat.shr_fexp.
  rewrite Zdigits2_bits, Hb, fexp53 by lia. change (SpecFloat.shr ?r e (53 - 53)) with (r, e).
  cbn [SpecFloat.shr_m SpecFloat.shr_record_of_loc SpecFloat.loc_of_shr_record SpecFloat.round_nearest_even].
  rewrite Zdigits2_bits, Hb, fexp53 by lia. change (SpecFloat.shr ?r e (53 - 53)) with (r, e).
  cbn [SpecFloat.shr_m SpecFloat.shr_record_of_loc]. destruct (Z.leb_spec e (1024 - 53)); [done|lia].
Qed.

Lemma of_Z_spec k :
  0 < k < 2 ^ 53 →
  ∃ m, of_Z k = SpecFloat.S754_finite false m (bits k - 53) ∧ Z.pos m = k * 2 ^ (53 - bits k).
Proof.
  intros Hk. unfold of_Z, SpecFloat.binary_normalize. destruct k as [|k|]; [lia| |lia].
  assert (1 ≤ bits (Z.pos k) ≤ 53) as Hb.
  { split; [unfold bits; pose proof (Z.log2_nonneg (Z.pos k)); lia|]. unfold bits.
    pose proof (Z.log2_lt_pow2 (Z.pos k) 53). lia. }
  unfold SpecFloat.binary_round. rewrite digits2_bits. pose proof (fexp53 (bits (Z.pos k)) 0) as Hf.
  unfold SpecFloat.shl_align. rewrite Hf by lia. rewrite Z.sub_0_r in Hf.
  assert (∀ m, Z.pos m = Z.pos k * 2 ^ (53 - bits (Z.pos k)) → bits (Z.pos m) = 53) as Hm.
  { intros m ->. unfold bits in *. rewrite Z.log2_mul_pow2 by lia. lia. }
  rewrite Hf by lia. destruct (bits (Z.pos k) - 53) as [|d|d] eqn:Hd; [|lia|].
  - assert (Z.pos k = Z.pos k * 2 ^ (53 - bits (Z.pos k))) as Hk'.
    { replace (53 - bits (Z.pos k)) with 0 by lia. lia. }
    exists k. split; [|done]. apply round_aux_exact; [by apply Hm|lia].
  - assert (Z.pos (Pos.iter xO k d) = Z.pos k * 2 ^ (53 - bits (Z.pos k))) as Hk'.
    { rewrite iter_xO. f_equal. f_equal. lia. }
    exists (Pos.iter xO k d). split; [|done]. apply round_aux_exact; [by apply Hm|lia].
Qed.

(** [int(p * float64(k))] for a [p] in [[1/2, 1)]. *)
Lemma scale_trunc (m : positive) k :
  bits (Z.pos m) = 53 → 0 < k < 2 ^ 53 →
  let j := 53 - bits k in
  105 ≤ bits (Z.pos m * (k * 2 ^ j)) ∧
  trunc (mul (SpecFloat.S754_finite false m (-53)) (of_Z k))
  = Some (round53 (Z.pos m * (k * 2 ^ j)) / 2 ^ (53 + j)).
Proof.
  intros Hm Hk j. destruct (of_Z_spec k Hk) as (n & -> & Hn). fold j in Hn. rewrite <- Hn.
  assert (1 ≤ bits k ≤ 53) as Hb.
  { unfold bits. pose proof (Z.log2_nonneg k). pose proof (Z.log2_lt_pow2 k 53). lia. }
  assert (bits (Z.pos n) = 53) as Hn53.
  { rewrite Hn. unfold bits in *. rewrite Z.log2_mul_pow2 by lia. lia. }
  assert (105 ≤ bits (Z.pos m * Z.pos n) ≤ 106) as Hmn.
  { unfold bits in *. pose proof (Z.log2_mul_below (Z.pos m) (Z.pos n)).
    pose proof (Z.log2_mul_above (Z.pos m) (Z.pos n)). lia. }
  split; [lia|]. unfold mul. simpl. rewrite <- Pos2Z.inj_mul in *.
  rewrite round_aux_trunc by lia. do 2 f_equal. f_equal. lia.
Qed.

Lemma scale_mono (m m' : positive) k i i' :
  bits (Z.pos m) = 53 → bits (Z.pos m') = 53 → (m ≤ m')%positive → 0 ≤ k < 2 ^ 53 →
  trunc (mul (SpecFloat.S754_finite false m (-53)) (of_Z k)) = Some i →
  trunc (mul (SpecFloat.S754_finite false m' (-53)) (of_Z k)) = Some i' → i ≤ i'.
Proof.
  intros Hm Hm' Hle Hk Hi Hi'. destruct (decide (k = 0)) as [->|]; [simpl in *; simplify_eq; done|].
  destruct (scale_trunc m k Hm ltac:(lia)) as [Hb H]. destruct (scale_trunc m' k Hm' ltac:(lia)) as [_ H'].
  rewrite Hi in H. rewrite Hi' in H'. simplify_eq.
  assert (0 < 2 ^ (53 - bits k)).
  { apply Z.pow_pos_nonneg; [lia|]. unfold bits. pose proof (Z.log2_lt_pow2 k 53). lia. }
  apply Z.div_le_mono; [|apply round53_mono; nia].
  apply Z.pow_pos_nonneg; [lia|]. unfold bits. pose proof (Z.log2_lt_pow2 k 53). lia.
Qed.

Lemma scale_range (m : positive) k :
  bits (Z.pos m) = 53 → 0 ≤ k < 2 ^ 53 →
  ∃ i, trunc (mul (SpecFloat.S754_finite false m (-53)) (of_Z k)) = Some i ∧ 0 ≤ i ≤ k.
Proof.
  intros Hm Hk. destruct (decide (k = 0)) as [->|]; [by exists 0|].
  destruct (scale_trunc m k Hm ltac:(lia)) as [Hb ->]. eexists. split; [done|].
  set (j := 53 - bits k) in *.
  assert (0 ≤ j) by (subst j; unfold bits; pose proof (Z.log2_lt_pow2 k 53); lia).
  assert (0 < 2 ^ j) by (apply Z.pow_pos_nonneg; lia).
  assert (0 < 2 ^ (53 + j)) by (apply Z.pow_pos_nonneg; lia).
  apply bits_spec in Hm; [|lia]. change (53 - 1) with 52 in Hm. split.
  - apply Z.div_pos; [|done]. apply Z.mul_nonneg_nonneg; [|apply Z.pow_nonneg; lia].
    pose proof (rne53_bounds (Z.pos m * (k * 2 ^ j))). nia.
  - transitivity (round53 (k * 2 ^ (53 + j)) / 2 ^ (53 + j)).
    + apply Z.div_le_mono; [done|]. apply round53_mono; [lia|]. rewrite Z.pow_add_r by lia. nia.
    + rewrite round53_fix, Z.div_mul; try lia.
      unfold bits. rewrite Z.log2_mul_pow2 by lia. pose proof (Z.log2_nonneg k). lia.
Qed.

(** Halving is exact. *)
Lemma half_trunc k :
  0 ≤ k < 2 ^ 53 → trunc (mul (SpecFloat.S754_finite false 4503599627370496 (-53)) (of_Z k)) = Some (k / 2).
Proof.
  intros Hk. destruct (decide (k = 0)) as [->|]; [done|].
  destruct (scale_trunc 4503599627370496 k eq_refl ltac:(lia)) as [Hb ->]. f_equal.
  set (j := 53 - bits k) in *. change 4503599627370496 with (2 ^ 52) in *.
  assert (0 ≤ j) by (subst j; unfold bits; pose proof (Z.log2_lt_pow2 k 53); lia).
  replace (2 ^ 52 * (k * 2 ^ j)) with (k * 2 ^ (52 + j)) in * by (rewrite Z.pow_add_r by lia; lia).
  rewrite round53_fix by lia. replace (53 + j) with (1 + (52 + j)) by lia.
  rewrite (Z.pow_add_r 2 1), Z.div_mul_cancel_r by (try apply Z.pow_nonzero; lia). done.
Qed.

End float64.
