(* ===== verification/Hll.v ===== *)
(** * [internal/hll]: the HyperLogLog sketch

    [hll.Sketch] is the Go struct; [New], [Add], [Estimate], [Merge], [Bytes],
    [FromBytes] and [hash64] are its operations, [AddAll] the loop that the
    store runs over them.  A slice index out of range is a run-time panic in
    Go, so the operations that index return an [option] and the invariant [wf]
    shows that the panic is unreachable. *)

From S2P Require Import Prelude Float64.
From stdpp Require Import prelude strings list.
From Stdlib Require Import ZArith Lia Ascii.
Open Scope Z_scope.

Module hll.

(** ** Data and operations *)

Definition Precision : Z := 14.
Definition m : Z := Z.shiftl 1 Precision.
Definition formatVersion : Z := 1.

#[global] Arguments m : simpl never.

Record Sketch : Type := MkSketch { regs : list Z }.

Definition New : Sketch := MkSketch (replicate (Z.to_nat m) 0).

#[global] Arguments New : simpl never.

(** The bytes of a Go string. *)
Definition string_bytes (s : string) : list Z :=
  map (λ c, Z.of_N (N_of_ascii c)) (String.list_ascii_of_string s).

(** [hash/fnv]'s 64-bit FNV-1a. *)
Definition fnv1a64 (bs : list Z) : Z :=
  fold_left (λ h b, u64 (Z.lxor h b * 1099511628211)) bs 14695981039346656037.

(** The splitmix64 finalizer that [hash64] applies to the FNV sum. *)
Definition mix64 (x : Z) : Z :=
  let x := Z.lxor x (Z.shiftr x 30) in
  let x := u64 (x * 0xbf58476d1ce4e5b9) in
  let x := Z.lxor x (Z.shiftr x 27) in
  let x := u64 (x * 0x94d049bb133111eb) in
  Z.lxor x (Z.shiftr x 31).

Definition hash64 (value : string) : Z := mix64 (fnv1a64 (string_bytes value)).

(** [math/bits]: [Len64] and [LeadingZeros64]. *)
Definition Len64 (x : Z) : Z := if x =? 0 then 0 else Z.log2 x + 1.
Definition LeadingZeros64 (x : Z) : Z := 64 - Len64 x.

Definition Add (s : Sketch) (value : string) : option Sketch :=
  let h := hash64 value in
  let idx := Z.shiftr h (64 - Precision) in
  let rest := u64 (Z.shiftl h Precision) in
  let rank := u8 (u8 (LeadingZeros64 rest) + 1) in
  let rank := if 64 - Precision + 1 <? rank then 64 - Precision + 1 else rank in
  match regs s !! Z.to_nat idx with
  | None => None
  | Some r =>
      Some (if r <? rank then MkSketch (<[Z.to_nat idx := rank]> (regs s)) else s)
  end.

Fixpoint AddAll (s : Sketch) (values : list string) : option Sketch :=
  match values with
  | [] => Some s
  | v :: values =>
      match Add s v with Some s' => AddAll s' values | None => None end
  end.

(** One pass of the loop of [Estimate]: the harmonic sum and the zero count. *)
Definition est_step (acc : float64.t * Z) (r : Z) : float64.t * Z :=
  let '(sum, zeros) := acc in
  (float64.add sum (float64.div (float64.of_Z 1) (float64.of_Z (u64 (Z.shiftl 1 r)))),
   if r =? 0 then zeros + 1 else zeros).

(** [math.Log] is an argument: its rounding is platform-specific. *)
Definition Estimate (math_Log : float64.t → float64.t) (s : Sketch) : option Z :=
  let '(sum, zeros) := fold_left est_step (regs s) (float64.of_Z 0, 0) in
  let fm := float64.of_Z m in
  let alpha :=
    float64.div (float64.literal 7213 10000)
      (float64.add (float64.of_Z 1) (float64.div (float64.literal 1079 1000) fm)) in
  let e := float64.div (float64.mul (float64.mul alpha fm) fm) sum in
  let e :=
    if float64.leb e (float64.mul (float64.literal 5 2) fm) && (0 <? zeros)
    then float64.mul fm (math_Log (float64.div fm (float64.of_Z zeros)))
    else e in
  float64.to_uint64 (float64.add e (float64.literal 1 2)).

(** The [range other.regs] loop of [Merge], from register [i] on. *)
Fixpoint merge_loop (i : nat) (other rs : list Z) : option (list Z) :=
  match other with
  | [] => Some rs
  | r :: other =>
      match rs !! i with
      | None => None
      | Some r0 => merge_loop (S i) other (if r0 <? r then <[i := r]> rs else rs)
      end
  end.

Definition Merge (s other : Sketch) : option Sketch :=
  MkSketch <$> merge_loop 0 (regs other) (regs s).

(** Go's [copy(dst, src)]. *)
Definition copy (dst src : list Z) : list Z :=
  take (length dst) src ++ drop (length src) dst.

Definition Bytes (s : Sketch) : list Z :=
  let out := replicate (Z.to_nat (2 + m)) 0 in
  let out := <[0%nat := formatVersion]> out in
  let out := <[1%nat := Precision]> out in
  take 2 out ++ copy (drop 2 out) (regs s).

Definition errEncoding : string := "hll: invalid or incompatible sketch encoding".

Definition FromBytes (b : list Z) : result string Sketch :=
  if negb (Z.of_nat (length b) =? 2 + m)
     || negb (nth 0 b 0 =? formatVersion)
     || negb (nth 1 b 0 =? Precision)
  then Err errEncoding
  else Ok (MkSketch (copy (regs New) (drop 2 b))).

(** ** Specification *)

(** The register a value falls in, and the evidence it leaves there. *)
Definition reg_index (value : string) : nat := Z.to_nat (hash64 value / 2 ^ 50).
Definition reg_rank (value : string) : Z := 51 - Len64 (hash64 value mod 2 ^ 50).

(** The register-wise update [Add] is meant to perform. *)
Definition add_spec (s : Sketch) (value : string) : Sketch :=
  MkSketch (alter (Z.max (reg_rank value)) (reg_index value) (regs s)).

(** A sketch as [New] and [Add] build it: [m] registers, none above the cap. *)
Definition wf (s : Sketch) : Prop :=
  length (regs s) = Z.to_nat m ∧ Forall (λ r, 0 ≤ r ≤ 51) (regs s).

(** The sketch of a collection of values. *)
Definition sketch_of (values : list string) : Sketch := foldl add_spec New values.

(** ** Hashing *)

Lemma fnv1a64_range bs : 0 ≤ fnv1a64 bs < 2 ^ 64.
Proof.
  unfold fnv1a64. assert (0 ≤ 14695981039346656037 < 2 ^ 64) as H by lia. revert H.
  generalize 14695981039346656037.
  induction bs as [|b bs IH]; intros h Hh; simpl; [done|]. apply IH, u64_range.
Qed.

Lemma xorshift_range k x : 0 ≤ k → 0 ≤ x < 2 ^ 64 → 0 ≤ Z.lxor x (Z.shiftr x k) < 2 ^ 64.
Proof. intros. apply lxor_range; [lia|done|]. by apply shiftr_range. Qed.

Lemma mix64_range x : 0 ≤ x < 2 ^ 64 → 0 ≤ mix64 x < 2 ^ 64.
Proof. intros. unfold mix64. apply xorshift_range; [lia|]. apply u64_range. Qed.

Lemma hash64_eq v : hash64 v = mix64 (fnv1a64 (string_bytes v)).
Proof. done. Qed.

Lemma hash64_range v : 0 ≤ hash64 v < 2 ^ 64.
Proof. apply mix64_range, fnv1a64_range. Qed.

#[local] Hint Resolve hash64_range xorshift_range : tally.

Lemma mix64_inj x y :
  0 ≤ x < 2 ^ 64 → 0 ≤ y < 2 ^ 64 → mix64 x = mix64 y → x = y.
Proof.
  intros Hx Hy H. unfold mix64 in H.
  apply xorshift_inj in H; [|lia|apply u64_range..].
  apply (u64_mul_inj _ 0x319642b2d24d8ec3) in H;
    [|reflexivity|apply xorshift_range; auto using u64_range with lia..].
  apply xorshift_inj in H; [|lia|apply u64_range..].
  apply (u64_mul_inj _ 0x96de1b173f119089) in H;
    [|reflexivity|apply xorshift_range; auto with lia..].
  apply xorshift_inj in H; [done|lia..].
Qed.

(** ** The update [Add] performs *)

Lemma m_val : m = 16384.
Proof. reflexivity. Qed.

Lemma Len64_range x n : 0 ≤ n → 0 ≤ x < 2 ^ n → 0 ≤ Len64 x ≤ n.
Proof.
  intros Hn Hx. unfold Len64. destruct (Z.eqb_spec x 0) as [->|Hne]; [lia|].
  pose proof (Z.log2_nonneg x). assert (Z.log2 x < n); [|lia].
  apply Z.log2_lt_pow2; lia.
Qed.

Lemma Len64_shift x k : 0 < x → 0 ≤ k → Len64 (x * 2 ^ k) = Len64 x + k.
Proof.
  intros Hx Hk. assert (0 < 2 ^ k) by (apply Z.pow_pos_nonneg; lia). unfold Len64.
  destruct (Z.eqb_spec x 0); [lia|]. destruct (Z.eqb_spec (x * 2 ^ k) 0); [nia|].
  rewrite Z.log2_mul_pow2 by lia. lia.
Qed.

Lemma reg_index_lt v : (reg_index v < Z.to_nat m)%nat.
Proof.
  unfold reg_index. pose proof (hash64_range v). rewrite m_val.
  apply Z2Nat.inj_lt; [apply Z.div_pos; lia|lia|]. apply Z.div_lt_upper_bound; lia.
Qed.

Lemma reg_rank_range v : 1 ≤ reg_rank v ≤ 51.
Proof.
  unfold reg_rank. pose proof (Len64_range (hash64 v mod 2 ^ 50) 50 ltac:(lia)
    ltac:(apply Z.mod_pos_bound; lia)). lia.
Qed.

(** The bit manipulation of [Add] computes the capped rank. *)
Lemma rank_computed h :
  0 ≤ h < 2 ^ 64 →
  (let rank := u8 (u8 (LeadingZeros64 (u64 (Z.shiftl h Precision))) + 1) in
   if 64 - Precision + 1 <? rank then 64 - Precision + 1 else rank)
  = 51 - Len64 (h mod 2 ^ 50).
Proof.
  intros Hh. cbv zeta. set (l := h mod 2 ^ 50).
  assert (0 ≤ l < 2 ^ 50) as Hl by (apply Z.mod_pos_bound; lia).
  assert (u64 (Z.shiftl h Precision) = l * 2 ^ 14) as ->.
  { unfold u64, Precision. rewrite Z.shiftl_mul_pow2 by lia.
    change (2 ^ 64) with (2 ^ 50 * 2 ^ 14). by rewrite Z.mul_mod_distr_r by lia. }
  unfold LeadingZeros64. pose proof (Len64_range l 50 ltac:(lia) Hl).
  destruct (decide (l = 0)) as [->|Hne]; [reflexivity|].
  rewrite Len64_shift by lia. unfold Precision.
  rewrite (u8_small (64 - _)) by lia. rewrite u8_small by lia.
  destruct (Z.ltb_spec (64 - 14 + 1) (64 - (Len64 l + 14) + 1)); lia.
Qed.

Lemma Add_spec s v : length (regs s) = Z.to_nat m → Add s v = Some (add_spec s v).
Proof.
  intros Hlen. unfold Add. cbv zeta.
  pose proof (rank_computed (hash64 v) (hash64_range v)) as Hrank. cbv zeta in Hrank.
  rewrite Hrank. fold (reg_rank v).
  rewrite Z.shiftr_div_pow2 by (unfold Precision; lia).
  change (64 - Precision) with 50. fold (reg_index v).
  destruct (lookup_lt_is_Some_2 (regs s) (reg_index v)) as [r Hr].
  { rewrite Hlen. apply reg_index_lt. }
  rewrite Hr. f_equal. unfold add_spec. destruct s as [rs]; simpl in *.
  rewrite (list_alter_insert _ _ _ r Hr).
  destruct (Z.ltb_spec r (reg_rank v)).
  - by rewrite Z.max_l by lia.
  - rewrite Z.max_r by lia. by rewrite list_insert_id.
Qed.

Lemma New_wf : wf New.
Proof.
  unfold wf, New; cbn [regs].
  split; [apply length_replicate|]. apply Forall_replicate. lia.
Qed.

Lemma add_spec_wf s v : wf s → wf (add_spec s v).
Proof.
  intros [Hl HF]. split; simpl; [by rewrite length_alter|].
  apply Forall_alter; [done|]. pose proof (reg_rank_range v). intros; simpl; lia.
Qed.

Lemma foldl_add_spec_wf s vs : wf s → wf (foldl add_spec s vs).
Proof. revert s. induction vs; simpl; auto using add_spec_wf. Qed.

Lemma AddAll_spec s vs : wf s → AddAll s vs = Some (foldl add_spec s vs).
Proof.
  revert s. induction vs as [|v vs IH]; intros s Hs; simpl; [done|].
  rewrite Add_spec by apply Hs. apply IH, add_spec_wf, Hs.
Qed.

Lemma sketch_of_wf vs : wf (sketch_of vs).
Proof. apply foldl_add_spec_wf, New_wf. Qed.
#[local] Hint Resolve New_wf add_spec_wf sketch_of_wf : tally.

(** ** What a sketch remembers: per register, the largest rank *)

Definition max_rank (vs : list string) (i : nat) : Z :=
  foldr (λ v a, if decide (reg_index v = i) then Z.max (reg_rank v) a else a) 0 vs.

Lemma max_rank_le vs i k :
  max_rank vs i ≤ k ↔ 0 ≤ k ∧ ∀ v, v ∈ vs → reg_index v = i → reg_rank v ≤ k.
Proof.
  induction vs as [|v vs IH]; simpl.
  { split; [|tauto]. intros. split; [done|].
    intros v Hv. by apply not_elem_of_nil in Hv. }
  setoid_rewrite elem_of_cons.
  case_decide; [rewrite Z.max_lub_iff|]; rewrite IH; split; intuition (subst; eauto).
  congruence.
Qed.

Lemma max_rank_nonneg vs i : 0 ≤ max_rank vs i.
Proof. by apply (max_rank_le vs i (max_rank vs i)). Qed.

Lemma max_rank_same_elems vs1 vs2 i :
  same_elems vs1 vs2 → max_rank vs1 i = max_rank vs2 i.
Proof.
  assert (∀ l1 l2, same_elems l1 l2 → max_rank l1 i ≤ max_rank l2 i) as Hle.
  { intros l1 l2 Hs. apply max_rank_le. split; [apply max_rank_nonneg|].
    intros v Hv Hi. apply Hs in Hv. revert v Hv Hi. by apply max_rank_le. }
  intros Hs. apply Z.le_antisymm; apply Hle; [done|by symmetry].
Qed.

Lemma max_rank_app vs1 vs2 i :
  max_rank (vs1 ++ vs2) i = Z.max (max_rank vs1 i) (max_rank vs2 i).
Proof.
  induction vs1 as [|v vs1 IH]; simpl.
  - pose proof (max_rank_nonneg vs2 i). lia.
  - rewrite IH. case_decide; lia.
Qed.

Lemma foldl_add_spec_lookup s vs i :
  wf s →
  regs (foldl add_spec s vs) !! i = Z.max (max_rank vs i) <$> regs s !! i.
Proof.
  revert s. induction vs as [|v vs IH]; intros s Hs; simpl.
  - destruct (regs s !! i) as [r|] eqn:Hr; simpl; [|done].
    apply Forall_lookup_1 with (1 := proj2 Hs) in Hr. f_equal. lia.
  - rewrite IH by auto with tally. simpl. rewrite list_lookup_alter.
    destruct (decide (reg_index v = i)) as [->|]; [|done].
    destruct (regs s !! i); simpl; [|done]. f_equal. lia.
Qed.

Lemma foldl_add_spec_ext s vs1 vs2 :
  wf s → same_elems vs1 vs2 → foldl add_spec s vs1 = foldl add_spec s vs2.
Proof.
  intros Hs He.
  enough (regs (foldl add_spec s vs1) = regs (foldl add_spec s vs2)) as H.
  { revert H. destruct (foldl _ s vs1), (foldl _ s vs2). simpl. congruence. }
  apply list_eq. intros i. rewrite !foldl_add_spec_lookup by done.
  by rewrite (max_rank_same_elems vs1 vs2 i He).
Qed.

Lemma sketch_of_lookup vs i :
  (i < Z.to_nat m)%nat → regs (sketch_of vs) !! i = Some (max_rank vs i).
Proof.
  intros Hi. unfold sketch_of. rewrite foldl_add_spec_lookup by auto with tally.
  unfold New; cbn [regs]. rewrite lookup_replicate_2 by done. simpl.
  pose proof (max_rank_nonneg vs i). f_equal. lia.
Qed.

(** ** Merging *)

Lemma merge_loop_spec dn rest other :
  length other = length rest →
  merge_loop (length dn) other (dn ++ rest) = Some (dn ++ zip_with Z.max rest other).
Proof.
  revert dn rest. induction other as [|r other IH]; intros dn [|r0 rest] Hlen;
    simplify_eq/=; [done|].
  rewrite (list_lookup_middle dn rest r0 (length dn)) by done.
  replace (if r0 <? r then <[length dn := r]> (dn ++ r0 :: rest) else dn ++ r0 :: rest)
    with ((dn ++ [Z.max r0 r]) ++ rest).
  - replace (S (length dn)) with (length (dn ++ [Z.max r0 r]))
      by (rewrite length_app; simpl; lia).
    rewrite IH by done. by rewrite <- (assoc_L app).
  - rewrite <- (assoc_L app). simpl. destruct (Z.ltb_spec r0 r).
    + rewrite Z.max_r by lia. rewrite insert_app_r_alt by done.
      by rewrite Nat.sub_diag.
    + by rewrite Z.max_l by lia.
Qed.

Lemma Merge_spec s o :
  wf s → wf o → Merge s o = Some (MkSketch (zip_with Z.max (regs s) (regs o))).
Proof.
  intros [Hs _] [Ho _]. unfold Merge.
  pose proof (merge_loop_spec [] (regs s) (regs o)) as H. simpl in H.
  by rewrite H by congruence.
Qed.

(** ** Serialization *)

Lemma Bytes_spec s :
  length (regs s) = Z.to_nat m → Bytes s = formatVersion :: Precision :: regs s.
Proof.
  intros Hlen. unfold Bytes, copy.
  replace (Z.to_nat (2 + m)) with (S (S (Z.to_nat m))) by (rewrite m_val; lia).
  revert Hlen. generalize (Z.to_nat m). intros n Hlen. simpl.
  rewrite drop_0, length_replicate, Hlen, drop_ge by (rewrite length_replicate; lia).
  by rewrite take_ge, app_nil_r by lia.
Qed.

Lemma copy_full dst src : length src = length dst → copy dst src = src.
Proof.
  intros H. unfold copy. by rewrite take_ge, drop_ge, app_nil_r by lia.
Qed.

#[global] Opaque m New hash64.

Lemma regs_MkSketch rs : regs (MkSketch rs) = rs.
Proof. done. Qed.

Lemma New_length : length (regs New) = Z.to_nat m.
Proof. apply New_wf. Qed.

(** The guard of [FromBytes], as a proposition. *)
Lemma FromBytes_guard b :
  negb (Z.of_nat (length b) =? 2 + m) || negb (nth 0 b 0 =? formatVersion)
    || negb (nth 1 b 0 =? Precision) = false ↔
  ∃ rs, b = formatVersion :: Precision :: rs ∧ length rs = Z.to_nat m.
Proof.
  rewrite !orb_false_iff, !negb_false_iff, !Z.eqb_eq. pose proof m_val as Hm.
  split.
  - intros [[H1 H2] H3]. destruct b as [|b0 [|b1 rs]]; [cbn in H1; lia..|].
    cbn [nth] in *. subst. exists rs. split; [done|]. cbn [length] in H1. lia.
  - intros (rs & -> & Hrs). cbn [length nth]. rewrite Hrs. lia.
Qed.

Lemma FromBytes_Ok b s :
  FromBytes b = Ok s ↔ length (regs s) = Z.to_nat m ∧ b = Bytes s.
Proof.
  pose proof New_length as HNew. unfold FromBytes. split.
  - intros H. case_match eqn:Hc; [done|]. injection H as <-. rewrite regs_MkSketch.
    apply FromBytes_guard in Hc as (rs & -> & Hrs). cbn [drop]. rewrite drop_0.
    rewrite copy_full by congruence. split; [done|]. by rewrite Bytes_spec.
  - intros [Hlen ->]. rewrite Bytes_spec by done.
    rewrite (proj2 (FromBytes_guard _)) by eauto. cbn [drop]. rewrite drop_0.
    rewrite copy_full by congruence. by destruct s.
Qed.

(** ** Properties *)

(** C24: building a sketch never panics, whatever the values: [Add] stays
    inside the register array.  Every register then holds exactly the largest
    rank among the values that hash into it, and 0 when there are none. *)
Theorem AddAll_registers (vs : list string) :
  ∃ s, AddAll New vs = Some s ∧ wf s ∧
    ∀ i, (i < Z.to_nat m)%nat → regs s !! i = Some (max_rank vs i).
Proof.
  exists (sketch_of vs). split; [|split].
  - apply AddAll_spec, New_wf.
  - apply sketch_of_wf.
  - intros i. apply sketch_of_lookup.
Qed.

(** A sketch is a function of the SET of values added: the order of the
    calls and repeated values change nothing (so neither can they change the
    estimate). *)
Lemma AddAll_order_and_duplicates s vs1 vs2 :
  wf s → same_elems vs1 vs2 → AddAll s vs1 = AddAll s vs2.
Proof.
  intros Hs He. rewrite !AddAll_spec by done. f_equal. by apply foldl_add_spec_ext.
Qed.

(** Merging the sketches of two collections gives the sketch of their
    union, register for register, without a panic. *)
Lemma Merge_is_union vs1 vs2 :
  Merge (sketch_of vs1) (sketch_of vs2) = Some (sketch_of (vs1 ++ vs2)).
Proof.
  rewrite Merge_spec by auto with tally. f_equal.
  rewrite <- (regs_MkSketch (zip_with _ _ _)).
  destruct (sketch_of (vs1 ++ vs2)) as [rs] eqn:Hrs. f_equal.
  rewrite regs_MkSketch, <- (regs_MkSketch rs), <- Hrs. apply list_eq. intros i.
  destruct (decide (i < Z.to_nat m)%nat) as [Hi|Hi].
  - rewrite lookup_zip_with, !sketch_of_lookup by done. simpl. by rewrite max_rank_app.
  - rewrite !lookup_ge_None_2; [done|..];
      rewrite ?length_zip_with, !(proj1 (sketch_of_wf _)); lia.
Qed.

(** On well-formed sketches [Merge] is a join: commutative, associative
    and idempotent, so days, workers or shards may be folded in any order. *)
Lemma Merge_semilattice a b c :
  wf a → wf b → wf c →
  Merge a b = Merge b a ∧
  (ab ← Merge a b; Merge ab c) = (bc ← Merge b c; Merge a bc) ∧
  Merge a a = Some a.
Proof.
  intros Ha Hb Hc.
  assert (∀ x y, wf x → wf y → wf (MkSketch (zip_with Z.max (regs x) (regs y)))) as Hwf.
  { intros [xs] [ys] [Hx Fx] [Hy Fy]. split; cbn [regs] in *.
    - rewrite length_zip_with. lia.
    - rewrite Forall_lookup in *. intros i z. rewrite lookup_zip_with_Some.
      intros (x & y & -> & Hlx & Hly). apply Fx in Hlx. apply Fy in Hly. lia. }
  split; [|split]; rewrite !Merge_spec by done; simpl.
  - do 2 f_equal. apply zip_max_comm.
  - rewrite !Merge_spec by auto. do 2 f_equal. symmetry. apply zip_max_assoc.
  - destruct a as [rs]; cbn [regs]. do 2 f_equal. apply zip_max_idemp.
Qed.

(** C25: [FromBytes] accepts exactly the encodings that [Bytes] produces and
    returns the sketch they encode; any other byte string is the documented
    error. *)
Theorem FromBytes_inverts_Bytes b :
  match FromBytes b with
  | Ok s => length (regs s) = Z.to_nat m ∧ Bytes s = b
  | Err e => e = errEncoding ∧ ∀ s, wf s → Bytes s ≠ b
  end.
Proof.
  destruct (FromBytes b) as [s|e] eqn:H.
  - apply FromBytes_Ok in H as [? ->]. done.
  - split.
    + unfold FromBytes in H. case_match; congruence.
    + intros s Hs <-. rewrite (proj2 (FromBytes_Ok (Bytes s) s)) in H; [done|].
      split; [apply Hs|done].
Qed.

(** [Add] touches one register, the one named by the top 14 bits of the
    hash, and raises it to [rank]: the bits [49 .. 51 - rank] of the hash are
    zero and, unless the cap is reached, bit [50 - rank] is one. *)
Lemma Add_leading_zero_run s v :
  wf s →
  ∃ s' rank, Add s v = Some s' ∧ 1 ≤ rank ≤ 51 ∧
    (∀ j, 51 - rank ≤ j < 50 → Z.testbit (hash64 v) j = false) ∧
    (rank ≤ 50 → Z.testbit (hash64 v) (50 - rank) = true) ∧
    regs s' !! Z.to_nat (Z.shiftr (hash64 v) 50) =
      Z.max rank <$> regs s !! Z.to_nat (Z.shiftr (hash64 v) 50) ∧
    ∀ i, i ≠ Z.to_nat (Z.shiftr (hash64 v) 50) → regs s' !! i = regs s !! i.
Proof.
  intros Hs. exists (add_spec s v), (reg_rank v).
  rewrite Z.shiftr_div_pow2 by lia. fold (reg_index v).
  split; [apply Add_spec, Hs|]. split; [apply reg_rank_range|].
  pose proof (hash64_range v) as Hh. set (l := hash64 v mod 2 ^ 50).
  assert (0 ≤ l < 2 ^ 50) as Hl by (apply Z.mod_pos_bound; lia).
  assert (∀ j, 0 ≤ j < 50 → Z.testbit (hash64 v) j = Z.testbit l j) as Hbits.
  { intros j Hj. unfold l. by rewrite Z.mod_pow2_bits_low by lia. }
  assert (reg_rank v = 51 - Len64 l) as -> by done.
  pose proof (Len64_range l 50 ltac:(lia) Hl) as Hlen. unfold Len64 in *.
  split; [|split; [|split]].
  - destruct (Z.eqb_spec l 0) as [H0|Hne]; intros j Hj.
    + by rewrite Hbits, H0, Z.bits_0 by lia.
    + rewrite Hbits by (pose proof (Z.log2_nonneg l); lia). apply Z.bits_above_log2; lia.
  - destruct (Z.eqb_spec l 0) as [H0|Hne]; intros Hr; [lia|].
    pose proof (Z.log2_nonneg l). rewrite Hbits by lia.
    replace (50 - (51 - (Z.log2 l + 1))) with (Z.log2 l) by lia.
    apply Z.bit_log2. lia.
  - apply list_lookup_alter_eq.
  - intros i Hi. by apply list_lookup_alter_ne.
Qed.

(** The finalizer of [hash64] is a bijection of the 64-bit words it
    ranges over: two ids share a hash only when their FNV-1a sums collide. *)
Lemma hash64_collides_only_with_fnv a b :
  hash64 a = hash64 b → fnv1a64 (string_bytes a) = fnv1a64 (string_bytes b).
Proof. rewrite !hash64_eq. apply mix64_inj; apply fnv1a64_range. Qed.

(** ** Witnesses *)

Lemma AddAll_order_and_duplicates_example :
  AddAll New ["a"; "b"; "a"] = AddAll New ["b"; "a"].
Proof.
  apply AddAll_order_and_duplicates; [apply New_wf|].
  intros x. rewrite !elem_of_cons. tauto.
Defined.

Lemma hash64_collides_only_with_fnv_example :
  fnv1a64 (string_bytes "user_1") = fnv1a64 (string_bytes "user_1").
Proof. apply hash64_collides_only_with_fnv. reflexivity. Defined.

End hll.
