(* ===== verification/Clock.v ===== *)
(** * Instants, UTC days and their text

    [time.Time] is an instant, counted in nanoseconds since the Unix epoch.
    The store names a UTC day by [Format("2006-01-02")] and Postgres reads it
    back with a [::date] cast; both directions are modelled here, over the
    proleptic Gregorian calendar, and shown to be inverse to each other. *)

From S2P Require Import Prelude.
From stdpp Require Import prelude strings list.
From Stdlib Require Import ZArith Lia Ascii.
Open Scope Z_scope.

Module clock.

(** ** Instants *)

Definition time : Type := Z.

Definition Microsecond : Z := 1000.
Definition Millisecond : Z := 1000000.
Definition Second : Z := 1000000000.
Definition Minute : Z := 60 * Second.
Definition Day : Z := 86400 * Second.

(** The UTC day of an instant, counted from 1970-01-01. *)
Definition utc_day (t : time) : Z := t / Day.

(** ** The calendar *)

Definition is_leap (y : Z) : bool :=
  (y mod 4 =? 0) && (negb (y mod 100 =? 0) || (y mod 400 =? 0)).

Definition days_in_month (leap : bool) (mo : Z) : Z :=
  if mo =? 2 then (if leap then 29 else 28)
  else if (mo =? 4) || (mo =? 6) || (mo =? 9) || (mo =? 11) then 30 else 31.

(** Days of a common year before the first of month [mo] (0-based). *)
Definition daysBefore (mo : Z) : Z :=
  nth (Z.to_nat mo) [0; 31; 59; 90; 120; 151; 181; 212; 243; 273; 304; 334; 365] 0.

(** Day number, from 1970-01-01, of a civil date. *)
Definition days_before_year (y : Z) : Z :=
  365 * (y - 1) + (y - 1) / 4 - (y - 1) / 100 + (y - 1) / 400.

Definition day_of_year (leap : bool) (mo d : Z) : Z :=
  daysBefore (mo - 1) + (if (2 <? mo) && leap then 1 else 0) + (d - 1).

Definition days_of_civil (y mo d : Z) : Z :=
  days_before_year y + day_of_year (is_leap y) mo d - 719162.

Definition valid_civil (y mo d : Z) : bool :=
  (1 <=? mo) && (mo <=? 12) && (1 <=? d) && (d <=? days_in_month (is_leap y) mo).

(** Year and day of the year of a day counted from 0001-01-01: strip 400,
    100, 4 and 1 year cycles, as [Time.Date] does. *)
Definition year_split (d : Z) : Z * Z :=
  let n400 := d / 146097 in
  let d := d - 146097 * n400 in
  let n100 := d / 36524 - d / 36524 / 4 in
  let d := d - 36524 * n100 in
  let n4 := d / 1461 in
  let d := d - 1461 * n4 in
  let n1 := d / 365 - d / 365 / 4 in
  let d := d - 365 * n1 in
  (400 * n400 + 100 * n100 + 4 * n4 + n1 + 1, d).

(** Month and day of a day of the year. *)
Definition month_split (leap : bool) (yday : Z) : Z * Z :=
  if leap && (yday =? 59) then (2, 29) else
  let day := if leap && (59 <? yday) then yday - 1 else yday in
  let mo := day / 31 in
  let fin := daysBefore (mo + 1) in
  if fin <=? day then (mo + 2, day - fin + 1)
  else (mo + 1, day - daysBefore mo + 1).

(** Civil date of a day number ([Time.Date]). *)
Definition civil_of_days (z : Z) : Z * Z * Z :=
  let '(y, yday) := year_split (z + 719162) in
  let '(mo, d) := month_split (is_leap y) yday in
  (y, mo, d).

(** ** Text *)

Definition digit (n : Z) : ascii := ascii_of_N (Z.to_N (48 + n)).

Definition pad2 (n : Z) : list ascii := [digit (n / 10); digit (n mod 10)].
Definition pad4 (n : Z) : list ascii := pad2 (n / 100) ++ pad2 (n mod 100).

(** [t.UTC().Format("2006-01-02")], for the years 0 to 9999. *)
Definition format_day (t : time) : string :=
  let '(y, mo, d) := civil_of_days (utc_day t) in
  String.string_of_list_ascii (pad4 y ++ ["-"%char] ++ pad2 mo ++ ["-"%char] ++ pad2 d).

Definition undigit (c : ascii) : option Z :=
  let n := Z.of_N (N_of_ascii c) in
  if (48 <=? n) && (n <=? 57) then Some (n - 48) else None.

(** The [text::date] cast on [YYYY-MM-DD]; [None] is Postgres' error. *)
Definition pg_date (s : string) : option Z :=
  match String.list_ascii_of_string s with
  | [y1; y2; y3; y4; s1; m1; m2; s2; d1; d2] =>
      y1 ← undigit y1; y2 ← undigit y2; y3 ← undigit y3; y4 ← undigit y4;
      m1 ← undigit m1; m2 ← undigit m2; d1 ← undigit d1; d2 ← undigit d2;
      let y := 1000 * y1 + 100 * y2 + 10 * y3 + y4 in
      let mo := 10 * m1 + m2 in
      let d := 10 * d1 + d2 in
      if bool_decide (s1 = "-"%char) && bool_decide (s2 = "-"%char)
         && (1 <=? y) && valid_civil y mo d
      then Some (days_of_civil y mo d) else None
  | _ => None
  end.

(** The instants whose UTC year is 1 to 9999. *)
Definition year_ok (t : time) : bool :=
  (-719162 <=? utc_day t) && (utc_day t <=? 2932896).

(** ** The calendar round trip *)

Lemma year_split_spec d y yday :
  year_split d = (y, yday) →
  days_before_year y + yday = d ∧ 0 ≤ yday ≤ 365 ∧ (yday = 365 → is_leap y = true).
Proof.
  unfold year_split. intros [= Hy Hyd].
  set (n400 := d / 146097) in *. set (d1 := d - 146097 * n400) in *.
  assert (0 ≤ d1 < 146097) by (unfold d1, n400; Z.div_mod_to_equations; lia).
  set (n100 := d1 / 36524 - d1 / 36524 / 4) in *. set (d2 := d1 - 36524 * n100) in *.
  assert (0 ≤ n100 ≤ 3 ∧ 0 ≤ d2 ≤ 36524 ∧ (d2 = 36524 → n100 = 3)) as (? & ? & ?)
    by (unfold d2, n100; Z.div_mod_to_equations; lia).
  set (n4 := d2 / 1461) in *. set (d3 := d2 - 1461 * n4) in *.
  assert (0 ≤ n4 ≤ 24 ∧ 0 ≤ d3 ≤ 1460) as [??]
    by (unfold d3, n4; Z.div_mod_to_equations; lia).
  set (n1 := d3 / 365 - d3 / 365 / 4) in *.
  assert (0 ≤ n1 ≤ 3 ∧ 0 ≤ yday ≤ 365 ∧ (yday = 365 → d3 = 1460 ∧ n1 = 3)) as (? & ? & H365)
    by (unfold n1 in *; Z.div_mod_to_equations; lia).
  assert (y mod 4 = (n1 + 1) mod 4) as Hm4 by (Z.div_mod_to_equations; lia).
  assert ((y - 1) / 4 = 100 * n400 + 25 * n100 + n4) as Hd4 by (Z.div_mod_to_equations; lia).
  assert ((y - 1) / 100 = 4 * n400 + n100) as Hd100 by (Z.div_mod_to_equations; lia).
  assert ((y - 1) / 400 = n400) as Hd400 by (Z.div_mod_to_equations; lia).
  split; [|split; [lia|]].
  - unfold days_before_year. lia.
  - intros [Hd3 Hn1]%H365. unfold is_leap. rewrite Hm4, Hn1.
    destruct (Z.eqb_spec (y mod 100) 0), (Z.eqb_spec (y mod 400) 0); simpl; try done.
    Z.div_mod_to_equations; lia.
Qed.

Fixpoint forall_below (n : nat) (k : Z) (P : Z → bool) : bool :=
  match n with O => true | S n => P k && forall_below n (k + 1) P end.

Lemma forall_below_spec n k P z :
  forall_below n k P = true → k ≤ z < k + Z.of_nat n → P z = true.
Proof.
  revert k. induction n as [|n IH]; intros k; simpl; [lia|].
  intros [Hk Hn]%andb_true_iff Hz. destruct (decide (z = k)) as [->|]; [done|].
  apply (IH (k + 1)); [done|lia].
Qed.

(** Every day of a common and of a leap year, checked by evaluation. *)
Definition month_split_ok (leap : bool) (yday : Z) : bool :=
  let '(mo, d) := month_split leap yday in
  (1 <=? mo) && (mo <=? 12) && (1 <=? d) && (d <=? days_in_month leap mo)
  && (day_of_year leap mo d =? yday).

Lemma month_split_spec leap yday :
  0 ≤ yday ≤ 365 → (yday = 365 → leap = true) → month_split_ok leap yday = true.
Proof.
  intros H Hl. destruct leap.
  - apply (forall_below_spec 366 0); [vm_compute; reflexivity|lia].
  - assert (yday ≠ 365) by (intros ?; by specialize (Hl ltac:(done))).
    apply (forall_below_spec 365 0); [vm_compute; reflexivity|lia].
Qed.

Lemma civil_round_trip z y mo d :
  civil_of_days z = (y, mo, d) → valid_civil y mo d = true ∧ days_of_civil y mo d = z.
Proof.
  unfold civil_of_days. destruct (year_split (z + 719162)) as [y' yday] eqn:Hy.
  apply year_split_spec in Hy as (Hsum & Hr & Hl).
  pose proof (month_split_spec (is_leap y') yday Hr Hl) as Hm. unfold month_split_ok in Hm.
  destruct (month_split (is_leap y') yday) as [mo' d']. intros [= <- <- <-].
  rewrite !andb_true_iff in Hm. destruct Hm as [[[[? ?] ?] ?] Hdoy]. bool_props.
  unfold valid_civil, days_of_civil. rewrite !andb_true_iff, !Z.leb_le. lia.
Qed.

(** ** The text round trip *)

Lemma undigit_digit n : 0 ≤ n ≤ 9 → undigit (digit n) = Some n.
Proof.
  intros Hn. unfold undigit, digit. rewrite N_ascii_embedding by lia.
  rewrite Z2N.id by lia.
  rewrite (proj2 (andb_true_iff _ _)) by lia. f_equal. lia.
Qed.

Lemma year_range t y mo d :
  year_ok t = true → civil_of_days (utc_day t) = (y, mo, d) → 1 ≤ y ≤ 9999.
Proof.
  unfold year_ok, civil_of_days. intros Hok. apply andb_true_iff in Hok as [H1 H2].
  bool_props. destruct (year_split (utc_day t + 719162)) as [y' yday] eqn:Hy.
  apply year_split_spec in Hy as (Hsum & Hr & _). destruct (month_split _ _).
  intros [= <- <- <-]. unfold days_before_year in Hsum. Z.div_mod_to_equations. lia.
Qed.

Lemma valid_civil_range y mo d : valid_civil y mo d = true → 1 ≤ mo ≤ 12 ∧ 1 ≤ d ≤ 31.
Proof.
  unfold valid_civil, days_in_month. rewrite !andb_true_iff, !Z.leb_le.
  intros [[[? ?] ?] Hd]. split; [lia|]. revert Hd. repeat case_match; lia.
Qed.

Lemma pg_date_format t : year_ok t = true → pg_date (format_day t) = Some (utc_day t).
Proof.
  intros Hok. unfold format_day.
  destruct (civil_of_days (utc_day t)) as [[y mo] d] eqn:Hc.
  pose proof (year_range t y mo d Hok Hc) as Hy.
  apply civil_round_trip in Hc as [Hv Hd]. pose proof (valid_civil_range y mo d Hv).
  unfold pg_date. rewrite String.list_ascii_of_string_of_list_ascii.
  unfold pad4, pad2. cbn [app].
  rewrite !undigit_digit by (Z.div_mod_to_equations; lia). simpl.
  assert (1000 * (y / 100 / 10) + 100 * ((y / 100) mod 10) +
          10 * (y mod 100 / 10) + (y mod 100) mod 10 = y) as ->
    by (Z.div_mod_to_equations; lia).
  assert (10 * (mo / 10) + mo mod 10 = mo) as -> by (Z.div_mod_to_equations; lia).
  assert (10 * (d / 10) + d mod 10 = d) as -> by (Z.div_mod_to_equations; lia).
  rewrite Hv, Hd. by rewrite (proj2 (Z.leb_le 1 y)) by lia.
Qed.

(** The day key is unambiguous: for every instant of the years 1 to 9999,
    casting the formatted day back to a [date] gives the UTC day of the
    instant, so a sketch row is named by exactly one UTC day. *)
Lemma pg_date_format_day t :
  year_ok t = true → pg_date (format_day t) = Some (utc_day t).
Proof. apply pg_date_format. Qed.

Lemma pg_date_format_day_example :
  format_day (1783728000 * Second) = "2026-07-11"%string ∧
  pg_date (format_day (1783728000 * Second)) = Some 20645.
Proof.
  split; [vm_compute; reflexivity|].
  apply (pg_date_format_day (1783728000 * Second)). vm_compute. reflexivity.
Defined.

End clock.
