(* ===== verification/Strconv.v ===== *)
(** * Text to values: [strconv.Atoi], [strings.Split], [time.ParseDuration]

    What [cmd/tally] uses of the Standard Library to read its environment, on
    strings as lists of bytes, with the overflow checks of the originals.
    [Itoa] and [Join] are the inverses, in which the specifications are
    stated. *)

From S2P Require Import Prelude Float64 Clock.
From stdpp Require Import prelude list strings.
From Stdlib Require Import ZArith Lia Ascii.
Open Scope Z_scope.

Module strconv.

Abbreviation bytes := (list ascii).
Abbreviation to_bytes := String.list_ascii_of_string.
Abbreviation of_bytes := String.string_of_list_ascii.

(** ** [strings.Split] by one byte *)

Fixpoint split_on (c : ascii) (l : bytes) : list bytes :=
  match l with
  | [] => [[]]
  | x :: l =>
      if decide (x = c) then [] :: split_on c l
      else match split_on c l with
           | s :: ss => (x :: s) :: ss
           | [] => [[x]]
           end
  end.

Fixpoint join_with (c : ascii) (ss : list bytes) : bytes :=
  match ss with
  | [] => []
  | [s] => s
  | s :: ss => s ++ c :: join_with c ss
  end.

Definition Split (s : string) (c : ascii) : list string := of_bytes <$> split_on c (to_bytes s).
Definition Join (ss : list string) (c : ascii) : string := of_bytes (join_with c (to_bytes <$> ss)).

Lemma split_on_nonempty c l : split_on c l ≠ [].
Proof. destruct l; simpl; [done|]. case_decide; [done|]. by case_match. Qed.

Lemma join_split c l : join_with c (split_on c l) = l.
Proof.
  induction l as [|x l IH]; simpl; [done|]. pose proof (split_on_nonempty c l) as Hne.
  case_decide as Hx; [subst|]; destruct (split_on c l) as [|s ss]; try done; simpl in *;
    [by rewrite IH|]. destruct ss; simpl in *; by rewrite IH.
Qed.

Lemma elem_of_split_on c l s : s ∈ split_on c l → (c ∉ s) ∧ (∀ x, x ∈ s → x ∈ l).
Proof.
  revert s. induction l as [|x l IH]; simpl; intros s.
  { intros ->%list_elem_of_singleton. split; [apply not_elem_of_nil|done]. }
  case_decide as Hx.
  - intros [->|Hs]%elem_of_cons; [split; [apply not_elem_of_nil|by intros y ?%not_elem_of_nil]|].
    destruct (IH s Hs) as [? Hsub]. split; [done|]. intros y Hy. right. auto.
  - pose proof (split_on_nonempty c l). destruct (split_on c l) as [|s' ss]; [done|].
    intros [->|Hs]%elem_of_cons.
    + destruct (IH s') as [? Hsub]; [left|]. split; [by apply not_elem_of_cons|].
      intros y [->|Hy]%elem_of_cons; [left|right; auto].
    + destruct (IH s) as [? Hsub]; [by right|]. split; [done|]. intros y Hy. right. auto.
Qed.

Lemma split_on_app c s l : c ∉ s → split_on c (s ++ c :: l) = s :: split_on c l.
Proof.
  induction s as [|x s IH]; simpl; [by rewrite decide_True|].
  intros Hc. apply not_elem_of_cons in Hc as [Hx Hs]. rewrite decide_False by done. by rewrite IH.
Qed.

Lemma split_on_single c s : c ∉ s → split_on c s = [s].
Proof.
  induction s as [|x s IH]; simpl; [done|].
  intros Hc. apply not_elem_of_cons in Hc as [Hx Hs]. rewrite decide_False by done. by rewrite IH.
Qed.

Lemma split_on_join c ss :
  ss ≠ [] → Forall (λ s, c ∉ s) ss → split_on c (join_with c ss) = ss.
Proof.
  induction ss as [|s ss IH]; [done|]. intros _ [Hs Hss]%Forall_cons.
  destruct ss as [|s' ss]; simpl in *; [by apply split_on_single|].
  rewrite split_on_app by done. f_equal. by apply IH.
Qed.

Lemma Split_Join c ss :
  ss ≠ [] → Forall (λ s, c ∉ to_bytes s) ss → Split (Join ss c) c = ss.
Proof.
  intros Hne Hss. unfold Split, Join. rewrite String.list_ascii_of_string_of_list_ascii.
  rewrite split_on_join; [|by destruct ss|by apply Forall_fmap].
  rewrite <- list_fmap_compose. rewrite <- (list_fmap_id ss) at 2. apply list_fmap_ext.
  intros i s _. apply String.string_of_list_ascii_of_string.
Qed.

(** ** [strconv.Atoi], for the 64-bit [int] *)

Fixpoint digits (acc : Z) (l : bytes) : option Z :=
  match l with
  | [] => Some acc
  | c :: l => d ← clock.undigit c; digits (10 * acc + d) l
  end.

Definition in_int64 (z : Z) : bool := (- 2 ^ 63 <=? z) && (z <=? int64_max).

(** The sign, and what follows it. *)
Definition signed (l : bytes) : Z * bytes :=
  match l with
  | c :: l' => if decide (c = "-"%char) then (-1, l')
               else if decide (c = "+"%char) then (1, l') else (1, l)
  | [] => (1, [])
  end.

Definition Atoi (s : string) : option Z :=
  let '(sign, ds) := signed (to_bytes s) in
  match ds with
  | [] => None
  | _ => n ← digits 0 ds; if in_int64 (sign * n) then Some (sign * n) else None
  end.

(** Decimal digits in front of [acc]; 20 are enough for 64 bits. *)
Fixpoint itoa_aux (fuel : nat) (n : Z) (acc : bytes) : bytes :=
  match fuel with
  | O => acc
  | S fuel =>
      let acc := clock.digit (n mod 10) :: acc in
      if n <? 10 then acc else itoa_aux fuel (n / 10) acc
  end.

Definition decimal (n : Z) : bytes := itoa_aux 20 n [].

Definition Itoa (z : Z) : string :=
  of_bytes (if z <? 0 then "-"%char :: decimal (- z) else decimal z).

Lemma itoa_aux_digits fuel n acc a :
  (0 < fuel)%nat → 0 ≤ n < 10 ^ Z.of_nat fuel →
  ∃ c l, itoa_aux fuel n acc = c :: l ++ acc ∧ Forall (λ c, is_Some (clock.undigit c)) (c :: l) ∧
    (a = 0 → digits a (itoa_aux fuel n acc) = digits n acc).
Proof.
  revert n acc. induction fuel as [|fuel IH]; intros n acc Hf Hn; [lia|].
  cbn [itoa_aux]. assert (clock.undigit (clock.digit (n mod 10)) = Some (n mod 10)) as Hd.
  { apply clock.undigit_digit. pose proof (Z.mod_pos_bound n 10). lia. }
  destruct (Z.ltb_spec n 10) as [Hlt|Hge].
  - exists (clock.digit (n mod 10)), []. split_and!; [done|repeat constructor; by rewrite Hd|].
    intros ->. cbn [digits]. rewrite Hd. simpl. by rewrite Z.mod_small by lia.
  - assert (0 < Z.of_nat fuel).
    { destruct fuel; [|lia]. simpl in Hn. lia. }
    rewrite Nat2Z.inj_succ, Z.pow_succ_r in Hn by lia.
    destruct (IH (n / 10) (clock.digit (n mod 10) :: acc)) as (c & l & Heq & Hl & Hdig); [lia| |].
    { split; [apply Z.div_pos; lia|apply Z.div_lt_upper_bound; lia]. }
    exists c, (l ++ [clock.digit (n mod 10)]). rewrite Heq. split_and!.
    + by rewrite <- app_assoc.
    + apply Forall_cons in Hl as [Hc Hl]. constructor; [done|].
      apply Forall_app. split; [done|]. repeat constructor. by rewrite Hd.
    + intros ->. rewrite <- Heq, Hdig by done. cbn [digits]. rewrite Hd. simpl.
      f_equal. rewrite <- Z.div_mod by lia. done.
Qed.

Lemma decimal_spec n :
  0 ≤ n < 10 ^ 20 →
  ∃ c l, decimal n = c :: l ∧ is_Some (clock.undigit c) ∧ Forall (λ c, is_Some (clock.undigit c)) l ∧
    digits 0 (decimal n) = Some n.
Proof.
  intros Hn. destruct (itoa_aux_digits 20 n [] 0) as (c & l & Heq & Hl & Hd); [lia|done|].
  rewrite app_nil_r in Heq. apply Forall_cons in Hl as [Hc Hl].
  exists c, l. split_and!; try done. by apply Hd.
Qed.

(** Only zero starts with the digit zero. *)
Lemma itoa_aux_head fuel n acc :
  (0 < fuel)%nat → 0 < n < 10 ^ Z.of_nat fuel → ∃ c l, itoa_aux fuel n acc = c :: l ∧ c ≠ "0"%char.
Proof.
  revert n acc. induction fuel as [|fuel IH]; intros n acc Hf Hn; [lia|]. cbn [itoa_aux].
  destruct (Z.ltb_spec n 10) as [Hlt|Hge].
  - eexists _, _. split; [done|]. rewrite Z.mod_small by lia. intros Hd.
    pose proof (clock.undigit_digit n ltac:(lia)) as Hu. rewrite Hd in Hu. vm_compute in Hu. injection Hu as <-. lia.
  - rewrite Nat2Z.inj_succ, Z.pow_succ_r in Hn by lia. apply IH.
    + destruct fuel; [simpl in Hn|]; lia.
    + split; [apply Z.div_str_pos; lia|apply Z.div_lt_upper_bound; lia].
Qed.

Lemma undigit_not_sign c : is_Some (clock.undigit c) → c ≠ "-"%char ∧ c ≠ "+"%char.
Proof. intros [d Hd]. split; intros ->; vm_compute in Hd; done. Qed.

Lemma signed_decimal c l : is_Some (clock.undigit c) → signed (c :: l) = (1, c :: l).
Proof.
  intros [H1 H2]%undigit_not_sign. unfold signed. by rewrite !decide_False.
Qed.

(** Printing and reading an [int] back. *)
Lemma Atoi_Itoa z : in_int64 z = true → Atoi (Itoa z) = Some z.
Proof.
  intros Hz. pose proof Hz as Hr. unfold in_int64, int64_max in Hr.
  apply andb_true_iff in Hr as [H1 H2]. bool_props.
  unfold Atoi, Itoa. rewrite String.list_ascii_of_string_of_list_ascii.
  destruct (Z.ltb_spec z 0).
  - destruct (decimal_spec (- z)) as (c & l & Heq & _ & _ & Hd); [lia|].
    unfold signed. rewrite decide_True by done. rewrite Heq, <- Heq, Hd. simpl.
    by replace (-1 * - z) with z by lia; rewrite Hz.
  - destruct (decimal_spec z) as (c & l & Heq & Hc & _ & Hd); [lia|].
    rewrite Heq, signed_decimal by done. rewrite <- Heq, Hd. simpl.
    by replace (1 * z) with z by lia; rewrite Hz.
Qed.

(** ** [time.ParseDuration] *)

(** [[0-9]*]: [None] is the overflow error. *)
Fixpoint leadingInt (x : Z) (s : bytes) : option (Z * bytes) :=
  match s with
  | [] => Some (x, [])
  | c :: s' =>
      match clock.undigit c with
      | None => Some (x, s)
      | Some d =>
          if 2 ^ 63 / 10 <? x then None
          else let x' := u64 (x * 10 + d) in
               if 2 ^ 63 <? x' then None else leadingInt x' s'
      end
  end.

(** Digits after the point: their value and its scale; digits that no longer
    fit are ignored. *)
Fixpoint leadingFraction (x : Z) (scale : float64.t) (overflow : bool) (s : bytes)
    : Z * float64.t * bytes :=
  match s with
  | [] => (x, scale, [])
  | c :: s' =>
      match clock.undigit c with
      | None => (x, scale, s)
      | Some d =>
          if overflow then leadingFraction x scale true s'
          else if int64_max / 10 <? x then leadingFraction x scale true s'
          else let y := u64 (x * 10 + d) in
               if 2 ^ 63 <? y then leadingFraction x scale true s'
               else leadingFraction y (float64.mul scale (float64.of_Z 10)) false s'
      end
  end.

Definition starts_number (c : ascii) : bool :=
  bool_decide (c = "."%char) || bool_decide (is_Some (clock.undigit c)).

(** The unit: everything up to the next number. *)
Fixpoint span_unit (s : bytes) : bytes * bytes :=
  match s with
  | c :: s' =>
      if starts_number c then ([], s)
      else let '(u, rest) := span_unit s' in (c :: u, rest)
  | [] => ([], [])
  end.

Definition byte (n : N) : ascii := ascii_of_N n.

(** [unitMap]; microseconds may be written with either Greek mu, in UTF-8. *)
Definition unitMap (u : bytes) : option Z :=
  if decide (u = to_bytes "ns") then Some 1
  else if decide (u = to_bytes "us" ∨ u = [byte 194; byte 181; "s"%char] ∨
                  u = [byte 206; byte 188; "s"%char]) then Some 1000
  else if decide (u = to_bytes "ms") then Some clock.Millisecond
  else if decide (u = to_bytes "s") then Some clock.Second
  else if decide (u = to_bytes "m") then Some clock.Minute
  else if decide (u = to_bytes "h") then Some (60 * clock.Minute)
  else None.

(** The digits before and after the point of one term, and what follows. *)
Definition number (s : bytes) : option (Z * Z * float64.t * bytes) :=
  match s with
  | [] => None
  | c :: _ =>
      if negb (starts_number c) then None
      else
        '(v, s1) ← leadingInt 0 s;
        let pre := negb (length s =? length s1)%nat in
        match s1 with
        | d :: s2 =>
            if decide (d = "."%char) then
              let '(f, scale, s3) := leadingFraction 0 (float64.of_Z 1) false s2 in
              let post := negb (length s2 =? length s3)%nat in
              if pre || post then Some (v, f, scale, s3) else None
            else if pre then Some (v, 0, float64.of_Z 1, s1) else None
        | [] => if pre then Some (v, 0, float64.of_Z 1, []) else None
        end
  end.

(** The value of one term in nanoseconds, and what follows its unit. *)
Definition term (s : bytes) : option (Z * bytes) :=
  '(v, f, scale, s1) ← number s;
  let '(u, s2) := span_unit s1 in
  unit ← unitMap u;
  if 2 ^ 63 / unit <? v then None
  else
    let v := u64 (v * unit) in
    if 0 <? f then
      n ← float64.to_uint64 (float64.mul (float64.of_Z f) (float64.div (float64.of_Z unit) scale));
      let v := u64 (v + n) in
      if 2 ^ 63 <? v then None else Some (v, s2)
    else Some (v, s2).

(** The loop over the terms; every term takes at least one byte, so the length
    of the text is enough fuel. *)
Fixpoint terms (fuel : nat) (d : Z) (s : bytes) : option Z :=
  match s, fuel with
  | [], _ => Some d
  | _ :: _, O => None
  | _ :: _, S fuel =>
      '(v, s') ← term s;
      let d := u64 (d + v) in
      if 2 ^ 63 <? d then None else terms fuel d s'
  end.

Definition ParseDuration (text : string) : option Z :=
  let '(sign, s) := signed (to_bytes text) in
  if decide (s = ["0"%char]) then Some 0
  else match s with
       | [] => None
       | _ =>
           d ← terms (length s) 0 s;
           if sign <? 0 then Some (int64 (- int64 d))
           else if int64_max <? d then None else Some (int64 d)
       end.

Example durations :
  map ParseDuration ["200ms"; "1h30m"; "-1.5s"; "2"; ""; ".5m"; "3.x"; "9223372036854775807ns";
                     "9223372036854775808ns"; "0"; "+5us"]%string =
  [Some (200 * clock.Millisecond); Some (90 * clock.Minute); Some (- 1500 * clock.Millisecond);
   None; None; Some (30 * clock.Second); None; Some int64_max; None; Some 0; Some 5000].
Proof. vm_compute. reflexivity. Qed.

(** *** Enough fuel *)

Lemma leadingInt_length x s v s' : leadingInt x s = Some (v, s') → (length s' ≤ length s)%nat.
Proof.
  revert x. induction s as [|c s IH]; intros x; simpl; [by intros [= <- <-]|].
  destruct (clock.undigit c); [|by intros [= <- <-]].
  repeat case_match; try done. intros H'. apply IH in H'. lia.
Qed.

Lemma leadingFraction_length x sc o s : (length (leadingFraction x sc o s).2 ≤ length s)%nat.
Proof.
  revert x sc o. induction s as [|c s IH]; intros x sc o; simpl; [done|].
  destruct (clock.undigit c); [|done].
  repeat case_match; (etrans; [apply IH|lia]).
Qed.

Lemma span_unit_length s : length s = (length (span_unit s).1 + length (span_unit s).2)%nat.
Proof.
  induction s as [|c s IH]; simpl; [done|]. destruct (starts_number c); [done|].
  destruct (span_unit s). simpl in *. lia.
Qed.

Lemma number_length s v f sc s' : number s = Some (v, f, sc, s') → (length s' ≤ length s)%nat.
Proof.
  unfold number. destruct s as [|c s]; [done|]. destruct (negb (starts_number c)); [done|].
  destruct (leadingInt 0 (c :: s)) as [[v1 s1]|] eqn:Hi; [|done]. apply leadingInt_length in Hi.
  cbn [mbind option_bind]. destruct s1 as [|d s2].
  { case_match; [|done]. by intros [= <- <- <- <-]. }
  case_decide; [|case_match; [|done]; by intros [= <- <- <- <-]].
  pose proof (leadingFraction_length 0 (float64.of_Z 1) false s2) as Hf.
  destruct (leadingFraction _ _ _ s2) as [[f1 sc1] s3]. case_match; [|done].
  intros [= <- <- <- <-]. simpl in *. lia.
Qed.

Lemma term_length s v s' : term s = Some (v, s') → (length s' < length s)%nat.
Proof.
  unfold term. destruct (number s) as [[[[v1 f1] sc1] s1]|] eqn:Hn; [|done].
  apply number_length in Hn. simpl. pose proof (span_unit_length s1) as Hs.
  destruct (span_unit s1) as [u s2]. simpl in Hs.
  destruct (unitMap u) as [unit|] eqn:Hu; [|done]. simpl.
  assert (length u ≠ 0)%nat as Hne by (intros ->%length_zero_iff_nil; done).
  destruct (2 ^ 63 / unit <? v1); [done|]. destruct (0 <? f1); [|intros [= <- <-]; lia].
  destruct (float64.to_uint64 _) as [n|]; [|done]. simpl. destruct (2 ^ 63 <? _); [done|].
  intros [= <- <-]. lia.
Qed.

(** The loop never stops for want of fuel. *)
Lemma terms_fuel f1 f2 d s :
  (length s ≤ f1)%nat → (length s ≤ f2)%nat → terms f1 d s = terms f2 d s.
Proof.
  revert f2 d s. induction f1 as [|f1 IH]; intros f2 d s H1 H2.
  { destruct s; [by destruct f2|simpl in H1; lia]. }
  destruct s as [|c s]; [by destruct f2|]. destruct f2 as [|f2]; [simpl in H2; lia|].
  cbn [terms]. destruct (term (c :: s)) as [[v s']|] eqn:Ht; [|done]. apply term_length in Ht.
  simpl in *. case_match; [done|]. apply IH; lia.
Qed.

(** *** Durations written as integers with units *)

Lemma leadingInt_itoa fuel n acc :
  (0 < fuel)%nat → 0 ≤ n < 10 ^ Z.of_nat fuel →
  leadingInt 0 (itoa_aux fuel n acc) = if n <=? 2 ^ 63 then leadingInt n acc else None.
Proof.
  revert n acc. induction fuel as [|fuel IH]; intros n acc Hf Hn; [lia|]. cbn [itoa_aux].
  assert (0 ≤ n mod 10 < 10) as Hm by (apply Z.mod_pos_bound; lia).
  pose proof (clock.undigit_digit (n mod 10) ltac:(lia)) as Hd.
  destruct (Z.ltb_spec n 10) as [Hlt|Hge].
  - rewrite Z.mod_small in Hd |- * by lia. cbn [leadingInt]. rewrite Hd.
    change (2 ^ 63 / 10) with 922337203685477580. rewrite u64_small by lia. rewrite (proj2 (Z.ltb_ge _ _)) by lia.
    rewrite (proj2 (Z.ltb_ge _ _)) by lia. by rewrite (proj2 (Z.leb_le _ _)) by lia.
  - assert (0 < Z.of_nat fuel) by (destruct fuel; [simpl in Hn|]; lia).
    rewrite Nat2Z.inj_succ, Z.pow_succ_r in Hn by lia.
    pose proof (Z.div_mod n 10 ltac:(lia)) as Hdm.
    rewrite IH; [|lia|split; [apply Z.div_pos; lia|apply Z.div_lt_upper_bound; lia]].
    destruct (Z.leb_spec n (2 ^ 63)) as [Hle|Hgt].
    + rewrite (proj2 (Z.leb_le _ _)) by lia. cbn [leadingInt]. rewrite Hd.
      rewrite (proj2 (Z.ltb_ge (2 ^ 63 / 10) _)) by (apply Z.div_le_mono; lia).
      rewrite u64_small by lia. rewrite (proj2 (Z.ltb_ge _ _)) by lia. f_equal. lia.
    + destruct (Z.leb_spec (n / 10) (2 ^ 63)); [|done]. cbn [leadingInt]. rewrite Hd.
      destruct (Z.ltb_spec (2 ^ 63 / 10) (n / 10)) as [|Hq]; [done|].
      change (2 ^ 63 / 10) with 922337203685477580 in Hq.
      rewrite u64_small by lia. by rewrite (proj2 (Z.ltb_lt _ _)) by lia.
Qed.

Lemma unitMap_Some u k :
  unitMap u = Some k → 0 < k ∧ u ≠ [] ∧ Forall (λ c, starts_number c = false) u.
Proof.
  unfold unitMap. repeat case_decide; intros; simplify_eq;
    repeat match goal with H : _ ∨ _ |- _ => destruct H end; subst;
    (split; [done|]); (split; [done|]); repeat constructor.
Qed.

Lemma span_unit_app u rest :
  Forall (λ c, starts_number c = false) u →
  (∀ c r, rest = c :: r → starts_number c = true) → span_unit (u ++ rest) = (u, rest).
Proof.
  intros Hu Hr. induction Hu as [|c u Hc _ IH]; simpl.
  - destruct rest as [|c r]; simpl; [done|]. by rewrite (Hr c r).
  - by rewrite Hc, IH.
Qed.

Lemma starts_number_undigit c d : clock.undigit c = Some d → starts_number c = true.
Proof.
  intros Hd. unfold starts_number. rewrite Hd. rewrite (bool_decide_eq_true_2 (is_Some _)) by eauto.
  apply orb_true_r.
Qed.

Lemma decimal_head n s :
  0 ≤ n < 10 ^ 20 → ∃ c r, decimal n ++ s = c :: r ++ s ∧ starts_number c = true ∧ is_Some (clock.undigit c).
Proof.
  intros Hn. destruct (decimal_spec n Hn) as (c & l & Heq & [d Hd] & _). rewrite Heq.
  exists c, l. split_and!; [done|by eapply starts_number_undigit|by eauto].
Qed.

Lemma itoa_aux_app fuel n acc s : itoa_aux fuel n acc ++ s = itoa_aux fuel n (acc ++ s).
Proof.
  revert n acc. induction fuel as [|fuel IH]; intros n acc; simpl; [done|].
  destruct (n <? 10); [done|]. by rewrite IH.
Qed.

Lemma decimal_app n s : decimal n ++ s = itoa_aux 20 n s.
Proof. apply itoa_aux_app. Qed.

Lemma number_decimal n t :
  0 ≤ n < 10 ^ 20 → (∃ c r, t = c :: r ∧ starts_number c = false) →
  number (decimal n ++ t) = if n <=? 2 ^ 63 then Some (n, 0, float64.of_Z 1, t) else None.
Proof.
  intros Hn (c & r & Ht & Hc).
  assert (clock.undigit c = None) as Hc'.
  { destruct (clock.undigit c) eqn:E; [|done]. apply starts_number_undigit in E. congruence. }
  assert (c ≠ "."%char) as Hdot by (intros ->; done).
  destruct (decimal_head n t Hn) as (c0 & r0 & Heq & Hs0 & _).
  unfold number. rewrite Heq, Hs0. cbn [negb]. rewrite <- Heq, decimal_app.
  rewrite leadingInt_itoa by lia. destruct (n <=? 2 ^ 63); [|done].
  rewrite <- decimal_app, Heq. rewrite Ht at 1. cbn [leadingInt]. rewrite Hc'.
  cbn [mbind option_bind]. rewrite decide_False by done. rewrite <- Ht.
  rewrite (proj2 (Nat.eqb_neq _ _)); [done|]. simpl. rewrite length_app. lia.
Qed.

(** One term [<n><unit>]. *)
Lemma term_decimal n u k rest :
  0 ≤ n < 10 ^ 20 → unitMap u = Some k →
  (∀ c r, rest = c :: r → starts_number c = true) →
  term (decimal n ++ u ++ rest) = if 2 ^ 63 / k <? n then None else Some (n * k, rest).
Proof.
  intros Hn Hk Hrest. destruct (unitMap_Some u k Hk) as (Hk0 & Hne & Hu).
  assert (2 ^ 63 / k ≤ 2 ^ 63) as Hdiv by (apply Z.div_le_upper_bound; nia).
  assert (number (decimal n ++ u ++ rest) =
    if n <=? 2 ^ 63 then Some (n, 0, float64.of_Z 1, u ++ rest) else None) as Hnum.
  { apply number_decimal; [done|]. destruct Hu as [|c u Hc _]; [done|]. by exists c, (u ++ rest). }
  unfold term. rewrite Hnum. destruct (Z.leb_spec n (2 ^ 63)) as [Hle|Hgt].
  - cbn [mbind option_bind]. rewrite span_unit_app by done. rewrite Hk. cbn [mbind option_bind].
    destruct (Z.ltb_spec (2 ^ 63 / k) n) as [|Hfit]; [done|].
    rewrite Z.ltb_irrefl, u64_small; [done|]. pose proof (Z.mul_div_le (2 ^ 63) k Hk0). nia.
  - by rewrite (proj2 (Z.ltb_lt _ _)) by lia.
Qed.

(** A duration as a sum of terms: numbers with the text and the value of their
    units. *)
Definition print_terms (ts : list (Z * bytes)) : bytes := concat (map (λ t, decimal t.1 ++ t.2) ts).

Definition duration_of (ts : list (Z * bytes)) : Z :=
  foldr (λ t d, t.1 * default 0 (unitMap t.2) + d) 0 ts.

Definition good_term (t : Z * bytes) : Prop := 0 ≤ t.1 < 10 ^ 20 ∧ is_Some (unitMap t.2).

Lemma duration_of_nonneg ts : Forall good_term ts → 0 ≤ duration_of ts.
Proof.
  induction 1 as [|[n u] ts [Hn [k Hk]] _ IH]; simpl; [done|].
  destruct (unitMap_Some u k Hk) as (? & _). simpl in *. rewrite Hk. simpl. nia.
Qed.

Lemma print_terms_head ts c r :
  Forall good_term ts → print_terms ts = c :: r → starts_number c = true.
Proof.
  destruct 1 as [|[n u] ts [Hn _] _]; [done|]. unfold print_terms. simpl in *. intros Heq.
  destruct (decimal_head n (u ++ concat (map (λ t, decimal t.1 ++ t.2) ts)) Hn) as (c' & r' & Hd & Hs & _).
  rewrite <- app_assoc, Hd in Heq. congruence.
Qed.

Lemma terms_sum ts d fuel :
  Forall good_term ts → 0 ≤ d → d + duration_of ts ≤ 2 ^ 63 → (length (print_terms ts) ≤ fuel)%nat →
  terms fuel d (print_terms ts) = Some (d + duration_of ts).
Proof.
  intros Hts. revert d fuel. induction Hts as [|[n u] ts [Hn [k Hk]] Hts IH]; intros d fuel Hd Hsum Hf.
  { destruct fuel; simpl; f_equal; lia. }
  pose proof (duration_of_nonneg ts Hts) as Hpos. destruct (unitMap_Some u k Hk) as (Hk0 & _).
  simpl in Hn, Hk, Hsum. rewrite Hk in Hsum. simpl in Hsum.
  assert (print_terms ((n, u) :: ts) = decimal n ++ u ++ print_terms ts) as Hp.
  { unfold print_terms. simpl. by rewrite app_assoc. }
  rewrite Hp in Hf |- *.
  destruct (decimal_head n (u ++ print_terms ts) Hn) as (c & r & Heq & _).
  rewrite Heq in Hf |- *. destruct fuel as [|fuel]; [simpl in Hf; lia|]. cbn [terms].
  rewrite <- Heq, (term_decimal n u k); [|done|done|by intros c' r'; apply print_terms_head].
  rewrite (proj2 (Z.ltb_ge _ _)) by (apply Z.div_le_lower_bound; nia).
  cbn [mbind option_bind]. rewrite u64_small by nia.
  rewrite (proj2 (Z.ltb_ge _ _)) by nia.
  rewrite IH; [|nia|lia|]; [simpl; rewrite Hk; simpl; f_equal; lia|].
  simpl in Hf. rewrite !length_app in Hf. lia.
Qed.

Lemma print_terms_not_zero ts : Forall good_term ts → print_terms ts ≠ ["0"%char].
Proof.
  destruct 1 as [|[n u] ts [Hn [k Hk]] _]; [done|]. unfold print_terms. simpl in *.
  destruct (decimal_head n (u ++ concat (map (λ t, decimal t.1 ++ t.2) ts)) Hn) as (c & r & Heq & _).
  rewrite <- app_assoc, Heq. intros [= _ Hnil]. apply app_nil in Hnil as [_ Hnil].
  apply app_nil in Hnil as [-> _]. by apply unitMap_Some in Hk as (_ & ? & _).
Qed.

Lemma ParseDuration_sum ts :
  ts ≠ [] → Forall good_term ts → duration_of ts ≤ int64_max →
  ParseDuration (of_bytes (print_terms ts)) = Some (duration_of ts).
Proof.
  intros Hne Hts Hsum. unfold ParseDuration. rewrite String.list_ascii_of_string_of_list_ascii.
  pose proof (print_terms_not_zero ts Hts) as Hnz. pose proof (duration_of_nonneg ts Hts) as Hpos.
  assert (∃ c r, print_terms ts = c :: r ∧ is_Some (clock.undigit c)) as (c & r & Heq & Hc).
  { destruct Hts as [|[n u] ts [Hn _] _]; [done|]. unfold print_terms. simpl in *.
    rewrite <- app_assoc. destruct (decimal_head n (u ++ concat (map (λ t, decimal t.1 ++ t.2) ts)) Hn)
      as (c & r & -> & _ & ?). eauto. }
  rewrite Heq, signed_decimal by done. cbv beta iota.
  rewrite decide_False by congruence. rewrite <- Heq.
  rewrite terms_sum; [|done|lia|unfold int64_max in *; lia|done].
  cbn [mbind option_bind]. change (1 <? 0) with false. cbv iota.
  rewrite Z.add_0_l, (proj2 (Z.ltb_ge int64_max (duration_of ts))) by lia.
  f_equal. unfold int64. rewrite Z.mod_small; unfold int64_max in *; lia.
Qed.

(** A term that does not fit in 63 bits is an error. *)
Lemma ParseDuration_overflow n u :
  good_term (n, u) → int64_max < duration_of [(n, u)] →
  ParseDuration (of_bytes (print_terms [(n, u)])) = None.
Proof.
  intros [Hn [k Hk]] Hov. simpl in Hn, Hk, Hov. rewrite Hk in Hov. simpl in Hov.
  destruct (unitMap_Some u k Hk) as (Hk0 & Hne & _).
  unfold print_terms. simpl. rewrite app_nil_r.
  destruct (decimal_head n u Hn) as (c & r & Heq & _ & Hc).
  unfold ParseDuration. rewrite String.list_ascii_of_string_of_list_ascii, Heq.
  rewrite signed_decimal by done. cbv beta iota. case_decide as Hz.
  { injection Hz as _ Hz. by apply app_nil in Hz as [_ ->]. }
  cbn [length terms]. rewrite <- Heq, <- (app_nil_r u) at 1.
  rewrite (term_decimal n u k []) by done. destruct (Z.ltb_spec (2 ^ 63 / k) n) as [|Hfit]; [done|].
  assert (n * k = 2 ^ 63) as Hmax.
  { pose proof (Z.mul_div_le (2 ^ 63) k Hk0). unfold int64_max in Hov. nia. }
  cbn [mbind option_bind]. rewrite Hmax. by destruct (length (r ++ u)).
Qed.

(** [time.ParseDuration] on durations written as integers with units, such
    as [1h30m]: the text is read as the sum of its terms when that fits in an
    [int64], and a term that does not fit is refused, never wrapped around. *)
Lemma ParseDuration_spec :
  (∀ ts, ts ≠ [] → Forall good_term ts → duration_of ts ≤ int64_max →
     ParseDuration (of_bytes (print_terms ts)) = Some (duration_of ts)) ∧
  (∀ n u, good_term (n, u) → int64_max < duration_of [(n, u)] →
     ParseDuration (of_bytes (print_terms [(n, u)])) = None).
Proof. split; [apply ParseDuration_sum|apply ParseDuration_overflow]. Qed.

Lemma ParseDuration_spec_example :
  ParseDuration "1h30m" = Some (90 * clock.Minute) ∧ ParseDuration "2562048h" = None.
Proof.
  split.
  - refine (proj1 ParseDuration_spec [(1, to_bytes "h"); (30, to_bytes "m")] ltac:(discriminate) _ _);
      [repeat constructor; simpl; (lia || by eexists)|vm_compute; discriminate].
  - refine (proj2 ParseDuration_spec 2562048 (to_bytes "h") _ _);
      [repeat constructor; simpl; (lia || by eexists)|vm_compute; reflexivity].
Defined.

(** Every duration, printed in nanoseconds, is read back. *)
Definition print_ns (d : Z) : string := of_bytes (to_bytes (Itoa d) ++ to_bytes "ns").

Lemma ParseDuration_ns d : in_int64 d = true → ParseDuration (print_ns d) = Some d.
Proof.
  intros Hd. unfold in_int64 in Hd. apply andb_true_iff in Hd as [H1 H2]. bool_props.
  assert (∀ n, 0 ≤ n ≤ 2 ^ 63 → Forall good_term [(n, to_bytes "ns")] ∧
    duration_of [(n, to_bytes "ns")] = n ∧ print_terms [(n, to_bytes "ns")] = decimal n ++ to_bytes "ns")
    as Hone.
  { intros n Hn. split_and!.
    - repeat constructor; simpl; [lia|lia|by eexists].
    - change (n * 1 + 0 = n). lia.
    - unfold print_terms. simpl. by rewrite app_nil_r. }
  unfold print_ns, Itoa. rewrite String.list_ascii_of_string_of_list_ascii.
  destruct (Z.ltb_spec d 0) as [Hneg|Hpos].
  - destruct (Hone (- d)) as (Hg & Hdur & Hpr); [unfold int64_max in *; lia|].
    unfold ParseDuration. rewrite String.list_ascii_of_string_of_list_ascii.
    cbn [app signed]. rewrite decide_True by done. cbv beta iota. rewrite <- Hpr.
    rewrite decide_False by (by apply print_terms_not_zero).
    rewrite terms_sum; [|done|lia|rewrite Hdur; lia|done]. rewrite Hdur, Z.add_0_l.
    destruct (decimal_head (- d) (to_bytes "ns")) as (c & r & Heq & _); [lia|].
    rewrite Hpr, Heq. cbn [mbind option_bind]. change (-1 <? 0) with true. cbv iota. f_equal.
    unfold int64. destruct (decide (d = - 2 ^ 63)) as [->|]; [done|].
    rewrite (Z.mod_small (- d + 2 ^ 63)) by lia. rewrite Z.mod_small by lia. lia.
  - destruct (Hone d) as (Hg & Hdur & Hpr); [unfold int64_max in *; lia|]. rewrite <- Hpr.
    rewrite ParseDuration_sum; [by rewrite Hdur|done|done|by rewrite Hdur].
Qed.
End strconv.
