(* ===== verification/Http.v ===== *)
(** * [net/http]: request multiplexing and query strings

    What the server uses of the Standard Library to find the handler of a
    request: [ServeMux] as of Go 1.22 (methods and paths in patterns, subtrees,
    the end-of-path marker, precedence of the most specific pattern, redirects
    to clean paths and to subtrees, 404 and 405), and [URL.Query().Get].  Host
    names and single wildcards do not occur in the patterns of the program. *)

From S2P Require Import Prelude Float64 Clock Strconv.
From stdpp Require Import prelude list strings sorting.
From Stdlib Require Import ZArith Lia Ascii.

Module http.
Import strconv.

(** ** Percent-encoding *)

Definition unhex (c : ascii) : option N :=
  let n := N_of_ascii c in
  if (48 <=? n)%N && (n <=? 57)%N then Some (n - 48)%N
  else if (97 <=? n)%N && (n <=? 102)%N then Some (n - 87)%N
  else if (65 <=? n)%N && (n <=? 70)%N then Some (n - 55)%N
  else None.

(** [url.PathUnescape] and, with [plus], [url.QueryUnescape]. *)
Fixpoint unescape (plus : bool) (s : bytes) : option bytes :=
  match s with
  | [] => Some []
  | c :: s' =>
      if decide (c = "%"%char) then
        match s' with
        | a :: b :: s'' =>
            x ← unhex a; y ← unhex b; r ← unescape plus s'';
            Some (ascii_of_N (16 * x + y) :: r)
        | _ => None
        end
      else r ← unescape plus s';
           Some ((if plus && bool_decide (c = "+"%char) then " "%char else c) :: r)
  end.

(** [shouldEscape(c, encodePath)], negated. *)
Definition path_safe (c : ascii) : bool :=
  let n := N_of_ascii c in
  ((48 <=? n) && (n <=? 57) || (65 <=? n) && (n <=? 90) || (97 <=? n) && (n <=? 122))%N ||
  bool_decide (c ∈ to_bytes "-_.~$&+,/:;=@").

Definition hex_digit (alpha : N) (d : N) : ascii := ascii_of_N (if (d <? 10)%N then 48 + d else alpha + d)%N.
Definition percent (alpha : N) (c : ascii) : bytes :=
  let n := N_of_ascii c in ["%"%char; hex_digit alpha (n / 16); hex_digit alpha (n mod 16)].

(** [escape(s, encodePath)]: capital hexadecimal digits. *)
Definition escapePath (s : bytes) : bytes := s ≫= λ c, if path_safe c then [c] else percent 55 c.

(** [hexEscapeNonASCII], of [http.Redirect]: small ones. *)
Definition hexEscapeNonASCII (s : bytes) : bytes :=
  s ≫= λ c, if (128 <=? N_of_ascii c)%N then percent 87 c else [c].

(** [(&url.URL{Path: path, RawQuery: query}).String()] of a rooted path. *)
Definition url_String (path query : bytes) : bytes :=
  escapePath path ++ (if decide (query = []) then [] else "?"%char :: query).

(** [htmlReplacer] *)
Definition htmlEscape (s : bytes) : bytes :=
  s ≫= λ c,
    if decide (c = "&"%char) then to_bytes "&amp;"
    else if decide (c = "<"%char) then to_bytes "&lt;"
    else if decide (c = ">"%char) then to_bytes "&gt;"
    else if decide (c = ascii_of_N 34) then to_bytes "&#34;"
    else if decide (c = "'"%char) then to_bytes "&#39;"
    else [c].

(** Text that cannot be decoded is taken literally. *)
Definition pathUnescape (s : bytes) : bytes := default s (unescape false s).

(** ** [URL.Query().Get] *)

(** [strings.Cut(key, "=")] *)
Fixpoint cut_eq (s : bytes) : bytes * bytes :=
  match s with
  | [] => ([], [])
  | c :: s => if decide (c = "="%char) then ([], s) else let '(k, v) := cut_eq s in (c :: k, v)
  end.

(** One setting of a query string; one with a semicolon, an empty one or one
    that cannot be decoded is dropped. *)
Definition setting (s : bytes) : option (bytes * bytes) :=
  if decide (";"%char ∈ s) then None
  else if decide (s = []) then None
  else let '(k, v) := cut_eq s in
       k ← unescape true k; v ← unescape true v; Some (k, v).

(** The first value of a key, or the empty string. *)
Definition query_get (rawQuery key : string) : string :=
  let settings := omap setting (split_on "&" (to_bytes rawQuery)) in
  of_bytes (default [] (snd <$> (snd <$> list_find (λ kv, kv.1 = to_bytes key) settings))).

(** ** Paths *)

(** [path.Clean] on the components of a rooted path. *)
Fixpoint clean (stack : list bytes) (comps : list bytes) : list bytes :=
  match comps with
  | [] => rev stack
  | c :: comps =>
      if decide (c = [] ∨ c = ["."%char]) then clean stack comps
      else if decide (c = ["."%char; "."%char]) then clean (tail stack) comps
      else clean (c :: stack) comps
  end.

Definition rooted (p : bytes) : bytes :=
  match p with
  | c :: _ => if decide (c = "/"%char) then p else "/"%char :: p
  | [] => ["/"%char]
  end.

Definition ends_with_slash (p : bytes) : bool := bool_decide (last p = Some "/"%char).

(** [cleanPath]: canonical, with the trailing slash kept. *)
Definition cleanPath (p : bytes) : bytes :=
  let p := rooted p in
  let comps := clean [] (split_on "/" p) in
  let np := "/"%char :: join_with "/" comps in
  if ends_with_slash p && negb (ends_with_slash np) then np ++ ["/"%char] else np.

(** The segments of a path as the routing tree reads it; a final slash is a
    segment of its own. *)
Fixpoint segments_of (comps : list bytes) : list bytes :=
  match comps with
  | [] => []
  | [[]] => [["/"%char]]
  | c :: comps => pathUnescape c :: segments_of comps
  end.

Definition segments (p : bytes) : list bytes := segments_of (tail (split_on "/" p)).

(** ** Patterns *)

Inductive seg : Type :=
  | Lit (s : bytes)       (* a literal; the end marker [{$}] is the literal "/" *)
  | Multi.                (* a final slash: the whole subtree *)

#[global] Instance seg_eq_dec : EqDecision seg.
Proof. solve_decision. Defined.

Record pattern : Type := MkPattern { p_method : string; p_segs : list seg }.

(** Wildcards other than [{$}] do not occur and are refused. *)
Fixpoint parse_segs (comps : list bytes) : option (list seg) :=
  match comps with
  | [] => Some []
  | [[]] => Some [Multi]
  | [c] => if decide (c = to_bytes "{$}") then Some [Lit ["/"%char]]
           else if decide ("{"%char ∈ c) then None else Some [Lit (pathUnescape c)]
  | c :: comps =>
      if decide ("{"%char ∈ c) then None
      else r ← parse_segs comps; Some (Lit (pathUnescape c) :: r)
  end.

(** [METHOD /path] *)
Definition parsePattern (s : string) : option pattern :=
  match split_on " " (to_bytes s) with
  | [m; p] =>
      match split_on "/" p with
      | [] :: comps => segs ← parse_segs comps; Some (MkPattern (of_bytes m) segs)
      | _ => None
      end
  | _ => None
  end.

(** *** Conflicts between patterns *)

Inductive relationship : Type := Equivalent | MoreGeneral | MoreSpecific | Disjoint | Overlaps.

Definition inverse (r : relationship) : relationship :=
  match r with MoreSpecific => MoreGeneral | MoreGeneral => MoreSpecific | _ => r end.

#[global] Instance relationship_eq_dec : EqDecision relationship.
Proof. solve_decision. Defined.

Definition combine (r1 r2 : relationship) : relationship :=
  match r1 with
  | Equivalent => r2
  | Disjoint => Disjoint
  | Overlaps => if decide (r2 = Disjoint) then Disjoint else Overlaps
  | MoreGeneral | MoreSpecific =>
      if decide (r2 = Equivalent) then r1
      else if decide (r2 = inverse r1) then Overlaps else r2
  end.

Definition compareMethods (m1 m2 : string) : relationship :=
  if decide (m1 = m2) then Equivalent
  else if decide (m1 = "") then MoreGeneral
  else if decide (m2 = "") then MoreSpecific
  else if decide (m1 = "GET" ∧ m2 = "HEAD") then MoreGeneral
  else if decide (m2 = "GET" ∧ m1 = "HEAD") then MoreSpecific
  else Disjoint.

Definition compareSegments (s1 s2 : seg) : relationship :=
  match s1, s2 with
  | Multi, Multi => Equivalent
  | Multi, Lit _ => MoreGeneral
  | Lit _, Multi => MoreSpecific
  | Lit a, Lit b => if decide (a = b) then Equivalent else Disjoint
  end.

Fixpoint comparePaths (rel : relationship) (p1 p2 : list seg) : relationship :=
  match p1, p2 with
  | s1 :: p1', s2 :: p2' =>
      let rel' := combine rel (compareSegments s1 s2) in
      if decide (rel' = Disjoint) then Disjoint
      else match p1', p2' with
           | [], _ :: _ => if decide (s1 = Multi) then combine rel' MoreGeneral else Disjoint
           | _ :: _, [] => if decide (s2 = Multi) then combine rel' MoreSpecific else Disjoint
           | _, _ => comparePaths rel' p1' p2'
           end
  | _, _ => rel
  end.

Definition conflicts (p1 p2 : pattern) : bool :=
  let mrel := compareMethods (p_method p1) (p_method p2) in
  if decide (mrel = Disjoint) then false
  else match combine mrel (comparePaths Equivalent (p_segs p1) (p_segs p2)) with
       | Equivalent | Overlaps => true
       | _ => false
       end.

(** ** [ServeMux] *)

Section mux.
Context {H : Type}.

Definition mux : Type := list (pattern * H).

(** [mux.Handle]: [None] is the panic on a malformed or conflicting pattern. *)
Definition Handle (pat : string) (h : H) (m : mux) : option mux :=
  p ← parsePattern pat;
  if existsb (λ r, conflicts p r.1) m then None else Some (m ++ [(p, h)]).

(** A node of the routing tree: what is left of the patterns that lead there. *)
Definition node : Type := list (list seg * (pattern * H)).

Definition find_child (s : bytes) (n : node) : node :=
  omap (λ r, match r.1 with
             | Lit s' :: rest => if decide (s' = s) then Some (rest, r.2) else None
             | _ => None
             end) n.

Definition leaf (rest : list seg) (n : node) : option (pattern * H) :=
  (λ ir, ir.2.2) <$> list_find (λ r : list seg * (pattern * H), r.1 = rest) n.

(** Literals first, then the subtree. *)
Fixpoint matchPath (n : node) (segs : list bytes) : option (pattern * H) :=
  match segs with
  | [] => leaf [] n
  | s :: rest =>
      match matchPath (find_child s n) rest with
      | Some r => Some r
      | None => leaf [Multi] n
      end
  end.

Definition method_node (meth : string) (m : mux) : node :=
  omap (λ r, if decide (p_method r.1 = meth) then Some (p_segs r.1, r) else None) m.

(** The exact method, for HEAD also GET, then patterns for every method. *)
Definition tree_match (m : mux) (meth : string) (path : bytes) : option (pattern * H) :=
  let try_ meth' := matchPath (method_node meth' m) (segments path) in
  match try_ meth with
  | Some r => Some r
  | None =>
      match (if decide (meth = "HEAD") then try_ "GET" else None) with
      | Some r => Some r
      | None => try_ ""
      end
  end.

(** A subtree pattern matches exactly only the path that it is the end of. *)
Definition exactMatch (r : option (pattern * H)) (path : bytes) : bool :=
  match r with
  | None => false
  | Some (p, _) =>
      if decide (last (p_segs p) = Some Multi) then
        ends_with_slash path &&
        (length (p_segs p) =? length (filter (λ c, c = "/"%char) path))%nat
      else true
  end.

Inductive outcome : Type :=
  | Found (h : H)
  | Moved (path : string)
  | MethodNotAllowed (allow : list string)
  | NotFound.

Definition matching_methods (m : mux) (path : bytes) : list string :=
  let ms := remove_dups (map (λ r, p_method r.1) m) in
  filter (λ meth, is_Some (matchPath (method_node meth m) (segments path))) ms.

Definition allowed (m : mux) (path : bytes) : list string :=
  let ms := matching_methods m path ++
            (if ends_with_slash path then [] else matching_methods m (path ++ ["/"%char])) in
  let ms := if decide ("GET" ∈ ms) then ms ++ ["HEAD"] else ms in
  merge_sort String.le (remove_dups ms).

(** [mux.findHandler] on a method and an escaped path.  [Moved] has the [Path] of
    the URL to redirect to: the clean path as it came, or the decoded one with a
    slash. *)
Definition dispatch (m : mux) (meth path : string) : outcome :=
  let escaped := to_bytes path in
  let connect := bool_decide (meth = "CONNECT") in
  let p := if connect then escaped else cleanPath escaped in
  let n := tree_match m meth p in
  let slash := p ++ ["/"%char] in
  if negb (exactMatch n p) && negb (ends_with_slash p) && exactMatch (tree_match m meth slash) slash
  then Moved (of_bytes (cleanPath (pathUnescape escaped) ++ ["/"%char]))
  else if negb (bool_decide (p = escaped)) then Moved (of_bytes p)
  else match n with
       | Some (_, h) => Found h
       | None =>
           match allowed m p with
           | [] => NotFound
           | ms => MethodNotAllowed ms
           end
       end.

(** ** What routing finds *)

(** A pattern matches a path given by its segments. *)
Fixpoint matches (p : list seg) (segs : list bytes) : Prop :=
  match p, segs with
  | [], [] => True
  | [Multi], _ :: _ => True
  | Lit s :: p, s' :: segs => s = s' ∧ matches p segs
  | _, _ => False
  end.

(** Every path of [p] is one of [q]. *)
Definition more_specific (p q : list seg) : Prop := ∀ segs, matches p segs → matches q segs.

Lemma leaf_Some rest (n : node) r : leaf rest n = Some r → (rest, r) ∈ n.
Proof.
  unfold leaf. intros ([i [x y]] & Hf & ->)%fmap_Some. apply list_find_Some in Hf as (Hi & <- & _).
  by eapply list_elem_of_lookup_2.
Qed.

Lemma leaf_None rest (n : node) : leaf rest n = None → ∀ r, (rest, r) ∉ n.
Proof.
  unfold leaf. intros Hn%fmap_None r Hin. apply list_find_None in Hn.
  rewrite Forall_forall in Hn. by apply (Hn _ Hin).
Qed.

Lemma elem_of_find_child s (n : node) p r : (p, r) ∈ find_child s n ↔ (Lit s :: p, r) ∈ n.
Proof.
  unfold find_child. rewrite list_elem_of_omap. split.
  - intros ([q r'] & Hin & Hq). simpl in Hq. destruct q as [|[s'|] q]; [done| |done].
    case_decide; simplify_eq. done.
  - intros Hin. eexists. split; [done|]. simpl. by rewrite decide_True.
Qed.

(** Routing returns a pattern that matches, and the most specific one; it
    returns nothing only where no pattern matches. *)
Lemma matchPath_spec (n : node) segs :
  match matchPath n segs with
  | Some r => ∃ p, (p, r) ∈ n ∧ matches p segs ∧
      ∀ q r', (q, r') ∈ n → matches q segs → more_specific p q
  | None => ∀ q r', (q, r') ∈ n → ¬ matches q segs
  end.
Proof.
  revert n. induction segs as [|s segs IH]; intros n; simpl.
  - destruct (leaf [] n) as [r|] eqn:Hl.
    + apply leaf_Some in Hl. exists []. split_and!; [done|done|].
      intros q r' _ Hm. destruct q as [|[] q]; [by intros segs|done|by destruct q].
    + intros q r' Hin Hm. destruct q as [|[] q]; [by eapply leaf_None|done|by destruct q].
  - specialize (IH (find_child s n)). destruct (matchPath (find_child s n) segs) as [r|].
    + destruct IH as (p & Hin & Hm & Hbest). apply elem_of_find_child in Hin.
      exists (Lit s :: p). split_and!; [done|done|]. intros q r' Hq Hmq segs' Hs'.
      destruct segs' as [|s' segs']; [done|]. destruct Hs' as [<- Hs'].
      destruct q as [|[s2|] q]; simpl in *; [done| |by destruct q].
      destruct Hmq as [-> Hmq]. split; [done|].
      apply (Hbest q r'); [by apply elem_of_find_child|done|done].
    + destruct (leaf [Multi] n) as [r|] eqn:Hl.
      * apply leaf_Some in Hl. exists [Multi]. split_and!; [done|done|].
        intros q r' Hq Hmq segs' Hs'. destruct q as [|[s2|] q]; simpl in *; [done| |].
        -- destruct Hmq as [-> Hmq]. exfalso. eapply (IH q r'); [by apply elem_of_find_child|done].
        -- by destruct q.
      * intros q r' Hq Hmq. destruct q as [|[s2|] q]; simpl in *; [done| |].
        -- destruct Hmq as [-> Hmq]. eapply (IH q r'); [by apply elem_of_find_child|done].
        -- destruct q; [by eapply leaf_None|done].
Qed.

Lemma elem_of_method_node meth (m : mux) p r :
  (p, r) ∈ method_node meth m ↔ r ∈ m ∧ p_method r.1 = meth ∧ p = p_segs r.1.
Proof.
  unfold method_node. rewrite list_elem_of_omap. split.
  - intros (r' & Hin & Hq). case_decide; simplify_eq. done.
  - intros (Hin & Hm & ->). exists r. split; [done|]. by rewrite decide_True.
Qed.

(** The methods a pattern answers. *)
Definition serves (p : pattern) (meth : string) : Prop :=
  p_method p = meth ∨ (meth = "HEAD" ∧ p_method p = "GET") ∨ p_method p = "".

Lemma tree_match_Some (m : mux) meth path p h :
  tree_match m meth path = Some (p, h) →
  (p, h) ∈ m ∧ serves p meth ∧ matches (p_segs p) (segments path).
Proof.
  assert (∀ meth', matchPath (method_node meth' m) (segments path) = Some (p, h) →
    (p, h) ∈ m ∧ p_method p = meth' ∧ matches (p_segs p) (segments path)) as Hone.
  { intros meth' Hm. pose proof (matchPath_spec (method_node meth' m) (segments path)) as Hs.
    rewrite Hm in Hs. destruct Hs as (q & (Hin & Hmeth & ->)%elem_of_method_node & Hq & _). done. }
  unfold tree_match, serves. intros Ht.
  destruct (matchPath (method_node meth m) (segments path)) as [r|] eqn:E1.
  { injection Ht as ->. destruct (Hone meth E1) as (? & ? & ?). auto 8. }
  case_decide as Hh.
  - destruct (matchPath (method_node "GET" m) (segments path)) as [r|] eqn:E2.
    + injection Ht as ->. destruct (Hone "GET" E2) as (? & ? & ?). auto 8.
    + destruct (Hone "" Ht) as (? & ? & ?). auto 8.
  - destruct (Hone "" Ht) as (? & ? & ?). auto 8.
Qed.

(** A handler is reached only through a pattern that matches, on a clean path. *)
Lemma dispatch_Found (m : mux) meth path h :
  dispatch m meth path = Found h →
  ∃ p, (p, h) ∈ m ∧ serves p meth ∧ matches (p_segs p) (segments (to_bytes path)) ∧
    (meth ≠ "CONNECT" → cleanPath (to_bytes path) = to_bytes path).
Proof.
  unfold dispatch. intros Hd. case_match; [done|].
  destruct (bool_decide ((if bool_decide (meth = "CONNECT") then to_bytes path
    else cleanPath (to_bytes path)) = to_bytes path)) eqn:Hp; [|done]. simpl in Hd.
  apply bool_decide_eq_true in Hp. rewrite Hp in Hd.
  destruct (tree_match m meth (to_bytes path)) as [[p h']|] eqn:Ht; [|by case_match].
  injection Hd as ->. apply tree_match_Some in Ht as (? & ? & ?). exists p. split_and!; try done.
  intros Hc. by rewrite bool_decide_false in Hp.
Qed.

Lemma dispatch_allow (m : mux) meth path ms : dispatch m meth path = MethodNotAllowed ms → ms ≠ [].
Proof. unfold dispatch. repeat case_match; intros; simplify_eq; done. Qed.
End mux.
Arguments mux : clear implicits.
Arguments outcome : clear implicits.

(** ** Escaped paths *)

Definition all_ascii : list ascii := map ascii_of_nat (seq 0 256).

Lemma elem_of_all_ascii c : c ∈ all_ascii.
Proof.
  apply list_elem_of_fmap. exists (nat_of_ascii c). split; [by rewrite ascii_nat_embedding|].
  apply elem_of_seq. pose proof (nat_ascii_bounded c). lia.
Qed.

(** Checked on all 256 bytes. *)
Lemma escaped_byte c :
  if path_safe c then c ≠ "%"%char
  else (x ← unhex (hex_digit 55 (N_of_ascii c / 16)); y ← unhex (hex_digit 55 (N_of_ascii c mod 16));
        Some (ascii_of_N (16 * x + y))) = Some c.
Proof.
  assert (forallb (λ c, if path_safe c then bool_decide (c ≠ "%"%char)
    else bool_decide ((x ← unhex (hex_digit 55 (N_of_ascii c / 16)); y ← unhex (hex_digit 55 (N_of_ascii c mod 16));
      Some (ascii_of_N (16 * x + y))) = Some c)) all_ascii = true) as Hall by (vm_compute; reflexivity).
  rewrite forallb_forall in Hall. specialize (Hall c (proj1 (list_elem_of_In _ _) (elem_of_all_ascii c))).
  destruct (path_safe c); by apply bool_decide_eq_true in Hall.
Qed.

(** The path of a redirect reads back. *)
Lemma escapePath_reads_back s : unescape false (escapePath s) = Some s.
Proof.
  induction s as [|c s IH]; [done|].
  change (escapePath (c :: s)) with ((if path_safe c then [c] else percent 55 c) ++ escapePath s).
  pose proof (escaped_byte c) as Hc. destruct (path_safe c).
  - cbn [app unescape]. rewrite decide_False by done. by rewrite IH.
  - unfold percent. cbn [app unescape]. rewrite decide_True by done.
    destruct (unhex (hex_digit 55 (N_of_ascii c / 16))) as [x|]; [|done].
    destruct (unhex (hex_digit 55 (N_of_ascii c mod 16))) as [y|]; [|done]. simpl in *.
    injection Hc as Hc. by rewrite IH, Hc.
Qed.

(** ** Paths without percent-encoding *)

Lemma unescape_plain s : "%"%char ∉ s → unescape false s = Some s.
Proof.
  induction s as [|c s IH]; simpl; [done|]. intros [Hc Hs]%not_elem_of_cons.
  rewrite decide_False by done. rewrite IH by done. done.
Qed.

Lemma pathUnescape_plain s : "%"%char ∉ s → pathUnescape s = s.
Proof. intros H. unfold pathUnescape. by rewrite unescape_plain. Qed.

Lemma segments_of_plain comps ss :
  Forall (λ c, "%"%char ∉ c) comps → segments_of comps = ss →
  ["/"%char] ∉ ss → comps = ss.
Proof.
  intros Hc. revert ss. induction Hc as [|c comps Hc Hcs IH]; intros ss Hs Hn; [done|].
  destruct c as [|x c], comps as [|c' comps].
  - simpl in Hs. subst ss. destruct Hn. left.
  - cbn [segments_of] in Hs. subst ss. apply not_elem_of_cons in Hn as [_ Hn].
    f_equal. by apply IH.
  - cbn [segments_of] in Hs. subst ss. by rewrite pathUnescape_plain.
  - cbn [segments_of] in Hs. subst ss. apply not_elem_of_cons in Hn as [_ Hn].
    rewrite pathUnescape_plain by done. f_equal. by apply IH.
Qed.

Lemma rooted_split p : (∃ r, p = "/"%char :: r) → split_on "/" p = [] :: tail (split_on "/" p).
Proof. by intros [r ->]. Qed.

Lemma split_plain p : "%"%char ∉ p → Forall (λ c, "%"%char ∉ c) (tail (split_on "/" p)).
Proof.
  intros Hp. apply Forall_forall. intros c Hc Hin. apply Hp.
  eapply (elem_of_split_on "/"); [|exact Hin].
  destruct (split_on "/" p); [done|]. by right.
Qed.

(** A literal pattern matches exactly one plain path. *)
Lemma literal_path p ss :
  (∃ r, p = "/"%char :: r) → "%"%char ∉ p → ss ≠ [] → ["/"%char] ∉ ss →
  matches (map Lit ss) (segments p) → p = "/"%char :: join_with "/" ss.
Proof.
  intros Hr Hp Hne Hss Hm.
  assert (∀ segs, matches (map Lit ss) segs → segs = ss) as Heq.
  { clear. induction ss as [|s ss IH]; intros [|s' segs]; simpl; try done.
    intros [<- Hm]. f_equal. auto. }
  apply Heq, segments_of_plain in Hm; [|by apply split_plain|done].
  rewrite <- (join_split "/" p) at 1. rewrite (rooted_split p Hr), Hm.
  by destruct ss.
Qed.

(** The end marker matches only the root. *)
Lemma root_path p :
  (∃ r, p = "/"%char :: r) → "%"%char ∉ p → matches [Lit ["/"%char]] (segments p) → p = ["/"%char].
Proof.
  intros Hr Hp Hm. rewrite <- (join_split "/" p) at 1. rewrite (rooted_split p Hr).
  pose proof (split_plain p Hp) as Hpl.
  assert (Forall (λ c, "/"%char ∉ c) (tail (split_on "/" p))) as Hsl.
  { apply Forall_forall. intros c Hc. apply (elem_of_split_on "/" p).
    destruct (split_on "/" p); [done|]. by right. }
  unfold segments in Hm. destruct (tail (split_on "/" p)) as [|c [|c' comps]]; [done| |].
  - destruct c as [|x c]; [done|]. cbn [segments_of matches] in Hm. destruct Hm as [Hm _].
    apply Forall_cons in Hpl as [Hpl _]. rewrite pathUnescape_plain in Hm by done.
    apply Forall_cons in Hsl as [Hsl _]. rewrite <- Hm in Hsl. destruct Hsl. left.
  - exfalso. destruct c; cbn [segments_of matches] in Hm; destruct Hm as [_ Hm];
      destruct c' as [|? ?], comps; cbn in Hm; done.
Qed.

Lemma cleanPath_rooted p : ∃ r, cleanPath p = "/"%char :: r.
Proof. unfold cleanPath. case_match; simpl; eauto. Qed.
End http.
