(* ===== verification/Utf8.v ===== *)
(** * Bytes, runes and JSON string literals

    Go strings are sequences of bytes; [unicode/utf8] reads them as runes.  On
    top of it the string literals of [encoding/json]: [appendString] of the
    encoder, the scanner's view of a literal, and [unquote] of the decoder. *)

From S2P Require Import Prelude.
From stdpp Require Import prelude list strings.
From Stdlib Require Import ZArith Lia Ascii.
Open Scope Z_scope.

Module utf8.

(** ** Bytes *)

Definition code (c : ascii) : Z := Z.of_N (N_of_ascii c).
Definition chr (z : Z) : ascii := ascii_of_N (Z.to_N z).

Definition bytes (s : string) : list Z := code <$> String.list_ascii_of_string s.
Definition text (l : list Z) : string := String.string_of_list_ascii (chr <$> l).

Definition is_byte (z : Z) : Prop := 0 ≤ z < 256.

Lemma chr_code c : chr (code c) = c.
Proof. unfold chr, code. by rewrite N2Z.id, ascii_N_embedding. Qed.

Lemma code_chr z : is_byte z → code (chr z) = z.
Proof. intros Hz. unfold is_byte in Hz. unfold chr, code. rewrite N_ascii_embedding by lia. lia. Qed.

Lemma text_bytes s : text (bytes s) = s.
Proof.
  unfold text, bytes. rewrite <- list_fmap_compose.
  rewrite (list_fmap_ext _ id) by (intros; apply chr_code).
  rewrite list_fmap_id. apply String.string_of_list_ascii_of_string.
Qed.

Lemma bytes_text l : Forall is_byte l → bytes (text l) = l.
Proof.
  intros Hl. unfold text, bytes. rewrite String.list_ascii_of_string_of_list_ascii, <- list_fmap_compose.
  rewrite <- (list_fmap_id l) at 2. apply list_fmap_ext. intros i z Hz. apply code_chr.
  by eapply Forall_lookup_1.
Qed.

Lemma bytes_range s : Forall is_byte (bytes s).
Proof.
  unfold bytes. apply Forall_fmap, Forall_forall. intros c _. unfold code, is_byte; simpl.
  pose proof (N_ascii_bounded c). lia.
Qed.

Lemma bytes_inj s s' : bytes s = bytes s' → s = s'.
Proof. intros H. by rewrite <- (text_bytes s), H, text_bytes. Qed.

(** ** Runes *)

Definition RuneError : Z := 0xFFFD.

Definition surrogate (r : Z) : bool := (0xD800 <=? r) && (r <=? 0xDFFF).

(** The code points that have an encoding. *)
Definition rune (r : Z) : bool := (0 <=? r) && (r <=? 0x10FFFF) && negb (surrogate r).

Definition EncodeRune (r : Z) : list Z :=
  if r <? 0x80 then [r]
  else if r <? 0x800 then [0xC0 + r / 64; 0x80 + r mod 64]
  else if surrogate r || (0x10FFFF <? r) then [0xEF; 0xBF; 0xBD]
  else if r <? 0x10000 then [0xE0 + r / 4096; 0x80 + r / 64 mod 64; 0x80 + r mod 64]
  else [0xF0 + r / 262144; 0x80 + r / 4096 mod 64; 0x80 + r / 64 mod 64; 0x80 + r mod 64].

Definition between (lo hi b : Z) : bool := (lo <=? b) && (b <=? hi).
Definition continuation : Z → bool := between 0x80 0xBF.

(** The first rune and its size; [None] where Go answers [RuneError] of size 1. *)
Definition DecodeRune (s : list Z) : option (Z * nat) :=
  match s with
  | [] => None
  | c0 :: s =>
      if c0 <? 0x80 then Some (c0, 1%nat)
      else if c0 <? 0xC2 then None
      else if c0 <? 0xE0 then
        match s with
        | c1 :: _ => if continuation c1 then Some ((c0 - 0xC0) * 64 + (c1 - 0x80), 2%nat) else None
        | _ => None
        end
      else if c0 <? 0xF0 then
        match s with
        | c1 :: c2 :: _ =>
            if between (if c0 =? 0xE0 then 0xA0 else 0x80) (if c0 =? 0xED then 0x9F else 0xBF) c1
               && continuation c2
            then Some ((c0 - 0xE0) * 4096 + (c1 - 0x80) * 64 + (c2 - 0x80), 3%nat) else None
        | _ => None
        end
      else if c0 <? 0xF5 then
        match s with
        | c1 :: c2 :: c3 :: _ =>
            if between (if c0 =? 0xF0 then 0x90 else 0x80) (if c0 =? 0xF4 then 0x8F else 0xBF) c1
               && continuation c2 && continuation c3
            then Some ((c0 - 0xF0) * 262144 + (c1 - 0x80) * 4096 + (c2 - 0x80) * 64 + (c3 - 0x80), 4%nat)
            else None
        | _ => None
        end
      else None
  end.

(** Valid text: the encoding of some runes. *)
Definition valid (s : list Z) : Prop := ∃ rs, Forall (λ r, rune r = true) rs ∧ s = rs ≫= EncodeRune.

Definition valid_string (s : string) : Prop := valid (bytes s).

Lemma rune_spec r : rune r = true ↔ 0 ≤ r ≤ 0x10FFFF ∧ ¬ (0xD800 ≤ r ≤ 0xDFFF).
Proof. unfold rune, surrogate. rewrite !andb_true_iff, negb_true_iff, andb_false_iff. lia. Qed.

(** [EncodeRune] by the size of its result. *)
Lemma EncodeRune_cases r :
  rune r = true →
  (0 ≤ r < 0x80 ∧ EncodeRune r = [r]) ∨
  (0x80 ≤ r < 0x800 ∧ EncodeRune r = [0xC0 + r / 64; 0x80 + r mod 64]) ∨
  (0x800 ≤ r < 0x10000 ∧ ¬ (0xD800 ≤ r ≤ 0xDFFF) ∧
     EncodeRune r = [0xE0 + r / 4096; 0x80 + r / 64 mod 64; 0x80 + r mod 64]) ∨
  (0x10000 ≤ r ≤ 0x10FFFF ∧
     EncodeRune r = [0xF0 + r / 262144; 0x80 + r / 4096 mod 64; 0x80 + r / 64 mod 64; 0x80 + r mod 64]).
Proof.
  intros [Hr Hs]%rune_spec. unfold EncodeRune.
  destruct (Z.ltb_spec r 0x80); [left; split; [lia|done]|].
  destruct (Z.ltb_spec r 0x800); [right; left; split; [lia|done]|].
  assert (surrogate r || (0x10FFFF <? r) = false) as ->.
  { unfold surrogate. rewrite orb_false_iff, andb_false_iff. lia. }
  destruct (Z.ltb_spec r 0x10000); do 2 right; [left|right]; repeat split; lia || done.
Qed.

Lemma between_true lo hi b : lo ≤ b ≤ hi → between lo hi b = true.
Proof. intros. unfold between. lia. Qed.

Lemma Decode_Encode r t :
  rune r = true → DecodeRune (EncodeRune r ++ t) = Some (r, length (EncodeRune r)).
Proof.
  intros Hr. destruct (EncodeRune_cases r Hr) as [(H & ->)|[(H & ->)|[(H & Hs & ->)|(H & ->)]]];
    unfold DecodeRune, continuation; cbn [app length].
  - by destruct (Z.ltb_spec r 0x80); [|lia].
  - rewrite between_true by (Z.div_mod_to_equations; lia).
    repeat (case_match; bool_props; [Z.div_mod_to_equations; lia|]).
    case_match; bool_props; [|Z.div_mod_to_equations; lia].
    f_equal. f_equal. Z.div_mod_to_equations; lia.
  - rewrite !between_true by (repeat case_match; bool_props; Z.div_mod_to_equations; lia).
    do 3 (case_match; bool_props; [Z.div_mod_to_equations; lia|]).
    case_match; bool_props; [|Z.div_mod_to_equations; lia].
    simpl. f_equal. f_equal. Z.div_mod_to_equations; lia.
  - rewrite !between_true by (repeat case_match; bool_props; Z.div_mod_to_equations; lia).
    do 4 (case_match; bool_props; [Z.div_mod_to_equations; lia|]).
    case_match; bool_props; [|Z.div_mod_to_equations; lia].
    simpl. f_equal. f_equal. Z.div_mod_to_equations; lia.
Qed.

Lemma EncodeRune_nonempty r : ∃ b l, EncodeRune r = b :: l.
Proof. unfold EncodeRune. repeat case_match; eauto. Qed.

(** Whatever is encoded, a rune comes out. *)
Lemma EncodeRune_rune r : 0 ≤ r → ∃ r', rune r' = true ∧ EncodeRune r = EncodeRune r'.
Proof.
  intros Hr. destruct (rune r) eqn:E; [by exists r|]. exists RuneError. split; [done|].
  assert (¬ rune r = true) as E' by congruence. rewrite rune_spec in E'.
  unfold EncodeRune, surrogate. rewrite !(proj2 (Z.ltb_ge _ _)) by lia.
  assert (0xD800 ≤ r ≤ 0xDFFF ∨ 0x10FFFF < r) as Hb by lia.
  by rewrite (proj2 (orb_true_iff _ _)) by (rewrite andb_true_iff; lia).
Qed.

Lemma DecodeRune_rune s r n : Forall is_byte s → DecodeRune s = Some (r, n) → rune r = true ∧ (0 < n)%nat.
Proof.
  intros Hs. destruct s as [|c0 s]; [done|]. apply Forall_cons in Hs as [Hc _]. unfold is_byte in Hc.
  unfold DecodeRune, continuation, between. intros H. rewrite rune_spec.
  repeat (case_match; simplify_eq/=; try done); rewrite ?andb_true_iff in *; bool_props; lia.
Qed.

Lemma EncodeRune_bytes r : rune r = true → Forall is_byte (EncodeRune r).
Proof.
  intros Hr. destruct (EncodeRune_cases r Hr) as [(H & ->)|[(H & ->)|[(H & Hs & ->)|(H & ->)]]];
    repeat (apply Forall_cons; split); try apply Forall_nil; try done; unfold is_byte; Z.div_mod_to_equations; lia.
Qed.

Lemma valid_bytes s : valid s → Forall is_byte s.
Proof.
  intros (rs & Hrs & ->). induction Hrs; simpl; [constructor|].
  apply Forall_app. split; [by apply EncodeRune_bytes|done].
Qed.

Lemma valid_nil : valid [].
Proof. by exists []. Qed.

Lemma valid_app s s' : valid s → valid s' → valid (s ++ s').
Proof.
  intros (rs & H & ->) (rs' & H' & ->). exists (rs ++ rs'). split; [by apply Forall_app|].
  by rewrite bind_app.
Qed.

Lemma valid_rune r : 0 ≤ r → valid (EncodeRune r).
Proof.
  intros (r' & Hr & ->)%EncodeRune_rune. exists [r']. split; [by constructor|]. simpl. by rewrite app_nil_r.
Qed.

(** ASCII text is valid. *)
Lemma valid_ascii s : Forall (λ b, 0 ≤ b < 128) s → valid s.
Proof.
  intros Hs. exists s. split.
  - eapply Forall_impl; [exact Hs|]. intros b Hb. simpl in Hb. apply rune_spec. lia.
  - induction Hs as [|b s Hb _ IH]; [done|]. rewrite bind_cons, <- IH.
    unfold EncodeRune. by destruct (Z.ltb_spec b 0x80); [|lia].
Qed.

(** A byte string as runes, [None] for a byte that belongs to none, and the
    text with those bytes replaced ([strings.ToValidUTF8] bytewise). *)
Fixpoint units (fuel : nat) (s : list Z) : list (option Z) :=
  match fuel, s with
  | S fuel, _ :: s' =>
      match DecodeRune s with
      | Some (r, n) => Some r :: units fuel (drop n s)
      | None => None :: units fuel s'
      end
  | _, _ => []
  end.

Definition sanitize (s : list Z) : list Z := units (length s) s ≫= λ u, EncodeRune (default RuneError u).

Lemma units_encoded rs fuel :
  Forall (λ r, rune r = true) rs → (length (rs ≫= EncodeRune) ≤ fuel)%nat →
  units fuel (rs ≫= EncodeRune) = Some <$> rs.
Proof.
  intros Hrs. revert fuel. induction Hrs as [|r rs Hr _ IH]; intros fuel Hf; [by destruct fuel|].
  rewrite bind_cons in *. rewrite length_app in Hf. destruct (EncodeRune_nonempty r) as (b & l & Hb).
  destruct fuel as [|fuel]; [rewrite Hb in Hf; simpl in Hf; lia|]. cbn [units].
  rewrite (Decode_Encode r _ Hr). rewrite Hb at 1. cbn [app].
  rewrite drop_app_length, IH; [done|]. rewrite Hb in Hf. simpl in Hf. lia.
Qed.

Lemma sanitize_valid s : valid s → sanitize s = s.
Proof.
  intros (rs & Hrs & ->). unfold sanitize. rewrite units_encoded by done.
  clear Hrs. induction rs as [|r rs IH]; [done|]. rewrite fmap_cons, !bind_cons. by rewrite IH.
Qed.

Lemma units_runes fuel s : Forall is_byte s → Forall (λ u, from_option rune true u = true) (units fuel s).
Proof.
  revert s. induction fuel as [|fuel IH]; intros s Hs; [constructor|]. destruct s as [|b s]; [constructor|].
  cbn [units]. destruct (DecodeRune (b :: s)) as [[r n]|] eqn:Hd; constructor; simpl.
  - by apply (DecodeRune_rune _ _ _ Hs) in Hd as [? _].
  - apply IH. by apply Forall_drop.
  - done.
  - apply IH. by apply Forall_cons in Hs as [_ ?].
Qed.

(** What is decoded is the encoding of the rune. *)
Lemma Encode_Decode s r n :
  Forall is_byte s → DecodeRune s = Some (r, n) → s = EncodeRune r ++ drop n s.
Proof.
  intros Hs H. pose proof (proj1 (DecodeRune_rune s r n Hs H)) as Hr.
  destruct s as [|c0 s]; [done|]. apply Forall_cons in Hs as [Hc _]. unfold is_byte in Hc.
  unfold DecodeRune, continuation, between in H.
  destruct (EncodeRune_cases r Hr) as [(B & ->)|[(B & ->)|[(B & _ & ->)|(B & ->)]]];
    repeat (case_match; simplify_eq/=; try done); rewrite ?andb_true_iff in *; bool_props;
    try lia; repeat f_equal; Z.div_mod_to_equations; lia.
Qed.

(** [utf8.ValidString], which is also what Postgres demands of UTF-8 text. *)
Definition ValidString (s : string) : bool :=
  forallb (λ u, bool_decide (is_Some u)) (units (length (bytes s)) (bytes s)).

Lemma units_valid fuel s :
  Forall is_byte s → (length s ≤ fuel)%nat → forallb (λ u, bool_decide (is_Some u)) (units fuel s) = true → valid s.
Proof.
  revert s. induction fuel as [|fuel IH]; intros s Hs Hf; (destruct s as [|b s]; [by intros _; apply valid_nil|]);
    [simpl in Hf; lia|].
  cbn [units]. destruct (DecodeRune (b :: s)) as [[r n]|] eqn:Hd; [|done]. cbn [forallb].
  intros [_ Hu]%andb_true_iff. destruct (DecodeRune_rune _ _ _ Hs Hd) as [Hr Hn].
  rewrite (Encode_Decode _ _ _ Hs Hd). apply valid_app; [apply valid_rune; apply rune_spec in Hr; lia|].
  apply IH; [by apply Forall_drop| |done]. rewrite length_drop. simpl in *. lia.
Qed.

Lemma ValidString_spec s : ValidString s = true ↔ valid_string s.
Proof.
  split.
  - apply units_valid; [apply bytes_range|done].
  - intros (rs & Hrs & Heq). unfold ValidString. rewrite Heq, units_encoded by done.
    clear. by induction rs.
Qed.

(** ** String literals of [encoding/json] *)

Definition hex (d : Z) : Z := if d <? 10 then 48 + d else 87 + d.

Definition unhex (c : Z) : option Z :=
  if between 48 57 c then Some (c - 48)
  else if between 97 102 c then Some (c - 87)
  else if between 65 70 c then Some (c - 55) else None.

(** What [appendString] writes for a rune, with [escapeHTML] on. *)
Definition escape (r : Z) : list Z :=
  if (r =? 34) || (r =? 92) then [92; r]
  else if r =? 8 then [92; 98]
  else if r =? 12 then [92; 102]
  else if r =? 10 then [92; 110]
  else if r =? 13 then [92; 114]
  else if r =? 9 then [92; 116]
  else if (r <? 32) || (r =? 60) || (r =? 62) || (r =? 38) then [92; 117; 48; 48; hex (r / 16); hex (r mod 16)]
  else if (r =? 0x2028) || (r =? 0x2029) then [92; 117; 50; 48; 50; hex (r mod 16)]
  else EncodeRune r.

Fixpoint escape_all (fuel : nat) (s : list Z) : list Z :=
  match fuel, s with
  | S fuel, _ :: s' =>
      match DecodeRune s with
      | Some (r, n) => escape r ++ escape_all fuel (drop n s)
      | None => [92; 117; 102; 102; 102; 100] ++ escape_all fuel s'
      end
  | _, _ => []
  end.

Definition appendString (s : list Z) : list Z := [34] ++ escape_all (length s) s ++ [34].

(** The scanner after the opening quote: the raw literal, and what follows the
    closing quote. *)
Definition simple_escape (c : Z) : bool :=
  existsb (Z.eqb c) [98; 102; 110; 114; 116; 92; 47; 34].

Definition is_hex (c : Z) : bool := match unhex c with Some _ => true | None => false end.

Definition push (front : list Z) (o : option (list Z * list Z)) : option (list Z * list Z) :=
  '(raw, rest) ← o; Some (front ++ raw, rest).

Fixpoint scan_string (l : list Z) : option (list Z * list Z) :=
  match l with
  | [] => None
  | c :: l =>
      if c =? 34 then Some ([], l)
      else if c =? 92 then
        match l with
        | [] => None
        | e :: l1 =>
            if simple_escape e then push [c; e] (scan_string l1)
            else if e =? 117 then
              match l1 with
              | h1 :: h2 :: h3 :: h4 :: l2 =>
                  if is_hex h1 && is_hex h2 && is_hex h3 && is_hex h4
                  then push [c; e; h1; h2; h3; h4] (scan_string l2) else None
              | _ => None
              end
            else None
        end
      else if c <? 32 then None
      else push [c] (scan_string l)
  end.

(** Four hexadecimal digits, and a whole [\uXXXX] ([getu4]). *)
Definition hex4 (l : list Z) : option Z :=
  match l with
  | h1 :: h2 :: h3 :: h4 :: _ =>
      h1 ← unhex h1; h2 ← unhex h2; h3 ← unhex h3; h4 ← unhex h4;
      Some (h1 * 4096 + h2 * 256 + h3 * 16 + h4)
  | _ => None
  end.

Definition getu4 (l : list Z) : option Z :=
  match l with
  | c :: e :: l => if (c =? 92) && (e =? 117) then hex4 l else None
  | _ => None
  end.

(** [utf16.DecodeRune]; [None] where it answers the replacement character. *)
Definition surrogate_pair (r1 r2 : Z) : option Z :=
  if between 0xD800 0xDBFF r1 && between 0xDC00 0xDFFF r2
  then Some ((r1 - 0xD800) * 1024 + (r2 - 0xDC00) + 0x10000) else None.

Definition unescape (e : Z) : option Z :=
  if e =? 98 then Some 8
  else if e =? 102 then Some 12
  else if e =? 110 then Some 10
  else if e =? 114 then Some 13
  else if e =? 116 then Some 9
  else if (e =? 34) || (e =? 92) || (e =? 47) || (e =? 39) then Some e
  else None.

(** [unquoteBytes] on the bytes between the quotes. *)
Fixpoint unquote (fuel : nat) (s : list Z) : option (list Z) :=
  match s, fuel with
  | [], _ => Some []
  | _, O => None
  | c :: s1, S fuel =>
      if c =? 92 then
        match s1 with
        | [] => None
        | e :: s2 =>
            if e =? 117 then
              rr ← getu4 s;
              if surrogate rr then
                match getu4 (drop 6 s) ≫= surrogate_pair rr with
                | Some dec => app (EncodeRune dec) <$> unquote fuel (drop 12 s)
                | None => app (EncodeRune RuneError) <$> unquote fuel (drop 6 s)
                end
              else app (EncodeRune rr) <$> unquote fuel (drop 6 s)
            else b ← unescape e; cons b <$> unquote fuel s2
        end
      else if (c =? 34) || (c <? 32) then None
      else match DecodeRune s with
           | Some (r, n) => app (EncodeRune r) <$> unquote fuel (drop n s)
           | None => app (EncodeRune RuneError) <$> unquote fuel s1
           end
  end.

Definition unquoteBytes (s : list Z) : option (list Z) := unquote (length s) s.

(** *** The literal of a string reads back *)

Definition escape_unit (u : option Z) : list Z :=
  match u with Some r => escape r | None => [92; 117; 102; 102; 102; 100] end.

Lemma escape_all_units fuel s : escape_all fuel s = units fuel s ≫= escape_unit.
Proof.
  revert s. induction fuel as [|fuel IH]; intros s; [done|]. destruct s as [|b s]; [done|].
  cbn [escape_all units]. destruct (DecodeRune (b :: s)) as [[r n]|]; rewrite bind_cons; by rewrite IH.
Qed.

Lemma unhex_hex d : 0 ≤ d < 16 → unhex (hex d) = Some d.
Proof.
  intros Hd. unfold hex, unhex, between.
  repeat (case_match; bool_props); rewrite ?andb_true_iff, ?andb_false_iff in *; f_equal; lia.
Qed.

(** What one rune is written as: itself, a two-byte escape or a [\uXXXX]. *)
Lemma escape_cases r :
  rune r = true →
  (∃ e, escape r = [92; e] ∧ simple_escape e = true ∧ e ≠ 117 ∧ unescape e = Some r ∧ EncodeRune r = [r]) ∨
  (∃ h1 h2 h3 h4, escape r = [92; 117; h1; h2; h3; h4] ∧ surrogate r = false ∧
     hex4 [h1; h2; h3; h4] = Some r) ∨
  (escape r = EncodeRune r ∧ 32 ≤ r ∧ r ≠ 34 ∧ r ≠ 92).
Proof.
  intros Hr. apply rune_spec in Hr as [Hr Hs]. unfold escape.
  assert (∀ e, r = e → 0 ≤ e < 128 → EncodeRune r = [r]) as Hasc.
  { intros e -> He. unfold EncodeRune. by destruct (Z.ltb_spec e 0x80); [|lia]. }
  destruct (_ || _) eqn:E1.
  { left. exists r. apply orb_true_iff in E1 as [->%Z.eqb_eq| ->%Z.eqb_eq]; done. }
  repeat match goal with
  | |- context [r =? ?k] =>
      lazymatch k with
      | 60 => fail | 62 => fail | 38 => fail | 0x2028 => fail | 0x2029 => fail
      | _ => destruct (Z.eqb_spec r k) as [->|]; [left; eexists; split; [reflexivity|done]|]
      end
  end.
  destruct ((r <? 32) || _ || _ || _) eqn:E2.
  { right; left. exists 48, 48, (hex (r / 16)), (hex (r mod 16)). rewrite !orb_true_iff in E2.
    assert (r < 64) by (destruct E2 as [[[?|?]|?]|?]; bool_props; lia).
    split; [done|]. split; [unfold surrogate; lia|]. unfold hex4.
    rewrite !unhex_hex by (Z.div_mod_to_equations; lia). simpl. f_equal. Z.div_mod_to_equations; lia. }
  destruct ((r =? 0x2028) || _) eqn:E3; cycle 1.
  { right; right. split; [done|]. rewrite !orb_false_iff in *. destruct E1, E2 as [[[? ?] ?] ?]. bool_props. lia. }
  right; left. exists 50, 48, 50, (hex (r mod 16)).
  apply orb_true_iff in E3 as [->%Z.eqb_eq| ->%Z.eqb_eq]; done.
Qed.

(** Bytes that stand for themselves in a literal. *)
Definition plain (b : Z) : Prop := 32 ≤ b < 256 ∧ b ≠ 34 ∧ b ≠ 92.

Lemma scan_plain l t : Forall plain l → scan_string (l ++ t) = push l (scan_string t).
Proof.
  intros Hl. induction Hl as [|b l (? & ? & ?) _ IH]; cbn [app scan_string].
  - by destruct (scan_string t) as [[??]|].
  - destruct (Z.eqb_spec b 34), (Z.eqb_spec b 92), (Z.ltb_spec b 32); try lia. rewrite IH.
    by destruct (scan_string t) as [[??]|].
Qed.

Lemma scan_high r t :
  rune r = true → 32 ≤ r → r ≠ 34 → r ≠ 92 →
  scan_string (EncodeRune r ++ t) = push (EncodeRune r) (scan_string t).
Proof.
  intros Hr H32 H34 H92. apply scan_plain. unfold plain.
  destruct (EncodeRune_cases r Hr) as [(H & ->)|[(H & ->)|[(H & Hs & ->)|(H & ->)]]];
    repeat (apply Forall_cons; split); try apply Forall_nil; Z.div_mod_to_equations; lia.
Qed.

Lemma hex4_is_hex h1 h2 h3 h4 r :
  hex4 [h1; h2; h3; h4] = Some r → is_hex h1 && is_hex h2 && is_hex h3 && is_hex h4 = true.
Proof. unfold hex4, is_hex. by destruct (unhex h1), (unhex h2), (unhex h3), (unhex h4). Qed.

Definition unit_ok (u : option Z) : Prop := from_option rune true u = true.

Lemma scan_unit u t : unit_ok u → scan_string (escape_unit u ++ t) = push (escape_unit u) (scan_string t).
Proof.
  intros Hu. destruct u as [r|]; [|done]. unfold unit_ok in Hu. simpl in Hu. cbn [escape_unit].
  destruct (escape_cases r Hu) as [(e & -> & He & _)|[(h1 & h2 & h3 & h4 & -> & _ & H4)|(-> & ? & ? & ?)]].
  - cbn [app scan_string]. by rewrite He.
  - cbn [app scan_string]. change (simple_escape 117) with false. by rewrite (hex4_is_hex _ _ _ _ _ H4).
  - by apply scan_high.
Qed.

Lemma scan_units us t : Forall unit_ok us → scan_string ((us ≫= escape_unit) ++ 34 :: t) = Some (us ≫= escape_unit, t).
Proof.
  intros Hus. induction Hus as [|u us Hu _ IH]; [done|]. rewrite bind_cons, <- app_assoc, scan_unit by done.
  by rewrite IH.
Qed.

Lemma unquote_unit fuel u s s' :
  unit_ok u → unquote fuel s = Some s' →
  unquote (S fuel) (escape_unit u ++ s) = Some (EncodeRune (default RuneError u) ++ s').
Proof.
  intros Hu Hs. destruct u as [r|]; cbn [escape_unit default from_option id]; cycle 1.
  { simpl. by rewrite drop_0, Hs. }
  unfold unit_ok in Hu. simpl in Hu.
  destruct (escape_cases r Hu) as [(e & -> & _ & He & Hun & ->)|[(h1 & h2 & h3 & h4 & -> & Hsur & H4)|(-> & ? & ? & ?)]].
  - cbn [app unquote]. destruct (Z.eqb_spec e 117); [done|]. simpl. by rewrite Hun, Hs.
  - cbn [app unquote]. change (getu4 (92 :: 117 :: ?l)) with (hex4 l).
    change (hex4 (h1 :: h2 :: h3 :: h4 :: s)) with (hex4 [h1; h2; h3; h4]). rewrite H4. simpl.
    by rewrite Hsur, drop_0, Hs.
  - destruct (EncodeRune_nonempty r) as (b & l & Hb). pose proof (Decode_Encode r s Hu) as Hd.
    assert (b ≠ 92 ∧ b ≠ 34 ∧ 32 ≤ b) as (? & ? & ?).
    { destruct (EncodeRune_cases r Hu) as [(H' & E)|[(H' & E)|[(H' & Hsu & E)|(H' & E)]]];
        rewrite E in Hb; injection Hb as <- _; Z.div_mod_to_equations; lia. }
    rewrite Hb in Hd |- *. cbn [app unquote] in *. rewrite Hd.
    destruct (Z.eqb_spec b 92), (Z.eqb_spec b 34), (Z.ltb_spec b 32); try lia. simpl.
    rewrite drop_app_length, Hs. by rewrite Hb.
Qed.

Lemma unquote_units fuel us :
  Forall unit_ok us → (length us ≤ fuel)%nat →
  unquote fuel (us ≫= escape_unit) = Some (us ≫= λ u, EncodeRune (default RuneError u)).
Proof.
  intros Hus. revert fuel. induction Hus as [|u us Hu _ IH]; intros fuel Hf; [by destruct fuel|].
  simpl in Hf. destruct fuel as [|fuel]; [lia|]. rewrite !bind_cons. apply unquote_unit; [done|]. apply IH. lia.
Qed.

Lemma escape_unit_length us : (length us ≤ length (us ≫= escape_unit))%nat.
Proof.
  induction us as [|u us IH]; [done|]. rewrite bind_cons, length_app. simpl.
  assert (0 < length (escape_unit u))%nat; [|lia].
  destruct u as [r|]; simpl; [|lia]. unfold escape. destruct (EncodeRune_nonempty r) as (b & l & Hb).
  repeat case_match; simpl; try lia. rewrite Hb. simpl. lia.
Qed.

(** A string written by the encoder is one literal to the scanner, and decodes to
    the string, its invalid bytes replaced. *)
Lemma literal_round_trip s t :
  Forall is_byte s →
  ∃ raw, appendString s ++ t = 34 :: raw ++ 34 :: t ∧ scan_string (raw ++ 34 :: t) = Some (raw, t) ∧
    unquoteBytes raw = Some (sanitize s).
Proof.
  intros Hs. pose proof (units_runes (length s) s Hs) as Hu.
  exists (units (length s) s ≫= escape_unit). split_and!.
  - unfold appendString. rewrite escape_all_units. cbn [app]. by rewrite <- app_assoc.
  - by apply scan_units.
  - apply unquote_units; [done|]. apply escape_unit_length.
Qed.

(** What the decoder makes of a literal is valid text. *)
Lemma hex4_nonneg l r : hex4 l = Some r → 0 ≤ r.
Proof.
  assert (∀ c d, unhex c = Some d → 0 ≤ d) as Hh.
  { intros c d. unfold unhex, between. repeat case_match; rewrite ?andb_true_iff in *; bool_props;
      intros [= <-]; lia. }
  unfold hex4. destruct l as [|h1 [|h2 [|h3 [|h4 l]]]]; try done.
  destruct (unhex h1) as [d1|] eqn:E1, (unhex h2) as [d2|] eqn:E2, (unhex h3) as [d3|] eqn:E3,
    (unhex h4) as [d4|] eqn:E4; simpl; try done. intros [= <-].
  apply Hh in E1, E2, E3, E4. lia.
Qed.

Lemma getu4_nonneg l r : getu4 l = Some r → 0 ≤ r.
Proof.
  unfold getu4. destruct l as [|c [|e l]]; try done. case_match; [|done]. apply hex4_nonneg.
Qed.

Lemma surrogate_pair_nonneg r1 r2 r : surrogate_pair r1 r2 = Some r → 0 ≤ r.
Proof.
  unfold surrogate_pair, between. case_match eqn:E; [|done]. rewrite !andb_true_iff in E.
  intros [= <-]. lia.
Qed.

Lemma unquote_valid fuel s s' : Forall is_byte s → unquote fuel s = Some s' → valid s'.
Proof.
  revert s s'. induction fuel as [|fuel IH]; intros s s' Hs; [by destruct s; [intros [= <-]; apply valid_nil|]|].
  assert (∀ r n, 0 ≤ r → app (EncodeRune r) <$> unquote fuel (drop n s) = Some s' → valid s') as Hstep.
  { intros r n Hr. destruct (unquote fuel (drop n s)) as [s1|] eqn:E; [|done]. intros [= <-].
    apply valid_app; [by apply valid_rune|]. eapply IH; [|done]. by apply Forall_drop. }
  destruct s as [|c s1]; [intros [= <-]; apply valid_nil|]. cbn [unquote].
  destruct (c =? 92); [destruct s1 as [|e s2]; [done|]; destruct (e =? 117)|].
  - destruct (getu4 (c :: e :: s2)) as [rr|] eqn:Hg; [|done]. apply getu4_nonneg in Hg. simpl.
    destruct (surrogate rr); [|by apply (Hstep rr 6%nat)].
    destruct (getu4 _ ≫= _) as [dec|] eqn:Hp; [|by apply (Hstep RuneError 6%nat)].
    apply bind_Some in Hp as (r2 & _ & Hp). apply (Hstep dec 12%nat). by eapply surrogate_pair_nonneg.
  - destruct (unescape e) as [b|] eqn:Hb; [|done]. simpl.
    assert (0 ≤ b < 128) as Hr.
    { unfold unescape in Hb. repeat case_match; simplify_eq; lia. }
    intros H. apply (Hstep b 2%nat); [lia|]. unfold EncodeRune. destruct (Z.ltb_spec b 0x80); [done|lia].
  - destruct (_ || _); [done|].
    destruct (DecodeRune (c :: s1)) as [[r n]|] eqn:Hd; [|by apply (Hstep RuneError 1%nat)].
    apply (DecodeRune_rune _ _ _ Hs) in Hd as [Hr _]. apply rune_spec in Hr. apply Hstep. lia.
Qed.

(** What is written is bytes. *)
Lemma is_hex_byte h : is_hex h = true → is_byte h.
Proof.
  unfold is_hex, unhex, between, is_byte. repeat case_match; rewrite ?andb_true_iff in *; bool_props; done || lia.
Qed.

Lemma escape_unit_bytes u : unit_ok u → Forall is_byte (escape_unit u).
Proof.
  intros Hu. destruct u as [r|]; [|by repeat (apply Forall_cons; split)]. unfold unit_ok in Hu. simpl in Hu. cbn [escape_unit].
  destruct (escape_cases r Hu) as [(e & -> & He & _)|[(h1 & h2 & h3 & h4 & -> & _ & H4)|(-> & _)]].
  - apply Forall_cons. split; [done|]. apply Forall_singleton. unfold simple_escape in He. apply existsb_exists in He as (x & Hx & ->%Z.eqb_eq).
    apply list_elem_of_In in Hx. revert x Hx. apply Forall_forall. by repeat (apply Forall_cons; split).
  - apply hex4_is_hex in H4. rewrite !andb_true_iff in H4. destruct H4 as [[[? ?] ?] ?].
    repeat (apply Forall_cons; split); try done; by apply is_hex_byte.
  - by apply EncodeRune_bytes.
Qed.

Lemma appendString_bytes s : Forall is_byte s → Forall is_byte (appendString s).
Proof.
  intros Hs. unfold appendString. rewrite escape_all_units. pose proof (units_runes (length s) s Hs) as Hu.
  repeat (apply Forall_app; split); try by apply Forall_singleton.
  induction Hu as [|u us Hu _ IH]; [by apply Forall_nil|]. rewrite bind_cons. apply Forall_app.
  split; [by apply escape_unit_bytes|done].
Qed.

End utf8.
