(* ===== verification/Decimal.v ===== *)
(** * Decimal text of [float64]: [strconv.ParseFloat] and [AppendFloat(-1)]

    A JSON number is read as the nearest [float64] (ties to even) to the exact
    decimal value, and written with the fewest digits that read back.  Both are
    computed on exact rationals; the result is that every finite number reads
    back as itself, and that seventeen digits are always enough. *)

From S2P Require Import Prelude Float64 Utf8.
From stdpp Require Import prelude list strings.
From Stdlib Require Import ZArith Lia.
From Stdlib Require SpecFloat.
Open Scope Z_scope.

Module decimal.
Import utf8 (between).

(** ** Powers with negative exponents, as quotients *)

(** [b ^ k] is [num b k / den b k]. *)
Definition num (b k : Z) : Z := b ^ Z.max k 0.
Definition den (b k : Z) : Z := b ^ Z.max (- k) 0.

Lemma num_pos b k : 0 < b → 0 < num b k.
Proof. intros. apply Z.pow_pos_nonneg; lia. Qed.

Lemma den_pos b k : 0 < b → 0 < den b k.
Proof. intros. apply Z.pow_pos_nonneg; lia. Qed.

Lemma scale b k j : 0 < b → 0 ≤ j → num b (k + j) * den b k = b ^ j * (num b k * den b (k + j)).
Proof.
  intros Hb Hj. unfold num, den. rewrite <- !Z.pow_add_r by lia. f_equal. lia.
Qed.

(** ** Rounding to [float64] *)

(** The integer nearest to [n / d], ties to even. *)
Definition rne_div (n d : Z) : Z :=
  let q := n / d in
  let r := n mod d in
  if 2 * r <? d then q
  else if 2 * r =? d then (if Z.even q then q else q + 1)
  else q + 1.

(** [2 ^ k ≤ n / d] *)
Definition pow2_le (k n d : Z) : bool := d * num 2 k <=? n * den 2 k.

(** The [k] with [2 ^ k ≤ n / d < 2 ^ (k + 1)]. *)
Definition log2_ratio (n d : Z) : Z :=
  let k := Z.log2 n - Z.log2 d in
  if pow2_le k n d then k else k - 1.

(** Mantissa and exponent of the [float64] nearest to [n / d]; [None] is overflow. *)
Definition round_ratio (n d : Z) : option (Z * Z) :=
  let e := Z.max (-1074) (log2_ratio n d - 52) in
  let q := rne_div (n * den 2 e) (d * num 2 e) in
  let '(q, e) := if q =? 2 ^ 53 then (2 ^ 52, e + 1) else (q, e) in
  if 971 <? e then None else Some (q, e).

(** The nearest to [c * 10 ^ x]. *)
Definition round_decimal (c x : Z) : option (Z * Z) := round_ratio (c * num 10 x) (den 10 x).

Definition of_parts (neg : bool) (m e : Z) : float64.t :=
  if m =? 0 then SpecFloat.S754_zero neg else SpecFloat.S754_finite neg (Z.to_pos m) e.

(** ** Reading *)

Definition is_digit : Z → bool := between 48 57.

Definition digits_val (l : list Z) : Z := foldl (λ acc c, 10 * acc + (c - 48)) 0 l.

Fixpoint span_digits (l : list Z) : list Z * list Z :=
  match l with
  | c :: l' => if is_digit c then let '(ds, rest) := span_digits l' in (c :: ds, rest) else ([], l)
  | [] => ([], [])
  end.

(** A number literal: sign, integer part, fraction, exponent. *)
Record number : Type := MkNumber { neg : bool; ip : list Z; fp : list Z; ex : Z }.

(** [readFloat] stops adding digits to the exponent at 10000. *)
Definition exponent_val (l : list Z) : Z :=
  foldl (λ e c, if e <? 10000 then 10 * e + (c - 48) else e) 0 l.

Definition scan_int (l : list Z) : option (list Z * list Z) :=
  match l with
  | c :: l' => if c =? 48 then Some ([48], l') else if is_digit c then Some (span_digits l) else None
  | [] => None
  end.

Definition scan_frac (l : list Z) : option (list Z * list Z) :=
  match l with
  | c :: l' =>
      if c =? 46 then match span_digits l' with ([], _) => None | r => Some r end else Some ([], l)
  | [] => Some ([], [])
  end.

Definition scan_exp (l : list Z) : option (Z * list Z) :=
  match l with
  | c :: l' =>
      if (c =? 101) || (c =? 69) then
        let '(sign, l2) :=
          match l' with
          | s :: l2 => if s =? 45 then (-1, l2) else if s =? 43 then (1, l2) else (1, l')
          | [] => (1, [])
          end in
        match span_digits l2 with ([], _) => None | (ds, rest) => Some (sign * exponent_val ds, rest) end
      else Some (0, l)
  | [] => Some (0, [])
  end.

(** The scanner's number grammar: the literal and what follows it. *)
Definition scan_unsigned (neg : bool) (l : list Z) : option (number * list Z) :=
  '(ip, l) ← scan_int l; '(fp, l) ← scan_frac l; '(ex, l) ← scan_exp l;
  Some (MkNumber neg ip fp ex, l).

Definition scan_number (l : list Z) : option (number * list Z) :=
  match l with
  | c :: l' => if c =? 45 then scan_unsigned true l' else scan_unsigned false l
  | [] => None
  end.

Fixpoint strip_zeros (l : list Z) : list Z :=
  match l with c :: l' => if c =? 48 then strip_zeros l' else l | [] => [] end.

(** [strconv.ParseFloat(s, 64)]; [None] is the range error. *)
Definition ParseFloat (n : number) : option float64.t :=
  let ds := strip_zeros (ip n ++ fp n) in
  let x := ex n - Z.of_nat (length (fp n)) in
  let dp := Z.of_nat (length ds) + x in
  match ds with
  | [] => Some (SpecFloat.S754_zero (neg n))
  | _ =>
      if 310 <? dp then None
      else if dp <? -330 then Some (SpecFloat.S754_zero (neg n))
      else '(m, e) ← round_decimal (digits_val ds) x; Some (of_parts (neg n) m e)
  end.

(** ** Writing *)

(** [c * 10 ^ x] for the number [m * 2 ^ e], rounded to [n] digits: numerator and
    denominator of [m * 2 ^ e / 10 ^ x]. *)
Definition quot_num (m e x : Z) : Z := m * num 2 e * den 10 x.
Definition quot_den (e x : Z) : Z := den 2 e * num 10 x.

(** [10 ^ k ≤ m * 2 ^ e] *)
Definition pow10_le (k m e : Z) : bool := quot_den e k <=? quot_num m e k.

(** The [k] with [10 ^ k ≤ m * 2 ^ e < 10 ^ (k + 1)]: a guess that is at most two
    too low, then corrected. *)
Definition log10_floor (m e : Z) : Z :=
  let k := (Z.log2 m + e) * 301 / 1000 - 1 in
  if pow10_le (k + 2) m e then k + 2 else if pow10_le (k + 1) m e then k + 1 else k.

Definition reads_back (m e c x : Z) : bool :=
  match round_decimal c x with Some (m', e') => (m' =? m) && (e' =? e) | None => false end.

(** [c * 10 ^ x] with [n] digits, where rounding may have reached [10 ^ n]. *)
Definition fit (n c x : Z) : Z * Z := if c =? 10 ^ n then (10 ^ (n - 1), x + 1) else (c, x).

(** With [n] digits: the nearest decimal if it reads back, else its neighbour on
    the other side of the number. *)
Definition with_digits (m e k n : Z) : option (Z * Z) :=
  let x := k - (n - 1) in
  let top := quot_num m e x in
  let bot := quot_den e x in
  let near := rne_div top bot in
  let other := if top <? near * bot then near - 1 else near + 1 in
  let '(c1, x1) := fit n near x in
  if reads_back m e c1 x1 then Some (c1, x1)
  else let '(c2, x2) := fit n other x in if reads_back m e c2 x2 then Some (c2, x2) else None.

Fixpoint first_fit (fuel : nat) (m e k n : Z) : option (Z * Z) :=
  match fuel with
  | O => None
  | S fuel => match with_digits m e k n with Some r => Some r | None => first_fit fuel m e k (n + 1) end
  end.

(** The shortest decimal that reads back. *)
Definition shortest (m e : Z) : option (Z * Z) := first_fit 17 m e (log10_floor m e) 1.

Fixpoint digits_acc (fuel : nat) (c : Z) (acc : list Z) : list Z :=
  match fuel with
  | O => acc
  | S fuel => let acc := (48 + c mod 10) :: acc in if c <? 10 then acc else digits_acc fuel (c / 10) acc
  end.

Definition digits_of (c : Z) : list Z := digits_acc 20 c [].

(** [%f]: the point stands [dp] digits from the left. *)
Definition fixed (ds : list Z) (dp : Z) : list Z :=
  if dp <=? 0 then [48; 46] ++ replicate (Z.to_nat (- dp)) 48 ++ ds
  else if dp <? Z.of_nat (length ds) then take (Z.to_nat dp) ds ++ [46] ++ drop (Z.to_nat dp) ds
  else ds ++ replicate (Z.to_nat dp - length ds) 48.

(** [%e], with the leading zero of the exponent removed. *)
Definition scientific (ds : list Z) (dp : Z) : list Z :=
  take 1 ds ++ (match drop 1 ds with [] => [] | rest => 46 :: rest end) ++
  [101; if dp - 1 <? 0 then 45 else 43] ++ digits_of (Z.abs (dp - 1)).

(** The choice of [floatEncoder] between the two formats. *)
Definition wants_exponent (abs : float64.t) : bool :=
  negb (float64.leb (float64.literal 1 1000000) abs) || float64.leb (float64.of_Z (10 ^ 21)) abs.

(** [floatEncoder]; [None] is the error for NaN and infinities. *)
Definition appendFloat (f : float64.t) : option (list Z) :=
  match f with
  | SpecFloat.S754_zero s => Some ((if s then [45] else []) ++ [48])
  | SpecFloat.S754_finite s m e =>
      '(c, x) ← shortest (Z.pos m) e;
      let ds := digits_of c in
      let dp := Z.of_nat (length ds) + x in
      Some ((if s then [45] else []) ++
            if wants_exponent (SpecFloat.S754_finite false m e) then scientific ds dp else fixed ds dp)
  | _ => None
  end.

Definition finite (f : float64.t) : bool :=
  match f with
  | SpecFloat.S754_zero _ => true
  | SpecFloat.S754_finite _ _ _ => SpecFloat.valid_binary 53 1024 f
  | _ => false
  end.

(** ** Rounding is exact near a [float64] *)

Lemma rne_div_range n d : 0 < d → 0 ≤ n → n / d ≤ rne_div n d ≤ n / d + 1.
Proof. intros. unfold rne_div. repeat case_match; lia. Qed.

Lemma rne_div_near n d : 0 < d → 2 * Z.abs (rne_div n d * d - n) ≤ d.
Proof.
  intros Hd. pose proof (Z.div_mod n d ltac:(lia)). pose proof (Z.mod_pos_bound n d Hd).
  unfold rne_div. repeat case_match; bool_props; lia.
Qed.

Lemma rne_div_unique n d q : 0 < d → 2 * Z.abs (n - q * d) < d → rne_div n d = q.
Proof.
  intros Hd Hq. pose proof (rne_div_near n d Hd) as Hn.
  assert (Z.abs (rne_div n d - q) * d < 1 * d) as Hlt.
  { replace (Z.abs (rne_div n d - q) * d) with (Z.abs ((rne_div n d - q) * d))
      by (rewrite Z.abs_mul, (Z.abs_eq d); lia). lia. }
  apply Z.mul_lt_mono_pos_r in Hlt; lia.
Qed.

Lemma rne_div_cancel n d c : 0 < d → 0 < c → rne_div (n * c) (d * c) = rne_div n d.
Proof.
  intros Hd Hc. unfold rne_div. rewrite Z.div_mul_cancel_r, Z.mul_mod_distr_r by lia.
  replace (2 * (n mod d * c)) with (2 * (n mod d) * c) by lia.
  assert ((2 * (n mod d) * c <? d * c) = (2 * (n mod d) <? d)) as ->.
  { apply eq_true_iff_eq. rewrite !Z.ltb_lt. symmetry. by apply Z.mul_lt_mono_pos_r. }
  assert ((2 * (n mod d) * c =? d * c) = (2 * (n mod d) =? d)) as ->; [|done].
  apply eq_true_iff_eq. rewrite !Z.eqb_eq. nia.
Qed.

Lemma pow2_le_true k n d : pow2_le k n d = true ↔ d * num 2 k ≤ n * den 2 k.
Proof. unfold pow2_le. apply Z.leb_le. Qed.

Lemma pow2_le_false k n d : pow2_le k n d = false ↔ n * den 2 k < d * num 2 k.
Proof. unfold pow2_le. apply Z.leb_gt. Qed.

Lemma pow2_le_mono k j n d : 0 ≤ j → 0 < n → 0 < d → pow2_le (k + j) n d = true → pow2_le k n d = true.
Proof.
  intros Hj Hn Hd. rewrite !pow2_le_true. intros H.
  pose proof (scale 2 k j ltac:(lia) Hj) as E. pose proof (Z.pow_pos_nonneg 2 j).
  pose proof (den_pos 2 k ltac:(lia)). pose proof (den_pos 2 (k + j) ltac:(lia)). pose proof (num_pos 2 k ltac:(lia)).
  assert (d * num 2 (k + j) * den 2 k ≤ n * den 2 (k + j) * den 2 k) by (apply Z.mul_le_mono_nonneg_r; lia).
  apply (Z.mul_le_mono_pos_r _ _ (den 2 (k + j))); [done|].
  assert (d * num 2 k * den 2 (k + j) ≤ d * (num 2 (k + j) * den 2 k)); [|lia].
  rewrite E. assert (num 2 k * den 2 (k + j) ≤ 2 ^ j * (num 2 k * den 2 (k + j))); nia.
Qed.

Lemma log2_ratio_spec n d :
  0 < n → 0 < d → pow2_le (log2_ratio n d) n d = true ∧ pow2_le (log2_ratio n d + 1) n d = false.
Proof.
  intros Hn Hd. unfold log2_ratio. set (k := Z.log2 n - Z.log2 d).
  pose proof (Z.log2_spec n Hn) as [Hn1 Hn2]. pose proof (Z.log2_spec d Hd) as [Hd1 Hd2].
  pose proof (Z.log2_nonneg n). pose proof (Z.log2_nonneg d).
  assert (pow2_le (k + 1) n d = false) as Hhi.
  { apply pow2_le_false. unfold num, den. destruct (decide (0 ≤ k + 1)).
    - rewrite Z.max_r, Z.max_l, Z.pow_0_r by lia.
      assert (2 ^ Z.log2 d * 2 ^ (k + 1) ≤ d * 2 ^ (k + 1)) by (apply Z.mul_le_mono_nonneg_r; lia).
      rewrite <- Z.pow_add_r in * by lia. replace (Z.log2 d + (k + 1)) with (Z.succ (Z.log2 n)) in * by lia. lia.
    - rewrite Z.max_l, Z.max_r, Z.pow_0_r by lia.
      assert (n * 2 ^ (- (k + 1)) < 2 ^ Z.succ (Z.log2 n) * 2 ^ (- (k + 1))) by (apply Z.mul_lt_mono_pos_r; lia).
      rewrite <- Z.pow_add_r in * by lia. replace (Z.succ (Z.log2 n) + - (k + 1)) with (Z.log2 d) in * by lia. lia. }
  assert (pow2_le (k - 1) n d = true) as Hlo.
  { apply pow2_le_true. unfold num, den. destruct (decide (0 ≤ k - 1)).
    - rewrite Z.max_l, Z.max_r, Z.pow_0_r by lia.
      assert (d * 2 ^ (k - 1) ≤ 2 ^ Z.succ (Z.log2 d) * 2 ^ (k - 1)) by (apply Z.mul_le_mono_nonneg_r; lia).
      rewrite <- Z.pow_add_r in * by lia. replace (Z.succ (Z.log2 d) + (k - 1)) with (Z.log2 n) in * by lia. lia.
    - rewrite Z.max_r, Z.max_l, Z.pow_0_r by lia.
      assert (2 ^ Z.log2 n * 2 ^ (- (k - 1)) ≤ n * 2 ^ (- (k - 1))) by (apply Z.mul_le_mono_nonneg_r; lia).
      rewrite <- Z.pow_add_r in * by lia. replace (Z.log2 n + - (k - 1)) with (Z.succ (Z.log2 d)) in * by lia. lia. }
  destruct (pow2_le k n d) eqn:Hk; [done|]. split; [done|]. by replace (k - 1 + 1) with k by lia.
Qed.

Lemma log2_ratio_unique n d k :
  0 < n → 0 < d → pow2_le k n d = true → pow2_le (k + 1) n d = false → log2_ratio n d = k.
Proof.
  intros Hn Hd H1 H2. destruct (log2_ratio_spec n d Hn Hd) as [H3 H4]. set (l := log2_ratio n d) in *.
  destruct (decide (k < l)).
  { rewrite (pow2_le_mono (k + 1) (l - k - 1)) in H2; [done|lia..|].
    by replace (k + 1 + (l - k - 1)) with l by lia. }
  destruct (decide (l < k)); [|lia].
  rewrite (pow2_le_mono (l + 1) (k - l - 1)) in H4; [done|lia..|].
  by replace (l + 1 + (k - l - 1)) with k by lia.
Qed.

Lemma pow2_le_cancel k n d c : 0 < c → pow2_le k (n * c) (d * c) = pow2_le k n d.
Proof.
  intros Hc. apply eq_true_iff_eq. rewrite !pow2_le_true.
  replace (d * c * num 2 k) with (d * num 2 k * c) by lia.
  replace (n * c * den 2 k) with (n * den 2 k * c) by lia. symmetry. by apply Z.mul_le_mono_pos_r.
Qed.

Lemma log2_ratio_cancel n d c : 0 < n → 0 < d → 0 < c → log2_ratio (n * c) (d * c) = log2_ratio n d.
Proof.
  intros Hn Hd Hc. destruct (log2_ratio_spec n d Hn Hd).
  apply log2_ratio_unique; [lia..| |]; by rewrite pow2_le_cancel.
Qed.

Lemma round_ratio_cancel n d c : 0 < n → 0 < d → 0 < c → round_ratio (n * c) (d * c) = round_ratio n d.
Proof.
  intros Hn Hd Hc. unfold round_ratio. rewrite log2_ratio_cancel by done. set (e := Z.max _ _).
  replace (n * c * den 2 e) with (n * den 2 e * c) by lia.
  replace (d * c * num 2 e) with (d * num 2 e * c) by lia.
  rewrite rne_div_cancel; [done| |done]. pose proof (num_pos 2 e). nia.
Qed.

(** Rounding depends on the quotient only. *)
Lemma round_ratio_ext n d n' d' :
  0 < n → 0 < d → 0 < n' → 0 < d' → n * d' = n' * d → round_ratio n d = round_ratio n' d'.
Proof.
  intros ???? E. rewrite <- (round_ratio_cancel n d d'), <- (round_ratio_cancel n' d' d) by lia.
  by rewrite E, (Z.mul_comm d' d).
Qed.

Lemma round_decimal_shift c x j : 0 < c → 0 ≤ j → round_decimal (c * 10 ^ j) x = round_decimal c (x + j).
Proof.
  intros Hc Hj. unfold round_decimal. pose proof (scale 10 x j ltac:(lia) Hj) as E.
  pose proof (num_pos 10 x). pose proof (num_pos 10 (x + j)). pose proof (den_pos 10 x). pose proof (den_pos 10 (x + j)).
  pose proof (Z.pow_pos_nonneg 10 j).
  apply round_ratio_ext; nia.
Qed.

(** The mantissas and exponents of finite [float64]s. *)
Definition canonical (m e : Z) : Prop :=
  0 < m < 2 ^ 53 ∧ -1074 ≤ e ≤ 971 ∧ (2 ^ 52 ≤ m ∨ e = -1074).

(** [round_ratio] in terms of the exponent it settles on. *)
Lemma round_ratio_at n d e m :
  Z.max (-1074) (log2_ratio n d - 52) = e → rne_div (n * den 2 e) (d * num 2 e) = m → m ≠ 2 ^ 53 → e ≤ 971 →
  round_ratio n d = Some (m, e).
Proof.
  intros He Hq Hm Hmax. unfold round_ratio. rewrite He, Hq.
  destruct (Z.eqb_spec m (2 ^ 53)); [done|]. destruct (Z.ltb_spec 971 e); [lia|done].
Qed.

Lemma pow2_le_scaled k j n d :
  0 ≤ j → 0 < n → 0 < d →
  (pow2_le (k + j) n d = true ↔ 2 ^ j * (d * num 2 k) ≤ n * den 2 k).
Proof.
  intros Hj Hn Hd. rewrite pow2_le_true. pose proof (scale 2 k j ltac:(lia) Hj) as E.
  pose proof (den_pos 2 k ltac:(lia)) as Hdk. pose proof (den_pos 2 (k + j) ltac:(lia)) as Hdj.
  rewrite (Z.mul_le_mono_pos_r _ _ (den 2 k) Hdk), (Z.mul_le_mono_pos_r (2 ^ j * _) _ (den 2 (k + j)) Hdj).
  rewrite <- (Z.mul_assoc d), E.
  replace (2 ^ j * (d * num 2 k) * den 2 (k + j)) with (d * (2 ^ j * (num 2 k * den 2 (k + j)))) by lia.
  by replace (n * den 2 k * den 2 (k + j)) with (n * den 2 (k + j) * den 2 k) by lia.
Qed.

(** Just below a power of two the finer exponent rounds up to it. *)
Lemma rne_half_step n d e :
  0 < d → 0 ≤ n →
  4 * Z.abs (n * den 2 e - 2 ^ 52 * (d * num 2 e)) < d * num 2 e →
  rne_div (n * den 2 (e - 1)) (d * num 2 (e - 1)) = 2 ^ 53.
Proof.
  intros Hd Hn. pose proof (scale 2 (e - 1) 1 ltac:(lia) ltac:(lia)) as E. replace (e - 1 + 1) with e in E by lia.
  pose proof (num_pos 2 (e - 1) ltac:(lia)). pose proof (den_pos 2 (e - 1) ltac:(lia)).
  pose proof (num_pos 2 e ltac:(lia)). pose proof (den_pos 2 e ltac:(lia)).
  set (A := n * den 2 e). set (B := d * num 2 e). set (A' := n * den 2 (e - 1)). set (B' := d * num 2 (e - 1)).
  intros Hnear. assert (0 < B') by (unfold B'; nia). assert (0 < B) by (unfold B; nia).
  assert (A' * B = 2 * (A * B')) as Hcross.
  { unfold A', A, B, B'. replace (n * den 2 (e - 1) * (d * num 2 e)) with (n * d * (num 2 e * den 2 (e - 1))) by lia.
    rewrite E. lia. }
  apply rne_div_unique; [done|].
  assert (2 * Z.abs (A' - 2 ^ 53 * B') * B < B' * B) as Hc; [|by apply Z.mul_lt_mono_pos_r in Hc].
  rewrite <- Z.mul_assoc. replace (Z.abs (A' - 2 ^ 53 * B') * B) with (Z.abs ((A' - 2 ^ 53 * B') * B))
    by (rewrite Z.abs_mul, (Z.abs_eq B); lia).
  replace ((A' - 2 ^ 53 * B') * B) with (2 * B' * (A - 2 ^ 52 * B)) by lia.
  rewrite Z.abs_mul, (Z.abs_eq (2 * B')) by lia. nia.
Qed.

(** A quotient closer to [m * 2 ^ e] than to the midpoints around it rounds to
    it; below a power of two the midpoint is half as far. *)
Lemma round_ratio_near n d m e :
  0 < n → 0 < d → canonical m e →
  2 * Z.abs (n * den 2 e - m * (d * num 2 e)) < d * num 2 e →
  (m = 2 ^ 52 → 4 * (m * (d * num 2 e) - n * den 2 e) < d * num 2 e) →
  round_ratio n d = Some (m, e).
Proof.
  intros Hn Hd (Hm & He & Hcan) Hnear Hbelow.
  set (A := n * den 2 e) in *. set (B := d * num 2 e) in *.
  pose proof (num_pos 2 e ltac:(lia)). assert (0 < B) by (unfold B; nia).
  destruct (decide (2 ^ 52 * B ≤ A)) as [Hbig|Hsmall].
  { assert (log2_ratio n d = e + 52) as Hl.
    { apply log2_ratio_unique; [done..| |].
      - by apply (pow2_le_scaled e 52).
      - apply not_true_iff_false. rewrite <- Z.add_assoc, (pow2_le_scaled e (52 + 1)) by lia. fold A B.
        assert (m * B ≤ (2 ^ 53 - 1) * B) by (apply Z.mul_le_mono_nonneg_r; lia). lia. }
    apply round_ratio_at; [rewrite Hl; lia|by apply rne_div_unique|lia|lia]. }
  assert (pow2_le (e + 52) n d = false) as Hlt.
  { apply not_true_iff_false. rewrite (pow2_le_scaled e 52) by lia. fold A B. lia. }
  destruct (log2_ratio_spec n d Hn Hd) as [Hlo Hhi].
  assert (log2_ratio n d < e + 52) as Hl.
  { destruct (decide (log2_ratio n d < e + 52)); [done|]. exfalso.
    rewrite (pow2_le_mono (e + 52) (log2_ratio n d - (e + 52))) in Hlt; [done|lia..|].
    by replace (e + 52 + (log2_ratio n d - (e + 52))) with (log2_ratio n d) by lia. }
  destruct (decide (e = -1074)) as [->|Hne].
  { apply round_ratio_at; [lia|by apply rne_div_unique|lia|lia]. }
  assert (m = 2 ^ 52) as ->.
  { destruct (decide (m = 2 ^ 52)); [done|]. assert ((2 ^ 52 + 1) * B ≤ m * B) by (apply Z.mul_le_mono_nonneg_r; lia). lia. }
  specialize (Hbelow eq_refl).
  assert (log2_ratio n d = e + 51) as Hl'.
  { apply log2_ratio_unique; [done..| |by replace (e + 51 + 1) with (e + 52) by lia].
    apply (pow2_le_scaled e 51); [lia..|]. fold A B. lia. }
  unfold round_ratio. rewrite Hl'. replace (Z.max (-1074) (e + 51 - 52)) with (e - 1) by lia.
  rewrite (rne_half_step n d e) by (fold A B; lia). replace (2 ^ 53 =? 2 ^ 53) with true by done.
  replace (e - 1 + 1) with e by lia. destruct (Z.ltb_spec 971 e); [lia|done].
Qed.
(** ** Seventeen digits are enough *)

Lemma pow_le_pow a b p q i j :
  1 < a → 1 < b → 0 < p → 0 ≤ q → 0 ≤ i → 0 ≤ j → a ^ p ≤ b ^ q → q * i ≤ p * j → a ^ i ≤ b ^ j.
Proof.
  intros Ha Hb Hp Hq Hi Hj Hab Hij. destruct (decide (a ^ i ≤ b ^ j)) as [|Hn]; [done|].
  assert ((b ^ j) ^ p < (a ^ i) ^ p) as Hlt by (apply Z.pow_lt_mono_l; [lia|]; pose proof (Z.pow_nonneg b j); lia).
  assert ((a ^ p) ^ i ≤ (b ^ q) ^ i) as Hle by (apply Z.pow_le_mono_l; pose proof (Z.pow_nonneg a p); lia).
  rewrite <- !Z.pow_mul_r in * by lia.
  assert (b ^ (q * i) ≤ b ^ (j * p)) by (apply Z.pow_le_mono_r; lia).
  rewrite (Z.mul_comm i p) in Hlt. lia.
Qed.

Lemma two_le_ten i j : 0 ≤ i → 0 ≤ j → 28 * i ≤ 93 * j → 2 ^ i ≤ 10 ^ j.
Proof.
  intros. apply (pow_le_pow 2 10 93 28); [done..| |lia]. apply Z.leb_le. vm_compute. reflexivity.
Qed.

Lemma ten_le_two i j : 0 ≤ i → 0 ≤ j → 1000 * i ≤ 301 * j → 10 ^ i ≤ 2 ^ j.
Proof.
  intros. apply (pow_le_pow 10 2 301 1000); [done..| |lia]. apply Z.leb_le. vm_compute. reflexivity.
Qed.

Lemma log10_guess l k :
  -1074 ≤ l ≤ 1023 → k = l * 301 / 1000 - 1 →
  num 10 k * den 2 l ≤ num 2 l * den 10 k ∧
  num 2 (l + 1) * den 10 (k + 3) ≤ num 10 (k + 3) * den 2 (l + 1).
Proof.
  intros Hl Hk. assert (1000 * (k + 1) ≤ l * 301 < 1000 * (k + 2)) as Hk' by (Z.div_mod_to_equations; lia).
  split; unfold num, den.
  - destruct (decide (0 ≤ l)).
    + rewrite (Z.max_r (- l)), (Z.max_l l), Z.mul_1_r by lia. destruct (decide (0 ≤ k)).
      * rewrite (Z.max_l k), (Z.max_r (- k)), Z.mul_1_r by lia. apply ten_le_two; lia.
      * rewrite (Z.max_r k), (Z.max_l (- k)) by lia. pose proof (Z.pow_pos_nonneg 2 l). pose proof (Z.pow_pos_nonneg 10 (- k)). nia.
    + rewrite (Z.max_l (- l)), (Z.max_r l), (Z.max_r k), (Z.max_l (- k)), !Z.mul_1_l by lia.
      apply two_le_ten; lia.
  - destruct (decide (0 ≤ l + 1)).
    + rewrite (Z.max_r (- (l + 1))), (Z.max_l (l + 1)), (Z.max_l (k + 3)), (Z.max_r (- (k + 3))), !Z.mul_1_r by lia.
      apply two_le_ten; lia.
    + rewrite (Z.max_l (- (l + 1))), (Z.max_r (l + 1)), Z.mul_1_l by lia. destruct (decide (0 ≤ k + 3)).
      * rewrite (Z.max_l (k + 3)), (Z.max_r (- (k + 3))) by lia.
        pose proof (Z.pow_pos_nonneg 2 (- (l + 1))). pose proof (Z.pow_pos_nonneg 10 (k + 3)). nia.
      * rewrite (Z.max_r (k + 3)), (Z.max_l (- (k + 3))), Z.mul_1_l by lia. apply ten_le_two; lia.
Qed.

Lemma quot_den_pos e x : 0 < quot_den e x.
Proof. unfold quot_den. pose proof (den_pos 2 e). pose proof (num_pos 10 x). nia. Qed.

Lemma pow10_le_scaled k j m e :
  0 ≤ j → 0 < m → pow10_le (k + j) m e = true ↔ 10 ^ j * quot_den e k ≤ quot_num m e k.
Proof.
  intros Hj Hm. unfold pow10_le, quot_den, quot_num. rewrite Z.leb_le.
  pose proof (scale 10 k j ltac:(lia) Hj) as E.
  pose proof (den_pos 10 k ltac:(lia)) as Hdk. pose proof (den_pos 10 (k + j) ltac:(lia)) as Hdj.
  rewrite (Z.mul_le_mono_pos_r _ _ (den 10 k) Hdk), (Z.mul_le_mono_pos_r (10 ^ j * _) _ (den 10 (k + j)) Hdj).
  rewrite <- (Z.mul_assoc (den 2 e)), E.
  replace (10 ^ j * (den 2 e * num 10 k) * den 10 (k + j)) with (den 2 e * (10 ^ j * (num 10 k * den 10 (k + j)))) by lia.
  by replace (m * num 2 e * den 10 k * den 10 (k + j)) with (m * num 2 e * den 10 (k + j) * den 10 k) by lia.
Qed.

Lemma canonical_log2 m e : canonical m e → -1074 ≤ Z.log2 m + e ≤ 1023.
Proof.
  intros (Hm & He & _). pose proof (Z.log2_nonneg m).
  assert (Z.log2 m < 53) by (apply Z.log2_lt_pow2; lia). lia.
Qed.

(** From a bound on [2 ^ (log2 m + e)] to one on [m * 2 ^ e]. *)
Lemma pow10_le_low k m e :
  0 < m → num 10 k * den 2 (e + Z.log2 m) ≤ num 2 (e + Z.log2 m) * den 10 k → pow10_le k m e = true.
Proof.
  intros Hm H. pose proof (Z.log2_spec m Hm) as [Hlo _]. set (j := Z.log2 m) in *.
  pose proof (scale 2 e j ltac:(lia) (Z.log2_nonneg m)) as E.
  pose proof (num_pos 2 e ltac:(lia)). pose proof (den_pos 2 e ltac:(lia)).
  pose proof (den_pos 2 (e + j) ltac:(lia)) as Hdl. pose proof (den_pos 10 k ltac:(lia)).
  unfold pow10_le, quot_den, quot_num. apply Z.leb_le.
  assert (den 2 e * num 10 k * den 2 (e + j) ≤ 2 ^ j * num 2 e * den 10 k * den 2 (e + j)) as Hc.
  { assert (num 10 k * den 2 (e + j) * den 2 e ≤ num 2 (e + j) * den 10 k * den 2 e) by (apply Z.mul_le_mono_nonneg_r; lia).
    replace (num 2 (e + j) * den 10 k * den 2 e) with (num 2 (e + j) * den 2 e * den 10 k) in * by lia.
    rewrite E in *. lia. }
  apply Z.mul_le_mono_pos_r in Hc; [|done]. assert (0 < num 2 e * den 10 k) by nia. nia.
Qed.

Lemma pow10_le_high k m e :
  0 < m → num 2 (e + (Z.log2 m + 1)) * den 10 k ≤ num 10 k * den 2 (e + (Z.log2 m + 1)) → pow10_le k m e = false.
Proof.
  intros Hm H. pose proof (Z.log2_spec m Hm) as [_ Hhi]. rewrite <- Z.add_1_r in Hhi. set (j := Z.log2 m + 1) in *.
  assert (0 ≤ j) by (pose proof (Z.log2_nonneg m); lia).
  pose proof (scale 2 e j ltac:(lia) ltac:(lia)) as E.
  pose proof (num_pos 2 e ltac:(lia)). pose proof (den_pos 2 e ltac:(lia)).
  pose proof (den_pos 2 (e + j) ltac:(lia)) as Hdl. pose proof (den_pos 10 k ltac:(lia)).
  unfold pow10_le, quot_den, quot_num. apply Z.leb_gt.
  assert (2 ^ j * num 2 e * den 10 k * den 2 (e + j) ≤ den 2 e * num 10 k * den 2 (e + j)) as Hc.
  { assert (num 2 (e + j) * den 10 k * den 2 e ≤ num 10 k * den 2 (e + j) * den 2 e) by (apply Z.mul_le_mono_nonneg_r; lia).
    replace (num 2 (e + j) * den 10 k * den 2 e) with (num 2 (e + j) * den 2 e * den 10 k) in * by lia.
    rewrite E in *. lia. }
  apply Z.mul_le_mono_pos_r in Hc; [|done]. assert (0 < num 2 e * den 10 k) by nia. nia.
Qed.

Lemma log10_floor_spec m e :
  canonical m e →
  pow10_le (log10_floor m e) m e = true ∧ pow10_le (log10_floor m e + 1) m e = false ∧ -325 ≤ log10_floor m e ≤ 308.
Proof.
  intros Hc. pose proof (canonical_log2 m e Hc) as Hl. destruct Hc as (Hm & _).
  unfold log10_floor. set (k := (Z.log2 m + e) * 301 / 1000 - 1).
  destruct (log10_guess (Z.log2 m + e) k Hl eq_refl) as [Hlo Hhi].
  rewrite (Z.add_comm (Z.log2 m) e) in Hlo, Hhi. rewrite <- Z.add_assoc in Hhi.
  apply pow10_le_low in Hlo; [|lia]. apply pow10_le_high in Hhi; [|lia].
  assert (-325 ≤ k ≤ 306) by (unfold k; Z.div_mod_to_equations; lia).
  destruct (pow10_le (k + 2) m e) eqn:H2; [replace (k + 2 + 1) with (k + 3) by lia; split_and!; done || lia|].
  destruct (pow10_le (k + 1) m e) eqn:H1; [replace (k + 1 + 1) with (k + 2) by lia; split_and!; done || lia|].
  split_and!; done || lia.
Qed.

(** The candidates with [n] digits have [n] digits. *)
Lemma quot_bounds m e n :
  canonical m e → 1 ≤ n →
  let x := log10_floor m e - (n - 1) in
  10 ^ (n - 1) * quot_den e x ≤ quot_num m e x < 10 ^ n * quot_den e x.
Proof.
  intros Hc Hn. destruct (log10_floor_spec m e Hc) as (Hlo & Hhi & _). destruct Hc as (Hm & _).
  set (k := log10_floor m e) in *. cbv zeta. set (x := k - (n - 1)).
  replace k with (x + (n - 1)) in Hlo by lia. replace (k + 1) with (x + n) in Hhi by lia.
  apply pow10_le_scaled in Hlo; [|lia..]. apply not_true_iff_false in Hhi.
  rewrite (pow10_le_scaled x n) in Hhi by lia. lia.
Qed.

Lemma reads_back_true m e c x : reads_back m e c x = true ↔ round_decimal c x = Some (m, e).
Proof.
  unfold reads_back. destruct (round_decimal c x) as [[m' e']|]; [|done].
  rewrite andb_true_iff, !Z.eqb_eq. split; [by intros [-> ->]|by intros [= -> ->]].
Qed.

Lemma fit_range n c x c1 x1 :
  1 ≤ n → 10 ^ (n - 1) ≤ c ≤ 10 ^ n → fit n c x = (c1, x1) →
  10 ^ (n - 1) ≤ c1 < 10 ^ n ∧ x ≤ x1 ≤ x + 1 ∧ round_decimal c1 x1 = round_decimal c x.
Proof.
  intros Hn Hc. pose proof (Z.pow_pos_nonneg 10 (n - 1)).
  assert (10 ^ n = 10 ^ (n - 1) * 10 ^ 1) as Hpow by (rewrite <- Z.pow_add_r by lia; f_equal; lia).
  unfold fit. destruct (Z.eqb_spec c (10 ^ n)) as [->|]; intros [= <- <-].
  - rewrite Hpow, round_decimal_shift by lia. split_and!; done || lia.
  - split_and!; done || lia.
Qed.

Lemma with_digits_spec m e n c x :
  canonical m e → 1 ≤ n → with_digits m e (log10_floor m e) n = Some (c, x) →
  round_decimal c x = Some (m, e) ∧ 10 ^ (n - 1) ≤ c < 10 ^ n ∧
  log10_floor m e - (n - 1) ≤ x ≤ log10_floor m e - (n - 1) + 1.
Proof.
  intros Hc Hn. pose proof (quot_bounds m e n Hc Hn) as [Hlo Hhi]. unfold with_digits. cbv zeta in *.
  set (x0 := log10_floor m e - (n - 1)) in *. set (top := quot_num m e x0) in *. set (bot := quot_den e x0) in *.
  assert (0 < bot) by apply quot_den_pos. set (near := rne_div top bot).
  assert (10 ^ (n - 1) ≤ top / bot < 10 ^ n) as Hq.
  { split; [apply Z.div_le_lower_bound|apply Z.div_lt_upper_bound]; lia. }
  pose proof (Z.pow_pos_nonneg 10 (n - 1)). pose proof (Z.div_mod top bot). pose proof (Z.mod_pos_bound top bot).
  assert (top / bot ≤ near ≤ top / bot + 1) as Hnear by (apply rne_div_range; nia).
  destruct (fit n near x0) as [c1 x1] eqn:Hf1. apply fit_range in Hf1 as (? & ? & _); [|lia..].
  destruct (reads_back m e c1 x1) eqn:R1; [intros [= <- <-]; apply reads_back_true in R1; done|].
  assert (10 ^ (n - 1) ≤ (if top <? near * bot then near - 1 else near + 1) ≤ 10 ^ n) as Hother.
  { destruct (Z.ltb_spec top (near * bot)); [|nia].
    assert (near ≠ top / bot) by (intros E; rewrite E in *; nia). lia. }
  destruct (fit n _ x0) as [c2 x2] eqn:Hf2. apply fit_range in Hf2 as (? & ? & _); [|done..].
  destruct (reads_back m e c2 x2) eqn:R2; [intros [= <- <-]; apply reads_back_true in R2; done|done].
Qed.

(** The nearest decimal of seventeen digits reads back. *)
Lemma with_digits_17 m e : canonical m e → is_Some (with_digits m e (log10_floor m e) 17).
Proof.
  intros Hc. pose proof (quot_bounds m e 17 Hc ltac:(lia)) as [Hlo Hhi]. unfold with_digits. cbv zeta in *.
  set (x0 := log10_floor m e - (17 - 1)) in *. set (top := quot_num m e x0) in *. set (bot := quot_den e x0) in *.
  assert (0 < bot) as Hbot by apply quot_den_pos. set (near := rne_div top bot).
  change (10 ^ (17 - 1)) with (10 ^ 16) in *.
  assert (10 ^ 16 ≤ top / bot < 10 ^ 17) as Hq.
  { split; [apply Z.div_le_lower_bound|apply Z.div_lt_upper_bound]; lia. }
  assert (top / bot ≤ near ≤ top / bot + 1) as Hr by (apply rne_div_range; lia).
  destruct (fit 17 near x0) as [c1 x1] eqn:Hfit. apply fit_range in Hfit as (_ & _ & Hrd); [|lia..].
  assert (reads_back m e c1 x1 = true) as ->; [|by eexists]. apply reads_back_true. rewrite Hrd.
  pose proof (rne_div_near top bot Hbot) as Hnear. fold near in Hnear. destruct (Hc) as (Hm & _).
  assert (bot = num 10 x0 * den 2 e) as Eb by (unfold bot, quot_den; lia).
  assert (top = m * (den 10 x0 * num 2 e)) as Et by (unfold top, quot_num; lia).
  pose proof (num_pos 10 x0 ltac:(lia)). pose proof (den_pos 10 x0 ltac:(lia)). pose proof (num_pos 2 e ltac:(lia)).
  set (U := den 10 x0 * num 2 e) in *. assert (0 < U) by (unfold U; nia).
  assert (near * num 10 x0 * den 2 e = near * bot) as E1 by (rewrite Eb; lia).
  unfold round_decimal. apply round_ratio_near; [nia|done|done| |]; rewrite E1; fold U.
  - assert (m * U ≤ (2 ^ 53 - 1) * U) by (apply Z.mul_le_mono_nonneg_r; lia). lia.
  - intros ->. lia.
Qed.

Lemma first_fit_spec fuel m e n c x :
  canonical m e → 1 ≤ n → first_fit fuel m e (log10_floor m e) n = Some (c, x) →
  ∃ n', n ≤ n' < n + Z.of_nat fuel ∧ with_digits m e (log10_floor m e) n' = Some (c, x).
Proof.
  intros Hc. revert n. induction fuel as [|fuel IH]; intros n Hn; [done|]. cbn [first_fit].
  destruct (with_digits m e (log10_floor m e) n) as [r|] eqn:H.
  - intros [= ->]. exists n. split; [lia|done].
  - intros (n' & ? & ?)%IH; [|lia]. exists n'. split; [lia|done].
Qed.

Lemma first_fit_found fuel m e k n n' :
  n ≤ n' < n + Z.of_nat fuel → is_Some (with_digits m e k n') → is_Some (first_fit fuel m e k n).
Proof.
  revert n. induction fuel as [|fuel IH]; intros n Hn Hs; [lia|]. cbn [first_fit].
  destruct (with_digits m e k n) as [r|] eqn:H; [by eexists|].
  apply IH; [|done]. destruct (decide (n = n')) as [->|]; [rewrite H in Hs; by destruct Hs|lia].
Qed.

(** Every [float64] has a shortest decimal; it has one to seventeen digits. *)
Lemma shortest_spec m e :
  canonical m e →
  ∃ c x n, shortest m e = Some (c, x) ∧ round_decimal c x = Some (m, e) ∧ 1 ≤ n ≤ 17 ∧
    10 ^ (n - 1) ≤ c < 10 ^ n ∧ -324 ≤ n + x ≤ 310.
Proof.
  intros Hc. destruct (first_fit_found 17 m e (log10_floor m e) 1 17) as [[c x] Hs];
    [lia|by apply with_digits_17|].
  destruct (first_fit_spec 17 m e 1 c x Hc ltac:(lia) Hs) as (n & Hn & Hd).
  destruct (with_digits_spec m e n c x Hc ltac:(lia) Hd) as (Hr & Hcn & Hx).
  destruct (log10_floor_spec m e Hc) as (_ & _ & Hk).
  exists c, x, n. split_and!; done || lia.
Qed.

(** ** The text reads back *)

Abbreviation all_digits := (Forall (λ c, is_digit c = true)).

Lemma is_digit_spec c : is_digit c = true ↔ 48 ≤ c ≤ 57.
Proof. unfold is_digit, between. rewrite andb_true_iff. lia. Qed.

Lemma digits_val_snoc l c : digits_val (l ++ [c]) = 10 * digits_val l + (c - 48).
Proof. unfold digits_val. by rewrite foldl_app. Qed.

Lemma digits_val_cons c l : digits_val (c :: l) = (c - 48) * 10 ^ Z.of_nat (length l) + digits_val l.
Proof.
  induction l as [|d l IH] using rev_ind; [unfold digits_val; simpl; lia|].
  rewrite app_comm_cons, !digits_val_snoc, IH, length_app. simpl length.
  rewrite Nat.add_1_r, Nat2Z.inj_succ, Z.pow_succ_r by lia. lia.
Qed.

Lemma digits_val_zeros l j : digits_val (l ++ replicate j 48) = digits_val l * 10 ^ Z.of_nat j.
Proof.
  induction j as [|j IH]; [rewrite app_nil_r; lia|].
  rewrite replicate_S_end, app_assoc, digits_val_snoc, IH, Nat2Z.inj_succ, Z.pow_succ_r by lia. lia.
Qed.

Lemma digits_val_nonneg l : all_digits l → 0 ≤ digits_val l.
Proof.
  induction l as [|c l IH] using rev_ind; [done|].
  rewrite Forall_app, Forall_singleton, is_digit_spec, digits_val_snoc. intros [Hl Hc]. specialize (IH Hl). lia.
Qed.

Lemma exponent_val_small l : all_digits l → digits_val l < 100000 → exponent_val l = digits_val l.
Proof.
  induction l as [|c l IH] using rev_ind; [done|].
  rewrite Forall_app, Forall_singleton, is_digit_spec, digits_val_snoc. intros [Hl Hc] Hlt.
  pose proof (digits_val_nonneg l Hl). unfold exponent_val in *. rewrite foldl_app, IH by (done || lia). simpl.
  destruct (Z.ltb_spec (digits_val l) 10000); lia.
Qed.

Lemma digits_acc_spec fuel c acc :
  (0 < fuel)%nat → 0 ≤ c < 10 ^ Z.of_nat fuel →
  ∃ d ds, digits_acc fuel c acc = (d :: ds) ++ acc ∧ all_digits (d :: ds) ∧ digits_val (d :: ds) = c ∧
    (0 < c → d ≠ 48 ∧ 10 ^ Z.of_nat (length ds) ≤ c < 10 ^ Z.of_nat (S (length ds))).
Proof.
  revert c acc. induction fuel as [|fuel IH]; intros c acc Hf Hc; [lia|]. cbn [digits_acc].
  destruct (Z.ltb_spec c 10) as [Hlt|Hge].
  - exists (48 + c mod 10), []. rewrite Z.mod_small by lia. split_and!; [done| | |].
    + constructor; [apply is_digit_spec; lia|constructor].
    + unfold digits_val. simpl. lia.
    + simpl length. change (10 ^ Z.of_nat 0) with 1. change (10 ^ Z.of_nat 1) with 10. lia.
  - rewrite Nat2Z.inj_succ, Z.pow_succ_r in Hc by lia.
    destruct (IH (c / 10) ((48 + c mod 10) :: acc)) as (d & ds & Heq & Hd & Hv & Hpos).
    { destruct fuel; [simpl in Hc; lia|lia]. }
    { split; [apply Z.div_pos; lia|apply Z.div_lt_upper_bound; lia]. }
    pose proof (Z.div_mod c 10 ltac:(lia)). pose proof (Z.mod_pos_bound c 10 ltac:(lia)).
    exists d, (ds ++ [48 + c mod 10]). rewrite Heq. split_and!.
    + cbn [app]. by rewrite <- app_assoc.
    + rewrite app_comm_cons. apply Forall_app. split; [done|]. constructor; [apply is_digit_spec; lia|constructor].
    + rewrite app_comm_cons, digits_val_snoc, Hv. lia.
    + intros _. rewrite length_app. simpl length. replace (length ds + 1)%nat with (S (length ds)) by lia.
      destruct Hpos as (? & ? & ?); [lia|]. split; [done|].
      rewrite (Nat2Z.inj_succ (S (length ds))), (Nat2Z.inj_succ (length ds)), !Z.pow_succ_r in * by lia. lia.
Qed.

(** Digits of a number with [n] digits. *)
Lemma digits_of_spec n c :
  1 ≤ n ≤ 20 → 10 ^ (n - 1) ≤ c < 10 ^ n →
  ∃ d ds, digits_of c = d :: ds ∧ all_digits (d :: ds) ∧ digits_val (d :: ds) = c ∧ d ≠ 48 ∧
    Z.of_nat (length (d :: ds)) = n.
Proof.
  intros Hn Hc. pose proof (Z.pow_pos_nonneg 10 (n - 1)). unfold digits_of.
  destruct (digits_acc_spec 20 c []) as (d & ds & Heq & Hd & Hv & Hpos); [lia| |].
  { pose proof (Z.pow_le_mono_r 10 n (Z.of_nat 20)). lia. }
  destruct Hpos as (? & ? & ?); [lia|]. exists d, ds. rewrite app_nil_r in Heq. split_and!; try done.
  cbn [length]. set (k := Z.of_nat (length ds)) in *. rewrite Nat2Z.inj_succ in *. fold k in H2 |- *.
  assert (n - 1 < Z.succ k) by (apply (Z.pow_lt_mono_r_iff 10); lia).
  assert (k < n) by (apply (Z.pow_lt_mono_r_iff 10); lia). lia.
Qed.

Lemma digits_of_small c :
  0 ≤ c < 100000 → ∃ d ds, digits_of c = d :: ds ∧ all_digits (d :: ds) ∧ exponent_val (d :: ds) = c.
Proof.
  intros Hc. unfold digits_of. destruct (digits_acc_spec 20 c []) as (d & ds & Heq & Hd & Hv & _); [lia|lia|].
  rewrite app_nil_r in Heq. exists d, ds. split_and!; [done..|]. rewrite exponent_val_small; [done|done|lia].
Qed.

(** What may follow a number. *)
Definition ends_number (l : list Z) : bool :=
  match l with c :: _ => negb (is_digit c || (c =? 46) || (c =? 101) || (c =? 69)) | [] => true end.

Definition no_digit (l : list Z) : Prop := match l with c :: _ => is_digit c = false | [] => True end.

Lemma span_digits_app ds rest : all_digits ds → no_digit rest → span_digits (ds ++ rest) = (ds, rest).
Proof.
  intros Hds Hr. induction Hds as [|d ds Hd _ IH]; cbn [app span_digits].
  - destruct rest as [|c rest]; [done|]. simpl in *. by rewrite Hr.
  - by rewrite Hd, IH.
Qed.

Lemma ends_number_spec rest :
  ends_number rest = true → no_digit rest ∧ scan_frac rest = Some ([], rest) ∧ scan_exp rest = Some (0, rest).
Proof.
  destruct rest as [|c rest]; [done|]. simpl. rewrite negb_true_iff, !orb_false_iff. intros (((? & ->) & ->) & ->). done.
Qed.

Lemma scan_int_digits d ds rest :
  all_digits (d :: ds) → d ≠ 48 → no_digit rest → scan_int ((d :: ds) ++ rest) = Some (d :: ds, rest).
Proof.
  intros Hds Hd Hr. rewrite <- (span_digits_app (d :: ds)) by done. unfold scan_int. cbn [app].
  destruct (Z.eqb_spec d 48); [done|]. apply Forall_cons in Hds as [-> _]. done.
Qed.

Lemma scan_frac_digits d ds rest :
  all_digits (d :: ds) → no_digit rest → scan_frac (46 :: (d :: ds) ++ rest) = Some (d :: ds, rest).
Proof. intros Hds Hr. unfold scan_frac. simpl (46 =? 46). by rewrite span_digits_app. Qed.

Lemma scan_exp_digits dp rest :
  -10000 ≤ dp ≤ 10000 → ends_number rest = true →
  scan_exp ([101; if dp <? 0 then 45 else 43] ++ digits_of (Z.abs dp) ++ rest) = Some (dp, rest).
Proof.
  intros Hdp (Hr & _)%ends_number_spec. destruct (digits_of_small (Z.abs dp)) as (d & ds & -> & Hds & Hv); [lia|].
  unfold scan_exp. cbn [app]. change ((101 =? 101) || (101 =? 69)) with true. cbn iota.
  destruct (Z.ltb_spec dp 0); [change (45 =? 45) with true|change (43 =? 45) with false; change (43 =? 43) with true];
    cbn iota; rewrite app_comm_cons, span_digits_app by done; rewrite Hv; do 2 f_equal; lia.
Qed.

Lemma scan_unsigned_steps neg l ip l1 fp l2 ex l3 :
  scan_int l = Some (ip, l1) → scan_frac l1 = Some (fp, l2) → scan_exp l2 = Some (ex, l3) →
  scan_unsigned neg l = Some (MkNumber neg ip fp ex, l3).
Proof. intros H1 H2 H3. unfold scan_unsigned. rewrite H1. simpl. rewrite H2. simpl. by rewrite H3. Qed.

Lemma strip_zeros_replicate j d ds : d ≠ 48 → strip_zeros (replicate j 48 ++ d :: ds) = d :: ds.
Proof. intros Hd. induction j as [|j IH]; simpl; [by destruct (Z.eqb_spec d 48)|done]. Qed.

Lemma strip_zeros_nonzero d ds : d ≠ 48 → strip_zeros (d :: ds) = d :: ds.
Proof. apply (strip_zeros_replicate 0). Qed.

(** A literal whose digits are [ds] and [j] zeros, and whose point stands [dp]
    digits from the left. *)
Definition stands_for (ds : list Z) (dp : Z) (nb : number) : Prop :=
  ∃ j, strip_zeros (ip nb ++ fp nb) = ds ++ replicate j 48 ∧
    ex nb - Z.of_nat (length (fp nb)) = dp - Z.of_nat (length ds) - Z.of_nat j.

Lemma scan_fixed d ds dp rest neg :
  all_digits (d :: ds) → d ≠ 48 → ends_number rest = true →
  ∃ ip fp, scan_unsigned neg (fixed (d :: ds) dp ++ rest) = Some (MkNumber neg ip fp 0, rest) ∧
    stands_for (d :: ds) dp (MkNumber neg ip fp 0).
Proof.
  intros Hds Hd Hr. destruct (ends_number_spec rest Hr) as (Hnd & Hfr & Hex).
  unfold fixed. destruct (Z.leb_spec dp 0); [|destruct (Z.ltb_spec dp (Z.of_nat (length (d :: ds))))].
  - set (zs := replicate (Z.to_nat (- dp)) 48).
    assert (∃ z zs', zs ++ d :: ds = z :: zs') as (z & zs' & Hz) by (destruct zs; simpl; eauto).
    assert (all_digits (z :: zs')) by (rewrite <- Hz; apply Forall_app; split; [by apply Forall_replicate|done]).
    exists [48], (z :: zs'). split.
    + eapply scan_unsigned_steps; [done| |exact Hex].
      cbn [app]. rewrite Hz. by apply scan_frac_digits.
    + exists 0%nat. cbn [ip fp ex app]. rewrite <- Hz. cbn [strip_zeros replicate]. split.
      * rewrite app_nil_r. by apply strip_zeros_replicate.
      * rewrite length_app. unfold zs. rewrite length_replicate. lia.
  - destruct (Z.to_nat dp) as [|k] eqn:Hk; [lia|]. cbn [take drop].
    assert (k < length ds)%nat as Hlt by (simpl in *; lia).
    destruct (drop k ds) as [|f fs] eqn:Hdr; [apply (f_equal length) in Hdr; rewrite length_drop in Hdr; simpl in *; lia|].
    rewrite <- (take_drop k ds), Hdr in Hds. apply Forall_cons in Hds as [Hd1 Hds]. apply Forall_app in Hds as [Ht Hf].
    exists (d :: take k ds), (f :: fs). split.
    + rewrite <- app_assoc. eapply scan_unsigned_steps; [apply scan_int_digits; [by constructor|done|done]| |exact Hex].
      by apply scan_frac_digits.
    + exists 0%nat. cbn [ip fp ex replicate]. rewrite app_nil_r, <- Hdr. cbn [app]. rewrite take_drop. split.
      * by apply strip_zeros_nonzero.
      * cbn [length]. rewrite length_drop. lia.
  - exists ((d :: ds) ++ replicate (Z.to_nat dp - length (d :: ds)) 48), []. split.
    + eapply scan_unsigned_steps; [|exact Hfr|exact Hex].
      rewrite <- app_comm_cons. apply scan_int_digits; [|done|done].
      rewrite app_comm_cons. apply Forall_app. split; [done|]. by apply Forall_replicate.
    + eexists. cbn [ip fp ex]. rewrite app_nil_r. split; [by apply strip_zeros_nonzero|]. simpl in *. lia.
Qed.

Lemma scan_scientific d ds dp rest neg :
  all_digits (d :: ds) → d ≠ 48 → ends_number rest = true → -9000 ≤ dp ≤ 9000 →
  ∃ ip fp, scan_unsigned neg (scientific (d :: ds) dp ++ rest) = Some (MkNumber neg ip fp (dp - 1), rest) ∧
    stands_for (d :: ds) dp (MkNumber neg ip fp (dp - 1)).
Proof.
  intros Hds Hd Hr Hdp. unfold scientific. cbn [take drop].
  pose proof (scan_exp_digits (dp - 1) rest ltac:(lia) Hr) as He.
  apply Forall_cons in Hds as [Hd1 Hds]. exists [d], ds. split.
  - rewrite <- !app_assoc. eapply scan_unsigned_steps; [| |exact He].
    + apply (scan_int_digits d []); [by repeat constructor|done|]. by destruct ds.
    + destruct ds as [|f fs]; [done|]. by apply scan_frac_digits.
  - exists 0%nat. cbn [ip fp ex replicate length app]. rewrite app_nil_r. split; [by apply strip_zeros_nonzero|lia].
Qed.

Lemma ParseFloat_value nb d ds dp c m e :
  stands_for (d :: ds) dp nb → digits_val (d :: ds) = c → 0 < c → -330 ≤ dp ≤ 310 →
  round_decimal c (dp - Z.of_nat (length (d :: ds))) = Some (m, e) →
  ParseFloat nb = Some (of_parts (neg nb) m e).
Proof.
  intros (j & Hs & Hx) Hv Hc Hdp Hr. unfold ParseFloat. rewrite Hs, Hx. cbn [app].
  rewrite !app_comm_cons, length_app, length_replicate, digits_val_zeros, Hv.
  rewrite round_decimal_shift by lia.
  replace (dp - Z.of_nat (length (d :: ds)) - Z.of_nat j + Z.of_nat j) with (dp - Z.of_nat (length (d :: ds))) by lia.
  rewrite Hr. set (x := _ + (_ - _ - Z.of_nat j)). assert (x = dp) as -> by (unfold x; lia).
  destruct (Z.ltb_spec 310 dp), (Z.ltb_spec dp (-330)); try lia. done.
Qed.

Lemma finite_canonical s m e : finite (SpecFloat.S754_finite s m e) = true → canonical (Z.pos m) e.
Proof.
  unfold finite, SpecFloat.valid_binary, SpecFloat.bounded, SpecFloat.canonical_mantissa, SpecFloat.fexp, SpecFloat.emin.
  rewrite andb_true_iff, Z.leb_le, Z.eqb_eq, float64.digits2_bits. intros [Hc He].
  pose proof (proj1 (float64.bits_spec (Z.pos m) (float64.bits (Z.pos m)) ltac:(lia)) eq_refl) as [Hlo Hhi].
  assert (float64.bits (Z.pos m) ≤ 53) by lia.
  assert (2 ^ float64.bits (Z.pos m) ≤ 2 ^ 53) by (apply Z.pow_le_mono_r; lia).
  split_and!; try lia. destruct (decide (e = -1074)); [by right|left].
  assert (float64.bits (Z.pos m) = 53) as Hb by lia. rewrite Hb in Hlo. lia.
Qed.

(** Either format starts with a digit, is one literal, and stands for the digits. *)
Lemma scan_format (sci : bool) d ds dp rest neg :
  all_digits (d :: ds) → d ≠ 48 → -9000 ≤ dp ≤ 9000 →
  (∃ c l, (if sci then scientific (d :: ds) dp else fixed (d :: ds) dp) = c :: l ∧ is_digit c = true) ∧
  (ends_number rest = true → ∃ nb,
    scan_unsigned neg ((if sci then scientific (d :: ds) dp else fixed (d :: ds) dp) ++ rest) = Some (nb, rest) ∧
    decimal.neg nb = neg ∧ stands_for (d :: ds) dp nb).
Proof.
  intros Hall Hd Hdp. split.
  - apply Forall_cons in Hall as [Hd1 _]. destruct sci; [by eexists _, _|]. unfold fixed.
    destruct (dp <=? 0) eqn:E0; [by eexists _, _|]. destruct (dp <? _); [|by eexists _, _].
    destruct (Z.to_nat dp) eqn:E; [lia|]. by eexists _, _.
  - intros Hr. destruct sci.
    + destruct (scan_scientific d ds dp rest neg Hall Hd Hr Hdp) as (? & ? & ? & ?). eauto.
    + destruct (scan_fixed d ds dp rest neg Hall Hd Hr) as (? & ? & ? & ?). eauto.
Qed.

Lemma scan_number_sign (s : bool) c l :
  is_digit c = true → scan_number ((if s then [45] else []) ++ c :: l) = scan_unsigned s (c :: l).
Proof. intros Hc%is_digit_spec. destruct s; simpl; [done|]. by destruct (Z.eqb_spec c 45); [lia|]. Qed.

(** Every finite number is written, and what is written scans as one number
    literal that reads back as the number. *)
Lemma float_round_trip f :
  finite f = true →
  ∃ c l, appendFloat f = Some (c :: l) ∧ (c = 45 ∨ is_digit c = true) ∧
    ∀ rest, ends_number rest = true →
      ∃ nb, scan_number (c :: l ++ rest) = Some (nb, rest) ∧ ParseFloat nb = Some f.
Proof.
  destruct f as [s| | |s m e]; try done.
  { intros _. assert (∃ c l, (if s then [45] else []) ++ [48] = c :: l ∧ (c = 45 ∨ is_digit c = true))
      as (c & l & Hl & Hc) by (destruct s; eexists _, _; (split; [reflexivity|]); [by left|by right]).
    exists c, l. split; [simpl; by rewrite Hl|]. split; [done|].
    intros rest. rewrite app_comm_cons, <- Hl. intros (Hnd & Hfr & Hex)%ends_number_spec. exists (MkNumber s [48] [] 0). split; [|done].
    rewrite <- app_assoc. cbn [app]. rewrite (scan_number_sign s 48) by done.
    eapply scan_unsigned_steps; [done|exact Hfr|exact Hex]. }
  intros Hf%finite_canonical. destruct (shortest_spec (Z.pos m) e Hf) as (c & x & n & Hs & Hr & Hn & Hc & Hdp).
  destruct (digits_of_spec n c ltac:(lia) Hc) as (d & ds & Hds & Hall & Hv & Hd & Hlen).
  assert (0 < c) by (pose proof (Z.pow_pos_nonneg 10 (n - 1)); lia).
  set (sci := wants_exponent (SpecFloat.S754_finite false m e)).
  pose proof (λ rest, scan_format sci d ds (n + x) rest s Hall Hd ltac:(lia)) as Hfmt.
  destruct (proj1 (Hfmt [])) as (c0 & l0 & Hbody & Hc0).
  assert (appendFloat (SpecFloat.S754_finite s m e) = Some ((if s then [45] else []) ++ c0 :: l0)) as ->.
  { unfold appendFloat. rewrite Hs. cbn [mbind option_bind]. rewrite Hds, Hlen. fold sci. by rewrite Hbody. }
  assert (∃ c1 l1, (if s then [45] else []) ++ c0 :: l0 = c1 :: l1 ∧ (c1 = 45 ∨ is_digit c1 = true))
    as (c1 & l1 & Hl & Hc1) by (destruct s; eexists _, _; (split; [reflexivity|]); [by left|by right]).
  exists c1, l1. rewrite Hl. split; [done|]. split; [done|]. intros rest Hrest.
  rewrite app_comm_cons, <- Hl, <- app_assoc, <- app_comm_cons, scan_number_sign by done.
  destruct (proj2 (Hfmt rest) Hrest) as (nb & Hscan & Hneg & Hst). rewrite Hbody in Hscan.
  exists nb. split; [done|]. rewrite (ParseFloat_value nb d ds (n + x) c (Z.pos m) e Hst Hv); [by rewrite Hneg|done|lia|].
  rewrite Hlen. by replace (n + x - n) with x by lia.
Qed.

Lemma digits_bytes l : all_digits l → Forall utf8.is_byte l.
Proof. intros Hl. eapply Forall_impl; [exact Hl|]. intros c Hc%is_digit_spec. unfold utf8.is_byte. lia. Qed.

Lemma format_bytes (sci : bool) d ds dp :
  all_digits (d :: ds) → -9000 ≤ dp ≤ 9000 →
  Forall utf8.is_byte (if sci then scientific (d :: ds) dp else fixed (d :: ds) dp).
Proof.
  intros Hall%digits_bytes Hdp. destruct sci; [unfold scientific|unfold fixed].
  - destruct (digits_of_small (Z.abs (dp - 1))) as (c & l & -> & Hl%digits_bytes & _); [lia|].
    apply Forall_cons in Hall as [Hd Hds]. cbn [take drop]. repeat (apply Forall_app; split); try done.
    + by apply Forall_singleton.
    + destruct ds; [by apply Forall_nil|]. by apply Forall_cons.
    + repeat (apply Forall_cons; split); [done|by case_match|by apply Forall_nil].
  - repeat case_match; repeat (apply Forall_app; split); try done; try (by apply Forall_replicate);
      try (by apply Forall_take); try (by apply Forall_drop); by repeat (apply Forall_cons; split).
Qed.

Lemma appendFloat_bytes f l : finite f = true → appendFloat f = Some l → Forall utf8.is_byte l.
Proof.
  destruct f as [s| | |s m e]; try done.
  { intros _ [= <-]. destruct s; by repeat (apply Forall_cons; split). }
  intros Hf%finite_canonical. destruct (shortest_spec (Z.pos m) e Hf) as (c & x & n & Hs & _ & Hn & Hc & Hdp).
  destruct (digits_of_spec n c ltac:(lia) Hc) as (d & ds & Hds & Hall & _ & _ & Hlen).
  unfold appendFloat. rewrite Hs. cbn [mbind option_bind]. rewrite Hds, Hlen. intros <-%(inj Some).
  apply Forall_app. split; [destruct s; by repeat (apply Forall_cons; split)|]. apply format_bytes; [done|lia].
Qed.

(** ** What is read is a finite number *)

Lemma round_ratio_canonical n d m e : 0 < n → 0 < d → round_ratio n d = Some (m, e) → m = 0 ∨ canonical m e.
Proof.
  intros Hn Hd. unfold round_ratio. destruct (log2_ratio_spec n d Hn Hd) as [Hlo Hhi].
  set (k := log2_ratio n d) in *. set (e0 := Z.max (-1074) (k - 52)).
  set (A := n * den 2 e0). set (B := d * num 2 e0).
  pose proof (num_pos 2 e0 ltac:(lia)). pose proof (den_pos 2 e0 ltac:(lia)).
  assert (0 < B) by (unfold B; nia). assert (0 < A) by (unfold A; nia).
  assert (A < 2 ^ 53 * B) as Htop.
  { assert (pow2_le (e0 + 53) n d = false) as Hf.
    { apply not_true_iff_false. intros Ht.
      replace (e0 + 53) with (k + 1 + (e0 + 53 - (k + 1))) in Ht by lia.
      apply pow2_le_mono in Ht; [congruence|lia..]. }
    apply not_true_iff_false in Hf. rewrite (pow2_le_scaled e0 53) in Hf by lia. fold A B in Hf. lia. }
  pose proof (rne_div_range A B ltac:(lia) ltac:(lia)) as Hq.
  assert (A / B < 2 ^ 53) by (apply Z.div_lt_upper_bound; lia). pose proof (Z.div_pos A B).
  assert (e0 ≠ -1074 → 2 ^ 52 ≤ A / B) as Hbig.
  { intros He. apply Z.div_le_lower_bound; [lia|]. rewrite (Z.mul_comm B).
    apply (pow2_le_scaled e0 52); [lia..|]. by replace (e0 + 52) with k by lia. }
  set (q := rne_div A B) in *. destruct (Z.eqb_spec q (2 ^ 53)) as [Hq53|Hq53].
  - destruct (Z.ltb_spec 971 (e0 + 1)); [done|]. intros [= <- <-]. right. split_and!; try lia.
  - destruct (Z.ltb_spec 971 e0); [done|]. intros [= <- <-]. destruct (decide (q = 0)); [by left|right].
    split_and!; lia.
Qed.

Lemma canonical_finite s m e : canonical m e → finite (of_parts s m e) = true.
Proof.
  intros (Hm & He & Hc). unfold of_parts. destruct (Z.eqb_spec m 0); [lia|].
  unfold finite, SpecFloat.valid_binary, SpecFloat.bounded, SpecFloat.canonical_mantissa, SpecFloat.fexp, SpecFloat.emin.
  rewrite andb_true_iff, Z.leb_le, Z.eqb_eq, float64.digits2_bits, Z2Pos.id by lia. split; [|lia].
  pose proof (proj1 (float64.bits_spec m (float64.bits m) ltac:(lia)) eq_refl) as [Hlo Hhi].
  assert (float64.bits m - 1 < 53) by (apply (Z.pow_lt_mono_r_iff 2); lia).
  destruct Hc as [Hc| ->]; [|lia].
  assert (52 < float64.bits m); [|lia]. apply (Z.pow_lt_mono_r_iff 2); [lia| |lia].
  destruct (decide (0 ≤ float64.bits m)); [done|]. rewrite (Z.pow_neg_r 2 (float64.bits m)) in Hhi by lia. lia.
Qed.

Lemma span_digits_all l ds rest : span_digits l = (ds, rest) → all_digits ds.
Proof.
  revert ds rest. induction l as [|c l IH]; intros ds rest; simpl; [by intros [= <- <-]|].
  destruct (is_digit c) eqn:Hc; [|by intros [= <- <-]].
  destruct (span_digits l) as [ds' rest']. intros [= <- <-]. constructor; [done|by eapply IH].
Qed.

Definition number_ok (nb : number) : Prop := all_digits (ip nb ++ fp nb).

Lemma scan_number_ok l nb rest : scan_number l = Some (nb, rest) → number_ok nb.
Proof.
  assert (∀ neg l, scan_unsigned neg l = Some (nb, rest) → number_ok nb) as Hu.
  { clear l. intros neg l. unfold scan_unsigned. destruct (scan_int l) as [[i l1]|] eqn:E1; [|done].
    simpl. destruct (scan_frac l1) as [[f l2]|] eqn:E2; [|done]. simpl.
    destruct (scan_exp l2) as [[x l3]|]; [|done]. intros [= <- _]. apply Forall_app. cbn [ip fp]. split.
    - unfold scan_int in E1. destruct l as [|c l']; [done|]. destruct (c =? 48); [injection E1 as <- _; by repeat constructor|].
      destruct (is_digit c); [|done]. apply (inj Some) in E1. by apply span_digits_all in E1.
    - unfold scan_frac in E2. destruct l1 as [|c l']; [by injection E2 as <- _|].
      destruct (c =? 46); [|by injection E2 as <- _].
      destruct (span_digits l') as [[|d ds] r] eqn:E; [done|]. injection E2 as <- _. by eapply span_digits_all. }
  destruct l as [|c l]; [done|]. simpl. destruct (c =? 45); apply Hu.
Qed.

Lemma strip_zeros_all l : all_digits l → all_digits (strip_zeros l).
Proof. intros H. induction H; simpl; [constructor|]. case_match; [done|by constructor]. Qed.

Lemma strip_zeros_pos l d ds : all_digits l → strip_zeros l = d :: ds → 0 < digits_val (d :: ds).
Proof.
  intros Hall Hs. pose proof (strip_zeros_all l Hall) as Hd. rewrite Hs in Hd. apply Forall_cons in Hd as [Hd Hds].
  apply is_digit_spec in Hd.
  assert (d ≠ 48).
  { clear -Hs. induction l as [|c l IH]; simpl in Hs; [done|]. destruct (Z.eqb_spec c 48); [by apply IH|congruence]. }
  clear Hs Hall. induction ds as [|c' ds IH] using rev_ind; [unfold digits_val; simpl; lia|].
  rewrite app_comm_cons, digits_val_snoc. apply Forall_app in Hds as [Hds Hc'].
  apply Forall_singleton, is_digit_spec in Hc'. specialize (IH Hds). lia.
Qed.

Lemma ParseFloat_finite nb f : number_ok nb → ParseFloat nb = Some f → finite f = true.
Proof.
  intros Hok. unfold ParseFloat. destruct (strip_zeros (ip nb ++ fp nb)) as [|d ds] eqn:Hs; [by intros [= <-]|].
  destruct (310 <? _); [done|]. destruct (_ <? -330); [by intros [= <-]|].
  pose proof (strip_zeros_pos _ d ds Hok Hs). unfold round_decimal.
  destruct (round_ratio _ _) as [[m e]|] eqn:Hr; [|done]. intros [= <-].
  apply round_ratio_canonical in Hr as [->|Hc]; [done|by apply canonical_finite| |by apply den_pos].
  pose proof (num_pos 10 (ex nb - Z.of_nat (length (fp nb)))). nia.
Qed.

Lemma number_examples :
  (λ s, match scan_number (utf8.bytes s) with
        | Some (nb, []) => utf8.text <$> (ParseFloat nb ≫= appendFloat) | _ => None end) <$>
    ["1e23"; "1125899906842624.25"; "0.000001"; "1e-7"; "-0"; "123456789012345678"; "01"; "1.8e308"]%string =
  [Some "1e+23"; Some "1125899906842624.2"; Some "0.000001"; Some "1e-7"; Some "-0"; Some "123456789012345680"; None; None]%string.
Proof. vm_compute. reflexivity. Qed.
End decimal.
