(* ===== verification/Store.v ===== *)
(** * [internal/store]: events, rollups and sketches in Postgres

    The tables of [migrations/] are maps keyed by their primary or unique
    keys.  The SQL statements are translated clause by clause; [InsertBatch]
    and [updateUniques] run them inside a transaction, over a connection that
    may fail at any round trip.  A failed [Commit] is ambiguous, as in
    reality: the transaction may or may not have been applied. *)

From S2P Require Import Prelude Float64 Hll Clock Utf8.
From stdpp Require Import prelude gmap strings list sorting.
From Stdlib Require Import ZArith Lia Ascii.
Open Scope Z_scope.

Module store.

(** ** Data *)

(** Go's [any], as [encoding/json] and the gRPC door produce it; the entries of
    an object, a [map[string]any], in the order of their keys. *)
#[warnings="-register-all"]
Inductive any : Type :=
  | ANil
  | ABool (b : bool)
  | AFloat (f : float64.t)
  | AString (s : string)
  | AArray (l : list any)
  | AObject (kvs : list (string * any)).

Record Event : Type := MkEvent {
  EventID : string;
  Name : string;
  DistinctID : string;
  Properties : option (gmap string any);  (* [None] is the nil map *)
  TS : clock.time;
}.

Record NameCount : Type := MkNameCount { nc_Name : string; nc_Count : Z }.

Record MinutePoint : Type := MkMinutePoint { mp_Name : string; mp_Minute : Z; mp_Count : Z }.

(** A row of the batch, as the five array parameters carry it; timestamps
    are microseconds, the resolution of [timestamptz]. *)
Record incoming : Type := MkIncoming {
  in_event_id : string;
  in_name : string;
  in_distinct_id : string;
  in_properties : string;
  in_ts : Z;
}.

(** Table [events], without its key column [event_id]. *)
Record events_row : Type := MkRow {
  row_name : string;
  row_distinct_id : string;
  row_properties : string;
  row_ts : Z;
}.

Record tables : Type := MkTables {
  events : gmap string events_row;
  event_counts_minute : gmap (string * Z) Z;
  event_uniques_day : gmap (string * Z) (list Z);
}.

Definition empty_tables : tables := MkTables ∅ ∅ ∅.

Inductive pg_error : Type := InvalidText | InvalidJson | BigintRange | InvalidDate.

Inductive error : Type :=
  | ErrMarshal
  | ErrConn
  | ErrPg (e : pg_error)
  | ErrNoRows
  | ErrSketch                              (* the error of [hll.FromBytes] *)
  | ErrCorruptSketch (name day : string)   (* the same, wrapped *)
  | ErrPanic.

(** What one round trip to the database meets: nothing, a failure before the
    server acts, or a failure after it did (the reply is lost). *)
Inductive fault : Type := NoFault | FaultBefore | FaultAfter.

(** The store: the database behind the pool, and the faults to come. *)
Record Store : Type := MkStore { db : tables; net : list fault }.

(** What the server and the JSON encoder leave open. *)
Class Postgres : Type := {
  order_by_event_id : list incoming → list incoming;
  order_by_event_id_perm l : order_by_event_id l ≡ₚ l;
  order_by_bucket : list ((string * Z) * Z) → list ((string * Z) * Z);
  order_by_bucket_perm l : order_by_bucket l ≡ₚ l;
  order_by_count_desc : list NameCount → list NameCount;
  order_by_count_desc_perm l : order_by_count_desc l ≡ₚ l;
  order_by_count_desc_sorted l :
    Sorted (λ a b, nc_Count b ≤ nc_Count a) (order_by_count_desc l);
  order_by_minute_name : list MinutePoint → list MinutePoint;
  order_by_minute_name_perm l : order_by_minute_name l ≡ₚ l;
  order_by_minute_name_sorted l :
    Sorted (λ a b, mp_Minute a ≤ mp_Minute b) (order_by_minute_name l);
  jsonb_ok : string → bool;                       (* the [::jsonb] cast succeeds *)
  session_date : Z → Z;                           (* the date of an instant in the session's time zone *)
  session_midnight : Z → Z;                       (* the instant at which a date begins there *)
}.

Class Json : Type := {
  json_Marshal : gmap string any → option string; (* [json.Marshal(e.Properties)] *)
}.

Definition next (fs : list fault) : fault * list fault :=
  match fs with [] => (NoFault, []) | f :: fs => (f, fs) end.

(** ** Connecting *)

(** The loop of [New]: [pings] are the answers of Postgres to come (a missing
    one is a failure); the result is whether it answered and how many times the
    loop slept a second. *)
Fixpoint await_ready (attempts : nat) (pings : list bool) : bool * Z :=
  match attempts with
  | O => (false, 0)
  | S attempts =>
      match pings with
      | true :: _ => (true, 0)
      | _ => let '(ok, slept) := await_ready attempts (tail pings) in (ok, slept + 1)
      end
  end.

(** [parsed]: [pgxpool.New] accepts the connection string. *)
Definition New (parsed : bool) (pings : list bool) (s : Store) : result error Store :=
  if parsed && (await_ready 30 pings).1 then Ok s else Err ErrConn.

(** ** SQL helpers *)

(** Postgres refuses a NUL byte and ill-formed UTF-8 in a [text] value. *)
Definition pg_text (s : string) : bool :=
  forallb (λ c, negb (N_of_ascii c =? 0)%N) (String.list_ascii_of_string s) && utf8.ValidString s.

Definition storable_text (e : Event) : bool :=
  pg_text (EventID e) && pg_text (Name e) && pg_text (DistinctID e).

(** [time.Time] to [timestamptz]. *)
Definition timestamptz (t : clock.time) : Z := t / 1000.

Definition minute_us : Z := 60 * 1000000.
Definition day_us : Z := 86400 * 1000000.

(** [date_trunc('minute', ts)]. *)
Definition trunc_minute (ts : Z) : Z := ts / minute_us * minute_us.

(** How many elements fall in each key: [SELECT k, count( * ) GROUP BY k]. *)
Definition histogram {K} `{Countable K} (l : list K) : gmap K Z :=
  foldr (λ k g, <[k := default 0 (g !! k) + 1]> g) ∅ l.

(** The sum of a map's values over the keys that pass a test. *)
Definition map_sum {K} `{Countable K} (P : K → bool) (g : gmap K Z) : Z :=
  map_fold (λ k n acc, if P k then n + acc else acc) 0 g.

(** The [::bigint] cast. *)
Definition bigint (z : Z) : result error Z :=
  if (- 2 ^ 63 <=? z) && (z <=? int64_max) then Ok z else Err (ErrPg BigintRange).

Section with_env.
Context {pg : Postgres} {js : Json}.

(** ** [insertBatchSQL] *)

Definition row_of (r : incoming) : events_row :=
  MkRow (in_name r) (in_distinct_id r) (in_properties r) (in_ts r).

(** CTE [inserted]: [INSERT .. ON CONFLICT (event_id) DO NOTHING RETURNING ..]. *)
Fixpoint cte_inserted (rows : list incoming) (ev : gmap string events_row)
    : gmap string events_row * list incoming :=
  match rows with
  | [] => (ev, [])
  | r :: rows =>
      match ev !! in_event_id r with
      | Some _ => cte_inserted rows ev
      | None =>
          let '(ev', ret) := cte_inserted rows (<[in_event_id r := row_of r]> ev) in
          (ev', r :: ret)
      end
  end.

(** The bucket [(name, date_trunc('minute', ts))] of a row. *)
Definition bucket (r : events_row) : string * Z := (row_name r, trunc_minute (row_ts r)).

(** CTE [rolled]: [INSERT .. ON CONFLICT DO UPDATE SET n = n + EXCLUDED.n]. *)
Fixpoint cte_rolled (groups : list ((string * Z) * Z)) (t : gmap (string * Z) Z)
    : result error (gmap (string * Z) Z) :=
  match groups with
  | [] => Ok t
  | (k, n) :: groups =>
      match t !! k with
      | None => cte_rolled groups (<[k := n]> t)
      | Some old =>
          if int64_max <? old + n then Err (ErrPg BigintRange)
          else cte_rolled groups (<[k := old + n]> t)
      end
  end.

Definition valid_text (r : incoming) : bool :=
  pg_text (in_event_id r) && pg_text (in_name r) &&
  pg_text (in_distinct_id r) && pg_text (in_properties r).

(** The whole statement: atomic, it returns the number of new rows. *)
Definition insertBatchSQL (rows : list incoming) (t : tables) : result error (Z * tables) :=
  if negb (forallb valid_text rows) then Err (ErrPg InvalidText)
  else if negb (forallb (λ r, jsonb_ok (in_properties r)) rows) then Err (ErrPg InvalidJson)
  else
    let '(ev, ret) := cte_inserted (order_by_event_id rows) (events t) in
    let groups := order_by_bucket (map_to_list (histogram (map (bucket ∘ row_of) ret))) in
    match cte_rolled groups (event_counts_minute t) with
    | Err e => Err e
    | Ok counts => Ok (Z.of_nat (length ret), MkTables ev counts (event_uniques_day t))
    end.

(** ** Transactions *)

Definition tx (A : Type) : Type :=
  tables * list fault → result error A * (tables * list fault).

#[global] Instance tx_ret : MRet tx := λ A a s, (Ok a, s).
#[global] Instance tx_bind : MBind tx := λ A B f c s,
  match c s with
  | (Ok a, s') => f a s'
  | (Err e, s') => (Err e, s')
  end.

Definition tx_fail {A} (e : error) : tx A := λ s, (Err e, s).

(** One statement: a round trip that may fail, then the statement itself. *)
Definition tx_exec {A} (stmt : tables → result error (A * tables)) : tx A :=
  λ '(t, fs),
    let '(f, fs') := next fs in
    match f with
    | NoFault =>
        match stmt t with
        | Ok (a, t') => (Ok a, (t', fs'))
        | Err e => (Err e, (t, fs'))
        end
    | _ => (Err ErrConn, (t, fs'))
    end.

(** ** [updateUniques] *)

Definition uniqueKey : Type := string * string.

Definition set_uniques (t : tables) (u : gmap (string * Z) (list Z)) : tables :=
  MkTables (events t) (event_counts_minute t) u.

(** [INSERT INTO event_uniques_day .. ON CONFLICT (name, day) DO NOTHING] *)
Definition ensure_row (k : uniqueKey) (sketch : list Z) (t : tables) : result error (unit * tables) :=
  match clock.pg_date k.2 with
  | None => Err (ErrPg InvalidDate)
  | Some d =>
      match event_uniques_day t !! (k.1, d) with
      | Some _ => Ok ((), t)
      | None => Ok ((), set_uniques t (<[(k.1, d) := sketch]> (event_uniques_day t)))
      end
  end.

(** [SELECT sketch .. FOR UPDATE] *)
Definition select_sketch (k : uniqueKey) (t : tables) : result error (list Z * tables) :=
  match clock.pg_date k.2 with
  | None => Err (ErrPg InvalidDate)
  | Some d =>
      match event_uniques_day t !! (k.1, d) with
      | Some raw => Ok (raw, t)
      | None => Err ErrNoRows
      end
  end.

(** [UPDATE event_uniques_day SET sketch = $3 WHERE ..] *)
Definition update_sketch (k : uniqueKey) (sketch : list Z) (t : tables)
    : result error (unit * tables) :=
  match clock.pg_date k.2 with
  | None => Err (ErrPg InvalidDate)
  | Some d =>
      Ok ((), set_uniques t (alter (λ _, sketch) (k.1, d) (event_uniques_day t)))
  end.

(** The grouping loop: distinct ids per (name, UTC day), in batch order. *)
Definition group_step (g : gmap uniqueKey (list string)) (e : Event) : gmap uniqueKey (list string) :=
  if bool_decide (DistinctID e = "") then g
  else
    let k := (Name e, clock.format_day (TS e)) in
    <[k := default [] (g !! k) ++ [DistinctID e]]> g.

Definition group_ids (evs : list Event) : gmap uniqueKey (list string) :=
  fold_left group_step evs ∅.

(** The comparison of [sort.Slice]: by name, then by day. *)
Definition key_le (a b : uniqueKey) : Prop :=
  if decide (a.1 = b.1) then String.le a.2 b.2 else String.le a.1 b.1.
#[global] Instance key_le_dec : RelDecision key_le.
Proof. intros a b. unfold key_le. case_decide; apply _. Defined.

Definition sorted_keys (g : gmap uniqueKey (list string)) : list uniqueKey :=
  merge_sort key_le (map fst (map_to_list g)).

(** The body of the loop over the keys. *)
Definition update_key (ids : list string) (k : uniqueKey) : tx unit :=
  tx_exec (ensure_row k (hll.Bytes hll.New)) ≫= λ _,
  tx_exec (select_sketch k) ≫= λ raw,
  match hll.FromBytes raw with
  | Err _ => tx_fail (ErrCorruptSketch k.1 k.2)
  | Ok sketch =>
      match hll.AddAll sketch ids with
      | None => tx_fail ErrPanic
      | Some sketch' => tx_exec (update_sketch k (hll.Bytes sketch'))
      end
  end.

Fixpoint update_keys (g : gmap uniqueKey (list string)) (ks : list uniqueKey) : tx unit :=
  match ks with
  | [] => mret ()
  | k :: ks => update_key (default [] (g !! k)) k ≫= λ _, update_keys g ks
  end.

Definition updateUniques (evs : list Event) : tx unit :=
  let g := group_ids evs in
  if bool_decide (g = ∅) then mret () else update_keys g (sorted_keys g).

(** ** [InsertBatch] *)

Definition marshal_event (e : Event) : option incoming :=
  let props := match Properties e with None => ∅ | Some p => p end in
  match json_Marshal props with
  | None => None
  | Some p => Some (MkIncoming (EventID e) (Name e) (DistinctID e) p (timestamptz (TS e)))
  end.

(** The work inside the transaction. *)
Definition batch_tx (rows : list incoming) (evs : list Event) : tx Z :=
  tx_exec (insertBatchSQL rows) ≫= λ inserted,
  updateUniques evs ≫= λ _,
  mret inserted.

Definition InsertBatch (evs : list Event) (s : Store) : result error Z * Store :=
  if (length evs =? 0)%nat then (Ok 0, s) else
  match mapM marshal_event evs with
  | None => (Err ErrMarshal, s)
  | Some rows =>
      match next (net s) with
      | (NoFault, fs) =>
          match batch_tx rows evs (db s, fs) with
          | (Err e, (_, fs')) => (Err e, MkStore (db s) fs')       (* Rollback *)
          | (Ok inserted, (t', fs')) =>
              match next fs' with                                  (* Commit *)
              | (NoFault, fs'') => (Ok inserted, MkStore t' fs'')
              | (FaultBefore, fs'') => (Err ErrConn, MkStore (db s) fs'')
              | (FaultAfter, fs'') => (Err ErrConn, MkStore t' fs'')
              end
          end
      | (_, fs) => (Err ErrConn, MkStore (db s) fs)                (* Begin *)
      end
  end.

(** ** Queries

    [now] is the instant at which the statement runs. *)

Definition query {A} (q : tables → result error A) (s : Store) : result error A * Store :=
  let '(f, fs) := next (net s) in
  match f with
  | NoFault => (q (db s), MkStore (db s) fs)
  | _ => (Err ErrConn, MkStore (db s) fs)
  end.

(** [current_date] and [date_trunc('day', now())], in the session time zone. *)
Definition current_date (now : clock.time) : Z := session_date (timestamptz now).
Definition day_start (now : clock.time) : Z := session_midnight (current_date now).

(** [WHERE minute >= date_trunc('day', now())] *)
Definition today (now : clock.time) (minute : Z) : bool := day_start now <=? minute.

Definition CountToday (now : clock.time) (name : string) : Store → result error Z * Store :=
  query (λ t,
    if negb (pg_text name) then Err (ErrPg InvalidText) else
    bigint (map_sum (λ k, bool_decide (k.1 = name) && today now k.2)
                    (event_counts_minute t))).

(** [SELECT name, sum(n) .. WHERE .. GROUP BY name] *)
Definition totals (now : clock.time) (t : tables) : gmap string Z :=
  map_fold (λ k n acc,
    if today now k.2 then <[k.1 := default 0 (acc !! k.1) + n]> acc else acc)
    ∅ (event_counts_minute t).

Definition name_count (kv : string * Z) : result error NameCount :=
  match bigint kv.2 with Ok n => Ok (MkNameCount kv.1 n) | Err e => Err e end.

Fixpoint result_all {E A} (l : list (result E A)) : result E (list A) :=
  match l with
  | [] => Ok []
  | Err e :: _ => Err e
  | Ok a :: l => match result_all l with Ok as_ => Ok (a :: as_) | Err e => Err e end
  end.

Definition TotalsToday (now : clock.time) : Store → result error (list NameCount) * Store :=
  query (λ t,
    match result_all (map name_count (map_to_list (totals now t))) with
    | Ok ncs => Ok (take 20 (order_by_count_desc ncs))
    | Err e => Err e
    end).

(** [int(window.Minutes())]; the interval is counted in microseconds. *)
Definition series_from (now : clock.time) (window : Z) : Z :=
  trunc_minute (timestamptz now) - Z.quot window clock.Minute * minute_us.

Definition Series (now : clock.time) (window : Z) : Store → result error (list MinutePoint) * Store :=
  query (λ t,
    Ok (order_by_minute_name
         (omap (λ kv : (string * Z) * Z,
                  if series_from now window <=? kv.1.2
                  then Some (MkMinutePoint kv.1.1 kv.1.2 kv.2) else None)
               (map_to_list (event_counts_minute t))))).

(** The estimate is [None] where Go leaves [uint64(e + 0.5)] open. *)
Definition UniquesToday (math_Log : float64.t → float64.t) (now : clock.time) (name : string)
    : Store → result error (option Z) * Store :=
  query (λ t,
    if negb (pg_text name) then Err (ErrPg InvalidText) else
    match event_uniques_day t !! (name, current_date now) with
    | None => Ok (Some 0)
    | Some raw =>
        match hll.FromBytes raw with
        | Err _ => Err ErrSketch
        | Ok sketch => Ok (hll.Estimate math_Log sketch)
        end
    end).

Definition unique_count (math_Log : float64.t → float64.t) (kv : (string * Z) * list Z)
    : result error (string * option Z) :=
  match hll.FromBytes kv.2 with
  | Err _ => Err (ErrCorruptSketch kv.1.1 "")
  | Ok sketch => Ok (kv.1.1, int64 <$> hll.Estimate math_Log sketch)
  end.

Definition UniquesTodayAll (math_Log : float64.t → float64.t) (now : clock.time)
    : Store → result error (list (string * option Z)) * Store :=
  query (λ t,
    result_all (map (unique_count math_Log)
      (filter (λ kv : (string * Z) * list Z, kv.1.2 = current_date now)
              (map_to_list (event_uniques_day t))))).

End with_env.
End store.
