(* ===== verification/Json.v ===== *)
(** * [encoding/json] on values of type [any]

    The scanner's grammar as a parser into literal values, the decoder from
    there into [any], and the encoder.  Depth and termination are explicit: the
    nesting limit of the scanner is an argument, and the fuel is shown to be
    enough for every text. *)

From S2P Require Import Prelude Float64 Utf8 Decimal Store.
From stdpp Require Import prelude list strings gmap sorting.
From Stdlib Require Import ZArith Lia.
Open Scope Z_scope.

Module json.
Import utf8 (bytes, text, appendString, scan_string, unquoteBytes).
Import store (any, ANil, ABool, AFloat, AString, AArray, AObject).

(** ** Syntax *)

(** A value as scanned: literals are still text. *)
#[warnings="-register-all"]
Inductive value : Type :=
  | VNull
  | VBool (b : bool)
  | VNumber (n : decimal.number)
  | VString (raw : list Z)
  | VArray (vs : list value)
  | VObject (kvs : list (list Z * value)).

Definition is_space (c : Z) : bool := (c =? 32) || (c =? 9) || (c =? 13) || (c =? 10).

Fixpoint skip_ws (l : list Z) : list Z :=
  match l with c :: l' => if is_space c then skip_ws l' else l | [] => [] end.

Fixpoint strip_prefix (p l : list Z) : option (list Z) :=
  match p, l with
  | [], _ => Some l
  | a :: p, b :: l => if a =? b then strip_prefix p l else None
  | _, [] => None
  end.

(** A value that is not an array or an object, from its first byte on. *)
Definition parse_scalar (l : list Z) : option (value * list Z) :=
  match l with
  | [] => None
  | c :: l' =>
      if c =? 34 then '(raw, rest) ← scan_string l'; Some (VString raw, rest)
      else if c =? 116 then rest ← strip_prefix (bytes "true") l; Some (VBool true, rest)
      else if c =? 102 then rest ← strip_prefix (bytes "false") l; Some (VBool false, rest)
      else if c =? 110 then rest ← strip_prefix (bytes "null") l; Some (VNull, rest)
      else '(nb, rest) ← decimal.scan_number l; Some (VNumber nb, rest)
  end.

Arguments parse_scalar : simpl never.

(** One value and what follows it; [depth] is the nesting still allowed. *)
Fixpoint parse_value (fuel depth : nat) (l : list Z) : option (value * list Z) :=
  match fuel with
  | O => None
  | S fuel =>
      match skip_ws l with
      | [] => None
      | c :: l1 =>
          if c =? 91 then
            match depth, skip_ws l1 with
            | S depth, c1 :: l2 =>
                if c1 =? 93 then Some (VArray [], l2)
                else '(vs, rest) ← parse_elements fuel depth l1; Some (VArray vs, rest)
            | _, _ => None
            end
          else if c =? 123 then
            match depth, skip_ws l1 with
            | S depth, c1 :: l2 =>
                if c1 =? 125 then Some (VObject [], l2)
                else '(kvs, rest) ← parse_members fuel depth l1; Some (VObject kvs, rest)
            | _, _ => None
            end
          else parse_scalar (c :: l1)
      end
  end
(** The elements of an array up to its bracket. *)
with parse_elements (fuel depth : nat) (l : list Z) : option (list value * list Z) :=
  match fuel with
  | O => None
  | S fuel =>
      '(v, l1) ← parse_value fuel depth l;
      match skip_ws l1 with
      | c :: l2 =>
          if c =? 44 then '(vs, rest) ← parse_elements fuel depth l2; Some (v :: vs, rest)
          else if c =? 93 then Some ([v], l2) else None
      | [] => None
      end
  end
(** The members of an object up to its brace. *)
with parse_members (fuel depth : nat) (l : list Z) : option (list (list Z * value) * list Z) :=
  match fuel with
  | O => None
  | S fuel =>
      match skip_ws l with
      | [] => None
      | q :: l0 =>
          if negb (q =? 34) then None else
          '(k, l1) ← scan_string l0;
          match skip_ws l1 with
          | [] => None
          | c1 :: l2 =>
              if negb (c1 =? 58) then None else
              '(v, l3) ← parse_value fuel depth l2;
              match skip_ws l3 with
              | c :: l4 =>
                  if c =? 44 then '(kvs, rest) ← parse_members fuel depth l4; Some ((k, v) :: kvs, rest)
                  else if c =? 125 then Some ([(k, v)], l4) else None
              | [] => None
              end
          end
      end
  end.

(** [maxNestingDepth] *)
Definition max_depth : nat := N.to_nat 10000.

Definition first_value (l : list Z) : option (value * list Z) := parse_value (2 * length l + 1) max_depth l.

(** A text that is one value, with white space around it ([checkValid]). *)
Definition whole_value (l : list Z) : option value :=
  '(v, rest) ← first_value l; match skip_ws rest with [] => Some v | _ => None end.

(** ** Decoding into [any] *)

Fixpoint all_some {A} (l : list (option A)) : option (list A) :=
  match l with
  | [] => Some []
  | o :: l => x ← o; xs ← all_some l; Some (x :: xs)
  end.

(** [m[k] = v] *)
Fixpoint set_key {A} (k : string) (v : A) (m : list (string * A)) : list (string * A) :=
  match m with
  | [] => [(k, v)]
  | (k', v') :: m' =>
      if decide (k = k') then (k, v) :: m'
      else if decide (String.le k k') then (k, v) :: m
      else (k', v') :: set_key k v m'
  end.

Definition unquote_string (raw : list Z) : option string := text <$> unquoteBytes raw.

(** [valueInterface]; [None] is an error: a number out of range. *)
Fixpoint to_any (v : value) : option any :=
  match v with
  | VNull => Some ANil
  | VBool b => Some (ABool b)
  | VNumber n => AFloat <$> decimal.ParseFloat n
  | VString raw => AString <$> unquote_string raw
  | VArray vs => AArray <$> all_some (map to_any vs)
  | VObject kvs =>
      es ← all_some (map (λ '(k, v), k ← unquote_string k; x ← to_any v; Some (k, x)) kvs);
      Some (AObject (foldl (λ m '(k, x), set_key k x m) [] es))
  end.

(** ** Encoding *)

Fixpoint join (l : list (list Z)) : list Z :=
  match l with
  | [] => []
  | [x] => x
  | x :: l => x ++ 44 :: join l
  end.

Definition member (k : string) (x : list Z) : list Z := appendString (bytes k) ++ 58 :: x.

(** [None] is the error for a number that is not finite. *)
Fixpoint encode (a : any) : option (list Z) :=
  match a with
  | ANil => Some (bytes "null")
  | ABool b => Some (bytes (if b then "true" else "false"))
  | AFloat f => decimal.appendFloat f
  | AString s => Some (appendString (bytes s))
  | AArray l => xs ← all_some (map encode l); Some (91 :: join xs ++ [93])
  | AObject kvs =>
      xs ← all_some (map (λ '(k, v), member k <$> encode v) kvs);
      Some (123 :: join xs ++ [125])
  end.

(** [mapEncoder] sorts the keys. *)
Definition entry_le (a b : string * any) : Prop := String.le a.1 b.1.
#[global] Instance entry_le_dec : RelDecision entry_le := λ a b, decide (String.le _ _).

Definition entries (m : gmap string any) : list (string * any) := merge_sort entry_le (map_to_list m).

Definition encode_map (m : option (gmap string any)) : option (list Z) :=
  match m with None => Some (bytes "null") | Some m => encode (AObject (entries m)) end.

(** ** The parser terminates on every text

    A value, the elements of an array and the members of an object each take
    something off the text, so that more fuel than [first_value] gives changes
    nothing. *)

Lemma skip_ws_length l : (length (skip_ws l) ≤ length l)%nat.
Proof. induction l as [|c l IH]; simpl; [lia|]. case_match; simpl; lia. Qed.

Lemma scan_string_split l raw rest : scan_string l = Some (raw, rest) → l = raw ++ 34 :: rest.
Proof.
  remember (length l) as n eqn:Hn. revert l raw rest Hn.
  induction n as [n IH] using (well_founded_induction lt_wf). intros l raw rest ->.
  assert (∀ front l' raw' rest', (length l' < length l)%nat → utf8.push front (scan_string l') = Some (raw', rest') →
    front ++ l' = raw' ++ 34 :: rest') as Hpush.
  { intros front l' raw' rest' Hlt. unfold utf8.push. destruct (scan_string l') as [[r1 r2]|] eqn:H; [|done].
    intros [= <- <-]. rewrite (IH (length l') Hlt l' r1 r2 eq_refl H). by rewrite <- app_assoc. }
  destruct l as [|c l]; [done|]. cbn [scan_string].
  repeat (case_match; try done); try (intros Hp; apply Hpush in Hp; [exact Hp|simpl in *; lia]).
  bool_props. subst. by intros [= <- <-].
Qed.

Lemma scan_string_shrinks l raw rest : scan_string l = Some (raw, rest) → (length rest < length l)%nat.
Proof. intros ->%scan_string_split. rewrite length_app. simpl. lia. Qed.

Lemma span_digits_split l ds rest : decimal.span_digits l = (ds, rest) → l = ds ++ rest.
Proof.
  revert ds rest. induction l as [|c l IH]; intros ds rest; simpl; [by intros [= <- <-]|].
  destruct (decimal.is_digit c); [|by intros [= <- <-]].
  destruct (decimal.span_digits l) as [ds' rest']. intros [= <- <-]. by rewrite (IH ds' rest').
Qed.

Lemma span_digits_length l ds rest : decimal.span_digits l = (ds, rest) → (length ds + length rest = length l)%nat.
Proof. intros ->%span_digits_split. by rewrite length_app. Qed.

Lemma scan_number_shrinks l nb rest : decimal.scan_number l = Some (nb, rest) → (length rest < length l)%nat.
Proof.
  assert (∀ l ip rest, decimal.scan_int l = Some (ip, rest) → (length rest < length l)%nat) as Hi.
  { intros [|c l1] ip r; simpl; [done|]. repeat case_match; try done; [intros [= _ <-]; lia|].
    intros [= _ <-]. destruct (decimal.span_digits l1) eqn:E. apply span_digits_length in E. simplify_eq/=. lia. }
  assert (∀ l fp rest, decimal.scan_frac l = Some (fp, rest) → (length rest ≤ length l)%nat) as Hf.
  { intros [|c l1] fp r; simpl; [by intros [= _ <-]|]. destruct (c =? 46); [|intros [= _ <-]; simpl; lia].
    destruct (decimal.span_digits l1) as [[|d ds] r1] eqn:E; [done|]. intros [= _ <-].
    apply span_digits_length in E. simpl in *. lia. }
  assert (∀ l ex rest, decimal.scan_exp l = Some (ex, rest) → (length rest ≤ length l)%nat) as He.
  { intros [|c l1] ex r; unfold decimal.scan_exp; [by intros [= _ <-]|]. destruct (_ || _); [|intros [= _ <-]; simpl; lia].
    destruct (match l1 with [] => _ | _ => _ end) as [sg l2] eqn:E2.
    assert (length l2 ≤ length l1)%nat by (repeat case_match; simplify_eq/=; lia).
    destruct (decimal.span_digits l2) as [[|d ds] r1] eqn:E; [done|]. intros [= _ <-].
    apply span_digits_length in E. simpl in *. lia. }
  assert (∀ neg l nb rest, decimal.scan_unsigned neg l = Some (nb, rest) → (length rest < length l)%nat) as Hu.
  { intros neg l0 nb0 r0. unfold decimal.scan_unsigned. destruct (decimal.scan_int l0) as [[ip l1]|] eqn:E1; [|done].
    simpl. destruct (decimal.scan_frac l1) as [[fp l2]|] eqn:E2; [|done]. simpl.
    destruct (decimal.scan_exp l2) as [[ex l3]|] eqn:E3; [|done]. intros [= _ <-].
    apply Hi in E1. apply Hf in E2. apply He in E3. lia. }
  destruct l as [|c l]; [done|]. simpl. destruct (c =? 45); intros H; apply Hu in H; simpl in *; lia.
Qed.

Lemma strip_prefix_length p l rest : strip_prefix p l = Some rest → (length rest = length l - length p)%nat.
Proof.
  revert l. induction p as [|a p IH]; intros l; simpl; [intros [= <-]; lia|].
  destruct l as [|b l]; [done|]. case_match; [|done]. apply IH.
Qed.

Lemma parse_scalar_shrinks l v rest : parse_scalar l = Some (v, rest) → (length rest < length l)%nat.
Proof.
  destruct l as [|c l]; [done|]. unfold parse_scalar.
  destruct (c =? 34); [destruct (scan_string l) as [[raw r]|] eqn:H; [|done]; intros [= _ <-];
    apply scan_string_shrinks in H; simpl; lia|].
  do 3 (case_match; [destruct (strip_prefix _ _) as [r|] eqn:H'; [|done]; intros [= _ <-];
    apply strip_prefix_length in H'; simpl in *; lia|]).
  destruct (decimal.scan_number (c :: l)) as [[nb r]|] eqn:H'; [|done]. intros [= _ <-].
  by apply scan_number_shrinks in H'.
Qed.

Lemma parse_shrinks fuel :
  (∀ d l v rest, parse_value fuel d l = Some (v, rest) → (length rest < length l)%nat) ∧
  (∀ d l vs rest, parse_elements fuel d l = Some (vs, rest) → (length rest < length l)%nat) ∧
  (∀ d l kvs rest, parse_members fuel d l = Some (kvs, rest) → (length rest < length l)%nat).
Proof.
  induction fuel as [|fuel (IHv & IHe & IHm)]; [done|]. split_and!; intros d l.
  - intros v rest. cbn [parse_value]. pose proof (skip_ws_length l). destruct (skip_ws l) as [|c l1]; [done|]. simpl in *.
    pose proof (skip_ws_length l1).
    destruct (c =? 91); [|destruct (c =? 123)].
    + destruct d as [|d]; [done|]. destruct (skip_ws l1) as [|c1 l2]; [done|]. simpl in *.
      destruct (c1 =? 93); [intros [= _ <-]; lia|].
      destruct (parse_elements fuel d l1) as [[vs r]|] eqn:E; [|done]. intros [= _ <-]. apply IHe in E. lia.
    + destruct d as [|d]; [done|]. destruct (skip_ws l1) as [|c1 l2]; [done|]. simpl in *.
      destruct (c1 =? 125); [intros [= _ <-]; lia|].
      destruct (parse_members fuel d l1) as [[vs r]|] eqn:E; [|done]. intros [= _ <-]. apply IHm in E. lia.
    + intros Hs. apply parse_scalar_shrinks in Hs. simpl in *. lia.
  - intros vs rest. cbn [parse_elements]. destruct (parse_value fuel d l) as [[v l1]|] eqn:E; [|done]. simpl.
    apply IHv in E. pose proof (skip_ws_length l1). destruct (skip_ws l1) as [|c l2]; [done|]. simpl in *.
    destruct (c =? 44); [|destruct (c =? 93); [intros [= _ <-]; lia|done]].
    destruct (parse_elements fuel d l2) as [[vs' r]|] eqn:E2; [|done]. intros [= _ <-]. apply IHe in E2. lia.
  - intros kvs rest. cbn [parse_members]. pose proof (skip_ws_length l). destruct (skip_ws l) as [|q l0]; [done|]. simpl in *.
    destruct (negb (q =? 34)); [done|]. destruct (scan_string l0) as [[k l1]|] eqn:Hk; [|done]. simpl.
    apply scan_string_shrinks in Hk. pose proof (skip_ws_length l1). destruct (skip_ws l1) as [|c1 l2]; [done|]. simpl in *.
    destruct (negb (c1 =? 58)); [done|]. destruct (parse_value fuel d l2) as [[v l3]|] eqn:E; [|done]. simpl.
    apply IHv in E. pose proof (skip_ws_length l3). destruct (skip_ws l3) as [|c l4]; [done|]. simpl in *.
    destruct (c =? 44); [|destruct (c =? 125); [intros [= _ <-]; lia|done]].
    destruct (parse_members fuel d l4) as [[kvs' r]|] eqn:E2; [|done]. intros [= _ <-]. apply IHm in E2. lia.
Qed.

(** Beyond twice the length of the text fuel makes no difference. *)
Lemma parse_fuel fuel :
  (∀ fuel' d l, (2 * length l + 1 ≤ fuel)%nat → (2 * length l + 1 ≤ fuel')%nat →
     parse_value fuel d l = parse_value fuel' d l) ∧
  (∀ fuel' d l, (2 * length l + 2 ≤ fuel)%nat → (2 * length l + 2 ≤ fuel')%nat →
     parse_elements fuel d l = parse_elements fuel' d l) ∧
  (∀ fuel' d l, (2 * length l + 2 ≤ fuel)%nat → (2 * length l + 2 ≤ fuel')%nat →
     parse_members fuel d l = parse_members fuel' d l).
Proof.
  induction fuel as [|fuel (IHv & IHe & IHm)]; [split_and!; intros; lia|].
  destruct (parse_shrinks fuel) as (Sv & _). split_and!; intros [|fuel'] d l Hf Hf'; try lia.
  - cbn [parse_value]. pose proof (skip_ws_length l). destruct (skip_ws l) as [|c l1]; [done|]. simpl in *.
    pose proof (skip_ws_length l1).
    destruct (c =? 91); [|destruct (c =? 123); [|done]];
      (destruct d as [|d]; [done|]); (destruct (skip_ws l1) as [|c1 l2]; [done|]); simpl in *;
      (case_match; [done|]); [rewrite (IHe fuel')|rewrite (IHm fuel')]; done || lia.
  - cbn [parse_elements]. rewrite (IHv fuel') by lia. destruct (parse_value fuel' d l) as [[v l1]|] eqn:E; [|done]. simpl.
    rewrite <- (IHv fuel') in E by lia. apply Sv in E. pose proof (skip_ws_length l1).
    destruct (skip_ws l1) as [|c l2]; [done|]. simpl in *. case_match; [|done]. rewrite (IHe fuel'); done || lia.
  - cbn [parse_members]. pose proof (skip_ws_length l). destruct (skip_ws l) as [|q l0]; [done|]. simpl in *.
    destruct (negb (q =? 34)); [done|]. destruct (scan_string l0) as [[k l1]|] eqn:Hk; [|done]. simpl.
    apply scan_string_shrinks in Hk. pose proof (skip_ws_length l1). destruct (skip_ws l1) as [|c1 l2]; [done|]. simpl in *.
    destruct (negb (c1 =? 58)); [done|]. rewrite (IHv fuel') by lia.
    destruct (parse_value fuel' d l2) as [[v l3]|] eqn:E; [|done]. simpl.
    rewrite <- (IHv fuel') in E by lia. apply Sv in E. pose proof (skip_ws_length l3).
    destruct (skip_ws l3) as [|c l4]; [done|]. simpl in *. case_match; [|done]. rewrite (IHm fuel'); done || lia.
Qed.

(** ** What is encoded reads back *)

Lemma any_ind' (P : any → Prop) :
  P ANil → (∀ b, P (ABool b)) → (∀ f, P (AFloat f)) → (∀ s, P (AString s)) →
  (∀ l, Forall P l → P (AArray l)) → (∀ kvs, Forall (λ kv, P kv.2) kvs → P (AObject kvs)) →
  ∀ a, P a.
Proof.
  intros Hn Hb Hf Hs Ha Ho. fix IH 1. intros [| | | |l|kvs]; [done|apply Hb|apply Hf|apply Hs| |].
  - apply Ha. induction l as [|x l IHl]; constructor; [apply IH|exact IHl].
  - apply Ho. induction kvs as [|[k x] kvs IHl]; constructor; [apply IH|exact IHl].
Qed.

(** The entries of a map are in strict key order. *)
Definition before {A} (a b : string * A) : Prop := String.le a.1 b.1 ∧ a.1 ≠ b.1.

(** Values as the decoder produces them: finite numbers, valid text, maps. *)
Fixpoint any_ok (a : any) : Prop :=
  match a with
  | ANil | ABool _ => True
  | AFloat f => decimal.finite f = true
  | AString s => utf8.valid_string s
  | AArray l => fold_right (λ x, and (any_ok x)) True l
  | AObject kvs =>
      StronglySorted before kvs ∧ fold_right (λ kv, and (utf8.valid_string kv.1 ∧ any_ok kv.2)) True kvs
  end.

Fixpoint depth (a : any) : nat :=
  match a with
  | AArray l => S (fold_right (λ x, Nat.max (depth x)) 0%nat l)
  | AObject kvs => S (fold_right (λ kv, Nat.max (depth kv.2)) 0%nat kvs)
  | _ => 0%nat
  end.

Lemma fold_and_Forall {A} (P : A → Prop) l : fold_right (λ x, and (P x)) True l ↔ Forall P l.
Proof. induction l as [|x l IH]; simpl; [by rewrite Forall_nil|]. by rewrite Forall_cons, IH. Qed.

Lemma fold_max_Forall {A} (f : A → nat) l n : (fold_right (λ x, Nat.max (f x)) 0%nat l ≤ n)%nat ↔ Forall (λ x, (f x ≤ n)%nat) l.
Proof.
  induction l as [|x l IH]; simpl; [split; [constructor|lia]|]. rewrite Forall_cons, <- IH. lia.
Qed.

Lemma all_some_map {A B} (f : A → option B) l xs :
  all_some (map f l) = Some xs ↔ Forall2 (λ a x, f a = Some x) l xs.
Proof.
  revert xs. induction l as [|a l IH]; intros xs; simpl.
  - split; [by intros [= <-]|]. by intros ->%Forall2_nil_inv_l.
  - split.
    + destruct (f a) as [x|] eqn:Hx; [|done]. simpl. destruct (all_some (map f l)) as [xs'|]; [|done].
      intros [= <-]. constructor; [done|]. by apply IH.
    + intros (x & xs' & Hx & Hl & ->)%Forall2_cons_inv_l. rewrite Hx. simpl. by rewrite (proj2 (IH xs') Hl).
Qed.

(** The first byte of a value. *)
Definition starts (c : Z) : bool := negb (is_space c) && negb (c =? 93) && negb (c =? 125).

(** [txt] is parsed as a value with [P], and as one that decodes to [a]. *)
Definition reads_as (d : nat) (P : value → Prop) (txt : list Z) : Prop :=
  (∃ c l, txt = c :: l ∧ starts c = true) ∧
  ∀ rest fuel, decimal.ends_number rest = true → (2 * length (txt ++ rest) + 1 ≤ fuel)%nat →
    ∃ v, parse_value fuel d (txt ++ rest) = Some (v, rest) ∧ P v.

Definition reads (d : nat) (a : any) : list Z → Prop := reads_as d (λ v, to_any v = Some a).

Lemma starts_spec c : starts c = true → is_space c = false ∧ c ≠ 93 ∧ c ≠ 125.
Proof. unfold starts. rewrite !andb_true_iff, !negb_true_iff. intros [[? ?] ?]. bool_props. done. Qed.

Lemma skip_ws_starts c l : is_space c = false → skip_ws (c :: l) = c :: l.
Proof. intros H. simpl. by rewrite H. Qed.

(** A text that [parse_scalar] takes. *)
Lemma reads_scalar d (P : value → Prop) c l :
  starts c = true → c ≠ 91 → c ≠ 123 →
  (∀ rest, decimal.ends_number rest = true → ∃ v, parse_scalar (c :: l ++ rest) = Some (v, rest) ∧ P v) →
  reads_as d P (c :: l).
Proof.
  intros Hs H91 H123 Hp. split; [by exists c, l|]. intros rest fuel Hr Hf. cbn [app length] in *.
  destruct fuel as [|fuel]; [lia|]. cbn [parse_value]. apply starts_spec in Hs as (Hsp & _).
  rewrite skip_ws_starts by done. destruct (Z.eqb_spec c 91), (Z.eqb_spec c 123); try done. by apply Hp.
Qed.

Lemma reads_as_impl d (P Q : value → Prop) txt : (∀ v, P v → Q v) → reads_as d P txt → reads_as d Q txt.
Proof. intros HPQ [Hs H]. split; [done|]. intros rest fuel Hr Hf. destruct (H rest fuel Hr Hf) as (v & ? & ?). eauto. Qed.

Lemma strip_prefix_app p l : strip_prefix p (p ++ l) = Some l.
Proof. induction p as [|a p IH]; simpl; [done|]. by rewrite Z.eqb_refl. Qed.

Lemma string_reads s t :
  utf8.valid_string s →
  ∃ raw, appendString (bytes s) ++ t = 34 :: raw ++ 34 :: t ∧ scan_string (raw ++ 34 :: t) = Some (raw, t) ∧
    unquote_string raw = Some s.
Proof.
  intros Hs. destruct (utf8.literal_round_trip (bytes s) t (utf8.valid_bytes _ Hs)) as (raw & H1 & H2 & H3).
  exists raw. split_and!; try done. unfold unquote_string. rewrite H3. simpl.
  by rewrite utf8.sanitize_valid, utf8.text_bytes.
Qed.

Lemma encode_scalar_reads d a :
  match a with AArray _ | AObject _ => False | _ => any_ok a end → ∃ txt, encode a = Some txt ∧ reads d a txt.
Proof.
  destruct a as [|b|f|s| |]; intros Hok; try done.
  - eexists. split; [done|]. apply (reads_scalar d _ 110); [done..|]. intros rest _. by eexists.
  - destruct b; eexists; (split; [done|]); [apply (reads_scalar d _ 116)|apply (reads_scalar d _ 102)]; try done;
      intros rest _; by eexists.
  - destruct (decimal.float_round_trip f Hok) as (c & l & Ha & Hc & Hr). exists (c :: l). split; [done|].
    assert (c = 45 ∨ 48 ≤ c ≤ 57) as Hc' by (destruct Hc as [?|?%decimal.is_digit_spec]; lia).
    apply reads_scalar; [|lia..|].
    + unfold starts, is_space. rewrite !andb_true_iff, !negb_true_iff, !orb_false_iff. lia.
    + intros rest Hrest. destruct (Hr rest Hrest) as (nb & Hs & Hp). exists (VNumber nb). simpl. rewrite Hp. split; [|done].
      unfold parse_scalar.
      destruct (Z.eqb_spec c 34), (Z.eqb_spec c 116), (Z.eqb_spec c 102), (Z.eqb_spec c 110); try lia. by rewrite Hs.
  - destruct (string_reads s [] Hok) as (raw & Htxt & _). rewrite app_nil_r in Htxt.
    exists (34 :: raw ++ [34]). split; [simpl; by rewrite <- Htxt|]. apply reads_scalar; [done..|].
    intros rest _. destruct (string_reads s rest Hok) as (raw' & Htxt' & Hscan & Hun).
    rewrite Htxt in Htxt'. cbn [app] in Htxt'. rewrite <- app_assoc in *. injection Htxt' as Hraw.
    exists (VString raw'). cbn [app] in *. unfold parse_scalar. simpl (34 =? 34). cbn iota. rewrite Hraw, Hscan. simpl.
    by rewrite Hun.
Qed.

Lemma join_cons x xs : join (x :: xs) = match xs with [] => x | _ => x ++ 44 :: join xs end.
Proof. by destruct xs. Qed.

(** A value with the property. *)
Definition holds (P : value → Prop) (v : value) : Prop := P v.

Lemma elements_read d Ps xs rest fuel :
  Forall2 (reads_as d) Ps xs → Ps ≠ [] → (2 * length (join xs ++ 93%Z :: rest) + 2 ≤ fuel)%nat →
  ∃ vs, parse_elements fuel d (join xs ++ 93 :: rest) = Some (vs, rest) ∧ Forall2 holds Ps vs.
Proof.
  intros Hr. revert fuel. induction Hr as [|P x Ps xs [_ Ha] Hl IH]; intros fuel Hne Hf; [done|].
  destruct fuel as [|fuel]; [lia|]. cbn [parse_elements]. rewrite join_cons in *.
  destruct xs as [|x' xs].
  - apply Forall2_nil_inv_r in Hl as ->.
    destruct (Ha (93 :: rest) fuel) as (v & Hv & Hto); [done|lia|]. rewrite Hv. simpl.
    exists [v]. split; [done|by repeat constructor].
  - rewrite <- app_assoc in *. rewrite length_app in Hf. cbn [app length] in *.
    destruct (Ha (44 :: join (x' :: xs) ++ 93 :: rest) fuel) as (v & Hv & Hto);
      [done|rewrite length_app; cbn [length]; lia|].
    rewrite Hv. cbn [mbind option_bind]. rewrite skip_ws_starts by done. cbn iota. change (44 =? 44) with true. cbn iota.
    destruct (IH fuel) as (vs & Hvs & Hall); [by destruct Ps; [apply Forall2_nil_inv_l in Hl|]|lia|].
    rewrite Hvs. exists (v :: vs). split; [done|by constructor].
Qed.

(** Decoding of one member. *)
Definition to_entry (kv : list Z * value) : option (string * any) :=
  let '(k, v) := kv in k ← unquote_string k; x ← to_any v; Some (k, x).

(** A member with the given key and a value with the given property. *)
Abbreviation member_spec := (string * (value → Prop))%type.

Definition is_member (kP : member_spec) (kv : list Z * value) : Prop :=
  unquote_string kv.1 = Some kP.1 ∧ kP.2 kv.2.

Definition member_reads (d : nat) (kP : member_spec) (txt : list Z) : Prop :=
  utf8.valid_string kP.1 ∧ ∃ x, txt = member kP.1 x ∧ reads_as d kP.2 x.

(** One member, up to the comma or brace after it. *)
Lemma member_read d kP txt t fuel :
  member_reads d kP txt → decimal.ends_number t = true → (2 * length (txt ++ t) + 1 ≤ fuel)%nat →
  ∃ k l1 l2 v,
    skip_ws (txt ++ t) = 34 :: l1 ∧ scan_string l1 = Some (k, 58 :: l2) ∧
    parse_value fuel d l2 = Some (v, t) ∧ is_member kP (k, v).
Proof.
  intros (Hk & x & -> & [_ Hx]) Ht Hf. unfold member in *. rewrite <- app_assoc in *. cbn [app] in *.
  destruct (string_reads kP.1 (58 :: x ++ t) Hk) as (raw & Htxt & Hscan & Hun).
  destruct (Hx t fuel Ht) as (v & Hv & Hto); [rewrite length_app in Hf; cbn [length] in Hf; lia|].
  exists raw, (raw ++ 34 :: 58 :: x ++ t), (x ++ t), v. rewrite Htxt. split_and!; done.
Qed.

Lemma members_read d kPs xs rest fuel :
  Forall2 (member_reads d) kPs xs → kPs ≠ [] → (2 * length (join xs ++ 125%Z :: rest) + 2 ≤ fuel)%nat →
  ∃ vs, parse_members fuel d (join xs ++ 125 :: rest) = Some (vs, rest) ∧ Forall2 is_member kPs vs.
Proof.
  intros Hr. revert fuel. induction Hr as [|kP x kPs xs Ha Hl IH]; intros fuel Hne Hf; [done|].
  destruct fuel as [|fuel]; [lia|]. cbn [parse_members]. rewrite join_cons in *.
  destruct xs as [|x' xs].
  - apply Forall2_nil_inv_r in Hl as ->.
    destruct (member_read d kP x (125 :: rest) fuel Ha) as (k & l1 & l2 & v & -> & Hs & Hv & He); [done|lia|].
    change (negb (34 =? 34)) with false. cbn iota. rewrite Hs. cbn [mbind option_bind]. rewrite skip_ws_starts by done.
    change (negb (58 =? 58)) with false. cbn iota. rewrite Hv. simpl.
    exists [(k, v)]. split; [done|by repeat constructor; apply He].
  - rewrite <- app_assoc in *. cbn [app] in *.
    destruct (member_read d kP x (44 :: join (x' :: xs) ++ 125 :: rest) fuel Ha) as (k & l1 & l2 & v & -> & Hs & Hv & He);
      [done|lia|].
    change (negb (34 =? 34)) with false. cbn iota. rewrite Hs. cbn [mbind option_bind]. rewrite skip_ws_starts by done.
    change (negb (58 =? 58)) with false. cbn iota. rewrite Hv. cbn [mbind option_bind]. rewrite skip_ws_starts by done.
    change (44 =? 44) with true. cbn iota.
    destruct (IH fuel) as (vs & Hvs & Hall);
      [by destruct kPs; [apply Forall2_nil_inv_l in Hl|]|rewrite length_app in Hf; cbn [length] in Hf; lia|].
    rewrite Hvs. exists ((k, v) :: vs). split; [done|by constructor].
Qed.

(** The decoder's map of entries that come in order is the list of them. *)
Lemma set_key_last {A} k (v : A) m : Forall (λ a, before a (k, v)) m → set_key k v m = m ++ [(k, v)].
Proof.
  intros Hm. induction Hm as [|[k' v'] m [Hle Hne] _ IH]; simpl in *; [done|].
  rewrite decide_False by congruence. rewrite decide_False; [by rewrite IH|].
  intros Hle'. apply Hne. by apply (anti_symm String.le).
Qed.

Lemma set_keys_sorted {A} (kvs : list (string * A)) :
  StronglySorted before kvs → foldl (λ m '(k, x), set_key k x m) [] kvs = kvs.
Proof.
  enough (∀ m, StronglySorted before (m ++ kvs) → foldl (λ m '(k, x), set_key k x m) m kvs = m ++ kvs) as H by apply (H []).
  induction kvs as [|[k x] kvs IH]; intros m Hs; simpl; [by rewrite app_nil_r|].
  rewrite set_key_last; [rewrite IH; by rewrite <- app_assoc|].
  apply StronglySorted_app in Hs as (Hcross & _). apply Forall_forall. intros a Ha. apply (Hcross a (k, x)); [done|left].
Qed.

Lemma array_reads_as d Ps xs :
  Forall2 (reads_as d) Ps xs →
  reads_as (S d) (λ v, ∃ vs, v = VArray vs ∧ Forall2 holds Ps vs) (91 :: join xs ++ [93]).
Proof.
  intros Hl. split; [by eexists _, _|]. intros rest fuel Hr Hf. cbn [app] in *. rewrite <- app_assoc in *. cbn [app length] in *.
  destruct fuel as [|fuel]; [lia|]. cbn [parse_value]. rewrite skip_ws_starts by done.
  change (91 =? 91) with true. cbn iota. destruct Ps as [|P Ps].
  - apply Forall2_nil_inv_l in Hl as ->. exists (VArray []). split; [done|]. by exists [].
  - destruct (elements_read d (P :: Ps) xs rest fuel Hl) as (vs & Hvs & Hall); [done|lia|].
    apply Forall2_cons_inv_l in Hl as (x & xs' & [(c & t & -> & Hc) _] & _ & ->). rewrite join_cons in *.
    apply starts_spec in Hc as (Hsp & H93 & _).
    assert (∃ t', (match xs' with [] => c :: t | _ => (c :: t) ++ 44 :: join xs' end) ++ 93 :: rest = c :: t') as (t' & Ht')
      by (destruct xs'; by eexists).
    rewrite Ht' in *. rewrite skip_ws_starts by done. destruct (Z.eqb_spec c 93); [done|]. rewrite Hvs.
    exists (VArray vs). split; [done|]. by exists vs.
Qed.

Lemma array_reads d l xs :
  Forall2 (reads d) l xs → reads (S d) (AArray l) (91 :: join xs ++ [93]).
Proof.
  intros Hl. eapply reads_as_impl; [|apply (array_reads_as d ((λ a v, to_any v = Some a) <$> l))].
  - intros v (vs & -> & Hvs). rewrite Forall2_fmap_l in Hvs. cbn [to_any].
    enough (all_some (map to_any vs) = Some l) as -> by done. clear Hl.
    induction Hvs as [|a v l' vs' Hv _ IH]; [done|]. simpl. unfold holds in Hv. rewrite Hv.
    by rewrite IH.
  - by apply Forall2_fmap_l.
Qed.

(** An object is parsed to its members, in order. *)
Lemma object_parses d kPs xs rest fuel :
  Forall2 (member_reads d) kPs xs → (2 * length (123%Z :: join xs ++ 125%Z :: rest) + 1 ≤ fuel)%nat →
  ∃ vs, parse_value fuel (S d) (123 :: join xs ++ 125 :: rest) = Some (VObject vs, rest) ∧ Forall2 is_member kPs vs.
Proof.
  intros Hl Hf. cbn [length] in Hf. destruct fuel as [|fuel]; [lia|]. cbn [parse_value]. rewrite skip_ws_starts by done.
  change (123 =? 91) with false. change (123 =? 123) with true. cbn iota. destruct kPs as [|kP kPs].
  - apply Forall2_nil_inv_l in Hl as ->. by exists [].
  - destruct (members_read d (kP :: kPs) xs rest fuel Hl) as (vs & Hvs & Hall); [done|lia|].
    apply Forall2_cons_inv_l in Hl as (x & xs' & Hx & _ & ->). rewrite join_cons in *.
    assert (∃ t', (match xs' with [] => x | _ => x ++ 44 :: join xs' end) ++ 125 :: rest = 34 :: t') as (t' & Ht').
    { destruct Hx as (_ & y & -> & _). unfold member, appendString. destruct xs'; by eexists. }
    rewrite Ht' in *. rewrite skip_ws_starts by done. change (34 =? 125) with false. cbn iota. rewrite Hvs.
    by exists vs.
Qed.

Lemma object_reads_as d kPs xs :
  Forall2 (member_reads d) kPs xs →
  reads_as (S d) (λ v, ∃ vs, v = VObject vs ∧ Forall2 is_member kPs vs) (123 :: join xs ++ [125]).
Proof.
  intros Hl. split; [by eexists _, _|]. intros rest fuel _ Hf. cbn [app] in *. rewrite <- app_assoc in *. cbn [app] in *.
  destruct (object_parses d kPs xs rest fuel Hl Hf) as (vs & Hvs & Hall). eauto.
Qed.

Definition spec_of (kv : string * any) : member_spec := (kv.1, λ v, to_any v = Some kv.2).

Lemma is_member_entries kvs vs : Forall2 is_member (spec_of <$> kvs) vs → all_some (map to_entry vs) = Some kvs.
Proof.
  revert vs. induction kvs as [|[k a] kvs IH]; intros vs; simpl; [by intros ->%Forall2_nil_inv_l|].
  intros ([k' v] & vs' & [Hk Hv] & Hl & ->)%Forall2_cons_inv_l. simpl in *.
  by rewrite Hk, Hv, (IH vs' Hl).
Qed.

(** The members of a map whose values can be encoded. *)
Lemma members_encode d kvs :
  Forall (λ kv, utf8.valid_string kv.1 ∧ ∃ x, encode kv.2 = Some x ∧ reads d kv.2 x) kvs →
  ∃ xs, all_some (map (λ '(k, v), member k <$> encode v) kvs) = Some xs ∧
    Forall2 (member_reads d) (spec_of <$> kvs) xs.
Proof.
  intros Hl. induction Hl as [|[k v] kvs (Hk & x & Hx & Hrx) _ (xs & Hxs & Hall)]; [by exists []|].
  simpl in *. rewrite Hx. simpl. rewrite Hxs. exists (member k x :: xs). split; [done|].
  constructor; [|done]. split; [done|]. by exists x.
Qed.

(** Every value that the decoder can produce is encoded, and the text reads back
    as that value. *)
Lemma encode_reads a d : any_ok a → (depth a ≤ d)%nat → ∃ txt, encode a = Some txt ∧ reads d a txt.
Proof.
  revert d. induction a as [|b|f|s|l IH|kvs IH] using any_ind'; intros d Hok Hd; try by apply encode_scalar_reads.
  - cbn [depth] in Hd. destruct d as [|d]; [lia|]. apply le_S_n, fold_max_Forall in Hd.
    cbn [any_ok] in Hok. apply fold_and_Forall in Hok.
    assert (∃ xs, all_some (map encode l) = Some xs ∧ Forall2 (reads d) l xs) as (xs & Hxs & Hl).
    { clear -IH Hok Hd. induction l as [|a l IHl]; [by exists []|].
      apply Forall_cons in IH as [IH1 IH2], Hok as [Hok1 Hok2], Hd as [Hd1 Hd2].
      destruct (IH1 d Hok1 Hd1) as (x & Hx & Hr), (IHl IH2 Hok2 Hd2) as (xs & Hxs & Hl).
      exists (x :: xs). simpl. rewrite Hx. simpl. rewrite Hxs. split; [done|by constructor]. }
    eexists. split; [simpl; by rewrite Hxs|]. by apply array_reads.
  - cbn [depth] in Hd. destruct d as [|d]; [lia|]. apply le_S_n, fold_max_Forall in Hd.
    cbn [any_ok] in Hok. destruct Hok as [Hs Hok%fold_and_Forall].
    destruct (members_encode d kvs) as (xs & Hxs & Hl).
    { apply Forall_forall. intros kv Hkv. rewrite Forall_forall in IH, Hok, Hd.
      destruct (Hok kv Hkv) as [Hk Hv]. split; [done|]. apply IH; [done|done|]. by apply Hd. }
    eexists. split; [cbn [encode]; by rewrite Hxs|]. eapply reads_as_impl; [|by apply object_reads_as].
    intros v (vs & -> & Hvs%is_member_entries). cbn [to_any].
    change (map (λ '(k, v), k ← unquote_string k; x ← to_any v; Some (k, x)) vs) with (map to_entry vs).
    rewrite Hvs. simpl. by rewrite set_keys_sorted.
Qed.

(** ** What is decoded can be encoded *)

Fixpoint value_ok (v : value) : Prop :=
  match v with
  | VNull | VBool _ => True
  | VNumber nb => decimal.number_ok nb
  | VString raw => Forall utf8.is_byte raw
  | VArray vs => fold_right (λ x, and (value_ok x)) True vs
  | VObject kvs => fold_right (λ kv, and (Forall utf8.is_byte kv.1 ∧ value_ok kv.2)) True kvs
  end.

Fixpoint vdepth (v : value) : nat :=
  match v with
  | VArray vs => S (fold_right (λ x, Nat.max (vdepth x)) 0%nat vs)
  | VObject kvs => S (fold_right (λ kv, Nat.max (vdepth kv.2)) 0%nat kvs)
  | _ => 0%nat
  end.

Abbreviation all_bytes := (Forall utf8.is_byte).

Lemma skip_ws_bytes l : all_bytes l → all_bytes (skip_ws l).
Proof. intros Hl. induction Hl; simpl; [constructor|]. case_match; [done|by constructor]. Qed.

Lemma scan_number_suffix l nb rest : decimal.scan_number l = Some (nb, rest) → rest `suffix_of` l.
Proof.
  assert (∀ l ds rest, decimal.span_digits l = (ds, rest) → rest `suffix_of` l) as Hs.
  { intros l0 ds r ->%span_digits_split. by exists ds. }
  assert (∀ l ip rest, decimal.scan_int l = Some (ip, rest) → rest `suffix_of` l) as Hi.
  { intros [|c l1] ip r; [done|]. unfold decimal.scan_int. repeat case_match; try done.
    - intros [= _ <-]. by apply suffix_cons_r.
    - intros E%(inj Some). by eapply Hs. }
  assert (∀ l fp rest, decimal.scan_frac l = Some (fp, rest) → rest `suffix_of` l) as Hf.
  { intros [|c l1] fp r; simpl; [by intros [= _ <-]|]. destruct (c =? 46); [|by intros [= _ <-]].
    destruct (decimal.span_digits l1) as [[|d ds] r1] eqn:E; [done|]. intros [= _ <-].
    apply suffix_cons_r. by eapply Hs. }
  assert (∀ l ex rest, decimal.scan_exp l = Some (ex, rest) → rest `suffix_of` l) as He.
  { intros [|c l1] ex r; unfold decimal.scan_exp; [by intros [= _ <-]|]. destruct (_ || _); [|by intros [= _ <-]].
    destruct (match l1 with [] => _ | _ => _ end) as [sg l2] eqn:E2.
    assert (l2 `suffix_of` l1) by (repeat case_match; simplify_eq/=; try done; by apply suffix_cons_r).
    destruct (decimal.span_digits l2) as [[|d ds] r1] eqn:E; [done|]. intros [= _ <-].
    apply suffix_cons_r. etrans; [by eapply Hs|done]. }
  assert (∀ neg l nb rest, decimal.scan_unsigned neg l = Some (nb, rest) → rest `suffix_of` l) as Hu.
  { intros neg l0 nb0 r0. unfold decimal.scan_unsigned. destruct (decimal.scan_int l0) as [[ip l1]|] eqn:E1; [|done].
    simpl. destruct (decimal.scan_frac l1) as [[fp l2]|] eqn:E2; [|done]. simpl.
    destruct (decimal.scan_exp l2) as [[ex l3]|] eqn:E3; [|done]. intros [= _ <-].
    apply Hi in E1. apply Hf in E2. apply He in E3. by do 2 (etrans; [done|]). }
  destruct l as [|c l]; [done|]. simpl. destruct (c =? 45); intros H; apply Hu in H; [by apply suffix_cons_r|done].
Qed.

Lemma suffix_bytes l l' : l' `suffix_of` l → all_bytes l → all_bytes l'.
Proof. intros [p ->] Hl. by apply Forall_app in Hl as [_ ?]. Qed.

Lemma strip_prefix_suffix p l rest : strip_prefix p l = Some rest → rest `suffix_of` l.
Proof.
  revert l. induction p as [|a p IH]; intros l; simpl; [by intros [= <-]|].
  destruct l as [|b l]; [done|]. case_match; [|done]. intros Hs%IH. by apply suffix_cons_r.
Qed.

Lemma scan_string_bytes l raw rest : all_bytes l → scan_string l = Some (raw, rest) → all_bytes raw ∧ all_bytes rest.
Proof.
  intros Hl ->%scan_string_split. apply Forall_app in Hl as [? Hl]. by apply Forall_cons in Hl as [_ ?].
Qed.

Lemma parse_scalar_ok l v rest :
  all_bytes l → parse_scalar l = Some (v, rest) → value_ok v ∧ vdepth v = 0%nat ∧ all_bytes rest.
Proof.
  intros Hl. destruct l as [|c l]; [done|]. unfold parse_scalar.
  destruct (c =? 34).
  { destruct (scan_string l) as [[raw r]|] eqn:H; [|done]. intros [= <- <-].
    apply Forall_cons in Hl as [_ Hl]. by destruct (scan_string_bytes _ _ _ Hl H). }
  do 3 (case_match; [destruct (strip_prefix _ _) as [r|] eqn:H'; [|done]; intros [= <- <-];
    apply strip_prefix_suffix in H'; split_and!; [done..|by eapply suffix_bytes]|]).
  destruct (decimal.scan_number (c :: l)) as [[nb r]|] eqn:H'; [|done]. intros [= <- <-]. split_and!; [|done|].
  - by eapply decimal.scan_number_ok.
  - by eapply suffix_bytes; [eapply scan_number_suffix|].
Qed.

Lemma parse_ok fuel :
  (∀ d l v rest, all_bytes l → parse_value fuel d l = Some (v, rest) →
     value_ok v ∧ (vdepth v ≤ d)%nat ∧ all_bytes rest) ∧
  (∀ d l vs rest, all_bytes l → parse_elements fuel d l = Some (vs, rest) →
     Forall (λ v, value_ok v ∧ (vdepth v ≤ d)%nat) vs ∧ all_bytes rest) ∧
  (∀ d l kvs rest, all_bytes l → parse_members fuel d l = Some (kvs, rest) →
     Forall (λ kv, all_bytes kv.1 ∧ value_ok kv.2 ∧ (vdepth kv.2 ≤ d)%nat) kvs ∧ all_bytes rest).
Proof.
  induction fuel as [|fuel (IHv & IHe & IHm)]; [done|]. split_and!; intros d l.
  - intros v rest Hl%skip_ws_bytes. cbn [parse_value]. destruct (skip_ws l) as [|c l1]; [done|].
    pose proof Hl as Hl1. apply Forall_cons in Hl1 as [_ Hl1]. pose proof (skip_ws_bytes l1 Hl1) as Hsk.
    destruct (c =? 91); [|destruct (c =? 123)].
    + destruct d as [|d]; [done|]. destruct (skip_ws l1) as [|c1 l2]; [done|]. apply Forall_cons in Hsk as [_ Hl2].
      destruct (c1 =? 93); [intros [= <- <-]; simpl; split_and!; done || lia|].
      destruct (parse_elements fuel d l1) as [[vs r]|] eqn:E; [|done]. intros [= <- <-].
      destruct (IHe _ _ _ _ Hl1 E) as [Hvs Hr]. apply Forall_and in Hvs as [Hok Hd]. split_and!; [| |done].
      * simpl. by apply fold_and_Forall.
      * simpl. apply le_n_S. by apply fold_max_Forall.
    + destruct d as [|d]; [done|]. destruct (skip_ws l1) as [|c1 l2]; [done|]. apply Forall_cons in Hsk as [_ Hl2].
      destruct (c1 =? 125); [intros [= <- <-]; simpl; split_and!; done || lia|].
      destruct (parse_members fuel d l1) as [[kvs r]|] eqn:E; [|done]. intros [= <- <-].
      destruct (IHm _ _ _ _ Hl1 E) as [Hvs Hr]. split_and!; [| |done].
      * simpl. apply fold_and_Forall. eapply Forall_impl; [exact Hvs|]. by intros kv (? & ? & _).
      * simpl. apply le_n_S, fold_max_Forall. eapply Forall_impl; [exact Hvs|]. by intros kv (_ & _ & ?).
    + intros Hs. apply parse_scalar_ok in Hs as (? & -> & ?); [|done]. split_and!; done || lia.
  - intros vs rest Hl. cbn [parse_elements]. destruct (parse_value fuel d l) as [[v l1]|] eqn:E; [|done]. simpl.
    destruct (IHv _ _ _ _ Hl E) as (Hv & Hd & Hl1%skip_ws_bytes). destruct (skip_ws l1) as [|c l2]; [done|].
    apply Forall_cons in Hl1 as [_ Hl2].
    destruct (c =? 44); [|destruct (c =? 93); [intros [= <- <-]; split; [by repeat constructor|done]|done]].
    destruct (parse_elements fuel d l2) as [[vs' r]|] eqn:E2; [|done]. intros [= <- <-].
    destruct (IHe _ _ _ _ Hl2 E2). split; [by constructor|done].
  - intros kvs rest Hl%skip_ws_bytes. cbn [parse_members]. destruct (skip_ws l) as [|q l0]; [done|].
    apply Forall_cons in Hl as [_ Hl0].
    destruct (negb (q =? 34)); [done|]. destruct (scan_string l0) as [[k l1]|] eqn:Hk; [|done]. simpl.
    destruct (scan_string_bytes _ _ _ Hl0 Hk) as [Hkb Hl1%skip_ws_bytes]. destruct (skip_ws l1) as [|c1 l2]; [done|].
    apply Forall_cons in Hl1 as [_ Hl2].
    destruct (negb (c1 =? 58)); [done|]. destruct (parse_value fuel d l2) as [[v l3]|] eqn:E; [|done]. simpl.
    destruct (IHv _ _ _ _ Hl2 E) as (Hv & Hd & Hl3%skip_ws_bytes). destruct (skip_ws l3) as [|c l4]; [done|].
    apply Forall_cons in Hl3 as [_ Hl4].
    destruct (c =? 44); [|destruct (c =? 125); [intros [= <- <-]; split; [by repeat constructor|done]|done]].
    destruct (parse_members fuel d l4) as [[kvs' r]|] eqn:E2; [|done]. intros [= <- <-].
    destruct (IHm _ _ _ _ Hl4 E2). split; [by constructor|done].
Qed.

Lemma unquote_string_valid raw s : all_bytes raw → unquote_string raw = Some s → utf8.valid_string s.
Proof.
  intros Hr. unfold unquote_string, unquoteBytes. destruct (utf8.unquote _ raw) as [l|] eqn:H; [|done]. intros [= <-].
  apply utf8.unquote_valid in H; [|done]. unfold utf8.valid_string.
  by rewrite utf8.bytes_text by (by apply utf8.valid_bytes).
Qed.

Lemma set_key_elem {A} k (v : A) m e : e ∈ set_key k v m → e = (k, v) ∨ e ∈ m.
Proof.
  induction m as [|[k' v'] m IH]; simpl; [rewrite list_elem_of_singleton; by left|].
  repeat case_decide; rewrite !elem_of_cons; [tauto|tauto|]. intros [->|[->|?]%IH]; tauto.
Qed.

Lemma set_key_sorted {A} k (v : A) m : StronglySorted before m → StronglySorted before (set_key k v m).
Proof.
  intros Hm. induction Hm as [|[k' v'] m Hm IH Hall]; simpl; [repeat constructor|].
  rewrite Forall_forall in Hall. case_decide as Heq; [subst k'|case_decide as Hle].
  - constructor; [done|]. rewrite Forall_forall. exact Hall.
  - constructor; [constructor; [done|by apply Forall_forall]|]. apply Forall_cons. split; [done|].
    apply Forall_forall. intros e He. destruct (Hall e He) as [H1 H2]. simpl in *. split; simpl.
    + by trans k'.
    + intros E. rewrite E in *. apply H2. by apply (anti_symm String.le).
  - constructor; [done|]. apply Forall_forall. intros e [->|He]%set_key_elem; [|by apply Hall].
    split; simpl; [|done]. by destruct (total String.le k k').
Qed.

Lemma set_keys_elem {A} (es : list (string * A)) m e :
  e ∈ foldl (λ m '(k, x), set_key k x m) m es → e ∈ m ∨ e ∈ es.
Proof.
  revert m. induction es as [|[k x] es IH]; intros m; simpl; [by left|].
  intros [H|H]%IH; [|right; by right]. apply set_key_elem in H as [->|H]; [right; left|by left].
Qed.

Lemma set_keys_keep_sorted {A} (es : list (string * A)) m :
  StronglySorted before m → StronglySorted before (foldl (λ m '(k, x), set_key k x m) m es).
Proof. revert m. induction es as [|[k x] es IH]; intros m Hm; simpl; [done|]. by apply IH, set_key_sorted. Qed.

Lemma value_ind' (P : value → Prop) :
  P VNull → (∀ b, P (VBool b)) → (∀ n, P (VNumber n)) → (∀ s, P (VString s)) →
  (∀ l, Forall P l → P (VArray l)) → (∀ kvs, Forall (λ kv, P kv.2) kvs → P (VObject kvs)) →
  ∀ v, P v.
Proof.
  intros Hn Hb Hf Hs Ha Ho. fix IH 1. intros [| | | |l|kvs]; [done|apply Hb|apply Hf|apply Hs| |].
  - apply Ha. induction l as [|x l IHl]; constructor; [apply IH|exact IHl].
  - apply Ho. induction kvs as [|[k x] kvs IHl]; constructor; [apply IH|exact IHl].
Qed.

(** One entry of a decoded object. *)
Lemma to_entry_ok n kv e :
  (value_ok kv.2 → (vdepth kv.2 ≤ n)%nat → ∀ a, to_any kv.2 = Some a → any_ok a ∧ (depth a ≤ n)%nat) →
  all_bytes kv.1 → value_ok kv.2 → (vdepth kv.2 ≤ n)%nat → to_entry kv = Some e →
  utf8.valid_string e.1 ∧ any_ok e.2 ∧ (depth e.2 ≤ n)%nat.
Proof.
  intros IH Hk Hv Hd. destruct kv as [k v]. unfold to_entry. simpl in *.
  destruct (unquote_string k) as [s|] eqn:Hs; [|done]. simpl. destruct (to_any v) as [a|] eqn:Ha; [|done].
  intros [= <-]. split; [by eapply unquote_string_valid|]. by apply IH.
Qed.

Lemma to_any_ok v n : value_ok v → (vdepth v ≤ n)%nat → ∀ a, to_any v = Some a → any_ok a ∧ (depth a ≤ n)%nat.
Proof.
  revert n. induction v as [|b|nb|raw|vs IH|kvs IH] using value_ind'; intros n Hok Hd a.
  - intros [= <-]. split; [done|simpl; lia].
  - intros [= <-]. split; [done|simpl; lia].
  - simpl. destruct (decimal.ParseFloat nb) as [f|] eqn:Hf; [|done]. intros [= <-].
    split; [by eapply decimal.ParseFloat_finite|simpl; lia].
  - simpl. destruct (unquote_string raw) as [s|] eqn:Hs; [|done]. intros [= <-].
    split; [by eapply unquote_string_valid|simpl; lia].
  - cbn [to_any vdepth value_ok] in *. destruct (all_some (map to_any vs)) as [l|] eqn:Hall; [|done]. intros [= <-].
    destruct n as [|n]; [lia|]. apply le_S_n, fold_max_Forall in Hd. apply fold_and_Forall in Hok.
    apply all_some_map in Hall.
    assert (Forall (λ a, any_ok a ∧ (depth a ≤ n)%nat) l) as [H1 H2]%Forall_and.
    { clear -Hall IH Hd Hok. induction Hall as [|v a vs l Ha _ IHl]; [constructor|].
      apply Forall_cons in IH as [IH1 IH2], Hd as [Hd1 Hd2], Hok as [Hok1 Hok2]. constructor; [by apply IH1|auto]. }
    simpl. split; [by apply fold_and_Forall|apply le_n_S; by apply fold_max_Forall].
  - cbn [to_any vdepth value_ok] in *.
    change (map (λ '(k, v), k ← unquote_string k; x ← to_any v; Some (k, x)) kvs) with (map to_entry kvs).
    destruct (all_some (map to_entry kvs)) as [es|] eqn:Hall; [|done]. intros [= <-].
    destruct n as [|n]; [lia|]. apply le_S_n, fold_max_Forall in Hd. apply fold_and_Forall in Hok.
    apply all_some_map in Hall.
    assert (Forall (λ e, utf8.valid_string e.1 ∧ any_ok e.2 ∧ (depth e.2 ≤ n)%nat) es) as Hes.
    { clear -Hall IH Hd Hok. induction Hall as [|kv e kvs es He _ IHl]; [constructor|].
      apply Forall_cons in IH as [IH1 IH2], Hd as [Hd1 Hd2], Hok as [[Hk Hv] Hok2]. constructor; [|auto].
      exact (to_entry_ok n kv e (IH1 n) Hk Hv Hd1 He). }
    rewrite Forall_forall in Hes. cbn [any_ok depth]. split; [split|].
    + apply set_keys_keep_sorted. constructor.
    + apply fold_and_Forall, Forall_forall. intros e [He|He]%set_keys_elem; [by apply not_elem_of_nil in He|].
      by destruct (Hes e He) as (? & ? & _).
    + apply le_n_S, fold_max_Forall, Forall_forall.
      intros e [He|He]%set_keys_elem; [by apply not_elem_of_nil in He|]. by destruct (Hes e He) as (_ & _ & ?).
Qed.

Lemma join_bytes xs : Forall all_bytes xs → all_bytes (join xs).
Proof.
  intros H. induction H as [|x xs Hx Hxs IH]; [by apply Forall_nil|]. rewrite join_cons.
  destruct xs; [done|]. apply Forall_app. split; [done|]. by apply Forall_cons.
Qed.

Lemma member_bytes k x : all_bytes x → all_bytes (member k x).
Proof.
  intros Hx. apply Forall_app. split; [apply utf8.appendString_bytes, utf8.bytes_range|by apply Forall_cons].
Qed.

Lemma encode_bytes a txt : any_ok a → encode a = Some txt → all_bytes txt.
Proof.
  assert (∀ c xs c', utf8.is_byte c → Forall all_bytes xs → utf8.is_byte c' → all_bytes (c :: join xs ++ [c'])) as Hj.
  { intros c xs c' Hc Hxs Hc'. apply Forall_cons. split; [done|]. apply Forall_app. split; [by apply join_bytes|].
    by apply Forall_singleton. }
  revert txt. induction a as [|b|f|s|l IH|kvs IH] using any_ind'; intros txt Hok; cbn [encode any_ok] in *.
  - intros [= <-]. apply utf8.bytes_range.
  - intros [= <-]. apply utf8.bytes_range.
  - by apply decimal.appendFloat_bytes.
  - intros [= <-]. apply utf8.appendString_bytes, utf8.bytes_range.
  - destruct (all_some (map encode l)) as [xs|] eqn:Hxs; [|done]. intros [= <-]. apply Hj; [done| |done].
    apply all_some_map in Hxs. apply fold_and_Forall in Hok. clear Hj.
    induction Hxs as [|a x l xs Hx _ IHl]; [by apply Forall_nil|].
    apply Forall_cons in IH as [IH1 IH2], Hok as [Hok1 Hok2]. constructor; auto.
  - destruct (all_some (map _ kvs)) as [xs|] eqn:Hxs; [|done]. intros [= <-]. apply Hj; [done| |done].
    apply all_some_map in Hxs. destruct Hok as [_ Hok%fold_and_Forall]. clear Hj.
    induction Hxs as [|[k a] x kvs xs Hx _ IHl]; [by apply Forall_nil|].
    apply Forall_cons in IH as [IH1 IH2], Hok as [[_ Hok1] Hok2]. constructor; [|auto].
    simpl in *. destruct (encode a) as [y|] eqn:Hy; [|done]. injection Hx as <-. apply member_bytes. by apply IH1.
Qed.

End json.
