(* ===== verification/StoreSpec.v ===== *)
(** * What the store promises

    [represents L t] relates the tables to the log [L] of the events delivered
    in committed batches: one row per [event_id], rollups equal to the counts
    of those rows, sketches equal to the sketches of the distinct ids.
    [InsertBatch] refines "append the batch to the log". *)

From S2P Require Import Prelude Float64 Hll Clock Store.
From stdpp Require Import prelude gmap strings list sorting.
From Stdlib Require Import ZArith Lia Ascii.
Open Scope Z_scope.

Module store_spec.
Import store.

(** ** Histograms *)

Section histogram.
Context {K : Type} `{Countable K}.
Implicit Types (l : list K) (g : gmap K Z).

Definition occurrences l (k : K) : Z := count (λ x, bool_decide (x = k)) l.

Lemma histogram_lookup l k :
  histogram l !! k = (if occurrences l k =? 0 then None else Some (occurrences l k)).
Proof.
  unfold occurrences. induction l as [|x l IH]; [done|]. simpl.
  pose proof (count_nonneg (λ y, bool_decide (y = k)) l).
  rewrite lookup_insert. case_decide as Hx.
  - subst. rewrite bool_decide_eq_true_2 by done. rewrite IH.
    destruct (Z.eqb_spec (count (λ y, bool_decide (y = k)) l) 0) as [E|E]; simpl.
    + rewrite E. done.
    + rewrite (proj2 (Z.eqb_neq _ _)) by lia. f_equal. lia.
  - rewrite bool_decide_eq_false_2 by done. by rewrite IH.
Qed.

Lemma histogram_perm l1 l2 : l1 ≡ₚ l2 → histogram l1 = histogram l2.
Proof.
  intros Hp. apply map_eq. intros k. rewrite !histogram_lookup. unfold occurrences.
  by rewrite (count_perm _ _ _ Hp).
Qed.

Lemma map_sum_insert_None P g k n :
  g !! k = None → map_sum P (<[k := n]> g) = (if P k then n else 0) + map_sum P g.
Proof.
  intros Hk. unfold map_sum. rewrite map_fold_insert_L; [by destruct (P k)| |done].
  intros j1 j2 z1 z2 y _ _ _. destruct (P j1), (P j2); lia.
Qed.

Lemma map_sum_insert P g k n :
  map_sum P (<[k := n]> g) = map_sum P g + (if P k then n - default 0 (g !! k) else 0).
Proof.
  destruct (g !! k) as [old|] eqn:Hk; simpl.
  - rewrite <- (insert_id g k old Hk) at 2. rewrite <- (insert_delete_eq g k n),
      <- (insert_delete_eq g k old), !map_sum_insert_None by apply lookup_delete_eq.
    destruct (P k); lia.
  - rewrite map_sum_insert_None by done. destruct (P k); lia.
Qed.

Lemma map_sum_histogram P l : map_sum P (histogram l) = count P l.
Proof.
  induction l as [|x l IH]; [by unfold map_sum; simpl; rewrite map_fold_empty|].
  simpl. rewrite map_sum_insert, IH. destruct (P x); lia.
Qed.
End histogram.

(** ** The statement *)

Section with_env.
Context {pg : Postgres} {js : Json}.

(** The rows of table [events], in no particular order. *)
Definition rows (t : gmap string events_row) : list events_row := map snd (map_to_list t).

Lemma rows_insert t id r : t !! id = None → rows (<[id := r]> t) ≡ₚ r :: rows t.
Proof. intros Hid. unfold rows. by rewrite map_to_list_insert. Qed.

Lemma length_rows t : length (rows t) = size t.
Proof. unfold rows. by rewrite length_map, length_map_to_list. Qed.

Lemma cte_inserted_rows rs ev ev' ret :
  cte_inserted rs ev = (ev', ret) → rows ev' ≡ₚ map row_of ret ++ rows ev.
Proof.
  revert ev ret. induction rs as [|r rs IH]; intros ev ret; simpl.
  { by intros [= <- <-]. }
  destruct (ev !! in_event_id r) eqn:Hr; [apply IH|].
  destruct (cte_inserted rs _) as [ev2 ret2] eqn:H2. intros [= <- <-].
  rewrite (IH _ _ H2), (rows_insert ev) by done. simpl.
  by rewrite Permutation_middle.
Qed.

(** First come, first kept: an id already present keeps its row, a new one
    takes the row of its first occurrence in the statement's order. *)
Lemma cte_inserted_lookup rs ev ev' ret id :
  cte_inserted rs ev = (ev', ret) →
  ev' !! id =
    match ev !! id with
    | Some r => Some r
    | None => row_of <$> head (filter (λ r, in_event_id r = id) rs)
    end.
Proof.
  revert ev ret. induction rs as [|r rs IH]; intros ev ret; simpl.
  { intros [= <- <-]. by destruct (ev !! id). }
  destruct (ev !! in_event_id r) as [old|] eqn:Hr.
  - intros Hc. rewrite (IH _ _ Hc). destruct (ev !! id) eqn:Hid; [done|].
    rewrite filter_cons_False; [done|congruence].
  - destruct (cte_inserted rs _) as [ev2 ret2] eqn:H2. intros [= <- <-].
    rewrite (IH _ _ H2), lookup_insert. case_decide as Heq.
    + subst. rewrite Hr. by rewrite filter_cons_True.
    + by rewrite filter_cons_False.
Qed.

(** The ids the statement reports as new are the fresh ones. *)
Lemma cte_inserted_length rs ev ev' ret :
  cte_inserted rs ev = (ev', ret) → Z.of_nat (length ret) = Z.of_nat (size ev') - Z.of_nat (size ev).
Proof.
  intros H. pose proof (cte_inserted_rows _ _ _ _ H) as Hp%Permutation_length.
  rewrite length_app, length_map, !length_rows in Hp. lia.
Qed.

Lemma cte_rolled_spec groups t t' :
  NoDup (map fst groups) → cte_rolled groups t = Ok t' →
  ∀ k, t' !! k = match (list_to_map groups : gmap _ Z) !! k with
                 | Some n => Some (default 0 (t !! k) + n)
                 | None => t !! k
                 end.
Proof.
  revert t. induction groups as [|[k0 n0] gs IH]; intros t Hnd; simpl.
  { intros [= <-] k. done. }
  apply NoDup_cons in Hnd as [Hnin Hnd]. intros Hc k.
  assert (cte_rolled gs (<[k0 := default 0 (t !! k0) + n0]> t) = Ok t') as Hgs.
  { revert Hc. destruct (t !! k0) as [old|]; simpl; [by case_match|done]. }
  rewrite (IH _ Hnd Hgs k), !lookup_insert. case_decide as Hk; [subst|done].
  rewrite not_elem_of_list_to_map_1; [done|].
  done.
Qed.

Lemma cte_rolled_total groups t :
  NoDup (map fst groups) →
  (∀ k n, (k, n) ∈ groups → default 0 (t !! k) + n ≤ int64_max) →
  ∃ t', cte_rolled groups t = Ok t'.
Proof.
  revert t. induction groups as [|[k0 n0] gs IH]; intros t Hnd Hle; simpl; [eauto|].
  apply NoDup_cons in Hnd as [Hnin Hnd].
  assert (∀ v, ∃ t', cte_rolled gs (<[k0 := v]> t) = Ok t') as Hgs.
  { intros v. apply IH; [done|]. intros k n Hin. rewrite lookup_insert_ne.
    - apply Hle. by right.
    - intros ->. apply Hnin. apply list_elem_of_fmap. by exists (k, n). }
  pose proof (Hle k0 n0 ltac:(left)) as Hle0. destruct (t !! k0) as [old|]; [|apply Hgs].
  rewrite (proj2 (Z.ltb_ge _ _)) by done. apply Hgs.
Qed.

(** The rollup table agrees with the raw events. *)
Definition rollup_inv (t : tables) : Prop :=
  event_counts_minute t = histogram (map bucket (rows (events t))).

(** The groups the statement upserts are those of the inserted rows. *)
Lemma groups_spec (l : list (string * Z)) :
  let groups := order_by_bucket (map_to_list (histogram l)) in
  NoDup (map fst groups) ∧ (list_to_map groups : gmap _ Z) = histogram l.
Proof.
  cbv zeta. pose proof (order_by_bucket_perm (map_to_list (histogram l))) as Hp.
  pose proof (NoDup_fst_map_to_list (histogram l)) as Hnd. split.
  - by rewrite Hp.
  - rewrite <- (list_to_map_to_list (histogram l)) at 2.
    symmetry. apply list_to_map_proper; [done|]. by symmetry.
Qed.

Lemma insertBatchSQL_inv rs t n t' :
  insertBatchSQL rs t = Ok (n, t') →
  ∃ ret, cte_inserted (order_by_event_id rs) (events t) = (events t', ret) ∧
    n = Z.of_nat (length ret) ∧
    event_uniques_day t' = event_uniques_day t ∧
    cte_rolled (order_by_bucket (map_to_list (histogram (map (bucket ∘ row_of) ret))))
      (event_counts_minute t) = Ok (event_counts_minute t').
Proof.
  unfold insertBatchSQL. do 2 (case_match; [done|]).
  destruct (cte_inserted _ _) as [ev ret]. case_match eqn:Hr; [|done].
  intros [= <- <-]. by exists ret.
Qed.

Lemma insertBatchSQL_rollup rs t n t' :
  rollup_inv t → insertBatchSQL rs t = Ok (n, t') → rollup_inv t'.
Proof.
  unfold rollup_inv. intros Hinv (ret & Hins & _ & _ & Hroll)%insertBatchSQL_inv.
  destruct (groups_spec (map (bucket ∘ row_of) ret)) as [Hnd Hmap].
  rewrite (histogram_perm _ (map bucket (map row_of ret ++ rows (events t)))).
  2: { apply Permutation_map. by apply cte_inserted_rows with (1 := Hins). }
  apply map_eq. intros k. rewrite (cte_rolled_spec _ _ _ Hnd Hroll k), Hmap, Hinv.
  rewrite map_app, map_map, !histogram_lookup. unfold occurrences.
  rewrite count_app.
  pose proof (count_nonneg (λ x, bool_decide (x = k)) (map (bucket ∘ row_of) ret)).
  pose proof (count_nonneg (λ x, bool_decide (x = k)) (map bucket (rows (events t)))).
  set (a := count _ (map (bucket ∘ row_of) ret)) in *.
  change (count _ (map (λ x, bucket (row_of x)) ret)) with a.
  set (b := count _ (map bucket _)) in *.
  destruct (Z.eqb_spec a 0) as [->|], (Z.eqb_spec b 0) as [Hb|]; simpl;
    rewrite ?Hb, ?Z.add_0_r, ?Z.add_0_l; try done;
    rewrite ?(proj2 (Z.eqb_neq _ _)) by lia; f_equal; lia.
Qed.

Lemma count_rows_le_size P ev : count P (map bucket (rows ev)) ≤ Z.of_nat (size ev).
Proof.
  etrans; [apply count_le_length|]. by rewrite length_map, length_rows.
Qed.

(** Without overflow in sight the statement succeeds. *)
Lemma insertBatchSQL_total rs t :
  rollup_inv t →
  forallb valid_text rs = true → forallb (λ r, jsonb_ok (in_properties r)) rs = true →
  Z.of_nat (size (events t)) + Z.of_nat (length rs) ≤ int64_max →
  ∃ n t', insertBatchSQL rs t = Ok (n, t').
Proof.
  intros Hinv Ht Hj Hsize. unfold insertBatchSQL. rewrite Ht, Hj. simpl.
  destruct (cte_inserted _ _) as [ev ret] eqn:Hins.
  destruct (groups_spec (map (bucket ∘ row_of) ret)) as [Hnd _].
  assert (length ret ≤ length rs)%nat as Hret.
  { revert Hins. rewrite <- (order_by_event_id_perm rs) at 2.
    generalize (order_by_event_id rs) as l, (events t) as ev0. clear.
    intros l. revert ev ret. induction l as [|r l IH]; intros ev ret ev0; simpl.
    { intros [= <- <-]. done. }
    case_match; [intros Hi%IH; lia|].
    destruct (cte_inserted l _) as [ev2 ret2] eqn:H2. intros [= <- <-].
    apply IH in H2. simpl. lia. }
  destruct (cte_rolled_total _ (event_counts_minute t) Hnd) as [counts Hc].
  - intros k n Hin. rewrite order_by_bucket_perm in Hin.
    apply elem_of_map_to_list in Hin. rewrite histogram_lookup in Hin.
    case_match; simplify_eq/=. rewrite Hinv, histogram_lookup.
    pose proof (count_le_length (λ x, bool_decide (x = k)) (map (bucket ∘ row_of) ret)) as H1.
    pose proof (count_rows_le_size (λ x, bool_decide (x = k)) (events t)) as H2.
    rewrite length_map in H1. unfold occurrences. case_match; simpl; lia.
  - rewrite Hc. eauto.
Qed.

(** ** The sketches *)

(** The distinct ids a list of events contributes to the sketch of
    [(name, day)]. *)
Definition in_group (k : string * Z) (e : Event) : Prop :=
  DistinctID e ≠ "" ∧ Name e = k.1 ∧ clock.utc_day (TS e) = k.2.
#[global] Instance in_group_dec k e : Decision (in_group k e).
Proof. unfold in_group. apply _. Defined.

Definition ids_of (L : list Event) (k : string * Z) : list string :=
  map DistinctID (filter (in_group k) L).

Lemma ids_of_app L1 L2 k : ids_of (L1 ++ L2) k = ids_of L1 k ++ ids_of L2 k.
Proof. unfold ids_of. by rewrite filter_app, map_app. Qed.

Lemma elem_of_ids_of L k id :
  id ∈ ids_of L k ↔ ∃ e, e ∈ L ∧ in_group k e ∧ DistinctID e = id.
Proof.
  unfold ids_of. rewrite list_elem_of_fmap. setoid_rewrite list_elem_of_filter.
  split; [intros (e & -> & ? & ?)|intros (e & ? & ? & <-)]; exists e; tauto.
Qed.

(** Days are written without ambiguity. *)
Definition years_ok (evs : list Event) : Prop :=
  ∀ e, e ∈ evs → clock.year_ok (TS e) = true.

Lemma format_day_utc_day t1 t2 :
  clock.utc_day t1 = clock.utc_day t2 → clock.format_day t1 = clock.format_day t2.
Proof. unfold clock.format_day. by intros ->. Qed.

(** *** The grouping loop *)

Definition in_text_group (k : uniqueKey) (e : Event) : Prop :=
  DistinctID e ≠ "" ∧ Name e = k.1 ∧ clock.format_day (TS e) = k.2.
#[global] Instance in_text_group_dec k e : Decision (in_text_group k e).
Proof. unfold in_text_group. apply _. Defined.

Definition some_if_any {A} (l : list A) : option (list A) :=
  match l with [] => None | _ => Some l end.

Lemma group_fold_lookup evs g k :
  fold_left group_step evs g !! k =
    match map DistinctID (filter (in_text_group k) evs) with
    | [] => g !! k
    | ids => Some (default [] (g !! k) ++ ids)
    end.
Proof.
  revert g. induction evs as [|e evs IH]; intros g; [done|].
  cbn [fold_left]. rewrite IH. clear IH. unfold group_step.
  case_bool_decide as Hd.
  { rewrite filter_cons_False; [done|]. by intros [? _]. }
  rewrite lookup_insert. case_decide as Hk.
  - rewrite filter_cons_True by (subst; done). subst k. cbn [map].
    destruct (map DistinctID _); simpl; [done|].
    by rewrite <- app_assoc.
  - rewrite filter_cons_False; [done|].
    intros (_ & H1 & H2). apply Hk. destruct k; simpl in *; congruence.
Qed.

Lemma group_ids_lookup evs k :
  group_ids evs !! k = some_if_any (map DistinctID (filter (in_text_group k) evs)).
Proof.
  unfold group_ids. rewrite group_fold_lookup, lookup_empty. by case_match.
Qed.

(** In the years at hand a text key stands for exactly one day. *)
Lemma group_ids_day evs n ds ids :
  years_ok evs → group_ids evs !! (n, ds) = Some ids →
  ∃ d, clock.pg_date ds = Some d ∧ ids = ids_of evs (n, d) ∧ ids ≠ [].
Proof.
  intros Hy Hg. rewrite group_ids_lookup in Hg.
  destruct (filter (in_text_group (n, ds)) evs) as [|e fs] eqn:Hf; [done|].
  assert (e ∈ filter (in_text_group (n, ds)) evs) as He by (rewrite Hf; left).
  apply list_elem_of_filter in He as [(_ & Hn & Hds) He]; simpl in *.
  exists (clock.utc_day (TS e)).
  assert (∀ e', e' ∈ evs → in_text_group (n, ds) e' ↔ in_group (n, clock.utc_day (TS e)) e')
    as Hiff.
  { intros e' He'. unfold in_text_group, in_group; simpl.
    split; intros (? & ? & Hd); (split; [done|]); (split; [done|]).
    - pose proof (clock.pg_date_format (TS e') (Hy e' He')) as H1.
      pose proof (clock.pg_date_format (TS e) (Hy e He)) as H2. congruence.
    - rewrite <- Hds. by apply format_day_utc_day. }
  split; [|split].
  - rewrite <- Hds. apply clock.pg_date_format, Hy, He.
  - unfold ids_of. rewrite <- (list_filter_ext_in _ _ evs Hiff), Hf. simpl in *. congruence.
  - simpl in Hg. congruence.
Qed.

(** *** One key *)

(** Every stored sketch is the encoding of a well-formed one. *)
Definition uniques_wf (u : gmap (string * Z) (list Z)) : Prop :=
  ∀ k raw, u !! k = Some raw → ∃ sk, hll.wf sk ∧ raw = hll.Bytes sk.

(** The sketch a row holds; an absent row counts as the empty sketch. *)
Definition sketch_at (u : gmap (string * Z) (list Z)) (k : string * Z) : hll.Sketch :=
  match u !! k with None => hll.New | Some raw => hll.MkSketch (drop 2 raw) end.

Lemma sketch_at_Bytes u k sk :
  hll.wf sk → u !! k = Some (hll.Bytes sk) → sketch_at u k = sk.
Proof.
  intros [Hlen _] Hk. unfold sketch_at. rewrite Hk, hll.Bytes_spec by done.
  destruct sk. done.
Qed.

Lemma sketch_at_wf u k : uniques_wf u → hll.wf (sketch_at u k).
Proof.
  intros Hu. destruct (u !! k) as [raw|] eqn:Hk.
  - destruct (Hu k raw Hk) as (sk & Hsk & ->). by rewrite (sketch_at_Bytes u k sk).
  - unfold sketch_at. rewrite Hk. apply hll.New_wf.
Qed.

(** The row of [k] with the ids folded in. *)
Definition add_ids (u : gmap (string * Z) (list Z)) (k : string * Z) (ids : list string)
    : list Z :=
  hll.Bytes (foldl hll.add_spec (sketch_at u k) ids).

Lemma tx_exec_Ok {A} (stmt : tables → result error (A * tables)) t fs a s' :
  tx_exec stmt (t, fs) = (Ok a, s') → stmt t = Ok (a, s'.1).
Proof.
  unfold tx_exec. destruct (next fs) as [f fs']. destruct f; [|done..].
  destruct (stmt t) as [[a' t']|]; [|done]. by intros [= <- <-].
Qed.

(** Statements [ensure_row], [select_sketch] then [update_sketch], composed. *)
Lemma key_statements u k d ids t :
  event_uniques_day t = u → uniques_wf u → clock.pg_date k.2 = Some d →
  ∃ t1 raw sk,
    ensure_row k (hll.Bytes hll.New) t = Ok ((), t1) ∧
    select_sketch k t1 = Ok (raw, t1) ∧
    hll.FromBytes raw = Ok sk ∧
    hll.AddAll sk ids = Some (foldl hll.add_spec sk ids) ∧
    update_sketch k (hll.Bytes (foldl hll.add_spec sk ids)) t1
      = Ok ((), set_uniques t (<[(k.1, d) := add_ids u (k.1, d) ids]> u)).
Proof.
  intros Hu Hwf Hd. unfold ensure_row, select_sketch, update_sketch, add_ids.
  rewrite Hd, Hu. pose proof (sketch_at_wf u (k.1, d) Hwf) as Hsk.
  exists (set_uniques t (<[(k.1, d) := hll.Bytes (sketch_at u (k.1, d))]> u)),
    (hll.Bytes (sketch_at u (k.1, d))), (sketch_at u (k.1, d)).
  cbn [set_uniques event_uniques_day]. rewrite lookup_insert_eq.
  split; [|split; [done|split; [|split]]].
  - destruct (u !! (k.1, d)) as [raw|] eqn:Hk.
    + destruct (Hwf _ _ Hk) as (sk & Hsk' & ->). rewrite (sketch_at_Bytes u _ sk Hsk' Hk).
      rewrite insert_id by done. destruct t; simpl in *. by subst.
    + unfold sketch_at. by rewrite Hk.
  - apply hll.FromBytes_Ok. split; [apply Hsk|done].
  - by apply hll.AddAll_spec.
  - unfold set_uniques; simpl. by rewrite alter_insert_eq.
Qed.

Lemma update_key_Ok ids k t fs s' :
  uniques_wf (event_uniques_day t) →
  update_key ids k (t, fs) = (Ok (), s') →
  ∃ d, clock.pg_date k.2 = Some d ∧
    s'.1 = set_uniques t (<[(k.1, d) := add_ids (event_uniques_day t) (k.1, d) ids]>
                            (event_uniques_day t)).
Proof.
  intros Hwf. unfold update_key. unfold mbind at 1, tx_bind at 1.
  destruct (tx_exec _ (t, fs)) as [[[]|] [t1 fs1]] eqn:H1; [|done].
  apply tx_exec_Ok in H1; simpl in H1.
  unfold mbind at 1, tx_bind at 1.
  destruct (tx_exec _ (t1, fs1)) as [[raw|] [t2 fs2]] eqn:H2; [|done].
  apply tx_exec_Ok in H2; simpl in H2.
  destruct (clock.pg_date k.2) as [d|] eqn:Hd; [|unfold ensure_row in H1; by rewrite Hd in H1].
  destruct (key_statements _ k d ids t eq_refl Hwf Hd) as (t1' & raw' & sk & E1 & E2 & E3 & E4 & E5).
  rewrite E1 in H1. injection H1 as ->. rewrite E2 in H2. injection H2 as -> ->.
  rewrite E3, E4. intros H3. apply tx_exec_Ok in H3.
  exists d. split; [done|]. rewrite E5 in H3. congruence.
Qed.

Lemma update_key_total ids k d t :
  uniques_wf (event_uniques_day t) → clock.pg_date k.2 = Some d →
  ∃ t', update_key ids k (t, []) = (Ok (), (t', [])).
Proof.
  intros Hwf Hd.
  destruct (key_statements _ k d ids t eq_refl Hwf Hd) as (t1 & raw & sk & E1 & E2 & E3 & E4 & E5).
  eexists. unfold update_key, mbind, tx_bind, tx_exec; simpl.
  rewrite E1; simpl. rewrite E2; simpl. rewrite E3, E4; simpl. by rewrite E5.
Qed.

Lemma set_uniques_wf t k sk :
  hll.wf sk → uniques_wf (event_uniques_day t) →
  uniques_wf (event_uniques_day (set_uniques t (<[k := hll.Bytes sk]> (event_uniques_day t)))).
Proof.
  intros Hsk Hwf k' raw. simpl. rewrite lookup_insert. case_decide.
  - intros [= <-]. eauto.
  - apply Hwf.
Qed.

(** *** All keys *)

Lemma add_ids_insert_ne u k k' v ids :
  k' ≠ k → add_ids (<[k' := v]> u) k ids = add_ids u k ids.
Proof. intros Hne. unfold add_ids, sketch_at. by rewrite lookup_insert_ne. Qed.

(** The table row a text key addresses. *)
Definition row_key (k : uniqueKey) : string * option Z := (k.1, clock.pg_date k.2).

Record keys_updated (g : gmap uniqueKey (list string)) (ks : list uniqueKey)
    (t t' : tables) : Prop := {
  ku_events : events t' = events t;
  ku_counts : event_counts_minute t' = event_counts_minute t;
  ku_wf : uniques_wf (event_uniques_day t');
  ku_hit n ds d :
    (n, ds) ∈ ks → clock.pg_date ds = Some d →
    event_uniques_day t' !! (n, d) =
      Some (add_ids (event_uniques_day t) (n, d) (default [] (g !! (n, ds))));
  ku_miss n d :
    (∀ ds, (n, ds) ∈ ks → clock.pg_date ds ≠ Some d) →
    event_uniques_day t' !! (n, d) = event_uniques_day t !! (n, d);
}.

Lemma keys_updated_cons g k ks d t t' :
  let u := event_uniques_day t in
  row_key k ∉ map row_key ks → clock.pg_date k.2 = Some d →
  keys_updated g ks (set_uniques t (<[(k.1, d) := add_ids u (k.1, d) (default [] (g !! k))]> u)) t' →
  keys_updated g (k :: ks) t t'.
Proof.
  intros u Hnin Hd [He Hc Hwf Hhit Hmiss]. simpl in *.
  assert (∀ ds', (k.1, ds') ∈ ks → clock.pg_date ds' ≠ Some d) as Hfresh.
  { intros ds' Hin Hd'. apply Hnin. apply list_elem_of_fmap. exists (k.1, ds').
    unfold row_key; simpl. split; [congruence|done]. }
  split; [done..| |].
  - intros n ds d' [Heq|Hin]%elem_of_cons Hd'.
    + subst k; simpl in *. assert (d' = d) as -> by congruence.
      rewrite Hmiss by done. by rewrite lookup_insert_eq.
    + rewrite (Hhit n ds d') by done. f_equal. apply add_ids_insert_ne.
      intros [= <- <-]. by apply (Hfresh ds).
  - intros n d' Hnone. rewrite Hmiss.
    + rewrite lookup_insert_ne; [done|]. intros [= <- <-].
      apply (Hnone k.2); [|done]. destruct k. left.
    + intros ds Hin. apply Hnone. by right.
Qed.

Lemma update_keys_Ok g ks t fs s' :
  uniques_wf (event_uniques_day t) → NoDup (map row_key ks) →
  update_keys g ks (t, fs) = (Ok (), s') → keys_updated g ks t s'.1.
Proof.
  revert t fs. induction ks as [|k ks IH]; intros t fs Hwf Hnd.
  { intros [= <-]. split; try done. by intros n ds d Hin%not_elem_of_nil. }
  apply NoDup_cons in Hnd as [Hnin Hnd]. cbn [update_keys]. unfold mbind, tx_bind.
  destruct (update_key _ k (t, fs)) as [[[]|] [t1 fs1]] eqn:Hk; [|done].
  apply update_key_Ok in Hk as (d & Hd & Ht1); [|done]. simpl in Ht1. subst t1.
  intros Hks. apply (keys_updated_cons g k ks d); [done..|].
  apply (IH _ fs1); [|done..]. apply set_uniques_wf; [|done].
  apply hll.foldl_add_spec_wf, sketch_at_wf, Hwf.
Qed.

Lemma update_keys_total g ks t :
  uniques_wf (event_uniques_day t) → (∀ k, k ∈ ks → is_Some (clock.pg_date k.2)) →
  ∃ t', update_keys g ks (t, []) = (Ok (), (t', [])).
Proof.
  revert t. induction ks as [|k ks IH]; intros t Hwf Hds; [by eexists|].
  destruct (Hds k ltac:(left)) as [d Hd].
  destruct (update_key_total (default [] (g !! k)) k d t Hwf Hd) as [t1 Hk].
  cbn [update_keys]. unfold mbind, tx_bind. rewrite Hk. apply IH.
  - apply update_key_Ok in Hk as (d' & _ & Ht1); [|done]. simpl in Ht1. subst t1.
    apply set_uniques_wf; [|done]. apply hll.foldl_add_spec_wf, sketch_at_wf, Hwf.
  - intros k' Hk'. apply Hds. by right.
Qed.

Lemma elem_of_sorted_keys (g : gmap uniqueKey (list string)) k : k ∈ sorted_keys g ↔ is_Some (g !! k).
Proof.
  unfold sorted_keys. rewrite merge_sort_Permutation, list_elem_of_fmap. split.
  - intros ([k' v] & -> & Hin). apply elem_of_map_to_list in Hin. by eexists.
  - intros [v Hv]. exists (k, v). split; [done|]. by apply elem_of_map_to_list.
Qed.

Lemma sorted_keys_NoDup evs : years_ok evs → NoDup (map row_key (sorted_keys (group_ids evs))).
Proof.
  intros Hy. apply NoDup_fmap_2_strong.
  - intros [n1 ds1] [n2 ds2] H1%elem_of_sorted_keys H2%elem_of_sorted_keys [= -> Hd].
    destruct H1 as [ids1 H1], H2 as [ids2 H2]. f_equal.
    rewrite group_ids_lookup in H1, H2.
    destruct (filter (in_text_group (n2, ds1)) evs) as [|e1 l1] eqn:E1; [done|].
    destruct (filter (in_text_group (n2, ds2)) evs) as [|e2 l2] eqn:E2; [done|].
    assert (e1 ∈ filter (in_text_group (n2, ds1)) evs) as M1 by (rewrite E1; left).
    assert (e2 ∈ filter (in_text_group (n2, ds2)) evs) as M2 by (rewrite E2; left).
    apply list_elem_of_filter in M1 as [(_ & _ & D1) M1], M2 as [(_ & _ & D2) M2].
    simpl in *. rewrite <- D1, <- D2 in Hd |- *.
    rewrite !clock.pg_date_format in Hd by auto. apply format_day_utc_day. congruence.
  - unfold sorted_keys. rewrite merge_sort_Permutation. apply NoDup_fst_map_to_list.
Qed.

(** What [updateUniques] leaves behind when it succeeds. *)
Record uniques_updated (evs : list Event) (t t' : tables) : Prop := {
  uu_events : events t' = events t;
  uu_counts : event_counts_minute t' = event_counts_minute t;
  uu_wf : uniques_wf (event_uniques_day t');
  uu_lookup k :
    event_uniques_day t' !! k =
      match ids_of evs k with
      | [] => event_uniques_day t !! k
      | ids => Some (add_ids (event_uniques_day t) k ids)
      end;
}.

Lemma group_ids_present evs k e :
  e ∈ evs → in_group k e → is_Some (group_ids evs !! (k.1, clock.format_day (TS e))).
Proof.
  intros He (Hd & Hn & _). rewrite group_ids_lookup.
  assert (e ∈ filter (in_text_group (k.1, clock.format_day (TS e))) evs) as Hin
    by (apply list_elem_of_filter; done).
  destruct (filter _ evs); [by apply not_elem_of_nil in Hin|]. by eexists.
Qed.

Lemma updateUniques_Ok evs t fs s' :
  years_ok evs → uniques_wf (event_uniques_day t) →
  updateUniques evs (t, fs) = (Ok (), s') → uniques_updated evs t s'.1.
Proof.
  intros Hy Hwf. unfold updateUniques. case_bool_decide as Hg.
  - intros [= <-]. split; [done..|]. intros k. simpl.
    destruct (ids_of evs k) as [|id ids] eqn:Hids; [done|].
    assert (id ∈ ids_of evs k) as (e & He & Hin & _)%elem_of_ids_of by (rewrite Hids; left).
    destruct (group_ids_present evs k e He Hin) as [? Hp]. rewrite Hg in Hp. done.
  - intros Hks. apply update_keys_Ok in Hks as [? ? ? Hhit Hmiss];
      [|done|by apply sorted_keys_NoDup].
    split; [done..|]. intros [n d]. destruct (ids_of evs (n, d)) as [|id ids] eqn:Hids.
    + apply Hmiss. intros ds [ids' Hg']%elem_of_sorted_keys Hd.
      destruct (group_ids_day evs n ds ids' Hy Hg') as (d' & Hd' & Hids' & Hne).
      assert (d' = d) as -> by congruence. congruence.
    + assert (id ∈ ids_of evs (n, d)) as (e & He & Hin & _)%elem_of_ids_of by (rewrite Hids; left).
      destruct (group_ids_present evs (n, d) e He Hin) as [ids' Hp]. simpl in Hp.
      destruct (group_ids_day evs n _ ids' Hy Hp) as (d' & Hd' & Hids' & _).
      assert (d' = d) as ->.
      { rewrite clock.pg_date_format in Hd' by auto. destruct Hin as (_ & _ & ?). simpl in *.
        congruence. }
      rewrite (Hhit n (clock.format_day (TS e)) d); [|apply elem_of_sorted_keys; by eexists|done].
      rewrite Hp. simpl. congruence.
Qed.

Lemma updateUniques_total evs t :
  years_ok evs → uniques_wf (event_uniques_day t) →
  ∃ t', updateUniques evs (t, []) = (Ok (), (t', [])).
Proof.
  intros Hy Hwf. unfold updateUniques. case_bool_decide; [by eexists|].
  apply update_keys_total; [done|]. intros [n ds] [ids Hg]%elem_of_sorted_keys.
  destruct (group_ids_day evs n ds ids Hy Hg) as (d & Hd & _). by exists d.
Qed.

(** ** The representation relation *)

(** The row an event becomes. *)
Definition stored (e : Event) : option events_row := row_of <$> marshal_event e.

Record represents (L : list Event) (t : tables) : Prop := {
  rep_absent id : events t !! id = None ↔ ∀ e, e ∈ L → EventID e ≠ id;
  rep_present id r :
    events t !! id = Some r → ∃ e, e ∈ L ∧ EventID e = id ∧ stored e = Some r;
  rep_rollup : rollup_inv t;
  rep_uniques k :
    event_uniques_day t !! k =
      match ids_of L k with
      | [] => None
      | ids => Some (hll.Bytes (hll.sketch_of ids))
      end;
  rep_text e : e ∈ L → storable_text e = true;
}.

Lemma represents_empty : represents [] empty_tables.
Proof.
  split; simpl.
  - intros id. split; [|done]. by intros _ e ?%not_elem_of_nil.
  - done.
  - done.
  - done.
  - by intros e ?%not_elem_of_nil.
Qed.

Lemma represents_uniques_wf L t : represents L t → uniques_wf (event_uniques_day t).
Proof.
  intros Hr k raw. rewrite (rep_uniques L t Hr). case_match; [done|].
  intros [= <-]. eexists. split; [apply hll.sketch_of_wf|done].
Qed.

Lemma represents_sketch_at L t k :
  represents L t → sketch_at (event_uniques_day t) k = hll.sketch_of (ids_of L k).
Proof.
  intros Hr. pose proof (rep_uniques L t Hr k) as Hk.
  destruct (ids_of L k) eqn:Hids.
  - unfold sketch_at. by rewrite Hk.
  - apply sketch_at_Bytes; [apply hll.sketch_of_wf|done].
Qed.

Lemma represents_uniques L evs t t1 t' :
  represents L t → event_uniques_day t1 = event_uniques_day t →
  uniques_updated evs t1 t' →
  ∀ k, event_uniques_day t' !! k =
    match ids_of (L ++ evs) k with
    | [] => None
    | ids => Some (hll.Bytes (hll.sketch_of ids))
    end.
Proof.
  intros Hr Ht1 Hu k. rewrite (uu_lookup _ _ _ Hu k), Ht1, ids_of_app.
  destruct (ids_of evs k) as [|id ids] eqn:Hids.
  - rewrite app_nil_r. apply (rep_uniques L t Hr).
  - unfold add_ids. rewrite (represents_sketch_at L t k Hr).
    destruct (ids_of L k) as [|id0 ids0]; [done|].
    unfold hll.sketch_of. by rewrite <- foldl_app.
Qed.

(** *** The batch as rows *)

Lemma elem_of_marshalled evs rs r :
  mapM marshal_event evs = Some rs → r ∈ rs ↔ ∃ e, e ∈ evs ∧ marshal_event e = Some r.
Proof.
  intros Hm. apply mapM_Some in Hm. induction Hm as [|e r0 evs rs He _ IH].
  - split; [by intros ?%not_elem_of_nil|]. by intros (e & ?%not_elem_of_nil & _).
  - rewrite elem_of_cons, IH. setoid_rewrite elem_of_cons. split.
    + intros [->|(e' & ? & ?)]; eauto.
    + intros (e' & [->|?] & ?); [left; congruence|right; eauto].
Qed.

Lemma marshal_event_id e r : marshal_event e = Some r → in_event_id r = EventID e.
Proof. unfold marshal_event. case_match; [|done]. by intros [= <-]. Qed.

(** *** Faults are consumed in order *)

Lemma next_elem fs f fs' : next fs = (f, fs') → f ≠ NoFault → f ∈ fs.
Proof. destruct fs as [|f0 fs]; intros [= <- <-] Hf; [done|left]. Qed.

Lemma next_suffix fs f fs' : next fs = (f, fs') → ∀ x, x ∈ fs' → x ∈ fs.
Proof. destruct fs as [|f0 fs]; intros [= <- <-] x Hx; [done|by right]. Qed.

Lemma elem_of_suffix {A} (l1 l2 : list A) : l1 `suffix_of` l2 → ∀ x, x ∈ l1 → x ∈ l2.
Proof. intros [k ->] x Hx. apply elem_of_app. by right. Qed.

Definition consumes {A} (c : tx A) : Prop := ∀ t fs, (c (t, fs)).2.2 `suffix_of` fs.

Lemma consumes_exec {A} (stmt : tables → result error (A * tables)) : consumes (tx_exec stmt).
Proof.
  intros t fs. unfold tx_exec. destruct fs as [|f fs]; simpl.
  - destruct (stmt t) as [[]|]; done.
  - destruct f; [destruct (stmt t) as [[]|]|..]; simpl; by apply suffix_cons_r.
Qed.

Lemma consumes_ret {A} (a : A) : consumes (mret a).
Proof. intros t fs. done. Qed.

Lemma consumes_fail {A} e : consumes (tx_fail (A := A) e).
Proof. intros t fs. done. Qed.

Lemma consumes_bind {A B} (c : tx A) (f : A → tx B) :
  consumes c → (∀ a, consumes (f a)) → consumes (c ≫= f).
Proof.
  intros Hc Hf t fs. unfold mbind, tx_bind. specialize (Hc t fs).
  destruct (c (t, fs)) as [[a|e] [t1 fs1]]; simpl in *; [|done].
  etrans; [apply Hf|done].
Qed.

#[local] Hint Resolve consumes_exec consumes_ret consumes_fail consumes_bind : tally.

Lemma consumes_update_key ids k : consumes (update_key ids k).
Proof.
  unfold update_key. apply consumes_bind; [auto with tally|intros _].
  apply consumes_bind; [auto with tally|intros raw].
  repeat case_match; auto with tally.
Qed.

Lemma consumes_updateUniques evs : consumes (updateUniques evs).
Proof.
  unfold updateUniques. case_bool_decide; [auto with tally|].
  generalize (sorted_keys (group_ids evs)) as ks.
  induction ks; simpl; auto using consumes_update_key with tally.
Qed.

Lemma batch_tx_consumes rs evs : consumes (batch_tx rs evs).
Proof.
  unfold batch_tx. apply consumes_bind; [auto with tally|intros n].
  apply consumes_bind; [apply consumes_updateUniques|auto with tally].
Qed.

Lemma marshalled_ids evs rs id :
  mapM marshal_event evs = Some rs →
  filter (λ r, in_event_id r = id) (order_by_event_id rs) = [] ↔
  ∀ e, e ∈ evs → EventID e ≠ id.
Proof.
  intros Hm. rewrite list_filter_nil. setoid_rewrite order_by_event_id_perm. split.
  - intros Hnone e He Hid. apply mapM_Some in Hm as Hf2.
    apply list_elem_of_lookup in He as [i Hi].
    destruct (Forall2_lookup_l _ _ _ _ _ Hf2 Hi) as (r & Hr & Hmr).
    apply (Hnone r); [by eapply list_elem_of_lookup_2|].
    by rewrite (marshal_event_id e r Hmr).
  - intros Hnone r Hr Hid. apply (elem_of_marshalled evs rs r Hm) in Hr as (e & He & Hmr).
    apply (Hnone e He). by rewrite <- (marshal_event_id e r Hmr).
Qed.

(** What the statement took in is text that Postgres can store. *)
Lemma marshalled_text evs rs e :
  mapM marshal_event evs = Some rs → forallb valid_text rs = true → e ∈ evs → storable_text e = true.
Proof.
  intros Hm%mapM_Some Ht [i Hi]%list_elem_of_lookup.
  destruct (Forall2_lookup_l _ _ _ _ _ Hm Hi) as (r & Hr & Hmr).
  rewrite forallb_forall in Ht. specialize (Ht r ltac:(apply list_elem_of_In; by eapply list_elem_of_lookup_2)).
  unfold marshal_event in Hmr. destruct (json_Marshal _); [|done]. injection Hmr as <-.
  unfold valid_text in Ht. simpl in Ht. by apply andb_true_iff in Ht as [? _].
Qed.

Lemma insertBatchSQL_text rs t p : insertBatchSQL rs t = Ok p → forallb valid_text rs = true.
Proof. unfold insertBatchSQL. by destruct (forallb valid_text rs). Qed.

Lemma represents_insert L evs rs t n t1 :
  represents L t → mapM marshal_event evs = Some rs → insertBatchSQL rs t = Ok (n, t1) →
  (∀ id, events t1 !! id = None ↔ ∀ e, e ∈ L ++ evs → EventID e ≠ id) ∧
  (∀ id r, events t1 !! id = Some r →
     ∃ e, e ∈ L ++ evs ∧ EventID e = id ∧ stored e = Some r) ∧
  rollup_inv t1 ∧ event_uniques_day t1 = event_uniques_day t ∧
  n = Z.of_nat (size (events t1)) - Z.of_nat (size (events t)).
Proof.
  intros Hr Hm Hsql. pose proof (insertBatchSQL_rollup _ _ _ _ (rep_rollup L t Hr) Hsql).
  apply insertBatchSQL_inv in Hsql as (ret & Hins & Hn & Hu & _).
  assert (∀ id, events t1 !! id = _) as Hlk
    by (intros id; apply (cte_inserted_lookup _ _ _ _ id Hins)).
  split; [|split; [|split; [done|split; [done|]]]].
  - intros id. rewrite Hlk. setoid_rewrite elem_of_app.
    pose proof (rep_absent L t Hr id) as Ha. pose proof (marshalled_ids evs rs id Hm) as Hf.
    destruct (events t !! id) as [r|].
    + split; [done|]. intros HL. apply Ha. auto.
    + destruct (filter _ _) as [|r l]; simpl; split; try done.
      * intros _ e [He|He]; [by apply Ha|by apply Hf].
      * intros HL. assert (r :: l = []) by (apply Hf; auto). done.
  - intros id r. rewrite Hlk. setoid_rewrite elem_of_app.
    destruct (events t !! id) as [r0|] eqn:Hid.
    + intros [= <-]. destruct (rep_present L t Hr id r0 Hid) as (e & ? & ? & ?). eauto.
    + destruct (filter _ _) as [|r0 l] eqn:Hf; simpl; [done|]. intros [= <-].
      assert (r0 ∈ filter (λ r, in_event_id r = id) (order_by_event_id rs)) as Hin
        by (rewrite Hf; left).
      apply list_elem_of_filter in Hin as [Heq Hin]. rewrite order_by_event_id_perm in Hin.
      apply (elem_of_marshalled evs rs r0 Hm) in Hin as (e & He & Hmr).
      exists e. rewrite <- (marshal_event_id e r0 Hmr). split; [by right|]. split; [done|].
      unfold stored. by rewrite Hmr.
  - rewrite Hn. by apply (cte_inserted_length _ _ _ _ Hins).
Qed.

Lemma batch_tx_Ok L evs rs t fs n s' :
  represents L t → years_ok evs → mapM marshal_event evs = Some rs →
  batch_tx rs evs (t, fs) = (Ok n, s') →
  represents (L ++ evs) s'.1 ∧
  n = Z.of_nat (size (events s'.1)) - Z.of_nat (size (events t)).
Proof.
  intros Hr Hy Hm. unfold batch_tx. unfold mbind at 1, tx_bind at 1.
  destruct (tx_exec _ (t, fs)) as [[n1|] [t1 fs1]] eqn:Hsql; [|done].
  apply tx_exec_Ok in Hsql; simpl in Hsql. unfold mbind, tx_bind.
  destruct (updateUniques evs (t1, fs1)) as [[[]|] s2] eqn:Hu; [|done].
  intros [= <- <-].
  destruct (represents_insert L evs rs t n1 t1 Hr Hm Hsql) as (Ha & Hp & Hroll & Hsame & Hn).
  apply updateUniques_Ok in Hu; [|done|rewrite Hsame; by apply (represents_uniques_wf L)].
  pose proof (represents_uniques L evs t t1 s2.1 Hr Hsame Hu) as Hk.
  destruct Hu as [He Hc _ _]. split; [split|].
  - by rewrite He.
  - by rewrite He.
  - unfold rollup_inv in *. by rewrite He, Hc.
  - done.
  - intros e [?|?]%elem_of_app; [by apply (rep_text L t Hr)|].
    by apply (marshalled_text evs rs e Hm (insertBatchSQL_text _ _ _ Hsql)).
  - by rewrite He.
Qed.

(** [InsertBatch] refines "append the batch to the log"; an error leaves the
    tables alone or, when the reply to [Commit] is lost, the batch is in. *)
Lemma InsertBatch_simulates L evs s r s' :
  represents L (db s) → years_ok evs → InsertBatch evs s = (r, s') →
  match r with
  | Ok n => represents (L ++ evs) (db s') ∧
            n = Z.of_nat (size (events (db s'))) - Z.of_nat (size (events (db s)))
  | Err _ => db s' = db s ∨ (FaultAfter ∈ net s ∧ represents (L ++ evs) (db s'))
  end.
Proof.
  intros Hr Hy. unfold InsertBatch. case_match eqn:Hlen.
  { apply Nat.eqb_eq, length_zero_iff_nil in Hlen. subst evs.
    intros [= <- <-]. rewrite app_nil_r. split; [done|lia]. }
  destruct (mapM marshal_event evs) as [rs|] eqn:Hm; [|intros [= <- <-]; by left].
  destruct (next (net s)) as [[] fs] eqn:Hnext; [|intros [= <- <-]; by left..].
  destruct (batch_tx rs evs (db s, fs)) as [[n|e] [t' fs']] eqn:Hb;
    [|intros [= <- <-]; by left].
  pose proof (batch_tx_consumes rs evs (db s) fs) as Hsuf. rewrite Hb in Hsuf.
  apply (batch_tx_Ok L) in Hb as Hbok; [|done..]. simpl in Hbok, Hsuf.
  destruct (next fs') as [f fs''] eqn:Hf. destruct f; intros [= <- <-]; simpl.
  - done.
  - by left.
  - right. split; [|apply Hbok]. apply next_elem in Hf; [|done].
    apply (next_suffix _ _ _ Hnext), (elem_of_suffix _ _ Hsuf), Hf.
Qed.

(** Rows are never changed or removed. *)
Lemma InsertBatch_keeps_rows evs s r s' id row :
  InsertBatch evs s = (r, s') → events (db s) !! id = Some row →
  years_ok evs → uniques_wf (event_uniques_day (db s)) →
  events (db s') !! id = Some row.
Proof.
  intros Hib Hid Hy Hwf. unfold InsertBatch in Hib. case_match; [by simplify_eq|].
  destruct (mapM marshal_event evs) as [rs|]; [|by simplify_eq].
  destruct (next (net s)) as [[] fs]; [|by simplify_eq/=..].
  destruct (batch_tx rs evs (db s, fs)) as [[n|e] [t' fs']] eqn:Hb; [|by simplify_eq/=].
  assert (events t' !! id = Some row) as Ht'.
  { unfold batch_tx in Hb. unfold mbind at 1, tx_bind at 1 in Hb.
    destruct (tx_exec _ (db s, fs)) as [[n1|] [t1 fs1]] eqn:Hsql; [|done].
    apply tx_exec_Ok, insertBatchSQL_inv in Hsql as (ret & Hins & _ & Hu1 & _).
    unfold mbind, tx_bind in Hb. simpl in *.
    destruct (updateUniques evs (t1, fs1)) as [[[]|] s2] eqn:Hu; [|done].
    apply updateUniques_Ok in Hu; [|done|by rewrite Hu1].
    injection Hb as -> ->. apply uu_events in Hu. simpl in Hu. rewrite Hu.
    rewrite (cte_inserted_lookup _ _ _ _ id Hins). by rewrite Hid. }
  destruct (next fs') as [[] ?]; by simplify_eq/=.
Qed.

(** Enough for success: a quiet connection, acceptable values, room. *)
Lemma InsertBatch_succeeds L evs rs s :
  represents L (db s) → years_ok evs → net s = [] →
  mapM marshal_event evs = Some rs → forallb valid_text rs = true →
  forallb (λ r, jsonb_ok (in_properties r)) rs = true →
  Z.of_nat (size (events (db s))) + Z.of_nat (length evs) ≤ int64_max →
  ∃ n s', InsertBatch evs s = (Ok n, s') ∧ net s' = [].
Proof.
  intros Hr Hy Hnet Hm Ht Hj Hsize. unfold InsertBatch. case_match; [eauto|].
  rewrite Hm, Hnet. simpl.
  destruct (insertBatchSQL_total rs (db s) (rep_rollup L _ Hr) Ht Hj) as (n & t1 & Hsql).
  { apply length_mapM in Hm. lia. }
  destruct (updateUniques_total evs t1 Hy) as (t2 & Hu).
  { destruct (represents_insert L evs rs (db s) n t1 Hr Hm Hsql) as (_ & _ & _ & -> & _).
    by apply (represents_uniques_wf L). }
  unfold batch_tx, mbind, tx_bind, tx_exec. simpl. rewrite Hsql, Hu. simpl. eauto.
Qed.

(** *** The log determines the tables *)

Lemma ids_of_same_elems L1 L2 k : same_elems L1 L2 → same_elems (ids_of L1 k) (ids_of L2 k).
Proof. intros H id. rewrite !elem_of_ids_of. by setoid_rewrite (H _). Qed.

Lemma same_elems_nil {A} (l : list A) : same_elems [] l → l = [].
Proof.
  destruct l as [|x l]; [done|]. intros H.
  assert (x ∈ []) as Hx by (apply H; left). by apply not_elem_of_nil in Hx.
Qed.

Lemma size_list_to_set_le (l : list string) :
  (size (list_to_set l : gset string) ≤ length l)%nat.
Proof.
  induction l as [|x l IH]; [done|]. rewrite list_to_set_cons, size_union_alt, size_singleton.
  cbn [length].
  assert (size (list_to_set l ∖ {[x]} : gset string) ≤ size (list_to_set l : gset string))%nat
    by (apply subseteq_size; by intros y [? _]%elem_of_difference). lia.
Qed.

Lemma sketch_row_same L1 L2 k :
  same_elems L1 L2 →
  match ids_of L1 k with [] => None | ids => Some (hll.Bytes (hll.sketch_of ids)) end =
  match ids_of L2 k with [] => None | ids => Some (hll.Bytes (hll.sketch_of ids)) end.
Proof.
  intros HL. pose proof (ids_of_same_elems L1 L2 k HL) as Hids.
  destruct (ids_of L1 k) as [|a l1], (ids_of L2 k) as [|b l2]; try done.
  - by apply same_elems_nil in Hids.
  - symmetry in Hids. by apply same_elems_nil in Hids.
  - do 2 f_equal. apply hll.foldl_add_spec_ext; [apply hll.New_wf|done].
Qed.

Lemma represents_same L1 L2 t : same_elems L1 L2 → represents L1 t → represents L2 t.
Proof.
  intros Hse [Ha Hp Hroll Hu Ht]. split; [| |done| |].
  - intros id. rewrite Ha. by setoid_rewrite (Hse _).
  - intros id r Hr. destruct (Hp id r Hr) as (e & He & ?). exists e. by rewrite <- (Hse e).
  - intros k. rewrite Hu. by apply sketch_row_same.
  - intros e He. apply Ht. by rewrite (Hse e).
Qed.

(** One row per distinct id. *)
Lemma represents_dom L t : represents L t → dom (events t) = list_to_set (map EventID L).
Proof.
  intros Hr. apply set_eq. intros id. rewrite elem_of_list_to_set, list_elem_of_fmap, elem_of_dom.
  pose proof (rep_absent L t Hr id) as Ha. rewrite <- not_eq_None_Some, Ha.
  split.
  - intros Hn. destruct (decide (id ∈ map EventID L)) as [Hin|Hin]; [by apply list_elem_of_fmap in Hin|].
    destruct Hn. intros e He <-. apply Hin. apply list_elem_of_fmap. eauto.
  - intros (e & -> & He) Hall. by destruct (Hall e He).
Qed.

Lemma represents_inserted L evs t t' :
  represents L t → represents (L ++ evs) t' →
  0 ≤ Z.of_nat (size (events t')) - Z.of_nat (size (events t)) ≤ Z.of_nat (length evs).
Proof.
  intros Hr Hr'. apply represents_dom in Hr, Hr'. rewrite map_app, list_to_set_app_L in Hr'.
  rewrite <- !size_dom, Hr, Hr'.
  pose proof (size_list_to_set_le (map EventID evs)) as Hsz. rewrite length_map in Hsz.
  set (X := (list_to_set (map EventID L) : gset string)) in *.
  set (Y := (list_to_set (map EventID evs) : gset string)) in *.
  assert (size X ≤ size (X ∪ Y))%nat by (apply subseteq_size, union_subseteq_l).
  assert (size (X ∪ Y) ≤ size X + size Y)%nat; [|lia].
  rewrite size_union_alt. assert (size (Y ∖ X) ≤ size Y)%nat
    by (apply subseteq_size; by intros y [? _]%elem_of_difference). lia.
Qed.

(** The ids and the sketches depend only on the set of delivered events. *)
Lemma represents_shape L1 L2 t1 t2 :
  represents L1 t1 → represents L2 t2 → same_elems L1 L2 →
  dom (events t1) = dom (events t2) ∧ event_uniques_day t1 = event_uniques_day t2.
Proof.
  intros H1 H2 HL. split.
  - rewrite (represents_dom _ _ H1). rewrite (represents_dom _ _ (represents_same L2 L1 t2 (symmetry HL) H2)). done.
  - apply map_eq. intros k. rewrite (rep_uniques _ _ H1), (rep_uniques _ _ H2). by apply sketch_row_same.
Qed.

Lemma represents_determined L1 L2 t1 t2 :
  represents L1 t1 → represents L2 t2 → same_elems L1 L2 →
  events t1 = events t2 → t1 = t2.
Proof.
  intros H1 H2 HL He.
  assert (event_counts_minute t1 = event_counts_minute t2) as Hc.
  { rewrite (rep_rollup _ _ H1), (rep_rollup _ _ H2). by rewrite He. }
  destruct (represents_shape L1 L2 t1 t2 H1 H2 HL) as [_ Hu].
  destruct t1, t2; simpl in *; congruence.
Qed.

(** Re-sends of an id are stored as the same row: same name, user, properties
    and time stamp. *)
Definition consistent (L : list Event) : Prop :=
  ∀ e1 e2, e1 ∈ L → e2 ∈ L → EventID e1 = EventID e2 → stored e1 = stored e2.

Lemma represents_functional L1 L2 t1 t2 :
  represents L1 t1 → represents L2 t2 → same_elems L1 L2 → consistent L1 → t1 = t2.
Proof.
  intros H1 H2 HL Hcons. apply (represents_determined L1 L2); [done..|].
  apply map_eq. intros id.
  destruct (events t1 !! id) as [r1|] eqn:E1, (events t2 !! id) as [r2|] eqn:E2; [| | |done].
  - destruct (rep_present _ _ H1 _ _ E1) as (e1 & M1 & I1 & S1).
    destruct (rep_present _ _ H2 _ _ E2) as (e2 & M2%HL & I2 & S2).
    rewrite <- S1, <- S2. apply Hcons; congruence.
  - pose proof (proj1 (rep_absent _ _ H2 id) E2) as N. destruct (rep_present _ _ H1 _ _ E1) as (e & M%HL & I & _).
    by destruct (N e M).
  - pose proof (proj1 (rep_absent _ _ H1 id) E1) as N. destruct (rep_present _ _ H2 _ _ E2) as (e & M%HL & I & _).
    by destruct (N e M).
Qed.

(** Delivering known events again is a no-op on every table. *)
Lemma InsertBatch_replay L evs s r s' :
  represents L (db s) → years_ok evs → (∀ e, e ∈ evs → e ∈ L) →
  InsertBatch evs s = (r, s') →
  db s' = db s ∧ ∀ n, r = Ok n → n = 0.
Proof.
  intros Hr Hy Hsub Hib.
  assert (same_elems (L ++ evs) L) as Hse.
  { intros e. rewrite elem_of_app. split; [intros [?|?]; auto|auto]. }
  assert (represents (L ++ evs) (db s') → db s' = db s) as Hsame.
  { intros Hr'. apply (represents_determined (L ++ evs) L); [done..|].
    apply map_eq. intros id. destruct (events (db s) !! id) as [row|] eqn:Hid.
    - eapply InsertBatch_keeps_rows; [done..|by apply (represents_uniques_wf L)].
    - apply (rep_absent _ _ Hr'). intros e He. apply Hse in He.
      by apply (rep_absent _ _ Hr). }
  pose proof (InsertBatch_simulates L evs s r s' Hr Hy Hib) as Hsim.
  destruct r as [n|e].
  - destruct Hsim as [Hr' Hn]. rewrite (Hsame Hr') in Hn |- *.
    split; [done|]. intros n' [= <-]. lia.
  - split; [|done]. destruct Hsim as [?|[_ ?]]; auto.
Qed.
End with_env.
End store_spec.
