(* ===== verification/StoreQuery.v ===== *)
(** * The read side of the store

    The queries of [internal/store] over tables that represent a log of
    delivered events: what each number shown to a user means in terms of
    those events. *)

From S2P Require Import Prelude Float64 Hll Clock Store StoreSpec.
From stdpp Require Import prelude gmap strings list sorting.
From Stdlib Require Import ZArith Lia.
Open Scope Z_scope.

Module store_query.
Import store store_spec.

Section with_env.
Context {pg : Postgres} {js : Json}.

Lemma query_quiet {A} (q : tables → result error A) s :
  net s = [] → query q s = (q (db s), s).
Proof. intros Hn. unfold query. destruct s as [t fs]; simpl in *. by subst. Qed.

Lemma bigint_small z : 0 ≤ z ≤ int64_max → bigint z = Ok z.
Proof.
  intros Hz. unfold bigint. by rewrite (proj2 (andb_true_iff _ _)) by lia.
Qed.

(** ** Counting today's events *)

(** Where the day starts on a minute, truncating a timestamp to its minute does
    not move it across the start of the day. *)
Lemma today_trunc now ts :
  day_start now mod minute_us = 0 → today now (trunc_minute ts) = (day_start now <=? ts).
Proof.
  unfold today, trunc_minute, minute_us. intros Hd.
  destruct (Z.leb_spec (day_start now) (ts / (60 * 1000000) * (60 * 1000000))),
    (Z.leb_spec (day_start now) ts); try done; Z.div_mod_to_equations; lia.
Qed.

Definition row_today (now : clock.time) (name : string) (r : events_row) : bool :=
  bool_decide (row_name r = name) && today now (trunc_minute (row_ts r)).

Lemma sum_today t now name :
  rollup_inv t →
  map_sum (λ k, bool_decide (k.1 = name) && today now k.2) (event_counts_minute t)
  = count (row_today now name) (rows (events t)).
Proof.
  intros Hinv. rewrite Hinv, map_sum_histogram, count_map. apply count_ext.
  by intros r _.
Qed.

(** A name that occurs in the log can be asked for. *)
Lemma represents_text L t e : represents L t → e ∈ L → pg_text (Name e) = true.
Proof.
  intros Hr He%(rep_text L t Hr). unfold storable_text in He. rewrite !andb_true_iff in He. tauto.
Qed.

Lemma CountToday_rows L s now name :
  represents L (db s) → net s = [] → Z.of_nat (size (events (db s))) ≤ int64_max →
  CountToday now name s =
    (if pg_text name then Ok (count (row_today now name) (rows (events (db s)))) else Err (ErrPg InvalidText), s).
Proof.
  intros Hr Hn Hsize. unfold CountToday. rewrite query_quiet by done.
  destruct (pg_text name); [|done]. cbn [negb].
  rewrite (sum_today _ _ _ (rep_rollup L _ Hr)), bigint_small; [done|].
  pose proof (count_nonneg (row_today now name) (rows (events (db s)))).
  pose proof (count_le_length (row_today now name) (rows (events (db s)))) as Hle.
  rewrite length_rows in Hle. lia.
Qed.

(** ** The rows of a log *)

Lemma stored_fields e r :
  stored e = Some r → row_name r = Name e ∧ row_distinct_id r = DistinctID e ∧
                      row_ts r = timestamptz (TS e).
Proof.
  unfold stored, marshal_event. destruct (json_Marshal _); [|done]. by intros [= <-].
Qed.

(** One delivery of each id of the log. *)
Record one_per_id (L kept : list Event) : Prop := {
  kept_delivered e : e ∈ kept → e ∈ L;
  kept_distinct : NoDup (map EventID kept);
  kept_all e : e ∈ L → EventID e ∈ map EventID kept;
}.

(** An event and the row it is stored as. *)
Definition row_event (L : list Event) (e : Event) (kv : string * events_row) : Prop :=
  e ∈ L ∧ EventID e = kv.1 ∧ stored e = Some kv.2.

Lemma choose_events L (l : list (string * events_row)) :
  (∀ kv, kv ∈ l → ∃ e, row_event L e kv) → ∃ kept, Forall2 (row_event L) kept l.
Proof.
  induction l as [|kv l IH]; intros Hl; [by exists []|].
  destruct (Hl kv ltac:(left)) as [e He]. destruct IH as [kept Hk]; [intros kv' ?; apply Hl; by right|].
  exists (e :: kept). by constructor.
Qed.

Lemma row_events_ids L kept l : Forall2 (row_event L) kept l → map EventID kept = map fst l.
Proof. intros Hf. induction Hf as [|e kv kept l (_ & Heq & _) _ IH]; [done|]. simpl. by rewrite Heq, IH. Qed.

(** Every row is the row of one delivery of its id. *)
Lemma represents_kept L t :
  represents L t →
  ∃ kept, one_per_id L kept ∧ Forall2 (λ e r, stored e = Some r) kept (rows (events t)).
Proof.
  intros Hr. destruct (choose_events L (map_to_list (events t))) as [kept Hk].
  { intros [id r] Hin%elem_of_map_to_list. exact (rep_present L t Hr id r Hin). }
  exists kept. pose proof (row_events_ids _ _ _ Hk) as Hids. split; [split|].
  - intros e [i Hi]%list_elem_of_lookup. by destruct (Forall2_lookup_l _ _ _ _ _ Hk Hi) as (? & _ & ? & _).
  - rewrite Hids. apply NoDup_fst_map_to_list.
  - intros e He. rewrite Hids. destruct (events t !! EventID e) as [r|] eqn:Hid.
    + apply list_elem_of_fmap. exists (EventID e, r). split; [done|]. by apply elem_of_map_to_list.
    + by destruct (proj1 (rep_absent L t Hr _) Hid e He).
  - unfold rows. apply Forall2_fmap_r. eapply Forall2_impl; [exact Hk|]. by intros e kv (_ & _ & ?).
Qed.

(** An event that today's count of [name] should include: its minute is one of
    today's. *)
Definition event_today (now : clock.time) (name : string) (e : Event) : bool :=
  bool_decide (Name e = name) && today now (trunc_minute (timestamptz (TS e))).

Lemma count_stored now name kept rs :
  Forall2 (λ e r, stored e = Some r) kept rs →
  count (row_today now name) rs = count (event_today now name) kept.
Proof.
  intros Hf. induction Hf as [|e r kept rs Hs _ IH]; [done|]. cbn [count]. rewrite IH.
  unfold row_today, event_today. by destruct (stored_fields e r Hs) as (-> & _ & ->).
Qed.

(** The ids delivered with that name today, and: the deliveries of an id are
    all of that name and of today, or none is (as when a client sends an event
    again on the same day, under a new time stamp). *)
Definition ids_today (now : clock.time) (name : string) (L : list Event) : gset string :=
  list_to_set (map EventID (filter (λ e, event_today now name e = true) L)).

Definition resends_agree (now : clock.time) (name : string) (L : list Event) : Prop :=
  ∀ e1 e2, e1 ∈ L → e2 ∈ L → EventID e1 = EventID e2 → event_today now name e1 = event_today now name e2.

Lemma count_filter {A} (P : A → bool) l : count P l = Z.of_nat (length (filter (λ x, P x = true) l)).
Proof.
  induction l as [|x l IH]; [done|]. cbn [count]. rewrite IH, filter_cons.
  destruct (P x); case_decide; simpl; (done || lia).
Qed.

Lemma NoDup_map_filter {A B} (f : A → B) (P : A → Prop) `{∀ x, Decision (P x)} l :
  NoDup (map f l) → NoDup (map f (filter P l)).
Proof.
  induction l as [|x l IH]; [done|]. cbn [map]. rewrite NoDup_cons. intros [Hn Hnd].
  rewrite filter_cons. case_decide; [|by apply IH]. cbn [map]. rewrite NoDup_cons. split; [|by apply IH].
  intros (y & Hy & [_ Hin]%list_elem_of_filter)%list_elem_of_fmap. apply Hn. rewrite Hy.
  apply list_elem_of_fmap. eauto.
Qed.

Lemma count_kept now name L kept :
  one_per_id L kept → resends_agree now name L →
  count (event_today now name) kept = Z.of_nat (size (ids_today now name L)).
Proof.
  intros [Hsub Hnd Hall] Hag. rewrite count_filter. f_equal.
  rewrite <- (length_map EventID), <- (size_list_to_set (C := gset string)) by (by apply NoDup_map_filter).
  f_equal. apply set_eq. intros id. unfold ids_today.
  rewrite !elem_of_list_to_set, !list_elem_of_fmap. setoid_rewrite list_elem_of_filter. split.
  - intros (e & -> & Ht & He%Hsub). eauto.
  - intros (e & -> & Ht & He). pose proof (Hall e He) as (k & Heq & Hk)%list_elem_of_fmap.
    exists k. split; [done|]. split; [|done]. rewrite <- (Hag e k); auto.
Qed.

Lemma CountToday_kept L s now name :
  represents L (db s) → net s = [] → Z.of_nat (size (events (db s))) ≤ int64_max →
  ∃ kept, one_per_id L kept ∧
    CountToday now name s =
      (if pg_text name then Ok (count (event_today now name) kept) else Err (ErrPg InvalidText), s) ∧
    (resends_agree now name L →
     count (event_today now name) kept = Z.of_nat (size (ids_today now name L))).
Proof.
  intros Hr Hn Hsize. destruct (represents_kept L (db s) Hr) as (kept & Hk & Hf). exists kept.
  split; [done|]. split; [|by apply count_kept].
  by rewrite (CountToday_rows L), (count_stored now name kept) by done.
Qed.

(** C15: counted exactly once.  Whatever batches, repetitions and replays made
    up the log [L], [CountToday] over a quiet connection counts one delivery of
    each id: the answer is the number of those that have that name and fall in a
    minute of today.  Where the deliveries of an id agree on that (a re-send on the
    same day does, although it has a new time stamp), it is the number of distinct
    ids delivered with that name today.  A name that Postgres cannot hold is an
    error. *)
Theorem CountToday_exactly_once L s now name :
  represents L (db s) → net s = [] → Z.of_nat (size (events (db s))) ≤ int64_max →
  ∃ kept, one_per_id L kept ∧
    CountToday now name s =
      (if pg_text name then Ok (count (event_today now name) kept) else Err (ErrPg InvalidText), s) ∧
    (resends_agree now name L →
     count (event_today now name) kept = Z.of_nat (size (ids_today now name L))).
Proof. apply CountToday_kept. Qed.

(** When every delivered event counts, the answer is the number of different ids. *)
Lemma CountToday_all L s now name :
  represents L (db s) → pg_text name = true → (∀ e, e ∈ L → event_today now name e = true) →
  net s = [] → Z.of_nat (size (events (db s))) ≤ int64_max →
  CountToday now name s = (Ok (Z.of_nat (size (events (db s)))), s).
Proof.
  intros Hr Hname Hall Hn Hsize. rewrite (CountToday_rows L), Hname by done.
  rewrite (count_ext _ (λ _, true)), count_true, length_rows; [done|].
  intros r ([id r'] & -> & Hin%elem_of_map_to_list)%list_elem_of_fmap.
  destruct (rep_present L _ Hr _ _ Hin) as (e & He & _ & Hs). rewrite <- (Hall e He).
  unfold row_today, event_today. simpl. by destruct (stored_fields e r' Hs) as (-> & _ & ->).
Qed.

Lemma represents_ids L t (ids : list string) :
  represents L t → (∀ id, id ∈ ids ↔ ∃ e, e ∈ L ∧ EventID e = id) →
  size (events t) = size (list_to_set ids : gset string).
Proof.
  intros Hr Hids. rewrite <- size_dom. f_equal. apply set_eq. intros id.
  rewrite elem_of_list_to_set, Hids, elem_of_dom. split.
  - intros [r Hid]. destruct (rep_present L t Hr id r Hid) as (e & He & Heq & _). by exists e.
  - intros (e & He & <-). destruct (events t !! EventID e) as [r|] eqn:Hid; [by exists r|].
    by destruct (proj1 (rep_absent L t Hr _) Hid e He).
Qed.

(** ** Totals *)

Definition total_of (now : clock.time) (name : string) (counts : gmap (string * Z) Z) : Z :=
  map_sum (λ k, bool_decide (k.1 = name) && today now k.2) counts.

Definition bump (name : string) (n : Z) (acc : gmap string Z) : gmap string Z :=
  <[name := default 0 (acc !! name) + n]> acc.

Lemma bump_lookup name n acc x :
  bump name n acc !! x =
    if decide (name = x) then Some (default 0 (acc !! x) + n) else acc !! x.
Proof. unfold bump. rewrite lookup_insert. by case_decide; subst. Qed.

Lemma bump_comm a b n1 n2 acc : bump a n1 (bump b n2 acc) = bump b n2 (bump a n1 acc).
Proof.
  apply map_eq. intros x. rewrite !bump_lookup.
  destruct (decide (a = x)), (decide (b = x)); subst; try done.
  simpl. f_equal. lia.
Qed.

Lemma totals_lookup now t name :
  default 0 (totals now t !! name) = total_of now name (event_counts_minute t) ∧
  (is_Some (totals now t !! name) ↔
   ∃ minute n, event_counts_minute t !! (name, minute) = Some n ∧ today now minute = true).
Proof.
  unfold totals, total_of. generalize (event_counts_minute t) as g. clear t.
  induction g as [|k n g Hk IH] using map_ind.
  { unfold map_sum. rewrite !map_fold_empty. split; [done|].
    split; [by intros [? ?]|]. by intros (? & ? & ? & ?). }
  rewrite map_fold_insert_L; [|intros j1 j2 z1 z2 y Hj _ _|done].
  2: { destruct (today now j1.2), (today now j2.2); try done. apply bump_comm. }
  rewrite map_sum_insert_None by done. destruct IH as [IH1 IH2].
  destruct k as [nm mi]; simpl in *. destruct (today now mi) eqn:Ht.
  - rewrite lookup_insert. case_decide as Hnm.
    + subst. rewrite bool_decide_eq_true_2 by done. simpl. rewrite <- IH1.
      split; [lia|]. split; [|by eexists].
      intros _. exists mi, n. by rewrite lookup_insert_eq.
    + rewrite bool_decide_eq_false_2 by done. simpl. split; [lia|].
      rewrite IH2. apply exist_proper. intros mi'.
      rewrite lookup_insert_ne by congruence. done.
  - rewrite andb_false_r. split; [lia|]. rewrite IH2.
    split; intros (mi' & n' & Hl & Ht'); exists mi', n'; (split; [|done]).
    + rewrite lookup_insert_ne; [done|]. congruence.
    + rewrite lookup_insert_ne in Hl; [done|]. congruence.
Qed.

Lemma result_all_Ok {E A B} (f : A → result E B) (h : A → B) l :
  (∀ x, x ∈ l → f x = Ok (h x)) → result_all (map f l) = Ok (map h l).
Proof.
  induction l as [|x l IH]; intros Hl; [done|]. simpl. rewrite (Hl x) by left.
  rewrite IH; [done|]. intros y Hy. apply Hl. by right.
Qed.

Definition as_name_count (kv : string * Z) : NameCount := MkNameCount kv.1 kv.2.

Lemma totals_range L t now name n :
  represents L t → Z.of_nat (size (events t)) ≤ int64_max →
  totals now t !! name = Some n →
  n = count (row_today now name) (rows (events t)) ∧ 0 ≤ n ≤ int64_max.
Proof.
  intros Hr Hsize Hn. destruct (totals_lookup now t name) as [Hd _].
  rewrite Hn in Hd. simpl in Hd. unfold total_of in Hd.
  rewrite (sum_today _ _ _ (rep_rollup L _ Hr)) in Hd.
  pose proof (count_nonneg (row_today now name) (rows (events t))).
  pose proof (count_le_length (row_today now name) (rows (events t))) as Hle.
  rewrite length_rows in Hle. lia.
Qed.

(** Every name in the rollups is one that Postgres holds. *)
Lemma rollup_text L t name minute n :
  represents L t → event_counts_minute t !! (name, minute) = Some n → pg_text name = true.
Proof.
  intros Hr. rewrite (rep_rollup L t Hr), histogram_lookup. case_match eqn:Hz; [done|]. intros _.
  destruct (pg_text name) eqn:Ht; [done|]. exfalso. apply Z.eqb_neq in Hz. apply Hz.
  apply count_zero.
  intros k (r & -> & ([id r'] & -> & Hin%elem_of_map_to_list)%list_elem_of_fmap)%list_elem_of_fmap.
  apply bool_decide_eq_false. intros Hk. destruct (rep_present L t Hr _ _ Hin) as (e & He & _ & Hs).
  apply (represents_text L t e Hr) in He. destruct (stored_fields e r' Hs) as (Hname & _).
  unfold bucket in Hk. simpl in Hk. congruence.
Qed.

Lemma totals_text L t now name n : represents L t → totals now t !! name = Some n → pg_text name = true.
Proof.
  intros Hr Hn. destruct (totals_lookup now t name) as [_ [Hex _]].
  destruct (Hex ltac:(by eexists)) as (minute & m & Hm & _). by apply (rollup_text L t name minute m).
Qed.

(** Every name of today, ordered; the query keeps the first twenty. *)
Definition ranking (now : clock.time) (t : tables) : list NameCount :=
  order_by_count_desc (map as_name_count (map_to_list (totals now t))).

Lemma TotalsToday_ranking L s now :
  represents L (db s) → net s = [] → Z.of_nat (size (events (db s))) ≤ int64_max →
  TotalsToday now s = (Ok (take 20 (ranking now (db s))), s).
Proof.
  intros Hr Hn Hsize. unfold TotalsToday. rewrite query_quiet by done.
  rewrite (result_all_Ok _ as_name_count); [done|].
  intros [name n] Hin. apply elem_of_map_to_list in Hin. unfold name_count; simpl.
  destruct (totals_range L _ now name n Hr Hsize Hin) as [_ Hrange].
  by rewrite bigint_small.
Qed.

Lemma elem_of_ranking now t nc :
  nc ∈ ranking now t ↔ totals now t !! nc_Name nc = Some (nc_Count nc).
Proof.
  unfold ranking. rewrite order_by_count_desc_perm, list_elem_of_fmap. split.
  - intros ([name n] & -> & Hin). by apply elem_of_map_to_list in Hin.
  - intros Ht. exists (nc_Name nc, nc_Count nc). destruct nc. split; [done|].
    by apply elem_of_map_to_list.
Qed.

Lemma ranking_NoDup now t : NoDup (map nc_Name (ranking now t)).
Proof.
  unfold ranking. rewrite order_by_count_desc_perm, map_map.
  apply NoDup_fst_map_to_list.
Qed.

Lemma ranking_take_drop now t a b :
  a ∈ take 20 (ranking now t) → b ∈ drop 20 (ranking now t) → nc_Count b ≤ nc_Count a.
Proof.
  assert (StronglySorted (λ a b, nc_Count b ≤ nc_Count a) (ranking now t)) as Hs.
  { apply Sorted_StronglySorted; [intros x y z; lia|]. apply order_by_count_desc_sorted. }
  rewrite <- (take_drop 20 (ranking now t)) in Hs. apply StronglySorted_app in Hs as (Hs & _ & _).
  eauto.
Qed.

(** C22: [TotalsToday] is the top twenty: at most twenty distinct names, in
    decreasing order, each with the very count [CountToday] gives for it; and a
    name that has events today but is not listed has a count no larger than
    any listed one, and there are twenty listed ones before it. *)
Theorem TotalsToday_top_twenty L s now :
  represents L (db s) → net s = [] → Z.of_nat (size (events (db s))) ≤ int64_max →
  ∃ ncs, TotalsToday now s = (Ok ncs, s) ∧
    (length ncs ≤ 20)%nat ∧ NoDup (map nc_Name ncs) ∧
    StronglySorted (λ a b, nc_Count b ≤ nc_Count a) ncs ∧
    (∀ nc, nc ∈ ncs → CountToday now (nc_Name nc) s = (Ok (nc_Count nc), s)) ∧
    (∀ name minute n, event_counts_minute (db s) !! (name, minute) = Some n →
       today now minute = true → name ∉ map nc_Name ncs →
       length ncs = 20%nat ∧
       ∃ c, CountToday now name s = (Ok c, s) ∧ ∀ nc, nc ∈ ncs → c ≤ nc_Count nc).
Proof.
  intros Hr Hn Hsize. exists (take 20 (ranking now (db s))).
  assert (∀ nc, nc ∈ ranking now (db s) →
            CountToday now (nc_Name nc) s = (Ok (nc_Count nc), s)) as Hcount.
  { intros nc Hnc%elem_of_ranking. rewrite (CountToday_rows L), (totals_text L _ _ _ _ Hr Hnc) by done.
    by destruct (totals_range L _ _ _ _ Hr Hsize Hnc) as [-> _]. }
  split; [by apply (TotalsToday_ranking L)|]. split; [apply firstn_le_length|].
  split; [|split; [|split]].
  - pose proof (ranking_NoDup now (db s)) as Hnd.
    rewrite <- (take_drop 20 (ranking now (db s))), map_app in Hnd.
    by apply NoDup_app in Hnd as [? _].
  - apply (StronglySorted_app_1_l _ _ (drop 20 (ranking now (db s)))). rewrite take_drop.
    apply Sorted_StronglySorted; [intros x y z; lia|]. apply order_by_count_desc_sorted.
  - intros nc Hin. apply Hcount. rewrite <- (take_drop 20). apply elem_of_app. by left.
  - intros name minute n Hc Ht Hnin.
    destruct (totals_lookup now (db s) name) as [_ [_ [c Hc']]]; [by eauto|].
    assert (MkNameCount name c ∈ ranking now (db s)) as Hin by (by apply elem_of_ranking).
    pose proof (Hcount _ Hin) as HC. rewrite <- (take_drop 20), elem_of_app in Hin.
    destruct Hin as [Hin|Hin].
    { destruct Hnin. apply list_elem_of_fmap. by exists (MkNameCount name c). }
    split; [|exists c; split; [exact HC|]].
    + rewrite length_take. apply list_elem_of_lookup in Hin as [i Hi].
      apply lookup_lt_Some in Hi. rewrite length_drop in Hi. lia.
    + intros nc Hnc. apply (ranking_take_drop now (db s) nc (MkNameCount name c)); done.
Qed.

(** ** The per-minute series *)

Definition as_point (kv : (string * Z) * Z) : MinutePoint := MkMinutePoint kv.1.1 kv.1.2 kv.2.

Lemma elem_of_omap_series (P : Z → bool) (l : list ((string * Z) * Z)) mp :
  mp ∈ omap (λ kv : (string * Z) * Z,
               if P kv.1.2 then Some (MkMinutePoint kv.1.1 kv.1.2 kv.2) else None) l ↔
  P (mp_Minute mp) = true ∧ ((mp_Name mp, mp_Minute mp), mp_Count mp) ∈ l.
Proof.
  rewrite list_elem_of_omap. split.
  - intros ([[name mi] n] & Hin & Heq). simpl in Heq. case_match; [|done].
    injection Heq as <-. done.
  - intros [HP Hin]. eexists. split; [exact Hin|]. simpl. rewrite HP. by destruct mp.
Qed.

(** [Series] returns exactly the rollup rows of the window, oldest minute
    first; on tables that represent a log, each point counts the stored events
    of that name in that minute. *)
Lemma Series_window L s now window :
  represents L (db s) → net s = [] →
  ∃ pts, Series now window s = (Ok pts, s) ∧
    Sorted (λ a b, mp_Minute a ≤ mp_Minute b) pts ∧
    ∀ mp, mp ∈ pts ↔
      series_from now window ≤ mp_Minute mp ∧ 0 < mp_Count mp ∧
      mp_Count mp = occurrences (map bucket (rows (events (db s))))
                                (mp_Name mp, mp_Minute mp).
Proof.
  intros Hr Hn. unfold Series. rewrite query_quiet by done. eexists. split; [done|].
  split; [apply order_by_minute_name_sorted|]. intros mp.
  rewrite order_by_minute_name_perm.
  rewrite (elem_of_omap_series (λ mi, series_from now window <=? mi)).
  rewrite Z.leb_le, elem_of_map_to_list.
  rewrite (rep_rollup L _ Hr), histogram_lookup. unfold occurrences.
  pose proof (count_nonneg (λ x, bool_decide (x = (mp_Name mp, mp_Minute mp)))
                (map bucket (rows (events (db s))))).
  destruct (Z.eqb_spec (count (λ x, bool_decide (x = (mp_Name mp, mp_Minute mp)))
                (map bucket (rows (events (db s))))) 0) as [E|E].
  - split; [by intros [_ ?]|]. intros (_ & ? & ?). lia.
  - split.
    + intros [? [= <-]]. split; [done|]. split; [lia|done].
    + intros (? & ? & ->). done.
Qed.

(** ** Unique users *)

Lemma FromBytes_sketch_of ids :
  hll.FromBytes (hll.Bytes (hll.sketch_of ids)) = Ok (hll.sketch_of ids).
Proof. apply hll.FromBytes_Ok. split; [apply hll.sketch_of_wf|done]. Qed.

(** C23: [UniquesToday] is the estimate of the SET of distinct ids delivered
    for that name on the current day: any list [ids] with the same elements
    gives the same answer, and 0 is answered when there is none; a name that
    Postgres cannot hold is an error. *)
Theorem UniquesToday_of_set math_Log L s now name ids :
  represents L (db s) → net s = [] →
  same_elems ids (ids_of L (name, current_date now)) →
  UniquesToday math_Log now name s =
    (if pg_text name
     then Ok (match ids with
              | [] => Some 0
              | _ => hll.Estimate math_Log (hll.sketch_of ids)
              end)
     else Err (ErrPg InvalidText), s).
Proof.
  intros Hr Hn Hids. unfold UniquesToday. rewrite query_quiet by done.
  destruct (pg_text name); [|done]. cbn [negb]. rewrite (rep_uniques L _ Hr).
  destruct (ids_of L (name, current_date now)) as [|a l] eqn:E.
  - symmetry in Hids. apply same_elems_nil in Hids. by subst.
  - destruct ids as [|b ids]; [by apply same_elems_nil in Hids|].
    rewrite FromBytes_sketch_of.
    unfold hll.sketch_of.
    by rewrite <- (hll.foldl_add_spec_ext hll.New (b :: ids) (a :: l) hll.New_wf Hids).
Qed.

Lemma ids_text L t name day : represents L t → ids_of L (name, day) ≠ [] → pg_text name = true.
Proof.
  intros Hr Hids. destruct (ids_of L (name, day)) as [|id l] eqn:E; [done|].
  assert (id ∈ ids_of L (name, day)) as (e & He & (_ & Hn & _) & _)%elem_of_ids_of by (rewrite E; left).
  simpl in Hn. rewrite <- Hn. by apply (represents_text L t).
Qed.

(** [UniquesTodayAll] lists one estimate for each name that has an
    identified user today, the one [UniquesToday] gives for it (as a signed
    integer), and nothing else. *)
Lemma UniquesTodayAll_complete math_Log L s now :
  represents L (db s) → net s = [] →
  ∃ l, UniquesTodayAll math_Log now s = (Ok l, s) ∧
    ∀ name est, (name, est) ∈ l ↔
      ids_of L (name, current_date now) ≠ [] ∧
      ∃ u, UniquesToday math_Log now name s = (Ok u, s) ∧ est = int64 <$> u.
Proof.
  intros Hr Hn. unfold UniquesTodayAll, UniquesToday. rewrite query_quiet by done.
  setoid_rewrite (query_quiet _ s Hn).
  pose proof (represents_uniques_wf L _ Hr) as Hwf.
  set (h := λ kv : (string * Z) * list Z,
              (kv.1.1, int64 <$> hll.Estimate math_Log (hll.MkSketch (drop 2 kv.2)))).
  assert (∀ k raw, event_uniques_day (db s) !! k = Some raw →
            hll.FromBytes raw = Ok (hll.MkSketch (drop 2 raw))) as Hdec.
  { intros k raw Hk. destruct (Hwf k raw Hk) as (sk & Hsk & ->).
    rewrite hll.Bytes_spec by apply Hsk. simpl. rewrite drop_0.
    apply hll.FromBytes_Ok. split; [apply Hsk|]. rewrite hll.Bytes_spec by apply Hsk.
    by destruct sk. }
  rewrite (result_all_Ok _ h).
  2: { intros [k raw] [_ Hin]%list_elem_of_filter. apply elem_of_map_to_list in Hin.
       unfold unique_count; simpl. by rewrite (Hdec k raw Hin). }
  eexists. split; [done|]. intros name est. rewrite list_elem_of_fmap.
  setoid_rewrite list_elem_of_filter. split.
  - intros ([[n d] raw] & Heq & Hd & Hin). simpl in Hd. subst d.
    apply elem_of_map_to_list in Hin. unfold h in Heq; simpl in Heq.
    injection Heq as -> ->. apply and_wlog_r.
    + intros Hnil. rewrite (rep_uniques L _ Hr), Hnil in Hin. done.
    + intros Hids. rewrite (ids_text L _ _ _ Hr Hids), Hin, (Hdec _ _ Hin). by eexists.
  - intros (Hids & u & Heq & ->). rewrite (ids_text L _ _ _ Hr Hids) in Heq. cbn [negb] in Heq. destruct (event_uniques_day (db s) !! (name, current_date now))
      as [raw|] eqn:Hraw.
    + rewrite (Hdec _ _ Hraw) in Heq. injection Heq as <-.
      exists ((name, current_date now), raw). split; [done|]. split; [done|].
      by apply elem_of_map_to_list.
    + rewrite (rep_uniques L _ Hr) in Hraw. by case_match.
Qed.
End with_env.
End store_query.
