(* ===== verification/StoreProps.v ===== *)
(** * Properties of [InsertBatch], and a concrete server to run it on

    The properties are proved for every server and encoder that meet the
    [Postgres] and [Json] interfaces; [utc_server] and [flat_json] are
    instances, on which the witnesses evaluate. *)

From S2P Require Import Prelude Float64 Hll Clock Store StoreSpec StoreQuery.
From stdpp Require Import prelude gmap strings list sorting.
From Stdlib Require Import ZArith Lia.
Open Scope Z_scope.

Module store_props.
Import store store_spec store_query.

Section with_env.
Context {pg : Postgres} {js : Json}.

(** C10: [InsertBatch] refines "append the batch to the log of delivered
    events": on success the tables represent the longer log and the result is
    the number of new rows; on an error the tables are exactly as before, or
    the reply to [Commit] was lost and the whole batch is in.  There is no
    third outcome: events, rollups and sketches move together. *)
Theorem InsertBatch_refines_append L evs s r s' :
  represents L (db s) → years_ok evs → InsertBatch evs s = (r, s') →
  match r with
  | Ok n => represents (L ++ evs) (db s') ∧
            n = Z.of_nat (size (events (db s'))) - Z.of_nat (size (events (db s)))
  | Err _ => db s' = db s ∨ (FaultAfter ∈ net s ∧ represents (L ++ evs) (db s'))
  end.
Proof. apply InsertBatch_simulates. Qed.

(** C11: replaying delivered events is harmless: whatever the connection does,
    no table changes (not the counts, not the sketches), and a successful
    replay reports 0 new rows. *)
Theorem InsertBatch_replay_harmless L evs s r s' :
  represents L (db s) → years_ok evs → (∀ e, e ∈ evs → e ∈ L) →
  InsertBatch evs s = (r, s') →
  db s' = db s ∧ ∀ n, r = Ok n → n = 0.
Proof. apply InsertBatch_replay. Qed.

(** C21: over a quiet connection, a batch whose values Postgres can store
    succeeds as long as a bigint can hold the number of events; the encoder
    and the year range are the only other conditions. *)
Theorem InsertBatch_total L evs rs s :
  represents L (db s) → years_ok evs → net s = [] →
  mapM marshal_event evs = Some rs → forallb valid_text rs = true →
  forallb (λ r, jsonb_ok (in_properties r)) rs = true →
  Z.of_nat (size (events (db s))) + Z.of_nat (length evs) ≤ int64_max →
  ∃ n s', InsertBatch evs s = (Ok n, s') ∧ net s' = [].
Proof. apply InsertBatch_succeeds. Qed.

(** Any sequence of batches, errors ignored by the caller. *)
Fixpoint run_batches (batches : list (list Event)) (s : Store) : Store :=
  match batches with
  | [] => s
  | b :: batches => run_batches batches (InsertBatch b s).2
  end.

(** The events of the batches for which the caller got a success. *)
Fixpoint acknowledged (batches : list (list Event)) (s : Store) : list Event :=
  match batches with
  | [] => []
  | b :: batches =>
      let '(r, s') := InsertBatch b s in (if is_ok r then b else []) ++ acknowledged batches s'
  end.

Lemma years_ok_app evs1 evs2 : years_ok (evs1 ++ evs2) → years_ok evs1 ∧ years_ok evs2.
Proof. intros Hy. split; intros e He; apply Hy, elem_of_app; auto. Qed.

(** Whatever the connection does, the tables represent a log that has every
    acknowledged event and nothing that was not sent. *)
Lemma run_batches_log batches L s :
  represents L (db s) → years_ok (concat batches) →
  ∃ L', represents L' (db (run_batches batches s)) ∧
    (∀ e, e ∈ L ∨ e ∈ acknowledged batches s → e ∈ L') ∧
    (∀ e, e ∈ L' → e ∈ L ∨ e ∈ concat batches).
Proof.
  revert L s. induction batches as [|b batches IH]; intros L s Hr Hy.
  { exists L. split; [done|]. split; [intros e [?|[]%not_elem_of_nil]; done|auto]. }
  apply years_ok_app in Hy as [Hyb Hy]. cbn [run_batches acknowledged concat].
  destruct (InsertBatch b s) as [r s1] eqn:Hib. cbn [snd].
  assert (∃ L1, represents L1 (db s1) ∧ (∀ e, e ∈ L ∨ is_ok r = true ∧ e ∈ b → e ∈ L1) ∧
                (∀ e, e ∈ L1 → e ∈ L ∨ e ∈ b)) as (L1 & Hr1 & Hin1 & Hsub1).
  { pose proof (InsertBatch_simulates L b s r s1 Hr Hyb Hib) as Hsim.
    destruct r as [n|err]; [destruct Hsim as [Hr1 _]|destruct Hsim as [Heq|[_ Hr1]]].
    - exists (L ++ b). setoid_rewrite elem_of_app. naive_solver.
    - exists L. rewrite Heq. naive_solver.
    - exists (L ++ b). setoid_rewrite elem_of_app. naive_solver. }
  destruct (IH L1 s1 Hr1 Hy) as (L' & Hr' & Hin & Hsub). exists L'. split; [done|]. split.
  - intros e He. apply Hin. rewrite elem_of_app in He.
    destruct He as [He|[He|He]]; [left; apply Hin1; by left| |by right].
    left. apply Hin1. right. destruct (is_ok r); [done|by apply not_elem_of_nil in He].
  - intros e [He%Hsub1|He]%Hsub; rewrite elem_of_app; tauto.
Qed.

Lemma run_batches_represents batches s :
  db s = empty_tables → years_ok (concat batches) →
  (∀ e, e ∈ concat batches → e ∈ acknowledged batches s) →
  represents (concat batches) (db (run_batches batches s)).
Proof.
  intros Hdb Hy Hack. destruct (run_batches_log batches [] s) as (L & Hr & Hin & Hsub); [|done|].
  { rewrite Hdb. apply represents_empty. }
  apply (represents_same L); [|done]. intros e. split; [|by auto].
  by intros [[]%not_elem_of_nil|?]%Hsub.
Qed.

(** C20: batching, order and retries leave no trace.  Two histories of
    [InsertBatch] calls from empty tables, over connections with any faults, that
    send the same set of events, in which every event is eventually part of a
    batch that succeeded and re-sends of an id are stored as the same row, end in
    equal tables: events, rollups and sketches. *)
Theorem batching_leaves_no_trace bs1 bs2 s1 s2 :
  db s1 = empty_tables → db s2 = empty_tables →
  years_ok (concat bs1) → same_elems (concat bs1) (concat bs2) → consistent (concat bs1) →
  (∀ e, e ∈ concat bs1 → e ∈ acknowledged bs1 s1) →
  (∀ e, e ∈ concat bs2 → e ∈ acknowledged bs2 s2) →
  db (run_batches bs1 s1) = db (run_batches bs2 s2).
Proof.
  intros H1 H2 Hy Hse Hc Ha1 Ha2.
  assert (years_ok (concat bs2)) as Hy2 by (intros e He; by apply Hy, Hse).
  apply (represents_functional (concat bs1) (concat bs2)); [..|done|done]; by apply run_batches_represents.
Qed.

(** Transactions that leave events and rollups alone. *)
Definition keeps {A} (c : tx A) : Prop :=
  ∀ t fs, events (c (t, fs)).2.1 = events t ∧
          event_counts_minute (c (t, fs)).2.1 = event_counts_minute t.

Lemma keeps_exec {A} (stmt : tables → result error (A * tables)) :
  (∀ t a t', stmt t = Ok (a, t') →
     events t' = events t ∧ event_counts_minute t' = event_counts_minute t) →
  keeps (tx_exec stmt).
Proof.
  intros Hs t fs. unfold tx_exec. destruct (next fs) as [[] fs1]; [|done..].
  destruct (stmt t) as [[a t']|] eqn:E; [|done]. by apply Hs in E.
Qed.

Lemma keeps_bind {A B} (c : tx A) (f : A → tx B) :
  keeps c → (∀ a, keeps (f a)) → keeps (c ≫= f).
Proof.
  intros Hc Hf t fs. unfold mbind, tx_bind. specialize (Hc t fs).
  destruct (c (t, fs)) as [[a|e] [t1 fs1]]; simpl in *; [|done].
  destruct Hc as [<- <-]. apply Hf.
Qed.

Lemma keeps_ret {A} (a : A) : keeps (mret a).
Proof. by intros t fs. Qed.

Lemma keeps_fail {A} e : keeps (tx_fail (A := A) e).
Proof. by intros t fs. Qed.

Lemma keeps_update_key ids k : keeps (update_key ids k).
Proof.
  unfold update_key. apply keeps_bind; [|intros _; apply keeps_bind; [|intros raw]].
  - apply keeps_exec. intros t a t'. unfold ensure_row. repeat case_match; try done;
      by intros [= <- <-].
  - apply keeps_exec. intros t a t'. unfold select_sketch. repeat case_match; try done;
      by intros [= <- <-].
  - repeat case_match; auto using keeps_fail. apply keeps_exec. intros t x t'.
    unfold update_sketch. case_match; [|done]. by intros [= <- <-].
Qed.

Lemma keeps_updateUniques evs : keeps (updateUniques evs).
Proof.
  unfold updateUniques. case_bool_decide; [apply keeps_ret|].
  generalize (sorted_keys (group_ids evs)) as ks.
  induction ks; simpl; auto using keeps_ret, keeps_bind, keeps_update_key.
Qed.

Lemma batch_tx_rollup rs evs t fs n s' :
  rollup_inv t → batch_tx rs evs (t, fs) = (Ok n, s') → rollup_inv s'.1.
Proof.
  intros Hinv. unfold batch_tx. unfold mbind at 1, tx_bind at 1.
  destruct (tx_exec _ (t, fs)) as [[n1|] [t1 fs1]] eqn:Hsql; [|done].
  apply tx_exec_Ok in Hsql. pose proof (insertBatchSQL_rollup _ _ _ _ Hinv Hsql) as Hr.
  unfold mbind, tx_bind. pose proof (keeps_updateUniques evs t1 fs1) as [He Hc].
  destruct (updateUniques evs (t1, fs1)) as [[[]|] s2]; [|done].
  intros [= _ <-]. unfold rollup_inv in *. simpl in *. by rewrite He, Hc.
Qed.

(** C19: the rollup table always equals the counts recomputed from the raw
    events, whatever batches are thrown at the store, whatever faults the
    connection has, whatever errors the calls return. *)
Theorem rollups_always_agree batches s :
  rollup_inv (db s) → rollup_inv (db (run_batches batches s)).
Proof.
  revert s. induction batches as [|evs batches IH]; intros s Hinv; [done|].
  apply IH. clear IH. unfold InsertBatch. case_match; [done|].
  destruct (mapM marshal_event evs) as [rs|]; [|done].
  destruct (next (net s)) as [[] fs]; [|done..].
  destruct (batch_tx rs evs (db s, fs)) as [[n|e] [t' fs']] eqn:Hb; [|done].
  apply batch_tx_rollup in Hb; [|done].
  by destruct (next fs') as [[] fs''].
Qed.

Lemma poison_blocks evs e s r s' :
  e ∈ evs → storable_text e = false → InsertBatch evs s = (r, s') →
  (∃ err, r = Err err) ∧ db s' = db s.
Proof.
  intros He Hnul. unfold InsertBatch. case_match eqn:Hlen.
  { apply Nat.eqb_eq, length_zero_iff_nil in Hlen. subst. by apply not_elem_of_nil in He. }
  destruct (mapM marshal_event evs) as [rs|] eqn:Hm; [|intros [= <- <-]; eauto].
  destruct (next (net s)) as [[] fs]; [|intros [= <- <-]; eauto..].
  assert (forallb valid_text rs = false) as Hbad.
  { apply not_true_is_false. intros Hall. apply (marshalled_text evs rs e Hm) in Hall; [congruence|done]. }
  assert (∃ err s2, batch_tx rs evs (db s, fs) = (Err err, s2)) as (err & [t2 fs2] & ->).
  { unfold batch_tx, mbind at 1, tx_bind at 1, tx_exec.
    destruct (next fs) as [[] fs1]; [|by eauto..].
    unfold insertBatchSQL. rewrite Hbad. simpl. eauto. }
  intros [= <- <-]. eauto.
Qed.

(** C40: a duplicate is not inert.  An event whose id is already stored adds
    no row and no count, but its distinct id is still folded into the sketch of
    its own name and day: re-sent on another day, it makes that day's
    unique-user sketch appear although no event of that day is stored. *)
Theorem duplicate_feeds_sketch L e e0 s n s' :
  represents L (db s) → e0 ∈ L → EventID e = EventID e0 →
  DistinctID e ≠ "" → clock.year_ok (TS e) = true →
  InsertBatch [e] s = (Ok n, s') →
  n = 0 ∧ events (db s') = events (db s) ∧
  event_counts_minute (db s') = event_counts_minute (db s) ∧
  event_uniques_day (db s') !! (Name e, clock.utc_day (TS e)) =
    Some (hll.Bytes (hll.sketch_of
      (ids_of L (Name e, clock.utc_day (TS e)) ++ [DistinctID e]))).
Proof.
  intros Hr He0 Hid Hne Hyear Hib.
  assert (years_ok [e]) as Hy by (intros e' ->%list_elem_of_singleton; done).
  pose proof (InsertBatch_simulates L [e] s (Ok n) s' Hr Hy Hib) as [Hr' Hn].
  assert (events (db s') = events (db s)) as Hev.
  { apply map_eq. intros id. destruct (events (db s) !! id) as [row|] eqn:Hrow.
    - eapply InsertBatch_keeps_rows; [done..|by apply (represents_uniques_wf L)].
    - apply (rep_absent _ _ Hr'). intros e' [He'| ->%list_elem_of_singleton]%elem_of_app.
      + by apply (rep_absent _ _ Hr).
      + rewrite Hid. by apply (rep_absent _ _ Hr). }
  rewrite Hev in Hn. split; [lia|]. split; [done|]. split.
  - by rewrite (rep_rollup _ _ Hr), (rep_rollup _ _ Hr'), Hev.
  - rewrite (rep_uniques _ _ Hr'), ids_of_app.
    assert (ids_of [e] (Name e, clock.utc_day (TS e)) = [DistinctID e]) as ->.
    { unfold ids_of. by rewrite filter_cons_True by done. }
    by destruct (ids_of L _).
Qed.
End with_env.

(** ** A concrete server *)

Definition by_event_id (a b : incoming) : Prop := String.le (in_event_id a) (in_event_id b).
#[global] Instance by_event_id_dec : RelDecision by_event_id := λ a b, decide (String.le _ _).

Definition by_bucket (a b : (string * Z) * Z) : Prop :=
  if decide (a.1.1 = b.1.1) then a.1.2 ≤ b.1.2 else String.le a.1.1 b.1.1.
#[global] Instance by_bucket_dec : RelDecision by_bucket.
Proof. intros a b. unfold by_bucket. case_decide; apply _. Defined.

Definition by_count_desc (a b : NameCount) : Prop := nc_Count b ≤ nc_Count a.
#[global] Instance by_count_desc_dec : RelDecision by_count_desc :=
  λ a b, decide (nc_Count b ≤ nc_Count a).
#[global] Instance by_count_desc_total : Total by_count_desc.
Proof. intros a b. unfold by_count_desc. lia. Qed.

Definition by_minute (a b : MinutePoint) : Prop := mp_Minute a ≤ mp_Minute b.
#[global] Instance by_minute_dec : RelDecision by_minute :=
  λ a b, decide (mp_Minute a ≤ mp_Minute b).
#[global] Instance by_minute_total : Total by_minute.
Proof. intros a b. unfold by_minute. lia. Qed.

(** A server with byte-wise collation whose sessions are in the time zone given
    by the date of an instant and the beginning of a date; every text is taken as
    JSON. *)
Definition server_in (date midnight : Z → Z) : Postgres := {|
  order_by_event_id := merge_sort by_event_id;
  order_by_event_id_perm := merge_sort_Permutation by_event_id;
  order_by_bucket := merge_sort by_bucket;
  order_by_bucket_perm := merge_sort_Permutation by_bucket;
  order_by_count_desc := merge_sort by_count_desc;
  order_by_count_desc_perm := merge_sort_Permutation by_count_desc;
  order_by_count_desc_sorted := Sorted_merge_sort by_count_desc;
  order_by_minute_name := merge_sort by_minute;
  order_by_minute_name_perm := merge_sort_Permutation by_minute;
  order_by_minute_name_sorted := Sorted_merge_sort by_minute;
  jsonb_ok := λ _, true;
  session_date := date;
  session_midnight := midnight;
|}.

(** A zone at [offset] minutes east of UTC all year round. *)
Definition server_at (offset : Z) : Postgres :=
  server_in (λ us, (us + offset * minute_us) / day_us) (λ d, d * day_us - offset * minute_us).

Definition utc_server : Postgres := server_at 0.

Definition flat_json : Json := {| json_Marshal := λ _, Some "{}" |}.

(** "today" is the UTC day only in a UTC session: the start of the day
    used for the counts and the date used for the sketches are those of UTC at
    every instant exactly when the session time zone is UTC. *)
Lemma today_is_utc_iff_session_is offset :
  (∀ now, day_start (pg := server_at offset) now = clock.utc_day now * day_us ∧
          current_date (pg := server_at offset) now = clock.utc_day now) ↔ offset = 0.
Proof.
  assert (∀ now, clock.utc_day now = timestamptz now / day_us) as Hday.
  { intros now. unfold clock.utc_day, timestamptz. by rewrite Z.div_div by (unfold day_us; lia). }
  unfold day_start, current_date. cbn [session_date session_midnight server_at server_in]. split.
  - intros H. pose proof (proj2 (H 0)) as H0.
    pose proof (proj2 (H (1000 * (day_us - 1)))) as H1.
    rewrite Hday in H0, H1. unfold timestamptz in H0, H1.
    rewrite (Z.mul_comm 1000), Z.div_mul in H1 by lia.
    unfold day_us, minute_us in *. Z.div_mod_to_equations. lia.
  - intros -> now. rewrite Hday, Z.mul_0_l, Z.add_0_r. split; lia.
Qed.

(** New York in 2026: UTC-5, and UTC-4 from March 8, 07:00 UTC (1772953200), to
    November 1, 06:00 UTC (1793512800). *)
Definition new_york_offset (us : Z) : Z :=
  if (1772953200 * 1000000 <=? us) && (us <? 1793512800 * 1000000) then -240 else -300.
Definition new_york : Postgres :=
  server_in (λ us, (us + new_york_offset us * minute_us) / day_us)
    (λ d, let local := d * day_us in local - new_york_offset (local + 300 * minute_us) * minute_us).

(** The day on which the clocks go forward has 23 hours: at its last second it
    began 82799 seconds earlier, and a second later the next day has begun. *)
Lemma new_york_short_day :
  let last := 1773028799 * clock.Second in
  day_start (pg := new_york) last = timestamptz last - 82799 * 1000000 ∧
  day_start (pg := new_york) (last + clock.Second) = timestamptz (last + clock.Second).
Proof. split; vm_compute; reflexivity. Qed.

Section witnesses.
#[local] Existing Instance utc_server.
#[local] Existing Instance flat_json.

(** 2026-07-11 10:00:00 UTC. *)
Definition t0 : clock.time := 1783764000 * clock.Second.

Definition buy (id user : string) (t : clock.time) : Event := MkEvent id "buy" user None t.

Definition e1 : Event := buy "e1" "u1" t0.
Definition e2 : Event := buy "e2" "u2" (t0 + clock.Second).

Definition fresh : Store := MkStore empty_tables [].

(** The store after one batch with an id repeated inside it. *)
Definition after_batch : Store := (InsertBatch [e1; e2; e1] fresh).2.

Lemma batch_years : years_ok [e1; e2; e1].
Proof.
  intros e. rewrite !elem_of_cons.
  intros [->|[->|[->|[]%not_elem_of_nil]]]; vm_compute; reflexivity.
Qed.

Lemma batch_result : InsertBatch [e1; e2; e1] fresh = (Ok 2, after_batch).
Proof. unfold after_batch. apply pair_fst. vm_compute. reflexivity. Qed.

Lemma after_batch_quiet : net after_batch = [].
Proof. vm_compute. reflexivity. Qed.

Lemma after_batch_represents : represents [e1; e2; e1] (db after_batch).
Proof.
  exact (proj1 (InsertBatch_simulates [] _ fresh _ _ represents_empty batch_years batch_result)).
Qed.

Lemma batch_size : Z.of_nat (size (events (db after_batch))) ≤ int64_max.
Proof. vm_compute. discriminate. Qed.

Lemma InsertBatch_refines_append_witness :
  represents ([] ++ [e1; e2; e1]) (db after_batch) ∧
  2 = Z.of_nat (size (events (db after_batch))) - Z.of_nat (size (events (db fresh))).
Proof.
  exact (InsertBatch_refines_append [] _ fresh _ _ represents_empty batch_years batch_result).
Defined.

Lemma InsertBatch_replay_harmless_witness :
  db (InsertBatch [e2] after_batch).2 = db after_batch.
Proof.
  refine (proj1 (InsertBatch_replay_harmless [e1; e2; e1] [e2] after_batch
    (InsertBatch [e2] after_batch).1 _ after_batch_represents _ _ (surjective_pairing _))).
  - intros e ->%list_elem_of_singleton. vm_compute. reflexivity.
  - intros e ->%list_elem_of_singleton. right. left.
Defined.

(** Two histories of the same events: one batch; and two batches in the other
    order, the first of them sent twice because the reply to its [Commit] was
    lost (the sixth round trip). *)
Definition one_batch : list (list Event) := [[e1; e2; e1]].
Definition retried_batches : list (list Event) := [[e2]; [e2]; [e1]].
Definition lossy : Store := MkStore empty_tables (replicate 5 NoFault ++ [FaultAfter]).

Lemma retried_results :
  (InsertBatch [e2] lossy).1 = Err ErrConn ∧ acknowledged retried_batches lossy = [e2; e1].
Proof. split; vm_compute; reflexivity. Qed.

Lemma batching_leaves_no_trace_witness :
  db (run_batches one_batch fresh) = db (run_batches retried_batches lossy).
Proof.
  apply (batching_leaves_no_trace one_batch retried_batches fresh lossy).
  - reflexivity.
  - reflexivity.
  - exact batch_years.
  - intros e. cbn. rewrite !elem_of_cons. tauto.
  - intros a b. cbn [concat app one_batch]. rewrite !elem_of_cons.
    intros [->|[->|[->|[]%not_elem_of_nil]]] [->|[->|[->|[]%not_elem_of_nil]]];
      vm_compute; congruence.
  - assert (acknowledged one_batch fresh = [e1; e2; e1]) as -> by (vm_compute; reflexivity). intros e He. exact He.
  - rewrite (proj2 retried_results). intros e. cbn. rewrite !elem_of_cons. tauto.
Defined.

Lemma InsertBatch_total_witness :
  ∃ n s', InsertBatch [e1; e2; e1] fresh = (Ok n, s') ∧ net s' = [].
Proof.
  eapply (InsertBatch_total [] [e1; e2; e1] _ fresh represents_empty batch_years);
    [reflexivity|vm_compute; reflexivity..|vm_compute; discriminate].
Defined.

Lemma rollups_always_agree_witness : rollup_inv (db (run_batches [[e1; e2]; [e1]] fresh)).
Proof. apply rollups_always_agree. vm_compute. reflexivity. Defined.

Definition nul_name : string := String.String (Ascii.ascii_of_nat 0) "".

(** [e1] re-sent the next day. *)
Definition e1_late : Event := buy "e1" "u1" (t0 + clock.Day).

Lemma duplicate_feeds_sketch_witness :
  CountToday (t0 + clock.Day) "buy" (InsertBatch [e1_late] after_batch).2
    = (Ok 0, (InsertBatch [e1_late] after_batch).2) ∧
  event_uniques_day (db (InsertBatch [e1_late] after_batch).2) !! ("buy", 20646)
    = Some (hll.Bytes (hll.sketch_of ["u1"])).
Proof.
  assert (InsertBatch [e1_late] after_batch = (Ok 0, (InsertBatch [e1_late] after_batch).2)) as Hib.
  { apply pair_fst. vm_compute. reflexivity. }
  destruct (duplicate_feeds_sketch [e1; e2; e1] e1_late e1 after_batch 0 _
    after_batch_represents ltac:(left) ltac:(reflexivity) ltac:(discriminate)
    ltac:(vm_compute; reflexivity) Hib) as (_ & Hev & Hc & Hu).
  split.
  - unfold CountToday, query. rewrite Hc.
    assert (net (InsertBatch [e1_late] after_batch).2 = []) as Hnet by (vm_compute; reflexivity).
    destruct (InsertBatch [e1_late] after_batch).2 as [t fs]. simpl in *. subst fs.
    apply (f_equal2 pair); [vm_compute; reflexivity|reflexivity].
  - assert (ids_of [e1; e2; e1] (Name e1_late, clock.utc_day (TS e1_late)) = []) as E
      by (vm_compute; reflexivity).
    rewrite E in Hu. exact Hu.
Defined.

(** [e1] sent again by its client a minute later: the server stamps it anew. *)
Definition e1_again : Event := buy "e1" "u1" (t0 + clock.Minute).
Definition resent : list Event := [e1; e2; e1_again].
Definition after_resent : Store := (InsertBatch resent fresh).2.

Lemma resent_result : InsertBatch resent fresh = (Ok 2, after_resent).
Proof. unfold after_resent. apply pair_fst. vm_compute. reflexivity. Qed.

Lemma resent_years : years_ok resent.
Proof.
  intros e. unfold resent. rewrite !elem_of_cons.
  intros [->|[->|[->|[]%not_elem_of_nil]]]; vm_compute; reflexivity.
Qed.

Lemma after_resent_quiet : net after_resent = [].
Proof. vm_compute. reflexivity. Qed.

Lemma after_resent_represents : represents resent (db after_resent).
Proof.
  exact (proj1 (InsertBatch_simulates [] _ fresh _ _ represents_empty resent_years resent_result)).
Qed.

Lemma resent_agree : resends_agree t0 "buy" resent.
Proof.
  assert (∀ e, e ∈ resent → event_today t0 "buy" e = true) as Hall; [|by intros a b ->%Hall ->%Hall].
  intros e. unfold resent. rewrite !elem_of_cons.
  intros [->|[->|[->|[]%not_elem_of_nil]]]; vm_compute; reflexivity.
Qed.

Lemma CountToday_exactly_once_witness :
  CountToday t0 "buy" after_resent = (Ok 2, after_resent).
Proof.
  destruct (CountToday_exactly_once resent after_resent t0 "buy" after_resent_represents
    after_resent_quiet ltac:(vm_compute; discriminate)) as (kept & _ & Hc & Hn).
  rewrite Hc, (Hn resent_agree). apply (f_equal2 pair); [vm_compute; reflexivity|reflexivity].
Defined.

Lemma TotalsToday_top_twenty_witness :
  ∃ ncs, TotalsToday t0 after_batch = (Ok ncs, after_batch) ∧ (length ncs ≤ 20)%nat.
Proof.
  destruct (TotalsToday_top_twenty [e1; e2; e1] after_batch t0
    after_batch_represents after_batch_quiet batch_size) as (ncs & H1 & H2 & _).
  exists ncs. exact (conj H1 H2).
Defined.

Lemma Series_window_example :
  ∃ pts, Series t0 (15 * clock.Minute) after_batch = (Ok pts, after_batch) ∧
    MkMinutePoint "buy" (1783764000 * 1000000) 2 ∈ pts.
Proof.
  destruct (Series_window [e1; e2; e1] after_batch t0 (15 * clock.Minute)
    after_batch_represents after_batch_quiet) as (pts & H1 & _ & H3).
  exists pts. refine (conj H1 (proj2 (H3 _) _)).
  refine (conj _ (conj _ _)); vm_compute; [discriminate|reflexivity|reflexivity].
Defined.

Lemma UniquesToday_of_set_witness :
  UniquesToday (λ x, x) t0 "buy" after_batch =
    (Ok (hll.Estimate (λ x, x) (hll.sketch_of ["u2"; "u1"])), after_batch).
Proof.
  refine (UniquesToday_of_set (λ x, x) [e1; e2; e1] after_batch t0 "buy" ["u2"; "u1"]
    after_batch_represents after_batch_quiet _).
  assert (ids_of [e1; e2; e1] ("buy", current_date t0) = ["u1"; "u2"; "u1"]) as ->
    by (vm_compute; reflexivity).
  intros x. rewrite !elem_of_cons. tauto.
Defined.

End witnesses.
End store_props.
