(* ===== verification/Locks.v ===== *)
(** * Row locks: transactions that run at the same time

    [internal/store] relies on Postgres to let several [InsertBatch]es run at
    once: its comments argue that every batch takes its row locks in the same
    order and so queues instead of deadlocking.  This file is the theory behind
    the argument, for any table of rows that are never deleted.

    A transaction is a tree of row operations, each with the locking behaviour
    of its SQL statement under READ COMMITTED.  [run] executes a transaction
    alone; [step] interleaves any number of them, one row operation at a time,
    over the committed rows, the locks and the uncommitted writes.
    [interleaving_serial]: every interleaving has the effect and the answers of
    running the transactions alone, in the order in which they ended.
    [ascending_progress]: transactions that take their locks in ascending order
    cannot block each other for ever. *)

From S2P Require Import Prelude.
From stdpp Require Import prelude list relations.
From Stdlib Require Import Lia.

(** ** Rows *)

Class RowStore (db : Type) : Type := {
  row : Type;
  #[global] row_eq_dec :: EqDecision row;
  val : row → Type;
  get : ∀ k : row, db → option (val k);
  put : ∀ k : row, val k → db → db;
  get_put_eq k v t : get k (put k v t) = Some v;
  get_put_ne j k v t : j ≠ k → get j (put k v t) = get j t;
}.

Module locks.
Section locks.
Context {db : Type} {rs : RowStore db} {E : Type} (no_rows : E).

(** ** Transactions *)

Inductive prog (A : Type) : Type :=
  | Ret (a : A)                                   (* [COMMIT] *)
  | Fail (e : E)                                  (* [ROLLBACK] *)
  | InsertNothing (k : row) (v : val k) (f : bool → prog A)
      (* [INSERT .. ON CONFLICT DO NOTHING], [f true] if the row is new *)
  | Upsert (k : row) (v : val k) (m : val k → result E (val k)) (p : prog A)
      (* [INSERT .. ON CONFLICT DO UPDATE SET m] *)
  | SelectForUpdate (k : row) (f : val k → prog A)
      (* [SELECT .. FOR UPDATE], scanned: no row is an error *)
  | Update (k : row) (v : val k) (p : prog A).
      (* [UPDATE .. WHERE key = k] *)
Arguments Ret {A} a.
Arguments Fail {A} e.
Arguments InsertNothing {A} k v f.
Arguments Upsert {A} k v m p.
Arguments SelectForUpdate {A} k f.
Arguments Update {A} k v p.

(** A transaction on its own. *)
Fixpoint run {A} (p : prog A) (t : db) : result E (A * db) :=
  match p with
  | Ret a => Ok (a, t)
  | Fail e => Err e
  | InsertNothing k v f =>
      match get k t with
      | Some _ => run (f false) t
      | None => run (f true) (put k v t)
      end
  | Upsert k v m p =>
      match get k t with
      | None => run p (put k v t)
      | Some old =>
          match m old with
          | Ok new => run p (put k new t)
          | Err e => Err e
          end
      end
  | SelectForUpdate k f =>
      match get k t with
      | Some v => run (f v) t
      | None => Err no_rows
      end
  | Update k v p =>
      match get k t with
      | Some _ => run p (put k v t)
      | None => run p t
      end
  end.

(** ** Running together *)

(** The writes of an open transaction, oldest first. *)
Definition writes : Type := list { k : row & val k }.

Definition apply (w : writes) (t : db) : db :=
  fold_left (λ t kv, put (projT1 kv) (projT2 kv) t) w t.

Inductive txn (A : Type) : Type :=
  | Open (held : list row) (w : writes) (rest : prog A)
  | Closed.
Arguments Open {A} held w rest.
Arguments Closed {A}.

Definition held {A} (x : txn A) : list row :=
  match x with Open h _ _ => h | Closed => [] end.

Definition is_open {A} (x : txn A) : bool :=
  match x with Open _ _ _ => true | Closed => false end.

(** The server: the committed rows, the open transactions, and the answers
    given so far, in order: who, and the result or the error. *)
Record sys (A : Type) : Type := MkSys {
  committed : db;
  txs : list (txn A);
  answers : list (nat * result E A);
}.
Arguments MkSys {A} _ _ _.
Arguments committed {A} _.
Arguments txs {A} _.
Arguments answers {A} _.

Definition start {A} (ps : list (prog A)) (t : db) : sys A :=
  MkSys t (map (Open [] []) ps) [].

(** No transaction but [i] has a lock on [k]. *)
Definition free {A} (i : nat) (k : row) (xs : list (txn A)) : Prop :=
  ∀ j x, xs !! j = Some x → j ≠ i → k ∉ held x.

(** The next row operation of one transaction: what it sees is the committed
    rows under its own writes. *)
Inductive op_step {A} (i : nat) (xs : list (txn A)) (c : db) : txn A → txn A → Prop :=
  | op_insert_skip h w k v f :
      is_Some (get k (apply w c)) →
      op_step i xs c (Open h w (InsertNothing k v f)) (Open h w (f false))
  | op_insert_new h w k v f :
      get k (apply w c) = None → free i k xs →
      op_step i xs c (Open h w (InsertNothing k v f)) (Open (k :: h) (w ++ [existT k v]) (f true))
  | op_upsert_new h w k v m p :
      get k (apply w c) = None → free i k xs →
      op_step i xs c (Open h w (Upsert k v m p)) (Open (k :: h) (w ++ [existT k v]) p)
  | op_upsert_old h w k v m p old new :
      get k (apply w c) = Some old → free i k xs → m old = Ok new →
      op_step i xs c (Open h w (Upsert k v m p)) (Open (k :: h) (w ++ [existT k new]) p)
  | op_select h w k f v :
      get k (apply w c) = Some v → free i k xs →
      op_step i xs c (Open h w (SelectForUpdate k f)) (Open (k :: h) w (f v))
  | op_update h w k v p :
      is_Some (get k (apply w c)) → free i k xs →
      op_step i xs c (Open h w (Update k v p)) (Open (k :: h) (w ++ [existT k v]) p)
  | op_update_none h w k v p :
      get k (apply w c) = None →
      op_step i xs c (Open h w (Update k v p)) (Open h w p).

(** The end of a transaction: its result, or its error and no effect. *)
Inductive end_step {A} (i : nat) (xs : list (txn A)) (c : db) : txn A → db → result E A → Prop :=
  | end_commit h w a :
      end_step i xs c (Open h w (Ret a)) (apply w c) (Ok a)
  | end_fail h w e :
      end_step i xs c (Open h w (Fail e)) c (Err e)
  | end_upsert h w k v m p old e :
      get k (apply w c) = Some old → free i k xs → m old = Err e →
      end_step i xs c (Open h w (Upsert k v m p)) c (Err e)
  | end_no_rows h w k f :
      get k (apply w c) = None →
      end_step i xs c (Open h w (SelectForUpdate k f)) c (Err no_rows).

Inductive run_step {A} : sys A → sys A → Prop :=
  | step_op s i x x' :
      txs s !! i = Some x → op_step i (txs s) (committed s) x x' →
      run_step s (MkSys (committed s) (<[i := x']> (txs s)) (answers s))
  | step_end s i x c' r :
      txs s !! i = Some x → end_step i (txs s) (committed s) x c' r →
      run_step s (MkSys c' (<[i := Closed]> (txs s)) (answers s ++ [(i, r)])).

(** A client may also vanish; its transaction is rolled back. *)
Inductive step {A} : sys A → sys A → Prop :=
  | step_run s s' : run_step s s' → step s s'
  | step_crash s i h w p :
      txs s !! i = Some (Open h w p) →
      step s (MkSys (committed s) (<[i := Closed]> (txs s)) (answers s)).

(** Running the transactions of a list of answers alone, one after the other,
    each giving the recorded answer. *)
Inductive serial {A} (ps : list (prog A)) : db → list (nat * result E A) → db → Prop :=
  | serial_nil t : serial ps t [] t
  | serial_ok t i p a t1 l t2 :
      ps !! i = Some p → run p t = Ok (a, t1) → serial ps t1 l t2 →
      serial ps t ((i, Ok a) :: l) t2
  | serial_err t i p e l t2 :
      ps !! i = Some p → run p t = Err e → serial ps t l t2 →
      serial ps t ((i, Err e) :: l) t2.

(** ** Serializability *)

(** A transaction that updates only rows it has locked. *)
Fixpoint owning {A} (h : list row) (p : prog A) : Prop :=
  match p with
  | Ret _ | Fail _ => True
  | InsertNothing k v f => owning h (f false) ∧ owning (k :: h) (f true)
  | Upsert k v m p => owning (k :: h) p
  | SelectForUpdate k f => ∀ v, owning (k :: h) (f v)
  | Update k v p => k ∈ h ∧ owning (k :: h) p
  end.

(** [prefix c p0 h w p]: alone on [c], the transaction [p0] gets to [p] holding
    the locks [h], with the writes [w]. *)
Inductive prefix {A} (c : db) (p0 : prog A) : list row → writes → prog A → Prop :=
  | prefix_refl : prefix c p0 [] [] p0
  | prefix_step h w p h' w' p' :
      prefix c p0 h w p → op_step 0 [] c (Open h w p) (Open h' w' p') →
      prefix c p0 h' w' p'.

Lemma apply_app w1 w2 t : apply (w1 ++ w2) t = apply w2 (apply w1 t).
Proof. apply fold_left_app. Qed.

Lemma apply_agree k w c c' : get k c = get k c' → get k (apply w c) = get k (apply w c').
Proof.
  revert c c'. induction w as [|[j v] w IH]; intros c c' Hk; [done|]. simpl. apply IH. simpl.
  destruct (decide (k = j)) as [->|]; [by rewrite !get_put_eq|by rewrite !get_put_ne].
Qed.

Lemma apply_mono k w c c' :
  (is_Some (get k c) → is_Some (get k c')) →
  is_Some (get k (apply w c)) → is_Some (get k (apply w c')).
Proof.
  revert c c'. induction w as [|[j v] w IH]; intros c c' Hk; [done|]. simpl. apply IH. simpl.
  destruct (decide (k = j)) as [->|]; [rewrite !get_put_eq; eauto|by rewrite !get_put_ne].
Qed.

Lemma apply_keeps k w c : is_Some (get k c) → is_Some (get k (apply w c)).
Proof.
  revert c. induction w as [|[j v] w IH]; intros c Hk; [done|]. simpl. apply IH. simpl.
  destruct (decide (k = j)) as [->|]; [rewrite get_put_eq; eauto|by rewrite get_put_ne].
Qed.

Lemma apply_other k w c : (∀ kv, kv ∈ w → projT1 kv ≠ k) → get k (apply w c) = get k c.
Proof.
  revert c. induction w as [|[j v] w IH]; intros c Hw; [done|]. simpl. rewrite IH.
  - apply get_put_ne. intros ->. by apply (Hw (existT j v)); [left|].
  - intros kv Hkv. apply Hw. by right.
Qed.

Lemma prefix_run {A} c (p0 : prog A) h w p : prefix c p0 h w p → run p0 c = run p (apply w c).
Proof.
  induction 1 as [|h w p h' w' p' _ IH Hop]; [done|]. rewrite IH. clear IH.
  inversion Hop; simplify_eq/=; rewrite ?apply_app; simpl;
    repeat match goal with
    | H : is_Some _ |- _ => destruct H as [? ->]
    | H : get _ _ = _ |- _ => rewrite H; clear H
    | H : _ = Ok _ |- _ => rewrite H; clear H
    end; done.
Qed.

Lemma free_nil {A} i k : free i k ([] : list (txn A)).
Proof. intros j x Hx. by rewrite lookup_nil in Hx. Qed.

(** Row operations depend on the others only through [free]. *)
Lemma op_step_alone {A} i xs c (x x' : txn A) : op_step i xs c x x' → op_step 0 [] c x x'.
Proof. destruct 1; econstructor; eauto using free_nil. Qed.

Lemma op_step_open {A} i xs c (x x' : txn A) :
  op_step i xs c x x' → ∃ h w p h' w' p', x = Open h w p ∧ x' = Open h' w' p'.
Proof. destruct 1; eauto 10. Qed.

Lemma op_step_held {A} i xs c (x x' : txn A) k :
  op_step i xs c x x' → k ∈ held x' → k ∈ held x ∨ free i k xs.
Proof. destruct 1; simpl; rewrite ?elem_of_cons; intuition (subst; auto). Qed.

Lemma op_step_grows {A} i xs c (x x' : txn A) : op_step i xs c x x' → held x ⊆ held x'.
Proof. destruct 1; intros j Hj; simpl; rewrite ?elem_of_cons; auto. Qed.

(** What a transaction with the discipline knows at every point: the writes are
    to locked rows, and the locked rows exist. *)
Lemma prefix_owning {A} c (p0 : prog A) h w p :
  owning [] p0 → prefix c p0 h w p →
  owning h p ∧ (∀ kv, kv ∈ w → projT1 kv ∈ h) ∧ (∀ k, k ∈ h → is_Some (get k (apply w c))).
Proof.
  intros H0. induction 1 as [|h w p h' w' p' _ IH Hop].
  { split_and!; [done| |]; intros ? ?%not_elem_of_nil; done. }
  destruct IH as (Ho & Hw & Hh).
  assert (∀ k v, (∀ kv, kv ∈ w ++ [existT k v] → projT1 kv ∈ k :: h) ∧
      (∀ j, j ∈ k :: h → is_Some (get j (apply (w ++ [existT k v]) c)))) as Hext.
  { intros k v. split.
    - intros kv [Hkv|Hkv]%elem_of_app; [by right; apply Hw|].
      apply list_elem_of_singleton in Hkv as ->. by left.
    - intros j Hj. rewrite apply_app. simpl.
      destruct (decide (j = k)) as [->|]; [rewrite get_put_eq; eauto|].
      rewrite get_put_ne by done. apply Hh. by apply elem_of_cons in Hj as [|]. }
  inversion Hop; subst; clear Hop; simpl in Ho.
  - split_and!; [apply Ho|done|done].
  - split; [apply Ho|apply Hext].
  - split; [apply Ho|apply Hext].
  - split; [apply Ho|apply Hext].
  - split_and!; [apply Ho|intros kv Hkv; right; auto|]. intros j [->|Hj]%elem_of_cons; eauto.
  - split; [apply Ho|apply Hext].
  - destruct (Hh k) as [? Hk]; [apply Ho|]. congruence.
Qed.

Lemma prefix_stable {A} c c' (p0 : prog A) h w p :
  owning [] p0 → prefix c p0 h w p →
  (∀ k, k ∈ h → get k c = get k c') →
  (∀ k, is_Some (get k c) → is_Some (get k c')) →
  prefix c' p0 h w p.
Proof.
  intros H0 Hp Hh Hmono. revert Hh. induction Hp as [|h w p h' w' p' Hp IH Hop]; intros Hh.
  { constructor. }
  eapply prefix_step.
  { apply IH. intros k Hk. apply Hh. by apply (op_step_grows _ _ _ _ _ Hop). }
  destruct (prefix_owning c p0 h w p H0 Hp) as (Ho & _ & Hvis).
  assert (∀ k, k ∈ h' → get k (apply w c) = get k (apply w c')) as Hag.
  { intros k Hk. by apply apply_agree, Hh. }
  inversion Hop; subst.
  - apply op_insert_skip. eapply apply_mono; [apply Hmono|done].
  - apply op_insert_new; [rewrite <- Hag by left; done|apply free_nil].
  - apply op_upsert_new; [rewrite <- Hag by left; done|apply free_nil].
  - eapply op_upsert_old; [rewrite <- Hag by left; done|apply free_nil|done].
  - eapply op_select; [rewrite <- Hag by left; done|apply free_nil].
  - apply op_update; [rewrite <- Hag by left; done|apply free_nil].
  - destruct (Hvis k) as [? Hk]; [apply Ho|]. congruence.
Qed.

(** The answer of a transaction that ends is that of running it alone now. *)
Lemma end_step_run {A} i xs c (p0 : prog A) h w p c' r :
  prefix c p0 h w p → end_step i xs c (Open h w p) c' r →
  match r with
  | Ok a => run p0 c = Ok (a, c')
  | Err e => run p0 c = Err e ∧ c' = c
  end.
Proof.
  intros Hp He. rewrite (prefix_run _ _ _ _ _ Hp).
  inversion He; simplify_eq/=; try done;
    repeat match goal with
    | H : get _ _ = _ |- _ => rewrite H; clear H
    | H : _ = Err _ |- _ => rewrite H; clear H
    end; done.
Qed.

Lemma end_step_touches {A} i xs c (p0 : prog A) h w p c' r k :
  owning [] p0 → prefix c p0 h w p → end_step i xs c (Open h w p) c' r →
  (k ∉ h → get k c = get k c') ∧ (is_Some (get k c) → is_Some (get k c')).
Proof.
  intros H0 Hp He. destruct (prefix_owning c p0 h w p H0 Hp) as (_ & Hw & _).
  inversion He; simplify_eq/=; try done. split.
  - intros Hk. symmetry. apply apply_other. intros kv Hkv <-. by apply Hk, Hw.
  - apply apply_keeps.
Qed.

Lemma serial_snoc {A} (ps : list (prog A)) t l t1 i p r t2 :
  serial ps t l t1 → ps !! i = Some p →
  match r with
  | Ok a => run p t1 = Ok (a, t2)
  | Err e => run p t1 = Err e ∧ t2 = t1
  end →
  serial ps t (l ++ [(i, r)]) t2.
Proof.
  induction 1 as [t|t j q a t' l t3 Hj Hq Hs IH|t j q e l t3 Hj Hq Hs IH]; intros Hi Hr; simpl.
  - destruct r as [a|e]; [eapply serial_ok; eauto; constructor|].
    destruct Hr as [? ->]. eapply serial_err; eauto. constructor.
  - eapply serial_ok; eauto.
  - eapply serial_err; eauto.
Qed.

Record inv {A} (ps : list (prog A)) (t0 : db) (s : sys A) : Prop := {
  inv_prefix i h w p :
    txs s !! i = Some (Open h w p) →
    ∃ p0, ps !! i = Some p0 ∧ prefix (committed s) p0 h w p;
  inv_disjoint i j x y k :
    txs s !! i = Some x → txs s !! j = Some y → i ≠ j → k ∈ held x → k ∉ held y;
  inv_serial : serial ps t0 (answers s) (committed s);
}.

Lemma inv_start {A} (ps : list (prog A)) t : inv ps t (start ps t).
Proof.
  split; simpl.
  - intros i h w p Hi. rewrite list_lookup_fmap in Hi.
    destruct (ps !! i) as [p0|] eqn:Hp; simplify_eq/=. eauto using prefix.
  - intros i j x y k Hi _ _ Hk. rewrite list_lookup_fmap in Hi.
    destruct (ps !! i); simplify_eq/=. by apply not_elem_of_nil in Hk.
  - constructor.
Qed.

(** Disjointness after transaction [i] changed its locks to a set that others
    do not hold. *)
Lemma disjoint_insert {A} (xs : list (txn A)) i x' :
  (∀ i j x y k, xs !! i = Some x → xs !! j = Some y → i ≠ j → k ∈ held x → k ∉ held y) →
  (∀ k, k ∈ held x' → free i k xs) →
  ∀ i1 j x y k, <[i := x']> xs !! i1 = Some x → <[i := x']> xs !! j = Some y →
    i1 ≠ j → k ∈ held x → k ∉ held y.
Proof.
  intros Hd Hfree i1 j x y k. rewrite !list_lookup_insert_Some.
  intros [(-> & -> & _)|[Hi Hx]] [(-> & -> & _)|[Hj Hy]] Hne Hk; try done.
  - by apply (Hfree k Hk j y Hy).
  - intros Hk'. by apply (Hfree k Hk' i1 x Hx).
  - exact (Hd i1 j x y k Hx Hy Hne Hk).
Qed.

Lemma inv_step {A} (ps : list (prog A)) t0 s s' :
  Forall (owning []) ps → inv ps t0 s → step s s' → inv ps t0 s'.
Proof.
  intros Hps Hinv Hstep. destruct Hinv as [Hp Hd Hs].
  assert (∀ i x k, txs s !! i = Some x → k ∈ held x → free i k (txs s)) as Hown.
  { intros i x k Hx Hk j y Hy Hne. exact (Hd i j x y k Hx Hy (not_eq_sym Hne) Hk). }
  assert (∀ i, ∀ k, k ∈ held (Closed : txn A) → free i k (txs s)) as Hclosed.
  { by intros i k ?%not_elem_of_nil. }
  destruct Hstep as [s1 s2 [s i x x' Hx Hop|s i x c' r Hx Hend]|s i h0 w0 p0 Hx]; split; simpl; try done.
  - intros j h w p [(-> & ? & _)|[Hne Hj]]%list_lookup_insert_Some; [|by apply Hp].
    subst. destruct (op_step_open _ _ _ _ _ Hop) as (h0 & w0 & q & h' & w' & q' & -> & ?).
    simplify_eq. destruct (Hp _ h0 w0 q Hx) as (p0 & Hi & Hpre).
    exists p0. split; [done|]. eauto using prefix_step, op_step_alone.
  - apply disjoint_insert; [done|]. intros k Hk.
    destruct (op_step_held _ _ _ _ _ k Hop Hk) as [Hin|]; [by eapply Hown|done].
  - intros j h w p [(_ & ? & _)|[Hne Hj]]%list_lookup_insert_Some; [done|].
    destruct (Hp j h w p Hj) as (p0 & Hp0 & Hpre). exists p0. split; [done|].
    destruct x as [hi wi q|]; [|inversion Hend].
    destruct (Hp i hi wi q Hx) as (q0 & Hq0 & Hqre).
    assert (∀ i p, ps !! i = Some p → owning [] p) as Hall by (by apply Forall_lookup).
    eapply prefix_stable; [by eauto|done| |].
    + intros k Hk. eapply end_step_touches; eauto. exact (Hd j i _ _ k Hj Hx (not_eq_sym Hne) Hk).
    + intros k. eapply end_step_touches; eauto.
  - apply disjoint_insert; [done|apply Hclosed].
  - destruct x as [hi wi q|]; [|inversion Hend].
    destruct (Hp i hi wi q Hx) as (q0 & Hq0 & Hqre).
    eapply serial_snoc; [exact Hs|exact Hq0|]. exact (end_step_run _ _ _ _ _ _ _ _ _ Hqre Hend).
  - intros j h w p [(_ & ? & _)|[Hne Hj]]%list_lookup_insert_Some; [done|]. by apply Hp.
  - apply disjoint_insert; [done|apply Hclosed].
Qed.

(** Every interleaving is the serial execution in the order of the answers. *)
Theorem interleaving_serial {A} (ps : list (prog A)) t s :
  Forall (owning []) ps → rtc step (start ps t) s → serial ps t (answers s) (committed s).
Proof.
  intros Hps Hs. apply inv_serial. revert Hs.
  apply (rtc_ind_r (λ s, inv ps t s)); [apply inv_start|]. eauto using inv_step.
Qed.

(** ** Progress *)

(** The row the next operation may have to wait for. *)
Definition wants {A} (p : prog A) : option row :=
  match p with
  | Ret _ | Fail _ => None
  | InsertNothing k _ _ | Upsert k _ _ _ | SelectForUpdate k _ | Update k _ _ => Some k
  end.

Lemma free_or_held {A} i k (xs : list (txn A)) :
  free i k xs ∨ ∃ j y, xs !! j = Some y ∧ j ≠ i ∧ k ∈ held y.
Proof.
  destruct (decide (Exists (λ j, j ≠ i ∧ k ∈ held (default Closed (xs !! j)))
              (seq 0 (length xs)))) as [He|He].
  - right. apply Exists_exists in He as (j & _ & Hj & Hk).
    destruct (xs !! j) as [y|] eqn:Hy; simpl in Hk; [eauto|].
    by apply not_elem_of_nil in Hk.
  - left. intros j y Hy Hne Hk. apply He, Exists_exists. exists j.
    rewrite Hy. split; [|done]. apply elem_of_seq. apply lookup_lt_Some in Hy. lia.
Qed.

(** An open transaction can go on, or waits for a row that another one has. *)
Lemma step_or_blocked {A} (s : sys A) i h w p :
  txs s !! i = Some (Open h w p) →
  (∃ s', run_step s s') ∨
  ∃ k j y, wants p = Some k ∧ txs s !! j = Some y ∧ j ≠ i ∧ k ∈ held y.
Proof.
  intros Hi.
  assert (∀ x', op_step i (txs s) (committed s) (Open h w p) x' → ∃ s', run_step s s') as Hop.
  { intros x' Hx. eexists. by eapply step_op. }
  assert (∀ c' r, end_step i (txs s) (committed s) (Open h w p) c' r → ∃ s', run_step s s') as Hend.
  { intros c' r Hr. eexists. by eapply step_end. }
  assert (∀ k, wants p = Some k → free i k (txs s) ∨
      ∃ k j y, wants p = Some k ∧ txs s !! j = Some y ∧ j ≠ i ∧ k ∈ held y) as Hw.
  { intros k Hk. destruct (free_or_held i k (txs s)) as [|(j & y & ?)]; [by left|].
    right. by exists k, j, y. }
  destruct p as [a|e|k v f|k v m p|k f|k v p]; simpl in *.
  - left. eapply Hend. constructor.
  - left. eapply Hend. constructor.
  - destruct (Hw k) as [Hf|?]; [done| |by right]. left.
    destruct (get k (apply w (committed s))) eqn:Hg; eapply Hop; eauto using op_step.
  - destruct (Hw k) as [Hf|?]; [done| |by right]. left.
    destruct (get k (apply w (committed s))) as [old|] eqn:Hg; [|eauto using op_step].
    destruct (m old) eqn:Hm; [eapply Hop|eapply Hend]; eauto using op_step, end_step.
  - destruct (Hw k) as [Hf|?]; [done| |by right]. left.
    destruct (get k (apply w (committed s))) eqn:Hg;
      [eapply Hop|eapply Hend]; eauto using op_step, end_step.
  - destruct (Hw k) as [Hf|?]; [done| |by right]. left.
    destruct (get k (apply w (committed s))) eqn:Hg; eapply Hop; eauto using op_step.
Qed.

Section ascending.
Context (le : row → row → Prop) {le_po : PartialOrder le} {le_dec : RelDecision le}.

(** A transaction that touches rows in ascending order; [b] are those touched. *)
Fixpoint ascending {A} (b : list row) (p : prog A) : Prop :=
  match p with
  | Ret _ | Fail _ => True
  | InsertNothing k v f => (∀ j, j ∈ b → le j k) ∧ ∀ r, ascending (k :: b) (f r)
  | Upsert k v m p => (∀ j, j ∈ b → le j k) ∧ ascending (k :: b) p
  | SelectForUpdate k f => (∀ j, j ∈ b → le j k) ∧ ∀ v, ascending (k :: b) (f v)
  | Update k v p => (∀ j, j ∈ b → le j k) ∧ ascending (k :: b) p
  end.

Definition asc_inv {A} (s : sys A) : Prop :=
  ∀ i h w p, txs s !! i = Some (Open h w p) → ∃ b, h ⊆ b ∧ ascending b p.

Lemma asc_wants {A} b (p : prog A) k j : ascending b p → wants p = Some k → j ∈ b → le j k.
Proof. destruct p; simpl; intros; simplify_eq; intuition auto. Qed.

Lemma asc_inv_step {A} (s s' : sys A) : asc_inv s → step s s' → asc_inv s'.
Proof.
  intros Hinv Hstep. revert Hinv.
  destruct Hstep as [s1 s2 [s0 i x x' Hx Hop|s0 i x c' r Hx Hend]|s0 i h0 w0 p0 Hx];
    intros Hinv j h w p; simpl;
    intros [(-> & ? & _)|[Hne Hj]]%list_lookup_insert_Some; simplify_eq; eauto.
  inversion Hop; subst; destruct (Hinv _ _ _ _ Hx) as (b & Hb & Ha); simpl in Ha;
    (eexists; split; [|apply Ha]; intros y Hy; rewrite ?elem_of_cons in *; intuition auto).
Qed.

(** Where some transaction is open, some transaction can go on. *)
Theorem ascending_progress {A} (s : sys A) :
  asc_inv s →
  (∀ i j x y k, txs s !! i = Some x → txs s !! j = Some y → i ≠ j → k ∈ held x → k ∉ held y) →
  (∃ i h w p, txs s !! i = Some (Open h w p)) → ∃ s', run_step s s'.
Proof.
  intros Hasc Hd (i & h & w & p & Hi).
  set (W := omap (λ x, match x with Open _ _ p => wants p | Closed => None end) (txs s)).
  assert (∀ i h w p k, txs s !! i = Some (Open h w p) → wants p = Some k → k ∈ W) as HW.
  { intros i0 h0 w0 p0 k Hi0 Hk. apply list_elem_of_omap. exists (Open h0 w0 p0).
    split; [by eapply list_elem_of_lookup_2|done]. }
  set (above := λ k, length (filter (strict le k) W)).
  remember (match wants p with Some k => above k | None => 0%nat end) as n eqn:Hn.
  revert i h w p Hi Hn. induction (lt_wf n) as [n _ IH]; intros i h w p Hi Hn.
  destruct (step_or_blocked s i h w p Hi) as [|(k & j & y & Hk & Hj & Hne & Hky)]; [done|].
  destruct y as [hj wj q|]; [|by apply not_elem_of_nil in Hky].
  destruct (step_or_blocked s j hj wj q Hj) as [|(k' & l & z & Hk' & Hl & Hne' & Hkz)]; [done|].
  refine (IH _ _ j hj wj q Hj eq_refl). subst n. rewrite Hk, Hk'.
  assert (strict le k k') as Hlt.
  { destruct (Hasc j hj wj q Hj) as (b & Hb & Hq). apply strict_spec_alt. split.
    - eapply asc_wants; eauto.
    - intros ->. exact (Hd j l _ z k' Hj Hl (not_eq_sym Hne') Hky Hkz). }
  apply filter_length_lt with k'; [| |done|by intros [_ []]].
  - intros x Hx. by etrans.
  - by eapply HW.
Qed.
End ascending.

(** ** Termination *)

(** What one step makes of one transaction. *)
Inductive successor {A} : txn A → txn A → Prop :=
  | successor_op i xs c x x' : op_step i xs c x x' → successor x x'
  | successor_closed h w p : successor (Open h w p) Closed.

Lemma closed_sn {A} : sn successor (Closed : txn A).
Proof. constructor. intros y Hy. inversion Hy as [i xs c x x' Hop|]; inversion Hop. Qed.

(** The transaction that is left after one operation. *)
Definition after {A} (p p' : prog A) : Prop :=
  match p with
  | Ret _ | Fail _ => False
  | InsertNothing k v f => ∃ r, p' = f r
  | SelectForUpdate k f => ∃ v, p' = f v
  | Upsert _ _ _ q | Update _ _ q => p' = q
  end.

Lemma op_step_after {A} i xs c (x x' : txn A) :
  op_step i xs c x x' →
  match x, x' with Open _ _ p, Open _ _ p' => after p p' | _, _ => False end.
Proof. destruct 1; simpl; eauto. Qed.

Lemma txn_sn {A} (p : prog A) : ∀ h w, sn successor (Open h w p).
Proof.
  assert (∀ p : prog A, (∀ p', after p p' → ∀ h w, sn successor (Open h w p')) →
    ∀ h w, sn successor (Open h w p)) as Hstep.
  { clear p. intros p IH h w. constructor. intros y Hy.
    inversion Hy as [i xs c x x' Hop|]; subst; [|apply closed_sn].
    apply op_step_after in Hop. destruct y; [by apply IH|done]. }
  induction p as [a|e|k v f IH|k v m p IH|k f IH|k v p IH]; apply Hstep; simpl.
  - done.
  - done.
  - intros p' [r ->]. apply IH.
  - by intros p' ->.
  - intros p' [v ->]. apply IH.
  - by intros p' ->.
Qed.

Definition one_moves {A} (xs xs' : list (txn A)) : Prop :=
  ∃ i x x', xs !! i = Some x ∧ successor x x' ∧ xs' = <[i := x']> xs.

Lemma one_moves_sn {A} (xs : list (txn A)) : Forall (sn successor) xs → sn one_moves xs.
Proof.
  induction 1 as [|x xs Hx Hxs IH].
  { constructor. intros ys (i & x & x' & Hi & _). by rewrite lookup_nil in Hi. }
  clear Hxs. revert xs IH. induction Hx as [x _ IHx]. intros xs Hxs.
  induction Hxs as [xs Hacc IHxs]. constructor.
  intros ys ([|i] & y & y' & Hi & Hy & ->); simplify_eq/=.
  - apply IHx; [done|by constructor].
  - apply IHxs. by exists i, y, y'.
Qed.

Lemma step_one_moves {A} (s s' : sys A) : step s s' → one_moves (txs s) (txs s').
Proof.
  intros [s1 s2 [s0 i x x' Hx Hop|s0 i x c' r Hx Hend]|s0 i h w p Hx]; simpl.
  - exists i, x, x'. split_and!; [done|by econstructor|done].
  - exists i, x, Closed. split_and!; [done| |done]. destruct Hend; constructor.
  - exists i, (Open h w p), Closed. split_and!; [done|constructor|done].
Qed.

(** No schedule goes on for ever. *)
Theorem schedules_finite {A} (ps : list (prog A)) t : sn step (start ps t).
Proof.
  assert (∀ xs, sn one_moves xs → ∀ s : sys A, txs s = xs → sn step s) as Hsn.
  { induction 1 as [xs _ IH]. intros s <-. constructor. intros s' Hs.
    by apply (IH (txs s')); [apply step_one_moves|]. }
  apply (Hsn (txs (start ps t))); [|done]. apply one_moves_sn, Forall_fmap, Forall_true.
  intros p. apply txn_sn.
Qed.

(** Transactions that lock in ascending order: wherever a schedule stands, all
    have ended or one can go on. *)
Theorem ascending_never_stuck {A} (le : row → row → Prop) `{!PartialOrder le, !RelDecision le}
    (ps : list (prog A)) t s :
  Forall (owning []) ps → Forall (ascending le []) ps → rtc step (start ps t) s →
  (∃ s', run_step s s') ∨ ∀ x, x ∈ txs s → x = Closed.
Proof.
  intros Hown Hasc Hs.
  assert (inv ps t s ∧ asc_inv le s) as [Hinv Ha].
  { revert Hs. apply (rtc_ind_r (λ s, inv ps t s ∧ asc_inv le s)).
    - split; [apply inv_start|]. intros i h w p Hi. simpl in Hi.
      rewrite list_lookup_fmap in Hi. destruct (ps !! i) as [q|] eqn:Hq; simplify_eq/=.
      exists []. split; [done|]. by eapply (Forall_lookup_1 (ascending le [])).
    - intros s1 s2 _ Hs [Hi Ha]. split; [by eapply inv_step|by eapply asc_inv_step]. }
  destruct (decide (Exists (λ x, is_open x = true) (txs s))) as [He|He].
  - left. apply (ascending_progress le s Ha (inv_disjoint _ _ _ Hinv)).
    apply Exists_exists in He as (x & [i Hi]%list_elem_of_lookup & Hx).
    destruct x as [h w p|]; [eauto|done].
  - right. intros x Hx. destruct x as [h w p|]; [|done].
    destruct He. apply Exists_exists. by exists (Open h w p).
Qed.

(** ** A scheduler

    [schedule_step i] lets transaction [i] take its next step, if it can. *)

Definition freeb {A} (i : nat) (k : row) (xs : list (txn A)) : bool :=
  forallb (λ j, bool_decide (j = i) || negb (bool_decide (k ∈ held (default Closed (xs !! j)))))
    (seq 0 (length xs)).

Lemma freeb_spec {A} i k (xs : list (txn A)) : freeb i k xs = true ↔ free i k xs.
Proof.
  unfold freeb. rewrite forallb_forall. split.
  - intros H j x Hx Hne. specialize (H j). rewrite Hx in H. simpl in H.
    rewrite in_seq, bool_decide_false in H by done. simpl in H.
    eapply bool_decide_eq_false_1, negb_true_iff, H. apply lookup_lt_Some in Hx. lia.
  - intros Hf j _. case_bool_decide; [done|]. simpl. apply negb_true_iff, bool_decide_eq_false.
    destruct (xs !! j) as [x|] eqn:Hx; [by apply (Hf j x)|apply not_elem_of_nil].
Qed.

Definition if_free {A B} (i : nat) (k : row) (xs : list (txn A)) (b : B) : option B :=
  if freeb i k xs then Some b else None.

Definition next_op {A} (i : nat) (xs : list (txn A)) (c : db) (x : txn A)
    : option (txn A + db * result E A) :=
  match x with
  | Closed => None
  | Open h w p =>
      match p with
      | Ret a => Some (inr (apply w c, Ok a))
      | Fail e => Some (inr (c, Err e))
      | InsertNothing k v f =>
          match get k (apply w c) with
          | Some _ => Some (inl (Open h w (f false)))
          | None => if_free i k xs (inl (Open (k :: h) (w ++ [existT k v]) (f true)))
          end
      | Upsert k v m q =>
          match get k (apply w c) with
          | None => if_free i k xs (inl (Open (k :: h) (w ++ [existT k v]) q))
          | Some old =>
              match m old with
              | Ok new => if_free i k xs (inl (Open (k :: h) (w ++ [existT k new]) q))
              | Err e => if_free i k xs (inr (c, Err e))
              end
          end
      | SelectForUpdate k f =>
          match get k (apply w c) with
          | None => Some (inr (c, Err no_rows))
          | Some v => if_free i k xs (inl (Open (k :: h) w (f v)))
          end
      | Update k v q =>
          match get k (apply w c) with
          | None => Some (inl (Open h w q))
          | Some _ => if_free i k xs (inl (Open (k :: h) (w ++ [existT k v]) q))
          end
      end
  end.

Definition schedule_step {A} (i : nat) (s : sys A) : option (sys A) :=
  x ← txs s !! i;
  o ← next_op i (txs s) (committed s) x;
  Some match o with
  | inl x' => MkSys (committed s) (<[i := x']> (txs s)) (answers s)
  | inr (c', r) => MkSys c' (<[i := Closed]> (txs s)) (answers s ++ [(i, r)])
  end.

Fixpoint schedule {A} (turns : list nat) (s : sys A) : option (sys A) :=
  match turns with
  | [] => Some s
  | i :: turns => s' ← schedule_step i s; schedule turns s'
  end.

Lemma if_free_Some {A B} i k (xs : list (txn A)) (b b' : B) :
  if_free i k xs b = Some b' → free i k xs ∧ b' = b.
Proof. unfold if_free. destruct (freeb i k xs) eqn:Hf; [|done]. rewrite <- freeb_spec. naive_solver. Qed.

Lemma if_free_true {A B} i k (xs : list (txn A)) (b : B) : free i k xs → if_free i k xs b = Some b.
Proof. intros Hf. unfold if_free. by rewrite (proj2 (freeb_spec i k xs) Hf). Qed.

Lemma next_op_sound {A} i xs c (x : txn A) o :
  next_op i xs c x = Some o →
  match o with inl x' => op_step i xs c x x' | inr (c', r) => end_step i xs c x c' r end.
Proof.
  destruct x as [h w [a|e|k v f|k v m q|k f|k v q]|]; simpl; intros Ho;
    try (destruct (get k (apply w c)) as [old|] eqn:Hg); try (destruct (m old) eqn:Hm);
    try (apply if_free_Some in Ho as [? ->]); simplify_eq; eauto using op_step, end_step.
Qed.

Lemma op_step_next {A} i xs c (x x' : txn A) : op_step i xs c x x' → next_op i xs c x = Some (inl x').
Proof.
  destruct 1; simpl;
    repeat match goal with
    | H : is_Some _ |- _ => destruct H as [? ->]
    | H : _ = Some _ |- _ => rewrite H
    | H : _ = None |- _ => rewrite H
    | H : _ = Ok _ |- _ => rewrite H
    end; auto using if_free_true.
Qed.

Lemma end_step_next {A} i xs c (x : txn A) c' r :
  end_step i xs c x c' r → next_op i xs c x = Some (inr (c', r)).
Proof.
  destruct 1; simpl;
    repeat match goal with
    | H : _ = Some _ |- _ => rewrite H
    | H : _ = None |- _ => rewrite H
    | H : _ = Err _ |- _ => rewrite H
    end; auto using if_free_true.
Qed.

(** The scheduler and the step relation agree. *)
Theorem schedule_step_spec {A} (s s' : sys A) :
  run_step s s' ↔ ∃ i, schedule_step i s = Some s'.
Proof.
  unfold schedule_step. split.
  - intros [s0 i x x' Hx Hop|s0 i x c' r Hx Hend]; exists i; rewrite Hx; simpl.
    + by rewrite (op_step_next _ _ _ _ _ Hop).
    + by rewrite (end_step_next _ _ _ _ _ _ Hend).
  - intros [i Hi]. destruct (txs s !! i) as [x|] eqn:Hx; [|done]. simpl in Hi.
    destruct (next_op i (txs s) (committed s) x) as [o|] eqn:Ho; [|done]. simplify_eq/=.
    apply next_op_sound in Ho. destruct o as [x'|[c' r]]; by econstructor.
Qed.

Lemma schedule_steps {A} turns (s s' : sys A) : schedule turns s = Some s' → rtc step s s'.
Proof.
  revert s. induction turns as [|i turns IH]; intros s; simpl.
  { intros [= ->]. done. }
  destruct (schedule_step i s) as [s1|] eqn:Hi; [|done]. simpl. intros Hs.
  apply rtc_l with s1; [|by apply IH]. apply step_run, schedule_step_spec. eauto.
Qed.
End locks.

Arguments Ret {db rs E A} a.
Arguments Fail {db rs E A} e.
Arguments InsertNothing {db rs E A} k v f.
Arguments Upsert {db rs E A} k v m p.
Arguments SelectForUpdate {db rs E A} k f.
Arguments Update {db rs E A} k v p.
Arguments Open {db rs E A} held w rest.
Arguments Closed {db rs E A}.
Arguments MkSys {db rs E A} _ _ _.
Arguments committed {db rs E A} _.
Arguments txs {db rs E A} _.
Arguments answers {db rs E A} _.
End locks.
