(* ===== verification/StoreLocks.v ===== *)
(** * Concurrent [InsertBatch]es

    The workers of the pool, and the replicas of the server, call [InsertBatch]
    at the same time.  Here its transaction is unfolded into the row operations
    that its SQL statements perform, in their order, as a [locks.prog]; alone
    it is [batch_tx] ([run_batch_prog]).  Interleaved with others it is
    serializable, and because of the three [ORDER BY]s and of the sorted keys
    of [updateUniques] no set of batches can deadlock. *)

From S2P Require Import Prelude Float64 Hll Clock Store StoreSpec StoreQuery StoreProps Locks.
From stdpp Require Import prelude gmap strings list sorting relations.
From Stdlib Require Import ZArith Lia.
Open Scope Z_scope.

Module store_locks.
Import store store_spec locks.

(** ** The rows of the three tables *)

Inductive table_row : Type :=
  | REvent (event_id : string)
  | RMinute (k : string * Z)
  | RUnique (k : string * Z).

#[global] Instance table_row_eq_dec : EqDecision table_row.
Proof. solve_decision. Defined.

Definition row_val (r : table_row) : Type :=
  match r with REvent _ => events_row | RMinute _ => Z | RUnique _ => list Z end.

Definition get_row (r : table_row) (t : tables) : option (row_val r) :=
  match r with
  | REvent id => events t !! id
  | RMinute k => event_counts_minute t !! k
  | RUnique k => event_uniques_day t !! k
  end.

Definition put_row (r : table_row) : row_val r → tables → tables :=
  match r with
  | REvent id => λ v t, MkTables (<[id := v]> (events t)) (event_counts_minute t) (event_uniques_day t)
  | RMinute k => λ v t, MkTables (events t) (<[k := v]> (event_counts_minute t)) (event_uniques_day t)
  | RUnique k => λ v t, set_uniques t (<[k := v]> (event_uniques_day t))
  end.

Lemma get_put_row_eq r v t : get_row r (put_row r v t) = Some v.
Proof. destruct r; apply lookup_insert_eq. Qed.

Lemma get_put_row_ne r r' v t : r ≠ r' → get_row r (put_row r' v t) = get_row r t.
Proof. destruct r, r'; simpl; intros; try done; apply lookup_insert_ne; congruence. Qed.

#[global] Instance tables_rows : RowStore tables := {|
  row := table_row;
  val := row_val;
  get := get_row;
  put := put_row;
  get_put_eq := get_put_row_eq;
  get_put_ne := get_put_row_ne;
|}.

(** ** [InsertBatch], row by row *)

Abbreviation txn_prog := (prog (db := tables) (E := error) Z).

(** CTE [inserted]: [cont] gets the rows that were new. *)
Fixpoint insert_rows (rows : list incoming) (cont : list incoming → txn_prog) : txn_prog :=
  match rows with
  | [] => cont []
  | r :: rows =>
      InsertNothing (REvent (in_event_id r)) (row_of r) (λ new : bool,
        insert_rows rows (λ ret, cont (if new then r :: ret else ret)))
  end.

(** CTE [rolled]. *)
Fixpoint roll_groups (groups : list ((string * Z) * Z)) (cont : txn_prog) : txn_prog :=
  match groups with
  | [] => cont
  | (k, n) :: groups =>
      Upsert (RMinute k) n
        (λ old : Z, if int64_max <? old + n then Err (ErrPg BigintRange) else Ok (old + n))
        (roll_groups groups cont)
  end.

(** The body of the loop of [updateUniques]: lock the row, fold the ids in and
    write it back .. *)
Definition fold_locked (ids : list string) (k : uniqueKey) (d : Z) (cont : txn_prog) : txn_prog :=
  SelectForUpdate (RUnique (k.1, d)) (λ raw : list Z,
    match hll.FromBytes raw with
    | Err _ => Fail (ErrCorruptSketch k.1 k.2)
    | Ok sketch =>
        match hll.AddAll sketch ids with
        | None => Fail ErrPanic
        | Some sketch' => Update (RUnique (k.1, d)) (hll.Bytes sketch') cont
        end
    end).

(** .. after making sure that there is a row. *)
Definition fold_key (ids : list string) (k : uniqueKey) (cont : txn_prog) : txn_prog :=
  match clock.pg_date k.2 with
  | None => Fail (ErrPg InvalidDate)
  | Some d => InsertNothing (RUnique (k.1, d)) (hll.Bytes hll.New) (λ _, fold_locked ids k d cont)
  end.

Fixpoint fold_keys (g : gmap uniqueKey (list string)) (ks : list uniqueKey) (cont : txn_prog)
    : txn_prog :=
  match ks with
  | [] => cont
  | k :: ks => fold_key (default [] (g !! k)) k (fold_keys g ks cont)
  end.

Section with_env.
Context {pg : Postgres} {js : Json}.

(** The whole transaction, from [Begin] to [Commit]. *)
Definition batch_prog (rows : list incoming) (evs : list Event) : txn_prog :=
  if negb (forallb valid_text rows) then Fail (ErrPg InvalidText)
  else if negb (forallb (λ r, jsonb_ok (in_properties r)) rows) then Fail (ErrPg InvalidJson)
  else
    insert_rows (order_by_event_id rows) (λ ret,
    roll_groups (order_by_bucket (map_to_list (histogram (map (bucket ∘ row_of) ret))))
    (let g := group_ids evs in
     fold_keys g (sorted_keys g) (Ret (Z.of_nat (length ret))))).

(** The transactions of a list of batches that reach [Begin]. *)
Definition begin_batch (evs : list Event) : option txn_prog :=
  if (length evs =? 0)%nat then None
  else rows ← mapM marshal_event evs; Some (batch_prog rows evs).

Definition begin_batches : list (list Event) → option (list txn_prog) := mapM begin_batch.

(** ** Alone, it is the transaction of [InsertBatch] *)

Lemma run_insert_rows rows cont t :
  run ErrNoRows (insert_rows rows cont) t =
  let '(ev, ret) := cte_inserted rows (events t) in
  run ErrNoRows (cont ret) (MkTables ev (event_counts_minute t) (event_uniques_day t)).
Proof.
  revert cont t. induction rows as [|r rows IH]; intros cont t; simpl; [by destruct t|].
  destruct (events t !! in_event_id r); rewrite IH; [done|]. simpl.
  by destruct (cte_inserted rows _).
Qed.

Lemma run_roll_groups groups cont t :
  run ErrNoRows (roll_groups groups cont) t =
  match cte_rolled groups (event_counts_minute t) with
  | Err e => Err e
  | Ok c => run ErrNoRows cont (MkTables (events t) c (event_uniques_day t))
  end.
Proof.
  revert t. induction groups as [|[k n] groups IH]; intros t; simpl; [by destruct t|].
  destruct (event_counts_minute t !! k) as [old|]; [|by rewrite IH].
  destruct (int64_max <? old + n); [done|by rewrite IH].
Qed.

(** A transaction over a connection without faults. *)
Definition quiet {A} (c : tx A) (t : tables) : result error (A * tables) :=
  match c (t, []) with
  | (Ok a, (t', _)) => Ok (a, t')
  | (Err e, _) => Err e
  end.

Lemma quiet_bind {A B} (c : tx A) (f : A → tx B) t :
  consumes c →
  quiet (c ≫= f) t = match quiet c t with Ok (a, t') => quiet (f a) t' | Err e => Err e end.
Proof.
  intros Hc. specialize (Hc t []). unfold quiet, mbind, tx_bind.
  destruct (c (t, [])) as [[a|e] [t' fs]]; [|done]. simpl in Hc.
  by apply suffix_nil_inv in Hc as ->.
Qed.

Lemma quiet_exec {A} (stmt : tables → result error (A * tables)) t :
  quiet (tx_exec stmt) t = stmt t.
Proof. unfold quiet, tx_exec. simpl. by destruct (stmt t) as [[]|]. Qed.

Lemma alter_const_insert (m : gmap (string * Z) (list Z)) k old new :
  m !! k = Some old → alter (λ _, new) k m = <[k := new]> m.
Proof.
  intros Hk. apply map_eq. intros j. destruct (decide (j = k)) as [->|].
  - by rewrite lookup_alter_eq, lookup_insert_eq, Hk.
  - by rewrite lookup_alter_ne, lookup_insert_ne.
Qed.

Lemma run_fold_locked ids k d cont t raw :
  clock.pg_date k.2 = Some d → event_uniques_day t !! (k.1, d) = Some raw →
  run ErrNoRows (fold_locked ids k d cont) t =
  match quiet (tx_exec (select_sketch k) ≫= λ raw,
    match hll.FromBytes raw with
    | Err _ => tx_fail (ErrCorruptSketch k.1 k.2)
    | Ok sketch =>
        match hll.AddAll sketch ids with
        | None => tx_fail ErrPanic
        | Some sketch' => tx_exec (update_sketch k (hll.Bytes sketch'))
        end
    end) t with
  | Ok (_, t') => run ErrNoRows cont t'
  | Err e => Err e
  end.
Proof.
  intros Hd Hraw. rewrite quiet_bind by apply consumes_exec. rewrite quiet_exec.
  unfold select_sketch. simpl. rewrite Hd, Hraw.
  destruct (hll.FromBytes raw) as [sk|]; [|done].
  destruct (hll.AddAll sk ids) as [sk'|]; [|done].
  rewrite quiet_exec. unfold update_sketch. simpl. rewrite Hd, Hraw.
  by erewrite alter_const_insert.
Qed.

Lemma run_fold_key ids k cont t :
  run ErrNoRows (fold_key ids k cont) t =
  match quiet (update_key ids k) t with
  | Ok (_, t') => run ErrNoRows cont t'
  | Err e => Err e
  end.
Proof.
  unfold update_key, fold_key. rewrite quiet_bind by apply consumes_exec.
  rewrite quiet_exec. unfold ensure_row. destruct (clock.pg_date k.2) as [d|] eqn:Hd; [|done].
  remember (fold_locked ids k d cont) as rest. cbn. subst rest.
  destruct (event_uniques_day t !! (k.1, d)) as [raw|] eqn:Hraw.
  - by apply run_fold_locked with raw.
  - apply run_fold_locked with (hll.Bytes hll.New); [done|]. apply lookup_insert_eq.
Qed.

Lemma run_fold_keys g ks cont t :
  run ErrNoRows (fold_keys g ks cont) t =
  match quiet (update_keys g ks) t with
  | Ok (_, t') => run ErrNoRows cont t'
  | Err e => Err e
  end.
Proof.
  revert t. induction ks as [|k ks IH]; intros t; [done|]. cbn [fold_keys update_keys].
  rewrite run_fold_key, quiet_bind by apply consumes_update_key.
  destruct (quiet (update_key _ k) t) as [[? t']|]; [apply IH|done].
Qed.

Lemma sorted_keys_empty : sorted_keys ∅ = [].
Proof. unfold sorted_keys. by rewrite map_to_list_empty. Qed.

Lemma run_batch_prog rows evs t :
  run ErrNoRows (batch_prog rows evs) t = quiet (batch_tx rows evs) t.
Proof.
  unfold batch_tx. rewrite quiet_bind by apply consumes_exec. rewrite quiet_exec.
  unfold batch_prog, insertBatchSQL.
  destruct (negb (forallb valid_text rows)); [done|].
  destruct (negb (forallb _ rows)); [done|].
  rewrite run_insert_rows. destruct (cte_inserted _ _) as [ev ret].
  rewrite run_roll_groups. simpl. destruct (cte_rolled _ _) as [c|]; [|done].
  rewrite quiet_bind by apply consumes_updateUniques. rewrite run_fold_keys.
  unfold updateUniques. case_bool_decide as Hg; [|done].
  by rewrite Hg, sorted_keys_empty.
Qed.

Lemma InsertBatch_of_prog evs p t :
  begin_batch evs = Some p →
  InsertBatch evs (MkStore t []) =
  match run ErrNoRows p t with
  | Ok (n, t') => (Ok n, MkStore t' [])
  | Err e => (Err e, MkStore t [])
  end.
Proof.
  unfold begin_batch, InsertBatch. case_match; [done|]. simpl.
  destruct (mapM marshal_event evs) as [rows|]; [|done]. simpl. intros [= <-].
  rewrite run_batch_prog. unfold quiet.
  pose proof (batch_tx_consumes rows evs t []) as Hc.
  destruct (batch_tx rows evs (t, [])) as [[n|e] [t' fs]];
    apply suffix_nil_inv in Hc; simpl in Hc; subst fs; done.
Qed.

(** ** Every update is of a locked row *)

Lemma insert_rows_owning rows cont :
  (∀ ret h, owning h (cont ret)) → ∀ h, owning h (insert_rows rows cont).
Proof.
  revert cont. induction rows as [|r rows IH]; intros cont Hc h; simpl; [apply Hc|].
  split; apply IH; intros; apply Hc.
Qed.

Lemma roll_groups_owning groups cont :
  (∀ h, owning h cont) → ∀ h, owning h (roll_groups groups cont).
Proof. intros Hc. induction groups as [|[k n] groups IH]; intros h; simpl; auto. Qed.

Lemma fold_keys_owning g ks cont :
  (∀ h, owning h cont) → ∀ h, owning h (fold_keys g ks cont).
Proof.
  intros Hc. induction ks as [|k ks IH]; intros h; simpl; [apply Hc|].
  unfold fold_key. destruct (clock.pg_date k.2) as [d|]; [|done]. simpl.
  split; intros raw; repeat case_match; simpl; try done; (split; [by left|apply IH]).
Qed.

Lemma batch_prog_owning rows evs : owning [] (batch_prog rows evs).
Proof.
  unfold batch_prog. repeat (case_match; [done|]).
  apply insert_rows_owning. intros ret. apply roll_groups_owning. by apply fold_keys_owning.
Qed.

(** ** Every batch locks in the same order *)

(** What [ORDER BY] promises: it sorts by the collation of the database, which
    orders texts, and by time. *)
Class TextOrder : Type := {
  collate : relation string;
  #[global] collate_po :: PartialOrder collate;
  #[global] collate_dec :: RelDecision collate;
  order_by_event_id_sorted l :
    Sorted (λ a b, collate (in_event_id a) (in_event_id b)) (order_by_event_id l);
  order_by_bucket_sorted l :
    Sorted (λ a b, lex collate Z.le a.1 b.1) (order_by_bucket l);
}.

(** The text of a day, by which [updateUniques] sorts. *)
Definition day_text (d : Z) : string := clock.format_day (d * clock.Day).

Definition unique_order (k : string * Z) : string * (string * Z) := (k.1, (day_text k.2, k.2)).

#[global] Instance unique_order_inj : Inj (=) (=) unique_order.
Proof. intros [] []. unfold unique_order. simpl. congruence. Qed.

Definition unique_le : relation (string * Z) :=
  λ a b, lex String.le (lex String.le Z.le) (unique_order a) (unique_order b).

#[global] Instance unique_le_po : PartialOrder unique_le := pullback_po unique_order _.

Context {txo : TextOrder}.

(** The order of the locks: raw events, then minutes, then sketches. *)
Definition row_le (r r' : table_row) : Prop :=
  match r, r' with
  | REvent a, REvent b => collate a b
  | REvent _, _ => True
  | RMinute a, RMinute b => lex collate Z.le a b
  | RMinute _, RUnique _ => True
  | RUnique a, RUnique b => unique_le a b
  | _, _ => False
  end.

#[global] Instance row_le_dec : RelDecision row_le.
Proof. intros [] []; simpl; try apply _; unfold unique_le; apply _. Defined.

#[global] Instance row_le_po : PartialOrder row_le.
Proof.
  split; [split|].
  - by intros []; simpl.
  - intros [] [] []; simpl; try done; apply transitivity.
  - intros [] []; simpl; try done; intros; f_equal.
    + by apply (anti_symm collate).
    + by apply (anti_symm (lex collate Z.le)).
    + by apply (anti_symm unique_le).
Qed.

Definition before_minutes (r : table_row) : Prop :=
  match r with REvent _ => True | _ => False end.
Definition before_uniques (r : table_row) : Prop :=
  match r with RUnique _ => False | _ => True end.

Lemma insert_rows_ascending rows cont b :
  (∀ j, j ∈ b → before_minutes j) →
  (∀ j r, j ∈ b → r ∈ rows → row_le j (REvent (in_event_id r))) →
  StronglySorted (λ a b, collate (in_event_id a) (in_event_id b)) rows →
  (∀ ret b', (∀ j, j ∈ b' → before_minutes j) → ascending row_le b' (cont ret)) →
  ascending row_le b (insert_rows rows cont).
Proof.
  revert b cont. induction rows as [|r rows IH]; intros b cont Hb Hle Hs Hc; simpl; [by apply Hc|].
  apply StronglySorted_inv in Hs as [Hs Hr]. rewrite Forall_forall in Hr.
  split; [intros j Hj; apply Hle; [done|left]|]. intros new. apply IH; [| |done|].
  - intros j [->|Hj]%elem_of_cons; [done|auto].
  - intros j r' [->|Hj]%elem_of_cons Hr'; [by apply Hr|]. apply Hle; [done|by right].
  - intros ret b' Hb'. by apply Hc.
Qed.

Lemma roll_groups_ascending groups cont b :
  (∀ j, j ∈ b → before_uniques j) →
  (∀ j g, j ∈ b → g ∈ groups → row_le j (RMinute g.1)) →
  StronglySorted (λ a b, lex collate Z.le a.1 b.1) groups →
  (∀ b', (∀ j, j ∈ b' → before_uniques j) → ascending row_le b' cont) →
  ascending row_le b (roll_groups groups cont).
Proof.
  revert b. induction groups as [|[k n] groups IH]; intros b Hb Hle Hs Hc; simpl; [by apply Hc|].
  apply StronglySorted_inv in Hs as [Hs Hr]. rewrite Forall_forall in Hr.
  split; [intros j Hj; apply (Hle j (k, n)); [done|left]|]. apply IH; [| |done|done].
  - intros j [->|Hj]%elem_of_cons; [done|auto].
  - intros j g [->|Hj]%elem_of_cons Hg; [by apply (Hr g)|]. apply Hle; [done|by right].
Qed.

(** Keys whose text stands for one day. *)
Definition dated (k : uniqueKey) : Prop := ∀ d, clock.pg_date k.2 = Some d → day_text d = k.2.

Lemma key_le_row_le k k' d d' :
  dated k → dated k' → clock.pg_date k.2 = Some d → clock.pg_date k'.2 = Some d' →
  key_le k k' → row_le (RUnique (k.1, d)) (RUnique (k'.1, d')).
Proof.
  intros Hk Hk' Hd Hd'. simpl. unfold key_le, unique_le, unique_order, lex. simpl.
  rewrite (Hk d Hd), (Hk' d' Hd'). case_decide; [|done]. case_decide as Heq; [|done].
  intros _. rewrite Heq in Hd. assert (d = d') as -> by congruence. lia.
Qed.

Lemma fold_keys_ascending g ks cont b :
  (∀ j k d, j ∈ b → k ∈ ks → clock.pg_date k.2 = Some d → row_le j (RUnique (k.1, d))) →
  (∀ k, k ∈ ks → dated k) → StronglySorted key_le ks → (∀ b', ascending row_le b' cont) →
  ascending row_le b (fold_keys g ks cont).
Proof.
  revert b. induction ks as [|k ks IH]; intros b Hle Hdt Hs Hc; simpl; [done|].
  apply StronglySorted_inv in Hs as [Hs Hr]. rewrite Forall_forall in Hr.
  unfold fold_key. destruct (clock.pg_date k.2) as [d|] eqn:Hd; [|done].
  set (r := RUnique (k.1, d)).
  assert (∀ j, j ∈ b → row_le j r) as Hjr.
  { intros j Hj. by apply Hle; [|left|]. }
  assert (∀ j, j ∈ r :: r :: b → row_le j r) as H2.
  { intros j [->|[->|Hj]%elem_of_cons]%elem_of_cons; [reflexivity..|auto]. }
  cbn [ascending fold_locked]. split; [done|]. intros _. split.
  { intros j Hj. apply H2. by right. }
  intros raw. repeat case_match; cbn [ascending]; try done.
  split; [exact H2|]. apply IH; [|intros k' Hk'; apply Hdt; by right|done|done].
  intros j k' d' Hj Hk' Hd'. transitivity r.
  - apply elem_of_cons in Hj as [->|Hj]; [reflexivity|by apply H2].
  - apply key_le_row_le; auto; [by apply Hdt; left|by apply Hdt; right].
Qed.

Lemma day_text_utc_day t : day_text (clock.utc_day t) = clock.format_day t.
Proof.
  apply format_day_utc_day. unfold clock.utc_day at 1. apply Z.div_mul. done.
Qed.

Lemma group_ids_dated evs k : years_ok evs → k ∈ sorted_keys (group_ids evs) → dated k.
Proof.
  intros Hy [ids Hg]%elem_of_sorted_keys d Hd. rewrite group_ids_lookup in Hg.
  destruct (filter (in_text_group k) evs) as [|e l] eqn:Hf; [done|].
  assert (e ∈ filter (in_text_group k) evs) as He by (rewrite Hf; left).
  apply list_elem_of_filter in He as [(_ & _ & Hk) He].
  rewrite <- Hk in Hd |- *. rewrite clock.pg_date_format in Hd by auto.
  injection Hd as <-. apply day_text_utc_day.
Qed.

#[global] Instance key_le_total : Total key_le.
Proof.
  intros a b. unfold key_le. destruct (decide (a.1 = b.1)) as [E|E].
  - rewrite decide_True by done. apply (total String.le).
  - rewrite decide_False by done. apply (total String.le).
Qed.

#[global] Instance key_le_trans : Transitive key_le.
Proof. intros x y z. apply (transitivity (R := lex String.le String.le)). Qed.

Lemma batch_prog_ascending rows evs : years_ok evs → ascending row_le [] (batch_prog rows evs).
Proof.
  intros Hy. unfold batch_prog. repeat (case_match; [done|]).
  apply insert_rows_ascending.
  - by intros j ?%not_elem_of_nil.
  - by intros j r ?%not_elem_of_nil.
  - apply Sorted_StronglySorted; [|apply order_by_event_id_sorted].
    intros x y z. apply transitivity.
  - intros ret b Hb. apply roll_groups_ascending.
    + intros j Hj. by specialize (Hb j Hj); destruct j.
    + intros j g Hj _. by specialize (Hb j Hj); destruct j.
    + apply Sorted_StronglySorted; [|apply order_by_bucket_sorted].
      intros x y z. apply transitivity.
    + intros b' Hb'. apply fold_keys_ascending; [| | |done].
      * intros j k d Hj _ _. by specialize (Hb' j Hj); destruct j.
      * intros k Hk. by eapply group_ids_dated.
      * apply Sorted_StronglySorted; [apply _|]. apply Sorted_merge_sort, _.
Qed.

(** ** Concurrent batches *)

(** The same calls, one after the other. *)
Fixpoint one_by_one (bs : list (list Event)) (order : list nat) (s : Store)
    : list (nat * result error Z) * Store :=
  match order with
  | [] => ([], s)
  | i :: order =>
      let '(r, s) := InsertBatch (default [] (bs !! i)) s in
      let '(rs, s) := one_by_one bs order s in
      ((i, r) :: rs, s)
  end.

(** The events of the batches that were answered with success, in that order. *)
Definition answered_ok (bs : list (list Event)) (l : list (nat * result error Z)) : list Event :=
  flat_map (λ ir, if is_ok ir.2 then default [] (bs !! ir.1) else []) l.

Lemma begin_batches_lookup bs ps i p :
  begin_batches bs = Some ps → ps !! i = Some p →
  ∃ evs, bs !! i = Some evs ∧ begin_batch evs = Some p.
Proof.
  intros H%mapM_Some Hp. destruct (Forall2_lookup_r _ _ _ _ _ H Hp) as (evs & ? & ?). eauto.
Qed.

Lemma begin_batches_Forall (P : txn_prog → Prop) bs ps :
  begin_batches bs = Some ps →
  (∀ rows evs, evs ∈ bs → P (batch_prog rows evs)) → Forall P ps.
Proof.
  intros Hps HP. apply Forall_lookup. intros i p Hi.
  destruct (begin_batches_lookup bs ps i p Hps Hi) as (evs & Hevs & Hb).
  unfold begin_batch in Hb. case_match; [done|].
  destruct (mapM marshal_event evs) as [rows|]; simplify_eq/=.
  apply HP. by eapply list_elem_of_lookup_2.
Qed.

Lemma serial_one_by_one bs ps t l t' :
  begin_batches bs = Some ps → serial ErrNoRows ps t l t' →
  one_by_one bs (map fst l) (MkStore t []) = (l, MkStore t' []).
Proof.
  intros Hps. induction 1 as [t|t i p n t1 l t2 Hi Hp _ IH|t i p e l t2 Hi Hp _ IH]; simpl; [done|..];
    destruct (begin_batches_lookup bs ps i p Hps Hi) as (evs & Hevs & Hb);
    rewrite Hevs; simpl; rewrite (InsertBatch_of_prog evs p _ Hb), Hp, IH; done.
Qed.

Lemma InsertBatch_quiet evs s r s' : net s = [] → InsertBatch evs s = (r, s') → net s' = [].
Proof.
  intros Hnet. unfold InsertBatch. rewrite Hnet. case_match; [by intros [= <- <-]|].
  destruct (mapM marshal_event evs) as [rs|]; [|by intros [= <- <-]]. simpl.
  pose proof (batch_tx_consumes rs evs (db s) []) as Hc.
  destruct (batch_tx rs evs (db s, [])) as [[n|e] [t' fs]];
    apply suffix_nil_inv in Hc; simpl in Hc; subst fs; by intros [= <- <-].
Qed.

Lemma one_by_one_represents bs order L s rs s' :
  represents L (db s) → net s = [] → Forall years_ok bs → one_by_one bs order s = (rs, s') →
  represents (L ++ answered_ok bs rs) (db s').
Proof.
  intros Hr Hnet Hy. revert L s rs Hr Hnet. induction order as [|i order IH]; intros L s rs Hr Hnet.
  { simpl. intros [= <- <-]. simpl. by rewrite app_nil_r. }
  simpl. destruct (InsertBatch (default [] (bs !! i)) s) as [r s1] eqn:Hib.
  destruct (one_by_one bs order s1) as [rs1 s2] eqn:Ho. intros [= <- <-].
  assert (years_ok (default [] (bs !! i))) as Hyi.
  { destruct (bs !! i) eqn:Hi; simpl; [by eapply (Forall_lookup_1 years_ok)|].
    by intros e ?%not_elem_of_nil. }
  pose proof (InsertBatch_simulates L _ s r s1 Hr Hyi Hib) as Hsim.
  assert (net s1 = []) as Hnet1.
  { by eapply InsertBatch_quiet. }
  simpl. destruct r as [n|e]; simpl.
  - rewrite app_assoc. apply (IH _ s1); [apply Hsim|done|done].
  - apply (IH _ s1); [|done|done]. destruct Hsim as [->|[Hf _]]; [done|].
    rewrite Hnet in Hf. by apply not_elem_of_nil in Hf.
Qed.

(** C8: [InsertBatch]es that run at the same time, interleaved row by row under
    Postgres' row locks and with clients vanishing at any point, are
    serializable: tables and answers are those of calling [InsertBatch] one
    batch at a time in the order in which the batches were answered.  So the
    tables represent the log extended with exactly the batches answered [Ok]; no
    rollup and no sketch update is lost. *)
Theorem concurrent_batches_serializable bs ps t s :
  begin_batches bs = Some ps → rtc (step ErrNoRows) (start ps t) s →
  one_by_one bs (map fst (answers s)) (MkStore t []) = (answers s, MkStore (committed s) []) ∧
  ∀ L, represents L t → Forall years_ok bs →
    represents (L ++ answered_ok bs (answers s)) (committed s).
Proof.
  intros Hps Hs.
  assert (one_by_one bs (map fst (answers s)) (MkStore t [])
    = (answers s, MkStore (committed s) [])) as Ho.
  { apply (serial_one_by_one bs ps); [done|]. apply interleaving_serial; [|done].
    apply (begin_batches_Forall _ bs); [done|]. intros. apply batch_prog_owning. }
  split; [done|]. intros L Hr Hy.
  by apply (one_by_one_represents bs _ L (MkStore t []) _ _ Hr eq_refl Hy Ho).
Qed.

(** C9: concurrent [InsertBatch]es queue and never deadlock: however many
    batches run and however they are scheduled, every schedule is finite, and
    as long as a batch is open some batch can take its next step; so every
    batch is answered.  This is what the [ORDER BY]s of the statement and the
    sorted keys of [updateUniques] are for. *)
Theorem concurrent_batches_never_deadlock bs ps t :
  begin_batches bs = Some ps → Forall years_ok bs →
  sn (step ErrNoRows) (start ps t) ∧
  ∀ s, rtc (step ErrNoRows) (start ps t) s →
    (∃ s', run_step ErrNoRows s s') ∨ ∀ x, x ∈ txs s → x = Closed.
Proof.
  intros Hps Hy. split; [apply schedules_finite|]. intros s Hs.
  apply (ascending_never_stuck (rs := tables_rows) ErrNoRows row_le ps t s); [| |done];
    apply (begin_batches_Forall _ bs); try done; intros rows evs Hevs.
  - apply batch_prog_owning.
  - apply batch_prog_ascending. by apply (proj1 (Forall_forall _ _) Hy).
Qed.
End with_env.

(** ** On the concrete server *)

#[global] Instance by_event_id_total : Total store_props.by_event_id.
Proof. intros a b. apply (total String.le). Qed.

#[global] Instance by_bucket_total : Total store_props.by_bucket.
Proof.
  intros a b. unfold store_props.by_bucket. destruct (decide (a.1.1 = b.1.1)) as [E|E].
  - rewrite decide_True by done. lia.
  - rewrite decide_False by done. apply (total String.le).
Qed.

Definition bytewise (offset : Z) : @TextOrder (store_props.server_at offset) := {|
  collate := String.le : relation string;
  order_by_event_id_sorted := Sorted_merge_sort store_props.by_event_id :
    ∀ l, Sorted _ (@order_by_event_id (store_props.server_at offset) l);
  order_by_bucket_sorted := Sorted_merge_sort store_props.by_bucket :
    ∀ l, Sorted _ (@order_by_bucket (store_props.server_at offset) l);
|}.

(** Without a common order, two batches that touch the same two minutes do
    deadlock: each holds the row that the other one waits for. *)
Definition opposite : list txn_prog :=
  [ roll_groups [(("a", 0), 1); (("b", 0), 1)] (Ret 0);
    roll_groups [(("b", 0), 1); (("a", 0), 1)] (Ret 0) ].

Definition both_waiting : sys (rs := tables_rows) (E := error) Z :=
  default (start opposite empty_tables)
    (schedule ErrNoRows [0; 1]%nat (start opposite empty_tables)).

Lemma opposite_orders_deadlock :
  rtc (step ErrNoRows) (start opposite empty_tables) both_waiting ∧
  length (filter (λ x, is_open x = true) (txs both_waiting)) = 2%nat ∧
  ∀ s', ¬ run_step ErrNoRows both_waiting s'.
Proof.
  split_and!.
  - apply (schedule_steps ErrNoRows [0; 1]%nat). reflexivity.
  - vm_compute. reflexivity.
  - intros s' [i Hi]%schedule_step_spec.
    assert (bool_decide (schedule_step ErrNoRows 0 both_waiting = None) &&
            bool_decide (schedule_step ErrNoRows 1 both_waiting = None) = true) as H01
      by (vm_compute; reflexivity).
    destruct i as [|[|i]]; [..|done]; by destruct H01.
Qed.

Section witnesses.
#[local] Existing Instance store_props.utc_server.
#[local] Existing Instance store_props.flat_json.
#[local] Instance utc_order : TextOrder := bytewise 0.
Import store_props.

(** Two workers store overlapping batches.  The second one has inserted [e2];
    the first has to wait there until the second commits, and skips [e2]. *)
Definition two_batches : list (list Event) := [[e1; e2]; [e2]].

Definition two_progs : list txn_prog := default [] (begin_batches two_batches).

Definition turns : list nat := [1; 0; 1; 1; 1; 1; 1; 0; 0; 0; 0; 0; 0]%nat.

Definition both_done : sys (rs := tables_rows) (E := error) Z :=
  default (start two_progs empty_tables) (schedule ErrNoRows turns (start two_progs empty_tables)).

Lemma two_begin : begin_batches two_batches = Some two_progs.
Proof.
  assert (bool_decide (begin_batches two_batches = None) = false) as H
    by (vm_compute; reflexivity).
  unfold two_progs. by destruct (begin_batches two_batches).
Qed.

Lemma two_years : Forall years_ok two_batches.
Proof.
  repeat constructor; intros e He; apply batch_years; revert He; rewrite !elem_of_cons; tauto.
Qed.

Lemma both_done_reached : rtc (step ErrNoRows) (start two_progs empty_tables) both_done.
Proof.
  apply (schedule_steps ErrNoRows turns).
  assert (bool_decide (schedule ErrNoRows turns (start two_progs empty_tables) = None) = false) as H
    by (vm_compute; reflexivity).
  unfold both_done. by destruct (schedule ErrNoRows turns (start two_progs empty_tables)).
Qed.

Lemma both_done_answers : answers both_done = [(1%nat, Ok 1); (0%nat, Ok 1)].
Proof. vm_compute. reflexivity. Qed.

Lemma concurrent_batches_serializable_witness :
  represents ([] ++ ([e2] ++ [e1; e2] ++ [])) (committed both_done).
Proof.
  pose proof (proj2 (concurrent_batches_serializable two_batches two_progs empty_tables both_done
    two_begin both_done_reached) [] represents_empty two_years) as H.
  rewrite both_done_answers in H. exact H.
Defined.

Lemma concurrent_batches_never_deadlock_witness :
  (∃ s', run_step ErrNoRows (start two_progs empty_tables) s') ∨
  ∀ x, x ∈ txs (start two_progs empty_tables) → x = Closed.
Proof.
  exact (proj2 (concurrent_batches_never_deadlock two_batches two_progs empty_tables
    two_begin two_years) _ (rtc_refl _ _)).
Defined.
End witnesses.
End store_locks.
