(* ===== verification/Queue.v ===== *)
(** * [internal/queue]: the in-process queue

    [queue.Memory] is a buffered channel and an atomic flag.  [Enqueue] and
    [Close] each touch both, so the file has two models: the operations run
    one at a time (contract of a bounded FIFO), and the steps of concurrent
    producers and of the closing goroutine (the race that the shutdown contract
    of the package rules out). *)

From S2P Require Import Prelude Float64 Hll Clock Store.
From stdpp Require Import prelude list relations strings.
From Stdlib Require Import ZArith Lia.
Open Scope Z_scope.

Module queue.

(** ** Data *)

(** What [Enqueue] may return; [ErrOther] is an error of the encoder. *)
Inductive error : Type := ErrFull | ErrClosed | ErrUnavailable | ErrOther.

(** What accepts events ([ingest.Enqueuer]): the new state and the error, or
    [None] for a panic. *)
Class Enqueuer (Q : Type) : Type :=
  enqueue : store.Event → Q → option (Q * option error).

(** What the doors rely on: an event that is refused is not in the queue. *)
Class EnqueuerLaws (Q : Type) `{Enqueuer Q} : Prop :=
  refused_same e q q' err : enqueue e q = Some (q', Some err) → q' = q.

(** A buffered Go channel. *)
Record chan : Type := MkChan { cap : nat; buf : list store.Event; chan_closed : bool }.

Record Memory : Type := MkMemory { ch : chan; closed : bool }.

(** ** Channel primitives *)

Inductive send_result : Type := Sent (c : chan) | WouldBlock | SendPanic.

(** [select { case ch <- e: .. default: .. }] into the buffer.  With a buffer this
    is all there is: no receiver is parked while there are events in it. *)
Definition try_send (c : chan) (e : store.Event) : send_result :=
  if chan_closed c then SendPanic
  else if (length (buf c) <? cap c)%nat
       then Sent (MkChan (cap c) (buf c ++ [e]) false)
       else WouldBlock.

(** A channel of size 0 has no buffer: there the send succeeds exactly when a
    receiver is parked in its [select], and the event passes from one goroutine to
    the other without ever being in the channel.  The steps in which a producer
    meets a worker ([Worker.hand_over]) ask this of the channel. *)
Definition unbuffered (c : chan) : bool := negb (chan_closed c) && (cap c =? 0)%nat.

Inductive recv_result : Type := Received (e : store.Event) (c : chan) | RecvClosed | RecvBlocks.

(** [e, ok := <-ch] *)
Definition recv (c : chan) : recv_result :=
  match buf c with
  | e :: b => Received e (MkChan (cap c) b (chan_closed c))
  | [] => if chan_closed c then RecvClosed else RecvBlocks
  end.

(** ** Operations *)

(** [make(chan store.Event, size)] panics on a negative size. *)
Definition NewMemory (size : Z) : option Memory :=
  if size <? 0 then None else Some (MkMemory (MkChan (Z.to_nat size) [] false) false).

Definition Enqueue (e : store.Event) (q : Memory) : option (Memory * option error) :=
  if closed q then Some (q, Some ErrClosed)
  else match try_send (ch q) e with
       | Sent c => Some (MkMemory c (closed q), None)
       | WouldBlock => Some (q, Some ErrFull)
       | SendPanic => None
       end.

#[global] Instance memory_enqueuer : Enqueuer Memory := Enqueue.

Definition Depth (q : Memory) : Z := Z.of_nat (length (buf (ch q))).

Definition close_chan (c : chan) : chan := MkChan (cap c) (buf c) true.

(** [closed.CompareAndSwap(false, true)], then [close(q.ch)]. *)
Definition Close (q : Memory) : Memory :=
  if closed q then q else MkMemory (close_chan (ch q)) true.

(** [queue.Reject]. *)
Inductive Reject : Type := MkReject.
#[global] Instance reject_enqueuer : Enqueuer Reject := λ _ q, Some (q, Some ErrUnavailable).

#[global] Instance memory_laws : EnqueuerLaws Memory.
Proof.
  intros e q q' err. unfold enqueue, memory_enqueuer, Enqueue.
  repeat case_match; by intros [= <- ?].
Qed.

#[global] Instance reject_laws : EnqueuerLaws Reject.
Proof. by intros e q q' err [= <- _]. Qed.

(** ** One operation at a time *)

Inductive op : Type := OpEnqueue (e : store.Event) | OpRecv | OpClose.

Inductive obs : Type :=
  | Accepted (e : store.Event)
  | Refused (e : store.Event) (err : error)
  | Delivered (e : store.Event)
  | SawClosed
  | Waited
  | DidClose.

Definition step (o : op) (q : Memory) : option (Memory * obs) :=
  match o with
  | OpEnqueue e =>
      match Enqueue e q with
      | Some (q', None) => Some (q', Accepted e)
      | Some (q', Some err) => Some (q', Refused e err)
      | None => None
      end
  | OpRecv =>
      Some (match recv (ch q) with
            | Received e c => (MkMemory c (closed q), Delivered e)
            | RecvClosed => (q, SawClosed)
            | RecvBlocks => (q, Waited)
            end)
  | OpClose => Some (Close q, DidClose)
  end.

Fixpoint run (os : list op) (q : Memory) : option (Memory * list obs) :=
  match os with
  | [] => Some (q, [])
  | o :: os =>
      match step o q with
      | None => None
      | Some (q', ob) =>
          match run os q' with
          | None => None
          | Some (q'', obs) => Some (q'', ob :: obs)
          end
      end
  end.

Definition accepted (l : list obs) : list store.Event :=
  omap (λ o, match o with Accepted e => Some e | _ => None end) l.
Definition delivered (l : list obs) : list store.Event :=
  omap (λ o, match o with Delivered e => Some e | _ => None end) l.

Lemma accepted_cons ob l : accepted (ob :: l) = accepted [ob] ++ accepted l.
Proof. by destruct ob. Qed.

Lemma delivered_cons ob l : delivered (ob :: l) = delivered [ob] ++ delivered l.
Proof. by destruct ob. Qed.

(** The flag and the channel agree, and the buffer respects the capacity. *)
Definition wf (q : Memory) : Prop :=
  closed q = chan_closed (ch q) ∧ (length (buf (ch q)) ≤ cap (ch q))%nat.

Lemma NewMemory_wf size q :
  NewMemory size = Some q →
  wf q ∧ cap (ch q) = Z.to_nat size ∧ buf (ch q) = [] ∧ closed q = false.
Proof.
  unfold NewMemory. case_match; [done|]. intros [= <-]. split; [split|]; simpl; [done|lia|done].
Qed.

(** One step keeps the invariant, cannot panic, and moves events only from
    acceptance through the buffer to delivery. *)
Lemma step_spec o q :
  wf q → ∃ q' ob, step o q = Some (q', ob) ∧ wf q' ∧ cap (ch q') = cap (ch q) ∧
    buf (ch q) ++ accepted [ob] = delivered [ob] ++ buf (ch q').
Proof.
  intros Hwf. pose proof Hwf as [Hc Hl]. destruct o as [e| |]; unfold step, Enqueue, try_send, recv, Close.
  - rewrite <- Hc. destruct (closed q) eqn:Hcl.
    { eexists _, _. split; [done|]. split; [done|]. split; [done|]. apply app_nil_r. }
    destruct (Nat.ltb_spec (length (buf (ch q))) (cap (ch q))).
    + eexists _, _. split; [done|]. split; [split; simpl; [congruence|]|done].
      rewrite length_app. simpl. lia.
    + eexists _, _. split; [done|]. split; [done|]. split; [done|]. apply app_nil_r.
  - destruct q as [[cp b cc] cl]; simpl in *. destruct b as [|e b].
    + destruct cc; eexists _, _; done.
    + eexists _, _. split; [done|]. split; [split; simpl in *; [done|lia]|].
      split; [done|]. by rewrite app_nil_r.
  - exists (if closed q then q else MkMemory (close_chan (ch q)) true), DidClose.
    split; [done|]. destruct (closed q); (split; [|split; [done|apply app_nil_r]]); done.
Qed.

Lemma wf_enqueue e q q' err : wf q → Enqueue e q = Some (q', err) → wf q'.
Proof.
  intros Hwf He. destruct (step_spec (OpEnqueue e) q Hwf) as (q1 & ob & Hs & Hwf' & _).
  simpl in Hs. rewrite He in Hs. by destruct err; simplify_eq.
Qed.

Lemma run_spec os q :
  wf q → ∃ q' l, run os q = Some (q', l) ∧ wf q' ∧ cap (ch q') = cap (ch q) ∧
    buf (ch q) ++ accepted l = delivered l ++ buf (ch q').
Proof.
  revert q. induction os as [|o os IH]; intros q Hwf.
  { exists q, []. split; [done|]. split; [done|]. split; [done|]. apply app_nil_r. }
  destruct (step_spec o q Hwf) as (q1 & ob & Hs & Hwf1 & Hc1 & H1).
  destruct (IH q1 Hwf1) as (q2 & l & Hr & Hwf2 & Hc2 & H2).
  exists q2, (ob :: l). cbn [run]. rewrite Hs, Hr. split; [done|]. split; [done|].
  split; [congruence|].
  rewrite (accepted_cons ob l), (delivered_cons ob l).
  rewrite app_assoc, H1, <- app_assoc, H2. by rewrite app_assoc.
Qed.

(** ** Properties of the operations *)

(** C18: the queue is a bounded FIFO.  Over any sequence of [Enqueue], receive
    and [Close], nothing panics, the depth never exceeds the configured size,
    and the accepted events are exactly the delivered ones followed by those
    still waiting, in order: none lost, none duplicated, none reordered. *)
Theorem Memory_bounded_fifo size q os :
  NewMemory size = Some q →
  ∃ q' l, run os q = Some (q', l) ∧
    accepted l = delivered l ++ buf (ch q') ∧ 0 ≤ Depth q' ≤ size.
Proof.
  intros Hnew. apply NewMemory_wf in Hnew as Hq. destruct Hq as (Hwf & Hcap & Hbuf & _).
  destruct (run_spec os q Hwf) as (q' & l & Hr & [_ Hl] & Hc & Heq).
  exists q', l. split; [done|]. rewrite Hbuf in Heq. split; [done|].
  unfold Depth. unfold NewMemory in Hnew. case_match eqn:Hneg; [done|]. bool_props. lia.
Qed.

(** After [Close] the consumers get everything that was queued, in order,
    and then see the channel closed; a second [Close] changes nothing. *)
Lemma Close_drains q :
  wf q →
  Close (Close q) = Close q ∧
  ∃ q', run (replicate (length (buf (ch q))) OpRecv ++ [OpRecv]) (Close q)
        = Some (q', map Delivered (buf (ch q)) ++ [SawClosed]).
Proof.
  intros [Hc _]. split.
  { unfold Close. destruct (closed q) eqn:E; [by rewrite E|done]. }
  assert (∃ cp, Close q = MkMemory (MkChan cp (buf (ch q)) true) true) as [cp ->].
  { unfold Close, close_chan. destruct q as [[cp b cc] cl]; simpl in *. subst cc.
    destruct cl; by eexists. }
  induction (buf (ch q)) as [|e b IH]; [by eexists|].
  destruct IH as [q' IH]. exists q'. simpl. simpl in IH. by rewrite IH.
Qed.

(** ** Producers racing with [Close] *)

(** A goroutine inside [Enqueue]: before the flag is read, between the flag
    and the send, done, or dead in a panic. *)
Inductive producer : Type :=
  | PStart (e : store.Event)
  | PChecked (e : store.Event)
  | PDone (r : option error)
  | PPanicked.

Inductive closer : Type := NotClosing | Flagged | ChanClosed.

#[global] Instance closer_eq_dec : EqDecision closer.
Proof. solve_decision. Defined.

Record cstate : Type := MkC { mem : Memory; prods : list producer; cl : closer }.

Definition set_prod (s : cstate) (i : nat) (p : producer) (c : chan) : cstate :=
  MkC (MkMemory c (closed (mem s))) (<[i := p]> (prods s)) (cl s).

(** Is a producer past the flag but not yet past the send? *)
Definition in_send (p : producer) : bool := match p with PChecked _ => true | _ => false end.

(** The steps; [contract] says when the closing goroutine may start. *)
Inductive cstep (contract : list producer → Prop) : cstate → cstate → Prop :=
  | cs_load_closed s i e :
      prods s !! i = Some (PStart e) → closed (mem s) = true →
      cstep contract s (set_prod s i (PDone (Some ErrClosed)) (ch (mem s)))
  | cs_load_open s i e :
      prods s !! i = Some (PStart e) → closed (mem s) = false →
      cstep contract s (set_prod s i (PChecked e) (ch (mem s)))
  | cs_send s i e c :
      prods s !! i = Some (PChecked e) → try_send (ch (mem s)) e = Sent c →
      cstep contract s (set_prod s i (PDone None) c)
  | cs_full s i e :
      prods s !! i = Some (PChecked e) → try_send (ch (mem s)) e = WouldBlock →
      cstep contract s (set_prod s i (PDone (Some ErrFull)) (ch (mem s)))
  | cs_panic s i e :
      prods s !! i = Some (PChecked e) → try_send (ch (mem s)) e = SendPanic →
      cstep contract s (set_prod s i PPanicked (ch (mem s)))
  | cs_cas s :
      cl s = NotClosing → closed (mem s) = false → contract (prods s) →
      cstep contract s (MkC (MkMemory (ch (mem s)) true) (prods s) Flagged)
  | cs_close s :
      cl s = Flagged →
      cstep contract s (MkC (MkMemory (close_chan (ch (mem s))) (closed (mem s)))
                            (prods s) ChanClosed)
  | cs_recv s e c :
      recv (ch (mem s)) = Received e c →
      cstep contract s (MkC (MkMemory c (closed (mem s))) (prods s) (cl s)).

(** The shutdown contract: no [Enqueue] is under way past its flag test. *)
Definition producers_stopped (ps : list producer) : Prop :=
  Forall (λ p, in_send p = false) ps.

Definition no_contract (ps : list producer) : Prop := True.

Definition initial (q : Memory) (es : list store.Event) : cstate :=
  MkC q (map PStart es) NotClosing.

Record race_inv (s : cstate) : Prop := {
  ri_no_panic : PPanicked ∉ prods s;
  ri_open : cl s = NotClosing → closed (mem s) = false ∧ chan_closed (ch (mem s)) = false;
  ri_flag : cl s ≠ NotClosing →
            closed (mem s) = true ∧ Forall (λ p, in_send p = false) (prods s);
}.

Lemma recv_closed c e c' : recv c = Received e c' → chan_closed c' = chan_closed c.
Proof. unfold recv. destruct (buf c); [by case_match|]. by intros [= <- <-]. Qed.

Lemma not_elem_insert (ps : list producer) i p :
  PPanicked ∉ ps → p ≠ PPanicked → PPanicked ∉ <[i := p]> ps.
Proof.
  intros Hn Hp Hin. apply list_elem_of_lookup in Hin as [j Hj].
  apply list_lookup_insert_Some in Hj as [(_ & Heq & _)|(_ & Hj)]; [done|].
  apply Hn. by eapply list_elem_of_lookup_2.
Qed.

Lemma no_in_send ps i e : Forall (λ p, in_send p = false) ps → ps !! i ≠ Some (PChecked e).
Proof. intros Hf Hi. by apply (Forall_lookup_1 _ _ _ _ Hf) in Hi. Qed.

Lemma try_send_open c e c' : try_send c e = Sent c' → chan_closed c' = false.
Proof. unfold try_send. repeat case_match; intros [= <-]; done. Qed.

Lemma try_send_panic c e : try_send c e = SendPanic → chan_closed c = true.
Proof. unfold try_send. by repeat case_match. Qed.

(** A step of one producer keeps the invariant when the producer does not
    panic, does not pass the flag once it is up, and does not close the channel. *)
Lemma race_inv_set_prod s i p c :
  race_inv s → p ≠ PPanicked → (in_send p = true → closed (mem s) = false) →
  (chan_closed (ch (mem s)) = false → chan_closed c = false) →
  race_inv (set_prod s i p c).
Proof.
  intros [Hn Ho Hf] Hp Hin Hc. split; simpl.
  - by apply not_elem_insert.
  - intros [? ?]%Ho. auto.
  - intros [? Hst]%Hf. split; [done|]. apply Forall_insert; [done|].
    destruct (in_send p); [|done]. specialize (Hin eq_refl). congruence.
Qed.

Lemma race_inv_open s i e :
  race_inv s → prods s !! i = Some (PChecked e) → chan_closed (ch (mem s)) = false.
Proof.
  intros [_ Ho Hf] Hi. destruct (decide (cl s = NotClosing)) as [Hcl|Hcl].
  - by apply Ho.
  - destruct (Hf Hcl) as [_ Hst]. by destruct (no_in_send _ i e Hst).
Qed.

Lemma race_inv_step s s' : race_inv s → cstep producers_stopped s s' → race_inv s'.
Proof.
  intros Hinv Hs. destruct Hs as [s i e Hi Hc|s i e Hi Hc|s i e c Hi Ht|s i e Hi Ht
    |s i e Hi Ht|s Hcl Hc Hstop|s Hcl|s e c Hr].
  1-4: apply race_inv_set_prod; try done; intros _; by apply try_send_open in Ht.
  - apply try_send_panic in Ht. rewrite (race_inv_open s i e Hinv Hi) in Ht. done.
  - by split; [apply Hinv| |].
  - split; [apply Hinv|done|]. intros _. apply (ri_flag s Hinv). simpl. congruence.
  - destruct Hinv as [Hn Ho Hf]. split; simpl; [done| |done].
    intros [? ?]%Ho. split; [done|]. by rewrite (recv_closed _ _ _ Hr).
Qed.

Lemma race_inv_initial q es : wf q → closed q = false → race_inv (initial q es).
Proof.
  intros [Hc _] Hcl. split; simpl; [|by rewrite <- Hc|done].
  intros Hin. apply list_elem_of_fmap in Hin as (e & He & _). done.
Qed.

Lemma race_inv_reachable s s' : race_inv s → rtc (cstep producers_stopped) s s' → race_inv s'.
Proof. intros Hi Hr. induction Hr; eauto using race_inv_step. Qed.

(** Under the shutdown contract no producer can panic, whatever the
    interleaving of the flag tests, the sends, the receives and the two steps of
    [Close]: every reachable state has no producer in a send on the closed
    channel. *)
Lemma no_send_on_closed q es s :
  wf q → closed q = false → rtc (cstep producers_stopped) (initial q es) s →
  PPanicked ∉ prods s.
Proof.
  intros Hq Ho Hr. apply (ri_no_panic s). eapply race_inv_reachable; [|exact Hr].
  by apply race_inv_initial.
Qed.

(** The contract is needed.  [Close] may run between the flag test and the
    send of an [Enqueue], and then the send panics: the flag alone does not
    protect the channel. *)
Lemma contract_needed q e :
  closed q = false →
  ∃ s, rtc (cstep no_contract) (initial q [e]) s ∧ prods s = [PPanicked].
Proof.
  intros Ho. eexists. split; [|shelve].
  eapply rtc_l; [eapply (cs_load_open _ _ 0 e); done|].
  eapply rtc_l; [eapply cs_cas; done|].
  eapply rtc_l; [eapply cs_close; done|].
  eapply rtc_once. eapply (cs_panic _ _ 0 e); done.
  Unshelve. done.
Qed.

(** ** Concrete instances *)

Definition sample : store.Event := store.MkEvent "a"%string "click"%string "u"%string None 0.

Definition q1 : Memory := MkMemory (MkChan 1 [] false) false.

Lemma q1_wf : wf q1.
Proof. split; [done|]. simpl. lia. Qed.

Lemma Memory_bounded_fifo_witness :
  ∃ q' l, run [OpEnqueue sample; OpEnqueue sample; OpRecv; OpClose; OpRecv] q1 = Some (q', l) ∧
    accepted l = delivered l ++ buf (ch q') ∧ 0 ≤ Depth q' ≤ 1.
Proof. exact (Memory_bounded_fifo 1 q1 _ eq_refl). Defined.

Lemma no_send_on_closed_example :
  PPanicked ∉ prods (MkC (MkMemory (MkChan 1 [] false) true) [PStart sample] Flagged).
Proof.
  apply (no_send_on_closed q1 [sample]); [exact q1_wf|reflexivity|].
  apply rtc_once. apply (cs_cas _ (initial q1 [sample])); [reflexivity|reflexivity|].
  repeat constructor.
Defined.

Lemma contract_needed_example :
  ∃ s, rtc (cstep no_contract) (initial q1 [sample]) s ∧ prods s = [PPanicked].
Proof. exact (contract_needed q1 sample eq_refl). Defined.

End queue.
