(* ===== verification/Metrics.v ===== *)
(** * [internal/metrics]: the counters, histograms and gauge

    One record stands for the package's global variables.  Counters are exact
    integers (Prometheus keeps a [float64], exact below 2^53); a histogram is
    the list of its observations, newest first, in the unit the call passes
    (durations in nanoseconds). *)

From S2P Require Import Prelude.
From stdpp Require Import prelude gmap strings.
From Stdlib Require Import ZArith.
Open Scope Z_scope.

Module metrics.

Record t : Type := MkMetrics {
  EventsAccepted : Z;
  EventsRejected : gmap string Z;
  IngestDuration : list Z;
  QueueDepth : Z;
  EventsInserted : Z;
  EventsDuplicate : Z;
  EventsDropped : Z;
  BatchSize : list Z;
  FlushDuration : list Z;
}.

Definition zero : t := MkMetrics 0 ∅ [] 0 0 0 0 [] [].

Definition accept (m : t) : t :=
  MkMetrics (EventsAccepted m + 1) (EventsRejected m) (IngestDuration m) (QueueDepth m)
    (EventsInserted m) (EventsDuplicate m) (EventsDropped m) (BatchSize m) (FlushDuration m).

(** [EventsRejected.WithLabelValues(reason).Inc()] *)
Definition reject (reason : string) (m : t) : t :=
  MkMetrics (EventsAccepted m) (<[reason := default 0 (EventsRejected m !! reason) + 1]> (EventsRejected m))
    (IngestDuration m) (QueueDepth m)
    (EventsInserted m) (EventsDuplicate m) (EventsDropped m) (BatchSize m) (FlushDuration m).

Definition observe_ingest (d : Z) (m : t) : t :=
  MkMetrics (EventsAccepted m) (EventsRejected m) (d :: IngestDuration m) (QueueDepth m)
    (EventsInserted m) (EventsDuplicate m) (EventsDropped m) (BatchSize m) (FlushDuration m).

Definition set_depth (d : Z) (m : t) : t :=
  MkMetrics (EventsAccepted m) (EventsRejected m) (IngestDuration m) d
    (EventsInserted m) (EventsDuplicate m) (EventsDropped m) (BatchSize m) (FlushDuration m).

Definition observe_flush (size took : Z) (m : t) : t :=
  MkMetrics (EventsAccepted m) (EventsRejected m) (IngestDuration m) (QueueDepth m)
    (EventsInserted m) (EventsDuplicate m) (EventsDropped m) (size :: BatchSize m)
    (took :: FlushDuration m).

Definition drop (n : Z) (m : t) : t :=
  MkMetrics (EventsAccepted m) (EventsRejected m) (IngestDuration m) (QueueDepth m)
    (EventsInserted m) (EventsDuplicate m) (EventsDropped m + n) (BatchSize m) (FlushDuration m).

Definition insert (n dup : Z) (m : t) : t :=
  MkMetrics (EventsAccepted m) (EventsRejected m) (IngestDuration m) (QueueDepth m)
    (EventsInserted m + n) (EventsDuplicate m + dup) (EventsDropped m) (BatchSize m)
    (FlushDuration m).

(** All rejections, over every reason. *)
Definition rejected (m : t) : Z := map_fold (λ _ n acc, n + acc) 0 (EventsRejected m).

Lemma rejected_reject reason m : rejected (reject reason m) = rejected m + 1.
Proof.
  unfold rejected, reject. simpl.
  assert (∀ (g : gmap string Z) k n, g !! k = None →
    map_fold (λ _ n acc, n + acc) 0 (<[k := n]> g) = n + map_fold (λ _ n acc, n + acc) 0 g) as Hins.
  { intros g k n Hk. rewrite map_fold_insert_L; [done| |done]. intros; lia. }
  destruct (EventsRejected m !! reason) as [old|] eqn:E; simpl.
  - rewrite <- (insert_id _ _ _ E) at 2. rewrite <- insert_delete_eq, Hins by apply lookup_delete_eq.
    rewrite <- (insert_delete_eq _ reason old), Hins by apply lookup_delete_eq. lia.
  - rewrite Hins by done. lia.
Qed.

End metrics.
