(* ===== verification/Worker.v ===== *)
(** * [internal/worker]: the batching worker pool

    [flush] is the retry loop as one function.  The pool is a step relation:
    any number of workers share the queue's channel and the sink, and each
    step is one receive, one tick or one call of [InsertBatch] by one worker, or an
    event handed from a producer to a worker where the channel has no buffer, so
    every interleaving of the workers, the producers and [Close] is a run. *)

From S2P Require Import Prelude Float64 Hll Clock Store Queue.
From stdpp Require Import prelude list relations strings gmap.
From Stdlib Require Import ZArith Lia.
Open Scope Z_scope.

Module worker.
Import store (Event).

(** ** The storage interface *)

Class BatchInserter (S : Type) : Type :=
  insertBatch : list Event → S → result store.error Z * S.

(** What the workers rely on: [holds L s] says that [s] contains exactly the
    events of [L].  An error leaves open whether the batch was applied. *)
Class IdempotentInserter (S : Type) `{BatchInserter S}
    (holds : list Event → S → Prop) (good : Event → Prop) : Prop := {
  holds_same L1 L2 s : same_elems L1 L2 → holds L1 s → holds L2 s;
  insert_ok L evs s n s' :
    holds L s → Forall good evs → insertBatch evs s = (Ok n, s') →
    holds (L ++ evs) s' ∧ 0 ≤ n ≤ Z.of_nat (length evs);
  insert_err L evs s e s' :
    holds L s → Forall good evs → insertBatch evs s = (Err e, s') →
    holds L s' ∨ holds (L ++ evs) s';
}.

(** ** Data *)

Record FlushInfo : Type := MkFlushInfo {
  fi_BatchSize : Z;
  fi_Inserted : Z;
  fi_Duplicates : Z;
  fi_Took : Z;
  fi_Err : option store.error;
}.

(** [OnFlush] acts on a state [M], the metrics. *)
Record Config (M : Type) : Type := MkConfig {
  Workers : Z;
  BatchSize : Z;
  FlushInterval : Z;
  MaxRetries : Z;
  OnFlush : option (FlushInfo → M → M);
}.
Arguments MkConfig {M} _ _ _ _ _.
Arguments Workers {M} _.
Arguments BatchSize {M} _.
Arguments FlushInterval {M} _.
Arguments MaxRetries {M} _.
Arguments OnFlush {M} _.

(** The defaults that [New] fills in. *)
Definition New {M} (cfg : Config M) : Config M :=
  MkConfig
    (if Workers cfg <=? 0 then 4 else Workers cfg)
    (if BatchSize cfg <=? 0 then 1000 else BatchSize cfg)
    (if FlushInterval cfg <=? 0 then 200 * clock.Millisecond else FlushInterval cfg)
    (if MaxRetries cfg <=? 0 then 3 else MaxRetries cfg)
    (OnFlush cfg).

(** [t.Sub(u)] saturates at the ends of [time.Duration]. *)
Definition time_Sub (t u : clock.time) : Z := Z.max (- 2 ^ 63) (Z.min int64_max (t - u)).

Section pool.
Context {S M : Type} `{!BatchInserter S}.
Implicit Types (cfg : Config M) (s : S) (m : M) (evs b : list Event).

(** ** [flush] *)

(** [attempt] tries have been numbered so far, [rest] remain; the result is that of
    the last call, the new sink and the sleeps between the calls. *)
Fixpoint retry cfg (rest : nat) (attempt : Z) (last : result store.error Z) evs s
    : result store.error Z * S * list Z :=
  match rest with
  | O => (last, s, [])
  | Datatypes.S rest =>
      match insertBatch evs s with
      | (Ok n, s') => (Ok n, s', [])
      | (Err e, s') =>
          let '(r, s'', naps) := retry cfg rest (attempt + 1) (Err e) evs s' in
          (r, s'', if attempt <? MaxRetries cfg
                   then attempt * 250 * clock.Millisecond :: naps else naps)
      end
  end.

(** The [FlushInfo] of a finished batch. *)
Definition flush_info evs (r : result store.error Z) (took : Z) : FlushInfo :=
  let len := Z.of_nat (length evs) in
  match r with
  | Ok inserted => MkFlushInfo len inserted (len - inserted) took None
  | Err e => MkFlushInfo len 0 0 took (Some e)
  end.

Definition report cfg (fi : FlushInfo) m : M :=
  match OnFlush cfg with Some f => f fi m | None => m end.

Record outcome : Type := MkOutcome {
  out_batch : list Event;
  out_sink : S;
  out_hook : M;
  out_sleeps : list Z;
}.

(** [start] and [finish] are the two readings of the pool's clock. *)
Definition flush cfg (start finish : clock.time) b s m : outcome :=
  match b with
  | [] => MkOutcome [] s m []
  | _ =>
      let '(r, s', naps) := retry cfg (Z.to_nat (MaxRetries cfg)) 1 (Ok 0) b s in
      MkOutcome [] s' (report cfg (flush_info b r (time_Sub finish start)) m) naps
  end.

(** ** The pool *)

(** A goroutine of [run]: in the [select], inside [flush] before the given
    attempt, or returned.  [exiting] says that [flush] was entered because the
    channel is closed. *)
Inductive worker : Type :=
  | Collecting (b : list Event)
  | Flushing (b : list Event) (start : clock.time) (attempt : Z) (exiting : bool)
  | Exited.

(** The whole system around the pool.  [accepted] and [outcomes] are history:
    what [Enqueue] accepted, and the batches whose flush has finished. *)
Record pool : Type := MkPool {
  q : queue.Memory;
  ws : list worker;
  sink : S;
  hook : M;
  accepted : list Event;
  outcomes : list (list Event * result store.error Z);
}.

(** [NewMemory], [New] and [Start]. *)
Definition start cfg (q : queue.Memory) s m : pool :=
  MkPool q (replicate (Z.to_nat (Workers cfg)) (Collecting [])) s m [] [].

Definition begin_flush (now : clock.time) b (exiting : bool) : worker :=
  match b with
  | [] => if exiting then Exited else Collecting []
  | _ => Flushing b now 1 exiting
  end.

(** What the worker is blocked on that becomes ready. *)
Inductive ready : Type := Receive | Tick | Insert.

Definition set_worker (p : pool) (i : nat) (w : worker) : pool :=
  MkPool (q p) (<[i := w]> (ws p)) (sink p) (hook p) (accepted p) (outcomes p).

Definition set_src (p : pool) (c : queue.chan) : pool :=
  MkPool (queue.MkMemory c (queue.closed (q p))) (ws p) (sink p) (hook p) (accepted p) (outcomes p).

Definition set_sink (p : pool) s : pool :=
  MkPool (q p) (ws p) s (hook p) (accepted p) (outcomes p).

(** The end of [flush]: the hook runs, the batch is reset. *)
Definition end_flush cfg (now start : clock.time) b (r : result store.error Z) (exiting : bool)
    (i : nat) (p : pool) : pool :=
  MkPool (q p) (<[i := if exiting then Exited else Collecting []]> (ws p)) (sink p)
    (report cfg (flush_info b r (time_Sub now start)) (hook p))
    (accepted p) (outcomes p ++ [(b, r)]).

(** [batch = append(batch, e)], then the test of its size. *)
Definition take_event cfg (now : clock.time) b (e : Event) : worker :=
  let b' := b ++ [e] in
  if BatchSize cfg <=? Z.of_nat (length b') then begin_flush now b' false else Collecting b'.

(** One step of worker [i], at time [now]. *)
Definition worker_step cfg (i : nat) (now : clock.time) (rd : ready) (p : pool) : option pool :=
  match ws p !! i, rd with
  | Some (Collecting b), Receive =>
      match queue.recv (queue.ch (q p)) with
      | queue.Received e c => Some (set_worker (set_src p c) i (take_event cfg now b e))
      | queue.RecvClosed => Some (set_worker p i (begin_flush now b true))
      | queue.RecvBlocks => None
      end
  | Some (Collecting b), Tick => Some (set_worker p i (begin_flush now b false))
  | Some (Flushing b st attempt exiting), Insert =>
      if attempt <=? MaxRetries cfg then
        match insertBatch b (sink p) with
        | (Ok n, s') => Some (end_flush cfg now st b (Ok n) exiting i (set_sink p s'))
        | (Err e, s') =>
            if attempt <? MaxRetries cfg
            then Some (set_worker (set_sink p s') i (Flushing b st (attempt + 1) exiting))
            else Some (end_flush cfg now st b (Err e) exiting i (set_sink p s'))
        end
      else Some (end_flush cfg now st b (Ok 0) exiting i p)
  | _, _ => None
  end.

Inductive wstep cfg : pool → pool → Prop :=
  | ws_step p p' i now rd : worker_step cfg i now rd p = Some p' → wstep cfg p p'.

(** A queue of size 0: a producer past the test of the flag meets worker [i] in
    its [select], and the event goes straight into its batch. *)
Definition hand_over cfg (i : nat) (now : clock.time) (e : Event) (p : pool) : option pool :=
  match ws p !! i with
  | Some (Collecting b) =>
      if queue.unbuffered (queue.ch (q p))
      then Some (MkPool (q p) (<[i := take_event cfg now b e]> (ws p)) (sink p) (hook p)
                   (accepted p ++ [e]) (outcomes p))
      else None
  | _ => None
  end.

(** The environment: an accepted [Enqueue], through the buffer or from hand to
    hand, and [Close]. *)
Inductive pstep cfg : pool → pool → Prop :=
  | ps_worker p p' : wstep cfg p p' → pstep cfg p p'
  | ps_enqueue p e q' :
      queue.Enqueue e (q p) = Some (q', None) →
      pstep cfg p (MkPool q' (ws p) (sink p) (hook p) (accepted p ++ [e]) (outcomes p))
  | ps_hand_over p p' i now e : hand_over cfg i now e p = Some p' → pstep cfg p p'
  | ps_close p :
      pstep cfg p (MkPool (queue.Close (q p)) (ws p) (sink p) (hook p) (accepted p) (outcomes p)).

(** ** Invariant of the pool *)

Definition valid cfg : Prop := 1 ≤ Workers cfg ∧ 1 ≤ BatchSize cfg ∧ 1 ≤ MaxRetries cfg.

(** The events in a worker's hands. *)
Definition held (w : worker) : list Event :=
  match w with Collecting b | Flushing b _ _ _ => b | Exited => [] end.

Definition in_hand (p : pool) : list Event := concat (map held (ws p)).
Definition flushed (p : pool) : list Event := concat (map fst (outcomes p)).

Definition drained (c : queue.chan) : Prop := queue.chan_closed c = true ∧ queue.buf c = [].

Definition batch_ok cfg b : Prop := b ≠ [] ∧ Z.of_nat (length b) ≤ BatchSize cfg.

Definition worker_ok cfg (c : queue.chan) (w : worker) : Prop :=
  match w with
  | Collecting b => Z.of_nat (length b) < BatchSize cfg
  | Flushing b _ attempt exiting =>
      batch_ok cfg b ∧ 1 ≤ attempt ≤ MaxRetries cfg ∧ (exiting = true → drained c)
  | Exited => drained c
  end.

Record pool_inv cfg (p : pool) : Prop := {
  pi_wf : queue.wf (q p);
  pi_conserve : accepted p ≡ₚ queue.buf (queue.ch (q p)) ++ in_hand p ++ flushed p;
  pi_workers : Forall (worker_ok cfg (queue.ch (q p))) (ws p);
  pi_batches : Forall (λ o, batch_ok cfg o.1) (outcomes p);
  pi_count : length (ws p) = Z.to_nat (Workers cfg);
}.

Lemma worker_ok_mono cfg c c' w :
  (drained c → drained c') → worker_ok cfg c w → worker_ok cfg c' w.
Proof.
  intros Hd. destruct w as [b|b st a x|]; simpl; [done| |done].
  intros (? & ? & ?). auto.
Qed.

Lemma held_le cfg c w :
  valid cfg → worker_ok cfg c w → Z.of_nat (length (held w)) ≤ BatchSize cfg.
Proof.
  intros (_ & ? & _). destruct w as [b|b st a x|]; simpl; [lia| |lia]. by intros ([_ ?] & _).
Qed.

(** Every step of a worker changes one worker, and moves events between the
    channel, its hands and the finished batches. *)
Lemma pool_inv_update cfg p i w w' q' s' m' outs all :
  pool_inv cfg p → ws p !! i = Some w → queue.wf q' →
  (drained (queue.ch (q p)) → drained (queue.ch q')) →
  worker_ok cfg (queue.ch q') w' → Forall (λ o, batch_ok cfg o.1) outs →
  queue.buf (queue.ch (q p)) ++ held w ≡ₚ
    queue.buf (queue.ch q') ++ held w' ++ concat (map fst outs) →
  all = outcomes p ++ outs →
  pool_inv cfg (MkPool q' (<[i := w']> (ws p)) s' m' (accepted p) all).
Proof.
  intros [Hwf Hc Hw Hb Hn] Hi Hwf' Hd Hok Hbs Hmove ->.
  destruct (list_lookup_split _ _ _ Hi) as (l1 & l2 & Hl & Hins).
  split; simpl; [done| | |by apply Forall_app|by rewrite length_insert].
  - etrans; [exact Hc|]. unfold in_hand, flushed. simpl. rewrite Hins, Hl.
    rewrite !map_app, !concat_app. simpl.
    transitivity ((queue.buf (queue.ch (q p)) ++ held w) ++
      (concat (map held l1) ++ concat (map held l2) ++ concat (map fst (outcomes p)))).
    + solve_Permutation.
    + rewrite Hmove. solve_Permutation.
  - apply Forall_insert; [|done]. eapply Forall_impl; [exact Hw|].
    intros x. by apply worker_ok_mono.
Qed.

Lemma recv_wf (qq : queue.Memory) e c :
  queue.wf qq → queue.recv (queue.ch qq) = queue.Received e c →
  queue.wf (queue.MkMemory c (queue.closed qq)) ∧
  queue.buf (queue.ch qq) = e :: queue.buf c.
Proof.
  intros [Hc Hl]. unfold queue.recv. destruct (queue.buf (queue.ch qq)) as [|e0 b] eqn:Hb.
  { by case_match. }
  intros [= <- <-]. split; [|done]. split; simpl in *; [done|lia].
Qed.

Lemma recv_drained c : queue.recv c = queue.RecvClosed → drained c.
Proof. unfold queue.recv, drained. destruct (queue.buf c); [by case_match|done]. Qed.

Lemma held_begin_flush now b x : held (begin_flush now b x) = b.
Proof. by destruct b, x. Qed.

Lemma begin_flush_ok cfg c now b x :
  valid cfg → Z.of_nat (length b) ≤ BatchSize cfg → (x = true → drained c) →
  worker_ok cfg c (begin_flush now b x).
Proof.
  intros (_ & Hb & Hr) Hl Hx. destruct b as [|e b]; simpl.
  - destruct x; simpl; [auto|lia].
  - split; [split; [done|exact Hl]|]. split; [lia|done].
Qed.

Lemma held_take_event cfg now b e : held (take_event cfg now b e) = b ++ [e].
Proof. unfold take_event. case_match; [apply held_begin_flush|done]. Qed.

Lemma take_event_ok cfg c now b e :
  valid cfg → Z.of_nat (length b) < BatchSize cfg → worker_ok cfg c (take_event cfg now b e).
Proof.
  intros Hv Hb. unfold take_event. case_match; bool_props; [|simpl; lia].
  apply begin_flush_ok; [done| |done]. rewrite length_app. simpl. lia.
Qed.

Lemma end_flush_inv cfg now st b r x i p s' w :
  valid cfg → pool_inv cfg p → ws p !! i = Some w → held w = b → batch_ok cfg b →
  (x = true → drained (queue.ch (q p))) →
  pool_inv cfg (end_flush cfg now st b r x i (set_sink p s')).
Proof.
  intros Hv Hinv Hi Hh Hb Hx. unfold end_flush. simpl.
  eapply (pool_inv_update cfg p i w _ _ _ _ [(b, r)]); [done|done|apply Hinv|done| |by apply Forall_singleton| |done].
  - destruct x; simpl; [auto|]. destruct Hv as (_ & ? & _). lia.
  - rewrite Hh. simpl. rewrite app_nil_r. destruct x; done.
Qed.

Lemma worker_step_inv cfg i now rd p p' :
  valid cfg → pool_inv cfg p → worker_step cfg i now rd p = Some p' → pool_inv cfg p'.
Proof.
  intros Hv Hinv. unfold worker_step.
  destruct (ws p !! i) as [w|] eqn:Hi; [|done].
  pose proof (Forall_lookup_1 _ _ _ _ (pi_workers _ _ Hinv) Hi) as Hok.
  destruct w as [b|b st a x|], rd; try done; simpl in Hok.
  - destruct (queue.recv _) as [e c| |] eqn:Hr; [| |done]; intros [= <-].
    + destruct (recv_wf (q p) e c (pi_wf _ _ Hinv) Hr) as [Hwf' Hbuf].
      eapply (pool_inv_update cfg p i (Collecting b) _ _ _ _ []);
        [done|done|exact Hwf'| | |constructor| |by rewrite app_nil_r].
      * intros [_ Hd]. by rewrite Hbuf in Hd.
      * by apply take_event_ok.
      * rewrite held_take_event. simpl. rewrite Hbuf, app_nil_r. solve_Permutation.
    + eapply (pool_inv_update cfg p i (Collecting b) _ _ _ _ []);
        [done|done|apply Hinv|done| |constructor| |by rewrite app_nil_r].
      * apply begin_flush_ok; [done|lia|]. intros _. by apply recv_drained.
      * simpl. by rewrite held_begin_flush, app_nil_r.
  - intros [= <-].
    eapply (pool_inv_update cfg p i (Collecting b) _ _ _ _ []);
      [done|done|apply Hinv|done| |constructor| |by rewrite app_nil_r].
    + apply begin_flush_ok; [done|lia|done].
    + simpl. by rewrite held_begin_flush, app_nil_r.
  - destruct Hok as (Hb & Ha & Hx). rewrite (proj2 (Z.leb_le _ _)) by lia.
    destruct (insertBatch b (sink p)) as [[n|e] s'].
    + intros [= <-]. by eapply end_flush_inv.
    + case_match; bool_props; intros [= <-]; [|by eapply end_flush_inv].
      eapply (pool_inv_update cfg p i (Flushing b st a x) _ _ _ _ []);
        [done|done|apply Hinv|done| |constructor| |by rewrite app_nil_r].
      * simpl. split; [done|]. split; [lia|done].
      * simpl. by rewrite app_nil_r.
Qed.

Lemma start_inv cfg size qq s m :
  valid cfg → queue.NewMemory size = Some qq → pool_inv cfg (start cfg qq s m).
Proof.
  intros (? & ? & ?) (Hwf & _ & Hb & _)%queue.NewMemory_wf.
  split; simpl; [done| | |done|by rewrite length_replicate].
  - unfold in_hand, flushed. simpl. rewrite Hb.
    induction (Z.to_nat (Workers cfg)); simpl in *; done.
  - apply Forall_replicate. simpl. lia.
Qed.

Lemma hand_over_inv cfg i now e p p' :
  valid cfg → pool_inv cfg p → hand_over cfg i now e p = Some p' → pool_inv cfg p'.
Proof.
  intros Hv Hinv. unfold hand_over. destruct (ws p !! i) as [[b| |]|] eqn:Hi; try done.
  destruct (queue.unbuffered _); [|done]. intros [= <-].
  pose proof (Forall_lookup_1 _ _ _ _ (pi_workers _ _ Hinv) Hi) as Hok. destruct Hinv as [Hwf Hc Hw Hb Hn].
  destruct (list_lookup_split _ _ _ Hi) as (l1 & l2 & Hl & Hins).
  split; simpl; [done| |apply Forall_insert; [done|by apply take_event_ok]|done|by rewrite length_insert].
  unfold in_hand, flushed in *. simpl. rewrite Hc, Hins, Hl, !map_app, !concat_app. simpl.
  rewrite held_take_event. solve_Permutation.
Qed.

Lemma pstep_inv cfg p p' : valid cfg → pool_inv cfg p → pstep cfg p p' → pool_inv cfg p'.
Proof.
  intros Hv Hinv Hs. destruct Hs as [p p' [p0 p1 i now rd Hs]|p e q' Hq|p p' i now e Hs|p];
    [..|by eapply hand_over_inv|].
  - by eapply worker_step_inv.
  - destruct Hinv as [Hwf Hc Hw Hb Hn].
    destruct (queue.step_spec (queue.OpEnqueue e) (q p) Hwf) as (q1 & ob & Hst & Hwf1 & _ & Hmv).
    simpl in Hst. rewrite Hq in Hst. injection Hst as <- <-. simpl in Hmv.
    split; simpl; [done| | |done|done].
    + rewrite <- Hmv. unfold in_hand, flushed in *. simpl. rewrite Hc. solve_Permutation.
    + eapply Forall_impl; [exact Hw|]. intros w. apply worker_ok_mono. intros [Hcl _].
      exfalso. destruct Hwf as [Hf _]. unfold queue.Enqueue in Hq. by rewrite Hf, Hcl in Hq.
  - destruct Hinv as [Hwf Hc Hw Hb Hn].
    destruct (queue.step_spec queue.OpClose (q p) Hwf) as (q1 & ob & Hst & Hwf1 & _ & Hmv).
    simpl in Hst. injection Hst as <- <-. simpl in Hmv. rewrite app_nil_r in Hmv.
    split; simpl; [done| | |done|done].
    + by rewrite <- Hmv.
    + eapply Forall_impl; [exact Hw|]. intros w. apply worker_ok_mono. intros [Hcl Hd].
      split; [|by rewrite <- Hmv]. unfold queue.Close. by destruct (queue.closed (q p)).
Qed.

Lemma pool_inv_reachable cfg p p' :
  valid cfg → pool_inv cfg p → rtc (pstep cfg) p p' → pool_inv cfg p'.
Proof. intros Hv Hi Hr. induction Hr; eauto using pstep_inv. Qed.

(** ** Termination of the drain *)

Definition retries cfg : nat := Z.to_nat (MaxRetries cfg).

(** How many steps a worker can still make without receiving. *)
Definition weight cfg (w : worker) : nat :=
  match w with
  | Collecting b => 1 + length b * (retries cfg + 2)
  | Flushing _ _ attempt exiting =>
      (retries cfg + 1 - Z.to_nat attempt) + (if exiting then 0 else 1)
  | Exited => 0
  end.

Definition work cfg (p : pool) : nat :=
  (length (queue.buf (queue.ch (q p))) * (retries cfg + 3) +
   sum_list_with (weight cfg) (ws p))%nat.

(** A step that is not the tick of an idle worker. *)
Definition productive cfg (p p' : pool) : Prop := wstep cfg p p' ∧ p' ≠ p.

Lemma weight_begin_flush cfg now b x :
  (weight cfg (begin_flush now b x) ≤ (if x then 0 else 1) + length b * (retries cfg + 1))%nat.
Proof. destruct b as [|e b], x; simpl; lia. Qed.

Lemma weight_take_event cfg now b e :
  (weight cfg (take_event cfg now b e) ≤ weight cfg (Collecting b) + (retries cfg + 2))%nat.
Proof.
  unfold take_event. case_match; simpl.
  - pose proof (weight_begin_flush cfg now (b ++ [e]) false) as Hw. rewrite length_app in Hw. simpl in Hw. lia.
  - rewrite length_app. simpl. lia.
Qed.

(** An event handed over adds less work than one in the buffer. *)
Lemma hand_over_work cfg i now e p p' :
  hand_over cfg i now e p = Some p' → (work cfg p' ≤ work cfg p + (retries cfg + 2))%nat.
Proof.
  unfold hand_over. destruct (ws p !! i) as [[b| |]|] eqn:Hi; try done.
  destruct (queue.unbuffered _); [|done]. intros [= <-]. unfold work. simpl.
  pose proof (sum_list_with_insert (weight cfg) (ws p) i _ (take_event cfg now b e) Hi).
  pose proof (weight_take_event cfg now b e). lia.
Qed.

Lemma set_worker_id p i w : ws p !! i = Some w → set_worker p i w = p.
Proof. intros Hi. destruct p. unfold set_worker. simpl in *. by rewrite list_insert_id. Qed.

Lemma worker_step_work cfg i now rd p p' :
  valid cfg → pool_inv cfg p → worker_step cfg i now rd p = Some p' →
  p' = p ∨ (work cfg p' < work cfg p)%nat.
Proof.
  intros (_ & HB & HR) Hinv. unfold worker_step.
  destruct (ws p !! i) as [w|] eqn:Hi; [|done].
  pose proof (Forall_lookup_1 _ _ _ _ (pi_workers _ _ Hinv) Hi) as Hok.
  pose proof (λ w', sum_list_with_insert (weight cfg) (ws p) i w w' Hi) as Hsum.
  destruct w as [b|b st a x|], rd; try done; simpl in Hok.
  - destruct (queue.recv _) as [e c| |] eqn:Hr; [| |done]; intros [= <-]; right; unfold work; simpl.
    + destruct (recv_wf (q p) e c (pi_wf _ _ Hinv) Hr) as [_ ->]. simpl.
      pose proof (weight_take_event cfg now b e). specialize (Hsum (take_event cfg now b e)). simpl in *. lia.
    + pose proof (weight_begin_flush cfg now b true). specialize (Hsum (begin_flush now b true)).
      simpl in *. lia.
  - intros [= <-]. destruct b as [|e b].
    + left. by apply set_worker_id.
    + right. unfold work. specialize (Hsum (Flushing (e :: b) now 1 false)). simpl in *. lia.
  - destruct Hok as (Hb & Ha & Hx). rewrite (proj2 (Z.leb_le _ _)) by lia.
    assert (Z.to_nat a ≤ retries cfg)%nat by (unfold retries; lia).
    destruct (insertBatch b (sink p)) as [[n|e] s'].
    + intros [= <-]. right. unfold work. simpl.
      specialize (Hsum (if x then Exited else Collecting [])). simpl in *. destruct x; simpl in *; lia.
    + case_match; bool_props; intros [= <-]; right; unfold work; simpl.
      * specialize (Hsum (Flushing b st (a + 1) x)). simpl in Hsum.
        replace (Z.to_nat (a + 1)) with (Z.to_nat a + 1)%nat in Hsum by lia.
        destruct x; lia.
      * specialize (Hsum (if x then Exited else Collecting [])). simpl in *. destruct x; simpl in *; lia.
Qed.

Lemma work_productive cfg p p' :
  valid cfg → pool_inv cfg p → productive cfg p p' → (work cfg p' < work cfg p)%nat.
Proof.
  intros Hv Hinv [Hs Hne]. destruct Hs as [p p' i now rd Hs].
  by destruct (worker_step_work cfg i now rd p p' Hv Hinv Hs).
Qed.

Lemma work_bounds cfg n p p' :
  valid cfg → pool_inv cfg p → nsteps (productive cfg) n p p' → (n ≤ work cfg p)%nat.
Proof.
  intros Hv Hinv Hn. induction Hn as [|n p1 p2 p3 Hs _ IH]; [lia|].
  pose proof (work_productive _ _ _ Hv Hinv Hs).
  assert (pool_inv cfg p2) as Hinv2.
  { eapply pstep_inv; [done|done|]. by constructor; apply Hs. }
  specialize (IH Hinv2). lia.
Qed.

(** Once the channel is closed, a worker that has not returned can move. *)
Lemma worker_progress cfg p i w :
  valid cfg → pool_inv cfg p → queue.chan_closed (queue.ch (q p)) = true →
  ws p !! i = Some w → w ≠ Exited → ∃ p', productive cfg p p'.
Proof.
  intros Hv Hinv Hcl Hi Hw.
  assert (∃ p' rd, worker_step cfg i 0 rd p = Some p' ∧ ws p' !! i ≠ Some w) as (p' & rd & Hs & Hne).
  { pose proof (lookup_lt_Some _ _ _ Hi) as Hlt. unfold worker_step. rewrite Hi.
    destruct w as [b|b st a x|]; [| |done].
    - exists (match worker_step cfg i 0 Receive p with Some p' => p' | None => p end), Receive.
      unfold worker_step. rewrite Hi.
      unfold queue.recv. destruct (queue.buf (queue.ch (q p))) as [|e bf].
      + rewrite Hcl. split; [done|]. simpl. rewrite list_lookup_insert_eq by done. by destruct b.
      + split; [done|]. simpl. rewrite list_lookup_insert_eq by done.
        intros [= Heq]. apply (f_equal (length ∘ held)) in Heq. simpl in Heq.
        rewrite held_take_event, length_app in Heq. simpl in Heq. lia.
    - exists (match worker_step cfg i 0 Insert p with Some p' => p' | None => p end), Insert.
      unfold worker_step. rewrite Hi.
      repeat case_match; (split; [done|]); simpl; rewrite list_lookup_insert_eq by done;
        try (intros [= ?]; lia); by destruct x. }
  exists p'. split; [by econstructor|]. intros ->. done.
Qed.
(** Workers never reopen the channel. *)
Lemma worker_step_closed cfg i now rd p p' :
  worker_step cfg i now rd p = Some p' → queue.closed (q p') = queue.closed (q p).
Proof. unfold worker_step. by repeat case_match; intros [= <-]. Qed.

Lemma productive_closed cfg p p' :
  valid cfg → pool_inv cfg p → queue.closed (q p) = true → rtc (productive cfg) p p' →
  pool_inv cfg p' ∧ queue.closed (q p') = true.
Proof.
  intros Hv Hinv Hcl Hr. induction Hr as [|p1 p2 p3 [Hs _] _ IH]; [done|]. apply IH.
  - eapply pstep_inv; [done|done|]. by constructor.
  - destruct Hs as [p1 p2 i now rd Hs]. by rewrite (worker_step_closed _ _ _ _ _ _ Hs).
Qed.

Lemma stuck_exited cfg p :
  valid cfg → pool_inv cfg p → queue.closed (q p) = true →
  (∃ p', productive cfg p p') ∨
  (Forall (λ w, w = Exited) (ws p) ∧ queue.buf (queue.ch (q p)) = []).
Proof.
  intros Hv Hinv Hcl. destruct (pi_wf _ _ Hinv) as [Hf _]. rewrite Hcl in Hf.
  assert (∀ w, Decision (w = Exited)) by (intros [| |]; (by left) || (by right)).
  destruct (decide (Forall (λ w, w = Exited) (ws p))) as [Hex|Hex].
  - right. split; [done|]. pose proof (pi_workers _ _ Hinv) as Hok.
    pose proof (pi_count _ _ Hinv) as Hn. destruct Hv as (Hw & _).
    destruct (ws p) as [|w l]; [simpl in Hn; lia|].
    apply Forall_cons in Hex as [-> _]. apply Forall_cons in Hok as [Hd _]. apply Hd.
  - left. apply not_Forall_Exists, Exists_exists in Hex as (w & Hin & Hne); [|done].
    apply list_elem_of_lookup in Hin as [i Hi]. by eapply worker_progress.
Qed.

(** ** The retry loop *)

(** [k] calls of [InsertBatch]: all but the last fail, the last returns [r]. *)
Inductive inserts evs : S → nat → result store.error Z → S → Prop :=
  | ins_last s r s' : insertBatch evs s = (r, s') → inserts evs s 1 r s'
  | ins_retry s e s1 k r s' :
      insertBatch evs s = (Err e, s1) → inserts evs s1 k r s' →
      inserts evs s (Datatypes.S k) r s'.

(** The sleeps after the attempts [a], [a + 1], .., [n] of them. *)
Definition backoff (a n : Z) : list Z := map (λ j, j * 250 * clock.Millisecond) (seqZ a n).

Lemma retry_spec cfg rest a last evs s :
  (0 < rest)%nat → a + Z.of_nat rest = MaxRetries cfg + 1 →
  ∃ k r s', retry cfg rest a last evs s = (r, s', backoff a (Z.of_nat k - 1)) ∧
    inserts evs s k r s' ∧ (1 ≤ k ≤ rest)%nat ∧ ((k < rest)%nat → is_ok r = true).
Proof.
  revert a last s. induction rest as [|rest IH]; intros a last s Hpos Ha; [lia|]. simpl.
  destruct (insertBatch evs s) as [[n|e] s1] eqn:Hib.
  { exists 1%nat, (Ok n), s1. split; [done|]. split; [by constructor|]. split; [lia|done]. }
  destruct (decide (rest = 0%nat)) as [->|Hne].
  { exists 1%nat, (Err e), s1. simpl. rewrite (proj2 (Z.ltb_ge _ _)) by lia.
    split; [done|]. split; [by constructor|]. split; [lia|lia]. }
  destruct (IH (a + 1) (Err e) s1) as (k & r & s2 & Hr & Hk & Hb & Hok); [lia|lia|].
  rewrite Hr, (proj2 (Z.ltb_lt _ _)) by lia.
  exists (Datatypes.S k), r, s2. split.
  { f_equal. unfold backoff. replace (Z.of_nat (Datatypes.S k) - 1) with (Z.of_nat k) by lia.
    rewrite (seqZ_cons a) by lia. simpl. by replace (Z.pred (Z.of_nat k)) with (Z.of_nat k - 1) by lia. }
  split; [by econstructor|]. split; [lia|]. intros. apply Hok. lia.
Qed.

Lemma flush_spec cfg st fin b s m :
  valid cfg → b ≠ [] →
  ∃ k r, inserts b s k r (out_sink (flush cfg st fin b s m)) ∧
    1 ≤ Z.of_nat k ≤ MaxRetries cfg ∧ (Z.of_nat k < MaxRetries cfg → is_ok r = true) ∧
    flush cfg st fin b s m =
      MkOutcome [] (out_sink (flush cfg st fin b s m))
        (report cfg (flush_info b r (time_Sub fin st)) m) (backoff 1 (Z.of_nat k - 1)).
Proof.
  intros (_ & _ & HR) Hb. destruct b as [|e b]; [done|].
  destruct (retry_spec cfg (Z.to_nat (MaxRetries cfg)) 1 (Ok 0) (e :: b) s)
    as (k & r & s' & Hr & Hins & Hk & Hok); [lia|lia|].
  exists k, r. unfold flush. rewrite Hr. simpl. split; [done|]. split; [lia|].
  split; [|done]. intros. apply Hok. lia.
Qed.

(** The steps of a worker inside [flush] compute [flush]. *)
Lemma retry_steps cfg rest i now p b st a x last :
  (0 < rest)%nat → 1 ≤ a → a + Z.of_nat rest = MaxRetries cfg + 1 →
  ws p !! i = Some (Flushing b st a x) →
  let '(r, s', _) := retry cfg rest a last b (sink p) in
  rtc (wstep cfg) p (end_flush cfg now st b r x i (set_sink p s')).
Proof.
  revert a last p. induction rest as [|rest IH]; intros a last p Hpos Ha1 Ha Hi; [lia|]. simpl.
  assert (∀ p', worker_step cfg i now Insert p = Some p' → wstep cfg p p') as Hstep
    by (intros p' Hp; by econstructor).
  unfold worker_step in Hstep. rewrite Hi, (proj2 (Z.leb_le _ _)) in Hstep by lia.
  destruct (insertBatch b (sink p)) as [[n|e] s1] eqn:Hib.
  { apply rtc_once. auto. }
  destruct (decide (rest = 0%nat)) as [->|Hne].
  { rewrite (proj2 (Z.ltb_ge _ _)) in Hstep by lia. simpl. apply rtc_once. auto. }
  rewrite (proj2 (Z.ltb_lt _ _)) in Hstep by lia.
  pose proof (IH (a + 1) (Err e) (set_worker (set_sink p s1) i (Flushing b st (a + 1) x))) as IH'.
  simpl in IH'. rewrite list_lookup_insert_eq in IH' by (by eapply lookup_lt_Some).
  specialize (IH' ltac:(lia) ltac:(lia) ltac:(lia) eq_refl).
  destruct (retry cfg rest (a + 1) (Err e) b s1) as [[r s2] naps].
  eapply rtc_l; [by apply Hstep|]. revert IH'. unfold end_flush. simpl.
  by rewrite list_insert_insert_eq.
Qed.

Lemma insert_ok_step cfg p i b st a x now n s' :
  ws p !! i = Some (Flushing b st a x) → a ≤ MaxRetries cfg →
  insertBatch b (sink p) = (Ok n, s') →
  wstep cfg p (end_flush cfg now st b (Ok n) x i (set_sink p s')).
Proof.
  intros Hi Ha Hib. apply (ws_step cfg p _ i now Insert). unfold worker_step.
  by rewrite Hi, (proj2 (Z.leb_le _ _)), Hib by done.
Qed.

(** ** What the sink holds *)

Section sink.
Context {holds : list Event → S → Prop} {good : Event → Prop}
  `{!IdempotentInserter S holds good}.

Lemma same_elems_twice (L b : list Event) : same_elems ((L ++ b) ++ b) (L ++ b).
Proof. intros e. rewrite !elem_of_app. tauto. Qed.

Lemma inserts_holds L b s k r s' :
  holds L s → Forall good b → inserts b s k r s' →
  match r with
  | Ok n => holds (L ++ b) s' ∧ 0 ≤ n ≤ Z.of_nat (length b)
  | Err _ => holds L s' ∨ holds (L ++ b) s'
  end.
Proof.
  intros HL Hg Hins. revert HL. revert L. induction Hins as [s r s' Hib|s e s1 k r s' Hib Hins IH]; intros L HL.
  - destruct r; [by eapply insert_ok|by eapply insert_err].
  - destruct (insert_err L b s e s1 HL Hg Hib) as [H1|H1]; [by apply IH|].
    apply IH in H1. destruct r.
    + destruct H1 as [H1 ?]. split; [|done]. by eapply holds_same; [apply same_elems_twice|].
    + right. destruct H1 as [H1|H1]; [done|]. by eapply holds_same; [apply same_elems_twice|].
Qed.

(** The sink has every batch that was reported stored, and nothing that was
    not accepted. *)
Definition sink_inv (L0 : list Event) (p : pool) : Prop :=
  ∃ L, holds (L0 ++ L) (sink p) ∧ (∀ e, e ∈ L → e ∈ accepted p) ∧
       (∀ b n e, (b, Ok n) ∈ outcomes p → e ∈ b → e ∈ L).

Lemma held_accepted cfg p i w e :
  pool_inv cfg p → ws p !! i = Some w → e ∈ held w → e ∈ accepted p.
Proof.
  intros Hinv Hi He. rewrite (pi_conserve _ _ Hinv), !elem_of_app. right. left.
  unfold in_hand. apply list_elem_of_In, in_concat. exists (held w).
  split; [|by apply list_elem_of_In]. apply in_map, list_elem_of_In. by eapply list_elem_of_lookup_2.
Qed.

Lemma sink_inv_insert cfg L0 p i b st a x r s' :
  pool_inv cfg p → sink_inv L0 p → Forall good (accepted p) →
  ws p !! i = Some (Flushing b st a x) → insertBatch b (sink p) = (r, s') →
  ∃ L, holds (L0 ++ L) s' ∧ (∀ e, e ∈ L → e ∈ accepted p) ∧
       (∀ b n e, (b, Ok n) ∈ outcomes p → e ∈ b → e ∈ L) ∧
       (is_ok r = true → ∀ e, e ∈ b → e ∈ L).
Proof.
  intros Hinv (L & HL & Hacc & Hst) Hg Hi Hib.
  assert (∀ e, e ∈ b → e ∈ accepted p) as Hb by (intros e He; by eapply held_accepted).
  assert (Forall good b) as Hgb.
  { apply Forall_forall. intros e He. rewrite Forall_forall in Hg. auto. }
  assert (∀ e, e ∈ L ++ b → e ∈ accepted p) as HLb.
  { intros e. rewrite elem_of_app. intros [?|?]; auto. }
  assert (∀ b' n e, (b', Ok n) ∈ outcomes p → e ∈ b' → e ∈ L ++ b) as Hst'.
  { intros b' n e Hin He. apply elem_of_app. left. eauto. }
  assert (∀ e, e ∈ b → e ∈ L ++ b) as Hbb by (intros; apply elem_of_app; by right).
  destruct r as [n|err].
  - destruct (insert_ok _ _ _ _ _ HL Hgb Hib) as [H1 _]. rewrite <- app_assoc in H1.
    exists (L ++ b). auto.
  - destruct (insert_err _ _ _ _ _ HL Hgb Hib) as [H1|H1]; [by exists L|].
    rewrite <- app_assoc in H1. exists (L ++ b). auto.
Qed.

Lemma sink_inv_worker cfg L0 p p' :
  pool_inv cfg p → sink_inv L0 p → Forall good (accepted p) → wstep cfg p p' → sink_inv L0 p'.
Proof.
  intros Hinv Hsi Hg Hs. destruct Hs as [p0 p1 i now rd Hs]. revert Hs. unfold worker_step.
  destruct (ws p0 !! i) as [[b|b st a x|]|] eqn:Hi; [| |done|done]; destruct rd; try done.
  - destruct (queue.recv _); [| |done]; intros [= <-]; apply Hsi.
  - intros [= <-]. apply Hsi.
  - pose proof (Forall_lookup_1 _ _ _ _ (pi_workers _ _ Hinv) Hi) as (Hb & Ha & Hx).
    rewrite (proj2 (Z.leb_le _ _)) by lia.
    destruct (insertBatch b (sink p0)) as [r s'] eqn:Hib.
    destruct (sink_inv_insert cfg L0 p0 i b st a x r s' Hinv Hsi Hg Hi Hib)
      as (L & HL & Hacc & Hst & Hok).
    assert (∀ r', (∀ n, r' = Ok n → is_ok r = true) →
      sink_inv L0 (end_flush cfg now st b r' x i (set_sink p0 s'))) as Hend.
    { intros r' Hr'. exists L. split; [done|]. split; [done|]. simpl. intros b' n e Hin He.
      apply elem_of_app in Hin as [Hin|Hin%list_elem_of_singleton]; [by eauto|].
      injection Hin as -> Hr. eauto. }
    destruct r as [n|err]; [|case_match]; intros [= <-]; [by apply Hend| |by apply Hend].
    by exists L.
Qed.

(** The hook runs exactly when a batch is finished, on its [FlushInfo]. *)
Lemma worker_step_report cfg i now rd p p' :
  worker_step cfg i now rd p = Some p' →
  (hook p' = hook p ∧ outcomes p' = outcomes p) ∨
  ∃ b r took, hook p' = report cfg (flush_info b r took) (hook p) ∧
              outcomes p' = outcomes p ++ [(b, r)].
Proof.
  unfold worker_step.
  repeat case_match; intros [= <-]; solve [by left | by right; eexists _, _, _].
Qed.

(** Handing over touches one worker and the history of accepted events. *)
Lemma hand_over_frame cfg i now e p p' :
  hand_over cfg i now e p = Some p' →
  accepted p' = accepted p ++ [e] ∧ sink p' = sink p ∧ hook p' = hook p ∧ outcomes p' = outcomes p ∧ q p' = q p.
Proof. unfold hand_over. by repeat case_match; intros [= <-]. Qed.

Lemma pstep_accepted cfg p p' : pstep cfg p p' → accepted p `prefix_of` accepted p'.
Proof.
  destruct 1 as [p p' [p0 p1 i now rd Hs]|p e q' Hq|p p' i now e Hs|p]; [|by apply prefix_app_r| |done].
  - revert Hs. unfold worker_step. by repeat case_match; intros [= <-].
  - apply hand_over_frame in Hs as [-> _]. by apply prefix_app_r.
Qed.

Lemma sink_inv_step cfg L0 p p' :
  pool_inv cfg p → sink_inv L0 p → Forall good (accepted p) → pstep cfg p p' → sink_inv L0 p'.
Proof.
  intros Hinv Hsi Hg Hs. destruct Hs as [p p' Hs|p e q' Hq|p p' i now e Hs|p]; [by eapply sink_inv_worker| | |done].
  - destruct Hsi as (L & HL & Hacc & Hst). exists L. split; [done|]. split; [|done].
    intros e' He. simpl. apply elem_of_app. auto.
  - destruct Hsi as (L & HL & Hacc & Hst), (hand_over_frame _ _ _ _ _ _ Hs) as (Ha & Hk & _ & Ho & _).
    exists L. rewrite Ha, Hk, Ho. split; [done|]. split; [|done]. intros e' He. apply elem_of_app. auto.
Qed.

Lemma sink_inv_reachable cfg L0 p p' :
  valid cfg → pool_inv cfg p → sink_inv L0 p → rtc (pstep cfg) p p' →
  Forall good (accepted p') → sink_inv L0 p'.
Proof.
  intros Hv Hinv Hsi Hr Hg.
  assert (∀ p1, rtc (pstep cfg) p1 p' → Forall good (accepted p1)) as Hmono.
  { intros p1 H1. induction H1 as [|p1 p2 p3 Hs _ IH]; [done|].
    destruct (pstep_accepted _ _ _ Hs) as [k Hk]. specialize (IH Hr Hg).
    rewrite Hk in IH. by apply Forall_app in IH as [? _]. }
  clear Hg. induction Hr as [|p1 p2 p3 Hs Hr IH]; [done|].
  apply IH; [by eapply pstep_inv| |done].
  eapply sink_inv_step; [done|done| |done]. apply Hmono. by eapply rtc_l.
Qed.

(** When every worker has returned, nothing is in flight. *)
Lemma exited_drained cfg p :
  valid cfg → pool_inv cfg p → Forall (λ w, w = Exited) (ws p) →
  drained (queue.ch (q p)) ∧ in_hand p = [] ∧ accepted p ≡ₚ flushed p.
Proof.
  intros (Hw & _ & _) Hinv Hex. pose proof (pi_count _ _ Hinv) as Hn.
  pose proof (pi_workers _ _ Hinv) as Hok. pose proof (pi_conserve _ _ Hinv) as Hc.
  assert (drained (queue.ch (q p))) as Hd.
  { destruct (ws p) as [|w l]; [simpl in Hn; lia|].
    apply Forall_cons in Hex as [-> _]. by apply Forall_cons in Hok as [? _]. }
  assert (in_hand p = []) as Hh.
  { unfold in_hand. clear -Hex. induction Hex as [|w l -> _ IH]; [done|]. simpl. done. }
  split; [done|]. split; [done|]. rewrite Hc, Hh. destruct Hd as [_ ->]. done.
Qed.

Lemma drained_pool cfg size qq L0 s m p :
  valid cfg → queue.NewMemory size = Some qq → holds L0 s →
  rtc (pstep cfg) (start cfg qq s m) p → Forall good (accepted p) →
  Forall (λ w, w = Exited) (ws p) →
  ∃ L, holds (L0 ++ L) (sink p) ∧ (∀ e, e ∈ L → e ∈ accepted p) ∧
    ∀ e, e ∈ accepted p → e ∈ L ∨ ∃ b err, (b, Err err) ∈ outcomes p ∧ e ∈ b.
Proof.
  intros Hv Hq HL Hr Hg Hex. pose proof (start_inv cfg size qq s m Hv Hq) as Hinv0.
  pose proof (pool_inv_reachable _ _ _ Hv Hinv0 Hr) as Hinv.
  assert (sink_inv L0 (start cfg qq s m)) as Hs0.
  { exists []. rewrite app_nil_r. split; [done|]. split; [done|].
    by intros b n e ?%not_elem_of_nil. }
  destruct (sink_inv_reachable cfg L0 _ _ Hv Hinv0 Hs0 Hr Hg) as (L & HL' & Hacc & Hst).
  exists L. split; [done|]. split; [done|]. intros e He.
  destruct (exited_drained _ _ Hv Hinv Hex) as (_ & _ & Hfl). rewrite Hfl in He.
  apply list_elem_of_In, in_concat in He as (b & Hb & He). apply in_map_iff in Hb as ([b' r] & <- & Ho).
  apply list_elem_of_In in He, Ho. destruct r as [n|err]; [left|right]; eauto.
Qed.
End sink.
End pool.

Lemma New_valid {M} (cfg : Config M) : valid (New cfg) ∧ 0 < FlushInterval (New cfg).
Proof.
  unfold valid, New, clock.Millisecond. simpl. repeat case_match; bool_props; lia.
Qed.

(** ** Properties *)

(** [New] makes every setting usable: workers, batch size, flush interval
    and retries are positive whatever was asked, and a positive setting is kept. *)
Lemma New_positive {M} (cfg : Config M) :
  valid (New cfg) ∧ 0 < FlushInterval (New cfg) ∧
  (valid cfg → 0 < FlushInterval cfg → New cfg = cfg).
Proof.
  destruct (New_valid cfg) as [Hv Hf]. split; [done|]. split; [done|].
  intros (? & ? & ?) ?. destruct cfg as [w b f r h]. unfold New. simpl in *.
  by rewrite !(proj2 (Z.leb_gt _ _)) by lia.
Qed.

(** [flush] calls [InsertBatch] at most [MaxRetries] times and stops at the
    first success.  Between the calls it sleeps 250 ms, 500 ms, 750 ms, ...; it
    resets the batch and reports the last result to the hook once. *)
Lemma flush_retries {S M} `{!BatchInserter S} (cfg : Config M) st fin b (s : S) (m : M) :
  valid cfg → b ≠ [] →
  ∃ k r s', inserts b s k r s' ∧
    1 ≤ Z.of_nat k ≤ MaxRetries cfg ∧ (Z.of_nat k < MaxRetries cfg → is_ok r = true) ∧
    flush cfg st fin b s m =
      MkOutcome [] s' (report cfg (flush_info b r (time_Sub fin st)) m)
        (backoff 1 (Z.of_nat k - 1)).
Proof.
  intros Hv Hb. destruct (flush_spec cfg st fin b s m Hv Hb) as (k & r & ? & ? & ? & ?).
  by exists k, r, (out_sink (flush cfg st fin b s m)).
Qed.

(** C17: what [flush] tells the hook is true of the sink.  With no error, the
    whole batch is stored and inserted plus duplicates is the batch size, both
    non-negative; with an error the counts are zero and the sink holds the batch
    completely or not at all. *)
Theorem flush_delivers {S M} `{!BatchInserter S} {holds good}
    `{!IdempotentInserter S holds good} (cfg : Config M) st fin b (s : S) (m : M) L :
  valid cfg → b ≠ [] → holds L s → Forall good b →
  ∃ fi, out_hook (flush cfg st fin b s m) = report cfg fi m ∧
    fi_BatchSize fi = Z.of_nat (length b) ∧
    match fi_Err fi with
    | None => holds (L ++ b) (out_sink (flush cfg st fin b s m)) ∧
        fi_Inserted fi + fi_Duplicates fi = fi_BatchSize fi ∧
        0 ≤ fi_Inserted fi ∧ 0 ≤ fi_Duplicates fi
    | Some _ => fi_Inserted fi = 0 ∧ fi_Duplicates fi = 0 ∧
        (holds L (out_sink (flush cfg st fin b s m)) ∨
         holds (L ++ b) (out_sink (flush cfg st fin b s m)))
    end.
Proof.
  intros Hv Hb HL Hg. destruct (flush_spec cfg st fin b s m Hv Hb) as (k & r & Hins & _ & _ & Hf).
  exists (flush_info b r (time_Sub fin st)). split; [by rewrite Hf|].
  pose proof (inserts_holds L b s k r _ HL Hg Hins) as Hh. destruct r as [n|e]; simpl.
  - split; [done|]. destruct Hh as [? ?]. split; [done|]. lia.
  - by split.
Qed.

(** The steps of a worker inside [flush], with nothing in between, compute
    exactly the function [flush]: same sink, same hook state, empty batch. *)
Lemma flush_refined_by_steps {S M} `{!BatchInserter S} (cfg : Config M) (p : pool (S:=S) (M:=M))
    i b st now x :
  valid cfg → b ≠ [] → ws p !! i = Some (Flushing b st 1 x) →
  let o := flush cfg st now b (sink p) (hook p) in
  ∃ r, rtc (wstep cfg) p
    (MkPool (q p) (<[i := if x then Exited else Collecting (out_batch o)]> (ws p))
       (out_sink o) (out_hook o) (accepted p) (outcomes p ++ [(b, r)])).
Proof.
  intros (_ & _ & HR) Hb Hi. destruct b as [|e b]; [done|].
  pose proof (retry_steps cfg (Z.to_nat (MaxRetries cfg)) i now p (e :: b) st 1 x (Ok 0)
    ltac:(lia) ltac:(lia) ltac:(lia) Hi) as Hsteps.
  unfold flush. destruct (retry _ _ _ _ _ _) as [[r s'] naps]. exists r. exact Hsteps.
Qed.

(** C16: conservation.  In every reachable state of queue and pool the accepted
    events are, as a multiset, those queued, those in the workers' hands and
    those in finished batches; and no batch is empty or larger than [BatchSize]. *)
Theorem pool_conserves {S M} `{!BatchInserter S} (cfg : Config M) size qq (s : S) (m : M) p :
  queue.NewMemory size = Some qq → rtc (pstep (New cfg)) (start (New cfg) qq s m) p →
  accepted p ≡ₚ queue.buf (queue.ch (q p)) ++ in_hand p ++ flushed p ∧
  Forall (λ o, o.1 ≠ [] ∧ Z.of_nat (length o.1) ≤ BatchSize (New cfg)) (outcomes p) ∧
  Forall (λ w, Z.of_nat (length (held w)) ≤ BatchSize (New cfg)) (ws p).
Proof.
  intros Hq Hr. pose proof (proj1 (New_valid cfg)) as Hv.
  pose proof (pool_inv_reachable _ _ _ Hv (start_inv _ _ _ s m Hv Hq) Hr) as [_ Hc Hw Hb _].
  split; [done|]. split; [exact Hb|]. eapply Forall_impl; [exact Hw|].
  intros w. by apply held_le.
Qed.

(** After [Close] the pool drains and [Wait] returns.  From any reachable
    state with the channel closed, no run makes more than [work] productive
    steps (all steps but idle ticks), and a state without a productive step has
    every worker returned and the queue empty. *)
Lemma drain_terminates {S M} `{!BatchInserter S} (cfg : Config M) size qq (s : S) (m : M) p :
  queue.NewMemory size = Some qq → rtc (pstep (New cfg)) (start (New cfg) qq s m) p →
  queue.closed (q p) = true →
  (∀ n p', nsteps (productive (New cfg)) n p p' → (n ≤ work (New cfg) p)%nat) ∧
  (∀ p', rtc (productive (New cfg)) p p' →
     (∃ p'', productive (New cfg) p' p'') ∨
     (Forall (λ w, w = Exited) (ws p') ∧ queue.buf (queue.ch (q p')) = [])).
Proof.
  intros Hq Hr Hcl. pose proof (proj1 (New_valid cfg)) as Hv.
  pose proof (pool_inv_reachable _ _ _ Hv (start_inv _ _ _ s m Hv Hq) Hr) as Hinv.
  split; [intros n p'; by apply work_bounds|].
  intros p' Hr'. apply (productive_closed (New cfg) p p') in Hr' as [Hinv' Hcl']; [|done..].
  by apply stuck_exited.
Qed.

(** C14: graceful shutdown loses nothing but what was reported.  When all
    workers have returned, the sink holds its old events and accepted ones
    only, and an accepted event that it does not hold is in a batch whose flush
    reported an error. *)
Theorem drained_pool_loses_nothing {S M} `{!BatchInserter S} {holds good}
    `{!IdempotentInserter S holds good} (cfg : Config M) size qq L0 (s : S) (m : M) p :
  queue.NewMemory size = Some qq → holds L0 s →
  rtc (pstep (New cfg)) (start (New cfg) qq s m) p →
  Forall good (accepted p) → Forall (λ w, w = Exited) (ws p) →
  ∃ L, holds (L0 ++ L) (sink p) ∧ (∀ e, e ∈ L → e ∈ accepted p) ∧
    ∀ e, e ∈ accepted p → e ∈ L ∨ ∃ b err, (b, Err err) ∈ outcomes p ∧ e ∈ b.
Proof. intros Hq HL. apply (drained_pool (New cfg) size); [apply New_valid|done|done]. Qed.

(** ** A reference sink, and concrete instances *)

(** A list with a script of faults: the simplest sink that keeps the laws. *)
Record log_sink : Type := MkLog { log : list Event; script : list store.fault }.

#[global] Instance log_inserter : BatchInserter log_sink := λ evs s,
  let '(f, fs) := store.next (script s) in
  match f with
  | store.NoFault => (Ok (Z.of_nat (length evs)), MkLog (log s ++ evs) fs)
  | store.FaultBefore => (Err store.ErrConn, MkLog (log s) fs)
  | store.FaultAfter => (Err store.ErrConn, MkLog (log s ++ evs) fs)
  end.

Definition log_holds (L : list Event) (s : log_sink) : Prop := same_elems L (log s).

Lemma log_holds_app L evs l fs :
  same_elems L l → log_holds (L ++ evs) (MkLog (l ++ evs) fs).
Proof. intros H e. simpl. rewrite !elem_of_app. by rewrite (H e). Qed.

#[global] Instance log_idempotent : IdempotentInserter log_sink log_holds (λ _, True).
Proof.
  split.
  - intros L1 L2 s H12 H. unfold log_holds. by rewrite <- H12.
  - intros L evs s n s' H _. unfold insertBatch, log_inserter.
    destruct (store.next (script s)) as [[] fs]; [|done..].
    intros [= <- <-]. split; [by apply log_holds_app|lia].
  - intros L evs s e s' H _. unfold insertBatch, log_inserter.
    destruct (store.next (script s)) as [[] fs]; [done| |]; intros [= <- <-];
      [by left|right; by apply log_holds_app].
Qed.

Definition cfg0 : Config (list FlushInfo) := MkConfig 1 2 0 0 (Some cons).
Definition e0 : Event := queue.sample.
Definition q2 : queue.Memory := queue.MkMemory (queue.MkChan 2 [] false) false.

Lemma flush_retries_example :
  ∃ k r s', inserts [e0] (MkLog [] [store.FaultAfter]) k r s' ∧
    1 ≤ Z.of_nat k ≤ 3 ∧ (Z.of_nat k < 3 → is_ok r = true) ∧
    flush (New cfg0) 0 5 [e0] (MkLog [] [store.FaultAfter]) [] =
      MkOutcome [] s' [flush_info [e0] r 5] (backoff 1 (Z.of_nat k - 1)).
Proof.
  exact (flush_retries (New cfg0) 0 5 [e0] (MkLog [] [store.FaultAfter]) []
    (proj1 (New_valid cfg0)) ltac:(discriminate)).
Defined.

Lemma flush_delivers_witness :
  ∃ fi, out_hook (flush (New cfg0) 0 5 [e0] (MkLog [] []) []) = report (New cfg0) fi [] ∧
    fi_BatchSize fi = 1 ∧
    match fi_Err fi with
    | None => log_holds [e0] (out_sink (flush (New cfg0) 0 5 [e0] (MkLog [] []) [])) ∧
        fi_Inserted fi + fi_Duplicates fi = fi_BatchSize fi ∧
        0 ≤ fi_Inserted fi ∧ 0 ≤ fi_Duplicates fi
    | Some _ => fi_Inserted fi = 0 ∧ fi_Duplicates fi = 0 ∧
        (log_holds [] (out_sink (flush (New cfg0) 0 5 [e0] (MkLog [] []) [])) ∨
         log_holds [e0] (out_sink (flush (New cfg0) 0 5 [e0] (MkLog [] []) [])))
    end.
Proof.
  apply (flush_delivers (holds := log_holds) (good := λ _, True) (New cfg0) 0 5 [e0] (MkLog [] []) [] []).
  - apply New_valid.
  - discriminate.
  - unfold log_holds. reflexivity.
  - repeat constructor.
Defined.

(** A run of one worker: an event is accepted, received, [Close]d, and the
    closed channel makes the worker flush it and return. *)
Definition p_start : pool (S := log_sink) (M := list FlushInfo) := start (New cfg0) q2 (MkLog [] []) [].
Definition p_flushing : pool (S := log_sink) (M := list FlushInfo) :=
  MkPool (queue.MkMemory (queue.MkChan 2 [] true) true) [Flushing [e0] 0 1 true] (MkLog [] []) [] [e0] [].
Definition p_closed : pool (S := log_sink) (M := list FlushInfo) :=
  MkPool (queue.MkMemory (queue.MkChan 2 [] true) true) [Collecting [e0]] (MkLog [] []) [] [e0] [].
Definition p_done : pool (S := log_sink) (M := list FlushInfo) :=
  MkPool (queue.MkMemory (queue.MkChan 2 [] true) true) [Exited] (MkLog [e0] [])
    [MkFlushInfo 1 1 0 0 None] [e0] [([e0], Ok 1)].

Lemma p_closed_reachable : rtc (pstep (New cfg0)) p_start p_closed.
Proof.
  eapply rtc_l; [apply (ps_enqueue _ p_start e0); reflexivity|].
  eapply rtc_l; [apply ps_worker, (ws_step _ _ _ 0%nat 0 Receive); reflexivity|].
  eapply rtc_l; [apply ps_close|]. apply rtc_refl.
Qed.

Lemma p_done_reachable : rtc (pstep (New cfg0)) p_start p_done.
Proof.
  etrans; [apply p_closed_reachable|].
  eapply rtc_l; [apply ps_worker, (ws_step _ _ _ 0%nat 0 Receive); reflexivity|].
  eapply rtc_l; [apply ps_worker, (ws_step _ _ _ 0%nat 0 Insert); reflexivity|]. apply rtc_refl.
Qed.

Lemma flush_refined_by_steps_example :
  ∃ r, rtc (wstep (New cfg0)) p_flushing
    (MkPool (q p_flushing) [Exited] (MkLog [e0] []) [MkFlushInfo 1 1 0 7 None] [e0] [([e0], r)]).
Proof.
  exact (flush_refined_by_steps (New cfg0) p_flushing 0%nat [e0] 0 7 true
    (proj1 (New_valid cfg0)) ltac:(discriminate) eq_refl).
Defined.

Lemma pool_conserves_witness :
  accepted p_closed ≡ₚ [] ++ in_hand p_closed ++ flushed p_closed ∧
  Forall (λ o, o.1 ≠ [] ∧ Z.of_nat (length o.1) ≤ 2) (outcomes p_closed) ∧
  Forall (λ w, Z.of_nat (length (held w)) ≤ 2) (ws p_closed).
Proof.
  exact (pool_conserves cfg0 2 q2 (MkLog [] []) [] p_closed eq_refl p_closed_reachable).
Defined.

Lemma drain_terminates_example :
  (∀ n p', nsteps (productive (New cfg0)) n p_closed p' → (n ≤ work (New cfg0) p_closed)%nat) ∧
  (∀ p', rtc (productive (New cfg0)) p_closed p' →
     (∃ p'', productive (New cfg0) p' p'') ∨
     (Forall (λ w, w = Exited) (ws p') ∧ queue.buf (queue.ch (q p')) = [])).
Proof.
  exact (drain_terminates cfg0 2 q2 (MkLog [] []) [] p_closed eq_refl p_closed_reachable eq_refl).
Defined.

Lemma drained_pool_loses_nothing_witness :
  ∃ L, log_holds ([] ++ L) (sink p_done) ∧ (∀ e, e ∈ L → e ∈ accepted p_done) ∧
    ∀ e, e ∈ accepted p_done → e ∈ L ∨ ∃ b err, (b, Err err) ∈ outcomes p_done ∧ e ∈ b.
Proof.
  apply (drained_pool_loses_nothing (holds := log_holds) (good := λ _, True) cfg0 2 q2 []
    (MkLog [] []) [] p_done); [reflexivity|unfold log_holds; reflexivity|exact p_done_reachable| |];
    repeat constructor.
Defined.

End worker.
