(* ===== verification/Kafka.v ===== *)
(** * [internal/queue/kafka.go]: the durable queue

    The broker client (franz-go) is a parameter: [Kgo] names the calls the code
    makes, [Outbox] and [OutboxLaws] what its documentation promises to a
    producer.  [KafkaProducer] with its life cycle is here, and the code of
    [KafkaConsumer.Run] as the steps of a state machine; [KafkaGroup] lets any
    number of consumers take these steps together. *)

From S2P Require Import Prelude Float64 Hll Clock Store Queue Worker.
From stdpp Require Import prelude list relations strings gmap.
From Stdlib Require Import ZArith Lia.
Open Scope Z_scope.

Module kafka.
Import store (Event).

(** ** The client and the codec *)

Record record : Type := MkRecord {
  Partition : Z;
  Offset : Z;
  Key : string;
  Value : string;
}.

(** What a producer hands over: topic, key and value. *)
Definition message : Type := string * string * string.

Record fetches : Type := MkFetches { IsClientClosed : bool; Records : list record }.

(** The options of [kgo.NewClient] that the code uses. *)
Inductive opt : Type :=
  | SeedBrokers (brokers : list string)
  | AllowAutoTopicCreation
  | MaxBufferedRecords (n : Z)
  | ProducerLinger (d : Z)
  | ConsumeTopics (topic : string)
  | ConsumerGroup (group : string)
  | DisableAutoCommit
  | FetchMaxWait (d : Z).

Class Kgo (B : Type) : Type := {
  NewClient : list opt → option B;
  BufferedProduceRecords : B → Z;
  Produce : message → B → B;
  Flush : B → option store.error * B;
  CloseClient : B → B;
  PollRecords : Z → B → fetches * B;
  CommitRecords : list record → B → option store.error * B;
}.

(** [json.Marshal] and [json.Unmarshal] on [store.Event]; see [JsonEvent]. *)
Class Codec : Type := {
  json_Marshal_event : Event → option string;
  json_Unmarshal_event : string → option Event;
}.

(** ** The producer *)

(** The records of a producer: still buffered, acknowledged by the broker, or
    given up, in which case the callback has logged the loss. *)
Class Outbox (B : Type) : Type := {
  buffered : B → list message;
  acked : B → list message;
  failed : B → list message;
}.

(** The client moves records out of its buffer and loses none. *)
Definition moves {B} `{Outbox B} (b b' : B) : Prop :=
  acked b' ++ failed b' ++ buffered b' ≡ₚ acked b ++ failed b ++ buffered b ∧
  acked b `prefix_of` acked b' ∧ failed b `prefix_of` failed b'.

Class OutboxLaws (B : Type) `{Kgo B, Outbox B} : Prop := {
  buffered_count b : BufferedProduceRecords b = Z.of_nat (length (buffered b));
  produce_buffers m b :
    buffered (Produce m b) = buffered b ++ [m] ∧
    acked (Produce m b) = acked b ∧ failed (Produce m b) = failed b;
  flush_moves b err b' : Flush b = (err, b') → moves b b' ∧ (err = None → buffered b' = []);
  (** records that are still buffered when the client is closed are failed *)
  close_moves b : moves b (CloseClient b) ∧ buffered (CloseClient b) = [];
}.

Section kafka.
Context {B : Type} {kgo : Kgo B} {codec : Codec}.

Record KafkaProducer : Type := MkProducer { cl : B; ptopic : string; maxBuf : Z }.

Definition NewKafkaProducer (brokers : list string) (topic : string) (maxBuffered : Z)
    : option KafkaProducer :=
  cl ← NewClient [SeedBrokers brokers; AllowAutoTopicCreation; MaxBufferedRecords maxBuffered;
                  ProducerLinger (5 * clock.Millisecond)];
  Some (MkProducer cl topic maxBuffered).

Definition Enqueue (e : Event) (p : KafkaProducer) : option (KafkaProducer * option queue.error) :=
  if maxBuf p <=? BufferedProduceRecords (cl p) then Some (p, Some queue.ErrFull)
  else match json_Marshal_event e with
       | None => Some (p, Some queue.ErrOther)
       | Some b =>
           Some (MkProducer (Produce (ptopic p, store.Name e, b) (cl p)) (ptopic p) (maxBuf p), None)
       end.

#[global] Instance producer_enqueuer : queue.Enqueuer KafkaProducer := Enqueue.

#[global] Instance producer_laws : queue.EnqueuerLaws KafkaProducer.
Proof.
  intros e p p' err. unfold queue.enqueue, producer_enqueuer, Enqueue.
  repeat case_match; by intros [= <- ?].
Qed.

(** Flush what is buffered, with a time limit, then close the client.  The
    result says whether a failed flush was logged. *)
Definition Close (p : KafkaProducer) : bool * KafkaProducer :=
  let '(err, b) := Flush (cl p) in
  (match err with Some _ => true | None => false end,
   MkProducer (CloseClient b) (ptopic p) (maxBuf p)).

(** Requests that enqueue, and the client's own progress; the events for which
    [Enqueue] returned nil are recorded. *)
Context {obx : Outbox B}.

Inductive plife : KafkaProducer * list Event → KafkaProducer * list Event → Prop :=
  | pl_accept e p p' acc :
      Enqueue e p = Some (p', None) → plife (p, acc) (p', acc ++ [e])
  | pl_refuse e p p' err acc :
      Enqueue e p = Some (p', Some err) → plife (p, acc) (p', acc)
  | pl_client p b' acc :
      moves (cl p) b' → plife (p, acc) (MkProducer b' (ptopic p) (maxBuf p), acc).

(** ** The consumer *)

(** [batchSize <= 0] means 1000. *)
Definition consumer_batch (batchSize : Z) : Z := if batchSize <=? 0 then 1000 else batchSize.

Record KafkaConsumer : Type := MkConsumer { ccl : B; batch_size : Z }.

(** Auto-commit is disabled: only [CommitRecords] moves the offsets. *)
Definition NewKafkaConsumer (brokers : list string) (topic group : string) (batchSize : Z)
    : option KafkaConsumer :=
  cl ← NewClient [SeedBrokers brokers; ConsumeTopics topic; ConsumerGroup group;
                  DisableAutoCommit; FetchMaxWait (250 * clock.Millisecond)];
  Some (MkConsumer cl (consumer_batch batchSize)).

(** Decoding a batch skips the malformed records. *)
Definition decode (recs : list record) : list Event :=
  omap (λ r, json_Unmarshal_event (Value r)) recs.

(** The pause after a failed attempt. *)
Definition retry_delay (attempt : Z) : Z := Z.min (attempt * 250 * clock.Millisecond) (5 * clock.Second).

Lemma retry_delay_bounds a :
  1 ≤ a → 250 * clock.Millisecond ≤ retry_delay a ≤ 5 * clock.Second.
Proof. unfold retry_delay, clock.Millisecond, clock.Second. lia. Qed.

(** Where [Run] is: at the poll, at an insert attempt, at the commit, returned. *)
Inductive consumer : Type :=
  | Polling
  | Inserting (recs : list record) (events : list Event) (start : clock.time) (attempt : Z)
  | Committing (recs : list record)
  | Returned.

(** Nothing fetched: poll again; else decode and insert. *)
Definition after_poll (now : clock.time) (recs : list record) : consumer :=
  match recs with [] => Polling | _ :: _ => Inserting recs (decode recs) now 1 end.

Context {S M : Type} {ins : worker.BatchInserter S} (batchSize : Z)
  (onFlush : option (worker.FlushInfo → M → M)).

Record system : Type := MkSystem {
  broker : B;
  sink : S;
  hook : M;
  run : consumer;
  ctx_done : bool;
}.

(** [return ctx.Err()], with the deferred [Close] of the client. *)
Definition return_from (b : B) (x : S) (s : system) : system :=
  MkSystem (CloseClient b) x (hook s) Returned (ctx_done s).

(** [PollRecords] and the tests after it. *)
Definition poll_step (now : clock.time) (s : system) : system :=
  let '(f, b') := PollRecords batchSize (broker s) in
  if IsClientClosed f || ctx_done s then return_from b' (sink s) s
  else MkSystem b' (sink s) (hook s) (after_poll now (Records f)) (ctx_done s).

Definition report (fi : worker.FlushInfo) (m : M) : M :=
  match onFlush with Some f => f fi m | None => m end.

(** One attempt; [gave_up] says which arm of the [select] a failure takes. *)
Definition insert_step (now : clock.time) (gave_up : bool) (recs : list record)
    (events : list Event) (start : clock.time) (attempt : Z) (s : system) : system :=
  match worker.insertBatch events (sink s) with
  | (Ok n, s') =>
      MkSystem (broker s) s'
        (report (worker.flush_info events (Ok n) (worker.time_Sub now start)) (hook s))
        (Committing recs) (ctx_done s)
  | (Err _, s') =>
      if gave_up then return_from (broker s) s' s
      else MkSystem (broker s) s' (hook s) (Inserting recs events start (attempt + 1)) (ctx_done s)
  end.

Definition commit_step (recs : list record) (s : system) : system :=
  let '(_, b') := CommitRecords recs (broker s) in
  MkSystem b' (sink s) (hook s) Polling (ctx_done s).

(** The steps of [Run]; an attempt may give up only once the context is done. *)
Inductive rstep : system → system → Prop :=
  | rs_poll s now : run s = Polling → rstep s (poll_step now s)
  | rs_insert s now gave_up recs events start attempt :
      run s = Inserting recs events start attempt → (gave_up = true → ctx_done s = true) →
      rstep s (insert_step now gave_up recs events start attempt s)
  | rs_commit s recs : run s = Committing recs → rstep s (commit_step recs s).

(** A batch that keeps failing is retried forever: without a shutdown or a
    crash [Run] stays at it. *)
Lemma stuck_batch (P : S → Prop) recs events :
  (∀ x, P x → ∃ err x', worker.insertBatch events x = (Err err, x') ∧ P x') →
  ∀ s s', (∃ st a, run s = Inserting recs events st a) → ctx_done s = false → P (sink s) →
  rtc rstep s s' →
  (∃ st a, run s' = Inserting recs events st a) ∧ ctx_done s' = false ∧ P (sink s') ∧
  broker s' = broker s.
Proof.
  intros HP s s' Hrun Hctx Hs Hr. induction Hr as [s|s s1 s2 Hstep _ IH]; [done|].
  destruct Hrun as (st & a & Hrun).
  destruct Hstep as [s now Hr|s now gu recs' evs' st' a' Hr Hgu|s recs' Hr]; rewrite Hrun in Hr; [done| |done].
  injection Hr as <- <- <- <-. destruct (HP _ Hs) as (err & x' & Hib & Hx').
  assert (gu = false) as -> by (destruct gu; [|done]; rewrite Hgu in Hctx by done; done).
  revert IH. unfold insert_step. rewrite Hib. simpl. intros IH. apply IH; eauto.
Qed.

(** A round that meets no failure: poll, insert, report, commit. *)
Lemma round_steps s now now' f b1 n x' b2 :
  run s = Polling → ctx_done s = false → PollRecords batchSize (broker s) = (f, b1) →
  IsClientClosed f = false → Records f ≠ [] →
  worker.insertBatch (decode (Records f)) (sink s) = (Ok n, x') →
  CommitRecords (Records f) b1 = (None, b2) →
  let len := Z.of_nat (length (decode (Records f))) in
  rtc rstep s
    (MkSystem b2 x' (report (worker.MkFlushInfo len n (len - n) (worker.time_Sub now' now) None) (hook s))
       Polling false).
Proof.
  intros Hrun Hctx Hp Hcl Hne Hib Hcm.
  eapply rtc_l; [by apply (rs_poll s now)|].
  assert (poll_step now s = MkSystem b1 (sink s) (hook s)
    (Inserting (Records f) (decode (Records f)) now 1) false) as ->.
  { unfold poll_step. rewrite Hp, Hcl, Hctx. simpl. by destruct (Records f). }
  eapply rtc_l; [by eapply (rs_insert _ now' false)|].
  unfold insert_step. simpl. rewrite Hib. simpl.
  eapply rtc_l; [by eapply rs_commit|]. unfold commit_step. simpl. rewrite Hcm. apply rtc_refl.
Qed.
End kafka.

(** ** Properties of the producer *)

Section producer.
Context {B : Type} {kgo : Kgo B} {codec : Codec} {obx : Outbox B} {laws : OutboxLaws B}.
Implicit Types p : KafkaProducer (B := B).

(** What [Enqueue] hands to the client for an event. *)
Definition message_of (topic : string) (e : Event) : option message :=
  b ← json_Marshal_event e; Some (topic, store.Name e, b).

(** The accepted events, encoded, are where the client says. *)
Definition placed p (acc : list Event) : Prop :=
  ∃ ms, Forall2 (λ e m, message_of (ptopic p) e = Some m) acc ms ∧
    ms ≡ₚ acked (cl p) ++ failed (cl p) ++ buffered (cl p).

Lemma placed_moves p b' acc :
  placed p acc → moves (cl p) b' → placed (MkProducer b' (ptopic p) (maxBuf p)) acc.
Proof.
  intros (ms & Hms & Hp) (Hm & _). exists ms. split; [done|]. simpl. by rewrite Hp, Hm.
Qed.

Lemma moves_trans (b1 b2 b3 : B) : moves b1 b2 → moves b2 b3 → moves b1 b3.
Proof. intros (? & ? & ?) (? & ? & ?). split_and!; by etrans. Qed.

Lemma moves_length (b b' : B) : moves b b' → (length (buffered b') ≤ length (buffered b))%nat.
Proof.
  intros (Hp & Ha & Hf). apply Permutation_length in Hp. apply prefix_length in Ha, Hf.
  rewrite !length_app in Hp. lia.
Qed.

Lemma Enqueue_accepts e p p' :
  Enqueue e p = Some (p', None) →
  ∃ m, message_of (ptopic p) e = Some m ∧
    p' = MkProducer (Produce m (cl p)) (ptopic p) (maxBuf p) ∧
    Z.of_nat (length (buffered (cl p))) < maxBuf p.
Proof.
  unfold Enqueue, message_of. rewrite buffered_count.
  destruct (Z.leb_spec (maxBuf p) (Z.of_nat (length (buffered (cl p))))); [done|].
  destruct (json_Marshal_event e) as [b|]; [|done]. simpl. intros [= <-]. eauto.
Qed.

Lemma Enqueue_refuses e p p' err : Enqueue e p = Some (p', Some err) → p' = p.
Proof. unfold Enqueue. repeat case_match; by intros [= <- _]. Qed.

Definition outbox_inv p (acc : list Event) : Prop :=
  placed p acc ∧ Z.of_nat (length (buffered (cl p))) ≤ maxBuf p.

Lemma plife_inv x y : plife x y → outbox_inv x.1 x.2 → outbox_inv y.1 y.2.
Proof.
  intros Hs [Hpl Hb]. destruct Hs as [e p p' acc He|e p p' err acc He|p b' acc Hm]; simpl in *.
  - destruct (Enqueue_accepts e p p' He) as (m & Hm & -> & Hlt).
    destruct (produce_buffers m (cl p)) as (Hbuf & Ha & Hf). destruct Hpl as (ms & Hms & Hp).
    split; simpl; [|rewrite Hbuf, length_app; simpl; lia].
    exists (ms ++ [m]). split; [by apply Forall2_app; [|constructor]|].
    simpl. by rewrite Hbuf, Ha, Hf, Hp, !app_assoc.
  - apply Enqueue_refuses in He as ->. done.
  - split; [by apply placed_moves|]. simpl. apply moves_length in Hm. lia.
Qed.

Lemma plife_reachable x y : rtc plife x y → outbox_inv x.1 x.2 → outbox_inv y.1 y.2.
Proof. induction 1; eauto using plife_inv. Qed.

Lemma outbox_reachable p p' acc :
  acked (cl p) = [] → failed (cl p) = [] → buffered (cl p) = [] → 0 ≤ maxBuf p →
  rtc plife (p, []) (p', acc) → outbox_inv p' acc.
Proof.
  intros Ha Hf Hb Hmax Hr. apply (plife_reachable _ _ Hr).
  split; simpl; [|rewrite Hb; simpl; lia]. exists []. by rewrite Ha, Hf, Hb.
Qed.

Lemma closed_placed p p' acc :
  acked (cl p) = [] → failed (cl p) = [] → buffered (cl p) = [] → 0 ≤ maxBuf p →
  rtc plife (p, []) (p', acc) →
  placed (Close p').2 acc ∧ buffered (cl (Close p').2) = [].
Proof.
  intros Ha Hf Hb Hmax Hr. destruct (outbox_reachable p p' acc Ha Hf Hb Hmax Hr) as [Hp _].
  unfold Close. destruct (Flush (cl p')) as [err b] eqn:Hfl. simpl. split.
  - apply (placed_moves p'); [done|]. apply moves_trans with b.
    + by apply (flush_moves _ _ _ Hfl).
    + apply close_moves.
  - apply close_moves.
Qed.

(** A Kafka producer accounts for every event it accepted.  Through any
    sequence of [Enqueue]s and of the client's own progress, the accepted
    events are exactly those acknowledged, those whose loss was logged and
    those still buffered, and at most [maxBuf] are buffered: at that level
    [Enqueue] answers [ErrFull] and changes nothing.  [Close] leaves nothing
    buffered, so afterwards every accepted event is at the broker or in the
    log. *)
Lemma producer_accounts p p' acc :
  acked (cl p) = [] → failed (cl p) = [] → buffered (cl p) = [] → 0 ≤ maxBuf p →
  rtc plife (p, []) (p', acc) →
  placed p' acc ∧ Z.of_nat (length (buffered (cl p'))) ≤ maxBuf p' ∧
  (∀ e, maxBuf p' ≤ Z.of_nat (length (buffered (cl p'))) →
     Enqueue e p' = Some (p', Some queue.ErrFull)) ∧
  placed (Close p').2 acc ∧ buffered (cl (Close p').2) = [].
Proof.
  intros Ha Hf Hb Hmax Hr.
  destruct (outbox_reachable p p' acc Ha Hf Hb Hmax Hr) as [Hp Hle].
  split_and!; [done|done| |by eapply closed_placed..].
  intros e He. unfold Enqueue. by rewrite buffered_count, (proj2 (Z.leb_le _ _)).
Qed.
End producer.

(** ** A client that keeps its records in three lists *)

Record out3 : Type := MkOut { o_buffered : list message; o_acked : list message; o_failed : list message }.

#[global] Instance out3_kgo : Kgo out3 := {
  NewClient _ := Some (MkOut [] [] []);
  BufferedProduceRecords b := Z.of_nat (length (o_buffered b));
  Produce m b := MkOut (o_buffered b ++ [m]) (o_acked b) (o_failed b);
  Flush b := (None, MkOut [] (o_acked b ++ o_buffered b) (o_failed b));
  CloseClient b := MkOut [] (o_acked b) (o_failed b ++ o_buffered b);
  PollRecords _ b := (MkFetches true [], b);
  CommitRecords _ b := (Some store.ErrConn, b);
}.

#[global] Instance out3_outbox : Outbox out3 :=
  { buffered := o_buffered; acked := o_acked; failed := o_failed }.

#[global] Instance out3_laws : OutboxLaws out3.
Proof.
  split; simpl; try done.
  - intros b err b' [= <- <-]. split; [|done]. split_and!; simpl; [|by apply prefix_app_r|done].
    rewrite app_nil_r, <- app_assoc. apply Permutation_app_head, Permutation_app_comm.
  - intros b. split; [|done]. split_and!; simpl; [|done|by apply prefix_app_r].
    by rewrite app_nil_r.
Qed.

(** Values are the event ids. *)
Definition id_codec : Codec := {|
  json_Marshal_event e := Some (store.EventID e);
  json_Unmarshal_event v :=
    if decide (v = ""%string) then None else Some (store.MkEvent v "click"%string "u"%string None 0);
|}.
#[local] Existing Instance id_codec.

Definition ev1 : Event := store.MkEvent "1"%string "click"%string "u"%string None 0.

(** A buffer of one: the first event is accepted, the second is refused. *)
Definition p_new : KafkaProducer (B := out3) := MkProducer (MkOut [] [] []) "tally.events"%string 1.
Definition p_full : KafkaProducer (B := out3) :=
  MkProducer (MkOut [("tally.events", "click", "1")] [] [])%string "tally.events"%string 1.

Lemma p_full_reachable : rtc plife (p_new, []) (p_full, [ev1]).
Proof.
  eapply rtc_l; [by apply (pl_accept ev1 p_new p_full)|].
  eapply rtc_l; [by eapply (pl_refuse ev1 p_full p_full)|]. apply rtc_refl.
Qed.

Lemma producer_accounts_example :
  Enqueue ev1 p_full = Some (p_full, Some queue.ErrFull) ∧
  placed (Close p_full).2 [ev1] ∧ buffered (cl (Close p_full).2) = [].
Proof.
  destruct (producer_accounts (obx := out3_outbox) p_new p_full [ev1] eq_refl eq_refl eq_refl
    ltac:(discriminate) p_full_reachable) as (_ & _ & Hfull & Hclose).
  exact (conj (Hfull ev1 ltac:(discriminate)) Hclose).
Defined.
End kafka.
