(* ===== verification/KafkaGroup.v ===== *)
(** * The consumer group

    Any number of processes run [KafkaConsumer.Run] against one topic and one
    store.  Each takes the steps of [Kafka] through its own client; around
    them the broker reassigns partitions, producers append, contexts are
    cancelled, members join, and processes crash at any point, also inside
    [InsertBatch].  [Group] names what the broker keeps, [GroupLaws] what its
    documentation promises; a broker of one partition with fencing shows that
    the laws can hold. *)

From S2P Require Import Prelude Float64 Hll Clock Store Queue Worker Kafka.
From stdpp Require Import prelude list relations strings gmap.
From Stdlib Require Import ZArith Lia.
Open Scope Z_scope.

Module group.
Import store (Event).
Import kafka.

(** ** The broker *)

Class Group (B : Type) : Type := {
  client : nat → Kgo B;                (* the client of member [i] *)
  topic : B → list record;
  uncommitted : B → list record;       (* at or after the group's offsets *)
  seen : nat → B → record → Prop;      (* before the positions of member [i] *)
}.

(** [r] is at or before [r'] in the same partition. *)
Definition upto (r r' : record) : Prop := Partition r = Partition r' ∧ Offset r ≤ Offset r'.

Class GroupLaws (B : Type) `{Group B} : Prop := {
  poll_batch i n b f b' :
    PollRecords (Kgo := client i) n b = (f, b') → 0 ≤ n → Z.of_nat (length (Records f)) ≤ n;
  poll_views i n b f b' :
    PollRecords (Kgo := client i) n b = (f, b') → topic b' = topic b ∧ uncommitted b' = uncommitted b;
  poll_topic i n b f b' r :
    PollRecords (Kgo := client i) n b = (f, b') → r ∈ Records f → r ∈ topic b;
  (** a partition is delivered in offset order, to the member that owns it *)
  poll_seen i n b f b' j r :
    PollRecords (Kgo := client i) n b = (f, b') → seen j b' r → seen j b r ∨ (j = i ∧ r ∈ Records f);
  poll_in_order i n b f b' r r' :
    PollRecords (Kgo := client i) n b = (f, b') → r' ∈ Records f → r ∈ topic b → upto r r' → seen i b' r;
  commit_views i rs b err b' :
    CommitRecords (Kgo := client i) rs b = (err, b') →
    topic b' = topic b ∧ ∀ j r, seen j b' r → seen j b r;
  (** a commit covers its records and all before them in their partitions; with
      an error, or from a member that lost a partition, it may have no effect *)
  commit_covers i rs b err b' r :
    CommitRecords (Kgo := client i) rs b = (err, b') → r ∈ uncommitted b →
    r ∈ uncommitted b' ∨ ∃ r', r' ∈ rs ∧ upto r r';
  close_views i b :
    topic (CloseClient (Kgo := client i) b) = topic b ∧
    uncommitted (CloseClient (Kgo := client i) b) = uncommitted b;
  (** a closed client has no positions *)
  close_seen i b j r : seen j (CloseClient (Kgo := client i) b) r → j ≠ i ∧ seen j b r;
}.

Section group.
Context {B S M : Type} {grp : Group B} {codec : Codec} {ins : worker.BatchInserter S}
  (batchSize : Z) (onFlush : option (worker.FlushInfo → M → M)).

(** ** The processes *)

Record member : Type := MkMember { m_run : consumer; m_ctx : bool; m_hook : M }.

Record system : Type := MkGroup { broker : B; sink : S; members : list member }.

(** What member [m] sees of the system, and the system after it moved. *)
Definition view (g : system) (m : member) : kafka.system :=
  MkSystem (broker g) (sink g) (m_hook m) (m_run m) (m_ctx m).
Definition moved (i : nat) (s : kafka.system) (g : system) : system :=
  MkGroup (kafka.broker s) (kafka.sink s)
    (<[i := MkMember (run s) (ctx_done s) (hook s)]> (members g)).

(** The broker may reassign partitions: a member that gets one starts at the
    committed offset. *)
Definition reassigns (b b' : B) : Prop :=
  topic b' = topic b ∧ uncommitted b' = uncommitted b ∧
  ∀ i r, seen i b' r → seen i b r ∨ (r ∈ topic b ∧ r ∉ uncommitted b).

(** A client that has just joined knows only committed offsets. *)
Definition joins (i : nat) (b b' : B) : Prop :=
  reassigns b b' ∧ ∀ r, seen i b' r → r ∈ topic b ∧ r ∉ uncommitted b.

(** A new process at position [i]. *)
Definition reborn (i : nat) (b' : B) (x : S) (h : M) (g : system) : system :=
  MkGroup b' x (<[i := MkMember Polling false h]> (members g)).

Inductive gstep : system → system → Prop :=
  | gs_run g i m s' :
      members g !! i = Some m →
      rstep (kgo := client i) batchSize onFlush (view g m) s' → gstep g (moved i s' g)
  | gs_cancel g i m :
      members g !! i = Some m →
      gstep g (MkGroup (broker g) (sink g) (<[i := MkMember (m_run m) true (m_hook m)]> (members g)))
  | gs_produced g r b' :
      topic b' = topic (broker g) ++ [r] → uncommitted b' = uncommitted (broker g) ++ [r] →
      (∀ i r0, seen i b' r0 → seen i (broker g) r0) →
      (∀ r0, r0 ∈ topic (broker g) → Partition r0 = Partition r → Offset r0 < Offset r) →
      gstep g (MkGroup b' (sink g) (members g))
  | gs_rebalance g b' :
      reassigns (broker g) b' → gstep g (MkGroup b' (sink g) (members g))
  | gs_join g b' h :
      joins (length (members g)) (broker g) b' →
      gstep g (MkGroup b' (sink g) (members g ++ [MkMember Polling false h]))
  | gs_crash g i m b' h :
      members g !! i = Some m → joins i (broker g) b' →
      gstep g (reborn i b' (sink g) h g)
  | gs_crash_in_insert g i m b' h recs events start attempt :
      members g !! i = Some m → m_run m = Inserting recs events start attempt →
      joins i (broker g) b' →
      gstep g (reborn i b' (worker.insertBatch events (sink g)).2 h g).

(** ** Invariant *)

Context {laws : GroupLaws B} {holds : list Event → S → Prop} {good : Event → Prop}
  {idem : worker.IdempotentInserter S holds good}.

Definition carries (r : record) (e : Event) : Prop := json_Unmarshal_event (Value r) = Some e.

Definition in_log (L : list Event) (r : record) : Prop := ∀ e, carries r e → e ∈ L.

Definition batch_of (c : consumer) : list record :=
  match c with Inserting recs _ _ _ => recs | _ => [] end.

(** Everything up to a record of the batch is in the log, or in the batch. *)
Definition covered (L : list Event) (b : B) (recs batch : list record) : Prop :=
  ∀ r r', r' ∈ recs → r ∈ topic b → upto r r' → in_log L r ∨ r ∈ batch.

Definition run_inv (L : list Event) (b : B) (c : consumer) : Prop :=
  match c with
  | Polling | Returned => True
  | Inserting recs events _ _ =>
      events = decode recs ∧ (∀ r, r ∈ recs → r ∈ topic b) ∧ covered L b recs recs
  | Committing recs => (∀ r, r ∈ recs → r ∈ topic b) ∧ covered L b recs []
  end.

Definition member_inv (L : list Event) (b : B) (i : nat) (m : member) : Prop :=
  (∀ r, seen i b r → in_log L r ∨ r ∈ batch_of (m_run m)) ∧ run_inv L b (m_run m).

Record log_inv (L0 L : list Event) (g : system) : Prop := {
  li_holds : holds (L0 ++ L) (sink g);
  li_sound e : e ∈ L → ∃ r, r ∈ topic (broker g) ∧ carries r e;
  li_committed r : r ∈ topic (broker g) → r ∈ uncommitted (broker g) ∨ in_log L r;
  li_members i m : members g !! i = Some m → member_inv L (broker g) i m;
}.

Definition ginv (L0 : list Event) (g : system) : Prop := ∃ L, log_inv L0 L g.

Definition topic_good (b : B) : Prop := ∀ r e, r ∈ topic b → carries r e → good e.

Lemma elem_of_decode recs e : e ∈ decode recs ↔ ∃ r, r ∈ recs ∧ carries r e.
Proof. unfold decode. by rewrite list_elem_of_omap. Qed.

Lemma in_log_mono L L' r : (∀ e, e ∈ L → e ∈ L') → in_log L r → in_log L' r.
Proof. intros HL H e He. auto. Qed.

Lemma in_log_decode L recs r : r ∈ recs → in_log (L ++ decode recs) r.
Proof. intros Hr e He. apply elem_of_app. right. apply elem_of_decode. eauto. Qed.

Lemma covered_mono L L' b b' recs batch :
  (∀ e, e ∈ L → e ∈ L') → (∀ r, r ∈ topic b' → r ∈ topic b ∨ ∀ r', r' ∈ recs → ¬ upto r r') →
  covered L b recs batch → covered L' b' recs batch.
Proof.
  intros HL Ht Hc r r' Hr' Hr Hu. destruct (Ht r Hr) as [Hin|Hno]; [|by destruct (Hno r' Hr')].
  destruct (Hc r r' Hr' Hin Hu); [left; by eapply in_log_mono|by right].
Qed.

(** A longer log, the same records: a member keeps its invariant if it has
    seen no more than before, or what is committed. *)
Lemma member_mono L L' b b' i m :
  (∀ e, e ∈ L → e ∈ L') → topic b' = topic b →
  (∀ r, seen i b' r → seen i b r ∨ in_log L' r) →
  member_inv L b i m → member_inv L' b' i m.
Proof.
  intros HL Ht Hseen [Hs Hr]. split.
  - intros r Hr'. destruct (Hseen r Hr') as [Hsn|]; [|by left].
    destruct (Hs r Hsn); [left; by eapply in_log_mono|by right].
  - destruct (m_run m) as [|recs evs st a|recs|]; simpl in *; [done| | |done].
    + destruct Hr as (? & Hsub & Hc). split_and!; [done|by rewrite Ht|].
      eapply covered_mono; [done| |done]. rewrite Ht. auto.
    + destruct Hr as (Hsub & Hc). split; [by rewrite Ht|].
      eapply covered_mono; [done| |done]. rewrite Ht. auto.
Qed.

Lemma members_insert L b (ms : list member) i m' :
  (∀ j m, ms !! j = Some m → j ≠ i → member_inv L b j m) → member_inv L b i m' →
  ∀ j m, <[i := m']> ms !! j = Some m → member_inv L b j m.
Proof.
  intros Ho Hi j m [(<- & <- & _)|[Hne Hj]]%list_lookup_insert_Some; [done|]. by apply Ho.
Qed.

(** Leaving the group: the others are as before, the log may have grown. *)
Lemma close_members L L' b (ms : list member) i m' :
  (∀ e, e ∈ L → e ∈ L') → (∀ j m, ms !! j = Some m → j ≠ i → member_inv L b j m) → m_run m' = Returned →
  ∀ j m, <[i := m']> ms !! j = Some m → member_inv L' (CloseClient (Kgo := client i) b) j m.
Proof.
  intros HL Ho Hret. destruct (close_views i b) as [Ht _]. apply members_insert.
  - intros j m Hj Hne. apply (member_mono L L' b); [done|done| |by apply Ho].
    intros r Hs. left. by apply close_seen in Hs as [_ ?].
  - unfold member_inv. rewrite Hret. split; [|done]. by intros r [? _]%close_seen.
Qed.

Lemma poll_inv L0 L g i m now :
  log_inv L0 L g → members g !! i = Some m → m_run m = Polling →
  log_inv L0 L (moved i (poll_step (kgo := client i) batchSize now (view g m)) g).
Proof.
  intros [Hh Hs Hc Hm] Hi Hrun. unfold poll_step. simpl.
  destruct (PollRecords batchSize (broker g)) as [f b'] eqn:Hp.
  destruct (poll_views _ _ _ _ _ Hp) as [Ht Hu].
  assert (∀ j m, members g !! j = Some m → j ≠ i → member_inv L b' j m) as Ho.
  { intros j mj Hj Hne. apply (member_mono L L (broker g)); [done|done| |by apply Hm].
    intros r Hr. left. destruct (poll_seen _ _ _ _ _ _ _ Hp Hr) as [|[? _]]; done. }
  assert (∀ r, seen i b' r → in_log L r ∨ r ∈ Records f) as Hseen.
  { intros r Hr. destruct (poll_seen _ _ _ _ _ _ _ Hp Hr) as [Hr'|[_ ?]]; [|by right].
    destruct (proj1 (Hm i m Hi) r Hr') as [?|Hb]; [by left|].
    rewrite Hrun in Hb. by apply not_elem_of_nil in Hb. }
  destruct (IsClientClosed f || m_ctx m).
  - destruct (close_views i b') as [Ht' Hu'].
    split; simpl; [done|by rewrite Ht', Ht|by rewrite Ht', Hu', Ht, Hu|].
    apply (close_members L L); done.
  - split; simpl; [done|by rewrite Ht|by rewrite Ht, Hu|].
    apply members_insert; [done|]. unfold member_inv. cbn [m_run].
    assert (Records f = [] ∨ after_poll now (Records f) = Inserting (Records f) (decode (Records f)) now 1)
      as [Hnil| ->] by (destruct (Records f); auto).
    { rewrite Hnil in Hseen |- *. done. }
    cbn [batch_of run_inv]. split_and!; [done|done| |].
    + intros r Hr. rewrite Ht. by eapply poll_topic.
    + intros r r' Hr' Hr Hupto. apply Hseen. eapply poll_in_order; eauto. by rewrite <- Ht.
Qed.

Lemma insert_log L0 L g i m recs events st a r s' :
  log_inv L0 L g → topic_good (broker g) → members g !! i = Some m →
  m_run m = Inserting recs events st a → worker.insertBatch events (sink g) = (r, s') →
  ∃ L', holds (L0 ++ L') s' ∧ (∀ e, e ∈ L' → ∃ r, r ∈ topic (broker g) ∧ carries r e) ∧
    (∀ e, e ∈ L → e ∈ L') ∧
    (is_ok r = true → ∀ r, r ∈ recs → in_log L' r).
Proof.
  intros [Hh Hs Hc Hm] Hg Hi Hrun Hib. destruct (Hm i m Hi) as [_ Hr]. rewrite Hrun in Hr.
  destruct Hr as (-> & Hsub & _).
  assert (Forall good (decode recs)) as Hgood.
  { apply Forall_forall. intros e (rr & Hin & He)%elem_of_decode. eauto. }
  assert (∀ e, e ∈ L ++ decode recs → ∃ r, r ∈ topic (broker g) ∧ carries r e) as Hsound.
  { intros e [He|(rr & Hin & He)%elem_of_decode]%elem_of_app; eauto. }
  assert (∀ e, e ∈ L → e ∈ L ++ decode recs) as Hmono by (intros; apply elem_of_app; auto).
  destruct r as [n|err].
  - destruct (worker.insert_ok _ _ _ _ _ Hh Hgood Hib) as [H1 _]. rewrite <- app_assoc in H1.
    exists (L ++ decode recs). eauto 6 using in_log_decode.
  - destruct (worker.insert_err _ _ _ _ _ Hh Hgood Hib) as [H1|H1]; [by exists L|].
    rewrite <- app_assoc in H1. exists (L ++ decode recs). eauto 6 using in_log_decode.
Qed.

Lemma insert_inv L0 L g i m now gu recs events st a :
  log_inv L0 L g → topic_good (broker g) → members g !! i = Some m →
  m_run m = Inserting recs events st a →
  ginv L0 (moved i (insert_step (kgo := client i) onFlush now gu recs events st a (view g m)) g).
Proof.
  intros HL Hg Hi Hrun. unfold insert_step. simpl.
  destruct (worker.insertBatch events (sink g)) as [r s'] eqn:Hib.
  destruct (insert_log L0 L g i m recs events st a r s' HL Hg Hi Hrun Hib)
    as (L' & Hh & Hs & Hmono & Hok).
  destruct HL as [_ _ Hc Hm]. destruct (Hm i m Hi) as [Hsn Hr]. rewrite Hrun in Hsn, Hr.
  destruct Hr as (He & Hsub & Hcov).
  assert (∀ r, r ∈ topic (broker g) → r ∈ uncommitted (broker g) ∨ in_log L' r) as Hc'.
  { intros r0 Hin. destruct (Hc r0 Hin); [by left|right; by eapply in_log_mono]. }
  assert (∀ j m, members g !! j = Some m → member_inv L' (broker g) j m) as Hm'.
  { intros j mj Hj. apply (member_mono L L' (broker g)); auto. }
  exists L'. destruct r as [n|err]; [|destruct gu].
  - split; simpl; [done|done|done|]. apply members_insert; [by auto|]. split; simpl.
    + intros r0 Hr0. left. destruct (Hsn r0 Hr0); [by eapply in_log_mono|by apply Hok].
    + split; [done|]. intros r0 r' Hr' Hr0 Hupto. left.
      destruct (Hcov r0 r' Hr' Hr0 Hupto); [by eapply in_log_mono|by apply Hok].
  - destruct (close_views i (broker g)) as [Ht Hu].
    split; simpl; [done|by rewrite Ht|by rewrite Ht, Hu|].
    apply (close_members L' L'); auto.
  - split; simpl; [done|done|done|]. apply members_insert; [by auto|].
    destruct (Hm' i m Hi) as [Hsn' Hr']. rewrite Hrun in Hsn', Hr'. by split.
Qed.

Lemma commit_inv L0 L g i m recs :
  log_inv L0 L g → members g !! i = Some m → m_run m = Committing recs →
  log_inv L0 L (moved i (commit_step (kgo := client i) recs (view g m)) g).
Proof.
  intros [Hh Hs Hc Hm] Hi Hrun. unfold commit_step. simpl.
  destruct (CommitRecords recs (broker g)) as [err b'] eqn:Hcm.
  destruct (commit_views _ _ _ _ _ Hcm) as [Ht Hsn].
  assert (∀ j m, members g !! j = Some m → member_inv L b' j m) as Hm'.
  { intros j mj Hj. apply (member_mono L L (broker g)); auto. }
  destruct (Hm i m Hi) as [_ Hr]. rewrite Hrun in Hr. destruct Hr as (Hsub & Hcov).
  split; simpl; [done|by rewrite Ht| |].
  - intros r Hin. rewrite Ht in Hin. destruct (Hc r Hin) as [Hu|]; [|by right].
    destruct (commit_covers _ _ _ _ _ r Hcm Hu) as [?|(r' & Hr' & Hupto)]; [by left|right].
    destruct (Hcov r r' Hr' Hin Hupto) as [|?%not_elem_of_nil]; done.
  - apply members_insert; [by auto|]. destruct (Hm' i m Hi) as [Hsn' _].
    rewrite Hrun in Hsn'. by split.
Qed.

Lemma committed_in_log L0 L g r :
  log_inv L0 L g → r ∈ topic (broker g) → r ∉ uncommitted (broker g) → in_log L r.
Proof. intros HL Hin Hn. by destruct (li_committed _ _ _ HL r Hin). Qed.

(** The members after a rebalance, with a log that may have grown. *)
Lemma reassigned_members L0 L L' g b' j m :
  log_inv L0 L g → (∀ e, e ∈ L → e ∈ L') → reassigns (broker g) b' →
  members g !! j = Some m → member_inv L' b' j m.
Proof.
  intros HL Hmono (Ht & Hu & Hs) Hj.
  apply (member_mono L L' (broker g)); [done|done| |by eapply li_members].
  intros r Hr. destruct (Hs j r Hr) as [|[Hin Hn]]; [by left|right].
  eapply in_log_mono; [done|]. by eapply committed_in_log.
Qed.

Lemma joined_member L0 L L' g b' i h :
  log_inv L0 L g → (∀ e, e ∈ L → e ∈ L') → joins i (broker g) b' →
  member_inv L' b' i (MkMember Polling false h).
Proof.
  intros HL Hmono [_ Hj]. split; [|done]. intros r Hr. destruct (Hj r Hr) as [Hin Hn].
  left. eapply in_log_mono; [done|]. by eapply committed_in_log.
Qed.

Lemma reborn_inv L0 L L' g b' i x h :
  log_inv L0 L g → (∀ e, e ∈ L → e ∈ L') → holds (L0 ++ L') x →
  (∀ e, e ∈ L' → ∃ r, r ∈ topic (broker g) ∧ carries r e) → joins i (broker g) b' →
  log_inv L0 L' (reborn i b' x h g).
Proof.
  intros HL Hmono Hh Hs Hj. pose proof Hj as [Hre _]. pose proof Hre as (Ht & Hu & _).
  split; simpl; [done|by rewrite Ht| |].
  - rewrite Ht, Hu. intros r Hin. destruct (li_committed _ _ _ HL r Hin); [by left|right].
    by eapply in_log_mono.
  - apply members_insert; [|by eapply joined_member].
    intros j m Hm _. by eapply reassigned_members.
Qed.

Lemma produced_inv L0 L g r b' :
  log_inv L0 L g → topic b' = topic (broker g) ++ [r] →
  uncommitted b' = uncommitted (broker g) ++ [r] →
  (∀ i r0, seen i b' r0 → seen i (broker g) r0) →
  (∀ r0, r0 ∈ topic (broker g) → Partition r0 = Partition r → Offset r0 < Offset r) →
  log_inv L0 L (MkGroup b' (sink g) (members g)).
Proof.
  intros [Hh Hs Hc Hm] Ht Hu Hsn Hlast.
  assert (∀ recs : list record, (∀ r0, r0 ∈ recs → r0 ∈ topic (broker g)) →
    ∀ r0, r0 ∈ topic b' → r0 ∈ topic (broker g) ∨ ∀ r', r' ∈ recs → ¬ upto r0 r') as Hnew.
  { intros recs Hsub r0. rewrite Ht, elem_of_app, list_elem_of_singleton.
    intros [?| ->]; [by left|right]. intros r' Hr' [Hpart Hoff].
    specialize (Hlast r' (Hsub r' Hr') (eq_sym Hpart)). lia. }
  assert (∀ r0, r0 ∈ topic (broker g) → r0 ∈ topic b') as Hold.
  { intros r0 Hr0. rewrite Ht. apply elem_of_app. by left. }
  split; simpl; [done| | |].
  - intros e He. destruct (Hs e He) as (r0 & ? & ?). eauto.
  - intros r0. rewrite Ht, Hu, !elem_of_app. intros [Hin|?]; [|by left; right].
    destruct (Hc r0 Hin); auto.
  - intros i m Hi. destruct (Hm i m Hi) as [Hseen Hr]. split; [by auto|].
    destruct (m_run m) as [|recs evs st a|recs|]; simpl in *; [done| | |done].
    + destruct Hr as (? & Hsub & Hcov). split_and!; [done|by auto|].
      by apply (covered_mono L L (broker g)); [|apply Hnew|].
    + destruct Hr as (Hsub & Hcov). split; [by auto|].
      by apply (covered_mono L L (broker g)); [|apply Hnew|].
Qed.

Lemma gstep_inv L0 g g' : ginv L0 g → topic_good (broker g) → gstep g g' → ginv L0 g'.
Proof.
  intros [L HL] Hg Hs.
  destruct Hs as [g i m s' Hi Hs|g i m Hi|g r b' Ht Hu Hsn Hlast|g b' Hre|g b' h Hj
                 |g i m b' h Hi Hj|g i m b' h recs evs st a Hi Hrun Hj].
  - inversion Hs as [s now Hrun|s now gu recs evs st a Hrun _|s recs Hrun]; subst; simpl in *.
    + exists L. by apply poll_inv.
    + by eapply insert_inv.
    + exists L. by apply commit_inv.
  - exists L. destruct HL as [? ? ? Hm]. split; simpl; [done..|].
    apply members_insert; [by auto|]. apply (Hm i m Hi).
  - exists L. by eapply produced_inv.
  - exists L. pose proof Hre as (Ht & Hu & _). pose proof HL as [? ? ? Hm].
    split; simpl; [done|by rewrite Ht|by rewrite Ht, Hu|].
    intros j m Hj. by eapply reassigned_members.
  - exists L. pose proof Hj as [Hre _]. pose proof Hre as (Ht & Hu & _). pose proof HL as [? ? ? Hm].
    split; simpl; [done|by rewrite Ht|by rewrite Ht, Hu|].
    intros j m [Hjm|[Hle Hjm]]%lookup_app_Some; [by eapply reassigned_members|].
    apply list_lookup_singleton_Some in Hjm as [Hj0 <-].
    replace j with (length (members g)) by lia. by eapply joined_member.
  - exists L. eapply reborn_inv; [done|done|apply HL|apply HL|done].
  - destruct (worker.insertBatch evs (sink g)) as [r s'] eqn:Hib.
    destruct (insert_log L0 L g i m recs evs st a r s' HL Hg Hi Hrun Hib)
      as (L' & Hh & Hsd & Hmono & _).
    exists L'. by eapply reborn_inv.
Qed.

(** The topic only grows. *)
Lemma gstep_topic g g' : gstep g g' → topic (broker g) `prefix_of` topic (broker g').
Proof.
  intros Hs.
  destruct Hs as [g i m s' Hi Hs|g i m Hi|g r b' Ht _ _ _|g b' (Ht & _)|g b' h [(Ht & _) _]
                 |g i m b' h Hi [(Ht & _) _]|g i m b' h recs evs st a Hi Hrun [(Ht & _) _]];
    simpl; try by rewrite Ht.
  - inversion Hs as [s now Hrun|s now gu recs evs st a Hrun _|s recs Hrun]; subst; simpl in *.
    + unfold poll_step. simpl. destruct (PollRecords _ _) as [f b'] eqn:Hp.
      destruct (poll_views _ _ _ _ _ Hp) as [<- _].
      destruct (IsClientClosed f || m_ctx m); simpl; [|done]. by rewrite (proj1 (close_views i b')).
    + unfold insert_step. simpl. destruct (worker.insertBatch _ _) as [[] ?]; [done|].
      destruct gu; simpl; [|done]. by rewrite (proj1 (close_views i (broker g))).
    + unfold commit_step. simpl. destruct (CommitRecords _ _) as [err b'] eqn:Hcm. simpl.
      by destruct (commit_views _ _ _ _ _ Hcm) as [-> _].
  - done.
  - rewrite Ht. by apply prefix_app_r.
Qed.

Lemma ginv_reachable L0 g g' :
  ginv L0 g → rtc gstep g g' → topic_good (broker g') → ginv L0 g'.
Proof.
  intros HL Hr Hg.
  assert (∀ g1, rtc gstep g1 g' → topic_good (broker g1)) as Hmono.
  { intros g1 H1. induction H1 as [|g1 g2 g3 Hs _ IH]; [done|].
    intros r e Hin. apply (IH Hr Hg). by apply (elem_of_prefix _ _ _ Hin), gstep_topic. }
  clear Hg. induction Hr as [|g1 g2 g3 Hs Hr IH]; [done|].
  apply IH; [|done]. eapply gstep_inv; [done| |done]. apply Hmono. by eapply rtc_l.
Qed.

(** A new deployment: nothing produced yet, every member at its first poll. *)
Definition fresh (L0 : list Event) (g : system) : Prop :=
  topic (broker g) = [] ∧ (∀ i r, ¬ seen i (broker g) r) ∧
  (∀ m, m ∈ members g → m_run m = Polling) ∧ holds L0 (sink g).

Lemma fresh_inv L0 g : fresh L0 g → ginv L0 g.
Proof.
  intros (Ht & Hs & Hm & Hh). exists []. split; rewrite ?Ht, ?app_nil_r; [done| | |].
  - by intros e ?%not_elem_of_nil.
  - by intros r ?%not_elem_of_nil.
  - intros i m Hi. split; [by intros r ?%Hs|].
    by rewrite (Hm m) by (by eapply list_elem_of_lookup_2).
Qed.

Lemma caught_up L0 g g' :
  fresh L0 g → rtc gstep g g' → topic_good (broker g') → uncommitted (broker g') = [] →
  holds (L0 ++ decode (topic (broker g'))) (sink g').
Proof.
  intros Hf Hr Hg Hu. destruct (ginv_reachable L0 g g' (fresh_inv L0 g Hf) Hr Hg) as (L & [Hh Hs Hc ?]).
  eapply worker.holds_same; [|exact Hh]. intros e. rewrite !elem_of_app, elem_of_decode. split.
  - intros [?|He]; [by left|right]. by apply Hs.
  - intros [?|(r & Hin & He)]; [by left|right]. destruct (Hc r Hin) as [Hin'|Hl]; [|by apply Hl].
    rewrite Hu in Hin'. by apply not_elem_of_nil in Hin'.
Qed.

(** C12: nothing is committed before it is stored.  Any number of consumers of
    one group, over every interleaving of polls, failing and ambiguous inserts,
    failing or fenced-off commits, rebalances, joining members, shutdowns and
    crashes (also inside an insert): an event whose record is below the group's
    committed offsets is in the sink, and the sink has gained only events of
    the topic. *)
Theorem committed_is_stored L0 g g' :
  fresh L0 g → rtc gstep g g' → topic_good (broker g') →
  ∃ L, holds (L0 ++ L) (sink g') ∧
    (∀ e, e ∈ L → ∃ r, r ∈ topic (broker g') ∧ carries r e) ∧
    (∀ r e, r ∈ topic (broker g') → r ∉ uncommitted (broker g') → carries r e → e ∈ L).
Proof.
  intros Hf Hr Hg. destruct (ginv_reachable L0 g g' (fresh_inv L0 g Hf) Hr Hg) as (L & HL).
  pose proof HL as [? ? _ _].
  exists L. split; [done|]. split; [done|]. intros r e Hin Hn He. by eapply committed_in_log.
Qed.
End group.

(** ** A broker of one partition *)

(** The log, the committed offset, the member that owns the partition and its
    position. *)
Record mini : Type := MkMini {
  log : list (string * string);
  com : nat;
  owner : option nat;
  pos : nat;
}.

Definition mini_topic (b : mini) : list record :=
  imap (λ i kv, MkRecord 0 (Z.of_nat i) kv.1 kv.2) (log b).

(** The offset after the last of the records. *)
Definition after (rs : list record) : nat :=
  foldr (λ r n, if Partition r =? 0 then Nat.max (Z.to_nat (Offset r + 1)) n else n) 0%nat rs.

Definition owns (i : nat) (b : mini) : bool := bool_decide (owner b = Some i).

(** Only the owner is given records, and only its commits are accepted. *)
Definition mini_client (i : nat) : Kgo mini := {|
  NewClient _ := Some (MkMini [] 0 None 0);
  BufferedProduceRecords _ := 0;
  Produce m b := MkMini (log b ++ [(m.1.2, m.2)]) (com b) (owner b) (pos b);
  Flush b := (None, b);
  CloseClient b := if owns i b then MkMini (log b) (com b) None 0 else b;
  PollRecords n b :=
    if owns i b then
      let recs := take (Z.to_nat n) (drop (pos b) (mini_topic b)) in
      (MkFetches false recs, MkMini (log b) (com b) (owner b) (pos b + length recs))
    else (MkFetches false [], b);
  CommitRecords rs b :=
    if owns i b then (None, MkMini (log b) (Nat.max (com b) (after rs)) (owner b) (pos b))
    else (Some store.ErrConn, b);
|}.

#[global] Instance mini_group : Group mini := {
  client := mini_client;
  topic := mini_topic;
  uncommitted b := drop (com b) (mini_topic b);
  seen i b r := owner b = Some i ∧ r ∈ mini_topic b ∧ Offset r < Z.of_nat (pos b);
}.

Lemma mini_lookup b i r :
  mini_topic b !! i = Some r → Partition r = 0 ∧ Offset r = Z.of_nat i.
Proof.
  unfold mini_topic. rewrite list_lookup_imap. destruct (log b !! i); [|done]. by intros [= <-].
Qed.

Lemma mini_offset b r : r ∈ mini_topic b → Partition r = 0 ∧ 0 ≤ Offset r.
Proof. intros [i Hi]%list_elem_of_lookup. apply mini_lookup in Hi. lia. Qed.

Lemma elem_of_drop_topic b k r :
  r ∈ drop k (mini_topic b) ↔ r ∈ mini_topic b ∧ Z.of_nat k ≤ Offset r.
Proof.
  rewrite !list_elem_of_lookup. setoid_rewrite lookup_drop. split.
  - intros [i Hi]. apply mini_lookup in Hi as Ho. split; [eauto|lia].
  - intros [[i Hi] Hk]. apply mini_lookup in Hi as Ho. exists (i - k)%nat.
    by replace (k + (i - k))%nat with i by lia.
Qed.

Lemma after_spec rs (o : Z) :
  0 ≤ o → o < Z.of_nat (after rs) ↔ ∃ r, r ∈ rs ∧ Partition r = 0 ∧ o ≤ Offset r.
Proof.
  intros Ho. induction rs as [|r rs IH]; simpl.
  - split; [lia|]. by intros (r & ?%not_elem_of_nil & _).
  - setoid_rewrite elem_of_cons. destruct (Z.eqb_spec (Partition r) 0) as [Hp|Hp].
    + rewrite Nat2Z.inj_max, Z.max_lt_iff, IH. split.
      * intros [?|(r' & ? & ?)]; [exists r|exists r']; [|by eauto]. split; [by left|]. split; [done|lia].
      * intros (r' & [->|?] & ? & ?); [left; lia|right; eauto].
    + rewrite IH. split; intros (r' & Hin & ? & ?); exists r'; [by eauto|].
      destruct Hin as [->|]; [done|by eauto].
Qed.

(** What a poll of the owner returns: the records between two positions. *)
Lemma mini_polled b n r :
  r ∈ mini_topic b →
  let recs := take (Z.to_nat n) (drop (pos b) (mini_topic b)) in
  Z.of_nat (pos b) ≤ Offset r → Offset r < Z.of_nat (pos b + length recs) ↔ r ∈ recs.
Proof.
  intros [k Hk]%list_elem_of_lookup recs Hle. apply mini_lookup in Hk as Ho.
  assert (length recs = Z.to_nat n `min` (length (mini_topic b) - pos b))%nat as Hlen
    by (unfold recs; by rewrite length_take, length_drop).
  split.
  - intros Hlt. apply elem_of_take. exists (k - pos b)%nat. rewrite lookup_drop.
    replace (pos b + (k - pos b))%nat with k by lia. split; [done|lia].
  - intros (j & Hj & Hlt)%elem_of_take. rewrite lookup_drop in Hj.
    apply mini_lookup in Hj as Ho'. apply lookup_lt_Some in Hj. lia.
Qed.

#[global] Instance mini_laws : GroupLaws mini.
Proof.
  split; simpl.
  - intros i n b f b'. unfold owns. case_bool_decide; intros [= <- <-] Hn; simpl; [|lia].
    rewrite length_take. lia.
  - intros i n b f b'. unfold owns. by case_bool_decide; intros [= <- <-].
  - intros i n b f b' r. unfold owns. case_bool_decide; intros [= <- <-]; simpl.
    + intros (k & Hk & _)%elem_of_take. apply list_elem_of_lookup_2 in Hk.
      by apply elem_of_drop_topic in Hk as [? _].
    + by intros ?%not_elem_of_nil.
  - intros i n b f b' j r. unfold owns. case_bool_decide; intros [= <- <-]; simpl; [|by left].
    intros (Ho & Hin & Hlt). change (mini_topic (MkMini _ _ _ _)) with (mini_topic b) in Hin.
    destruct (decide (Offset r < Z.of_nat (pos b))); [by left|right].
    split; [congruence|]. apply (mini_polled b n r Hin); lia.
  - intros i n b f b' r r'. unfold owns. case_bool_decide; intros [= <- <-]; simpl;
      [|by intros ?%not_elem_of_nil].
    intros Hr' Hin [_ Hoff]. split_and!; [done|done|].
    assert (r' ∈ mini_topic b ∧ Z.of_nat (pos b) ≤ Offset r') as [Hin' Hle].
    { apply elem_of_take in Hr' as (k & Hk & _). apply list_elem_of_lookup_2 in Hk.
      by apply elem_of_drop_topic in Hk. }
    apply (mini_polled b n r' Hin' Hle) in Hr'. lia.
  - intros i rs b err b'. unfold owns. by case_bool_decide; intros [= <- <-].
  - intros i rs b err b' r. unfold owns. case_bool_decide; intros [= <- <-]; [|by left].
    simpl. change (mini_topic (MkMini _ _ _ _)) with (mini_topic b).
    rewrite !elem_of_drop_topic. intros [Hin Hk]. destruct (mini_offset b r Hin) as [Hp Ho].
    destruct (decide (Offset r < Z.of_nat (after rs))) as [Hlt|]; [right|left; split; [done|lia]].
    apply after_spec in Hlt as (r' & ? & ? & ?); [|done]. exists r'. split; [done|].
    split; [congruence|done].
  - intros i b. unfold owns. by case_bool_decide.
  - intros i b j r. unfold owns. case_bool_decide as Ho; simpl; [by intros [? _]|].
    intros (Hj & ?). split; [|done]. congruence.
Qed.

(** ** Two members *)

Definition hooks : option (worker.FlushInfo → list worker.FlushInfo → list worker.FlushInfo) :=
  Some cons.

(** One record in the log; [c] committed, owned by [o] at position [p]. *)
Definition rec_of (kv : string * string) : record := MkRecord 0 0 kv.1 kv.2.
Definition one (kv : string * string) (c : nat) (o : option nat) (p : nat) : mini := MkMini [kv] c o p.

Lemma unseen kv i c o r : ¬ seen i (one kv c o 0) r.
Proof. intros (_ & Hin & Ho). apply mini_offset in Hin. simpl in Ho. lia. Qed.

Section two_members.
Context {S M : Type} {ins : worker.BatchInserter S} {codec : Codec} (onFlush : option (worker.FlushInfo → M → M))
  (kv : string * string).
#[local] Arguments decode : simpl never.
Abbreviation sys := (system (B := mini) (S := S) (M := M)).

Definition polling (h : M) : member := MkMember Polling false h.
Definition inserting (a : Z) (h : M) : member := MkMember (Inserting [rec_of kv] (decode [rec_of kv]) 0 a) false h.

Definition empty_group (x : S) (h : M) : sys :=
  MkGroup (MkMini [] 0 (Some 0%nat) 0) x [polling h; polling h].

(** The hook after the batch of that record. *)
Definition told (n : Z) (h : M) : M := report onFlush (worker.flush_info (decode [rec_of kv]) (Ok n) 0) h.

(** Member 0 polls the record and its insert fails, perhaps after it was
    applied; the partition moves to member 1, which gets the record again,
    inserts and commits it; then the retry of member 0 succeeds, and its commit
    is refused. *)
Lemma takeover_run x x1 x2 x3 err n2 n3 h :
  worker.insertBatch (decode [rec_of kv]) x = (Err err, x1) →
  worker.insertBatch (decode [rec_of kv]) x1 = (Ok n2, x2) →
  worker.insertBatch (decode [rec_of kv]) x2 = (Ok n3, x3) →
  rtc (gstep 10 onFlush) (empty_group x h)
    (MkGroup (one kv 1 (Some 1%nat) 1) x3 [polling (told n3 h); polling (told n2 h)]).
Proof.
  intros H1 H2 H3.
  eapply rtc_l.
  { apply (gs_produced _ _ (empty_group x h) (rec_of kv) (one kv 0 (Some 0%nat) 0)); [done|done| |].
    - by intros i r ?%unseen.
    - by intros r0 ?%not_elem_of_nil. }
  eapply rtc_l; [eapply (gs_run _ _ _ 0%nat (polling h)); [reflexivity|by apply (rs_poll _ _ _ 0)]|].
  eapply rtc_l; [eapply (gs_run _ _ _ 0%nat (inserting 1 h)); [reflexivity|];
    by apply (rs_insert _ _ _ 0 false [rec_of kv] (decode [rec_of kv]) 0 1)|].
  unfold insert_step, moved, view. simpl. rewrite H1. simpl.
  eapply rtc_l; [apply (gs_rebalance _ _ _ (one kv 0 (Some 1%nat) 0)); split_and!; [done|done|];
    by intros i r ?%unseen|]. simpl.
  eapply rtc_l; [eapply (gs_run _ _ _ 1%nat (polling h)); [reflexivity|by apply (rs_poll _ _ _ 0)]|].
  eapply rtc_l; [eapply (gs_run _ _ _ 1%nat (inserting 1 h)); [reflexivity|];
    by apply (rs_insert _ _ _ 0 false [rec_of kv] (decode [rec_of kv]) 0 1)|].
  unfold insert_step, moved, view. simpl. rewrite H2. simpl.
  eapply rtc_l; [eapply (gs_run _ _ _ 1%nat (MkMember (Committing [rec_of kv]) false _)); [reflexivity|];
    by apply rs_commit|]. simpl.
  eapply rtc_l; [eapply (gs_run _ _ _ 0%nat (inserting 2 h)); [reflexivity|];
    by apply (rs_insert _ _ _ 0 false [rec_of kv] (decode [rec_of kv]) 0 2)|].
  unfold insert_step, moved, view. simpl. rewrite H3. simpl.
  eapply rtc_l; [eapply (gs_run _ _ _ 0%nat (MkMember (Committing [rec_of kv]) false _)); [reflexivity|];
    by apply rs_commit|]. simpl. apply rtc_refl.
Qed.
End two_members.

Abbreviation log_sys := (system (B := mini) (S := worker.log_sink) (M := list worker.FlushInfo)).

#[local] Existing Instance id_codec.

Definition kv1 : string * string := ("click", "1")%string.

Definition g0 : log_sys := empty_group (worker.MkLog [] [store.FaultAfter]) [].
Definition g1 : log_sys :=
  MkGroup (one kv1 1 (Some 1%nat) 1) (worker.MkLog [ev1; ev1; ev1] [])
    [polling (told hooks kv1 1 []); polling (told hooks kv1 1 [])].

Lemma g1_reachable : rtc (gstep 10 hooks) g0 g1.
Proof. by eapply takeover_run. Qed.

Lemma empty_group_fresh {S M} (holds : list Event → S → Prop) L0 x (h : M) :
  holds L0 x → fresh (holds := holds) L0 (empty_group x h).
Proof.
  intros Hx. split_and!; [done| | |done].
  - by intros i r (_ & ?%not_elem_of_nil & _).
  - intros m. simpl. rewrite !elem_of_cons, elem_of_nil. by intros [->|[->|[]]].
Qed.

Lemma committed_is_stored_witness :
  ∃ L, worker.log_holds ([] ++ L) (sink g1) ∧
    (∀ e, e ∈ L → ∃ r, r ∈ topic (broker g1) ∧ carries r e) ∧
    (∀ r e, r ∈ topic (broker g1) → r ∉ uncommitted (broker g1) → carries r e → e ∈ L).
Proof.
  apply (committed_is_stored (holds := worker.log_holds) (good := λ _, True) 10 hooks [] g0 g1);
    [by apply empty_group_fresh|exact g1_reachable|intros r e _ _; exact I].
Defined.
End group.
