(* ===== verification/Ratelimit.v ===== *)
(** * [internal/ratelimit]: who is calling, and may they

    [net.SplitHostPort] is written out, because [ClientKey] depends on what it
    does with ports and IPv6 brackets.  The token bucket of
    [golang.org/x/time/rate] is a parameter; [Memory.Allow] is two steps, under the
    lock and after it, which callers and janitor interleave; the Lua script of the
    Redis limiter is part of the repository and is translated. *)

From S2P Require Import Prelude Float64 Hll Clock Store.
From stdpp Require Import prelude gmap strings list sorting.
From Stdlib Require Import ZArith Lia Ascii Sorted.
Open Scope Z_scope.

(** ** [net] *)

Module net.
Section index.
Context (c : ascii).

(** [bytealg.IndexByteString] *)
Fixpoint index (l : list ascii) : option nat :=
  match l with
  | [] => None
  | x :: l => if decide (x = c) then Some 0%nat else S <$> index l
  end.

Fixpoint last_index (l : list ascii) : option nat :=
  match l with
  | [] => None
  | x :: l => match last_index l with
              | Some i => Some (S i)
              | None => if decide (x = c) then Some 0%nat else None
              end
  end.

Lemma index_None l : c ∉ l → index l = None.
Proof.
  induction l as [|x l IH]; simpl; [done|]. rewrite not_elem_of_cons. intros [Hx Hl].
  rewrite decide_False by done. by rewrite IH.
Qed.

Lemma index_app l r : c ∉ l → index (l ++ c :: r) = Some (length l).
Proof.
  induction l as [|x l IH]; simpl; [by rewrite decide_True|].
  rewrite not_elem_of_cons. intros [Hx Hl]. rewrite decide_False by done. by rewrite IH.
Qed.

Lemma last_index_None l : c ∉ l → last_index l = None.
Proof.
  induction l as [|x l IH]; simpl; [done|]. rewrite not_elem_of_cons. intros [Hx Hl].
  by rewrite IH, decide_False by done.
Qed.

Lemma last_index_app l r : c ∉ r → last_index (l ++ c :: r) = Some (length l).
Proof.
  intros Hr. induction l as [|x l IH]; simpl; [by rewrite last_index_None, decide_True|].
  by rewrite IH.
Qed.
End index.

(** [bytealg.IndexByteString(l, c) >= 0] *)
Definition contains (c : ascii) (l : list ascii) : bool :=
  match index c l with Some _ => true | None => false end.

Lemma contains_false c l : c ∉ l → contains c l = false.
Proof. intros Hc. unfold contains. by rewrite index_None. Qed.

Lemma contains_true c l : contains c l = false → c ∉ l.
Proof.
  unfold contains. induction l as [|x l IH]; simpl; [intros _; apply not_elem_of_nil|].
  case_decide; [done|]. intros Hl. apply not_elem_of_cons. split; [done|].
  apply IH. by destruct (index c l).
Qed.

Definition colon : ascii := ":"%char.
Definition open : ascii := "["%char.
Definition close : ascii := "]"%char.

(** [net.SplitHostPort]; [None] is any of its errors. *)
Definition split_host_port (hp : list ascii) : option (list ascii * list ascii) :=
  match last_index colon hp with
  | None => None
  | Some i =>
      match (match hp with
             | x :: _ =>
                 if decide (x = open) then
                   match index close hp with
                   | None => None
                   | Some e =>
                       if decide (e + 1 = length hp)%nat then None
                       else if decide (e + 1 = i)%nat
                            then Some (take (e - 1) (drop 1 hp), 1%nat, (e + 1)%nat)
                            else None
                   end
                 else if contains colon (take i hp) then None
                      else Some (take i hp, 0%nat, 0%nat)
             | [] => None
             end) with
      | None => None
      | Some (host, j, k) =>
          if contains open (drop j hp) then None
          else if contains close (drop k hp) then None
          else Some (host, drop (S i) hp)
      end
  end.

Definition SplitHostPort (hostport : string) : option (string * string) :=
  match split_host_port (String.list_ascii_of_string hostport) with
  | Some (h, p) => Some (String.string_of_list_ascii h, String.string_of_list_ascii p)
  | None => None
  end.

(** Addresses as the listener reports them: [host:port], or with the host
    in brackets when it is an IPv6 address. *)
Definition join_host_port (h p : list ascii) : list ascii :=
  if contains colon h then open :: (h ++ close :: colon :: p) else h ++ (colon :: p).

Definition plain (l : list ascii) : Prop := (open ∉ l) ∧ (close ∉ l).

Lemma split_join h p :
  plain h → plain p → colon ∉ p → split_host_port (join_host_port h p) = Some (h, p).
Proof.
  intros [Ho Hc] [Po Pc] Pcol. unfold join_host_port. destruct (contains colon h) eqn:Hi.
  - unfold split_host_port.
    replace (open :: h ++ close :: colon :: p) with ((open :: h ++ [close]) ++ colon :: p)
      by (simpl; by rewrite <- app_assoc).
    rewrite last_index_app by done. cbn [app]. rewrite decide_True by done.
    replace ((h ++ [close]) ++ colon :: p) with (h ++ close :: colon :: p) by (by rewrite <- app_assoc).
    change (open :: h ++ close :: colon :: p) with ((open :: h) ++ close :: colon :: p).
    rewrite index_app by (apply not_elem_of_cons; done).
    rewrite decide_False by (rewrite length_app; simpl; lia).
    rewrite decide_True by (simpl; rewrite length_app; simpl; lia).
    cbn [app drop length]. replace (S (length h) - 1)%nat with (length h) by lia.
    rewrite drop_0, take_app_length.
    rewrite contains_false by (rewrite not_elem_of_app, !not_elem_of_cons; done).
    replace (drop (S (length h) + 1) (open :: h ++ close :: colon :: p)) with (colon :: p).
    2: { cbn [Nat.add drop]. by rewrite (drop_app_add h (close :: colon :: p) 1). }
    rewrite contains_false by (rewrite not_elem_of_cons; done).
    f_equal. f_equal. rewrite length_app. cbn [length].
    replace (S (length h + 1)) with (length h + 2)%nat by lia.
    by rewrite (drop_app_add h (close :: colon :: p) 2).
  - assert (colon ∉ h) as Hcol.
    { by apply contains_true. }
    unfold split_host_port. rewrite last_index_app by done.
    assert (∃ x l, h ++ colon :: p = x :: l ∧ x ≠ open) as (x & l & Heq & Hx).
    { destruct h as [|x h]; eexists _, _; (split; [done|]); [done|].
      apply not_elem_of_cons in Ho as [Ho _]. done. }
    rewrite Heq at 1. rewrite decide_False by done.
    rewrite take_app_length, Hi, drop_0.
    rewrite !contains_false by (rewrite not_elem_of_app, not_elem_of_cons; done).
    f_equal. f_equal. replace (S (length h)) with (length h + 1)%nat by lia.
    by rewrite drop_app_add.
Qed.
End net.

(** ** [ratelimit] *)

Module ratelimit.

(** [Limiter]; the call reads the clock. *)
Class Limiter (L : Type) : Type := Allow : clock.time → string → L → bool * L.

(** What the identity of a caller is taken from. *)
Record Request : Type := MkRequest { header_api_key : string; RemoteAddr : string }.

Definition ClientKey (r : Request) : string :=
  if decide (header_api_key r ≠ ""%string) then header_api_key r
  else match net.SplitHostPort (RemoteAddr r) with
       | None => RemoteAddr r
       | Some (host, _) => host
       end.

(** *** Token buckets *)

(** [golang.org/x/time/rate]. *)
Class TokenBucket (T : Type) : Type := {
  NewLimiter : Z → Z → T;               (* rps, burst *)
  lim_Allow : clock.time → T → bool * T;
}.

Section memory.
Context {T : Type} {tb : TokenBucket T}.

(** Limiters are shared by pointer: a caller keeps the one it found while the
    janitor may drop its entry from the map. *)
Record entry : Type := MkEntry { lim : nat; last : clock.time }.

Record Memory : Type := MkMemory {
  rps : Z;
  burst : Z;
  buckets : gmap string entry;
  limiters : gmap nat T;      (* the heap *)
  next : nat;                 (* the next free address *)
}.

Definition NewMemory (rps burst : Z) : Memory := MkMemory rps burst ∅ ∅ 0.

(** [Allow] from [m.mu.Lock()] to [m.mu.Unlock()]: the limiter of the key. *)
Definition allow_locked (now : clock.time) (key : string) (m : Memory) : nat * Memory :=
  match buckets m !! key with
  | Some e =>
      (lim e, MkMemory (rps m) (burst m) (<[key := MkEntry (lim e) now]> (buckets m)) (limiters m) (next m))
  | None =>
      (next m, MkMemory (rps m) (burst m) (<[key := MkEntry (next m) now]> (buckets m))
                 (<[next m := NewLimiter (rps m) (burst m)]> (limiters m)) (S (next m)))
  end.

(** [e.lim.Allow()], after the lock is released. *)
Definition allow_unlocked (now : clock.time) (l : nat) (m : Memory) : bool * Memory :=
  match limiters m !! l with
  | None => (false, m)
  | Some x =>
      let '(ok, x') := lim_Allow now x in
      (ok, MkMemory (rps m) (burst m) (buckets m) (<[l := x']> (limiters m)) (next m))
  end.

(** [Allow] of one goroutine, with its two readings of the clock. *)
Definition memory_Allow (t1 t2 : clock.time) (key : string) (m : Memory) : bool * Memory :=
  let '(l, m1) := allow_locked t1 key m in allow_unlocked t2 l m1.

(** For handlers that run one at a time: both readings are the same. *)
#[global] Instance memory_limiter : Limiter Memory := λ now, memory_Allow now now.

(** One tick of the janitor. *)
Definition janitor (now : clock.time) (m : Memory) : Memory :=
  let cutoff := now - 10 * clock.Minute in
  MkMemory (rps m) (burst m)
    (filter (λ ke : string * entry, ¬ last ke.2 < cutoff) (buckets m)) (limiters m) (next m).

(** *** Concurrent callers and the janitor *)

(** A caller between the two parts of [Allow]: its key, its limiter, and when it
    read the clock. *)
Record caller : Type := MkCaller { c_key : string; c_lim : nat; c_entered : clock.time }.

(** [decided] is history: the answers given, with their times. *)
Record limiter_state : Type := MkState {
  mem : Memory;
  callers : gmap nat caller;
  time : clock.time;
  decided : list (string * clock.time * bool);
}.

Definition begin (rps burst : Z) : limiter_state := MkState (NewMemory rps burst) ∅ 0 [].

Definition enter (id : nat) (now : clock.time) (key : string) (s : limiter_state) : limiter_state :=
  let '(l, m) := allow_locked now key (mem s) in
  MkState m (<[id := MkCaller key l now]> (callers s)) now (decided s).

Definition take_token (id : nat) (c : caller) (now : clock.time) (s : limiter_state) : limiter_state :=
  let '(ok, m) := allow_unlocked now (c_lim c) (mem s) in
  MkState m (delete id (callers s)) now (decided s ++ [(c_key c, now, ok)]).

Definition sweep (now : clock.time) (s : limiter_state) : limiter_state :=
  MkState (janitor now (mem s)) (callers s) now (decided s).

(** The clock does not go back; a caller is held up for at most [delay] between
    the two parts. *)
Inductive lstep (delay : Z) : limiter_state → limiter_state → Prop :=
  | ls_enter s id now key :
      time s ≤ now → callers s !! id = None → lstep delay s (enter id now key s)
  | ls_take s id c now :
      callers s !! id = Some c → time s ≤ now ≤ c_entered c + delay →
      lstep delay s (take_token id c now s)
  | ls_sweep s now : time s ≤ now → lstep delay s (sweep now s).

(** One bucket alone, never evicted. *)
Fixpoint bucket_run (ts : list clock.time) (l : T) : list bool * T :=
  match ts with
  | [] => ([], l)
  | t :: ts =>
      let '(ok, l') := lim_Allow t l in
      let '(oks, l'') := bucket_run ts l' in
      (ok :: oks, l'')
  end.

(** The answers to one key, and when it took them. *)
Definition of_key (k : string) (ds : list (string * clock.time * bool)) : list (string * clock.time * bool) :=
  filter (λ d, d.1.1 = k) ds.
Definition times_of (k : string) ds : list clock.time := map (λ d, d.1.2) (of_key k ds).
Definition answers_of (k : string) ds : list bool := map snd (of_key k ds).

Lemma of_key_app k ds d :
  of_key k (ds ++ [d]) = of_key k ds ++ (if decide (d.1.1 = k) then [d] else []).
Proof. unfold of_key. rewrite filter_app, filter_cons. by destruct (decide _). Qed.

(** A bucket that was left alone for longer than [idle] is as good as new: what
    the janitor relies on. *)
Definition refills (rps burst idle : Z) : Prop :=
  ∀ ts now, Forall (λ t, t < now - idle) ts →
    lim_Allow now (bucket_run ts (NewLimiter rps burst)).2 =
    lim_Allow now (NewLimiter rps burst).

Lemma bucket_run_snoc ts t l :
  bucket_run (ts ++ [t]) l =
  let '(o1, l1) := bucket_run ts l in
  let '(ok, l2) := lim_Allow t l1 in (o1 ++ [ok], l2).
Proof.
  revert l. induction ts as [|t0 ts IH]; intros l; simpl; [by destruct (lim_Allow t l)|].
  destruct (lim_Allow t0 l) as [ok l']. rewrite IH.
  destruct (bucket_run ts l') as [o1 l1]. by destruct (lim_Allow t l1).
Qed.

Section isolation.
Context (rate burst0 delay : Z) (k : string).
Abbreviation idle := (10 * clock.Minute - delay).
Abbreviation fresh := (NewLimiter rate burst0).
Implicit Types s : limiter_state.

(** The bucket of [k], as good as the reference after its calls at [ts]: in the
    same state, or new after a time in which the reference refilled. *)
Definition as_good (ts : list clock.time) (now : clock.time) (x : T) : Prop :=
  x = (bucket_run ts fresh).2 ∨ x = fresh ∧ Forall (λ t, t < now - idle) ts.

Record key_inv s : Prop := {
  ki_config : rps (mem s) = rate ∧ burst (mem s) = burst0;
  ki_answers : answers_of k (decided s) = (bucket_run (times_of k (decided s)) fresh).1;
  ki_entries key e : buckets (mem s) !! key = Some e → (lim e < next (mem s))%nat;
  ki_callers id c : callers s !! id = Some c → (c_lim c < next (mem s))%nat;
  ki_bucket :
    match buckets (mem s) !! k with
    | Some e =>
        (∃ x, limiters (mem s) !! lim e = Some x ∧ as_good (times_of k (decided s)) (time s) x) ∧
        Forall (λ t, t ≤ last e + delay) (times_of k (decided s)) ∧ last e ≤ time s
    | None => Forall (λ t, t < time s - idle) (times_of k (decided s))
    end;
  ki_own id c :
    callers s !! id = Some c → c_key c = k → time s ≤ c_entered c + delay →
    ∃ e, buckets (mem s) !! k = Some e ∧ lim e = c_lim c ∧ c_entered c ≤ last e;
  ki_apart e :
    buckets (mem s) !! k = Some e →
    (∀ key e', buckets (mem s) !! key = Some e' → key ≠ k → lim e' ≠ lim e) ∧
    (∀ id c, callers s !! id = Some c → c_key c ≠ k → c_lim c ≠ lim e);
}.

Lemma Forall_before ts now now' :
  now ≤ now' → Forall (λ t, t < now - idle) ts → Forall (λ t, t < now' - idle) ts.
Proof. intros Hle Hts. eapply Forall_impl; [exact Hts|]. intros t. simpl. lia. Qed.

Lemma as_good_later ts now now' x : now ≤ now' → as_good ts now x → as_good ts now' x.
Proof. intros Hle [->|[-> Hts]]; [by left|right; split; [done|]]. by eapply Forall_before. Qed.

(** Time passes. *)
Lemma key_inv_later s now :
  time s ≤ now → key_inv s → key_inv (MkState (mem s) (callers s) now (decided s)).
Proof.
  intros Hle [Hcfg Ha He Hc Hb Ho Hap]. split; simpl; try done.
  - destruct (buckets (mem s) !! k) as [e|]; [|by eapply Forall_before].
    destruct Hb as ((x & Hx & Hg) & Hts & Hl). split_and!; [|done|lia].
    exists x. split; [done|]. by eapply as_good_later.
  - intros id c Hid Hk Ht. apply (Ho id c Hid Hk). lia.
Qed.

(** A caller finds the entry of its key, or makes one. *)
Lemma key_inv_enter_known s id key e0 :
  key_inv s → callers s !! id = None → buckets (mem s) !! key = Some e0 →
  key_inv (enter id (time s) key s).
Proof.
  intros [[Hr Hb0] Ha He Hc Hb Ho Hap] Hid Hkey. unfold enter, allow_locked. rewrite Hkey.
  assert (∀ key' e', <[key := MkEntry (lim e0) (time s)]> (buckets (mem s)) !! key' = Some e' →
    ∃ e1, buckets (mem s) !! key' = Some e1 ∧ lim e' = lim e1) as Hold.
  { intros key' e' [[<- <-]|[_ H]]%lookup_insert_Some; [by exists e0|by exists e']. }
  assert (∀ id' c, <[id := MkCaller key (lim e0) (time s)]> (callers s) !! id' = Some c →
    callers s !! id' = Some c ∨ c = MkCaller key (lim e0) (time s)) as Hcs.
  { intros id' c [[_ <-]|[_ H]]%lookup_insert_Some; [by right|by left]. }
  split; simpl; try done.
  - intros key' e' (e1 & H1 & ->)%Hold. by eapply He.
  - intros id' c [H| ->]%Hcs; [by eapply Hc|by eapply He].
  - destruct (decide (key = k)) as [->|Hne]; [|by rewrite lookup_insert_ne].
    rewrite lookup_insert_eq. rewrite Hkey in Hb. destruct Hb as (Hx & Hts & Hl). simpl. split_and!; [done| |done].
    eapply Forall_impl; [exact Hts|]. intros t. simpl. lia.
  - intros id' c [H| ->]%Hcs Hck Ht.
    + destruct (Ho id' c H Hck Ht) as (e & Hke & Hlim & Hle).
      destruct (decide (key = k)) as [->|Hne]; [|rewrite lookup_insert_ne by done; eauto].
      rewrite lookup_insert_eq. rewrite Hkey in Hke, Hb. injection Hke as <-. eexists. split; [done|]. simpl. lia.
    + simpl in Hck. subst key. rewrite lookup_insert_eq. eexists. split; [done|]. simpl. lia.
  - intros e (e1 & H1 & Heq)%Hold. destruct (Hap e1 H1) as [Hap1 Hap2]. rewrite Heq. split.
    + intros key' e' (e2 & H2 & ->)%Hold Hne. by eapply Hap1.
    + intros id' c [H| ->]%Hcs Hne; [by eapply Hap2|]. simpl in *. by eapply Hap1.
Qed.

Lemma key_inv_enter_new s id key :
  key_inv s → callers s !! id = None → buckets (mem s) !! key = None →
  key_inv (enter id (time s) key s).
Proof.
  intros [[Hr Hb0] Ha He Hc Hb Ho Hap] Hid Hkey. unfold enter, allow_locked. rewrite Hkey.
  assert (∀ key' e', <[key := MkEntry (next (mem s)) (time s)]> (buckets (mem s)) !! key' = Some e' →
    key' = key ∧ e' = MkEntry (next (mem s)) (time s) ∨
    key' ≠ key ∧ buckets (mem s) !! key' = Some e') as Hold.
  { intros key' e' [[<- <-]|[? H]]%lookup_insert_Some; auto. }
  assert (∀ id' c, <[id := MkCaller key (next (mem s)) (time s)]> (callers s) !! id' = Some c →
    callers s !! id' = Some c ∨ c = MkCaller key (next (mem s)) (time s)) as Hcs.
  { intros id' c [[_ <-]|[_ H]]%lookup_insert_Some; [by right|by left]. }
  split; simpl; try done.
  - intros key' e' [[-> ->]|[_ H]]%Hold; [simpl; lia|]. apply He in H. lia.
  - intros id' c [H| ->]%Hcs; [apply Hc in H; lia|simpl; lia].
  - destruct (decide (key = k)) as [->|Hne].
    + rewrite lookup_insert_eq. rewrite Hkey in Hb. simpl. rewrite lookup_insert_eq. split_and!; [| |done].
      * eexists. split; [done|]. right. by rewrite Hr, Hb0.
      * eapply Forall_impl; [exact Hb|]. intros t. unfold clock.Minute, clock.Second. simpl. lia.
    + rewrite lookup_insert_ne by done. destruct (buckets (mem s) !! k) as [e|] eqn:Hk; [|done].
      rewrite lookup_insert_ne; [done|]. apply He in Hk. lia.
  - intros id' c [H| ->]%Hcs Hck Ht.
    + destruct (Ho id' c H Hck Ht) as (e & Hke & Hlim & Hle). exists e. split; [|done].
      rewrite lookup_insert_ne; [done|]. congruence.
    + simpl in Hck. subst key. rewrite lookup_insert_eq. eexists. split; [done|]. simpl. lia.
  - intros e [[-> ->]|[Hne H]]%Hold; simpl.
    + split; [intros key' e' [[-> _]|[_ H]]%Hold ?; [done|apply He in H; lia]|].
      intros id' c [H| ->]%Hcs ?; [apply Hc in H; lia|done].
    + destruct (Hap e H) as [Hap1 Hap2]. apply He in H. split.
      * intros key' e' [[-> ->]|[_ H']]%Hold ?; [simpl; lia|by eapply Hap1].
      * intros id' c [H'| ->]%Hcs ?; [by eapply Hap2|simpl; lia].
Qed.

(** A caller takes its token: from the bucket of the key, if it is one of [k]. *)
Lemma key_inv_take s id c :
  refills rate burst0 idle → key_inv s → callers s !! id = Some c → time s ≤ c_entered c + delay →
  key_inv (take_token id c (time s) s).
Proof.
  intros Href [Hcfg Ha He Hc Hb Ho Hap] Hid Ht. unfold take_token, allow_unlocked.
  assert (∀ id' c', delete id (callers s) !! id' = Some c' → callers s !! id' = Some c') as Hcs.
  { intros id' c' [_ H]%lookup_delete_Some. done. }
  destruct (decide (c_key c = k)) as [Hk|Hk].
  - destruct (Ho id c Hid Hk Ht) as (e & Hke & Hlim & Hle). rewrite Hke in Hb.
    destruct Hb as ((x & Hx & Hg) & Hts & Hl). rewrite Hlim in Hx. rewrite Hx.
    assert (lim_Allow (time s) x = lim_Allow (time s) (bucket_run (times_of k (decided s)) fresh).2) as Heq.
    { destruct Hg as [->|[-> Hg]]; [done|]. symmetry. by apply Href. }
    destruct (lim_Allow (time s) x) as [ok x'].
    assert (bucket_run (times_of k (decided s ++ [(c_key c, time s, ok)])) fresh =
      ((bucket_run (times_of k (decided s)) fresh).1 ++ [ok], x')) as Hrun.
    { unfold times_of. rewrite of_key_app. simpl. rewrite decide_True, map_app by done. simpl.
      rewrite bucket_run_snoc. fold (times_of k (decided s)).
      destruct (bucket_run _ fresh) as [o1 l1]. simpl in *. by rewrite <- Heq. }
    split; simpl; try done; try (by intros id' c' H%Hcs; eauto).
    + rewrite Hrun. unfold answers_of. rewrite of_key_app. simpl. rewrite decide_True, map_app by done.
      simpl. by rewrite <- Ha.
    + rewrite Hke. split_and!; [|..|done].
      * exists x'. rewrite Hlim, lookup_insert_eq. split; [done|]. left. by rewrite Hrun.
      * unfold times_of. rewrite of_key_app. simpl. rewrite decide_True, map_app by done.
        apply Forall_app. split; [done|]. apply Forall_singleton. simpl. lia.
    + intros e' Hke'. destruct (Hap e' Hke') as [Hap1 Hap2]. split; [done|]. intros id' c' H%Hcs. eauto.
  - destruct (limiters (mem s) !! c_lim c) as [x|]; [destruct (lim_Allow (time s) x) as [ok x']|].
    all: (split; unfold answers_of, times_of; simpl; rewrite ?of_key_app; simpl;
      rewrite ?decide_False, ?app_nil_r by done; try done).
    all: try (by intros id' c' H%Hcs; eauto).
    all: try (by intros e' Hke'; destruct (Hap e' Hke') as [Hap1 Hap2]; split; [done|]; intros id' c' H%Hcs; eauto).
    fold (times_of k (decided s)). destruct (buckets (mem s) !! k) as [e|] eqn:Hke; [|done].
    rewrite lookup_insert_ne; [done|]. destruct (Hap e eq_refl) as [_ Hap2]. by eapply Hap2.
Qed.

Lemma key_inv_sweep s :
  delay ≤ 10 * clock.Minute → key_inv s → key_inv (sweep (time s) s).
Proof.
  intros Hd [Hcfg Ha He Hc Hb Ho Hap].
  assert (∀ key e, buckets (janitor (time s) (mem s)) !! key = Some e → buckets (mem s) !! key = Some e) as Hold.
  { intros key e [? _]%map_lookup_filter_Some. done. }
  split; simpl; try done.
  - intros key e H%Hold. by eapply He.
  - rewrite map_lookup_filter. destruct (buckets (mem s) !! k) as [e|]; simpl; [|done].
    destruct Hb as (Hx & Hts & Hl). case_guard as Hg; simpl; [done|].
    eapply Forall_impl; [exact Hts|]. intros t. simpl in *. lia.
  - intros id c Hid Hk Ht. destruct (Ho id c Hid Hk Ht) as (e & Hke & Hlim & Hle). exists e. split; [|done].
    apply map_lookup_filter_Some. split; [done|]. simpl. lia.
  - intros e H%Hold. destruct (Hap e H) as [Hap1 Hap2]. split; [|done]. intros key e' H'%Hold. by eapply Hap1.
Qed.

Lemma lstep_inv s s' :
  refills rate burst0 idle → delay ≤ 10 * clock.Minute → key_inv s → lstep delay s s' → key_inv s'.
Proof.
  intros Href Hd I Hs. destruct Hs as [s id now key Hle Hid|s id c now Hid [Hle Ht]|s now Hle];
    pose proof (key_inv_later s now Hle I) as I'.
  - change (key_inv (enter id (time (MkState (mem s) (callers s) now (decided s))) key
                       (MkState (mem s) (callers s) now (decided s)))).
    destruct (buckets (mem s) !! key) as [e0|] eqn:Hkey; [by eapply key_inv_enter_known|by apply key_inv_enter_new].
  - exact (key_inv_take (MkState (mem s) (callers s) now (decided s)) id c Href I' Hid Ht).
  - exact (key_inv_sweep (MkState (mem s) (callers s) now (decided s)) Hd I').
Qed.

Lemma begin_inv : key_inv (begin rate burst0).
Proof. split; simpl; try done; intros *; by rewrite ?lookup_empty. Qed.

End isolation.
End memory.

(** *** The shared window in Redis *)

(** A counter and, in milliseconds of the server's clock, when it expires. *)
Abbreviation redis_db := (gmap string (Z * option Z)).

Definition live (rt : Z) (k : string) (db : redis_db) : option (Z * option Z) :=
  match db !! k with
  | Some (n, Some x) => if rt <? x then Some (n, Some x) else None
  | other => other
  end.

Definition INCR (rt : Z) (k : string) (db : redis_db) : Z * redis_db :=
  match live rt k db with
  | Some (n, x) => (n + 1, <[k := (n + 1, x)]> db)
  | None => (1, <[k := (1, None)]> db)
  end.

Definition PEXPIRE (rt : Z) (k : string) (ms : Z) (db : redis_db) : redis_db :=
  match live rt k db with
  | Some (n, _) => <[k := (n, Some (rt + ms))]> db
  | None => db
  end.

Definition allowScript (rt : Z) (k : string) (limit : Z) (db : redis_db) : Z * redis_db :=
  let '(n, db1) := INCR rt k db in
  let db2 := if n =? 1 then PEXPIRE rt k 1999 db1 else db1 in
  if n <=? limit then (1, db2) else (0, db2).

(** [Format("15:04:05")] *)
Definition second_of_day (t : clock.time) : Z := (t / clock.Second) mod 86400.
Definition format_hms (t : clock.time) : list ascii :=
  let s := second_of_day t in
  clock.pad2 (s / 3600) ++ [":"%char] ++ clock.pad2 (s / 60 mod 60) ++ [":"%char] ++ clock.pad2 (s mod 60).

Definition windowKey (key : string) (now : clock.time) : string :=
  String.string_of_list_ascii
    (["r"%char; "l"%char; ":"%char] ++ String.list_ascii_of_string key ++ [":"%char] ++ format_hms now).

(** A call: the caller's clock, the server's clock, the key, the network. *)
Record call : Type := MkCall {
  client_time : clock.time;
  server_time : Z;
  key : string;
  net : store.fault;
}.

(** The limiter of an instance; the counters are in the shared server. *)
Record Redis : Type := MkRedis { limit_of : Z }.

(** [ping] is the result of the ping; [None] for its error. *)
Definition NewRedis (ping : bool) (rps : Z) : option Redis :=
  if ping then Some (MkRedis rps) else None.

Definition redis_Allow (r : Redis) (c : call) (db : redis_db) : bool * redis_db :=
  let '(n, db') := allowScript (server_time c) (windowKey (key c) (client_time c)) (limit_of r) db in
  match net c with
  | store.NoFault => (n =? 1, db')
  | store.FaultBefore => (true, db)
  | store.FaultAfter => (true, db')
  end.

Fixpoint redis_serve (limit : Z) (cs : list call) (db : redis_db) : list (call * bool) * redis_db :=
  match cs with
  | [] => ([], db)
  | c :: cs =>
      let '(ok, db') := redis_Allow (MkRedis limit) c db in
      let '(ds, db'') := redis_serve limit cs db' in
      ((c, ok) :: ds, db'')
  end.

(** The calls of the window [wk], those of them that got no reply, and the
    answers to them, in order. *)
Definition in_window (wk : string) (c : call) : bool :=
  bool_decide (windowKey (key c) (client_time c) = wk).
Definition no_reply (c : call) : bool := match net c with store.NoFault => false | _ => true end.
Definition answers (wk : string) (ds : list (call * bool)) : list bool :=
  map snd (filter (λ d, in_window wk d.1 = true) ds).

(** How many of them are let through, for whatever reason. *)
Definition granted (wk : string) (ds : list (call * bool)) : Z := count id (answers wk ds).

Lemma answers_cons wk c ok ds :
  answers wk ((c, ok) :: ds) = (if in_window wk c then [ok] else []) ++ answers wk ds.
Proof. unfold answers. rewrite filter_cons. simpl. by destruct (in_window wk c); case_decide. Qed.

(** The counter of a window stands at [n] until [t1]. *)
Definition counter (t0 t1 : Z) (wk : string) (n : Z) (db : redis_db) : Prop :=
  if n =? 0 then ∀ rt, t0 ≤ rt → live rt wk db = None
  else ∃ x, t1 ≤ x ∧ db !! wk = Some (n, Some x).

Lemma allowScript_counter t0 wk n rt limit db :
  0 ≤ n → t0 ≤ rt < t0 + 1999 → counter t0 (t0 + 1999) wk n db →
  ∃ db', allowScript rt wk limit db = ((if n + 1 <=? limit then 1 else 0), db') ∧
         counter t0 (t0 + 1999) wk (n + 1) db'.
Proof.
  intros Hn Hrt Hc. unfold allowScript, INCR. unfold counter in *.
  rewrite (proj2 (Z.eqb_neq (n + 1) 0)) by lia.
  destruct (Z.eqb_spec n 0) as [->|Hne].
  - change (0 + 1) with 1. rewrite Hc, Z.eqb_refl by lia. unfold PEXPIRE, live. rewrite lookup_insert_eq.
    exists (<[wk:=(1, Some (rt + 1999))]> (<[wk:=(1, None)]> db)).
    split; [by destruct (1 <=? limit)|]. exists (rt + 1999). rewrite lookup_insert_eq. split; [lia|done].
  - destruct Hc as (x & Hx & Hlk). unfold live. rewrite Hlk, (proj2 (Z.ltb_lt _ _)) by lia.
    rewrite (proj2 (Z.eqb_neq (n + 1) 1)) by lia.
    exists (<[wk:=(n + 1, Some x)]> db). split; [by destruct (n + 1 <=? limit)|].
    exists x. by rewrite lookup_insert_eq.
Qed.

Lemma allowScript_other rt k limit db wk :
  k ≠ wk → (allowScript rt k limit db).2 !! wk = db !! wk.
Proof.
  intros Hne. unfold allowScript, INCR, PEXPIRE.
  repeat case_match; simplify_eq; simpl; by rewrite ?lookup_insert_ne.
Qed.

Lemma counter_same t0 t1 wk n db db' :
  db' !! wk = db !! wk → counter t0 t1 wk n db → counter t0 t1 wk n db'.
Proof. unfold counter, live. by intros ->. Qed.

(** [first m limit n]: the answers to [m] calls when [n] were counted before. *)
Definition first (m : nat) (limit n : Z) : list bool := map (λ i, n + Z.of_nat i <? limit) (seq 0 m).

Lemma first_S m limit n : first (S m) limit n = (n <? limit) :: first m limit (n + 1).
Proof.
  unfold first. cbn [seq map]. rewrite Z.add_0_r. f_equal. rewrite <- seq_shift, map_map.
  apply map_ext. intros i. f_equal. lia.
Qed.

Lemma redis_serve_window t0 wk limit cs n db :
  0 ≤ n → counter t0 (t0 + 1999) wk n db →
  Forall (λ c, t0 ≤ server_time c < t0 + 1999) cs →
  let ds := (redis_serve limit cs db).1 in
  granted wk ds ≤ Z.max 0 (limit - n) + count (λ c, in_window wk c && no_reply c) cs ∧
  (∀ c ok, (c, ok) ∈ ds → no_reply c = true → ok = true) ∧
  (Forall (λ c, no_reply c = false) cs →
   answers wk ds = first (length (filter (λ c, in_window wk c = true) cs)) limit n).
Proof.
  revert n db. induction cs as [|c cs IH]; intros n db Hn Hc Ht.
  { split_and!; [unfold granted; simpl; lia|by intros c ok ?%not_elem_of_nil|done]. }
  apply Forall_cons in Ht as [Htc Ht]. cbn [redis_serve]. unfold redis_Allow. cbn [limit_of count].
  set (k := windowKey (key c) (client_time c)).
  assert (∃ m db2 ok, (let '(a, db') := allowScript (server_time c) k limit db in
      match net c with
      | store.NoFault => (a =? 1, db') | store.FaultBefore => (true, db) | store.FaultAfter => (true, db')
      end) = (ok, db2) ∧ n ≤ m ∧ counter t0 (t0 + 1999) wk m db2 ∧ (no_reply c = true → ok = true) ∧
      (in_window wk c = true → no_reply c = false → m = n + 1 ∧ ok = (n <? limit)) ∧
      (in_window wk c = false → no_reply c = false → m = n)) as (m & db2 & ok & -> & Hnm & Hc2 & Hopen & Hin & Hout).
  { unfold in_window, no_reply. fold k. destruct (decide (k = wk)) as [Heq|Hne].
    - rewrite Heq, bool_decide_eq_true_2 by done.
      destruct (allowScript_counter t0 wk n (server_time c) limit db Hn Htc Hc) as (db' & -> & Hc').
      assert (((if n + 1 <=? limit then 1 else 0) =? 1) = (n <? limit)) as Hok
        by (destruct (Z.leb_spec (n + 1) limit), (Z.ltb_spec n limit); (done || lia)).
      destruct (net c); [exists (n + 1), db'|exists n, db|exists (n + 1), db']; eexists; split_and!; try done; lia.
    - rewrite bool_decide_eq_false_2 by done.
      pose proof (allowScript_other (server_time c) k limit db wk Hne) as Ho.
      destruct (allowScript (server_time c) k limit db) as [a db']. simpl in Ho.
      pose proof (counter_same t0 (t0 + 1999) wk n db db' Ho Hc) as Hc'. exists n.
      destruct (net c); [exists db'|exists db|exists db']; eexists; split_and!; done. }
  destruct (IH m db2 ltac:(lia) Hc2 Ht) as (IH1 & IH2 & IH3).
  destruct (redis_serve limit cs db2) as [ds db3]. cbn [fst] in *. split_and!.
  - unfold granted in *. rewrite answers_cons, count_app. cbn [count].
    destruct (in_window wk c) eqn:Hw, (no_reply c) eqn:Hr; simpl in *; destruct ok; simpl; lia.
  - intros c' ok' [[= -> ->]|Hd]%elem_of_cons; [done|by apply IH2].
  - intros [Hf Hfs]%Forall_cons. rewrite answers_cons, filter_cons, (IH3 Hfs).
    destruct (in_window wk c) eqn:Hw; case_decide; try done.
    + destruct (Hin eq_refl Hf) as [-> ->]. cbn [length]. by rewrite first_S.
    + by rewrite (Hout eq_refl Hf).
Qed.

Lemma digit_inj n n' : 0 ≤ n ≤ 9 → 0 ≤ n' ≤ 9 → clock.digit n = clock.digit n' → n = n'.
Proof.
  intros Hn Hn' Heq. apply (f_equal clock.undigit) in Heq.
  rewrite !clock.undigit_digit in Heq by lia. congruence.
Qed.

Lemma pad2_inj n n' : 0 ≤ n < 100 → 0 ≤ n' < 100 → clock.pad2 n = clock.pad2 n' → n = n'.
Proof.
  assert (∀ x, 0 ≤ x < 100 → 0 ≤ x / 10 ≤ 9 ∧ 0 ≤ x mod 10 ≤ 9) as Hd.
  { intros x Hx. pose proof (Z.mod_pos_bound x 10). pose proof (Z.div_mod x 10). lia. }
  intros Hn Hn' Heq. apply Hd in Hn as [? ?], Hn' as [? ?].
  assert (n / 10 = n' / 10) by (apply digit_inj; [done..|]; unfold clock.pad2 in Heq; congruence).
  assert (n mod 10 = n' mod 10) by (apply digit_inj; [done..|]; unfold clock.pad2 in Heq; congruence).
  rewrite (Z.div_mod n 10), (Z.div_mod n' 10) by lia. lia.
Qed.

Lemma format_hms_inj t t' : format_hms t = format_hms t' → second_of_day t = second_of_day t'.
Proof.
  unfold format_hms. set (a := second_of_day t). set (b := second_of_day t').
  assert (0 ≤ a < 86400) by (apply Z.mod_pos_bound; lia).
  assert (0 ≤ b < 86400) by (apply Z.mod_pos_bound; lia). intros Heq.
  apply app_inj_1 in Heq as [Hh Heq]; [|done]. simpl in Heq. injection Heq as H1 H2 H3 H4.
  assert (∀ x, 0 ≤ x < 86400 → 0 ≤ x / 3600 < 100) as Hhr.
  { intros x Hx. split; [apply Z.div_pos; lia|apply Z.div_lt_upper_bound; lia]. }
  assert (∀ x, 0 ≤ x mod 60 < 100) as Hm.
  { intros x. pose proof (Z.mod_pos_bound x 60). lia. }
  apply pad2_inj in Hh; [|by apply Hhr..].
  assert (a / 60 mod 60 = b / 60 mod 60) as Hmin.
  { apply pad2_inj; [apply Hm..|]. unfold clock.pad2. congruence. }
  assert (a mod 60 = b mod 60) as Hsec.
  { apply pad2_inj; [apply Hm..|]. unfold clock.pad2. congruence. }
  assert (∀ x, x / 60 / 60 = x / 3600) as Hdd by (intros; by rewrite Z.div_div by lia).
  pose proof (Z.div_mod a 60). pose proof (Z.div_mod b 60).
  pose proof (Z.div_mod (a / 60) 60). pose proof (Z.div_mod (b / 60) 60).
  pose proof (Hdd a). pose proof (Hdd b). lia.
Qed.

(** ** Properties *)

(** The caller's identity.  An API key is used as it is; without one, the
    identity is the host of the connection, whatever its port, for IPv4 and for
    bracketed IPv6 addresses. *)
Lemma ClientKey_host k h p :
  net.plain h → net.plain p → net.colon ∉ p →
  ClientKey (MkRequest k (String.string_of_list_ascii (net.join_host_port h p))) =
    (if decide (k = ""%string) then String.string_of_list_ascii h else k).
Proof.
  intros Hh Hp Hc. unfold ClientKey. simpl. case_decide as Hk; case_decide; try done.
  unfold net.SplitHostPort. rewrite String.list_ascii_of_string_of_list_ascii.
  by rewrite net.split_join.
Qed.

(** C29: clients do not affect each other, and the janitor is invisible, provided
    that buckets refill fast enough.  Take any interleaving of the two parts of
    [Allow] of any number of callers, for any keys, and of janitor sweeps, in which
    no caller is held up for more than [delay] between releasing the lock and taking
    its token.  If a bucket that is idle for ten minutes less [delay] is as good as
    new (with [golang.org/x/time/rate]: the burst is at most what the rate gives in
    that time, 600 times the rate for no delay), the answers to one key are those of
    one token bucket that serves this key alone and is never evicted. *)
Theorem per_key_isolation {T} {tb : TokenBucket T} rate burst delay k s :
  refills rate burst (10 * clock.Minute - delay) → delay ≤ 10 * clock.Minute →
  rtc (lstep delay) (begin rate burst) s →
  answers_of k (decided s) = (bucket_run (times_of k (decided s)) (NewLimiter rate burst)).1.
Proof.
  intros Href Hd Hr. apply (ki_answers rate burst delay k s).
  assert (∀ s1, rtc (lstep delay) s1 s → key_inv rate burst delay k s1 → key_inv rate burst delay k s) as Hall.
  { intros s1 H1 I1. induction H1; eauto using lstep_inv. }
  apply (Hall _ Hr). apply begin_inv.
Qed.

(** A caller that is not interrupted takes both steps. *)
Lemma memory_Allow_steps {T} {tb : TokenBucket T} delay (s : limiter_state (T := T)) id t1 t2 key :
  callers s !! id = None → time s ≤ t1 → t1 ≤ t2 ≤ t1 + delay →
  let '(ok, m) := memory_Allow t1 t2 key (mem s) in
  rtc (lstep delay) s (MkState m (callers s) t2 (decided s ++ [(key, t2, ok)])).
Proof.
  intros Hid H1 H2. unfold memory_Allow. destruct (allow_locked t1 key (mem s)) as [l m1] eqn:Hl.
  destruct (allow_unlocked t2 l m1) as [ok m2] eqn:Hu.
  eapply rtc_l; [by apply (ls_enter _ s id t1 key)|]. unfold enter. rewrite Hl. apply rtc_once.
  pose proof (ls_take delay (MkState m1 (<[id := MkCaller key l t1]> (callers s)) t1 (decided s)) id
    (MkCaller key l t1) t2 (lookup_insert_eq _ _ _) H2) as Hs.
  unfold take_token in Hs. simpl in Hs. rewrite Hu, delete_insert_id in Hs by done. exact Hs.
Qed.

(** The map of buckets stays small: after a sweep it has exactly the
    buckets used in the last ten minutes, unchanged. *)
Lemma janitor_keeps_recent {T} {tb : TokenBucket T} now (m : Memory (T := T)) k e :
  buckets (janitor now m) !! k = Some e ↔
  buckets m !! k = Some e ∧ now - 10 * clock.Minute ≤ last e.
Proof.
  unfold janitor. simpl. rewrite map_lookup_filter_Some. simpl. split; intros [? ?]; split; [done|lia|done|lia].
Qed.

(** C30: the global limit, and what failing open costs.  For one window counter,
    over any sequence of calls from any instances that reach Redis within 1999 ms of
    its creation: a call that gets no reply is let through; beyond those at most
    [limit] calls are, so that all in all at most [limit] plus the number of calls
    without a reply are let through; and when every call gets its reply, exactly the
    first [limit] ones are, in the order in which they reach Redis, and all later
    ones are refused.  Calls for other windows have no effect. *)
Theorem redis_window_limit limit t0 wk cs db :
  0 ≤ limit → (∀ rt, t0 ≤ rt → live rt wk db = None) →
  Forall (λ c, t0 ≤ server_time c < t0 + 1999) cs →
  let ds := (redis_serve limit cs db).1 in
  granted wk ds ≤ limit + count (λ c, in_window wk c && no_reply c) cs ∧
  (∀ c ok, (c, ok) ∈ ds → no_reply c = true → ok = true) ∧
  (Forall (λ c, no_reply c = false) cs →
   answers wk ds = map (λ i, Z.of_nat i <? limit) (seq 0 (length (filter (λ c, in_window wk c = true) cs)))).
Proof.
  intros Hl Hdead Ht. destruct (redis_serve_window t0 wk limit cs 0 db) as (H1 & H2 & H3); [lia|done|done|].
  split_and!; [lia|done|]. intros Hf. exact (H3 Hf).
Qed.

(** Two calls share a window counter only when they have the same key and
    the same second of the day, even when keys contain the separator. *)
Lemma windowKey_inj k k' t t' :
  windowKey k t = windowKey k' t' → k = k' ∧ second_of_day t = second_of_day t'.
Proof.
  unfold windowKey. intros Heq. apply (f_equal String.list_ascii_of_string) in Heq.
  rewrite !String.list_ascii_of_string_of_list_ascii in Heq.
  apply app_inj_1 in Heq as [_ Heq]; [|done].
  apply app_inj_2 in Heq as [Hk Ht]; [|done]. split.
  - by rewrite <- (String.string_of_list_ascii_of_string k), Hk, String.string_of_list_ascii_of_string.
  - apply app_inj_1 in Ht as [_ Ht]; [|done]. by apply format_hms_inj.
Qed.

(** ** Concrete instances *)

(** A token bucket counting in nanoseconds of credit, as [rate.Limiter] does
    with fractions of tokens. *)
Record bucket : Type := MkBucket { b_rps : Z; b_burst : Z; credit : Z; updated : clock.time }.

#[local] Instance int_bucket : TokenBucket bucket := {
  NewLimiter rps burst := MkBucket rps burst (burst * clock.Second) 0;
  lim_Allow now b :=
    let c := Z.min (b_burst b * clock.Second) (credit b + Z.max 0 (now - updated b) * b_rps b) in
    if clock.Second <=? c then (true, MkBucket (b_rps b) (b_burst b) (c - clock.Second) now)
    else (false, b);
}.

Lemma ClientKey_host_example :
  ClientKey (MkRequest ""%string "[::1]:5000"%string) = "::1"%string.
Proof.
  apply (ClientKey_host ""%string (String.list_ascii_of_string "::1") (String.list_ascii_of_string "5000"));
    try split; apply (bool_decide_unpack _); vm_compute; exact I.
Defined.

Lemma lim_Allow_bucket now b :
  0 ≤ credit b → 0 ≤ b_rps b → 0 ≤ b_burst b →
  let b' := (lim_Allow now b).2 in
  b_rps b' = b_rps b ∧ b_burst b' = b_burst b ∧ 0 ≤ credit b' ∧
  (updated b' = now ∨ updated b' = updated b).
Proof.
  intros Hc Hr Hb. cbn [lim_Allow int_bucket]. case_match; bool_props; simpl; [|by auto].
  repeat split; auto. lia.
Qed.

Lemma bucket_run_state ts b :
  0 ≤ credit b → 0 ≤ b_rps b → 0 ≤ b_burst b →
  let b' := (bucket_run ts b).2 in
  b_rps b' = b_rps b ∧ b_burst b' = b_burst b ∧ 0 ≤ credit b' ∧
  (updated b' ∈ ts ∨ updated b' = updated b).
Proof.
  revert b. induction ts as [|t ts IH]; intros b Hc Hr Hb; [simpl; auto|]. cbn [bucket_run].
  pose proof (lim_Allow_bucket t b Hc Hr Hb) as H1. destruct (lim_Allow t b) as [ok b1].
  cbn [snd] in H1. destruct H1 as (E1 & E2 & E3 & E4).
  specialize (IH b1 E3 ltac:(lia) ltac:(lia)). destruct (bucket_run ts b1) as [oks b2].
  cbn [snd] in *. destruct IH as (F1 & F2 & F3 & F4). rewrite F1, F2, E1, E2.
  repeat split; [done|]. rewrite elem_of_cons. destruct F4 as [?|F4]; [auto|].
  rewrite F4. destruct E4; auto.
Qed.

(** With a burst of at most what the rate gives in that time, an idle bucket is full. *)
Lemma int_bucket_refills rate burst idle :
  1 ≤ burst → 0 ≤ rate → 0 ≤ idle → burst * clock.Second ≤ idle * rate → refills rate burst idle.
Proof.
  intros Hb Hrate Hidle Hfull ts now Hts. destruct ts as [|t ts]; [done|].
  assert (0 < clock.Second) as HS by done.
  assert (bucket_run (t :: ts) (NewLimiter rate burst) =
    let '(oks, b) := bucket_run ts (MkBucket rate burst ((burst - 1) * clock.Second) t) in
    (true :: oks, b)) as ->.
  { cbn [bucket_run lim_Allow NewLimiter int_bucket b_burst credit updated b_rps].
    rewrite Z.min_l by nia. rewrite (proj2 (Z.leb_le _ _)) by nia.
    replace (burst * clock.Second - clock.Second) with ((burst - 1) * clock.Second) by lia. done. }
  pose proof (bucket_run_state ts (MkBucket rate burst ((burst - 1) * clock.Second) t)) as Hst.
  destruct (bucket_run ts _) as [oks b]. cbn [snd credit b_rps b_burst updated] in *.
  destruct Hst as (H1 & H2 & H3 & H4); [nia|lia|lia|].
  assert (updated b < now - idle) as Hu.
  { apply Forall_cons in Hts as [Ht Hts]. destruct H4 as [Hin| ->]; [|done].
    rewrite Forall_forall in Hts. by apply Hts. }
  cbn [lim_Allow NewLimiter int_bucket b_burst credit updated b_rps]. rewrite H1, H2.
  rewrite !Z.min_l by nia. rewrite (proj2 (Z.leb_le _ _)) by nia. done.
Qed.

(** Two callers of [a] overlap: the second enters before the first takes. *)
Definition overlap : limiter_state (T := bucket) :=
  take_token 1 (MkCaller "a" 0 1) 3 (take_token 0 (MkCaller "a" 0 0) 2
    (enter 1 1 "a" (enter 0 0 "a" (begin 1 2)))).
Definition isolated : limiter_state (T := bucket) :=
  take_token 3 (MkCaller "a" 0 6) 7 (enter 3 6 "a" (sweep 5
    (take_token 2 (MkCaller "b" 1 4) 4 (enter 2 4 "b" overlap)))).

Lemma isolated_reachable : rtc (lstep clock.Second) (begin 1 2) isolated.
Proof.
  eapply rtc_l; [apply (ls_enter _ _ 0%nat 0 "a"); [discriminate|reflexivity]|].
  eapply rtc_l; [apply (ls_enter _ _ 1%nat 1 "a"); [discriminate|reflexivity]|].
  eapply rtc_l; [apply (ls_take _ _ 0%nat (MkCaller "a" 0 0) 2); [reflexivity|split; discriminate]|].
  eapply rtc_l; [apply (ls_take _ _ 1%nat (MkCaller "a" 0 1) 3); [reflexivity|split; discriminate]|].
  eapply rtc_l; [apply (ls_enter _ _ 2%nat 4 "b"); [discriminate|reflexivity]|].
  eapply rtc_l; [apply (ls_take _ _ 2%nat (MkCaller "b" 1 4) 4); [reflexivity|split; discriminate]|].
  eapply rtc_l; [apply (ls_sweep _ _ 5); discriminate|].
  eapply rtc_l; [apply (ls_enter _ _ 3%nat 6 "a"); [discriminate|reflexivity]|].
  apply rtc_once. apply (ls_take _ _ 3%nat (MkCaller "a" 0 6) 7); [reflexivity|split; discriminate].
Qed.

Lemma per_key_isolation_witness : answers_of "a" (decided isolated) = [true; true; false].
Proof.
  rewrite (per_key_isolation 1 2 clock.Second "a" isolated).
  - vm_compute. reflexivity.
  - apply int_bucket_refills; vm_compute; discriminate.
  - discriminate.
  - exact isolated_reachable.
Defined.

(** The condition is needed.  At one event per second with a burst of 602, a
    client that used up its bucket has 600 tokens after ten minutes; evicted, it
    gets a full bucket. *)
Definition drained_client : Memory (T := bucket) :=
  fold_left (λ m t, (memory_Allow t t "k" m).2) (replicate 602 0) (NewMemory 1 602).
Definition after_break (m : Memory (T := bucket)) : list bool :=
  let t := 10 * clock.Minute + 1 in
  fst (fold_left (λ am _, let '(ok, m) := memory_Allow t t "k" am.2 in (am.1 ++ [ok], m)) (replicate 602 tt) ([], m)).

Lemma eviction_shows :
  let t := 10 * clock.Minute + 1 in
  count id (after_break drained_client) = 600 ∧ count id (after_break (janitor t drained_client)) = 602.
Proof. split; vm_compute; reflexivity. Qed.

Lemma redis_window_limit_witness :
  let call f := MkCall 0 5 "k" f in
  let cs := [call store.NoFault; call store.FaultAfter; call store.NoFault; call store.NoFault] in
  answers (windowKey "k" 0) (redis_serve 2 cs ∅).1 = [true; true; false; false] ∧
  granted (windowKey "k" 0) (redis_serve 2 cs ∅).1 ≤ 2 + 1.
Proof.
  split; [vm_compute; reflexivity|].
  apply (redis_window_limit 2 0 (windowKey "k" 0)).
  - discriminate.
  - intros rt _. unfold live. rewrite lookup_empty. reflexivity.
  - repeat constructor; discriminate.
Defined.

End ratelimit.
