(* ===== verification/Ingest.v ===== *)
(** * [internal/ingest]: the HTTP handlers

    Each handler is one function from the request and the state it touches
    (queue, limiter, metrics, store) to the response and the new state, with a
    result on every branch.  [None] is a panic of the queue.  Decoding a JSON
    body is the class [JsonDecoder], which sees what [http.MaxBytesReader] lets
    through; [JsonEvent] has Go's decoder. *)

From S2P Require Import Prelude Float64 Hll Clock Store Queue Ratelimit Metrics.
From stdpp Require Import prelude list strings gmap.
From Stdlib Require Import ZArith Lia.
Open Scope Z_scope.

Module ingest.
Import store (Event, Store).

Record eventRequest : Type := MkEventRequest {
  EventID : string;
  Name : string;
  DistinctID : string;
  Properties : option (gmap string store.any);
}.

(** [json.NewDecoder(r.Body).Decode(&req)]: the bytes that can be read, and
    whether reading on gives the "request body too large" error instead of the end. *)
Class JsonDecoder : Type :=
  Decode : string → bool → option eventRequest.

Record http_request : Type := MkHttp { caller : ratelimit.Request; req_body : string }.

Inductive body : Type :=
  | Text (s : string)
  | Status (s : string)
  | CountOf (event : string) (n : Z)
  | UniquesOf (event : string) (n : option Z)
  | Stats (totals : list store.NameCount) (uniques : list (string * option Z))
          (series : list store.MinutePoint).

Record response : Type := MkResponse {
  code : Z;
  retry_after : option string;
  res_body : body;
}.

(** [http.Error] and [writeJSON]. *)
Definition http_Error (msg : string) (code : Z) : response := MkResponse code None (Text msg).
Definition http_Retry (msg : string) (code : Z) : response := MkResponse code (Some "1"%string) (Text msg).
Definition writeJSON (code : Z) (v : body) : response := MkResponse code None v.

Section handlers.
Context {Q L : Type} {enq : queue.Enqueuer Q} {lim : ratelimit.Limiter L} {dec : JsonDecoder}.

Record Handler : Type := MkHandler { queue_of : Q; limiter : option L }.

Definition New (q : Q) (l : option L) : Handler := MkHandler q l.

(** [h.limiter == nil || h.limiter.Allow(key)] *)
Definition allow (now : clock.time) (key : string) (h : Handler) : bool * Handler :=
  match limiter h with
  | None => (true, h)
  | Some l => let '(ok, l') := ratelimit.Allow now key l in (ok, MkHandler (queue_of h) (Some l'))
  end.

(** [http.MaxBytesReader(w, r.Body, 1<<20)] *)
Definition max_body : nat := N.to_nat (2 ^ 20).
Definition read_body (s : string) : option eventRequest :=
  Decode (String.substring 0 max_body s) (max_body <? String.length s)%nat.

(** [start], [now] and [finish] are the three readings of the clock. *)
Definition postEvent (start now finish : clock.time) (r : http_request) (h : Handler) (m : metrics.t)
    : option (response * Handler * metrics.t) :=
  let '(ok, h) := allow start (ratelimit.ClientKey (caller r)) h in
  if negb ok then
    Some (http_Retry "rate limit exceeded" 429, h, metrics.reject "rate_limited" m)
  else
  match read_body (req_body r) with
  | None => Some (http_Error "invalid JSON body" 400, h, metrics.reject "invalid" m)
  | Some req =>
      if decide (EventID req = ""%string) then
        Some (http_Error "event_id is required" 400, h, metrics.reject "invalid" m)
      else if decide (Name req = ""%string) then
        Some (http_Error "name is required" 400, h, metrics.reject "invalid" m)
      else
        let e := store.MkEvent (EventID req) (Name req) (DistinctID req) (Properties req) now in
        match queue.enqueue e (queue_of h) with
        | None => None
        | Some (q', err) =>
            let h' := MkHandler q' (limiter h) in
            Some
              match err with
              | None =>
                  (writeJSON 202 (Status "accepted"), h',
                   metrics.observe_ingest (finish - start) (metrics.accept m))
              | Some queue.ErrFull =>
                  (http_Retry "overloaded, retry shortly" 503, h', metrics.reject "queue_full" m)
              | Some queue.ErrClosed =>
                  (http_Error "shutting down" 503, h', metrics.reject "shutdown" m)
              | Some queue.ErrUnavailable =>
                  (http_Error "this instance does not accept events (worker mode)" 503, h',
                   metrics.reject "not_ingest" m)
              | Some queue.ErrOther => (http_Error "failed to accept event" 500, h', m)
              end
        end
  end.

(** ** The read side *)

Context {pg : store.Postgres} (math_Log : float64.t → float64.t).

Definition getCount (now : clock.time) (event : string) (s : Store) : response * Store :=
  if decide (event = ""%string) then
    (http_Error "the 'event' query parameter is required" 400, s)
  else match store.CountToday now event s with
       | (Err _, s') => (http_Error "failed to query count" 500, s')
       | (Ok n, s') => (writeJSON 200 (CountOf event n), s')
       end.

Definition getUniques (now : clock.time) (event : string) (s : Store) : response * Store :=
  if decide (event = ""%string) then
    (http_Error "the 'event' query parameter is required" 400, s)
  else match store.UniquesToday math_Log now event s with
       | (Err _, s') => (http_Error "failed to query uniques" 500, s')
       | (Ok n, s') => (writeJSON 200 (UniquesOf event n), s')
       end.

(** The three queries run one after the other, each at its own time. *)
Definition getStats (now1 now2 now3 : clock.time) (s : Store) : response * Store :=
  match store.TotalsToday now1 s with
  | (Err _, s1) => (http_Error "failed to query totals" 500, s1)
  | (Ok totals, s1) =>
      match store.UniquesTodayAll math_Log now2 s1 with
      | (Err _, s2) => (http_Error "failed to query uniques" 500, s2)
      | (Ok uniques, s2) =>
          match store.Series now3 (15 * clock.Minute) s2 with
          | (Err _, s3) => (http_Error "failed to query series" 500, s3)
          | (Ok series, s3) => (writeJSON 200 (Stats totals uniques series), s3)
          end
      end
  end.

Definition health : response := writeJSON 200 (Status "ok").
End handlers.

(** ** What a response means *)

Lemma rejected_accept m : metrics.rejected (metrics.accept m) = metrics.rejected m.
Proof. done. Qed.

Lemma allow_queue {Q L} {lim : ratelimit.Limiter L} now key (h h' : Handler (Q := Q) (L := L)) ok :
  allow now key h = (ok, h') → queue_of h' = queue_of h.
Proof.
  unfold allow. destruct (limiter h) as [l|]; [|by intros [= <- <-]].
  destruct (ratelimit.Allow now key l). by intros [= <- <-].
Qed.

(** What a request is about: the limiter lets it pass; its body decodes to a
    request with an id and a name; and the event this request describes, at the
    server's time. *)
Definition admitted {Q L} {lim : ratelimit.Limiter L} (start : clock.time) (r : http_request)
    (h : Handler (Q := Q) (L := L)) : bool := (allow start (ratelimit.ClientKey (caller r)) h).1.

Definition asks {dec : JsonDecoder} (r : http_request) (req : eventRequest) : Prop :=
  read_body (req_body r) = Some req ∧ EventID req ≠ ""%string ∧ Name req ≠ ""%string.

Definition describes (now : clock.time) (req : eventRequest) (e : Event) : Prop :=
  store.EventID e = EventID req ∧ store.Name e = Name req ∧ store.DistinctID e = DistinctID req ∧
  store.Properties e = Properties req ∧ store.TS e = now.

(** The event was taken: one more accepted, none rejected. *)
Definition took {Q} {enq : queue.Enqueuer Q} (e : Event) (q q' : Q) (m m' : metrics.t) : Prop :=
  queue.enqueue e q = Some (q', None) ∧
  metrics.EventsAccepted m' = metrics.EventsAccepted m + 1 ∧
  metrics.rejected m' = metrics.rejected m.

(** It was refused: the queue is as before, and one rejection is counted,
    except for an internal error. *)
Definition refused {Q} (res : response) (q q' : Q) (m m' : metrics.t) : Prop :=
  q' = q ∧ code res ∈ [400; 429; 503; 500] ∧
  metrics.EventsAccepted m' = metrics.EventsAccepted m ∧
  metrics.rejected m' = metrics.rejected m + (if code res =? 500 then 0 else 1) ∧
  (retry_after res ≠ None → code res = 429 ∨ code res = 503).

Lemma refused_reject {Q} reason msg c ra (q : Q) m :
  c ∈ [400; 429; 503] → (ra ≠ None → c = 429 ∨ c = 503) →
  refused (MkResponse c ra (Text msg)) q q m (metrics.reject reason m).
Proof.
  intros Hc Hra. unfold refused. cbn [code retry_after]. split; [done|].
  split; [rewrite !elem_of_cons in *; tauto|]. split; [done|]. rewrite metrics.rejected_reject.
  split; [|done]. rewrite (proj2 (Z.eqb_neq c 500)); [done|].
  rewrite !elem_of_cons, elem_of_nil in Hc. lia.
Qed.

Lemma postEvent_cases {Q L} {enq : queue.Enqueuer Q} {laws : queue.EnqueuerLaws Q}
    {lim : ratelimit.Limiter L} {dec : JsonDecoder} start now fin r
    (h h' : Handler (Q := Q) (L := L)) m m' res :
  postEvent start now fin r h m = Some (res, h', m') →
  (code res = 202 ∧ retry_after res = None ∧ admitted start r h = true ∧
   ∃ req e, asks r req ∧ describes now req e ∧ took e (queue_of h) (queue_of h') m m') ∨
  (refused res (queue_of h) (queue_of h') m m' ∧
   ((code res = 429 ∧ admitted start r h = false) ∨
    (code res = 400 ∧ admitted start r h = true ∧ ∀ req, ¬ asks r req) ∨
    (admitted start r h = true ∧ ∃ req e err, asks r req ∧ describes now req e ∧
       queue.enqueue e (queue_of h) = Some (queue_of h', Some err) ∧
       code res = (match err with queue.ErrOther => 500 | _ => 503 end)))).
Proof.
  unfold postEvent, admitted. destruct (allow start _ h) as [ok h1] eqn:Ha.
  apply allow_queue in Ha. rewrite <- Ha.
  assert (∀ c, c = 400 ∨ c = 429 ∨ c = 503 → c ∈ [400; 429; 503]) as Hin.
  { intros c Hc. rewrite !elem_of_cons, elem_of_nil. tauto. }
  destruct ok; simpl; [|intros [= <- <- <-]; right; split; [apply refused_reject|]; auto].
  assert (∀ msg, (∀ req, ¬ asks r req) →
    refused (http_Error msg 400) (queue_of h1) (queue_of h1) m (metrics.reject "invalid" m) ∧
    ((400 = 429 ∧ true = false) ∨ (400 = 400 ∧ true = true ∧ ∀ req, ¬ asks r req) ∨
     (true = true ∧ ∃ req e err, asks r req ∧ describes now req e ∧
        queue.enqueue e (queue_of h1) = Some (queue_of h1, Some err) ∧
        400 = (match err with queue.ErrOther => 500 | _ => 503 end)))) as Hbad.
  { intros msg Hno. split; [apply refused_reject; [auto|done]|auto]. }
  unfold asks in Hbad |- *.
  destruct (read_body _) as [req|]; [|intros [= <- <- <-]; right; apply Hbad; by intros req (? & _)].
  case_decide as Hid; [intros [= <- <- <-]; right; apply Hbad; intros req' ([= ->] & ? & _); done|].
  case_decide as Hn; [intros [= <- <- <-]; right; apply Hbad; intros req' ([= ->] & _ & ?); done|].
  set (e := store.MkEvent _ _ _ _ _). assert (describes now req e) as He by done.
  destruct (queue.enqueue e (queue_of h1)) as [[q' [err|]]|] eqn:Hq; [| |done].
  - pose proof (queue.refused_same _ _ _ _ Hq) as ->.
    destruct err; intros [= <- <- <-]; right; (split; [|right; right; split; [done|]; by eexists _, e, _]).
    1-3: apply refused_reject; [auto|first [done|auto]].
    unfold refused. simpl. rewrite !elem_of_cons. repeat split; [tauto|lia|done].
  - intros [= <- <- <-]. left. split; [done|]. split; [done|]. split; [done|]. by exists req, e.
Qed.

(** The memory queue always answers, and refuses only when it is closed or full. *)
Lemma memory_enqueue e q :
  queue.wf q → ∃ q' err, queue.enqueue e q = Some (q', err) ∧
    match err with
    | None => queue.buf (queue.ch q') = queue.buf (queue.ch q) ++ [e]
    | Some queue.ErrClosed => queue.closed q = true
    | Some queue.ErrFull => length (queue.buf (queue.ch q)) = queue.cap (queue.ch q)
    | Some _ => False
    end.
Proof.
  intros [Hcl Hlen]. unfold queue.enqueue, queue.memory_enqueuer, queue.Enqueue, queue.try_send.
  destruct (queue.closed q); [by eexists _, _|]. rewrite <- Hcl.
  destruct (Nat.ltb_spec (length (queue.buf (queue.ch q))) (queue.cap (queue.ch q)));
    eexists _, _; (split; [reflexivity|]); [done|]. simpl. lia.
Qed.

Lemma postEvent_memory {L} {lim : ratelimit.Limiter L} {dec : JsonDecoder} start now fin r
    (h : Handler (Q := queue.Memory) (L := L)) m :
  queue.wf (queue_of h) →
  ∃ res h' m', postEvent start now fin r h m = Some (res, h', m') ∧
    ((code res = 202 ∧ retry_after res = None ∧ admitted start r h = true ∧
      ∃ req e, asks r req ∧ describes now req e ∧ took e (queue_of h) (queue_of h') m m' ∧
        queue.buf (queue.ch (queue_of h')) = queue.buf (queue.ch (queue_of h)) ++ [e]) ∨
     (refused res (queue_of h) (queue_of h') m m' ∧
      ((code res = 429 ∧ admitted start r h = false) ∨
       (code res = 400 ∧ admitted start r h = true ∧ ∀ req, ¬ asks r req) ∨
       (code res = 503 ∧ admitted start r h = true ∧ (∃ req, asks r req) ∧
        (queue.closed (queue_of h) = true ∨
         length (queue.buf (queue.ch (queue_of h))) = queue.cap (queue.ch (queue_of h))))))).
Proof.
  intros Hwf.
  assert (∃ res h' m', postEvent start now fin r h m = Some (res, h', m')) as (res & h' & m' & Hp).
  { unfold postEvent. destruct (allow start _ h) as [ok h1] eqn:Ha. apply allow_queue in Ha.
    destruct ok; simpl; [|by eauto]. destruct (read_body _) as [req|]; [|by eauto].
    case_decide; [by eauto|]. case_decide; [by eauto|]. rewrite Ha.
    destruct (memory_enqueue (store.MkEvent (EventID req) (Name req) (DistinctID req) (Properties req) now)
      _ Hwf) as (q' & err & -> & _).
    destruct err as [[]|]; eauto. }
  exists res, h', m'. split; [done|].
  destruct (postEvent_cases _ _ _ _ _ _ _ _ _ Hp)
    as [(Hc & Hra & Had & req & e & Hr & He & Ht)|(Href & Hwhy)]; [left|right].
  - split_and!; [done..|]. exists req, e. split_and!; [done..|].
    destruct Ht as [Hq _], (memory_enqueue e _ Hwf) as (q' & err & Hq' & Hb).
    rewrite Hq in Hq'. injection Hq' as <- <-. done.
  - split; [done|]. destruct Hwhy as [?|[?|(Had & req & e & err & Hr & _ & Hq & Hc)]]; [by left|by right; left|].
    right; right. destruct (memory_enqueue e _ Hwf) as (q' & err' & Hq' & Hb).
    rewrite Hq in Hq'. injection Hq' as <- <-. destruct err; [..|done|done]; split_and!; eauto.
Qed.

(** ** Properties *)

(** C26: the HTTP door never loses, invents or alters an event, and its answer
    says what happened.  Over a well-formed memory queue (of positive size: one of
    size 0 passes events on without holding them) [postEvent] always answers.  It
    answers 202 exactly when the limiter lets the request pass, the body decodes to
    a request with an id and a name, and the queue has room; then the event at the
    end of the queue has the id, name, distinct id and properties of that request
    and the server's time, and one accepted event is counted.  Otherwise the queue
    is as it was and one rejection is counted: 429 when the limiter refuses, 400
    when there is no valid request in the body, 503 when the queue is closed or
    full.  [Retry-After] comes with 429 and 503 only. *)
Theorem postEvent_accounts {L} {lim : ratelimit.Limiter L} {dec : JsonDecoder} start now fin r
    (h : Handler (Q := queue.Memory) (L := L)) m :
  queue.wf (queue_of h) →
  ∃ res h' m', postEvent start now fin r h m = Some (res, h', m') ∧
    ((code res = 202 ∧ retry_after res = None ∧ admitted start r h = true ∧
      ∃ req e, asks r req ∧ describes now req e ∧ took e (queue_of h) (queue_of h') m m' ∧
        queue.buf (queue.ch (queue_of h')) = queue.buf (queue.ch (queue_of h)) ++ [e]) ∨
     (refused res (queue_of h) (queue_of h') m m' ∧
      ((code res = 429 ∧ admitted start r h = false) ∨
       (code res = 400 ∧ admitted start r h = true ∧ ∀ req, ¬ asks r req) ∨
       (code res = 503 ∧ admitted start r h = true ∧ (∃ req, asks r req) ∧
        (queue.closed (queue_of h) = true ∨
         length (queue.buf (queue.ch (queue_of h))) = queue.cap (queue.ch (queue_of h))))))).
Proof. apply postEvent_memory. Qed.

(** ** Concrete instances *)

Definition fixed_decoder : JsonDecoder := λ s big,
  if big then None else Some (MkEventRequest s "click" "u" None).

Definition no_limit : ratelimit.Limiter unit := λ _ _ l, (true, l).

Lemma postEvent_accounts_witness :
  let h : Handler (Q := queue.Memory) (L := unit) := MkHandler queue.q1 None in
  let r := MkHttp (ratelimit.MkRequest "k" "1.2.3.4:5") "id-1" in
  ∃ res h' m', postEvent (lim := no_limit) (dec := fixed_decoder) 1 2 3 r h metrics.zero
                 = Some (res, h', m') ∧
    code res = 202 ∧
    queue.buf (queue.ch (queue_of h')) = [store.MkEvent "id-1" "click" "u" None 2].
Proof.
  destruct (postEvent_accounts (lim := no_limit) (dec := fixed_decoder) 1 2 3
    (MkHttp (ratelimit.MkRequest "k" "1.2.3.4:5") "id-1") (MkHandler queue.q1 None) metrics.zero
    queue.q1_wf) as (res & h' & m' & Hp & Hcases).
  exists res, h', m'. split; [exact Hp|].
  destruct Hcases as [(Hc & _ & _ & req & e & (Hr & _) & (H1 & H2 & H3 & H4 & H5) & _ & Hb)
                     |(_ & [[_ Ha]|[(_ & _ & Hno)|(_ & _ & _ & [Hcl|Hfull])]])]; try discriminate.
  - split; [exact Hc|]. injection Hr as <-. destruct e. simpl in *. subst. exact Hb.
  - exfalso. apply (Hno (MkEventRequest "id-1" "click" "u" None)).
    split; [reflexivity|]. split; discriminate.
Defined.
End ingest.
