(* ===== verification/Grpc.v ===== *)
(** * [internal/grpcingest]: the gRPC door

    [Publish] is the loop over the batch, with its two kinds of failure: an
    invalid event is reported by index and skipped, a queue error ends the
    call.  Counts and indices are [int32], as on the wire. *)

From S2P Require Import Prelude Float64 Hll Clock Store Queue Ratelimit Metrics.
From stdpp Require Import prelude list strings gmap.
From Stdlib Require Import ZArith Lia.
Open Scope Z_scope.

Module grpcingest.
Import store (Event).

(** The messages of [proto/tally/v1/tally.proto]. *)
Record pb_Event : Type := MkPb {
  EventId : string;
  pb_Name : string;
  DistinctId : string;
  pb_Properties : gmap string string;
}.

Record RejectedEvent : Type := MkRejected { Index : Z; Reason : string }.

Record PublishResponse : Type := MkPublishResponse { Accepted : Z; Rejected : list RejectedEvent }.

(** The statuses the call ends with. *)
Inductive status : Type :=
  | RateLimited
  | QueueFull (accepted : Z)
  | ShuttingDown
  | NotIngest
  | Internal.

#[global] Instance status_eq_dec : EqDecision status.
Proof. solve_decision. Defined.

Inductive grpc_code : Type := ResourceExhausted | Unavailable | CodeInternal.

Definition code_of (s : status) : grpc_code :=
  match s with
  | RateLimited | QueueFull _ => ResourceExhausted
  | ShuttingDown | NotIngest => Unavailable
  | Internal => CodeInternal
  end.

(** ** [clientKey] *)

(** The request context: the [x-api-key] metadata and the peer's address. *)
Record context : Type := MkContext { api_keys : option (list string); peer_addr : option string }.

Definition clientKey (ctx : context) : string :=
  let from_peer :=
    match peer_addr ctx with
    | Some addr => match net.SplitHostPort addr with Some (host, _) => host | None => addr end
    | None => "unknown"%string
    end in
  match api_keys ctx with
  | Some (k :: _) => if decide (k ≠ ""%string) then k else from_peer
  | _ => from_peer
  end.

(** ** [Publish] *)

(** The [switch] that sets [reason]. *)
Definition reason (pe : pb_Event) : string :=
  if decide (EventId pe = ""%string) then "event_id is required"
  else if decide (pb_Name pe = ""%string) then "name is required"
  else "".

Definition to_event (now : clock.time) (pe : pb_Event) : Event :=
  store.MkEvent (EventId pe) (pb_Name pe) (DistinctId pe)
    (Some (store.AString <$> pb_Properties pe)) now.

Section publish.
Context {Q L : Type} {enq : queue.Enqueuer Q} {lim : ratelimit.Limiter L}.

Record Server : Type := MkServer { queue_of : Q; limiter : option L }.

Definition New (q : Q) (l : option L) : Server := MkServer q l.

Fixpoint publish_loop (now : clock.time) (i : Z) (pes : list pb_Event)
    (resp : PublishResponse) (q : Q) (m : metrics.t)
    : option (result status PublishResponse * Q * metrics.t) :=
  match pes with
  | [] => Some (Ok resp, q, m)
  | pe :: pes =>
      if decide (reason pe ≠ ""%string) then
        publish_loop now (i + 1) pes
          (MkPublishResponse (Accepted resp) (Rejected resp ++ [MkRejected (int32 i) (reason pe)]))
          q (metrics.reject "invalid" m)
      else
        match queue.enqueue (to_event now pe) q with
        | None => None
        | Some (q', None) =>
            publish_loop now (i + 1) pes
              (MkPublishResponse (int32 (Accepted resp + 1)) (Rejected resp)) q' (metrics.accept m)
        | Some (q', Some queue.ErrFull) =>
            Some (Err (QueueFull (Accepted resp)), q', metrics.reject "queue_full" m)
        | Some (q', Some queue.ErrClosed) => Some (Err ShuttingDown, q', metrics.reject "shutdown" m)
        | Some (q', Some queue.ErrUnavailable) => Some (Err NotIngest, q', metrics.reject "not_ingest" m)
        | Some (q', Some queue.ErrOther) => Some (Err Internal, q', m)
        end
  end.

(** [start] is read by the limiter, [now] stamps the events. *)
Definition Publish (start now : clock.time) (ctx : context) (pes : list pb_Event)
    (s : Server) (m : metrics.t) : option (result status PublishResponse * Server * metrics.t) :=
  let '(ok, l') :=
    match limiter s with
    | None => (true, None)
    | Some l => let '(ok, l') := ratelimit.Allow start (clientKey ctx) l in (ok, Some l')
    end in
  if negb ok then Some (Err RateLimited, MkServer (queue_of s) l', metrics.reject "rate_limited" m)
  else match publish_loop now 0 pes (MkPublishResponse 0 []) (queue_of s) m with
       | None => None
       | Some (r, q', m') => Some (r, MkServer q' l', m')
       end.

(** ** Specification *)

Definition valid (pe : pb_Event) : bool := bool_decide (reason pe = ""%string).

(** The events a batch stands for, in order. *)
Definition valid_events (now : clock.time) (pes : list pb_Event) : list Event :=
  omap (λ pe, if valid pe then Some (to_event now pe) else None) pes.

(** The report on the others, with their positions. *)
Fixpoint rejections (i : Z) (pes : list pb_Event) : list RejectedEvent :=
  match pes with
  | [] => []
  | pe :: pes =>
      if valid pe then rejections (i + 1) pes
      else MkRejected (int32 i) (reason pe) :: rejections (i + 1) pes
  end.

(** Every event of a list is taken by the queue. *)
Fixpoint enqueue_all (evs : list Event) (q : Q) : option Q :=
  match evs with
  | [] => Some q
  | e :: evs => match queue.enqueue e q with Some (q', None) => enqueue_all evs q' | _ => None end
  end.

Definition error_status (err : queue.error) (accepted : Z) : status :=
  match err with
  | queue.ErrFull => QueueFull accepted
  | queue.ErrClosed => ShuttingDown
  | queue.ErrUnavailable => NotIngest
  | queue.ErrOther => Internal
  end.

Lemma valid_false pe : valid pe = false ↔ reason pe ≠ ""%string.
Proof. unfold valid. apply bool_decide_eq_false. Qed.

Lemma int32_add a b : int32 (int32 a + b) = int32 (a + b).
Proof.
  unfold int32. f_equal.
  replace ((a + 2 ^ 31) mod 2 ^ 32 - 2 ^ 31 + b + 2 ^ 31) with ((a + 2 ^ 31) mod 2 ^ 32 + b) by lia.
  rewrite Zplus_mod_idemp_l. f_equal. lia.
Qed.

Lemma valid_events_cons now pe pes :
  valid_events now (pe :: pes) =
  (if valid pe then [to_event now pe] else []) ++ valid_events now pes.
Proof. unfold valid_events. simpl. by destruct (valid pe). Qed.

Lemma int32_idemp z : int32 (int32 z) = int32 z.
Proof. pose proof (int32_add z 0) as H. by rewrite !Z.add_0_r in H. Qed.

(** What a run of the loop did, whatever its result: the valid events split
    into the ones taken and the rest. *)
Lemma publish_loop_spec now i pes resp q m r q' m' :
  int32 (Accepted resp) = Accepted resp →
  publish_loop now i pes resp q m = Some (r, q', m') →
  ∃ taken rest q1, valid_events now pes = taken ++ rest ∧ enqueue_all taken q = Some q1 ∧
    metrics.EventsAccepted m' = metrics.EventsAccepted m + Z.of_nat (length taken) ∧
    match r with
    | Ok resp' => rest = [] ∧ q' = q1 ∧
        Accepted resp' = int32 (Accepted resp + Z.of_nat (length taken)) ∧
        Rejected resp' = Rejected resp ++ rejections i pes ∧
        metrics.rejected m' = metrics.rejected m + Z.of_nat (length (rejections i pes))
    | Err st => ∃ e err a, head rest = Some e ∧ queue.enqueue e q1 = Some (q', Some err) ∧
        st = error_status err a ∧ a = int32 (Accepted resp + Z.of_nat (length taken))
    end.
Proof.
  revert i resp q m. induction pes as [|pe pes IH]; intros i resp q m Hrng; simpl.
  { intros [= <- <- <-]. exists [], [], q. simpl. rewrite app_nil_r, !Z.add_0_r. by repeat split. }
  unfold valid_events. simpl. case_decide as Hre.
  - apply valid_false in Hre as ->. intros Hrun. apply IH in Hrun as (taken & rest & q1 & Hv & He & Ha & Hr); [|done].
    exists taken, rest, q1. split; [done|]. split; [done|]. split; [done|].
    destruct r as [resp'|st]; [|done]. destruct Hr as (? & ? & ? & Hrej & Hm). simpl in *.
    rewrite Hrej, <- app_assoc. rewrite metrics.rejected_reject in Hm. repeat split; [done..|lia].
  - assert (valid pe = true) as Hval.
    { destruct (valid pe) eqn:E; [done|]. by apply valid_false in E. }
    rewrite Hval. simpl.
    destruct (queue.enqueue (to_event now pe) q) as [[q0 [err|]]|] eqn:He; [| |done].
    + intros Hrun. exists [], (to_event now pe :: valid_events now pes), q.
      assert (r = Err (error_status err (Accepted resp)) ∧ q' = q0 ∧
        metrics.EventsAccepted m' = metrics.EventsAccepted m) as (-> & -> & ->).
      { by destruct err; injection Hrun as <- <- <-. }
      split; [done|]. split; [done|]. split; [simpl; lia|].
      exists (to_event now pe), err, (Accepted resp). simpl. by rewrite Z.add_0_r.
    + intros Hrun. apply IH in Hrun as (taken & rest & q1 & Hv & Hall & Ha & Hr); [|apply int32_idemp].
      simpl in *.
      assert (∀ x, int32 (int32 (x + 1) + Z.of_nat (length taken)) =
        int32 (x + Z.of_nat (S (length taken)))) as Hint.
      { intros x. rewrite int32_add. f_equal. lia. }
      exists (to_event now pe :: taken), rest, q1. split; [cbn [app]; by rewrite <- Hv|].
      split; [simpl; by rewrite He|]. split; [simpl length; lia|].
      destruct r as [resp'|st].
      * destruct Hr as (? & ? & Hacc & ? & ?). simpl length. rewrite Hacc, Hint. by repeat split.
      * destruct Hr as (e & err & a & ? & ? & ? & Hacc). exists e, err, a. simpl length.
        rewrite <- Hint. by repeat split.
Qed.

Lemma valid_rejections now i pes :
  (length (valid_events now pes) + length (rejections i pes) = length pes)%nat.
Proof.
  revert i. induction pes as [|pe pes IH]; intros i; [done|].
  rewrite valid_events_cons. cbn [rejections]. specialize (IH (i + 1)).
  destruct (valid pe); cbn [app length]; lia.
Qed.

(** The queue part of a call that was not rate limited. *)
Lemma Publish_loop start now ctx pes s m r s' m' :
  Publish start now ctx pes s m = Some (r, s', m') → r ≠ Err RateLimited →
  publish_loop now 0 pes (MkPublishResponse 0 []) (queue_of s) m = Some (r, queue_of s', m').
Proof.
  unfold Publish. destruct (match limiter s with Some _ => _ | None => _ end) as [ok l'].
  destruct ok; simpl; [|by intros [= <- <- <-]].
  destruct (publish_loop _ _ _ _ _ _) as [[[r0 q'] m0]|]; [|done]. by intros [= <- <- <-] _.
Qed.
End publish.

Lemma enqueue_all_cap evs q q' :
  queue.wf q → enqueue_all evs q = Some q' → queue.cap (queue.ch q') = queue.cap (queue.ch q).
Proof.
  revert q. induction evs as [|e evs IH]; intros q Hwf; simpl; [by intros [= <-]|].
  destruct (queue.enqueue e q) as [[q1 [err|]]|] eqn:He; [done| |done]. intros Hall.
  destruct (queue.step_spec (queue.OpEnqueue e) q Hwf) as (q2 & ob & Hs & Hwf2 & Hcap & _).
  unfold queue.enqueue, queue.memory_enqueuer in He. simpl in Hs. rewrite He in Hs.
  injection Hs as <- <-. by rewrite (IH q1 Hwf2 Hall).
Qed.

Lemma queue_full_length q q' e :
  queue.wf q → queue.enqueue e q = Some (q', Some queue.ErrFull) →
  length (queue.buf (queue.ch q)) = queue.cap (queue.ch q).
Proof.
  intros [_ Hle]. unfold queue.enqueue, queue.memory_enqueuer, queue.Enqueue, queue.try_send.
  repeat case_match; try done. intros _.
  match goal with H : (_ <? _)%nat = false |- _ => apply Nat.ltb_ge in H end. lia.
Qed.

(** An accepted list goes to the end of a memory queue. *)
Lemma enqueue_all_memory evs q q' :
  queue.wf q → enqueue_all evs q = Some q' →
  queue.wf q' ∧ queue.buf (queue.ch q') = queue.buf (queue.ch q) ++ evs.
Proof.
  revert q. induction evs as [|e evs IH]; intros q Hwf; simpl.
  { intros [= <-]. by rewrite app_nil_r. }
  destruct (queue.enqueue e q) as [[q1 [err|]]|] eqn:He; [done| |done]. intros Hall.
  destruct (queue.step_spec (queue.OpEnqueue e) q Hwf) as (q2 & ob & Hs & Hwf2 & _ & Hmv).
  unfold queue.enqueue, queue.memory_enqueuer in He. simpl in Hs. rewrite He in Hs.
  injection Hs as <- <-. destruct (IH q1 Hwf2 Hall) as [? ->]. split; [done|].
  simpl in Hmv. by rewrite <- Hmv, <- app_assoc.
Qed.

(** The limiter is asked once per call. *)
Lemma Publish_one_token {Q L} {enq : queue.Enqueuer Q} {lim : ratelimit.Limiter L}
    start now ctx pes (s s' : Server (Q := Q) (L := L)) m r m' l :
  limiter s = Some l → Publish start now ctx pes s m = Some (r, s', m') →
  limiter s' = Some (ratelimit.Allow start (clientKey ctx) l).2.
Proof.
  intros Hl. unfold Publish. rewrite Hl. destruct (ratelimit.Allow _ _ l) as [ok l'].
  destruct ok; simpl; [|by intros [= <- <- <-]].
  destruct (publish_loop _ _ _ _ _ _) as [[[r0 q'] m0]|]; [|done]. by intros [= <- <- <-].
Qed.

(** ** Properties *)

(** C27: a successful [Publish] accounts for every event of the batch.  The
    valid ones are at the end of the queue, in order; the invalid ones are
    reported by index with their reasons; the two counts add up to the size of
    the batch (below 2^31), and so do the metrics. *)
Theorem Publish_accounts {L} {lim : ratelimit.Limiter L} start now ctx pes
    (s s' : Server (Q := queue.Memory) (L := L)) m resp m' :
  queue.wf (queue_of s) → Z.of_nat (length pes) < 2 ^ 31 →
  Publish start now ctx pes s m = Some (Ok resp, s', m') →
  queue.buf (queue.ch (queue_of s')) =
    queue.buf (queue.ch (queue_of s)) ++ valid_events now pes ∧
  Accepted resp = Z.of_nat (length (valid_events now pes)) ∧
  Rejected resp = rejections 0 pes ∧
  Accepted resp + Z.of_nat (length (Rejected resp)) = Z.of_nat (length pes) ∧
  metrics.EventsAccepted m' = metrics.EventsAccepted m + Z.of_nat (length (valid_events now pes)) ∧
  metrics.rejected m' = metrics.rejected m + Z.of_nat (length (Rejected resp)).
Proof.
  intros Hwf Hlen Hp. apply Publish_loop, publish_loop_spec in Hp; [|done..].
  destruct Hp as (taken & rest & q1 & Hv & Hall & Ha & -> & Hq & Hacc & Hrej & Hm).
  rewrite app_nil_r in Hv. subst taken. simpl in Hacc, Hrej.
  destruct (enqueue_all_memory _ _ _ Hwf Hall) as [_ Hbuf]. rewrite Hq, Hbuf, Hacc, Hrej.
  pose proof (valid_rejections now 0 pes).
  rewrite int32_small by lia. repeat split; [lia|done|done].
Qed.

(** C28: a call that ends with an error has still put the first valid events in
    the queue, in order and without gaps, counted them, and stopped at one the
    queue refused (none of them, when the limiter refused the call): a retry of the
    batch resends them and storage dedupes. *)
Theorem Publish_error_prefix {L} {lim : ratelimit.Limiter L} start now ctx pes
    (s s' : Server (Q := queue.Memory) (L := L)) m st m' :
  queue.wf (queue_of s) → Publish start now ctx pes s m = Some (Err st, s', m') →
  ∃ taken rest, valid_events now pes = taken ++ rest ∧
    queue.buf (queue.ch (queue_of s')) = queue.buf (queue.ch (queue_of s)) ++ taken ∧
    metrics.EventsAccepted m' = metrics.EventsAccepted m + Z.of_nat (length taken) ∧
    match st with
    | RateLimited => taken = []
    | QueueFull a => rest ≠ [] ∧ a = int32 (Z.of_nat (length taken)) ∧
        length (queue.buf (queue.ch (queue_of s'))) = queue.cap (queue.ch (queue_of s))
    | _ => rest ≠ []
    end.
Proof.
  intros Hwf Hp. destruct (decide (st = RateLimited)) as [->|Hne].
  - exists [], (valid_events now pes). rewrite app_nil_r. revert Hp. unfold Publish.
    destruct (match limiter s with Some _ => _ | None => _ end) as [ok l'].
    destruct ok; simpl; [|by intros [= <- <-]; rewrite Z.add_0_r].
    destruct (publish_loop _ _ _ _ _ _) as [[[r0 q'] m0]|] eqn:Hl; [|done]. intros [= -> <- <-].
    apply publish_loop_spec in Hl as (? & ? & ? & _ & _ & _ & e & err & a & _ & _ & Hst & _); [|done].
    by destruct err.
  - apply Publish_loop, publish_loop_spec in Hp; [|done|congruence].
    destruct Hp as (taken & rest & q1 & Hv & Hall & Ha & e & err & a & Hhd & He & -> & Hacc).
    destruct (enqueue_all_memory _ _ _ Hwf Hall) as [Hwf1 Hbuf].
    pose proof (queue.refused_same _ _ _ _ He) as Heq. subst q1.
    exists taken, rest. split; [done|]. split; [done|]. split; [done|].
    assert (rest ≠ []) by (by destruct rest).
    destruct err; simpl; [|done..]. split; [done|]. split; [done|].
    rewrite <- (enqueue_all_cap _ _ _ Hwf Hall). by eapply queue_full_length.
Qed.

(** ** Concrete instances *)

Definition no_limit : ratelimit.Limiter unit := λ _ _ l, (true, l).

Definition server1 : Server (Q := queue.Memory) (L := unit) := MkServer queue.q1 None.
Definition ctx0 : context := MkContext None (Some "10.0.0.1:9"%string).
Definition good : pb_Event := MkPb "1" "click" "u" ∅.
Definition bad : pb_Event := MkPb "" "click" "u" ∅.

Lemma Publish_accounts_witness :
  queue.buf (queue.ch (queue.MkMemory (queue.MkChan 1 [to_event 5 good] false) false)) =
    [] ++ valid_events 5 [bad; good] ∧
  1 = Z.of_nat (length (valid_events 5 [bad; good])) ∧
  [MkRejected 0 "event_id is required"] = rejections 0 [bad; good] ∧
  1 + 1 = 2 ∧ 1 = 0 + Z.of_nat (length (valid_events 5 [bad; good])) ∧
  metrics.rejected (metrics.accept (metrics.reject "invalid" metrics.zero)) = 0 + 1.
Proof.
  exact (Publish_accounts (lim := no_limit) 4 5 ctx0 [bad; good] server1
    (MkServer (queue.MkMemory (queue.MkChan 1 [to_event 5 good] false) false) None)
    metrics.zero (MkPublishResponse 1 [MkRejected 0 "event_id is required"])
    (metrics.accept (metrics.reject "invalid" metrics.zero)) queue.q1_wf eq_refl eq_refl).
Defined.

Lemma Publish_error_prefix_witness :
  ∃ taken rest, valid_events 5 [good; good] = taken ++ rest ∧
    [to_event 5 good] = [] ++ taken ∧ 1 = 0 + Z.of_nat (length taken) ∧
    rest ≠ [] ∧ 1 = int32 (Z.of_nat (length taken)) ∧ 1%nat = 1%nat.
Proof.
  exact (Publish_error_prefix (lim := no_limit) 4 5 ctx0 [good; good] server1
    (MkServer (queue.MkMemory (queue.MkChan 1 [to_event 5 good] false) false) None)
    metrics.zero (QueueFull 1) (metrics.reject "queue_full" (metrics.accept metrics.zero))
    queue.q1_wf eq_refl).
Defined.
End grpcingest.
