(* ===== verification/JsonEvent.v ===== *)
(** * The JSON of events: [store.Event] and [eventRequest]

    What [json.Marshal], [json.Unmarshal] and [json.Decoder] do on the two
    structs that cross the wire, on top of [Json]: the fields with their tags,
    case-insensitive matching, null and repeated members, and the RFC 3339 text
    of the time stamp.  The instances make them the codec of the Kafka records,
    the decoder of the HTTP door and the encoder of the store. *)

From S2P Require Import Prelude Float64 Clock Utf8 Decimal Store Json Ingest Grpc Kafka.
From stdpp Require Import prelude list strings gmap sorting.
From Stdlib Require Import ZArith Lia.
Open Scope Z_scope.

Module json_event.
Import utf8 (bytes, text, appendString).
Import store (any, Event).
Import json.

(** ** Time stamps *)

Definition pad2 (n : Z) : list Z := [48 + n / 10; 48 + n mod 10].
Definition pad4 (n : Z) : list Z := pad2 (n / 100) ++ pad2 (n mod 100).

(** The nine digits of the nanoseconds, without trailing zeros. *)
Fixpoint frac_digits (fuel : nat) (n : Z) : list Z :=
  match fuel with
  | O => []
  | S fuel => if n =? 0 then [] else (48 + n / 10 ^ Z.of_nat fuel) :: frac_digits fuel (n mod 10 ^ Z.of_nat fuel)
  end.

(** The zone, from its offset in minutes: [Z07:00]. *)
Definition zone_text (off : Z) : list Z :=
  if off =? 0 then [90]
  else (if off <? 0 then 45 else 43) :: pad2 (Z.abs off / 60) ++ [58] ++ pad2 (Z.abs off mod 60).

(** [Time.MarshalJSON] of a time whose location is [off] minutes ahead of UTC;
    [None] is the error for a year that is not four digits wide, and for an hour
    of the zone that is out of range. *)
Definition marshal_time_in (off : Z) (t : clock.time) : option (list Z) :=
  let t := t + off * clock.Minute in
  let '(y, mo, d) := clock.civil_of_days (clock.utc_day t) in
  let s := t mod clock.Day / clock.Second in
  let ns := t mod clock.Second in
  if (0 <=? y) && (y <=? 9999) && (Z.abs off / 60 <? 24) then
    Some ([34] ++ pad4 y ++ [45] ++ pad2 mo ++ [45] ++ pad2 d ++ [84] ++
          pad2 (s / 3600) ++ [58] ++ pad2 (s / 60 mod 60) ++ [58] ++ pad2 (s mod 60) ++
          (if ns =? 0 then [] else 46 :: frac_digits 9 ns) ++ zone_text off ++ [34])
  else None.

(** The time stamps of events are in UTC. *)
Definition marshal_time : clock.time → option (list Z) := marshal_time_in 0.

Definition digit2 (l : list Z) : option (Z * list Z) :=
  match l with
  | a :: b :: l =>
      if decimal.is_digit a && decimal.is_digit b then Some (10 * (a - 48) + (b - 48), l) else None
  | _ => None
  end.

(** [getnum(s, false)]: one digit or two. *)
Definition digit12 (l : list Z) : option (Z * list Z) :=
  match digit2 l with
  | Some r => Some r
  | None => match l with a :: l => if decimal.is_digit a then Some (a - 48, l) else None | [] => None end
  end.

Definition expect (c : Z) (l : list Z) : option (list Z) :=
  match l with b :: l => if b =? c then Some l else None | [] => None end.

(** A fraction of a second, in nanoseconds; digits after the ninth are dropped. *)
Definition nanos (l : list Z) : Z * list Z :=
  match l with
  | p :: l' =>
      if (p =? 46) || (p =? 44) then
        match decimal.span_digits l' with
        | ([], _) => (0, l)
        | (ds, rest) =>
            let ds := take 9 ds in (decimal.digits_val ds * 10 ^ (9 - Z.of_nat (length ds)), rest)
        end
      else (0, l)
  | [] => (0, [])
  end.

(** [Z] or an offset, in seconds; hours up to 24 and minutes up to 60 pass. *)
Definition zone (l : list Z) : option Z :=
  match l with
  | c :: l' =>
      if c =? 90 then match l' with [] => Some 0 | _ => None end
      else '(h, l1) ← digit2 l'; l2 ← expect 58 l1; '(m, l3) ← digit2 l2;
           match l3 with
           | [] =>
               if (24 <? h) || (60 <? m) then None
               else if c =? 43 then Some (3600 * h + 60 * m)
               else if c =? 45 then Some (- (3600 * h + 60 * m)) else None
           | _ => None
           end
  | [] => None
  end.

(** [parseStrictRFC3339], whose strict checks are disabled: what [parseRFC3339]
    or [time.Parse] with the layout [RFC3339] accepts. *)
Definition parse_time (l : list Z) : option clock.time :=
  '(y1, l) ← digit2 l; '(y2, l) ← digit2 l; l ← expect 45 l;
  '(mo, l) ← digit2 l; l ← expect 45 l; '(d, l) ← digit2 l; l ← expect 84 l;
  '(h, l) ← digit12 l; l ← expect 58 l; '(mi, l) ← digit2 l; l ← expect 58 l; '(s, l) ← digit2 l;
  let y := 100 * y1 + y2 in
  let '(ns, l) := nanos l in
  off ← zone l;
  if clock.valid_civil y mo d && (h <? 24) && (mi <? 60) && (s <? 60)
  then Some (clock.days_of_civil y mo d * clock.Day + (3600 * h + 60 * mi + s - off) * clock.Second + ns)
  else None.

(** [Time.UnmarshalJSON] on a scanned value: [null] leaves the time alone; a
    string is taken between its quotes, without unescaping. *)
Definition unmarshal_time (v : value) (old : clock.time) : option clock.time :=
  match v with
  | VNull => Some old
  | VString raw => parse_time raw
  | _ => None
  end.

(** The zero [time.Time]: 0001-01-01 00:00:00 UTC. *)
Definition zero_time : clock.time := -62135596800 * clock.Second.

(** ** Structs *)

(** [foldName]: ASCII letters in upper case, and the two runes outside ASCII that
    fold to an ASCII letter. *)
Fixpoint fold_name (l : list Z) : list Z :=
  match l with
  | [] => []
  | a :: l1 =>
      match l1 with
      | b :: l2 =>
          if (a =? 0xC5) && (b =? 0xBF) then 83 :: fold_name l2              (* U+017F *)
          else
            match l2 with
            | c :: l3 =>
                if (a =? 0xE2) && (b =? 0x84) && (c =? 0xAA) then 75 :: fold_name l3  (* U+212A *)
                else (if utf8.between 97 122 a then a - 32 else a) :: fold_name l1
            | [] => (if utf8.between 97 122 a then a - 32 else a) :: fold_name l1
            end
      | [] => [if utf8.between 97 122 a then a - 32 else a]
      end
  end.

(** The member belongs to the field with that tag. *)
Definition is_field (key tag : string) : bool := bool_decide (fold_name (bytes key) = fold_name (bytes tag)).

(** A member decoded into a field of type [string], and of type [map[string]any];
    [None] is an error. *)
Definition set_string (v : value) (old : string) : option string :=
  match v with
  | VNull => Some old
  | VString raw => unquote_string raw
  | _ => None
  end.

Definition set_map (v : value) (old : option (gmap string any)) : option (option (gmap string any)) :=
  match v with
  | VNull => Some None
  | VObject kvs =>
      es ← all_some (map to_entry kvs);
      Some (Some (foldl (λ m '(k, x), <[k := x]> m) (default ∅ old) es))
  | _ => None
  end.

(** One member of an object that is decoded into an [Event]. *)
Definition event_field (e : Event) (kv : list Z * value) : option Event :=
  key ← unquote_string kv.1;
  let v := kv.2 in
  if is_field key "event_id" then
    s ← set_string v (store.EventID e);
    Some (store.MkEvent s (store.Name e) (store.DistinctID e) (store.Properties e) (store.TS e))
  else if is_field key "name" then
    s ← set_string v (store.Name e);
    Some (store.MkEvent (store.EventID e) s (store.DistinctID e) (store.Properties e) (store.TS e))
  else if is_field key "distinct_id" then
    s ← set_string v (store.DistinctID e);
    Some (store.MkEvent (store.EventID e) (store.Name e) s (store.Properties e) (store.TS e))
  else if is_field key "properties" then
    m ← set_map v (store.Properties e);
    Some (store.MkEvent (store.EventID e) (store.Name e) (store.DistinctID e) m (store.TS e))
  else if is_field key "ts" then
    t ← unmarshal_time v (store.TS e);
    Some (store.MkEvent (store.EventID e) (store.Name e) (store.DistinctID e) (store.Properties e) t)
  else Some e.

Definition zero_event : Event := store.MkEvent "" "" "" None zero_time.

Fixpoint fold_members {A} (f : A → list Z * value → option A) (a : A) (kvs : list (list Z * value)) : option A :=
  match kvs with [] => Some a | kv :: kvs => a' ← f a kv; fold_members f a' kvs end.

(** A value decoded into a struct: [null] changes nothing. *)
Definition decode_struct {A} (f : A → list Z * value → option A) (zero : A) (v : value) : option A :=
  match v with
  | VNull => Some zero
  | VObject kvs => fold_members f zero kvs
  | _ => None
  end.

(** [json.Unmarshal(r.Value, &e)] *)
Definition Unmarshal (s : string) : option Event :=
  v ← whole_value (bytes s); decode_struct event_field zero_event v.

(** [json.Marshal(e)] *)
Definition Marshal (e : Event) : option string :=
  p ← encode_map (store.Properties e);
  ts ← marshal_time (store.TS e);
  Some (text (123 :: join
    [member "event_id" (appendString (bytes (store.EventID e)));
     member "name" (appendString (bytes (store.Name e)));
     member "distinct_id" (appendString (bytes (store.DistinctID e)));
     member "properties" p;
     member "ts" ts] ++ [125])).

(** One member of an object that is decoded into an [eventRequest]. *)
Definition request_field (r : ingest.eventRequest) (kv : list Z * value) : option ingest.eventRequest :=
  key ← unquote_string kv.1;
  let v := kv.2 in
  if is_field key "event_id" then
    s ← set_string v (ingest.EventID r);
    Some (ingest.MkEventRequest s (ingest.Name r) (ingest.DistinctID r) (ingest.Properties r))
  else if is_field key "name" then
    s ← set_string v (ingest.Name r);
    Some (ingest.MkEventRequest (ingest.EventID r) s (ingest.DistinctID r) (ingest.Properties r))
  else if is_field key "distinct_id" then
    s ← set_string v (ingest.DistinctID r);
    Some (ingest.MkEventRequest (ingest.EventID r) (ingest.Name r) s (ingest.Properties r))
  else if is_field key "properties" then
    m ← set_map v (ingest.Properties r);
    Some (ingest.MkEventRequest (ingest.EventID r) (ingest.Name r) (ingest.DistinctID r) m)
  else Some r.

Definition zero_request : ingest.eventRequest := ingest.MkEventRequest "" "" "" None.

(** [json.NewDecoder(r.Body).Decode(&req)]: only the first value of the body
    counts.  The end of an object is seen at its brace; a top-level [null] needs
    one more byte or the end of the body. *)
Definition decode_request (s : string) (too_large : bool) : option ingest.eventRequest :=
  '(v, rest) ← first_value (bytes s);
  match v, rest with
  | VNull, [] => if too_large then None else Some zero_request
  | _, _ => decode_struct request_field zero_request v
  end.

#[global] Instance go_decoder : ingest.JsonDecoder := decode_request.

#[global] Instance go_codec : kafka.Codec := {|
  kafka.json_Marshal_event := Marshal;
  kafka.json_Unmarshal_event := Unmarshal;
|}.

(** [json.Marshal(e.Properties)], for a map that is not nil. *)
#[global] Instance go_json : store.Json := {|
  store.json_Marshal m := text <$> encode_map (Some m);
|}.

(** ** Time stamps read back *)

(** The instants whose UTC year is 0 to 9999. *)
Definition year_fits (t : clock.time) : bool :=
  let '(y, _, _) := clock.civil_of_days (clock.utc_day t) in (0 <=? y) && (y <=? 9999).

Lemma digit2_pad2 n l : 0 ≤ n ≤ 99 → digit2 (pad2 n ++ l) = Some (n, l).
Proof.
  intros Hn. unfold pad2, digit2. cbn [app].
  rewrite !(proj2 (decimal.is_digit_spec _)) by (Z.div_mod_to_equations; lia). simpl. do 2 f_equal.
  Z.div_mod_to_equations; lia.
Qed.

Lemma digit12_pad2 n l : 0 ≤ n ≤ 99 → digit12 (pad2 n ++ l) = Some (n, l).
Proof. intros Hn. unfold digit12. by rewrite digit2_pad2. Qed.

Lemma frac_digits_spec fuel n :
  0 ≤ n < 10 ^ Z.of_nat fuel →
  let ds := frac_digits fuel n in
  Forall (λ c, decimal.is_digit c = true) ds ∧ (length ds ≤ fuel)%nat ∧
  decimal.digits_val ds * 10 ^ (Z.of_nat fuel - Z.of_nat (length ds)) = n ∧ (n ≠ 0 → ds ≠ []).
Proof.
  revert n. induction fuel as [|fuel IH]; intros n Hn; cbn [frac_digits].
  { change (10 ^ Z.of_nat 0) with 1 in Hn. split_and!; [by apply Forall_nil|simpl; lia|change (decimal.digits_val []) with 0; lia|lia]. }
  destruct (Z.eqb_spec n 0) as [->|Hne]; [split_and!; [by apply Forall_nil|simpl; lia|done|done]|].
  rewrite Nat2Z.inj_succ, Z.pow_succ_r in Hn by lia. set (p := 10 ^ Z.of_nat fuel) in *.
  assert (0 < p) by (apply Z.pow_pos_nonneg; lia).
  pose proof (Z.div_mod n p ltac:(lia)) as Hdm. pose proof (Z.mod_pos_bound n p ltac:(lia)).
  assert (0 ≤ n / p < 10) by (split; [apply Z.div_pos; lia|apply Z.div_lt_upper_bound; lia]).
  destruct (IH (n mod p) ltac:(lia)) as (Hall & Hlen & Hv & _). set (ds := frac_digits fuel (n mod p)) in *.
  split_and!; [|simpl; lia| |done].
  - constructor; [apply decimal.is_digit_spec; lia|done].
  - rewrite decimal.digits_val_cons. cbn [length].
    replace (Z.of_nat (S fuel) - Z.of_nat (S (length ds))) with (Z.of_nat fuel - Z.of_nat (length ds)) by lia.
    rewrite Z.mul_add_distr_r, Hv, <- Z.mul_assoc, <- Z.pow_add_r by lia.
    replace (Z.of_nat (length ds) + (Z.of_nat fuel - Z.of_nat (length ds))) with (Z.of_nat fuel) by lia. fold p. lia.
Qed.

(** What can follow the seconds. *)
Definition after_seconds (z : list Z) : Prop :=
  match z with c :: _ => ¬ 48 ≤ c ≤ 57 ∧ c ≠ 46 ∧ c ≠ 44 | [] => False end.

Lemma nanos_frac ns z :
  0 ≤ ns < clock.Second → after_seconds z →
  nanos ((if ns =? 0 then [] else 46 :: frac_digits 9 ns) ++ z) = (ns, z).
Proof.
  intros Hns Hz. destruct z as [|c z]; [done|]. destruct Hz as (Hc & H46 & H44).
  assert (decimal.no_digit (c :: z)) as Hno.
  { simpl. destruct (decimal.is_digit c) eqn:E; [|done]. by apply decimal.is_digit_spec in E. }
  destruct (Z.eqb_spec ns 0) as [->|Hne].
  { unfold nanos. cbn [app]. by destruct (Z.eqb_spec c 46), (Z.eqb_spec c 44). }
  destruct (frac_digits_spec 9 ns) as (Hall & Hlen & Hv & Hnil); [done|].
  destruct (frac_digits 9 ns) as [|d ds] eqn:Hd; [by destruct (Hnil Hne)|].
  unfold nanos. cbn [app]. change ((46 =? 46) || (46 =? 44)) with true. cbn iota.
  rewrite app_comm_cons, decimal.span_digits_app by done. rewrite take_ge by done. change (Z.of_nat 9) with 9 in Hv. by rewrite Hv.
Qed.

Lemma plain_digit c : decimal.is_digit c = true → utf8.plain c.
Proof. intros H%decimal.is_digit_spec. unfold utf8.plain. lia. Qed.

Lemma plain_pad2 n : 0 ≤ n ≤ 99 → Forall utf8.plain (pad2 n).
Proof.
  intros Hn. repeat (apply Forall_cons; split); try by apply Forall_nil.
  all: apply plain_digit, decimal.is_digit_spec; Z.div_mod_to_equations; lia.
Qed.

Lemma zone_text_spec off :
  Z.abs off / 60 < 24 →
  after_seconds (zone_text off) ∧ Forall utf8.plain (zone_text off) ∧ zone (zone_text off) = Some (60 * off).
Proof.
  intros Hoff. unfold zone_text. destruct (Z.eqb_spec off 0) as [->|Hne].
  { split_and!; [simpl; lia| |done]. by apply Forall_singleton. }
  assert (0 ≤ Z.abs off / 60 < 24 ∧ 0 ≤ Z.abs off mod 60 < 60) as (Hh & Hm) by (Z.div_mod_to_equations; lia).
  split_and!.
  - destruct (off <? 0); simpl; lia.
  - apply Forall_cons. split; [by destruct (off <? 0)|].
    repeat (apply Forall_app; split); try (apply plain_pad2; lia). by apply Forall_singleton.
  - unfold zone. assert (((if off <? 0 then 45 else 43) =? 90) = false) as -> by (by destruct (off <? 0)).
    rewrite digit2_pad2 by lia. cbn [mbind option_bind app expect]. change (58 =? 58) with true. cbn iota.
    cbn [mbind option_bind]. rewrite <- (app_nil_r (pad2 (Z.abs off mod 60))), digit2_pad2 by lia.
    cbn [mbind option_bind].
    rewrite !(proj2 (Z.ltb_ge _ _)) by lia. cbn [orb].
    destruct (Z.ltb_spec off 0); cbn -[Z.div Z.modulo Z.mul Z.add]; f_equal; Z.div_mod_to_equations; lia.
Qed.

(** A date and a time of day in their text, and back. *)
Definition time_text (y mo d s ns off : Z) : list Z :=
  pad4 y ++ [45] ++ pad2 mo ++ [45] ++ pad2 d ++ [84] ++ pad2 (s / 3600) ++ [58] ++ pad2 (s / 60 mod 60) ++
  [58] ++ pad2 (s mod 60) ++ (if ns =? 0 then [] else 46 :: frac_digits 9 ns) ++ zone_text off.

Lemma time_text_plain y mo d s ns off :
  0 ≤ y ≤ 9999 → 1 ≤ mo ≤ 12 → 1 ≤ d ≤ 31 → 0 ≤ s < 86400 → 0 ≤ ns < clock.Second →
  Z.abs off / 60 < 24 → Forall utf8.plain (time_text y mo d s ns off).
Proof.
  intros Hy Hmo Hd Hs Hns Hoff. unfold time_text, pad4.
  repeat (apply Forall_app; split); try (apply plain_pad2; Z.div_mod_to_equations; lia);
    try (apply Forall_singleton; done); [|by apply zone_text_spec].
  destruct (Z.eqb_spec ns 0); [by apply Forall_nil|]. apply Forall_cons. split; [done|].
  destruct (frac_digits_spec 9 ns) as (Hall & _); [done|]. eapply Forall_impl; [exact Hall|]. apply plain_digit.
Qed.

Lemma parse_time_text y mo d s ns off :
  0 ≤ y ≤ 9999 → clock.valid_civil y mo d = true → 0 ≤ s < 86400 → 0 ≤ ns < clock.Second →
  Z.abs off / 60 < 24 →
  parse_time (time_text y mo d s ns off) =
    Some (clock.days_of_civil y mo d * clock.Day + s * clock.Second + ns - off * clock.Minute).
Proof.
  intros Hy Hvc Hs Hns Hoff. destruct (zone_text_spec off Hoff) as (Hz & _ & Hzone). pose proof (clock.valid_civil_range y mo d Hvc) as [Hmo Hd].
  unfold parse_time, time_text, pad4. rewrite <- !app_assoc.
  do 2 (rewrite digit2_pad2 by (Z.div_mod_to_equations; lia); cbn [mbind option_bind]).
  do 2 (cbn [app expect]; rewrite Z.eqb_refl; cbn [mbind option_bind];
        rewrite digit2_pad2 by lia; cbn [mbind option_bind]).
  cbn [app expect]. rewrite Z.eqb_refl. cbn [mbind option_bind].
  rewrite digit12_pad2 by (Z.div_mod_to_equations; lia). cbn [mbind option_bind].
  do 2 (cbn [app expect]; rewrite Z.eqb_refl; cbn [mbind option_bind];
        rewrite digit2_pad2 by (Z.div_mod_to_equations; lia); cbn [mbind option_bind]).
  rewrite nanos_frac by done. replace (100 * (y / 100) + y mod 100) with y by (Z.div_mod_to_equations; lia).
  rewrite Hzone. cbn [mbind option_bind]. rewrite Hvc.
  assert (s / 3600 < 24 ∧ s / 60 mod 60 < 60 ∧ s mod 60 < 60) as (H1 & H2 & H3) by (Z.div_mod_to_equations; lia).
  apply Z.ltb_lt in H1, H2, H3. rewrite H1, H2, H3. cbn [mbind option_bind andb].
  assert (3600 * (s / 3600) + 60 * (s / 60 mod 60) + s mod 60 = s) as -> by (Z.div_mod_to_equations; lia).
  f_equal. unfold clock.Minute, clock.Second. lia.
Qed.

(** [UnmarshalJSON] inverts [MarshalJSON] where the local year is 0 to 9999. *)
Lemma local_time_round_trip off t :
  Z.abs off / 60 < 24 → year_fits (t + off * clock.Minute) = true →
  ∃ body, marshal_time_in off t = Some (34 :: body ++ [34]) ∧ Forall utf8.plain body ∧ parse_time body = Some t.
Proof.
  intros Hoff. unfold year_fits, marshal_time_in. set (t' := t + off * clock.Minute).
  destruct (clock.civil_of_days (clock.utc_day t')) as [[y mo] d] eqn:Hc. intros Hy.
  rewrite Hy, (proj2 (Z.ltb_lt _ _) Hoff). apply clock.civil_round_trip in Hc as [Hvc Hdays].
  pose proof (clock.valid_civil_range y mo d Hvc) as [Hmo Hd].
  assert (0 ≤ y ≤ 9999) by (apply andb_true_iff in Hy as [? ?]; bool_props; lia).
  set (s := t' mod clock.Day / clock.Second). set (ns := t' mod clock.Second).
  assert (0 ≤ ns < clock.Second) as Hns by (apply Z.mod_pos_bound; done).
  assert (t' = clock.utc_day t' * clock.Day + s * clock.Second + ns) as Ht.
  { unfold s, ns, clock.utc_day, clock.Day, clock.Second. Z.div_mod_to_equations; lia. }
  assert (0 ≤ s < 86400) as Hs.
  { unfold s, clock.Day, clock.Second. Z.div_mod_to_equations; lia. }
  exists (time_text y mo d s ns off). split_and!.
  - cbn [andb]. do 2 f_equal. unfold time_text. by rewrite <- !app_assoc.
  - by apply time_text_plain.
  - rewrite parse_time_text by done. rewrite Hdays, <- Ht. f_equal. unfold t'. lia.
Qed.

(** ** Events read back *)

(** The properties an event can carry: valid text, finite numbers, nesting within
    the limit of the decoder. *)
Definition props_ok (p : option (gmap string any)) : Prop :=
  ∀ m k a, p = Some m → m !! k = Some a →
    utf8.valid_string k ∧ any_ok a ∧ (depth a + 2 ≤ max_depth)%nat.

Definition event_ok (e : Event) : Prop :=
  utf8.valid_string (store.EventID e) ∧ utf8.valid_string (store.Name e) ∧ utf8.valid_string (store.DistinctID e) ∧
  props_ok (store.Properties e) ∧ year_fits (store.TS e) = true.

Lemma max_depth_eq : max_depth = S (S (N.to_nat 9998)).
Proof. unfold max_depth. lia. Qed.

Lemma entries_perm m : entries m ≡ₚ map_to_list m.
Proof. apply merge_sort_Permutation. Qed.

Lemma insert_all_reverse {A} (es : list (string * A)) :
  foldl (λ m '(k, x), <[k := x]> m) (∅ : gmap string A) es = list_to_map (reverse es).
Proof.
  induction es as [|[k x] es IH] using rev_ind; [done|]. rewrite foldl_app, IH, reverse_snoc. done.
Qed.

(** The entries in any order make up the map. *)
Lemma insert_entries (m : gmap string any) : foldl (λ m '(k, x), <[k := x]> m) ∅ (entries m) = m.
Proof.
  rewrite insert_all_reverse. rewrite <- (list_to_map_to_list m) at 2. apply list_to_map_proper.
  - rewrite (reverse_Permutation (entries m)), entries_perm. apply NoDup_fst_map_to_list.
  - by rewrite (reverse_Permutation (entries m)), entries_perm.
Qed.

(** A value that decodes to a string fills a [string]. *)
Lemma set_string_string v s old : to_any v = Some (store.AString s) → set_string v old = Some s.
Proof. intros H. destruct v; simpl in *; repeat (case_match || simplify_option_eq); done. Qed.

Lemma string_field_reads d s :
  utf8.valid_string s → reads_as d (λ v, ∀ old, set_string v old = Some s) (appendString (bytes s)).
Proof.
  intros Hs. destruct (encode_scalar_reads d (store.AString s) Hs) as (txt & [= <-] & Hr).
  eapply reads_as_impl; [|exact Hr]. intros v Hv old. by apply set_string_string.
Qed.

Lemma local_time_reads d off t :
  Z.abs off / 60 < 24 → year_fits (t + off * clock.Minute) = true →
  ∃ txt, marshal_time_in off t = Some txt ∧ Forall utf8.is_byte txt ∧
    reads_as d (λ v, ∀ old, unmarshal_time v old = Some t) txt.
Proof.
  intros Hoff Hy. destruct (local_time_round_trip off t Hoff Hy) as (body & -> & Hplain & Hp).
  eexists. split_and!; [done| |].
  - apply Forall_cons. split; [done|]. apply Forall_app. split; [|by apply Forall_singleton].
    eapply Forall_impl; [exact Hplain|]. intros c. unfold utf8.plain, utf8.is_byte. lia.
  - apply reads_scalar; [done..|]. intros rest _. exists (VString body). split; [|by intros].
    unfold parse_scalar. change (34 =? 34) with true. cbn iota. rewrite <- app_assoc, utf8.scan_plain by done. simpl.
    by rewrite app_nil_r.
Qed.

Lemma props_read d p :
  (∀ m k a, p = Some m → m !! k = Some a → utf8.valid_string k ∧ any_ok a ∧ (depth a ≤ d)%nat) →
  ∃ txt, encode_map p = Some txt ∧ Forall utf8.is_byte txt ∧ reads_as (S d) (λ v, set_map v None = Some p) txt.
Proof.
  intros Hok. destruct p as [m|]; cbn [encode_map].
  - destruct (members_encode d (entries m)) as (xs & Hxs & Hl).
    { apply Forall_forall. intros [k a] Hka. rewrite entries_perm in Hka. apply elem_of_map_to_list in Hka.
      destruct (Hok m k a eq_refl Hka) as (Hk & Ha & Hd). split; [done|]. by apply encode_reads. }
    exists (123 :: join xs ++ [125]). split_and!.
    + cbn [encode]. by rewrite Hxs.
    + apply Forall_cons. split; [done|]. apply Forall_app. split; [|by apply Forall_singleton]. apply join_bytes.
      apply all_some_map in Hxs. apply Forall_forall. intros x Hx. apply list_elem_of_lookup in Hx as [i Hi].
      destruct (Forall2_lookup_r _ _ _ _ _ Hxs Hi) as ([k a] & Hka & He).
      apply list_elem_of_lookup_2 in Hka. rewrite entries_perm in Hka. apply elem_of_map_to_list in Hka.
      destruct (Hok m k a eq_refl Hka) as (_ & Ha & _). destruct (encode a) as [y|] eqn:Hy; [|done].
      injection He as <-. apply member_bytes. by eapply encode_bytes.
    + eapply reads_as_impl; [|by apply object_reads_as]. intros v (vs & -> & Hvs%is_member_entries).
      cbn [set_map]. rewrite Hvs. cbn [mbind option_bind default]. by rewrite insert_entries.
  - exists (bytes "null"). split_and!; [done|apply utf8.bytes_range|].
    apply (reads_scalar (S d) _ 110); [done..|]. intros rest _. by exists VNull.
Qed.

(** The members of a marshalled event. *)
Definition event_members (e : Event) : list member_spec :=
  [("event_id", λ v, ∀ old, set_string v old = Some (store.EventID e));
   ("name", λ v, ∀ old, set_string v old = Some (store.Name e));
   ("distinct_id", λ v, ∀ old, set_string v old = Some (store.DistinctID e));
   ("properties", λ v, set_map v None = Some (store.Properties e));
   ("ts", λ v, ∀ old, unmarshal_time v old = Some (store.TS e))]%string.

Lemma decode_event_members e vs : Forall2 is_member (event_members e) vs → fold_members event_field zero_event vs = Some e.
Proof.
  unfold event_members. intros H. repeat match goal with
  | H : Forall2 _ (_ :: _) _ |- _ => apply Forall2_cons_inv_l in H as ([? ?] & ? & [? ?] & ? & ->)
  | H : Forall2 _ [] _ |- _ => apply Forall2_nil_inv_l in H as ->
  end. cbn [fst snd] in *. cbn [fold_members]. unfold event_field. cbn [fst snd].
  repeat match goal with
  | H : unquote_string ?k = Some _ |- context [unquote_string ?k] => rewrite H; cbn [mbind option_bind]
  | |- context [is_field ?a ?b] => let r := eval vm_compute in (is_field a b) in change (is_field a b) with r; cbn iota
  | H : ∀ old, set_string ?v old = _ |- context [set_string ?v _] => rewrite H; cbn [mbind option_bind]
  | H : set_map ?v None = _ |- context [set_map ?v _] => rewrite H; cbn [mbind option_bind]
  | H : ∀ old, unmarshal_time ?v old = _ |- context [unmarshal_time ?v _] => rewrite H; cbn [mbind option_bind]
  | _ => progress cbn [store.EventID store.Name store.DistinctID store.Properties store.TS zero_event]
  end.
 destruct e. done.
Qed.

(** A marshalled event is one JSON value, and unmarshals to the event. *)
Lemma event_round_trip e :
  event_ok e → ∃ s, Marshal e = Some s ∧ Unmarshal s = Some e.
Proof.
  intros (Hid & Hname & Hdid & Hprops & Hy). set (d := N.to_nat 9998).
  destruct (props_read d (store.Properties e)) as (p & Hp & Hpb & Hpr).
  { intros m k a Hm Hk. destruct (Hprops m k a Hm Hk) as (? & ? & Hd). rewrite max_depth_eq in Hd.
    split_and!; done || (fold d in Hd; lia). }
  destruct (local_time_reads (S d) 0 (store.TS e)) as (ts & Hts & Htb & Htr); [done|by rewrite Z.add_0_r|].
  change (marshal_time (store.TS e) = Some ts) in Hts. unfold Marshal. rewrite Hp, Hts. cbn [mbind option_bind]. eexists. split; [reflexivity|].
  set (xs := [member "event_id" _; member "name" _; member "distinct_id" _; member "properties" p; member "ts" _]).
  assert (Forall2 (member_reads (S d)) (event_members e) xs) as Hl.
  { repeat constructor; try (by apply utf8.valid_ascii; repeat (apply Forall_cons; split)).
    all: eexists; (split; [reflexivity|]); try done; by apply string_field_reads. }
  assert (Forall utf8.is_byte (123 :: join xs ++ [125])) as Hb.
  { apply Forall_cons. split; [done|]. apply Forall_app. split; [|by apply Forall_singleton]. apply join_bytes.
    unfold xs. rewrite !Forall_cons. split_and!; try by apply Forall_nil.
    all: apply member_bytes; try done; apply utf8.appendString_bytes, utf8.bytes_range. }
  destruct (object_parses (S d) (event_members e) xs [] (2 * length (123%Z :: join xs ++ [125%Z]) + 1) Hl)
    as (vs & Hv & Hm); [done|].
  unfold Unmarshal, whole_value, first_value. rewrite utf8.bytes_text by done.
  rewrite max_depth_eq. fold d. rewrite Hv. cbn [mbind option_bind skip_ws decode_struct].
  by apply decode_event_members.
Qed.

(** ** The doors produce events that read back *)

Definition request_ok (r : ingest.eventRequest) : Prop :=
  utf8.valid_string (ingest.EventID r) ∧ utf8.valid_string (ingest.Name r) ∧
  utf8.valid_string (ingest.DistinctID r) ∧ props_ok (ingest.Properties r).

(** A scanned member of the outermost object. *)
Definition member_ok (kv : list Z * value) : Prop :=
  all_bytes kv.1 ∧ value_ok kv.2 ∧ (vdepth kv.2 + 1 ≤ max_depth)%nat.

Lemma set_string_valid v old s :
  value_ok v → utf8.valid_string old → set_string v old = Some s → utf8.valid_string s.
Proof. destruct v; simpl; try done; [by intros _ ? [= <-]|]. intros Hv _. by apply unquote_string_valid. Qed.

Lemma insert_all_lookup {A} (es : list (string * A)) (m : gmap string A) k a :
  foldl (λ m '(k, x), <[k := x]> m) m es !! k = Some a → m !! k = Some a ∨ (k, a) ∈ es.
Proof.
  revert m. induction es as [|[k' x] es IH]; intros m; simpl; [by left|].
  intros [H|H]%IH; [|right; by right].
  apply lookup_insert_Some in H as [[-> ->]|[_ H]]; [right; left|by left].
Qed.

Lemma set_map_ok v old p :
  value_ok v → (vdepth v + 1 ≤ max_depth)%nat → props_ok old → set_map v old = Some p → props_ok p.
Proof.
  intros Hv Hd Hold. destruct v as [| | | | |kvs]; try done; [by intros [= <-]|]. cbn [set_map].
  destruct (all_some (map to_entry kvs)) as [es|] eqn:Hes; [|done]. intros [= <-] m k a [= <-] [H|H]%insert_all_lookup.
  { destruct old as [m0|]; simpl in H; [by apply (Hold m0 k a)|by rewrite lookup_empty in H]. }
  apply all_some_map in Hes. apply list_elem_of_lookup in H as [i Hi].
  destruct (Forall2_lookup_r _ _ _ _ _ Hes Hi) as (kv & Hkv%list_elem_of_lookup_2 & He).
  cbn [value_ok vdepth] in Hv, Hd. rewrite max_depth_eq in Hd |- *. apply fold_and_Forall in Hv.
  rewrite Forall_forall in Hv. destruct (Hv kv Hkv) as [Hk Hok].
  assert (Forall (λ kv, (vdepth kv.2 ≤ N.to_nat 9998)%nat) kvs) as Hall by (apply fold_max_Forall; lia).
  rewrite Forall_forall in Hall.
  destruct (to_entry_ok (N.to_nat 9998) kv (k, a)) as (? & ? & ?); [by apply to_any_ok|done|done|by apply Hall|done|].
  simpl in *. split_and!; done || lia.
Qed.

Lemma request_field_ok r kv r' :
  request_ok r → member_ok kv → request_field r kv = Some r' → request_ok r'.
Proof.
  intros (H1 & H2 & H3 & H4) (Hk & Hv & Hd). unfold request_field.
  destruct (unquote_string kv.1) as [key|]; [|done]. simpl.
  destruct (is_field key "event_id"); [|destruct (is_field key "name"); [|destruct (is_field key "distinct_id");
    [|destruct (is_field key "properties"); [|intros [= <-]; done]]]].
  1-3: destruct (set_string kv.2 _) as [s|] eqn:Hs; [|done]; intros [= <-];
    apply set_string_valid in Hs; [|done..]; done.
  destruct (set_map kv.2 _) as [m|] eqn:Hs; [|done]. intros [= <-]. apply set_map_ok in Hs; done.
Qed.

Lemma fold_members_ok {A} (f : A → list Z * value → option A) (P : A → Prop) kvs a a' :
  (∀ a kv a', P a → member_ok kv → f a kv = Some a' → P a') →
  Forall member_ok kvs → P a → fold_members f a kvs = Some a' → P a'.
Proof.
  intros Hf Hkvs. revert a. induction Hkvs as [|kv kvs Hkv _ IH]; intros a Ha; simpl; [by intros [= <-]|].
  destruct (f a kv) as [a1|] eqn:H1; [|done]. simpl. apply IH. by eapply Hf.
Qed.

Lemma zero_request_ok : request_ok zero_request.
Proof. split_and!; [by apply utf8.valid_nil..|done]. Qed.

(** Whatever body is accepted, the request it decodes to has valid text and
    properties within the limits. *)
Lemma decode_request_ok s big r : decode_request s big = Some r → request_ok r.
Proof.
  unfold decode_request, first_value.
  destruct (parse_value _ max_depth (bytes s)) as [[v rest]|] eqn:Hp; [|done]. cbn [mbind option_bind].
  apply (proj1 (parse_ok _)) in Hp as (Hv & Hd & _); [|apply utf8.bytes_range].
  destruct v as [| | | | |kvs]; try done.
  { destruct rest; [destruct big; [done|]|]; intros [= <-]; apply zero_request_ok. }
  cbn [decode_struct]. intros Hf. eapply fold_members_ok; [exact request_field_ok| |exact zero_request_ok|exact Hf].
  cbn [value_ok vdepth] in *. apply fold_and_Forall in Hv. rewrite max_depth_eq in Hd.
  apply le_S_n, fold_max_Forall in Hd. rewrite Forall_forall in *. intros kv Hkv. destruct (Hv kv Hkv).
  specialize (Hd kv Hkv). unfold member_ok. rewrite max_depth_eq. split_and!; done || lia.
Qed.

(** The event of [postEvent] for a request, and the text that proto3 strings hold. *)
Definition event_of (r : ingest.eventRequest) (now : clock.time) : Event :=
  store.MkEvent (ingest.EventID r) (ingest.Name r) (ingest.DistinctID r) (ingest.Properties r) now.

Definition pb_ok (pe : grpcingest.pb_Event) : Prop :=
  utf8.valid_string (grpcingest.EventId pe) ∧ utf8.valid_string (grpcingest.pb_Name pe) ∧
  utf8.valid_string (grpcingest.DistinctId pe) ∧
  ∀ k v, grpcingest.pb_Properties pe !! k = Some v → utf8.valid_string k ∧ utf8.valid_string v.

(** The events that enter through one of the doors. *)
Inductive from_door : Event → Prop :=
  | from_http body r now :
      ingest.read_body body = Some r → year_fits now = true → from_door (event_of r now)
  | from_grpc pe now :
      pb_ok pe → year_fits now = true → from_door (grpcingest.to_event now pe).

Lemma from_door_ok e : from_door e → event_ok e.
Proof.
  intros [body r now Hr Hnow|pe now (H1 & H2 & H3 & H4) Hnow].
  - apply decode_request_ok in Hr as (? & ? & ? & ?). done.
  - unfold event_ok, grpcingest.to_event. simpl. split_and!; try done. intros m k a [= <-] Hk.
    apply lookup_fmap_Some in Hk as (v & <- & Hv). destruct (H4 k v Hv). split_and!; [done|done|].
    rewrite max_depth_eq. simpl. lia.
Qed.

(** ** Objects decoded field by field *)

Lemma set_key_map {A} k (x : A) m : list_to_map (M := gmap string A) (set_key k x m) = <[k := x]> (list_to_map m).
Proof.
  induction m as [|[k' x'] m IH]; [done|]. cbn [set_key]. case_decide as Heq; [subst k'; cbn; by rewrite insert_insert_eq|].
  case_decide; [done|]. cbn. rewrite IH. by rewrite insert_insert_ne.
Qed.

Lemma set_keys_map {A} (es : list (string * A)) m :
  list_to_map (M := gmap string A) (foldl (λ m '(k, x), set_key k x m) m es)
  = foldl (λ m '(k, x), <[k := x]> m) (list_to_map m) es.
Proof. revert m. induction es as [|[k x] es IH]; intros m; [done|]. cbn [foldl]. by rewrite IH, set_key_map. Qed.

(** A value that decodes to an object fills a [map[string]any] with its entries. *)
Lemma set_map_object v kvs : to_any v = Some (store.AObject kvs) → set_map v None = Some (Some (list_to_map kvs)).
Proof.
  destruct v as [| |n|raw|vs|ms]; try done; cbn [to_any set_map].
  - by destruct (decimal.ParseFloat n).
  - by destruct (unquote_string raw).
  - by destruct (all_some (map to_any vs)).
  - change (map (λ '(k, v), k ← unquote_string k; x ← to_any v; Some (k, x)) ms) with (map to_entry ms).
    destruct (all_some (map to_entry ms)) as [es|]; [|done]. intros [= <-].
    cbn [mbind option_bind default]. by rewrite set_keys_map.
Qed.

End json_event.
