(* ===== verification/Response.v ===== *)
(** * The text of the HTTP answers

    What [http.Error] and [writeJSON] of [internal/ingest] put on the wire for
    the answers of [Ingest], and what a client that decodes the JSON gets back.
    [scripts/chaos.sh] reads one of these answers with [sed]; the script is here
    too. *)

From S2P Require Import Prelude Float64 Hll Clock Strconv Utf8 Decimal Store StoreSpec StoreQuery StoreProps Json.
From S2P Require Import Queue Metrics Ratelimit Ingest JsonEvent.
From stdpp Require Import prelude list strings gmap sorting.
From Stdlib Require Import ZArith Lia Ascii.
Open Scope Z_scope.

Module response.
Import utf8 (bytes, text, appendString).
Import store_spec json json_event.

(** ** Writing *)

(** [strconv.AppendInt] and [AppendUint], base ten. *)
Definition appendInt (z : Z) : list Z := bytes (strconv.Itoa z).

Definition object (kxs : list (string * list Z)) : list Z :=
  123 :: join (map (λ kx, member kx.1 kx.2) kxs) ++ [125].
Definition array (xs : list (list Z)) : list Z := 91 :: join xs ++ [93].

(** A Go map is written in the order of its keys. *)
Definition key_le (a b : string * list Z) : Prop := String.le a.1 b.1.
#[global] Instance key_le_dec : RelDecision key_le := λ a b, decide (String.le _ _).
Definition json_map (kxs : list (string * list Z)) : list Z := object (merge_sort key_le kxs).

Section text.
(** The zone of the process ([time.Local], which pgx gives to the times it
    scans), in minutes, and the integer that the platform makes of a float out
    of range. *)
Context (local_zone unspecified : Z).

Definition name_count (nc : store.NameCount) : list Z :=
  object [("name", appendString (bytes (store.nc_Name nc))); ("count", appendInt (store.nc_Count nc))].

Definition unique_of (u : string * option Z) : store.NameCount :=
  store.MkNameCount u.1 (default (int64 unspecified) u.2).

(** A [timestamptz] as [time.Time]. *)
Definition scanned_time (us : Z) : clock.time := 1000 * us.

Definition minute_point (mp : store.MinutePoint) : option (list Z) :=
  minute ← marshal_time_in local_zone (scanned_time (store.mp_Minute mp));
  Some (object [("name", appendString (bytes (store.mp_Name mp))); ("minute", minute);
                ("count", appendInt (store.mp_Count mp))]).

(** [json.Marshal] of the value that the handler passes to [writeJSON]. *)
Definition marshal_body (b : ingest.body) : option (list Z) :=
  match b with
  | ingest.Text _ => None                         (* not a value for [writeJSON] *)
  | ingest.Status s => Some (json_map [("status", appendString (bytes s))])
  | ingest.CountOf event n =>
      Some (json_map [("event", appendString (bytes event)); ("count_today", appendInt n)])
  | ingest.UniquesOf event n =>
      Some (json_map [("event", appendString (bytes event));
                      ("unique_users_today", appendInt (default unspecified n))])
  | ingest.Stats totals uniques series =>
      points ← all_some (map minute_point series);
      Some (json_map [("totals_today", array (map name_count totals));
                      ("uniques_today", array (map (name_count ∘ unique_of) uniques));
                      ("series", array points)])
  end.

(** The body: [Encoder.Encode] ends the value with a newline, and writes nothing
    when the value has an error; [http.Error] ends the text with one too. *)
Definition body_bytes (b : ingest.body) : list Z :=
  match b with
  | ingest.Text s => bytes s ++ [10]
  | _ => match marshal_body b with Some x => x ++ [10] | None => [] end
  end.
End text.

(** ** Integers read back *)

(** A number literal without fraction and exponent. *)
Definition int_of (nb : decimal.number) : option Z :=
  match decimal.fp nb with
  | [] =>
      if decimal.ex nb =? 0
      then Some ((if decimal.neg nb then -1 else 1) * decimal.digits_val (decimal.ip nb)) else None
  | _ => None
  end.

Definition set_int (v : value) (old : Z) : option Z :=
  match v with VNull => Some old | VNumber nb => int_of nb | _ => None end.

Lemma undigit_code c d : clock.undigit c = Some d → utf8.code c = 48 + d ∧ 0 ≤ d ≤ 9.
Proof. unfold clock.undigit. fold (utf8.code c). case_match eqn:E; [|done]. intros [= <-]. lia. Qed.

Lemma digits_value l acc v :
  strconv.digits acc l = Some v →
  Forall (λ c, decimal.is_digit c = true) (utf8.code <$> l) ∧
  foldl (λ a c, 10 * a + (c - 48)) acc (utf8.code <$> l) = v.
Proof.
  revert acc. induction l as [|c l IH]; intros acc; cbn [strconv.digits]; [by intros [= <-]|].
  destruct (clock.undigit c) as [d|] eqn:Hd; [|done]. apply undigit_code in Hd as [Hc Hd]. cbn [mbind option_bind].
  intros [Hl Hv]%IH. rewrite fmap_cons. split.
  - constructor; [apply decimal.is_digit_spec; lia|done].
  - simpl. rewrite Hc. by replace (48 + d - 48) with d by lia.
Qed.

Lemma decimal_scans n :
  0 ≤ n < 10 ^ 20 →
  ∃ d ds, utf8.code <$> strconv.decimal n = d :: ds ∧ decimal.all_digits (d :: ds) ∧
    decimal.digits_val (d :: ds) = n ∧
    ∀ rest, decimal.no_digit rest → decimal.scan_int ((d :: ds) ++ rest) = Some (d :: ds, rest).
Proof.
  intros Hn. destruct (strconv.decimal_spec n Hn) as (c & l & Heq & _ & _ & Hd).
  apply digits_value in Hd as [Hall Hv]. rewrite Heq, fmap_cons in *.
  exists (utf8.code c), (utf8.code <$> l). split_and!; [done..|]. intros rest Hr.
  destruct (decide (n = 0)) as [->|Hne].
  - vm_compute in Heq. injection Heq as <- <-. done.
  - apply decimal.scan_int_digits; [done| |done].
    destruct (strconv.itoa_aux_head 20 n []) as (c' & l' & Heq' & Hc'); [lia|lia|].
    unfold strconv.decimal in Heq. rewrite Heq in Heq'. injection Heq' as -> _. intros H48. apply Hc'.
    rewrite <- (utf8.chr_code c'), H48. reflexivity.
Qed.

(** An integer is written as one number literal of that value. *)
Lemma int_reads d z :
  -10 ^ 20 < z < 10 ^ 20 → reads_as d (λ v, ∀ old, set_int v old = Some z) (appendInt z).
Proof.
  intros Hz. destruct (decimal_scans (Z.abs z)) as (a & ds & Heq & Hall & Hv & Hscan); [lia|].
  assert (appendInt z = (if z <? 0 then [45] else []) ++ a :: ds) as ->.
  { unfold appendInt, strconv.Itoa, bytes. rewrite String.list_ascii_of_string_of_list_ascii, <- Heq.
    destruct (Z.ltb_spec z 0); [rewrite Z.abs_neq, fmap_cons by lia|rewrite Z.abs_eq by lia]; done. }
  assert (decimal.is_digit a = true) as Ha by (by apply Forall_cons in Hall as [? _]).
  assert (48 ≤ a ≤ 57) as Ha' by (by apply decimal.is_digit_spec).
  assert (∃ c l, (if z <? 0 then [45] else []) ++ a :: ds = c :: l ∧ (c = 45 ∨ 48 ≤ c ≤ 57)) as (c & l & Hcl & Hc)
    by (destruct (z <? 0); eexists _, _; split; [reflexivity|lia|reflexivity|lia]).
  rewrite Hcl. apply reads_scalar; [|lia|lia|].
  - unfold starts, is_space. rewrite !andb_true_iff, !negb_true_iff, !orb_false_iff. lia.
  - intros rest (Hnd & Hfr & Hex)%decimal.ends_number_spec. rewrite app_comm_cons, <- Hcl, <- app_assoc. cbn [app].
    exists (VNumber (decimal.MkNumber (z <? 0) (a :: ds) [] 0)). split.
    + assert (decimal.scan_number ((if z <? 0 then [45] else []) ++ a :: ds ++ rest) =
              Some (decimal.MkNumber (z <? 0) (a :: ds) [] 0, rest)) as Hs.
      { rewrite decimal.scan_number_sign by done.
        eapply decimal.scan_unsigned_steps; [by apply Hscan|exact Hfr|exact Hex]. }
      unfold parse_scalar. assert ((if z <? 0 then [45] else []) ++ a :: ds ++ rest = c :: l ++ rest) as Hcl'
        by (by rewrite (app_comm_cons l), <- Hcl, <- app_assoc). rewrite Hcl' in *.
      destruct (Z.eqb_spec c 34), (Z.eqb_spec c 116), (Z.eqb_spec c 102), (Z.eqb_spec c 110); try lia. by rewrite Hs.
    + intros old. cbn [set_int int_of decimal.fp decimal.ex decimal.neg decimal.ip]. rewrite Hv.
      change (0 =? 0) with true. cbn iota. f_equal. destruct (Z.ltb_spec z 0); lia.
Qed.

(** ** A client that decodes the answers *)

Definition set_list {A} (f : value → option A) (v : value) : option (list A) :=
  match v with VNull => Some [] | VArray vs => all_some (map f vs) | _ => None end.

(** Into a struct with the fields [event] and [tag]. *)
Definition answer_field (tag : string) (a : string * Z) (kv : list Z * value) : option (string * Z) :=
  key ← unquote_string kv.1;
  if is_field key "event" then s ← set_string kv.2 a.1; Some (s, a.2)
  else if is_field key tag then n ← set_int kv.2 a.2; Some (a.1, n)
  else Some a.

Definition client_answer (tag : string) (body : list Z) : option (string * Z) :=
  v ← whole_value body; decode_struct (answer_field tag) (""%string, 0) v.

(** Into a [NameCount] and a [MinutePoint], by their own tags. *)
Definition name_count_field (a : store.NameCount) (kv : list Z * value) : option store.NameCount :=
  key ← unquote_string kv.1;
  if is_field key "name" then s ← set_string kv.2 (store.nc_Name a); Some (store.MkNameCount s (store.nc_Count a))
  else if is_field key "count" then n ← set_int kv.2 (store.nc_Count a); Some (store.MkNameCount (store.nc_Name a) n)
  else Some a.

(** The instant of the point, in nanoseconds. *)
Record point : Type := MkPoint { pt_Name : string; pt_Minute : clock.time; pt_Count : Z }.

Definition point_field (a : point) (kv : list Z * value) : option point :=
  key ← unquote_string kv.1;
  if is_field key "name" then s ← set_string kv.2 (pt_Name a); Some (MkPoint s (pt_Minute a) (pt_Count a))
  else if is_field key "minute" then t ← unmarshal_time kv.2 (pt_Minute a); Some (MkPoint (pt_Name a) t (pt_Count a))
  else if is_field key "count" then n ← set_int kv.2 (pt_Count a); Some (MkPoint (pt_Name a) (pt_Minute a) n)
  else Some a.

Abbreviation stats := (list store.NameCount * list store.NameCount * list point)%type.

Definition stats_field (a : stats) (kv : list Z * value) : option stats :=
  key ← unquote_string kv.1;
  let '(totals, uniques, series) := a in
  let counts := set_list (decode_struct name_count_field (store.MkNameCount "" 0)) in
  if is_field key "totals_today" then l ← counts kv.2; Some (l, uniques, series)
  else if is_field key "uniques_today" then l ← counts kv.2; Some (totals, l, series)
  else if is_field key "series" then
    l ← set_list (decode_struct point_field (MkPoint "" zero_time 0)) kv.2; Some (totals, uniques, l)
  else Some a.

Definition client_stats (body : list Z) : option stats :=
  v ← whole_value body; decode_struct stats_field ([], [], []) v.

(** ** Answers read back *)

Lemma object_text d kPs kxs :
  Forall2 (λ kP kx, kP.1 = kx.1 ∧ utf8.valid_string kx.1 ∧ reads_as d kP.2 kx.2) kPs kxs →
  reads_as (S d) (λ v, ∃ vs, v = VObject vs ∧ Forall2 is_member kPs vs) (object kxs).
Proof.
  intros Hl. apply object_reads_as. apply Forall2_fmap_r. eapply Forall2_impl; [exact Hl|].
  intros [k P] [k' x] (Hk & Hv & Hr). simpl in *. subst k'. split; [done|]. by exists x.
Qed.

(** The decoder of [Decode] sees the value in front of the newline. *)
Lemma whole_reads P txt : reads_as max_depth P txt → ∃ v, whole_value (txt ++ [10]) = Some v ∧ P v.
Proof.
  intros [_ H]. destruct (H [10] (2 * length (txt ++ [10%Z]) + 1)%nat) as (v & Hv & HP); [done|lia|].
  exists v. split; [|done]. unfold whole_value, first_value. by rewrite Hv.
Qed.

Lemma max_depth_3 : max_depth = S (S (S (N.to_nat 9997))).
Proof. unfold max_depth. lia. Qed.

(** Members of known keys go to their fields. *)
Ltac run_fields :=
  repeat match goal with
  | H : Forall2 _ (_ :: _) _ |- _ => apply Forall2_cons_inv_l in H as ([? ?] & ? & [? ?] & ? & ->)
  | H : Forall2 _ [] _ |- _ => apply Forall2_nil_inv_l in H as ->
  end; cbn [fst snd] in *; cbn [decode_struct fold_members fst snd];
  repeat match goal with
  | H : unquote_string ?k = Some _ |- context [unquote_string ?k] => rewrite H; cbn [mbind option_bind]
  | |- context [is_field ?a ?b] => let r := eval vm_compute in (is_field a b) in change (is_field a b) with r; cbn iota
  | H : ∀ old, ?f ?v old = _ |- context [?f ?v _] => rewrite H; cbn [mbind option_bind fst snd]
  | H : set_list _ ?v = _ |- context [set_list _ ?v] => rewrite H; cbn [mbind option_bind fst snd]
  end.

(** The members of an object one by one; what is left is how each value reads. *)
Ltac members :=
  repeat (apply Forall2_cons; split; [split; [done|split; [by apply utf8.ValidString_spec|cbn [fst snd]]]|]);
  try by apply Forall2_nil_2.

(** Keys are written in order. *)
Lemma count_keys x y : json_map [("event", x); ("count_today", y)] = object [("count_today", y); ("event", x)].
Proof. reflexivity. Qed.
Lemma uniques_keys x y :
  json_map [("event", x); ("unique_users_today", y)] = object [("event", x); ("unique_users_today", y)].
Proof. reflexivity. Qed.
Lemma stats_keys x y z :
  json_map [("totals_today", x); ("uniques_today", y); ("series", z)] =
    object [("series", z); ("totals_today", x); ("uniques_today", y)].
Proof. reflexivity. Qed.

(** An object decoded into a struct: enough that its members decode. *)
Lemma struct_round_trip {A} (f : A → list Z * value → option A) zero a kPs kxs d :
  Forall2 (λ kP kx, kP.1 = kx.1 ∧ utf8.valid_string kx.1 ∧ reads_as d kP.2 kx.2) kPs kxs →
  (∀ vs, Forall2 is_member kPs vs → fold_members f zero vs = Some a) →
  reads_as (S d) (λ v, decode_struct f zero v = Some a) (object kxs).
Proof.
  intros Hl Hf. eapply reads_as_impl; [|by apply object_text]. intros v (vs & -> & Hvs). by apply Hf.
Qed.

Definition is_string (s : string) (v : value) : Prop := ∀ old, set_string v old = Some s.
Definition is_int (n : Z) (v : value) : Prop := ∀ old, set_int v old = Some n.

Lemma answer_round_trip tag event n :
  tag = "count_today"%string ∨ tag = "unique_users_today"%string →
  utf8.valid_string event → -10 ^ 20 < n < 10 ^ 20 →
  client_answer tag (json_map [("event", appendString (bytes event)); (tag, appendInt n)] ++ [10])
  = Some (event, n).
Proof.
  intros Htag He Hn. pose proof (λ d, string_field_reads d event He) as Hs.
  pose proof (λ d, int_reads d n Hn) as Hi. unfold client_answer.
  enough (reads_as max_depth (λ v, decode_struct (answer_field tag) (""%string, 0) v = Some (event, n))
            (json_map [("event", appendString (bytes event)); (tag, appendInt n)])) as (v & -> & Hv)%whole_reads
    by done.
  rewrite max_depth_3. destruct Htag as [->| ->].
  - rewrite count_keys. apply (struct_round_trip _ _ _ [("count_today", is_int n); ("event", is_string event)]%string).
    + members; done.
    + unfold is_int, is_string, answer_field. intros vs Hvs. by run_fields.
  - rewrite uniques_keys. apply (struct_round_trip _ _ _ [("event", is_string event); ("unique_users_today", is_int n)]%string).
    + members; done.
    + unfold is_int, is_string, answer_field. intros vs Hvs. by run_fields.
Qed.

Lemma array_round_trip {A} (f : value → option A) d l xs :
  Forall2 (λ a x, reads_as d (λ v, f v = Some a) x) l xs →
  reads_as (S d) (λ v, set_list f v = Some l) (array xs).
Proof.
  intros Hl. eapply reads_as_impl; [|apply (array_reads_as d ((λ a v, f v = Some a) <$> l))].
  - intros v (vs & -> & Hvs). rewrite Forall2_fmap_l in Hvs. cbn [set_list]. clear Hl.
    induction Hvs as [|a v l' vs' Hv _ IH]; [done|]. simpl. unfold holds in Hv. by rewrite Hv, IH.
  - by apply Forall2_fmap_l.
Qed.

Definition name_count_ok (nc : store.NameCount) : Prop :=
  utf8.valid_string (store.nc_Name nc) ∧ -10 ^ 20 < store.nc_Count nc < 10 ^ 20.

Lemma name_count_reads d nc :
  name_count_ok nc →
  reads_as (S d) (λ v, decode_struct name_count_field (store.MkNameCount "" 0) v = Some nc) (name_count nc).
Proof.
  intros [Hs Hi]. apply (struct_round_trip _ _ _
    [("name", is_string (store.nc_Name nc)); ("count", is_int (store.nc_Count nc))]%string).
  - members; [by apply string_field_reads|by apply int_reads].
  - unfold is_int, is_string, name_count_field. intros vs Hvs. run_fields. by destruct nc.
Qed.

Definition point_of (mp : store.MinutePoint) : point :=
  MkPoint (store.mp_Name mp) (scanned_time (store.mp_Minute mp)) (store.mp_Count mp).

Definition point_ok (zone : Z) (mp : store.MinutePoint) : Prop :=
  utf8.valid_string (store.mp_Name mp) ∧ -10 ^ 20 < store.mp_Count mp < 10 ^ 20 ∧
  year_fits (scanned_time (store.mp_Minute mp) + zone * clock.Minute) = true.

Lemma point_reads d zone mp :
  Z.abs zone / 60 < 24 → point_ok zone mp →
  ∃ x, minute_point zone mp = Some x ∧
    reads_as (S d) (λ v, decode_struct point_field (MkPoint "" zero_time 0) v = Some (point_of mp)) x.
Proof.
  intros Hz (Hs & Hi & Hy). destruct (local_time_reads d zone (scanned_time (store.mp_Minute mp)) Hz Hy)
    as (tx & Htx & _ & Hread).
  unfold minute_point. rewrite Htx. cbn [mbind option_bind]. eexists. split; [done|].
  apply (struct_round_trip _ _ _
    [("name", is_string (store.mp_Name mp));
     ("minute", λ v, ∀ old, unmarshal_time v old = Some (scanned_time (store.mp_Minute mp)));
     ("count", is_int (store.mp_Count mp))]%string).
  - members; [by apply string_field_reads|done|by apply int_reads].
  - unfold is_int, is_string, point_field. intros vs Hvs. by run_fields.
Qed.

Lemma points_read d zone series :
  Z.abs zone / 60 < 24 → Forall (point_ok zone) series →
  ∃ xs, all_some (map (minute_point zone) series) = Some xs ∧
    Forall2 (λ p x, reads_as (S d) (λ v, decode_struct point_field (MkPoint "" zero_time 0) v = Some p) x)
      (map point_of series) xs.
Proof.
  intros Hz Hl. induction Hl as [|mp series Hmp _ (xs & Hxs & Hall)]; [by exists []|].
  destruct (point_reads d zone mp Hz Hmp) as (x & Hx & Hr). exists (x :: xs). simpl. rewrite Hx. simpl.
  rewrite Hxs. split; [done|by constructor].
Qed.

Lemma stats_round_trip zone unspecified totals uniques series :
  Z.abs zone / 60 < 24 → Forall name_count_ok totals →
  Forall (λ u, name_count_ok (unique_of unspecified u)) uniques → Forall (point_ok zone) series →
  client_stats (body_bytes zone unspecified (ingest.Stats totals uniques series)) =
    Some (totals, map (unique_of unspecified) uniques, map point_of series).
Proof.
  intros Hz Ht Hu Hs. set (d := N.to_nat 9997). destruct (points_read d zone series Hz Hs) as (xs & Hxs & Hall).
  unfold client_stats, body_bytes, marshal_body. rewrite Hxs. cbn [mbind option_bind].
  set (counts := decode_struct name_count_field (store.MkNameCount "" 0)).
  set (uniques' := map (unique_of unspecified) uniques). set (points := map point_of series) in *.
  set (dec := decode_struct point_field (MkPoint "" zero_time 0)) in *.
  assert (∀ l, Forall name_count_ok l → reads_as (S (S d)) (λ v, set_list counts v = Some l) (array (map name_count l)))
    as Hcounts.
  { intros l Hl. apply array_round_trip, Forall2_fmap_r, Forall_Forall2_diag.
    eapply Forall_impl; [exact Hl|]. intros nc Hnc. by apply name_count_reads. }
  rewrite <- (map_map (unique_of unspecified) name_count). fold uniques'. rewrite stats_keys.
  enough (reads_as max_depth (λ v, decode_struct stats_field ([], [], []) v = Some (totals, uniques', points))
    (object [("series", array xs); ("totals_today", array (map name_count totals));
             ("uniques_today", array (map name_count uniques'))]%string)) as (v & -> & Hv)%whole_reads by done.
  rewrite max_depth_3. apply (struct_round_trip _ _ _
    [("series", λ v, set_list dec v = Some points); ("totals_today", λ v, set_list counts v = Some totals);
     ("uniques_today", λ v, set_list counts v = Some uniques')]%string).
  - members; [by apply array_round_trip|by apply Hcounts|]. apply Hcounts. by apply Forall_fmap.
  - unfold stats_field. intros vs Hvs. fold counts dec. by run_fields.
Qed.

(** ** The answers of the handlers *)

Lemma pg_text_valid s : store.pg_text s = true → utf8.valid_string s.
Proof. unfold store.pg_text. intros [_ H]%andb_true_iff. by apply utf8.ValidString_spec. Qed.

Lemma query_Ok {A} (q : store.tables → result store.error A) s a s' :
  store.query q s = (Ok a, s') → q (store.db s) = Ok a ∧ store.db s' = store.db s.
Proof. unfold store.query. destruct (store.next (store.net s)) as [[] fs]; [|done..]. by intros [= -> <-]. Qed.

Lemma bigint_Ok z n : store.bigint z = Ok n → n = z ∧ - 2 ^ 63 ≤ n ≤ int64_max.
Proof. unfold store.bigint. case_match eqn:E; [|done]. intros [= <-]. lia. Qed.

Lemma result_all_elem {E A} (l : list (result E A)) as_ a :
  store.result_all l = Ok as_ → a ∈ as_ → Ok a ∈ l.
Proof.
  revert as_. induction l as [|[b|e] l IH]; intros as_; simpl; [by intros [= <-] ?%not_elem_of_nil| |done].
  destruct (store.result_all l) as [bs|]; [|done]. intros [= <-] [->|Ha]%elem_of_cons; [left|right; by eapply IH].
Qed.

Lemma Estimate_range math_Log sk x : hll.Estimate math_Log sk = Some x → 0 ≤ x < 2 ^ 64.
Proof.
  unfold hll.Estimate. destruct (fold_left _ _ _). unfold float64.to_uint64.
  destruct (float64.trunc _) as [y|]; [|done]. cbn [mbind option_bind]. case_match eqn:E; [|done]. intros [= <-]. lia.
Qed.

Section answers.
Context {pg : store.Postgres} {js : store.Json} (math_Log : float64.t → float64.t) (zone unspecified : Z).

(** A client that decodes a 200 gets the name that it asked for and the count of
    the query. *)
Lemma count_answer_reads_back now name s res s' :
  ingest.getCount now name s = (res, s') → ingest.code res = 200 →
  ∃ n, store.CountToday now name s = (Ok n, s') ∧ - 2 ^ 63 ≤ n ≤ int64_max ∧
    ingest.res_body res = ingest.CountOf name n ∧
    client_answer "count_today" (body_bytes zone unspecified (ingest.res_body res)) = Some (name, n).
Proof.
  unfold ingest.getCount. case_decide; [by intros [= <- <-]|].
  destruct (store.CountToday now name s) as [[n|] s1] eqn:Hq; intros [= <- <-]; [|done]. intros _.
  exists n. unfold store.CountToday in Hq. apply query_Ok in Hq as [Hq _].
  destruct (store.pg_text name) eqn:Ht; [|done]. apply bigint_Ok in Hq as [_ Hn].
  split_and!; [done|lia|lia|done|]. apply answer_round_trip; [by left|by apply pg_text_valid|].
  unfold int64_max in Hn. lia.
Qed.

Lemma uniques_answer_reads_back now name s res s' :
  0 ≤ unspecified < 2 ^ 64 →
  ingest.getUniques math_Log now name s = (res, s') → ingest.code res = 200 →
  ∃ u, store.UniquesToday math_Log now name s = (Ok u, s') ∧
    client_answer "unique_users_today" (body_bytes zone unspecified (ingest.res_body res))
    = Some (name, default unspecified u).
Proof.
  intros Hun. unfold ingest.getUniques. case_decide; [by intros [= <- <-]|].
  destruct (store.UniquesToday math_Log now name s) as [[u|] s1] eqn:Hq; intros [= <- <-]; [|done]. intros _.
  exists u. split; [done|]. unfold store.UniquesToday in Hq. apply query_Ok in Hq as [Hq _].
  destruct (store.pg_text name) eqn:Ht; [|done]. cbn [negb] in Hq.
  apply answer_round_trip; [by right|by apply pg_text_valid|].
  assert (∀ x, u = Some x → 0 ≤ x < 2 ^ 64) as Hu.
  { intros x ->. case_match; [case_match; [|done]|]; injection Hq as Hq; [by apply Estimate_range in Hq|lia]. }
  destruct u as [x|]; simpl; [specialize (Hu x eq_refl)|]; lia.
Qed.
(** The rows behind the three lists are text and numbers that can be written. *)
Lemma TotalsToday_ok L s now ncs s' :
  represents L (store.db s) → store.TotalsToday now s = (Ok ncs, s') →
  Forall name_count_ok ncs ∧ store.db s' = store.db s.
Proof.
  intros Hr Hq. unfold store.TotalsToday in Hq. apply query_Ok in Hq as [Hq Hdb]. split; [|done].
  destruct (store.result_all _) as [l|] eqn:Hl; [|done]. injection Hq as <-. apply Forall_forall.
  intros nc Hnc. assert (nc ∈ l) as Hin.
  { rewrite <- store.order_by_count_desc_perm, <- (take_drop 20 (store.order_by_count_desc l)). apply elem_of_app. by left. }
  apply (result_all_elem _ _ _ Hl) in Hin as ([name n] & Heq & Hn%elem_of_map_to_list)%list_elem_of_fmap.
  unfold store.name_count in Heq. destruct (store.bigint _) as [m|] eqn:Hb; [|done]. injection Heq as ->.
  apply bigint_Ok in Hb as [_ Hm]. unfold int64_max in Hm. split; [|simpl; lia].
  apply pg_text_valid. by apply (store_query.totals_text L _ _ _ _ Hr Hn).
Qed.

Lemma UniquesTodayAll_ok L s now l s' :
  represents L (store.db s) → store.UniquesTodayAll math_Log now s = (Ok l, s') →
  Forall (λ u, name_count_ok (unique_of unspecified u)) l ∧ store.db s' = store.db s.
Proof.
  intros Hr Hq. unfold store.UniquesTodayAll in Hq. apply query_Ok in Hq as [Hq Hdb]. split; [|done].
  apply Forall_forall. intros u Hu. apply (result_all_elem _ _ _ Hq) in Hu.
  apply list_elem_of_fmap in Hu as ([[name day] raw] & Heq & [_ Hin%elem_of_map_to_list]%list_elem_of_filter).
  unfold store.unique_count in Heq. destruct (hll.FromBytes _) as [sk|]; [|done]. injection Heq as ->. split; simpl.
  - apply pg_text_valid, (store_query.ids_text L (store.db s) name day Hr). intros Hnil.
    by rewrite (rep_uniques L _ Hr), Hnil in Hin.
  - unfold int64_max in *. pose proof int64_range as Hi. unfold int64_max in Hi.
    destruct (hll.Estimate math_Log sk) as [x|]; cbn -[int64]; [specialize (Hi x)|specialize (Hi unspecified)]; lia.
Qed.

Definition minutes_fit (t : store.tables) : Prop :=
  ∀ k n, store.event_counts_minute t !! k = Some n →
    year_fits (scanned_time k.2 + zone * clock.Minute) = true.

Lemma Series_ok L s now window l s' :
  represents L (store.db s) → Z.of_nat (size (store.events (store.db s))) ≤ int64_max → minutes_fit (store.db s) →
  store.Series now window s = (Ok l, s') → Forall (point_ok zone) l.
Proof.
  intros Hr Hsize Hfit Hq. unfold store.Series in Hq. apply query_Ok in Hq as [Hq _]. injection Hq as <-.
  apply Forall_forall. intros mp Hmp. rewrite store.order_by_minute_name_perm in Hmp.
  apply list_elem_of_omap in Hmp as ([[name minute] n] & Hin%elem_of_map_to_list & Hmp).
  case_match; [|done]. injection Hmp as <-. split_and!; simpl.
  - apply pg_text_valid. by apply (store_query.rollup_text L _ _ _ _ Hr Hin).
  - rewrite (rep_rollup L _ Hr), histogram_lookup in Hin. case_match; [done|]. injection Hin as <-.
    pose proof (count_nonneg (λ y, bool_decide (y = (name, minute))) (map store.bucket (rows (store.events (store.db s))))).
    unfold occurrences. lia.
  - rewrite (rep_rollup L _ Hr), histogram_lookup in Hin. case_match; [done|]. injection Hin as <-.
    pose proof (count_rows_le_size (λ y, bool_decide (y = (name, minute))) (store.events (store.db s))).
    unfold occurrences, int64_max in *. lia.
  - apply (Hfit (name, minute) n). done.
Qed.

(** C36: the data behind the dashboard survives its encoding.  Over tables that
    represent a log, a 200 of [GET /v1/stats] is one JSON value, and a client
    that decodes it by the tags of [NameCount] and [MinutePoint] gets the totals,
    the estimates and the points that the three queries returned, in their
    order: the names byte for byte, the counts exactly, and each minute as the
    same instant whatever the zone of the process is. *)
Theorem stats_answer_reads_back L s t1 t2 t3 res s' :
  represents L (store.db s) → Z.of_nat (size (store.events (store.db s))) ≤ int64_max →
  minutes_fit (store.db s) → Z.abs zone / 60 < 24 →
  ingest.getStats math_Log t1 t2 t3 s = (res, s') → ingest.code res = 200 →
  ∃ totals uniques series s1 s2,
    store.TotalsToday t1 s = (Ok totals, s1) ∧ store.UniquesTodayAll math_Log t2 s1 = (Ok uniques, s2) ∧
    store.Series t3 (15 * clock.Minute) s2 = (Ok series, s') ∧
    client_stats (body_bytes zone unspecified (ingest.res_body res)) =
      Some (totals, map (unique_of unspecified) uniques, map point_of series).
Proof.
  intros Hr Hsize Hfit Hz. unfold ingest.getStats.
  destruct (store.TotalsToday t1 s) as [[totals|] s1] eqn:H1; [|by intros [= <- <-]].
  destruct (store.UniquesTodayAll math_Log t2 s1) as [[uniques|] s2] eqn:H2; [|by intros [= <- <-]].
  destruct (store.Series t3 _ s2) as [[series|] s3] eqn:H3; intros [= <- <-]; [|done]. intros _.
  exists totals, uniques, series, s1, s2. split_and!; [done..|].
  destruct (TotalsToday_ok L s t1 totals s1 Hr H1) as [Ht Hdb1]. rewrite <- Hdb1 in *.
  destruct (UniquesTodayAll_ok L s1 t2 uniques s2 Hr H2) as [Hu Hdb2]. rewrite <- Hdb2 in *.
  apply stats_round_trip; [done..|]. by apply (Series_ok L s2 t3 (15 * clock.Minute) series s3).
Qed.
End answers.

Section witnesses.
#[local] Existing Instance store_props.utc_server.
#[local] Existing Instance store_props.flat_json.
Import store_props.

(** The stats after the batch of [StoreProps], from a process one hour ahead. *)
Definition stats_reply : ingest.response * store.Store := ingest.getStats (λ x, x) t0 t0 t0 after_batch.

Lemma stats_reply_code : ingest.code stats_reply.1 = 200.
Proof. vm_compute. reflexivity. Qed.

Lemma after_batch_minutes : minutes_fit 60 (store.db after_batch).
Proof.
  assert (map_Forall (λ k _, year_fits (scanned_time k.2 + 60 * clock.Minute) = true)
            (store.event_counts_minute (store.db after_batch))) as H; [|exact H].
  apply (bool_decide_unpack _). vm_compute. exact I.
Qed.

Lemma stats_answer_reads_back_witness :
  ∃ totals uniques series s1 s2,
    store.TotalsToday t0 after_batch = (Ok totals, s1) ∧ store.UniquesTodayAll (λ x, x) t0 s1 = (Ok uniques, s2) ∧
    store.Series t0 (15 * clock.Minute) s2 = (Ok series, stats_reply.2) ∧
    client_stats (body_bytes 60 0 (ingest.res_body stats_reply.1)) =
      Some (totals, map (unique_of 0) uniques, map point_of series).
Proof.
  apply (stats_answer_reads_back (λ x, x) 60 0 [e1; e2; e1] after_batch t0 t0 t0 stats_reply.1 stats_reply.2).
  - exact after_batch_represents.
  - vm_compute. discriminate.
  - exact after_batch_minutes.
  - reflexivity.
  - apply surjective_pairing.
  - exact stats_reply_code.
Defined.
End witnesses.

End response.
