(* ===== verification/Loadgen.v ===== *)
(** * [cmd/loadgen]: the load generator

    The generator is the other half of the chaos test: it fires events at the
    ingest endpoint and reports how many it sent, and the test compares that
    number with the count in the database.  Here: the shared counters, the
    senders with their atomic operations one at a time, the pacing loop and the
    report.  The target is outside the model; each request draws an answer
    ([None] for a transport error, else the status code) and, as ghost state,
    whether the event reached the service. *)

From S2P Require Import Prelude Float64 Clock Strconv.
From stdpp Require Import prelude list strings gmap sorting.
From Stdlib Require Import ZArith Lia Ascii.
Open Scope Z_scope.

Module loadgen.

(** ** Flags and payloads *)

Record flags : Type := MkFlags {
  rate : Z;
  duration : Z;
  workers : Z;
  eventName : string;
  dupes : Z;
  exact : bool;
}.

(** The values of the flags that are not given. *)
Definition default_flags : flags := MkFlags 1000 (10 * clock.Second) 50 "" 0 false.

Definition names (f : flags) : list string :=
  if decide (eventName f = ""%string)
  then ["buy_click"; "page_view"; "signup"; "song_play"; "add_to_cart"]%string
  else [eventName f].

Record body : Type := MkBody { event_id : string; name : string; distinct_id : string }.

(** [fmt.Sprintf("%d-%d", time.Now().UnixNano(), rng.Int63())] *)
Definition make_id (now rnd : Z) : string :=
  (strconv.Itoa now +:+ "-" +:+ strconv.Itoa rnd)%string.

(** The payload built from the clock and three draws of the generator; [None]
    for a draw that [Int63] or [Intn] cannot give. *)
Definition make_body (f : flags) (now rnd ix who : Z) : option body :=
  if (0 <=? now) && (now <=? int64_max) && (0 <=? rnd) && (rnd <=? int64_max)
     && (0 <=? ix) && (0 <=? who) && (who <? 10000)
  then n ← names f !! Z.to_nat ix;
       Some (MkBody (make_id now rnd) n ("user_" +:+ strconv.Itoa who)%string)
  else None.

(** ** The state *)

(** The two sends of a job, and where a sender stands in them. *)
Inductive send_of : Type := Original | Duplicate.

Inductive sender : Type :=
  | Idle                                              (* [for range jobs] *)
  | Posting (c : send_of) (b : body)                  (* [client.Post], first time *)
  | Backing_off (c : send_of) (b : body) (took : Z)   (* 503: [retried] is incremented, then sleep *)
  | Reposting (c : send_of) (b : body) (took : Z)     (* [client.Post] again *)
  | Failing (c : send_of) (b : body)                  (* [atomic.AddInt64(&failed, 1)] *)
  | Counting (c : send_of) (b : body) (took : Z)      (* [atomic.AddInt64(&sent, 1)] *)
  | Recording (c : send_of) (b : body) (took : Z)     (* the locked [append] *)
  | Rolling (b : body)                                (* [*dupes > 0 && rng.Intn(100) < *dupes] *)
  | Uncounting                                        (* [atomic.AddInt64(&sent, -1)] *)
  | Exited.

#[global] Instance body_eq_dec : EqDecision body.
Proof. solve_decision. Defined.
#[global] Instance send_of_eq_dec : EqDecision send_of.
Proof. solve_decision. Defined.
#[global] Instance sender_eq_dec : EqDecision sender.
Proof. solve_decision. Defined.

(** The main goroutine: in the pacing loop, in [wg.Wait()], past it. *)
Inductive phase : Type := Pacing | Waiting | Reporting.

(** What the proofs speak about and the program does not store: the draws behind
    the ids, the events whose original send succeeded or failed, how many second
    sends failed, and the events that reached the service. *)
Record ghost : Type := MkGhost {
  draws : list (Z * Z);
  confirmed : list string;
  refused : list string;
  failed_copies : Z;
  reached : list string;
}.

Record world : Type := MkWorld {
  jobs : Z;                    (* tokens in the channel *)
  closed : bool;
  sent : Z;
  failed : Z;
  retried : Z;
  latencies : list Z;
  senders : list sender;
  main : phase;
  gh : ghost;
}.

(** Up to the pacing loop; [None] for a panic: a negative channel size, the
    division by a zero rate, a ticker without a positive period. *)
Definition period (f : flags) : option Z :=
  if rate f =? 0 then None else Some (Z.quot clock.Second (rate f)).

Definition start (f : flags) : option world :=
  if rate f <? 0 then None else
  d ← period f;
  if d <=? 0 then None else
  Some (MkWorld 0 false 0 0 0 [] (replicate (Z.to_nat (workers f)) Idle) Pacing (MkGhost [] [] [] 0 [])).

(** ** Senders *)

Definition set_sender (i : nat) (s : sender) (w : world) : world :=
  MkWorld (jobs w) (closed w) (sent w) (failed w) (retried w) (latencies w) (<[i := s]> (senders w))
    (main w) (gh w).

Definition add_sent (z : Z) (w : world) : world :=
  MkWorld (jobs w) (closed w) (sent w + z) (failed w) (retried w) (latencies w) (senders w) (main w) (gh w).

Definition add_retried (w : world) : world :=
  MkWorld (jobs w) (closed w) (sent w) (failed w) (retried w + 1) (latencies w) (senders w) (main w) (gh w).

Definition add_failed (c : send_of) (id : string) (w : world) : world :=
  let g := gh w in
  MkWorld (jobs w) (closed w) (sent w) (failed w + 1) (retried w) (latencies w) (senders w) (main w)
    (match c with
     | Original => MkGhost (draws g) (confirmed g) (id :: refused g) (failed_copies g) (reached g)
     | Duplicate => MkGhost (draws g) (confirmed g) (refused g) (failed_copies g + 1) (reached g)
     end).

Definition append_latency (took : Z) (w : world) : world :=
  MkWorld (jobs w) (closed w) (sent w) (failed w) (retried w) (latencies w ++ [took]) (senders w) (main w) (gh w).

Definition take_job (now rnd : Z) (w : world) : world :=
  let g := gh w in
  MkWorld (jobs w - 1) (closed w) (sent w) (failed w) (retried w) (latencies w) (senders w) (main w)
    (MkGhost ((now, rnd) :: draws g) (confirmed g) (refused g) (failed_copies g) (reached g)).

(** The ghost effect of an answer: did the event reach the service, and is this
    the success of an original send? *)
Definition answered (c : send_of) (id : string) (got_in ok : bool) (w : world) : world :=
  let g := gh w in
  MkWorld (jobs w) (closed w) (sent w) (failed w) (retried w) (latencies w) (senders w) (main w)
    (MkGhost (draws g)
       (match c, ok with Original, true => id :: confirmed g | _, _ => confirmed g end)
       (refused g) (failed_copies g)
       (if got_in then id :: reached g else reached g)).

(** The service takes exactly the events it answers with a status below 300; a
    request whose answer was lost may have been taken or not. *)
Definition honest (r : option Z) (got_in : bool) : bool :=
  match r with Some code => Bool.eqb got_in (code <? 300) | None => true end.

(** [send] returns [ok] to the job. *)
Definition return_to (c : send_of) (b : body) (ok : bool) : sender :=
  match c with
  | Original => if ok then Rolling b else Idle
  | Duplicate => Uncounting
  end.

(** What a step draws: the clock and the dice, or the answer of the target. *)
Inductive choice : Type :=
  | Draw (now rnd ix who : Z)
  | Answer (r : option Z) (took : Z) (got_in : bool)
  | Roll (n : Z)
  | Continue.

(** After the first request. *)
Definition first_answer (c : send_of) (b : body) (r : option Z) (took : Z) : sender :=
  match r with
  | None => Failing c b
  | Some code =>
      if code =? 503 then Backing_off c b took
      else if 300 <=? code then Failing c b
      else Counting c b took
  end.

(** After the one retry. *)
Definition second_answer (c : send_of) (b : body) (r : option Z) (took : Z) : sender :=
  match r with
  | None => Failing c b
  | Some code => if 300 <=? code then Failing c b else Counting c b took
  end.

Definition is_counting (s : sender) : bool := match s with Counting _ _ _ => true | _ => false end.

(** One atomic operation of sender [i]; [None] when it is blocked, has exited,
    or the choice does not fit. *)
Definition sender_step (f : flags) (i : nat) (ch : choice) (w : world) : option world :=
  match senders w !! i, ch with
  | Some Idle, Draw now rnd ix who =>
      if 0 <? jobs w then
        b ← make_body f now rnd ix who; Some (set_sender i (Posting Original b) (take_job now rnd w))
      else if closed w then Some (set_sender i Exited w)
      else None
  | Some (Posting c b), Answer r took got_in =>
      if honest r got_in then
        let s := first_answer c b r took in
        Some (set_sender i s (answered c (event_id b) got_in (is_counting s) w))
      else None
  | Some (Backing_off c b took), Continue => Some (set_sender i (Reposting c b took) (add_retried w))
  | Some (Reposting c b took), Answer r _ got_in =>
      if honest r got_in then
        let s := second_answer c b r took in
        Some (set_sender i s (answered c (event_id b) got_in (is_counting s) w))
      else None
  | Some (Failing c b), Continue => Some (set_sender i (return_to c b false) (add_failed c (event_id b) w))
  | Some (Counting c b took), Continue => Some (set_sender i (Recording c b took) (add_sent 1 w))
  | Some (Recording c b took), Continue => Some (set_sender i (return_to c b true) (append_latency took w))
  | Some (Rolling b), Roll n =>
      if (0 <=? n) && (n <? 100) then
        Some (set_sender i (if (0 <? dupes f) && (n <? dupes f) then Posting Duplicate b else Idle) w)
      else None
  | Some Uncounting, Continue => Some (set_sender i Idle (add_sent (-1) w))
  | _, _ => None
  end.

(** ** The pacing loop *)

(** A tick: a token if the channel has room, else the tick is skipped. *)
Definition tick (f : flags) (w : world) : world :=
  MkWorld (if jobs w <? rate f then jobs w + 1 else jobs w) (closed w) (sent w) (failed w) (retried w)
    (latencies w) (senders w) (main w) (gh w).

(** The deadline: [break loop], [close(jobs)]. *)
Definition deadline (w : world) : world :=
  MkWorld (jobs w) true (sent w) (failed w) (retried w) (latencies w) (senders w) Waiting (gh w).

Definition all_exited (w : world) : bool := forallb (λ s, bool_decide (s = Exited)) (senders w).

(** [wg.Wait()] returns. *)
Definition waited (w : world) : world :=
  MkWorld (jobs w) (closed w) (sent w) (failed w) (retried w) (latencies w) (senders w) Reporting (gh w).

Inductive step (f : flags) : world → world → Prop :=
  | step_sender i ch w w' : sender_step f i ch w = Some w' → step f w w'
  | step_tick w : main w = Pacing → step f w (tick f w)
  | step_deadline w : main w = Pacing → step f w (deadline w)
  | step_waited w : main w = Waiting → all_exited w = true → step f w (waited w).

(** ** The report *)

(** [d.Round(m)]: to the nearest multiple of [m], halfway values away from zero,
    saturating at the limits of [int64]. *)
Definition Round (d m : Z) : Z :=
  if m <=? 0 then d else
  let r := Z.rem d m in
  if d <? 0 then
    let r := - r in
    if 2 * r <? m then d + r
    else if strconv.in_int64 (d - m + r) then d - m + r else - 2 ^ 63
  else
    if 2 * r <? m then d - r
    else if strconv.in_int64 (d + m - r) then d + m - r else int64_max.

(** [int(p * float64(len(latencies)-1))] *)
Definition pct_index (p : float64.t) (n : Z) : option Z :=
  float64.to_int (float64.mul p (float64.of_Z (n - 1))).

(** [pct(p)] over the sorted slice; [None] for an index out of range. *)
Definition pct (sorted : list Z) (p : float64.t) : option Z :=
  i ← pct_index p (Z.of_nat (length sorted)); sorted !! Z.to_nat i.

Record summary : Type := MkSummary { p50 : Z; p95 : Z; p99 : Z; longest : Z }.

Definition summarize (ls : list Z) : option summary :=
  let sorted := merge_sort (≤) ls in
  a ← pct sorted (float64.literal 1 2);
  b ← pct sorted (float64.literal 95 100);
  c ← pct sorted (float64.literal 99 100);
  d ← sorted !! pred (length sorted);
  Some (MkSummary (Round a clock.Microsecond) (Round b clock.Microsecond)
          (Round c clock.Microsecond) (Round d clock.Microsecond)).

(** The line of counters, the line of latencies if there are any, and the file. *)
Record report : Type := MkReport {
  r_elapsed : Z;
  r_sent : Z;
  r_failed : Z;
  r_retried : Z;
  r_latency : option summary;
  r_file : option string;
}.

(** [None] for a panic. *)
Definition make_report (f : flags) (elapsed : Z) (w : world) : option report :=
  l ← match latencies w with [] => Some None | ls => Some <$> summarize ls end;
  Some (MkReport (Round elapsed clock.Millisecond) (sent w) (failed w) (retried w) l
          (if exact f then Some (strconv.Itoa (sent w)) else None)).

(** ** The accounting invariant *)

(** The id of an original send that is not decided yet. *)
Definition undecided (s : sender) : list string :=
  match s with
  | Posting Original b | Backing_off Original b _ | Reposting Original b _ | Failing Original b => [event_id b]
  | _ => []
  end.

(** The id of a job whose original send succeeded. *)
Definition known (s : sender) : list string :=
  match s with
  | Posting Duplicate b | Backing_off Duplicate b _ | Reposting Duplicate b _ | Failing Duplicate b
  | Counting _ b _ | Recording _ b _ | Rolling b => [event_id b]
  | _ => []
  end.

(** Confirmed but not in [sent] yet; in [sent] and about to be taken out. *)
Definition debit (s : sender) : nat := match s with Counting Original _ _ => 1 | _ => 0 end.
Definition credit (s : sender) : nat :=
  match s with Recording Duplicate _ _ | Uncounting => 1 | _ => 0 end.

(** Confirmed but not in [latencies] yet. *)
Definition unrecorded (s : sender) : nat :=
  match s with Counting Original _ _ | Recording Original _ _ => 1 | _ => 0 end.

Definition ids (w : world) : list string := map (λ d, make_id d.1 d.2) (draws (gh w)).
Definition pending (w : world) : list string := concat (map undecided (senders w)).
Definition total (f : sender → nat) (w : world) : Z := Z.of_nat (sum_list_with f (senders w)).

Record inv (f : flags) (w : world) : Prop := {
  inv_ids : ids w ≡ₚ confirmed (gh w) ++ refused (gh w) ++ pending w;
  inv_draws : Forall (λ d, (0 ≤ d.1 ≤ int64_max) ∧ (0 ≤ d.2 ≤ int64_max)) (draws (gh w));
  inv_reached : ∀ id, id ∈ reached (gh w) → id ∈ ids w;
  inv_confirmed : ∀ id, id ∈ confirmed (gh w) → id ∈ reached (gh w);
  inv_known : ∀ s, s ∈ senders w → ∀ id, id ∈ known s → id ∈ confirmed (gh w);
  inv_sent : sent w + total debit w
             = Z.of_nat (length (confirmed (gh w))) - failed_copies (gh w) + total credit w;
  inv_failed : failed w = Z.of_nat (length (refused (gh w))) + failed_copies (gh w);
  inv_copies : 0 ≤ failed_copies (gh w) ∧
               failed_copies (gh w) + total (λ s, length (known s)) w ≤ Z.of_nat (length (confirmed (gh w)));
  inv_latencies : Z.of_nat (length (confirmed (gh w)))
                  ≤ Z.of_nat (length (latencies w)) + total unrecorded w;
  inv_jobs : 0 ≤ jobs w ≤ rate f;
  inv_senders : length (senders w) = Z.to_nat (workers f);
  inv_exited : Exited ∈ senders w → closed w = true ∧ jobs w = 0;
  inv_closed : closed w = true ↔ main w ≠ Pacing;
  inv_waited : main w = Reporting → all_exited w = true;
}.

(** How one step of one sender may change the rest of the state. *)
Record local_step (s s' : sender) (w w' : world) : Prop := {
  ls_ids : ∃ new, ids w' = new ++ ids w ∧
    confirmed (gh w') ++ refused (gh w') ++ undecided s'
      ≡ₚ new ++ confirmed (gh w) ++ refused (gh w) ++ undecided s;
  ls_draws : Forall (λ d, (0 ≤ d.1 ≤ int64_max) ∧ (0 ≤ d.2 ≤ int64_max)) (draws (gh w)) →
             Forall (λ d, (0 ≤ d.1 ≤ int64_max) ∧ (0 ≤ d.2 ≤ int64_max)) (draws (gh w'));
  ls_reached : ∀ id, id ∈ reached (gh w') → id ∈ reached (gh w) ∨ id ∈ known s ∨ id ∈ undecided s;
  ls_reached_mono : ∀ id, id ∈ reached (gh w) → id ∈ reached (gh w');
  ls_confirmed : ∀ id, id ∈ confirmed (gh w') → id ∈ confirmed (gh w) ∨ id ∈ reached (gh w');
  ls_confirmed_mono : ∀ id, id ∈ confirmed (gh w) → id ∈ confirmed (gh w');
  ls_known : ∀ id, id ∈ known s' → id ∈ known s ∨ id ∈ confirmed (gh w');
  ls_sent : sent w' - Z.of_nat (length (confirmed (gh w'))) + failed_copies (gh w')
              + Z.of_nat (debit s') - Z.of_nat (credit s')
            = sent w - Z.of_nat (length (confirmed (gh w))) + failed_copies (gh w)
              + Z.of_nat (debit s) - Z.of_nat (credit s);
  ls_failed : failed w' - Z.of_nat (length (refused (gh w'))) - failed_copies (gh w')
              = failed w - Z.of_nat (length (refused (gh w))) - failed_copies (gh w);
  ls_copies : failed_copies (gh w) ≤ failed_copies (gh w') ∧
    failed_copies (gh w') + Z.of_nat (length (known s')) - Z.of_nat (length (confirmed (gh w')))
    ≤ failed_copies (gh w) + Z.of_nat (length (known s)) - Z.of_nat (length (confirmed (gh w)));
  ls_latencies : Z.of_nat (length (confirmed (gh w'))) - Z.of_nat (length (latencies w'))
                   - Z.of_nat (unrecorded s')
                 ≤ Z.of_nat (length (confirmed (gh w))) - Z.of_nat (length (latencies w))
                   - Z.of_nat (unrecorded s);
  ls_jobs : 0 ≤ jobs w' ≤ jobs w ∨ jobs w' = jobs w;
  ls_exited : s' = Exited → closed w = true ∧ jobs w = 0;
  ls_alive : s ≠ Exited;
  ls_closed : closed w' = closed w;
  ls_main : main w' = main w;
}.

Lemma local_step_inv f i s s' w w' :
  inv f w → senders w !! i = Some s → senders w' = <[i := s']> (senders w) →
  local_step s s' w w' → inv f w'.
Proof.
  intros I Hi Hs [(new & Hids & Hperm) Hd Hr Hrm Hc Hcm Hk Hsent Hf Hcp Hl Hj Hex Halive Hcl Hm].
  pose proof (list_elem_of_lookup_2 _ _ _ Hi) as Hin.
  pose proof (λ g, sum_list_with_insert g (senders w) i s s' Hi) as Hsum.
  pose proof (concat_map_insert undecided (senders w) i s s' Hi) as Hund.
  destruct I as [I1 I2 I3 I4 I5 I6 I7 I8 I9 I10 I11 I12 I13 I14].
  assert (∀ x, x ∈ senders w' → x = s' ∨ x ∈ senders w) as Hel.
  { intros x. rewrite Hs. intros [j Hj']%list_elem_of_lookup.
    destruct (decide (i = j)) as [<-|Hne].
    - rewrite list_lookup_insert_eq in Hj' by (by eapply lookup_lt_Some). left. congruence.
    - rewrite list_lookup_insert_ne in Hj' by done. right. by eapply list_elem_of_lookup_2. }
  assert (∀ x, x ∈ ids w → x ∈ ids w') as Hidm by (intros x Hx; rewrite Hids, elem_of_app; by right).
  unfold total in *. rewrite <- Hs in Hsum, Hund.
  split; try lia; try done; rewrite ?Hcl, ?Hm; try done.
  - rewrite Hids, I1. unfold pending. apply (Permutation_app_inv_r (undecided s)).
    rewrite <- !app_assoc, Hund.
    transitivity ((confirmed (gh w') ++ refused (gh w') ++ undecided s') ++ concat (map undecided (senders w)));
      [rewrite Hperm|]; solve_Permutation.
  - by apply Hd.
  - intros id Hid. apply Hidm. destruct (Hr id Hid) as [H|[H|H]]; [by apply I3| |].
    + by eapply I3, I4, I5.
    + rewrite I1. apply elem_of_app. right. apply elem_of_app. right. unfold pending.
      apply list_elem_of_In, in_concat. exists (undecided s).
      split; [apply in_map|]; by apply list_elem_of_In.
  - intros id Hid. destruct (Hc id Hid) as [H|H]; [by apply Hrm, I4|done].
  - intros x Hx id Hid. destruct (Hel x Hx) as [->|Hx'].
    + destruct (Hk id Hid) as [H|H]; [|done]. apply Hcm. by eapply I5.
    + apply Hcm. by eapply I5.
  - pose proof (Hsum debit). pose proof (Hsum credit). unfold total. lia.
  - pose proof (Hsum (λ s, length (known s))). unfold total. simpl in *. lia.
  - pose proof (Hsum unrecorded). unfold total. lia.
  - rewrite Hs. by rewrite length_insert.
  - intros Hx. destruct (Hel _ Hx) as [Heq|Hx'].
    + destruct (Hex (eq_sym Heq)). split; [done|lia].
    + destruct (I12 Hx'). split; [done|lia].
  - intros HR. pose proof (I14 HR) as Hall. unfold all_exited in Hall.
    rewrite forallb_forall in Hall. specialize (Hall s (proj1 (list_elem_of_In _ _) Hin)).
    by apply bool_decide_eq_true in Hall.
Qed.

(** The answer to a request: [ok] says that the send will be counted. *)
Lemma answer_local c b s w got_in i s' :
  (undecided s, known s, debit s, credit s, unrecorded s)
    = (undecided (Posting c b), known (Posting c b), 0%nat, 0%nat, 0%nat) →
  (is_counting s' = true ∧ got_in = true ∧ ∃ took, s' = Counting c b took) ∨
  (is_counting s' = false ∧ undecided s' = undecided s ∧ known s' = known s ∧
     debit s' = 0%nat ∧ credit s' = 0%nat ∧ unrecorded s' = 0%nat ∧ s' ≠ Exited) →
  s ≠ Exited →
  local_step s s' w (set_sender i s' (answered c (event_id b) got_in (is_counting s') w)).
Proof.
  intros [= Hu Hk Hd Hc Hr] Hs' Halive.
  assert (∀ id, id ∈ (if got_in then event_id b :: reached (gh w) else reached (gh w)) →
            id ∈ reached (gh w) ∨ id ∈ known s ∨ id ∈ undecided s) as Hre.
  { intros id. destruct got_in; [|by left]. intros [->|H]%elem_of_cons; [|by left].
    right. rewrite Hk, Hu. destruct c; simpl; [right|left]; by apply list_elem_of_singleton. }
  assert (∀ id, id ∈ reached (gh w) →
            id ∈ (if got_in then event_id b :: reached (gh w) else reached (gh w))) as Hrm.
  { intros id H. destruct got_in; [by right|done]. }
  destruct Hs' as [(Hok & -> & took & ->)|(Hok & Hu' & Hk' & Hd' & Hc' & Hr' & Hne)].
  - destruct c; split; simpl in *; rewrite ?Hd, ?Hc, ?Hr; try done; try lia; try (by right).
    + exists []. split; [done|]. rewrite Hu. solve_Permutation.
    + intros id [->|H]%elem_of_cons; [right; by left|by left].
    + intros id ->%list_elem_of_singleton. right. by left.
    + exists []. by rewrite Hu.
    + by left.
    + intros id H. left. by rewrite Hk.
    + rewrite Hk. simpl. lia.
  - rewrite Hok. destruct c; split; simpl in *; rewrite ?Hd, ?Hc, ?Hr, ?Hd', ?Hc', ?Hr', ?Hu', ?Hk';
      try done; try lia; try (by left); try (by exists []).
Qed.

Lemma first_answer_spec c b r took got_in :
  honest r got_in = true →
  (is_counting (first_answer c b r took) = true ∧ got_in = true ∧
     first_answer c b r took = Counting c b took) ∨
  first_answer c b r took = Failing c b ∨ first_answer c b r took = Backing_off c b took.
Proof.
  unfold first_answer, honest. destruct r as [code|]; [|by right; left].
  intros ->%eqb_prop. destruct (code =? 503); [by right; right|].
  destruct (Z.leb_spec 300 code); [by right; left|]. left. repeat split. by apply Z.ltb_lt.
Qed.

Lemma second_answer_spec c b r took got_in :
  honest r got_in = true →
  (is_counting (second_answer c b r took) = true ∧ got_in = true ∧
     second_answer c b r took = Counting c b took) ∨
  second_answer c b r took = Failing c b.
Proof.
  unfold second_answer, honest. destruct r as [code|]; [|by right].
  intros ->%eqb_prop. destruct (Z.leb_spec 300 code); [by right|].
  left. repeat split. by apply Z.ltb_lt.
Qed.

(** The fields that a step leaves alone, or changes by known amounts. *)
Ltac local_fields :=
  split; simpl; rewrite ?length_app; simpl; try done; try lia; try (by left); try (by exists []);
  try (let H := fresh in intros ? H; by apply not_elem_of_nil in H).

(** Every operation of a sender is local. *)
Lemma sender_step_local f i ch w w' :
  0 ≤ jobs w → sender_step f i ch w = Some w' →
  ∃ s s', senders w !! i = Some s ∧ senders w' = <[i := s']> (senders w) ∧ local_step s s' w w'.
Proof.
  intros Hj. unfold sender_step. destruct (senders w !! i) as [s|] eqn:Hi; [|done]. intros Hw.
  exists s. destruct s as [|c b|c b took|c b took|c b|c b took|c b took|b| |]; destruct ch; try done.
  - destruct (Z.ltb_spec 0 (jobs w)).
    + unfold make_body in Hw. case_match eqn:Hr; [|done]. destruct (names f !! _) as [n|]; [|done].
      simplify_eq/=. repeat rewrite andb_true_iff in Hr. destruct_and!. bool_props.
      eexists. split; [done|]. split; [done|]. local_fields.
      * eexists [_]. split; [done|]. solve_Permutation.
      * intros Hf. constructor; [split; simpl; lia|done].
    + destruct (closed w) eqn:Hcl; [|done]. simplify_eq/=. exists Exited. split; [done|]. split; [done|].
      local_fields. intros _. split; [done|lia].
  - destruct (honest _ _) eqn:Hh; [|done]. injection Hw as <-. eexists. split; [done|]. split; [done|].
    apply answer_local; [done| |done].
    destruct (first_answer_spec c b r took got_in Hh) as [(? & ? & ?)|[-> | ->]]; eauto;
      right; by destruct c.
  - injection Hw as <-. exists (Reposting c b took). split; [done|]. split; [done|].
    destruct c; local_fields.
  - destruct (honest _ _) eqn:Hh; [|done]. injection Hw as <-. eexists. split; [done|]. split; [done|].
    apply answer_local; [by destruct c| |done].
    destruct (second_answer_spec c b r took got_in Hh) as [(? & ? & ?)| ->]; eauto;
      right; by destruct c.
  - injection Hw as <-. eexists. split; [done|]. split; [done|].
    destruct c; local_fields. exists []. split; [done|]. solve_Permutation.
  - injection Hw as <-. eexists. split; [done|]. split; [done|].
    destruct c; local_fields.
  - injection Hw as <-. eexists. split; [done|]. split; [done|].
    destruct c; local_fields.
  - case_match; [|done]. injection Hw as <-. eexists. split; [done|]. split; [done|].
    case_match; local_fields.
  - injection Hw as <-. eexists. split; [done|]. split; [done|].
    local_fields.
Qed.

Lemma loadgen_start_inv f w : start f = Some w → inv f w.
Proof.
  unfold start. destruct (Z.ltb_spec (rate f) 0); [done|]. destruct (period f) as [d|]; [|done].
  simpl. case_match; [done|]. intros [= <-].
  assert (∀ g : sender → nat, g Idle = 0%nat →
            sum_list_with g (replicate (Z.to_nat (workers f)) Idle) = 0%nat) as Hsum.
  { intros g Hg. induction (Z.to_nat (workers f)); simpl; [done|]. lia. }
  split; unfold total, pending, ids; simpl; rewrite ?Hsum by done; try done; try lia.
  - clear Hsum. by induction (Z.to_nat (workers f)) as [|n IH]; simpl.
  - by intros s [-> _]%elem_of_replicate id Hid.
  - apply length_replicate.
  - by intros [? _]%elem_of_replicate.
Qed.

Lemma step_inv f w w' : inv f w → step f w w' → inv f w'.
Proof.
  intros I Hs. destruct Hs as [i ch w w' Hs|w Hm|w Hm|w Hm Hall].
  - apply sender_step_local in Hs as (s & s' & Hi & Hs & Hl); [|apply I].
    by eapply local_step_inv.
  - destruct I; split; try done; simpl.
    + destruct (Z.ltb_spec (jobs w) (rate f)); lia.
    + intros Hex. destruct (inv_exited0 Hex) as [Hcl _]. by apply inv_closed0 in Hcl.
  - destruct I; split; try done; simpl.
    intros Hex. destruct (inv_exited0 Hex) as [Hcl _]. by apply inv_closed0 in Hcl.
  - destruct I; split; try done; simpl. rewrite inv_closed0, Hm. done.
Qed.

Lemma reachable_inv f w0 w : start f = Some w0 → rtc (step f) w0 w → inv f w.
Proof.
  intros H0 Hr. apply loadgen_start_inv in H0. revert H0. induction Hr; [done|].
  intros. by eapply IHHr, step_inv.
Qed.

(** ** Ids *)

Lemma to_bytes_app (a b : string) : strconv.to_bytes (a +:+ b) = strconv.to_bytes a ++ strconv.to_bytes b.
Proof. induction a as [|c a IH]; simpl; [done|]. by f_equal. Qed.

Lemma dash_not_in_Itoa z : 0 ≤ z ≤ int64_max → "-"%char ∉ strconv.to_bytes (strconv.Itoa z).
Proof.
  intros Hz. unfold strconv.Itoa. destruct (Z.ltb_spec z 0); [lia|].
  rewrite String.list_ascii_of_string_of_list_ascii.
  destruct (strconv.decimal_spec z) as (c & l & -> & Hc & Hl & _); [unfold int64_max in *; lia|].
  intros Hin. assert (is_Some (clock.undigit "-"%char)) as []%strconv.undigit_not_sign; [|done].
  apply elem_of_cons in Hin as [->|Hin]; [done|]. rewrite Forall_forall in Hl. by apply Hl.
Qed.

Lemma Itoa_inj z z' : 0 ≤ z ≤ int64_max → 0 ≤ z' ≤ int64_max → strconv.Itoa z = strconv.Itoa z' → z = z'.
Proof.
  intros Hz Hz' H. apply (inj Some). rewrite <- (strconv.Atoi_Itoa z), <- (strconv.Atoi_Itoa z'), H; [done|..];
    unfold strconv.in_int64; apply andb_true_iff; split; apply Z.leb_le; lia.
Qed.

(** Different draws give different ids. *)
Lemma make_id_inj t r t' r' :
  0 ≤ t ≤ int64_max → 0 ≤ r ≤ int64_max → 0 ≤ t' ≤ int64_max → 0 ≤ r' ≤ int64_max →
  make_id t r = make_id t' r' → (t, r) = (t', r').
Proof.
  intros Ht Hr Ht' Hr' H.
  assert (∀ t r, 0 ≤ t ≤ int64_max → 0 ≤ r ≤ int64_max →
    strconv.Split (make_id t r) "-" = [strconv.Itoa t; strconv.Itoa r]) as Hs.
  { intros x y Hx Hy. unfold strconv.Split, make_id. rewrite !to_bytes_app. simpl.
    rewrite strconv.split_on_app, strconv.split_on_single by (by apply dash_not_in_Itoa).
    simpl. by rewrite !String.string_of_list_ascii_of_string. }
  pose proof (Hs t r Ht Hr) as H1. rewrite H, (Hs t' r' Ht' Hr') in H1. simplify_eq.
  f_equal; by apply Itoa_inj.
Qed.

(** ** The count of the chaos test *)

Lemma ids_NoDup f w : inv f w → NoDup (draws (gh w)) → NoDup (ids w).
Proof.
  intros I Hnd. apply NoDup_fmap_2_strong; [|done].
  pose proof (proj1 (Forall_forall _ _) (inv_draws f w I)) as Hr.
  intros [t r] [t' r'] Hx Hy. apply Hr in Hx as [??], Hy as [??]. by apply make_id_inj.
Qed.

Lemma reporting_exited f w : inv f w → main w = Reporting → Forall (λ s, s = Exited) (senders w).
Proof.
  intros I HR. pose proof (inv_waited f w I HR) as Hall. unfold all_exited in Hall.
  rewrite forallb_forall in Hall. apply Forall_forall. intros s Hs.
  specialize (Hall s (proj1 (list_elem_of_In _ _) Hs)). by apply bool_decide_eq_true in Hall.
Qed.

Lemma no_job_left f w : inv f w → main w = Reporting → 0 < workers f → jobs w = 0.
Proof.
  intros I HR Hw. pose proof (reporting_exited f w I HR) as Hex. pose proof (inv_senders f w I) as Hl.
  destruct (senders w) as [|s l] eqn:Hs; simpl in Hl; [lia|].
  apply Forall_cons in Hex as [-> _]. apply (inv_exited f w I). rewrite Hs. left.
Qed.

(** Nothing is left over once [wg.Wait()] has returned. *)
Lemma reporting_quiet f w :
  inv f w → main w = Reporting →
  ids w ≡ₚ confirmed (gh w) ++ refused (gh w) ∧
  sent w = Z.of_nat (length (confirmed (gh w))) - failed_copies (gh w) ∧
  Z.of_nat (length (confirmed (gh w))) ≤ Z.of_nat (length (latencies w)).
Proof.
  intros I HR. pose proof (reporting_exited f w I HR) as Hex.
  assert (∀ g : sender → nat, g Exited = 0%nat → total g w = 0) as Ht.
  { intros g Hg. unfold total. induction Hex as [|s l -> _ IH]; simpl in *; lia. }
  assert (pending w = []) as Hp.
  { unfold pending. induction Hex as [|s l -> _ IH]; simpl in *; done. }
  destruct I. rewrite Hp, app_nil_r in inv_ids0. rewrite !Ht in * by done. split; [done|lia].
Qed.

Lemma distinct_between (C T R : list string) :
  NoDup C → (∀ x, x ∈ C → x ∈ R) → (∀ x, x ∈ R → x ∈ T) →
  (length C ≤ size (list_to_set R : gset string) ≤ length T)%nat.
Proof.
  intros HC HCR HRT. split.
  - rewrite <- (size_list_to_set (C := gset string) C HC). apply subseteq_size.
    intros x. rewrite !elem_of_list_to_set. apply HCR.
  - transitivity (size (list_to_set T : gset string)).
    + apply subseteq_size. intros x. rewrite !elem_of_list_to_set. apply HRT.
    + apply submseteq_length, NoDup_submseteq; [apply NoDup_elements|].
      intros x. by rewrite elem_of_elements, elem_of_list_to_set.
Qed.

(** The number the chaos test relies on.  Whatever the interleaving of the
    senders and the answers of the service, once the generator reports, the
    number of different events that reached the service is between [sent] and
    [sent + failed], so it is exactly [sent] when nothing failed; but [sent] is
    less than the number of events known to be accepted by the number of second
    sends that failed.  When there are senders no job is left in the channel. *)
Lemma sent_matches_reached f w0 w :
  start f = Some w0 → rtc (step f) w0 w → main w = Reporting → NoDup (draws (gh w)) →
  let stored := Z.of_nat (size (list_to_set (reached (gh w)) : gset string)) in
  0 ≤ sent w ≤ stored ∧ stored ≤ sent w + failed w ∧
  sent w = Z.of_nat (length (confirmed (gh w))) - failed_copies (gh w) ∧
  (0 < workers f → jobs w = 0).
Proof.
  intros H0 Hr HR Hnd stored. pose proof (reachable_inv f w0 w H0 Hr) as I.
  destruct (reporting_quiet f w I HR) as (Hids & Hsent & _).
  pose proof (ids_NoDup f w I Hnd) as Hid. rewrite Hids in Hid. apply NoDup_app in Hid as (HC & _ & _).
  destruct (distinct_between (confirmed (gh w)) (ids w) (reached (gh w)) HC
              (inv_confirmed f w I) (inv_reached f w I)) as [Hlo Hhi].
  rewrite Hids, length_app in Hhi. pose proof (inv_failed f w I). pose proof (inv_copies f w I).
  unfold total in *. subst stored. split; [lia|]. split; [lia|]. split; [done|].
  intros Hw. by apply (no_job_left f w).
Qed.

(** ** Draining *)

(** Operations a sender can still make without taking another job. *)
Definition weight (s : sender) : nat :=
  match s with
  | Exited => 0
  | Idle => 1
  | Uncounting => 2
  | Failing Original _ => 2
  | Failing Duplicate _ | Recording Duplicate _ _ => 3
  | Counting Duplicate _ _ => 4
  | Reposting Duplicate _ _ => 5
  | Backing_off Duplicate _ _ => 6
  | Posting Duplicate _ => 7
  | Rolling _ => 8
  | Recording Original _ _ => 9
  | Counting Original _ _ => 10
  | Reposting Original _ _ => 11
  | Backing_off Original _ _ => 12
  | Posting Original _ => 13
  end.

Definition phase_weight (p : phase) : nat := match p with Waiting => 1 | _ => 0 end.

Definition work (w : world) : nat :=
  (13 * Z.to_nat (jobs w) + sum_list_with weight (senders w) + phase_weight (main w))%nat.

Lemma sender_step_weight f i ch w w' :
  0 ≤ jobs w → sender_step f i ch w = Some w' →
  ∃ s s', senders w !! i = Some s ∧ senders w' = <[i := s']> (senders w) ∧ main w' = main w ∧
    closed w' = closed w ∧
    (13 * Z.to_nat (jobs w') + weight s' < 13 * Z.to_nat (jobs w) + weight s)%nat.
Proof.
  intros Hj. unfold sender_step. destruct (senders w !! i) as [s|] eqn:Hi; [|done]. intros Hw.
  exists s. destruct s as [|c b|c b took|c b took|c b|c b took|c b took|b| |]; destruct ch; try done.
  - destruct (Z.ltb_spec 0 (jobs w)).
    + destruct (make_body _ _ _ _ _); [|done]. injection Hw as <-. eexists. repeat split. simpl. lia.
    + destruct (closed w) eqn:Hcl; [|done]. injection Hw as <-. eexists. repeat split; [done|]. simpl. lia.
  - destruct (honest _ _) eqn:Hh; [|done]. injection Hw as <-. eexists. repeat split. simpl jobs.
    destruct (first_answer_spec c b r took got_in Hh) as [(_ & _ & ->)|[-> | ->]]; destruct c; simpl; lia.
  - injection Hw as <-. eexists. repeat split. destruct c; simpl; lia.
  - destruct (honest _ _) eqn:Hh; [|done]. injection Hw as <-. eexists. repeat split. simpl jobs.
    destruct (second_answer_spec c b r took got_in Hh) as [(_ & _ & ->)| ->]; destruct c; simpl; lia.
  - injection Hw as <-. eexists. repeat split. destruct c; simpl; lia.
  - injection Hw as <-. eexists. repeat split. destruct c; simpl; lia.
  - injection Hw as <-. eexists. repeat split. destruct c; simpl; lia.
  - case_match; [|done]. injection Hw as <-. eexists. repeat split. case_match; simpl; lia.
  - injection Hw as <-. eexists. repeat split. simpl. lia.
Qed.

Lemma step_work f w w' :
  inv f w → closed w = true → step f w w' → (work w' < work w)%nat ∧ closed w' = true.
Proof.
  intros I Hcl Hs. pose proof (inv_jobs f w I). pose proof (inv_closed f w I) as Hm.
  destruct Hs as [i ch w w' Hs|w Hp|w Hp|w Hp _]; [|by apply Hm in Hcl..|].
  - apply sender_step_weight in Hs as (s & s' & Hi & Hs & Hmain & Hc & Hlt); [|lia].
    pose proof (sum_list_with_insert weight (senders w) i s s' Hi). unfold work. rewrite Hs, Hmain.
    split; [lia|congruence].
  - split; [|done]. unfold work. simpl. rewrite Hp. simpl. lia.
Qed.

Lemma drain_bound f n w w' :
  inv f w → closed w = true → nsteps (step f) n w w' → (n ≤ work w)%nat.
Proof.
  intros I Hcl Hs. revert I Hcl. induction Hs as [|n w w1 w2 H1 _ IH]; intros I Hcl; [lia|].
  destruct (step_work f w w1 I Hcl H1) as [Hlt Hcl1].
  pose proof (IH (step_inv f w w1 I H1) Hcl1). lia.
Qed.

Lemma names_first f : ∃ n, names f !! 0%nat = Some n.
Proof. unfold names. case_decide; simpl; eauto. Qed.

(** A sender that has not returned can always go on once the channel is closed. *)
Lemma sender_can_step f i w s :
  closed w = true → senders w !! i = Some s → s ≠ Exited → ∃ ch w', sender_step f i ch w = Some w'.
Proof.
  intros Hcl Hi Hs. unfold sender_step. rewrite Hi.
  destruct s as [|c b|c b took|c b took|c b|c b took|c b took|b| |]; try done;
    try (exists Continue; by eexists); try (exists (Answer None 0 false); by eexists).
  - exists (Draw 0 0 0 0). rewrite Hcl. destruct (names_first f) as [n Hn].
    destruct (0 <? jobs w); [|by eexists]. unfold make_body. simpl.
    change (Z.to_nat 0) with 0%nat. rewrite Hn. by eexists.
  - exists (Roll 0). by eexists.
Qed.

Lemma stuck_reports f w :
  inv f w → closed w = true → (∃ w', step f w w') ∨ main w = Reporting.
Proof.
  intros I Hcl. destruct (decide (Exists (λ s, s ≠ Exited) (senders w))) as [Hex|Hall].
  - apply Exists_exists in Hex as (s & [i Hi]%list_elem_of_lookup & Hs). left.
    destruct (sender_can_step f i w s Hcl Hi Hs) as (ch & w' & Hw). exists w'. by econstructor.
  - apply not_Exists_Forall in Hall; [|apply _]. apply (inv_closed f w I) in Hcl.
    destruct (main w) eqn:Hm; [done| |by right]. left. exists (waited w). apply step_waited; [done|].
    unfold all_exited. apply forallb_forall. intros s Hs%list_elem_of_In.
    rewrite Forall_forall in Hall. apply bool_decide_eq_true. by apply dec_stable, Hall.
Qed.

Lemma closed_stays f w w' :
  inv f w → closed w = true → rtc (step f) w w' → inv f w' ∧ closed w' = true.
Proof.
  intros I Hcl Hr. revert I Hcl. induction Hr as [|w w1 w2 H1 _ IH]; intros I Hcl; [done|].
  apply IH; [by eapply step_inv|by eapply step_work].
Qed.

(** The generator terminates.  After the deadline no run makes more than
    [work] further operations, and a state in which nothing can move has passed
    [wg.Wait()]: the report is printed, whatever the answers were. *)
Lemma loadgen_drains f w0 w :
  start f = Some w0 → rtc (step f) w0 w → closed w = true →
  (∀ n w', nsteps (step f) n w w' → (n ≤ work w)%nat) ∧
  (∀ w', rtc (step f) w w' → (∃ w'', step f w' w'') ∨ main w' = Reporting).
Proof.
  intros H0 Hr Hcl. pose proof (reachable_inv f w0 w H0 Hr) as I. split.
  - intros n w'. by apply drain_bound.
  - intros w' Hw'. destruct (closed_stays f w w' I Hcl Hw'). by apply stuck_reports.
Qed.

(** ** The report *)

Lemma Round_nonneg d m :
  0 < m → 0 ≤ d →
  Round d m = if 2 * (d mod m) <? m then m * (d / m) else Z.min (m * (d / m + 1)) int64_max.
Proof.
  intros Hm Hd. unfold Round. destruct (Z.leb_spec m 0); [lia|]. destruct (Z.ltb_spec d 0); [lia|].
  rewrite Z.rem_mod_nonneg by lia. pose proof (Z.div_mod d m). destruct (2 * (d mod m) <? m); [lia|].
  unfold strconv.in_int64. pose proof (Z.mod_pos_bound d m Hm). unfold int64_max in *.
  destruct (Z.leb_spec (- 2 ^ 63) (d + m - d mod m)), (Z.leb_spec (d + m - d mod m) (2 ^ 63 - 1)); simpl; lia.
Qed.

Lemma Round_mono m d d' : 0 < m → 0 ≤ d ≤ d' → d' ≤ int64_max → Round d m ≤ Round d' m.
Proof.
  intros Hm Hd Hmax. rewrite !Round_nonneg by lia.
  pose proof (Z.div_mod d m). pose proof (Z.div_mod d' m).
  pose proof (Z.mod_pos_bound d m Hm). pose proof (Z.mod_pos_bound d' m Hm).
  pose proof (Z.div_le_mono d d' m Hm ltac:(lia)).
  destruct (decide (d / m = d' / m)) as [Heq|Hne].
  - rewrite Heq in *. repeat case_match; bool_props; lia.
  - assert (m * (d / m + 1) ≤ m * (d' / m)) by nia. repeat case_match; bool_props; lia.
Qed.

(** The mantissas of the literals 0.50, 0.95 and 0.99. *)
Lemma literals :
  float64.literal 1 2 = SpecFloat.S754_finite false 4503599627370496 (-53) ∧
  float64.literal 95 100 = SpecFloat.S754_finite false 8556839292003942 (-53) ∧
  float64.literal 99 100 = SpecFloat.S754_finite false 8917127262193582 (-53).
Proof. by vm_compute. Qed.

Lemma to_int_small f i : float64.trunc f = Some i → 0 ≤ i < 2 ^ 63 → float64.to_int f = Some i.
Proof.
  intros Hf Hi. unfold float64.to_int. rewrite Hf. simpl.
  destruct (Z.leb_spec (- 2 ^ 63) i), (Z.ltb_spec i (2 ^ 63)); simpl in *; try lia; done.
Qed.

(** The indices are in range and in order, and the first one is the middle. *)
Lemma indices n :
  0 < n ≤ 2 ^ 53 → ∃ j k,
    pct_index (float64.literal 1 2) n = Some ((n - 1) / 2) ∧
    pct_index (float64.literal 95 100) n = Some j ∧ pct_index (float64.literal 99 100) n = Some k ∧
    0 ≤ (n - 1) / 2 ≤ j ∧ j ≤ k ≤ n - 1.
Proof.
  intros Hn. destruct literals as (L1 & L2 & L3). unfold pct_index. rewrite L1, L2, L3.
  assert (0 ≤ n - 1 < 2 ^ 53) as Hk by lia. pose proof (float64.half_trunc (n - 1) Hk) as H1.
  destruct (float64.scale_range 8556839292003942 (n - 1) eq_refl Hk) as (j & H2 & Hj).
  destruct (float64.scale_range 8917127262193582 (n - 1) eq_refl Hk) as (k & H3 & Hkk).
  pose proof (float64.scale_mono 4503599627370496 8556839292003942 (n - 1) _ _ eq_refl eq_refl ltac:(done) Hk H1 H2).
  pose proof (float64.scale_mono 8556839292003942 8917127262193582 (n - 1) _ _ eq_refl eq_refl ltac:(done) Hk H2 H3).
  assert (0 ≤ (n - 1) / 2) by (apply Z.div_pos; lia).
  exists j, k. split; [apply to_int_small; [exact H1|lia]|]. split; [apply to_int_small; [exact H2|lia]|].
  split; [apply to_int_small; [exact H3|lia]|lia].
Qed.

(** What the line of latencies says about the samples. *)
Record summary_of (ls : list Z) (s : summary) : Prop := {
  so_median : ∃ a, merge_sort (≤) ls !! Nat.div2 (pred (length ls)) = Some a ∧ p50 s = Round a clock.Microsecond;
  so_samples : ∀ x, x ∈ [p50 s; p95 s; p99 s; longest s] → ∃ l, l ∈ ls ∧ x = Round l clock.Microsecond;
  so_order : p50 s ≤ p95 s ∧ p95 s ≤ p99 s ∧ p99 s ≤ longest s;
  so_longest : ∀ l, l ∈ ls → Round l clock.Microsecond ≤ longest s;
}.

Lemma sorted_lookup (ls : list Z) (i j : nat) x y :
  merge_sort (≤) ls !! i = Some x → merge_sort (≤) ls !! j = Some y → (i ≤ j)%nat → x ≤ y.
Proof.
  intros Hx Hy Hij. destruct (decide (i = j)) as [->|Hne]; [simplify_eq; lia|].
  apply (StronglySorted_lookup (≤) (merge_sort (≤) ls) i j); [|done|done|lia].
  apply StronglySorted_merge_sort; apply _.
Qed.

Lemma summarize_spec ls :
  ls ≠ [] → Z.of_nat (length ls) ≤ 2 ^ 53 → Forall (λ t, 0 ≤ t ≤ int64_max) ls →
  ∃ s, summarize ls = Some s ∧ summary_of ls s.
Proof.
  intros Hne Hlen Hls. pose proof (merge_sort_Permutation (≤) ls) as Hperm.
  pose proof (sorted_lookup ls) as Hsort. unfold summarize, pct.
  pose proof (Permutation_length Hperm) as Hl. rewrite Hl.
  assert (0 < length ls)%nat as Hpos by (destruct ls; simpl; [done|lia]).
  destruct (indices (Z.of_nat (length ls)) ltac:(lia)) as (j & k & -> & -> & -> & Hj & Hk). cbn [mbind option_bind].
  assert (∀ i : nat, (i < length ls)%nat → ∃ x, merge_sort (≤) ls !! i = Some x ∧ x ∈ ls) as Hat.
  { intros i Hi. destruct (lookup_lt_is_Some_2 (merge_sort (≤) ls) i) as [x Hx]; [lia|].
    exists x. split; [done|]. rewrite <- Hperm. by eapply list_elem_of_lookup_2. }
  assert (Z.to_nat ((Z.of_nat (length ls) - 1) / 2) = Nat.div2 (pred (length ls))) as Hmid.
  { rewrite Nat.div2_div. replace (Z.of_nat (length ls) - 1) with (Z.of_nat (pred (length ls))) by lia.
    change 2 with (Z.of_nat 2). by rewrite <- Nat2Z.inj_div, Nat2Z.id. }
  destruct (Hat (Z.to_nat ((Z.of_nat (length ls) - 1) / 2))) as (a & Ha & Ina); [lia|].
  destruct (Hat (Z.to_nat j)) as (b & Hb & Inb); [lia|].
  destruct (Hat (Z.to_nat k)) as (c & Hc & Inc); [lia|].
  destruct (Hat (pred (length ls))) as (d & Hd & Ind); [lia|].
  rewrite Ha, Hb, Hc, Hd. simpl. eexists. split; [done|]. rewrite Forall_forall in Hls.
  assert (∀ x y, x ∈ ls → y ∈ ls → x ≤ y → Round x clock.Microsecond ≤ Round y clock.Microsecond) as HR.
  { intros x y Hx%Hls Hy%Hls Hxy. apply Round_mono; unfold clock.Microsecond; lia. }
  split; simpl.
  - exists a. by rewrite <- Hmid.
  - intros x. rewrite !elem_of_cons. intros [->|[->|[->|[->|Hx]]]]; eauto. by apply not_elem_of_nil in Hx.
  - split_and!; apply HR; try done; [apply (Hsort _ _ _ _ Ha Hb)|apply (Hsort _ _ _ _ Hb Hc)|apply (Hsort _ _ _ _ Hc Hd)]; lia.
  - intros l Hlin. apply HR; [done|done|]. rewrite <- Hperm in Hlin. apply list_elem_of_lookup in Hlin as [i Hi].
    apply (Hsort _ _ _ _ Hi Hd). apply lookup_lt_Some in Hi. lia.
Qed.

(** The report never panics.  In every state past [wg.Wait()], with as many
    samples as a [float64] counts exactly, the indices of the percentiles are in
    range; the median is the middle sample, the percentiles are samples in
    increasing order up to the longest; and the file of [-exact] reads back as
    [sent]. *)
Lemma report_ok f w0 w elapsed :
  start f = Some w0 → rtc (step f) w0 w → main w = Reporting →
  Z.of_nat (length (latencies w)) ≤ 2 ^ 53 → Forall (λ t, 0 ≤ t ≤ int64_max) (latencies w) →
  ∃ r, make_report f elapsed w = Some r ∧
    (r_sent r, r_failed r, r_retried r) = (sent w, failed w, retried w) ∧
    match r_latency r with
    | None => latencies w = []
    | Some s => latencies w ≠ [] ∧ summary_of (latencies w) s
    end ∧
    (exact f = true → (r_file r ≫= strconv.Atoi) = Some (sent w)).
Proof.
  intros H0 Hr HR Hlen Hlat. pose proof (reachable_inv f w0 w H0 Hr) as I.
  destruct (reporting_quiet f w I HR) as (_ & Hsent & Hle). pose proof (inv_copies f w I) as Hcp.
  assert (strconv.in_int64 (sent w) = true) as Hin.
  { unfold strconv.in_int64, int64_max, total in *. apply andb_true_iff. split; apply Z.leb_le; lia. }
  assert (∀ l, exact f = true →
    ((r_file (MkReport (Round elapsed clock.Millisecond) (sent w) (failed w) (retried w) l
       (if exact f then Some (strconv.Itoa (sent w)) else None))) ≫= strconv.Atoi) = Some (sent w)) as Hfile.
  { intros l He. simpl. rewrite He. simpl. by apply strconv.Atoi_Itoa. }
  unfold make_report. destruct (latencies w) as [|t ls] eqn:Hl.
  - eexists. split; [done|]. split; [done|]. split; [done|]. apply Hfile.
  - destruct (summarize_spec (t :: ls)) as (s & -> & Hs); [done..|].
    eexists. split; [done|]. split; [done|]. split; [done|]. apply Hfile.
Qed.

(** ** A concrete run *)

Inductive event : Type := Sender (i : nat) (ch : choice) | Tick | Deadline | Wait.

Definition exec (f : flags) (w : world) (e : event) : option world :=
  match e, main w with
  | Sender i ch, _ => sender_step f i ch w
  | Tick, Pacing => Some (tick f w)
  | Deadline, Pacing => Some (deadline w)
  | Wait, Waiting => if all_exited w then Some (waited w) else None
  | _, _ => None
  end.

Lemma exec_step f w e w' : exec f w e = Some w' → step f w w'.
Proof.
  unfold exec. destruct e as [i ch| | |], (main w) eqn:Hm; try done;
    try (intros; by eapply step_sender); try (intros [= <-]; by constructor).
  destruct (all_exited w) eqn:Ha; [|done]. intros [= <-]. by apply step_waited.
Qed.

Lemma exec_reachable f es w w' :
  foldl (λ o e, o ≫= λ w, exec f w e) (Some w) es = Some w' → rtc (step f) w w'.
Proof.
  revert w. induction es as [|e es IH]; intros w; simpl; [by intros [= <-]|].
  destruct (exec f w e) as [w1|] eqn:He.
  - intros H. eapply rtc_l; [by eapply exec_step|by apply IH].
  - intros H. exfalso. clear -H. by induction es.
Qed.

(** One sender; its only event is taken after one retry, and the answer to the
    second copy is lost. *)
Definition one_job : flags := MkFlags 2 clock.Second 1 "chaos_test" 100 true.

Definition job_steps : list event :=
  [Tick; Sender 0 (Draw 17 4 0 3); Sender 0 (Answer (Some 503) 9 false); Sender 0 Continue;
   Sender 0 (Answer (Some 202) 9 true); Sender 0 Continue; Sender 0 Continue; Sender 0 (Roll 5);
   Sender 0 (Answer None 0 true); Sender 0 Continue; Sender 0 Continue; Deadline].

Definition last_steps : list event := [Sender 0 (Draw 18 5 0 0); Wait].

Definition w_start : world :=
  MkWorld 0 false 0 0 0 [] [Idle] Pacing (MkGhost [] [] [] 0 []).
Definition w_closed : world :=
  MkWorld 0 true 0 1 1 [9] [Idle] Waiting
    (MkGhost [(17, 4)] ["17-4"%string] [] 1 ["17-4"; "17-4"]%string).
Definition w_end : world :=
  MkWorld 0 true 0 1 1 [9] [Exited] Reporting
    (MkGhost [(17, 4)] ["17-4"%string] [] 1 ["17-4"; "17-4"]%string).

Lemma w_closed_reachable : rtc (step one_job) w_start w_closed.
Proof. apply (exec_reachable one_job job_steps). by vm_compute. Qed.

Lemma w_end_reachable : rtc (step one_job) w_start w_end.
Proof. apply (exec_reachable one_job (job_steps ++ last_steps)). by vm_compute. Qed.

Lemma sent_matches_reached_example :
  0 ≤ 0 ≤ 1 ∧ 1 ≤ 0 + 1 ∧ 0 = 1 - 1 ∧ (0 < workers one_job → jobs w_end = 0).
Proof.
  refine (sent_matches_reached one_job w_start w_end eq_refl w_end_reachable eq_refl _).
  apply NoDup_singleton.
Defined.

Lemma loadgen_drains_example :
  (∀ n w', nsteps (step one_job) n w_closed w' → (n ≤ 2)%nat) ∧
  (∀ w', rtc (step one_job) w_closed w' → (∃ w'', step one_job w' w'') ∨ main w' = Reporting).
Proof. exact (loadgen_drains one_job w_start w_closed eq_refl w_closed_reachable eq_refl). Defined.

Lemma report_ok_example :
  ∃ r, make_report one_job clock.Second w_end = Some r ∧
    (r_sent r, r_failed r, r_retried r) = (0, 1, 1) ∧
    match r_latency r with
    | None => latencies w_end = []
    | Some s => latencies w_end ≠ [] ∧ summary_of (latencies w_end) s
    end ∧
    (exact one_job = true → (r_file r ≫= strconv.Atoi) = Some 0).
Proof.
  refine (report_ok one_job w_start w_end clock.Second eq_refl w_end_reachable eq_refl _ _).
  - vm_compute. discriminate.
  - repeat constructor; vm_compute; discriminate.
Defined.

End loadgen.
