(* ===== verification/Flags.v ===== *)
(** * The command line of [cmd/loadgen]

    [flag.Parse] on the seven flags of the load generator: the loop over the
    arguments, and the values as [strconv] reads them ([ParseInt] in base 0,
    [ParseBool], [ParseDuration]).  An error ends the program with its usage. *)

From S2P Require Import Prelude Float64 Clock Strconv Loadgen.
From stdpp Require Import prelude list strings.
From Stdlib Require Import ZArith Lia Ascii.
Open Scope Z_scope.

Module flags.
Import loadgen (MkFlags, rate, duration, workers, eventName, dupes, exact).
Abbreviation to_bytes := String.list_ascii_of_string.
Abbreviation of_bytes := String.string_of_list_ascii.

(** ** Integers in base 0 *)

Definition code (c : ascii) : Z := Z.of_N (N_of_ascii c).

(** [lower]: sets the bit that makes an ASCII letter small. *)
Definition lower (c : ascii) : Z := Z.lor (code c) 32.

Definition letter_value (c : ascii) : option Z :=
  if (48 <=? code c) && (code c <=? 57) then Some (code c - 48)
  else if (97 <=? lower c) && (lower c <=? 122) then Some (lower c - 97 + 10)
  else None.

(** The digits in [base]; underscores are skipped.  [None] is a syntax error. *)
Fixpoint base_digits (base acc : Z) (l : list ascii) : option Z :=
  match l with
  | [] => Some acc
  | c :: l =>
      if decide (c = "_"%char) then base_digits base acc l
      else d ← letter_value c; if base <=? d then None else base_digits base (base * acc + d) l
  end.

(** What came before, for the places where an underscore may stand. *)
Inductive prev : Type := Begin | Digit | Underscore | Other.

Fixpoint underscores_ok (hex : bool) (i : prev) (l : list ascii) : bool :=
  match l with
  | [] => match i with Underscore => false | _ => true end
  | c :: l =>
      if ((48 <=? code c) && (code c <=? 57)) || (hex && (97 <=? lower c) && (lower c <=? 102))
      then underscores_ok hex Digit l
      else if decide (c = "_"%char) then match i with Digit => underscores_ok hex Underscore l | _ => false end
      else match i with Underscore => false | _ => underscores_ok hex Other l end
  end.

(** The base that a prefix announces, and what follows it. *)
Definition prefix (l : list ascii) : option (Z * list ascii) :=
  match l with
  | z :: x :: l' =>
      if decide (z = "0"%char) then
        if lower x =? 98 then Some (2, l') else if lower x =? 111 then Some (8, l')
        else if lower x =? 120 then Some (16, l') else None
      else None
  | _ => None
  end.

Definition underscoreOK (l : list ascii) : bool :=
  match prefix l with
  | Some (b, l') => underscores_ok (b =? 16) Digit l'
  | None => underscores_ok false Begin l
  end.

(** [strconv.ParseUint(s, 0, 64)], before the check of the range. *)
Definition parse_uint (l : list ascii) : option Z :=
  match l with
  | [] => None
  | z :: l' =>
      n ← match prefix l with
          | Some (b, (_ :: _) as ds) => base_digits b 0 ds
          | _ => if decide (z = "0"%char) then base_digits 8 0 l' else base_digits 10 0 l
          end;
      if existsb (λ c, bool_decide (c = "_"%char)) l && negb (underscoreOK l) then None else Some n
  end.

(** [strconv.ParseInt(s, 0, strconv.IntSize)] *)
Definition ParseInt (s : string) : option Z :=
  let '(sign, ds) := strconv.signed (to_bytes s) in
  n ← parse_uint ds; if strconv.in_int64 (sign * n) then Some (sign * n) else None.

Example integers :
  map ParseInt ["2000"; "-5"; "+7"; "0"; "0x1F"; "0b101"; "0o17"; "017"; "08"; "1_000"; "1__0"; "_1"; "0x_f"; "1_"; "";
                "0x"; "12a"; "9223372036854775807"; "9223372036854775808"; "-9223372036854775808"]%string =
  [Some 2000; Some (-5); Some 7; Some 0; Some 31; Some 5; Some 15; Some 15; None; Some 1000; None; None; Some 15; None; None;
   None; None; Some int64_max; None; Some (- 2 ^ 63)].
Proof. vm_compute. reflexivity. Qed.

(** [strconv.ParseBool] *)
Definition ParseBool (s : string) : option bool :=
  if bool_decide (s ∈ ["1"; "t"; "T"; "TRUE"; "true"; "True"]%string) then Some true
  else if bool_decide (s ∈ ["0"; "f"; "F"; "FALSE"; "false"; "False"]%string) then Some false
  else None.

(** ** The flags *)

Record command : Type := MkCommand { target : string; opts : loadgen.flags }.

Definition default_command : command :=
  MkCommand "http://localhost:8080/v1/events" loadgen.default_flags.

Inductive error : Type :=
  | BadSyntax (arg : string)
  | NotDefined (name : string)
  | Help
  | NeedsArgument (name : string)
  | InvalidValue (name value : string).

(** [Set] of the flag with that name; [None] for a name that is not defined. *)
Definition set_flag (name value : string) (c : command) : option (option command) :=
  let f := opts c in
  if decide (name = "target"%string) then Some (Some (MkCommand value f))
  else if decide (name = "rate"%string) then
    Some (n ← ParseInt value; Some (MkCommand (target c) (MkFlags n (duration f) (workers f) (eventName f) (dupes f) (exact f))))
  else if decide (name = "duration"%string) then
    Some (d ← strconv.ParseDuration value;
          Some (MkCommand (target c) (MkFlags (rate f) d (workers f) (eventName f) (dupes f) (exact f))))
  else if decide (name = "workers"%string) then
    Some (n ← ParseInt value; Some (MkCommand (target c) (MkFlags (rate f) (duration f) n (eventName f) (dupes f) (exact f))))
  else if decide (name = "event"%string) then
    Some (Some (MkCommand (target c) (MkFlags (rate f) (duration f) (workers f) value (dupes f) (exact f))))
  else if decide (name = "dupes"%string) then
    Some (n ← ParseInt value; Some (MkCommand (target c) (MkFlags (rate f) (duration f) (workers f) (eventName f) n (exact f))))
  else if decide (name = "exact"%string) then
    Some (b ← ParseBool value; Some (MkCommand (target c) (MkFlags (rate f) (duration f) (workers f) (eventName f) (dupes f) b)))
  else None.

Definition is_bool (name : string) : bool := bool_decide (name = "exact"%string).

(** [name=value], split at the first equals sign after the first byte. *)
Fixpoint split_eq (l : list ascii) : list ascii * option (list ascii) :=
  match l with
  | [] => ([], None)
  | c :: l => if decide (c = "="%char) then ([], Some l) else let '(n, v) := split_eq l in (c :: n, v)
  end.

Definition name_value (l : list ascii) : string * option string :=
  match l with
  | [] => (""%string, None)
  | c :: l => let '(n, v) := split_eq l in (of_bytes (c :: n), of_bytes <$> v)
  end.

(** What an argument is: not a flag, the end of the flags, or the text behind
    the one or two dashes. *)
Inductive arg : Type := Operand | Terminator | Flag (l : list ascii).

Definition classify (s : string) : arg :=
  match to_bytes s with
  | a :: b :: l =>
      if decide (a = "-"%char) then
        if decide (b = "-"%char) then match l with [] => Terminator | _ => Flag l end else Flag (b :: l)
      else Operand
  | _ => Operand
  end.

Definition bad_start (l : list ascii) : bool :=
  match l with c :: _ => bool_decide (c = "-"%char) || bool_decide (c = "="%char) | [] => true end.

(** The outcome of [Set] for a defined flag. *)
Definition apply_flag (name value : string) (c : command) : result error command :=
  match set_flag name value c with
  | None => Err (NotDefined name)
  | Some None => Err (InvalidValue name value)
  | Some (Some c') => Ok c'
  end.

Definition defined (name : string) : bool :=
  bool_decide (name ∈ ["target"; "rate"; "duration"; "workers"; "event"; "dupes"; "exact"]%string).

(** [flag.Parse]: [parseOne] until it stops. *)
Fixpoint Parse (args : list string) (c : command) : result error command :=
  match args with
  | [] => Ok c
  | s :: args =>
      match classify s with
      | Operand | Terminator => Ok c
      | Flag l =>
          if bad_start l then Err (BadSyntax s) else
          let '(name, value) := name_value l in
          if negb (defined name) then (if bool_decide (name ∈ ["help"; "h"]%string) then Err Help else Err (NotDefined name))
          else
          match value with
          | Some v => match apply_flag name v c with Ok c' => Parse args c' | Err e => Err e end
          | None =>
              if is_bool name then match apply_flag name "true" c with Ok c' => Parse args c' | Err e => Err e end
              else match args with
                   | [] => Err (NeedsArgument name)
                   | v :: args => match apply_flag name v c with Ok c' => Parse args c' | Err e => Err e end
                   end
          end
      end
  end.

(** ** Properties *)

Lemma defined_spec name c v : defined name = true ↔ is_Some (set_flag name v c).
Proof.
  unfold defined. rewrite bool_decide_eq_true, !elem_of_cons, elem_of_nil. unfold set_flag.
  split.
  - intros [->|[->|[->|[->|[->|[->|[->|[]]]]]]]]; by eexists.
  - intros [x Hx]. repeat (destruct (decide _) as [->|]; [tauto|]). done.
Qed.

(** A decimal digit in base 10. *)
Lemma letter_undigit c d : clock.undigit c = Some d → letter_value c = Some d ∧ 0 ≤ d ≤ 9 ∧ c ≠ "_"%char.
Proof.
  unfold clock.undigit, letter_value. fold (code c). case_match eqn:E; [|done]. intros [= <-].
  split_and!; [done|lia|lia|]. intros ->. by vm_compute in E.
Qed.

Lemma base_digits_ten l acc v : strconv.digits acc l = Some v → base_digits 10 acc l = Some v.
Proof.
  revert acc. induction l as [|c l IH]; intros acc; [done|]. cbn [strconv.digits base_digits].
  destruct (clock.undigit c) as [d|] eqn:Hd; [|done]. apply letter_undigit in Hd as (Hl & Hr & Hc). cbn [mbind option_bind].
  rewrite decide_False by done. rewrite Hl. cbn [mbind option_bind]. destruct (Z.leb_spec 10 d); [lia|]. apply IH.
Qed.

Lemma digit_no_prefix c : is_Some (clock.undigit c) → lower c ≠ 98 ∧ lower c ≠ 111 ∧ lower c ≠ 120.
Proof.
  intros [d Hd]. unfold clock.undigit in Hd. fold (code c) in Hd. case_match eqn:E; [|done]. clear Hd d.
  assert (∃ k, code c = k ∧ 48 ≤ k ≤ 57) as (k & Hk & Hr) by (eexists; split; [done|lia]).
  unfold lower. rewrite Hk. assert (k = 48 ∨ k = 49 ∨ k = 50 ∨ k = 51 ∨ k = 52 ∨ k = 53 ∨ k = 54 ∨ k = 55 ∨ k = 56 ∨ k = 57)
    as Hc by lia. by destruct Hc as [->|[->|[->|[->|[->|[->|[->|[->|[->| ->]]]]]]]]].
Qed.

Lemma parse_uint_decimal n : 0 ≤ n < 10 ^ 20 → parse_uint (strconv.decimal n) = Some n.
Proof.
  intros Hn. destruct (strconv.decimal_spec n Hn) as (c & l & Heq & Hc & Hl & Hd). rewrite Heq in *.
  assert (Forall (λ x, is_Some (clock.undigit x)) (c :: l)) as Hall by (by constructor).
  assert (existsb (λ x, bool_decide (x = "_"%char)) (c :: l) = false) as Hno.
  { apply not_true_iff_false. intros (x & Hx%list_elem_of_In & Hu%bool_decide_eq_true)%existsb_exists. subst x.
    rewrite Forall_forall in Hall. destruct (Hall _ Hx) as [d Hdd]. by vm_compute in Hdd. }
  assert (prefix (c :: l) = None) as Hpre.
  { unfold prefix. destruct l as [|x l]; [done|]. destruct (decide _); [|done].
    apply Forall_cons in Hl as [Hx _]. destruct (digit_no_prefix x Hx) as (H1 & H2 & H3).
    by rewrite !(proj2 (Z.eqb_neq _ _)) by done. }
  unfold parse_uint. rewrite Hpre, Hno. cbn [andb]. destruct (decide (n = 0)) as [->|Hne].
  - vm_compute in Heq. injection Heq as <- <-. done.
  - destruct (strconv.itoa_aux_head 20 n []) as (c' & l' & Heq' & Hc'); [lia|lia|].
    unfold strconv.decimal in Heq. rewrite Heq in Heq'. injection Heq' as -> ->.
    rewrite decide_False by done. by rewrite (base_digits_ten _ _ _ Hd).
Qed.

(** [ParseInt] in base 0 reads what [Itoa] prints. *)
Lemma ParseInt_Itoa z : strconv.in_int64 z = true → ParseInt (strconv.Itoa z) = Some z.
Proof.
  intros Hz. pose proof Hz as Hr. unfold strconv.in_int64, int64_max in Hr. rewrite andb_true_iff in Hr.
  unfold ParseInt, strconv.Itoa. rewrite String.list_ascii_of_string_of_list_ascii.
  destruct (Z.ltb_spec z 0).
  - unfold strconv.signed. rewrite decide_True by done. rewrite parse_uint_decimal by lia. cbn [mbind option_bind].
    by replace (-1 * - z) with z by lia; rewrite Hz.
  - destruct (strconv.decimal_spec z) as (c & l & Heq & Hc & _); [lia|].
    rewrite Heq, strconv.signed_decimal, <- Heq, parse_uint_decimal by (done || lia). cbn [mbind option_bind].
    by replace (1 * z) with z by lia; rewrite Hz.
Qed.

(** The command line that spells every flag out. *)
Definition args_of (c : command) : list string :=
  let f := opts c in
  ["-target"; target c; "-rate"; strconv.Itoa (rate f); "-duration"; strconv.print_ns (duration f);
   "--workers"; strconv.Itoa (workers f); "-event"; eventName f; "-dupes"; strconv.Itoa (dupes f);
   if exact f then "-exact" else "-exact=false"]%string.

(** One flag and its value, as two arguments. *)
Lemma Parse_value s l name v rest c c' :
  classify s = Flag l → bad_start l = false → name_value l = (name, None) → defined name = true →
  is_bool name = false → apply_flag name v c = Ok c' → Parse (s :: v :: rest) c = Parse rest c'.
Proof. intros H1 H2 H3 H4 H5 H6. cbn [Parse]. rewrite H1, H2, H3, H4. cbn [negb]. by rewrite H5, H6. Qed.

Ltac pick_flag :=
  unfold apply_flag, set_flag; repeat (rewrite decide_False by done); rewrite decide_True by done;
  repeat match goal with H : _ = Some _ |- _ => rewrite H; clear H end; reflexivity.

(** Every setting of the generator can be given on the command line, and is read
    back exactly. *)
Lemma Parse_args c c0 :
  strconv.in_int64 (rate (opts c)) = true → strconv.in_int64 (duration (opts c)) = true →
  strconv.in_int64 (workers (opts c)) = true → strconv.in_int64 (dupes (opts c)) = true →
  Parse (args_of c) c0 = Ok c.
Proof.
  intros Hr%ParseInt_Itoa Hd%strconv.ParseDuration_ns Hw%ParseInt_Itoa Hu%ParseInt_Itoa.
  destruct c as [t [r d w ev du ex]], c0 as [t0 [r0 d0 w0 ev0 du0 ex0]]. cbn [rate duration workers dupes opts] in *.
  unfold args_of. cbn [rate duration workers eventName dupes exact opts target].
  erewrite Parse_value; [|reflexivity..|pick_flag]. cbn [opts rate duration workers eventName dupes exact target].
  erewrite Parse_value; [|reflexivity..|pick_flag]. cbn [opts rate duration workers eventName dupes exact target].
  erewrite Parse_value; [|reflexivity..|pick_flag]. cbn [opts rate duration workers eventName dupes exact target].
  erewrite Parse_value; [|reflexivity..|pick_flag]. cbn [opts rate duration workers eventName dupes exact target].
  erewrite Parse_value; [|reflexivity..|pick_flag]. cbn [opts rate duration workers eventName dupes exact target].
  erewrite Parse_value; [|reflexivity..|pick_flag]. cbn [opts rate duration workers eventName dupes exact target].
  by destruct ex.
Qed.

(** The call of [scripts/chaos.sh] with its defaults, and the errors. *)
Example command_lines :
  Parse ["-rate"; "2000"; "-duration"; "10s"; "-event"; "chaos_test"; "-exact"]%string default_command =
    Ok (MkCommand (target default_command) (MkFlags 2000 (10 * clock.Second) 50 "chaos_test" 0 true)) ∧
  map (λ args, Parse args default_command)
    [["-rate"]; ["-rate"; "fast"]; ["--rps=5"]; ["-=5"]; ["-h"]; ["run"; "-rate"; "x"]; ["--"; "-rate"]; ["-exact=maybe"]]%string =
    [Err (NeedsArgument "rate"); Err (InvalidValue "rate" "fast"); Err (NotDefined "rps"); Err (BadSyntax "-=5"); Err Help;
     Ok default_command; Ok default_command; Err (InvalidValue "exact" "maybe")]%string.
Proof. split; vm_compute; reflexivity. Qed.
End flags.
