(* ===== verification/Server.v ===== *)
(** * The HTTP server of [cmd/tally]

    The routes that [ingest.Register], [dashboard.Register] and [main] put on
    one [ServeMux], and the server as a function from a request and its state
    (queue, limiter, metrics, store) to a reply and the next state.  The page of
    [internal/dashboard] is a parameter, an embedded file; the bodies that
    [promhttp] writes are named, not spelled out; what [pprof] answers is a
    parameter. *)

From S2P Require Import Prelude Float64 Hll Clock Strconv Http Store StoreSpec StoreQuery StoreProps.
From S2P Require Import Queue Ratelimit Metrics Ingest.
From stdpp Require Import prelude list strings gmap relations.
From Stdlib Require Import ZArith Lia Ascii.
Open Scope Z_scope.

Module server.
Import store (Event, Store, db).
Import http (mux, dispatch, Handle).

(** ** Routes *)

Inductive endpoint : Type :=
  | PostEvent | GetCount | GetUniques | GetStats | Health
  | Dashboard
  | Metrics | PprofIndex | PprofProfile | PprofTrace.

(** [Handler.Register] *)
Definition ingest_Register (m : mux endpoint) : option (mux endpoint) :=
  m ← Handle "POST /v1/events" PostEvent m;
  m ← Handle "GET /v1/counts" GetCount m;
  m ← Handle "GET /v1/uniques" GetUniques m;
  m ← Handle "GET /v1/stats" GetStats m;
  Handle "GET /healthz" Health m.

(** [dashboard.Register] *)
Definition dashboard_Register (m : mux endpoint) : option (mux endpoint) :=
  Handle "GET /{$}" Dashboard m.

(** The HTTP surface in [main]. *)
Definition routes : option (mux endpoint) :=
  m ← ingest_Register [];
  m ← dashboard_Register m;
  m ← Handle "GET /metrics" Metrics m;
  m ← Handle "GET /debug/pprof/" PprofIndex m;
  m ← Handle "GET /debug/pprof/profile" PprofProfile m;
  Handle "GET /debug/pprof/trace" PprofTrace m.

Definition app : mux endpoint := default [] routes.

(** ** Requests and replies *)

Record request : Type := MkRequest {
  r_method : string;
  r_path : string;          (* escaped, as on the wire *)
  r_query : string;
  r_caller : ratelimit.Request;
  r_body : string;
}.

Inductive content : Type :=
  | Body (b : ingest.body)
  | Page (html : string)
  | MetricsPage (m : metrics.t)
  | Profile (e : endpoint)
  | Empty.

Record reply : Type := MkReply {
  status : Z;
  content_type : option string;
  retry_after : option string;
  location : option string;
  allow : list string;
  payload : content;
}.

(** [http.Error] writes text, [writeJSON] JSON. *)
Definition is_text (b : ingest.body) : bool := match b with ingest.Text _ => true | _ => false end.

Definition of_response (r : ingest.response) : reply :=
  MkReply (ingest.code r)
    (Some (if is_text (ingest.res_body r) then "text/plain; charset=utf-8" else "application/json"))%string
    (ingest.retry_after r) None [] (Body (ingest.res_body r)).

(** What the library answers where no handler is found.  [RedirectHandler]: the
    query string is kept; a page comes with it for GET only. *)
Definition redirect_page (url : strconv.bytes) : string :=
  strconv.of_bytes (strconv.to_bytes "<a href=" ++ [ascii_of_N 34] ++ http.htmlEscape url ++
    [ascii_of_N 34] ++ strconv.to_bytes ">Moved Permanently</a>." ++ [ascii_of_N 10; ascii_of_N 10]).
Definition moved (meth path query : string) : reply :=
  let url := http.url_String (strconv.to_bytes path) (strconv.to_bytes query) in
  MkReply 301
    (if decide (meth = "GET" ∨ meth = "HEAD") then Some "text/html; charset=utf-8" else None)%string None
    (Some (strconv.of_bytes (http.hexEscapeNonASCII url))) []
    (if decide (meth = "GET") then Page (redirect_page url) else Empty)%string.
Definition method_not_allowed (ms : list string) : reply :=
  MkReply 405 (Some "text/plain; charset=utf-8"%string) None None ms (Body (ingest.Text "Method Not Allowed")).
Definition not_found : reply :=
  MkReply 404 (Some "text/plain; charset=utf-8"%string) None None [] (Body (ingest.Text "404 page not found")).

(** The reply to HEAD has no body. *)
Definition write (meth : string) (r : reply) : reply :=
  if decide (meth = "HEAD") then
    MkReply (status r) (content_type r) (retry_after r) (location r) (allow r) Empty
  else r.

(** [net/http/pprof]: what its handlers answer depends on the runtime.  They
    write a profile, or an error in plain text: 404 for a name that is not a
    profile, 400 or 500 when profiling cannot be started. *)
Class Pprof : Type := {
  pprof : endpoint → request → reply;
  pprof_status e r : status (pprof e r) ∈ [200; 400; 404; 500];
  pprof_headers e r :
    retry_after (pprof e r) = None ∧ location (pprof e r) = None ∧ allow (pprof e r) = [];
}.

Section server.
Context {Q L : Type} {enq : queue.Enqueuer Q} {lim : ratelimit.Limiter L} {dec : ingest.JsonDecoder}
  {pg : store.Postgres} {pp : Pprof} (math_Log : float64.t → float64.t) (indexHTML : string).

Record server : Type := MkServer {
  handler : ingest.Handler (Q := Q) (L := L);
  counters : metrics.t;
  stats : Store;
}.

(** The handler of [dashboard.Register]. *)
Definition dashboard_page : reply :=
  MkReply 200 (Some "text/html; charset=utf-8"%string) None None [] (Page indexHTML).

(** [t1], [t2], [t3] are the readings of the clock while the request is served. *)
Definition run_endpoint (t1 t2 t3 : clock.time) (e : endpoint) (r : request) (s : server)
    : option (reply * server) :=
  let query (f : Store → ingest.response * Store) :=
    let '(res, st) := f (stats s) in Some (of_response res, MkServer (handler s) (counters s) st) in
  let event := http.query_get (r_query r) "event" in
  match e with
  | PostEvent =>
      '(res, h, m) ← ingest.postEvent t1 t2 t3 (ingest.MkHttp (r_caller r) (r_body r)) (handler s) (counters s);
      Some (of_response res, MkServer h m (stats s))
  | GetCount => query (ingest.getCount t1 event)
  | GetUniques => query (ingest.getUniques math_Log t1 event)
  | GetStats => query (ingest.getStats math_Log t1 t2 t3)
  | Health => Some (of_response ingest.health, s)
  | Dashboard => Some (dashboard_page, s)
  | Metrics => Some (MkReply 200 (Some "text/plain; version=0.0.4; charset=utf-8"%string) None None []
                       (MetricsPage (counters s)), s)
  | PprofIndex | PprofProfile | PprofTrace => Some (pprof e r, s)
  end.

Definition serve (t1 t2 t3 : clock.time) (r : request) (s : server) : option (reply * server) :=
  '(rep, s') ← match dispatch app (r_method r) (r_path r) with
    | http.Found e => run_endpoint t1 t2 t3 e r s
    | http.Moved path => Some (moved (r_method r) path (r_query r), s)
    | http.MethodNotAllowed ms => Some (method_not_allowed ms, s)
    | http.NotFound => Some (not_found, s)
    end;
  Some (write (r_method r) rep, s').
End server.

(** ** Which request reaches which handler *)

Definition read_method (meth : string) : Prop := meth = "GET"%string ∨ meth = "HEAD"%string.

Definition route_of (e : endpoint) : option string :=
  match e with
  | PostEvent => Some "/v1/events"
  | GetCount => Some "/v1/counts"
  | GetUniques => Some "/v1/uniques"
  | GetStats => Some "/v1/stats"
  | Health => Some "/healthz"
  | Dashboard => Some "/"
  | Metrics => Some "/metrics"
  | PprofIndex => None
  | PprofProfile => Some "/debug/pprof/profile"
  | PprofTrace => Some "/debug/pprof/trace"
  end%string.

Definition method_of (e : endpoint) (meth : string) : Prop :=
  match e with PostEvent => meth = "POST"%string | _ => read_method meth end.

(** No pattern conflicts with another one: registration does not panic. *)
Lemma routes_registered : routes = Some app.
Proof. vm_compute. reflexivity. Qed.

Example app_table :
  map (λ mp, dispatch app mp.1 mp.2)
    [("POST", "/v1/events"); ("GET", "/v1/events"); ("GET", "/v1/counts"); ("HEAD", "/v1/counts");
     ("DELETE", "/healthz"); ("GET", "/"); ("GET", "/index.html"); ("GET", "/debug/pprof");
     ("GET", "/debug/pprof/heap"); ("GET", "/debug/pprof/profile"); ("GET", "/v1//stats");
     ("GET", "/v1/../healthz"); ("GET", "/metrics/")]%string =
  [http.Found PostEvent; http.MethodNotAllowed ["POST"]; http.Found GetCount; http.Found GetCount;
   http.MethodNotAllowed ["GET"; "HEAD"]; http.Found Dashboard; http.NotFound;
   http.Moved "/debug/pprof/"; http.Found PprofIndex; http.Found PprofProfile;
   http.Moved "/v1/stats"; http.Moved "/healthz"; http.NotFound]%string.
Proof. vm_compute. reflexivity. Qed.

Lemma clean_rooted path meth :
  (meth ≠ "CONNECT"%string → http.cleanPath (strconv.to_bytes path) = strconv.to_bytes path) →
  meth ≠ "CONNECT"%string → ∃ r, strconv.to_bytes path = "/"%char :: r.
Proof. intros Hc Hm. rewrite <- Hc by done. apply http.cleanPath_rooted. Qed.

Lemma to_bytes_inj s1 s2 : strconv.to_bytes s1 = strconv.to_bytes s2 → s1 = s2.
Proof.
  intros H. rewrite <- (String.string_of_list_ascii_of_string s1), H.
  apply String.string_of_list_ascii_of_string.
Qed.

(** The registered patterns, with the literal segments of their paths. *)
Definition literal_segs (e : endpoint) : list strconv.bytes :=
  match route_of e with
  | Some p => tail (strconv.split_on "/" (strconv.to_bytes p))
  | None => []
  end.

Definition method_text (e : endpoint) : string :=
  match e with PostEvent => "POST" | _ => "GET" end%string.

Definition pattern_segs (e : endpoint) : list http.seg :=
  match e with
  | Dashboard => [http.Lit ["/"%char]]
  | PprofIndex => [http.Lit (strconv.to_bytes "debug"); http.Lit (strconv.to_bytes "pprof"); http.Multi]
  | _ => map http.Lit (literal_segs e)
  end.

Lemma app_patterns p e :
  (p, e) ∈ app → http.p_method p = method_text e ∧ http.p_segs p = pattern_segs e.
Proof.
  intros Hin.
  assert (forallb (λ pe, bool_decide (http.p_method pe.1 = method_text pe.2) &&
    bool_decide (http.p_segs pe.1 = pattern_segs pe.2)) app = true) as Hall by (vm_compute; reflexivity).
  rewrite forallb_forall in Hall. specialize (Hall (p, e) (proj1 (list_elem_of_In _ _) Hin)).
  apply andb_true_iff in Hall as [H1 H2]. by apply bool_decide_eq_true in H1, H2.
Qed.

Lemma serves_method p e meth :
  (p, e) ∈ app → http.serves p meth → method_of e meth.
Proof.
  intros [Hm _]%app_patterns. unfold http.serves, method_of, read_method. rewrite Hm.
  destruct e; simpl; intros [<-|[[-> ?]|?]]; auto; done.
Qed.

Lemma method_of_not_connect e meth : method_of e meth → meth ≠ "CONNECT"%string.
Proof. destruct e; simpl; unfold read_method; intros Hm ->; intuition done. Qed.

Lemma literal_route e p :
  route_of e = Some p → e ≠ Dashboard →
  pattern_segs e = map http.Lit (literal_segs e) ∧ literal_segs e ≠ [] ∧
  (["/"%char] ∉ literal_segs e) ∧
  "/"%char :: strconv.join_with "/" (literal_segs e) = strconv.to_bytes p.
Proof.
  destruct e; intros [= <-] ?; (split; [done|]); (split; [done|]);
    (split; [apply (bool_decide_unpack _); vm_compute; exact I|vm_compute; reflexivity]).
Qed.

(** C38: every handler is reached by exactly the requests it is registered for.
    Registration does not panic on a conflict; a plain path (without
    percent-encoding) and a method reach a handler if and only if the path is
    the registered one and the method is POST for the write handler, and GET or
    HEAD for the others.  In particular the dashboard's pattern matches only
    the root, and nothing but [POST /v1/events] can add an event. *)
Theorem routes_exact meth path e p :
  "%"%char ∉ strconv.to_bytes path → route_of e = Some p →
  routes = Some app ∧
  (dispatch app meth path = http.Found e ↔ method_of e meth ∧ path = p).
Proof.
  intros Hplain Hroute. split; [apply routes_registered|]. split.
  - intros (pat & Hin & Hserves & Hm & Hclean)%http.dispatch_Found.
    pose proof (serves_method pat e meth Hin Hserves) as Hmeth. split; [done|].
    pose proof (clean_rooted path meth Hclean (method_of_not_connect e meth Hmeth)) as Hr.
    apply app_patterns in Hin as [_ Hsegs]. rewrite Hsegs in Hm. apply to_bytes_inj.
    assert (e = Dashboard ∨ e ≠ Dashboard) as [->|Hne] by (destruct e; auto).
    + apply http.root_path in Hm; [|done|done]. by injection Hroute as <-.
    + destruct (literal_route e p Hroute Hne) as (Hs & Hnil & Hroot & <-). rewrite Hs in Hm.
      by apply http.literal_path in Hm.
  - intros [Hmeth ->]. destruct e; try discriminate Hroute; injection Hroute as <-;
      simpl in Hmeth; unfold read_method in Hmeth;
      first [destruct Hmeth as [-> | ->]|subst meth]; vm_compute; reflexivity.
Qed.

Lemma routes_exact_witness :
  dispatch app "HEAD" "/" = http.Found Dashboard ∧ dispatch app "POST" "/v1/events" = http.Found PostEvent.
Proof.
  split.
  - refine (proj2 (proj2 (routes_exact "HEAD" "/" Dashboard "/" _ eq_refl)) _);
      [apply (bool_decide_unpack _); vm_compute; exact I|split; [right; reflexivity|reflexivity]].
  - refine (proj2 (proj2 (routes_exact "POST" "/v1/events" PostEvent "/v1/events" _ eq_refl)) _);
      [apply (bool_decide_unpack _); vm_compute; exact I|split; reflexivity].
Defined.

(** ** Every request is answered, and the state stays well formed *)

Definition statuses : list Z := [200; 202; 301; 400; 404; 405; 429; 500; 503].

(** A reply the server may give: [Location] comes with 301, [Allow] with 405,
    [Retry-After] only with 429 and 503. *)
Record reply_ok (r : reply) : Prop := {
  ok_status : status r ∈ statuses;
  ok_location : location r ≠ None ↔ status r = 301;
  ok_allow : allow r ≠ [] ↔ status r = 405;
  ok_retry : retry_after r ≠ None → status r = 429 ∨ status r = 503;
}.

Section invariant.
Context {L : Type} {lim : ratelimit.Limiter L} {dec : ingest.JsonDecoder} {pg : store.Postgres} {pp : Pprof}
  (math_Log : float64.t → float64.t) (indexHTML : string).
Implicit Types s : server (Q := queue.Memory) (L := L).

Record server_ok s : Prop := {
  ok_queue : queue.wf (ingest.queue_of (handler s));
  ok_accepted : 0 ≤ metrics.EventsAccepted (counters s);
  ok_rejected : 0 ≤ metrics.rejected (counters s);
  ok_rollups : store_spec.rollup_inv (db (stats s));
}.

Definition waiting s : list Event := queue.buf (queue.ch (ingest.queue_of (handler s))).

(** What one request does: an accepted event is appended to the queue and
    counted; otherwise the queue and the count are as before.  The tables are
    only read. *)
Record served s (rep : reply) s' : Prop := {
  sv_reply : reply_ok rep;
  sv_ok : server_ok s';
  sv_tables : db (stats s') = db (stats s);
  sv_queue :
    (status rep = 202 ∧ ∃ e, waiting s' = waiting s ++ [e] ∧
       store.EventID e ≠ ""%string ∧ store.Name e ≠ ""%string ∧
       metrics.EventsAccepted (counters s') = metrics.EventsAccepted (counters s) + 1) ∨
    (status rep ≠ 202 ∧ waiting s' = waiting s ∧
       metrics.EventsAccepted (counters s') = metrics.EventsAccepted (counters s));
}.

(** A reply that leaves queue and counters alone. *)
Lemma served_same s rep st :
  server_ok s → reply_ok rep → status rep ≠ 202 → db st = db (stats s) →
  served s rep (MkServer (handler s) (counters s) st).
Proof.
  intros [? ? ? Hr] Hrep Hst Hdb. split; simpl; [done| |done|right; done].
  split; simpl; [done..|]. by rewrite Hdb.
Qed.

Lemma query_keeps_db {A} (q : store.tables → result store.error A) (st : Store) :
  db (store.query q st).2 = db st.
Proof. unfold store.query. destruct (store.next (store.net st)) as [[] fs]; done. Qed.

(** The codes of the read handlers; they only read. *)
Definition read_only (f : Store → ingest.response * Store) : Prop :=
  ∀ st, ingest.code (f st).1 ∈ [200; 400; 500] ∧ ingest.retry_after (f st).1 = None ∧
        db (f st).2 = db st.

Lemma getCount_read_only now name : read_only (ingest.getCount now name).
Proof.
  intros st. unfold ingest.getCount. case_decide; [by repeat split; try apply (bool_decide_unpack _)|].
  unfold store.CountToday. pose proof (query_keeps_db (A := Z)) as Hdb.
  match goal with |- context [store.query ?q st] => specialize (Hdb q st) end.
  destruct (store.query _ st) as [[n|] st'];
    (split; [apply (bool_decide_unpack _); done|done]).
Qed.

Lemma getUniques_read_only now name : read_only (ingest.getUniques math_Log now name).
Proof.
  intros st. unfold ingest.getUniques. case_decide; [by repeat split; try apply (bool_decide_unpack _)|].
  unfold store.UniquesToday. pose proof (query_keeps_db (A := option Z)) as Hdb.
  match goal with |- context [store.query ?q st] => specialize (Hdb q st) end.
  destruct (store.query _ st) as [[n|] st'];
    (split; [apply (bool_decide_unpack _); done|done]).
Qed.

Lemma getStats_read_only t1 t2 t3 : read_only (ingest.getStats math_Log t1 t2 t3).
Proof.
  intros st. unfold ingest.getStats, store.TotalsToday.
  match goal with |- context [store.query ?q st] => pose proof (query_keeps_db q st) as H1 end.
  destruct (store.query _ st) as [[totals|] s1]; [|split; [apply (bool_decide_unpack _)|]; done].
  unfold store.UniquesTodayAll.
  match goal with |- context [store.query ?q s1] => pose proof (query_keeps_db q s1) as H2 end.
  destruct (store.query _ s1) as [[uniques|] s2]; simpl in *;
    [|split; [apply (bool_decide_unpack _); done|split; [done|congruence]]].
  unfold store.Series.
  match goal with |- context [store.query ?q s2] => pose proof (query_keeps_db q s2) as H3 end.
  destruct (store.query _ s2) as [[series|] s3]; simpl in *;
    (split; [apply (bool_decide_unpack _); done|split; [done|congruence]]).
Qed.

Lemma elem_of_statuses c : c ∈ statuses ↔ c = 200 ∨ c = 202 ∨ c = 301 ∨ c = 400 ∨ c = 404 ∨
  c = 405 ∨ c = 429 ∨ c = 500 ∨ c = 503.
Proof. unfold statuses. rewrite !elem_of_cons, elem_of_nil. tauto. Qed.

(** What a handler writes has neither [Location] nor [Allow]. *)
Lemma of_response_ok r :
  ingest.code r ∈ [200; 202; 400; 429; 500; 503] →
  (ingest.retry_after r ≠ None → ingest.code r = 429 ∨ ingest.code r = 503) →
  reply_ok (of_response r).
Proof.
  rewrite !elem_of_cons, elem_of_nil. intros Hc Hra. split; simpl; [| | |done].
  - apply elem_of_statuses. tauto.
  - split; [done|lia].
  - split; [done|lia].
Qed.

Lemma plain_ok c ct p : c ∈ [200; 400; 404; 500] → reply_ok (MkReply c ct None None [] p).
Proof.
  rewrite !elem_of_cons, elem_of_nil. intros Hc. split; simpl; [| | |done].
  - apply elem_of_statuses. tauto.
  - split; [done|lia].
  - split; [done|lia].
Qed.

Lemma served_query s (f : Store → ingest.response * Store) :
  server_ok s → read_only f →
  served s (of_response (f (stats s)).1) (MkServer (handler s) (counters s) (f (stats s)).2).
Proof.
  intros Hs Hf. destruct (Hf (stats s)) as (Hc & Hra & Hdb).
  rewrite !elem_of_cons, elem_of_nil in Hc. apply served_same; [done| |simpl; lia|done].
  apply of_response_ok; [rewrite !elem_of_cons; tauto|by rewrite Hra].
Qed.

Lemma served_plain s c ct p : server_ok s → c ∈ [200; 400; 404; 500] → served s (MkReply c ct None None [] p) s.
Proof.
  intros Hs Hc. destruct s. apply (served_same (MkServer _ _ _)); [done|by apply plain_ok| |done].
  rewrite !elem_of_cons, elem_of_nil in Hc. simpl. lia.
Qed.

Lemma served_post s t1 t2 t3 r :
  server_ok s → ∃ res h m,
    ingest.postEvent t1 t2 t3 r (handler s) (counters s) = Some (res, h, m) ∧
    served s (of_response res) (MkServer h m (stats s)).
Proof.
  intros Hs. pose proof Hs as [Hwf Ha Hr Hroll].
  destruct (ingest.postEvent_memory t1 t2 t3 r (handler s) (counters s) Hwf)
    as (res & h & m & Hp & Hcases).
  exists res, h, m. split; [done|].
  destruct Hcases as [(Hc & Hra & _ & req & e & (_ & Hid & Hn) & (Hid' & Hn' & _) & (He & Hacc & Hrej) & Hbuf)
                     |((Hq & Hc & Hacc & Hrej & Hra) & _)].
  - split; simpl.
    + apply of_response_ok; [rewrite Hc, !elem_of_cons; tauto|by rewrite Hra].
    + split; simpl; [|lia|by rewrite Hrej|done].
      by apply (queue.wf_enqueue e _ _ None Hwf He).
    + done.
    + left. split; [done|]. exists e. rewrite Hid', Hn'. done.
  - rewrite !elem_of_cons, elem_of_nil in Hc. split; simpl.
    + apply of_response_ok; [rewrite !elem_of_cons; tauto|done].
    + split; simpl; [by rewrite Hq|lia| |done]. rewrite Hrej. destruct (_ =? 500); lia.
    + done.
    + right. split; [lia|]. unfold waiting. simpl. by rewrite Hq.
Qed.

Lemma write_served s meth rep s' : served s rep s' → served s (write meth rep) s'.
Proof.
  intros [[? ? ? ?] ? ? ?]. unfold write. case_decide; (split; [split|..]); done.
Qed.

Lemma serve_served t1 t2 t3 r s :
  server_ok s → ∃ rep s', serve math_Log indexHTML t1 t2 t3 r s = Some (rep, s') ∧ served s rep s'.
Proof.
  intros Hs.
  assert (∃ rep s', match dispatch app (r_method r) (r_path r) with
    | http.Found e => run_endpoint math_Log indexHTML t1 t2 t3 e r s
    | http.Moved path => Some (moved (r_method r) path (r_query r), s)
    | http.MethodNotAllowed ms => Some (method_not_allowed ms, s)
    | http.NotFound => Some (not_found, s)
    end = Some (rep, s') ∧ served s rep s') as (rep & s' & Heq & Hsv).
  { destruct (dispatch app (r_method r) (r_path r)) as [e|path|ms|] eqn:Hd.
    - assert (∀ f, read_only f → ∃ rep s',
        (let '(res, st) := f (stats s) in Some (of_response res, MkServer (handler s) (counters s) st))
          = Some (rep, s') ∧ served s rep s') as Hquery.
      { intros f Hf. pose proof (served_query s f Hs Hf) as Hq.
        destruct (f (stats s)) as [res st]. eauto. }
      assert (∀ e, ∃ rep s', Some (pprof e r, s) = Some (rep, s') ∧ served s rep s') as Hpprof.
      { intros e'. eexists _, _. split; [reflexivity|]. destruct (pprof_headers e' r) as (Hra & Hl & Ha).
        pose proof (pprof_status e' r) as Hst. destruct (pprof e' r). simpl in *. subst. by apply served_plain. }
      destruct e; simpl; [| | | |..|exact (Hpprof PprofIndex)|exact (Hpprof PprofProfile)|exact (Hpprof PprofTrace)];
        try (eexists _, _; split; [reflexivity|]; by apply served_plain; [|apply (bool_decide_unpack _)]).
      + destruct (served_post s t1 t2 t3 (ingest.MkHttp (r_caller r) (r_body r)) Hs)
          as (res & h & m & -> & Hsv). simpl. eauto.
      + apply Hquery, getCount_read_only.
      + apply Hquery, getUniques_read_only.
      + apply Hquery, getStats_read_only.
    - eexists _, _. split; [reflexivity|]. destruct s.
      apply (served_same (MkServer _ _ _)); [done| |done|done].
      split; simpl; [by apply elem_of_statuses; auto|done|by split|done].
    - eexists _, _. split; [reflexivity|]. destruct s.
      apply (served_same (MkServer _ _ _)); [done| |done|done].
      apply http.dispatch_allow in Hd. split; simpl; [apply elem_of_statuses; auto 8|done|done|done].
    - eexists _, _. split; [reflexivity|]. by apply served_plain; [|apply (bool_decide_unpack _)]. }
  exists (write (r_method r) rep), s'. unfold serve. rewrite Heq. split; [done|]. by apply write_served.
Qed.

(** Requests served one after the other, each with its clock readings. *)
Fixpoint serve_all (rs : list (request * (clock.time * clock.time * clock.time))) s
    : option (list reply * server (Q := queue.Memory) (L := L)) :=
  match rs with
  | [] => Some ([], s)
  | (r, (t1, t2, t3)) :: rs =>
      '(rep, s) ← serve math_Log indexHTML t1 t2 t3 r s;
      '(reps, s) ← serve_all rs s;
      Some (rep :: reps, s)
  end.

Definition accepted_replies (reps : list reply) : Z := count (λ r, status r =? 202) reps.

(** C37: the server is well behaved under every sequence of requests, whatever
    their methods, paths and bodies.  Each one is answered with a well-formed
    reply; the state stays well formed (queue within its bound and consistent
    with its flag, counters not negative, rollups equal to the counts of the
    rows); the tables are only read; and the queue grows by exactly one valid
    event, at its end, for each 202, which is also what the accepted counter
    counts. *)
Theorem server_well_formed rs s :
  server_ok s →
  ∃ reps s' evs, serve_all rs s = Some (reps, s') ∧
    Forall reply_ok reps ∧ length reps = length rs ∧ server_ok s' ∧
    db (stats s') = db (stats s) ∧
    waiting s' = waiting s ++ evs ∧ Z.of_nat (length evs) = accepted_replies reps ∧
    Forall (λ e, store.EventID e ≠ ""%string ∧ store.Name e ≠ ""%string) evs ∧
    metrics.EventsAccepted (counters s') =
      metrics.EventsAccepted (counters s) + accepted_replies reps.
Proof.
  revert s. induction rs as [|[r [[t1 t2] t3]] rs IH]; intros s Hs.
  { exists [], s, []. rewrite app_nil_r. unfold accepted_replies. simpl.
    split_and!; [done|constructor|done|done|done|done|done|constructor|lia]. }
  destruct (serve_served t1 t2 t3 r s Hs) as (rep & s1 & Hr & [Hrep Hok Hdb Hq]).
  destruct (IH s1 Hok) as (reps & s2 & evs & Hall & Hreps & Hlen & Hok2 & Hdb2 & Hw & Hn & Hev & Hacc).
  exists (rep :: reps), s2. unfold accepted_replies in *. cbn [serve_all count]. rewrite Hr. simpl.
  rewrite Hall. simpl.
  destruct Hq as [(H202 & e & Hw1 & Hid & Hname & Hacc1)|(H202 & Hw1 & Hacc1)].
  - exists (e :: evs). rewrite H202, Z.eqb_refl. split_and!;
      [done|by constructor|by rewrite Hlen|done|congruence| |simpl; lia|by constructor|lia].
    by rewrite Hw, Hw1, <- app_assoc.
  - exists evs. rewrite (proj2 (Z.eqb_neq _ _) H202). split_and!;
      [done|by constructor|by rewrite Hlen|done|congruence|by rewrite Hw, Hw1|lia|done|lia].
Qed.
End invariant.

(** ** A concrete server *)

(** A runtime with the profiles that every Go program has. *)
Definition profiles : list string := ["allocs"; "block"; "goroutine"; "heap"; "mutex"; "threadcreate"]%string.
Definition go_pprof_reply (e : endpoint) (r : request) : reply :=
  match e with
  | PprofIndex =>
      if decide (r_path r ∈ "/debug/pprof/" :: map (String.append "/debug/pprof/") profiles)%string
      then MkReply 200 None None None [] (Profile e)
      else MkReply 404 (Some "text/plain; charset=utf-8"%string) None None [] (Body (ingest.Text "Unknown profile"))
  | _ => MkReply 200 None None None [] (Profile e)
  end.
#[local] Instance go_pprof : Pprof.
Proof.
  refine {| pprof := go_pprof_reply |}; intros e r; unfold go_pprof_reply;
    destruct e; try case_decide; try (by apply (bool_decide_unpack _)); done.
Defined.

Definition s_new : server (Q := queue.Memory) (L := unit) :=
  MkServer (ingest.New queue.q1 None) metrics.zero store_props.fresh.

Definition some_requests : list (request * (clock.time * clock.time * clock.time)) :=
  let caller := ratelimit.MkRequest "k" "1.2.3.4:5" in
  [(MkRequest "POST" "/v1/events" "" caller "id-1", (1, 2, 3));
   (MkRequest "GET" "/v1/counts" "event=click" caller "", (4, 4, 4));
   (MkRequest "GET" "/nowhere" "" caller "", (5, 5, 5));
   (MkRequest "GET" "/debug/pprof/heap" "" caller "", (6, 6, 6));
   (MkRequest "GET" "/debug/pprof/nothing" "" caller "", (7, 7, 7));
   (MkRequest "GET" "/v1//counts" "event=click" caller "", (8, 8, 8))].

Lemma server_well_formed_witness :
  ∃ reps s' evs,
    serve_all (lim := ingest.no_limit) (dec := ingest.fixed_decoder) (pg := store_props.utc_server)
      (λ x, x) "<html>" some_requests s_new = Some (reps, s') ∧
    Z.of_nat (length evs) = accepted_replies reps ∧ waiting s' = [] ++ evs.
Proof.
  destruct (server_well_formed (lim := ingest.no_limit) (dec := ingest.fixed_decoder)
    (pg := store_props.utc_server) (λ x, x) "<html>" some_requests s_new)
    as (reps & s' & evs & H1 & _ & _ & _ & _ & H2 & H3 & _).
  - split; [exact queue.q1_wf|discriminate|discriminate|vm_compute; reflexivity].
  - exists reps, s', evs. exact (conj H1 (conj H3 H2)).
Defined.

Example statuses_of_requests :
  (map status ∘ fst) <$>
    serve_all (lim := ingest.no_limit) (dec := ingest.fixed_decoder) (pg := store_props.utc_server)
      (λ x, x) "<html>" some_requests s_new = Some [202; 200; 404; 200; 404; 301].
Proof. vm_compute. reflexivity. Qed.

(** A redirect keeps the query string, and escapes what its path needs. *)
Example moved_locations :
  map (λ pq, location (moved "GET" pq.1 pq.2))
    [("/v1/counts", "event=click"); ("/debug/pprof/", ""); ("/a b%20", "x")]%string =
  [Some "/v1/counts?event=click"; Some "/debug/pprof/"; Some "/a%20b%2520?x"]%string.
Proof. vm_compute. reflexivity. Qed.
End server.
