(* ===== verification/Pipeline.v ===== *)
(** * The whole pipeline

    The store discharges the interface the workers were verified against, and
    the components are put together: the memory queue with the pool of
    [cmd/tally], and the Kafka consumer, both over the Postgres model. *)

From S2P Require Import Prelude Float64 Hll Clock Store StoreSpec StoreQuery StoreProps.
From S2P Require Import Queue Metrics Worker Kafka KafkaGroup Ratelimit Ingest Grpc Main.
From stdpp Require Import prelude gmap strings list relations.
From Stdlib Require Import ZArith Lia.
Open Scope Z_scope.

Module pipeline.
Import store (Event, Store, db).
Import store_spec.

(** ** The store as a sink *)

Section store_sink.
Context {pg : store.Postgres} {js : store.Json}.

#[global] Instance store_inserter : worker.BatchInserter Store := store.InsertBatch.

Definition store_holds (L : list Event) (s : Store) : Prop := represents L (db s).
Definition in_range (e : Event) : Prop := clock.year_ok (store.TS e) = true.


#[global] Instance store_idempotent : worker.IdempotentInserter Store store_holds in_range.
Proof.
  split; unfold store_holds, worker.insertBatch, store_inserter.
  - intros L1 L2 s. apply represents_same.
  - intros L evs s n s' Hr Hg Hib. rewrite Forall_forall in Hg.
    destruct (InsertBatch_simulates L evs s (Ok n) s' Hr Hg Hib) as [Hr' ->].
    split; [done|]. by eapply represents_inserted.
  - intros L evs s e s' Hr Hg Hib. rewrite Forall_forall in Hg.
    destruct (InsertBatch_simulates L evs s (Err e) s' Hr Hg Hib) as [->|[_ ?]]; auto.
Qed.
End store_sink.

(** ** What the metrics say about a pool *)

Definition accounted (m : metrics.t) : Z :=
  metrics.EventsInserted m + metrics.EventsDuplicate m + metrics.EventsDropped m.

Definition dropped_events (os : list (list Event * result store.error Z)) : Z :=
  foldr (λ o n, (if is_ok o.2 then 0 else Z.of_nat (length o.1)) + n) 0 os.

Lemma dropped_events_app os1 os2 :
  dropped_events (os1 ++ os2) = dropped_events os1 + dropped_events os2.
Proof. induction os1; simpl; lia. Qed.

Lemma dropped_events_nonneg os : 0 ≤ dropped_events os.
Proof. induction os as [|[b r] os IH]; simpl; [lia|]. destruct (is_ok r); lia. Qed.

Lemma dropped_events_zero os b err :
  dropped_events os = 0 → (b, Err err) ∈ os → b = [].
Proof.
  induction os as [|[b' r'] os IH]; [by intros _ ?%not_elem_of_nil|]. simpl.
  pose proof (dropped_events_nonneg os). rewrite elem_of_cons. intros Hz [[= <- <-]|Hin].
  - simpl in Hz. destruct b; [done|]. simpl in Hz. lia.
  - apply IH; [|done]. destruct (is_ok r'); lia.
Qed.

(** [cmd/tally]'s pool: [worker.New] with [OnFlush: onFlush]. *)
Definition pool_cfg (workers batchSize flushInterval : Z) : worker.Config metrics.t :=
  worker.New (worker.MkConfig workers batchSize flushInterval 0 (Some tally.onFlush)).

Section memory_mode.
Context {S : Type} {ins : worker.BatchInserter S} (workers batchSize flushInterval : Z).
Abbreviation cfg := (pool_cfg workers batchSize flushInterval).
Implicit Types p : worker.pool (S := S) (M := metrics.t).

Lemma report_onFlush b r took m :
  let m' := worker.report cfg (worker.flush_info b r took) m in
  accounted m' = accounted m + Z.of_nat (length b) ∧
  metrics.EventsDropped m' = metrics.EventsDropped m + dropped_events [(b, r)].
Proof. destruct r; unfold accounted; simpl; lia. Qed.

Definition metrics_inv (m0 : metrics.t) p : Prop :=
  accounted (worker.hook p) = accounted m0 + Z.of_nat (length (worker.flushed p)) ∧
  metrics.EventsDropped (worker.hook p) =
    metrics.EventsDropped m0 + dropped_events (worker.outcomes p).

Lemma metrics_inv_step m0 p p' : metrics_inv m0 p → worker.pstep cfg p p' → metrics_inv m0 p'.
Proof.
  intros [Ha Hd] Hs. destruct Hs as [p p' Hs|p e q' Hq|p p' i now e Hs|p]; [|by split| |by split].
  2: { apply worker.hand_over_frame in Hs as (_ & _ & Hh & Ho & _). unfold metrics_inv, worker.flushed.
       by rewrite Hh, Ho. }
  destruct Hs as [p p' i now rd Hs]. unfold metrics_inv, worker.flushed.
  destruct (worker.worker_step_report _ _ _ _ _ _ Hs) as [[-> ->]|(b & r & took & -> & ->)]; [done|].
  destruct (report_onFlush b r took (worker.hook p)) as [Ha' Hd'].
  rewrite map_app, concat_app, length_app, dropped_events_app. simpl concat. rewrite app_nil_r.
  split; [rewrite Ha', Ha; unfold worker.flushed; lia|rewrite Hd', Hd; lia].
Qed.

Lemma metrics_inv_reachable m0 qq s p :
  rtc (worker.pstep cfg) (worker.start cfg qq s m0) p → metrics_inv m0 p.
Proof.
  intros Hr. assert (metrics_inv m0 (worker.start cfg qq s m0)) as H0.
  { split; simpl; lia. }
  induction Hr as [|p1 p2 p3 Hs _ IH]; [done|]. apply IH. by eapply metrics_inv_step.
Qed.

Lemma pool_cfg_valid : worker.valid cfg.
Proof. apply worker.New_valid. Qed.

(** C31: the metrics account for every event.  In every reachable state the
    inserted, duplicate and dropped counters add up to the events of the
    finished batches; once all workers have returned, to the accepted events. *)
Theorem metrics_account_for_all size qq (s : S) p :
  queue.NewMemory size = Some qq →
  rtc (worker.pstep cfg) (worker.start cfg qq s metrics.zero) p →
  accounted (worker.hook p) = Z.of_nat (length (worker.flushed p)) ∧
  (Forall (λ w, w = worker.Exited) (worker.ws p) →
   accounted (worker.hook p) = Z.of_nat (length (worker.accepted p))).
Proof.
  intros Hq Hr. destruct (metrics_inv_reachable metrics.zero qq s p Hr) as [Ha _].
  split; [done|]. intros Hex. rewrite Ha.
  pose proof (worker.pool_inv_reachable _ _ _ pool_cfg_valid
    (worker.start_inv _ _ _ s metrics.zero pool_cfg_valid Hq) Hr) as Hinv.
  destruct (worker.exited_drained _ _ pool_cfg_valid Hinv Hex) as (_ & _ & Hp).
  by rewrite (Permutation_length Hp).
Qed.

(** With nothing dropped, the drained sink holds exactly the accepted events. *)
Lemma drained_holds {holds good} `{!worker.IdempotentInserter S holds good} size qq L0 s p :
  queue.NewMemory size = Some qq → holds L0 s →
  rtc (worker.pstep cfg) (worker.start cfg qq s metrics.zero) p →
  Forall good (worker.accepted p) → Forall (λ w, w = worker.Exited) (worker.ws p) →
  metrics.EventsDropped (worker.hook p) = 0 →
  holds (L0 ++ worker.accepted p) (worker.sink p).
Proof.
  intros Hq HL Hr Hg Hex Hdrop.
  destruct (metrics_inv_reachable metrics.zero qq s p Hr) as [_ Hd]. simpl in Hd.
  destruct (worker.drained_pool cfg size qq L0 s metrics.zero p pool_cfg_valid Hq HL Hr Hg Hex)
    as (L & HL' & Hsub & Hall).
  eapply worker.holds_same; [|exact HL']. intros e. rewrite !elem_of_app.
  split; (intros [?|He]; [by left|right]); [by apply Hsub|].
  destruct (Hall e He) as [?|(b & err & Hin & Hb)]; [done|].
  apply dropped_events_zero in Hin; [|lia]. subst b. by apply not_elem_of_nil in Hb.
Qed.
End memory_mode.

(** ** Memory mode, end to end *)

Section end_to_end.
Context {pg : store.Postgres} {js : store.Json}.

(** C1: memory mode counts every accepted event exactly once.  Start from
    empty tables and take any run of producers, workers, faulty connection and
    shutdown; when the workers have returned and the dropped counter is zero,
    the tables represent exactly the accepted events, with one row per distinct
    id.  Then, over a quiet connection and for a name that is not empty and that
    Postgres can hold, [GET /v1/counts] answers 200 and counts one accepted event
    of each id: the number of those of that name and of today.  Where the re-sends
    of an id agree on being of that name and of today (they need not be identical:
    the HTTP door stamps each with its own time), this is the number of distinct
    ids accepted with that name today. *)
Theorem memory_mode_exactly_once workers batchSize flushInterval qsize qq s p :
  let cfg := pool_cfg workers batchSize flushInterval in
  queue.NewMemory qsize = Some qq → db s = store.empty_tables →
  rtc (worker.pstep cfg) (worker.start cfg qq s metrics.zero) p →
  Forall in_range (worker.accepted p) → Forall (λ w, w = worker.Exited) (worker.ws p) →
  metrics.EventsDropped (worker.hook p) = 0 →
  represents (worker.accepted p) (db (worker.sink p)) ∧
  size (store.events (db (worker.sink p))) =
    size (list_to_set (map store.EventID (worker.accepted p)) : gset string) ∧
  ∀ now name, name ≠ ""%string → store.pg_text name = true →
    store.net (worker.sink p) = [] → Z.of_nat (length (worker.accepted p)) ≤ int64_max →
    ∃ kept, store_query.one_per_id (worker.accepted p) kept ∧
      ingest.getCount now name (worker.sink p) =
        (ingest.writeJSON 200 (ingest.CountOf name (count (store_query.event_today now name) kept)),
         worker.sink p) ∧
      (store_query.resends_agree now name (worker.accepted p) →
       count (store_query.event_today now name) kept =
         Z.of_nat (size (store_query.ids_today now name (worker.accepted p)))).
Proof.
  intros cfg Hq Hdb Hr Hg Hex Hdrop.
  assert (store_holds [] s) as H0 by (unfold store_holds; rewrite Hdb; apply represents_empty).
  pose proof (drained_holds workers batchSize flushInterval qsize qq [] s p Hq H0 Hr Hg Hex Hdrop) as Hrep.
  unfold store_holds in Hrep. simpl in Hrep. split; [done|].
  assert (size (store.events (db (worker.sink p))) =
    size (list_to_set (map store.EventID (worker.accepted p)) : gset string)) as Hsize.
  { by rewrite <- size_dom, (represents_dom _ _ Hrep). }
  split; [done|]. intros now name Hname Htext Hnet Hlen.
  pose proof (size_list_to_set_le (map store.EventID (worker.accepted p))) as Hle. rewrite length_map in Hle.
  destruct (store_query.CountToday_kept _ _ now name Hrep Hnet) as (kept & Hk & Hc & Hn); [lia|].
  exists kept. split; [done|]. split; [|done].
  unfold ingest.getCount. rewrite decide_False by done. by rewrite Hc, Htext.
Qed.

(** ** Kafka mode, end to end *)

Section kafka_mode.
Context {B M : Type} {codec : kafka.Codec} (batchSize : Z) (hook : option (worker.FlushInfo → M → M)).

Section group.
Context {grp : group.Group B} {laws : group.GroupLaws B}.
Implicit Types g : group.system (B := B) (S := Store) (M := M).

(** A new deployment with empty tables. *)
Definition deployed g : Prop :=
  group.fresh (holds := store_holds) [] g ∧ db (group.sink g) = store.empty_tables.

Definition topic_in_range g : Prop :=
  ∀ r e, r ∈ group.topic (group.broker g) → group.carries r e → in_range e.

Lemma group_caught_up g g' :
  deployed g → rtc (group.gstep batchSize hook) g g' → topic_in_range g' →
  group.uncommitted (group.broker g') = [] →
  represents (kafka.decode (group.topic (group.broker g'))) (db (group.sink g')).
Proof.
  intros [Hf _] Hr Hg Hu.
  exact (group.caught_up (holds := store_holds) (good := in_range) batchSize hook [] g g' Hf Hr Hg Hu).
Qed.

(** C2: Kafka mode is exactly-once in effect.  From an empty topic and empty
    tables, with any number of consumers in the group and through any
    interleaving of redeliveries, rebalances, failed commits and crashes: once
    nothing is uncommitted the tables represent the decoded topic.  Compared with
    any other history of the same events, such as one delivery without a fault,
    they have rows for the same ids and the same sketches; and where the messages
    of one id are stored as the same row, all tables are equal.  (Messages of one
    id that differ leave the row of the one stored first.) *)
Theorem kafka_mode_exactly_once g g' :
  deployed g → rtc (group.gstep batchSize hook) g g' → topic_in_range g' →
  group.uncommitted (group.broker g') = [] →
  represents (kafka.decode (group.topic (group.broker g'))) (db (group.sink g')) ∧
  ∀ L t, represents L t → same_elems L (kafka.decode (group.topic (group.broker g'))) →
    dom (store.events (db (group.sink g'))) = dom (store.events t) ∧
    store.event_uniques_day (db (group.sink g')) = store.event_uniques_day t ∧
    (consistent L → db (group.sink g') = t).
Proof.
  intros Hd Hr Hg Hu. pose proof (group_caught_up g g' Hd Hr Hg Hu) as Hrep.
  split; [done|]. intros L t Ht Hse.
  destruct (represents_shape L _ t _ Ht Hrep Hse) as [-> ->]. split; [done|]. split; [done|].
  intros Hc. symmetry. by eapply represents_functional.
Qed.

(** From the producer through Kafka to the tables.  A producer accepts events
    and is closed, logging no loss; the broker keeps what it acknowledged; the
    consumer group has caught up.  Then every event that was accepted has its
    row, under its id, and is among the events that the tables represent, for
    any codec that reads back the accepted events. *)
Lemma accepted_in_tables {P : Type} {kgo : kafka.Kgo P} {obx : kafka.Outbox P}
    {olaws : kafka.OutboxLaws P} (p p' : kafka.KafkaProducer (B := P)) acc g g' :
  kafka.acked (kafka.cl p) = [] → kafka.failed (kafka.cl p) = [] →
  kafka.buffered (kafka.cl p) = [] → 0 ≤ kafka.maxBuf p →
  rtc kafka.plife (p, []) (p', acc) →
  kafka.failed (kafka.cl (kafka.Close p').2) = [] →
  (∀ m, m ∈ kafka.acked (kafka.cl (kafka.Close p').2) →
     ∃ r, r ∈ group.topic (group.broker g') ∧ kafka.Value r = m.2) →
  (∀ e v, e ∈ acc → kafka.json_Marshal_event e = Some v → kafka.json_Unmarshal_event v = Some e) →
  deployed g → rtc (group.gstep batchSize hook) g g' → topic_in_range g' →
  group.uncommitted (group.broker g') = [] →
  ∃ L, represents L (db (group.sink g')) ∧
    ∀ e, e ∈ acc → e ∈ L ∧ is_Some (store.events (db (group.sink g')) !! store.EventID e).
Proof.
  intros Ha Hf Hb Hmax Hp Hlost Hdur Hcodec Hd Hr Hg Hu.
  pose proof (group_caught_up g g' Hd Hr Hg Hu) as Hrep. eexists. split; [exact Hrep|].
  destruct (kafka.closed_placed p p' acc Ha Hf Hb Hmax Hp) as ((ms & Hms & Hperm) & Hbuf).
  intros e He. assert (e ∈ kafka.decode (group.topic (group.broker g'))) as Hin.
  { apply list_elem_of_lookup in He as [i Hi].
    destruct (Forall2_lookup_l _ _ _ _ _ Hms Hi) as (m & Hm & Hmsg).
    apply list_elem_of_lookup_2 in Hm. rewrite Hperm, Hlost, Hbuf, !elem_of_app, !elem_of_nil in Hm.
    destruct (Hdur m) as (r & Hr' & Hv); [tauto|].
    unfold kafka.message_of in Hmsg. destruct (kafka.json_Marshal_event e) as [v|] eqn:Hmar; [|done].
    injection Hmsg as <-. apply group.elem_of_decode. exists r. split; [done|].
    unfold group.carries. rewrite Hv. simpl. apply Hcodec; [by eapply list_elem_of_lookup_2|done]. }
  split; [done|].
  destruct (store.events (db (group.sink g')) !! store.EventID e) as [row|] eqn:Hrow; [by eexists|].
  by destruct (proj1 (rep_absent _ _ Hrep (store.EventID e)) Hrow e Hin).
Qed.
End group.

Context {kgo : kafka.Kgo B}.
Implicit Types s : kafka.system (B := B) (S := Store) (M := M).

(** C32: one unstorable event wedges its partition.  While [Run] is at a batch
    that contains an event with a NUL byte, no sequence of its steps leaves that
    batch: nothing is stored, nothing is committed, and no later record is
    polled, until the process is stopped. *)
Theorem poison_wedges_partition s s' recs events st a e :
  kafka.run s = kafka.Inserting recs events st a → kafka.ctx_done s = false →
  e ∈ events → store.storable_text e = false →
  rtc (kafka.rstep batchSize hook) s s' →
  (∃ st' a', kafka.run s' = kafka.Inserting recs events st' a') ∧
  db (kafka.sink s') = db (kafka.sink s) ∧ kafka.broker s' = kafka.broker s.
Proof.
  intros Hrun Hctx He Hbad Hr.
  destruct (kafka.stuck_batch batchSize hook (λ x, db x = db (kafka.sink s)) recs events) with s s'
    as (? & _ & ? & ?); [|by eauto|done|done|done|done].
  intros x Hx. unfold worker.insertBatch, store_inserter.
  destruct (store.InsertBatch events x) as [r x'] eqn:Hib.
  destruct (store_props.poison_blocks events e x r x' He Hbad Hib) as [[err ->] Hdb].
  exists err, x'. split; [done|congruence].
Qed.
End kafka_mode.
End end_to_end.

(** ** Concrete instances *)

Section witnesses.
#[local] Existing Instance store_props.utc_server.
#[local] Existing Instance store_props.flat_json.
#[local] Existing Instance kafka.id_codec.
Import store_props.

Abbreviation store_pool := (worker.pool (S := Store) (M := metrics.t)).

Definition q3 : queue.Memory := queue.MkMemory (queue.MkChan 3 [] false) false.
Definition cfg3 : worker.Config metrics.t := pool_cfg 1 3 0.
Definition batch : list Event := resent.

(** Three events, two of them with one id: accepted, received, flushed as one batch,
    then [Close] lets the worker return. *)
Definition p_with (s : Store) : store_pool :=
  worker.MkPool (queue.MkMemory (queue.MkChan 3 [] true) true) [worker.Exited] s
    (tally.onFlush (worker.flush_info batch (Ok 2) (worker.time_Sub 0 0)) metrics.zero)
    batch [(batch, Ok 2)].
Definition p_end : store_pool := p_with after_resent.

Definition open_queue (b : list Event) : queue.Memory :=
  queue.MkMemory (queue.MkChan 3 b false) false.

Lemma three_accepted (s : Store) :
  rtc (worker.pstep cfg3) (worker.start cfg3 q3 s metrics.zero)
    (worker.MkPool (open_queue batch) [worker.Collecting []] s metrics.zero batch []).
Proof.
  eapply rtc_l; [eapply (worker.ps_enqueue _ _ e1); reflexivity|].
  eapply rtc_l; [eapply (worker.ps_enqueue _ _ e2); reflexivity|].
  eapply rtc_l; [eapply (worker.ps_enqueue _ _ e1_again); reflexivity|]. apply rtc_refl.
Qed.

Lemma three_received (s : Store) :
  rtc (worker.pstep cfg3)
    (worker.MkPool (open_queue batch) [worker.Collecting []] s metrics.zero batch [])
    (worker.MkPool (open_queue []) [worker.Flushing batch 0 1 false] s metrics.zero batch []).
Proof.
  do 3 (eapply rtc_l; [apply worker.ps_worker, (worker.ws_step _ _ _ 0%nat 0 worker.Receive); reflexivity|]).
  apply rtc_refl.
Qed.

Lemma one_batch_run s s' :
  store.InsertBatch batch s = (Ok 2, s') →
  rtc (worker.pstep cfg3) (worker.start cfg3 q3 s metrics.zero) (p_with s').
Proof.
  intros Hib. etrans; [apply three_accepted|]. etrans; [apply three_received|].
  apply (rtc_l _ _ (worker.MkPool (open_queue []) [worker.Collecting []] s' (worker.hook (p_with s'))
                      batch [(batch, Ok 2)])).
  { apply worker.ps_worker.
    exact (worker.insert_ok_step cfg3 (worker.MkPool (open_queue []) [worker.Flushing batch 0 1 false] s
             metrics.zero batch []) 0%nat batch 0 1 false 0 2 s' eq_refl ltac:(discriminate) Hib). }
  eapply rtc_l; [apply worker.ps_close|].
  eapply rtc_l; [apply worker.ps_worker, (worker.ws_step _ _ _ 0%nat 0 worker.Receive); reflexivity|].
  apply rtc_refl.
Qed.

Lemma p_end_reachable :
  rtc (worker.pstep cfg3) (worker.start cfg3 q3 store_props.fresh metrics.zero) p_end.
Proof. exact (one_batch_run _ _ resent_result). Qed.

Lemma metrics_account_for_all_witness :
  accounted (worker.hook p_end) = 3 ∧
  (Forall (λ w, w = worker.Exited) (worker.ws p_end) → accounted (worker.hook p_end) = 3).
Proof.
  exact (metrics_account_for_all 1 3 0 3 q3 store_props.fresh p_end eq_refl p_end_reachable).
Defined.

Lemma memory_mode_exactly_once_witness :
  represents batch (db after_resent) ∧
  ingest.getCount t0 "buy" after_resent = (ingest.writeJSON 200 (ingest.CountOf "buy" 2), after_resent).
Proof.
  destruct (memory_mode_exactly_once 1 3 0 3 q3 store_props.fresh p_end) as (Hr & _ & Hc).
  - reflexivity.
  - reflexivity.
  - exact p_end_reachable.
  - apply Forall_forall. exact resent_years.
  - repeat constructor.
  - reflexivity.
  - split; [exact Hr|].
    destruct (Hc t0 "buy"%string ltac:(discriminate) eq_refl after_resent_quiet ltac:(discriminate))
      as (kept & _ & Heq & Hn).
    rewrite (Hn resent_agree) in Heq. etransitivity; [exact Heq|].
    apply (f_equal (λ n, (ingest.writeJSON 200 (ingest.CountOf "buy" n), after_resent))).
    vm_compute. reflexivity.
Defined.

(** Kafka: the takeover of [KafkaGroup] over the store.  The first insert is
    applied but its reply to [Commit] is lost. *)
Definition lossy : Store :=
  store.MkStore store.empty_tables
    (replicate 5 store.NoFault ++ [store.FaultAfter]).
Definition x1 : Store := (store.InsertBatch [kafka.ev1] lossy).2.
Definition x2 : Store := (store.InsertBatch [kafka.ev1] x1).2.
Definition x3 : Store := (store.InsertBatch [kafka.ev1] x2).2.

Lemma x1_result : store.InsertBatch [kafka.ev1] lossy = (Err store.ErrConn, x1).
Proof. unfold x1. apply pair_fst. vm_compute. reflexivity. Qed.
Lemma x2_result : store.InsertBatch [kafka.ev1] x1 = (Ok 0, x2).
Proof. unfold x2. apply pair_fst. vm_compute. reflexivity. Qed.
Lemma x3_result : store.InsertBatch [kafka.ev1] x2 = (Ok 0, x3).
Proof. unfold x3. apply pair_fst. vm_compute. reflexivity. Qed.

Abbreviation store_group := (group.system (B := group.mini) (S := Store) (M := metrics.t)).

Definition k0 : store_group := group.empty_group lossy metrics.zero.
Definition k1 : store_group :=
  group.MkGroup (group.one group.kv1 1 (Some 1%nat) 1) x3
    [group.polling (group.told (Some tally.onFlush) group.kv1 0 metrics.zero);
     group.polling (group.told (Some tally.onFlush) group.kv1 0 metrics.zero)].

Lemma kv1_event : kafka.decode [group.rec_of group.kv1] = [kafka.ev1].
Proof. reflexivity. Qed.

Lemma k1_reachable : rtc (group.gstep 10 (Some tally.onFlush)) k0 k1.
Proof.
  apply (group.takeover_run (Some tally.onFlush) group.kv1 lossy x1 x2 x3 store.ErrConn 0 0 metrics.zero);
    rewrite kv1_event; [exact x1_result|exact x2_result|exact x3_result].
Qed.

Lemma k0_deployed : deployed k0.
Proof. split; [|reflexivity]. apply group.empty_group_fresh. apply represents_empty. Qed.

Lemma k1_in_range : topic_in_range k1.
Proof.
  intros r e Hr. apply list_elem_of_singleton in Hr as ->. intros Hc. injection Hc as <-. reflexivity.
Qed.

Lemma kafka_mode_exactly_once_witness :
  represents (kafka.decode (group.topic (group.broker k1))) (db (group.sink k1)) ∧
  ∀ L t, represents L t → same_elems L (kafka.decode (group.topic (group.broker k1))) →
    dom (store.events (db (group.sink k1))) = dom (store.events t) ∧
    store.event_uniques_day (db (group.sink k1)) = store.event_uniques_day t ∧
    (consistent L → db (group.sink k1) = t).
Proof.
  exact (kafka_mode_exactly_once 10 (Some tally.onFlush) k0 k1 k0_deployed k1_reachable
    k1_in_range eq_refl).
Defined.

Lemma accepted_in_tables_example :
  ∃ L, represents L (db x3) ∧
    ∀ e, e ∈ [kafka.ev1] → e ∈ L ∧ is_Some (store.events (db x3) !! store.EventID e).
Proof.
  refine (accepted_in_tables (obx := kafka.out3_outbox) 10 (Some tally.onFlush) kafka.p_new kafka.p_full [kafka.ev1] k0 k1
    eq_refl eq_refl eq_refl ltac:(discriminate) kafka.p_full_reachable eq_refl _ _
    k0_deployed k1_reachable k1_in_range eq_refl).
  - intros m ->%list_elem_of_singleton. exists (group.rec_of group.kv1). split; [left|reflexivity].
  - intros e v ->%list_elem_of_singleton [= <-]. reflexivity.
Defined.

Definition poison : Event := store.MkEvent "2" store_props.nul_name "u" None 0.

Definition k_poison : kafka.system (B := kafka.out3) (S := Store) (M := metrics.t) :=
  kafka.MkSystem (kafka.MkOut [] [] []) store_props.fresh metrics.zero
    (kafka.Inserting [(group.rec_of group.kv1)] [poison] 0 1) false.

Lemma poison_wedges_partition_witness :
  let s := kafka.insert_step (Some tally.onFlush) 0 false [(group.rec_of group.kv1)] [poison] 0 1 k_poison in
  (∃ st' a', kafka.run s = kafka.Inserting [(group.rec_of group.kv1)] [poison] st' a') ∧
  db (kafka.sink s) = db (kafka.sink k_poison) ∧ kafka.broker s = kafka.broker k_poison.
Proof.
  intros s. apply (poison_wedges_partition 10 (Some tally.onFlush) k_poison s [(group.rec_of group.kv1)] [poison] 0 1 poison);
    [reflexivity|reflexivity|left|reflexivity|].
  apply rtc_once, kafka.rs_insert; [reflexivity|discriminate].
Defined.
End witnesses.
End pipeline.
