(* ===== verification/Doors.v ===== *)
(** * Requests inside the doors

    What the processes of [Process] and [KafkaProcess] share: the two listeners,
    the requests that their handlers are serving, and where the main goroutine
    of [cmd/tally] stands. *)

From S2P Require Import Prelude Main.
From stdpp Require Import prelude list.
From Stdlib Require Import ZArith Lia.

Module doors.

Inductive door : Type := DHttp | DGrpc.

#[global] Instance door_eq_dec : EqDecision door.
Proof. solve_decision. Defined.

Inductive listener : Type := Serving | Draining | Stopped.

#[global] Instance listener_eq_dec : EqDecision listener.
Proof. solve_decision. Defined.

(** The main goroutine: before the signal, in the shutdown sequence with the
    actions left, past its end; or the process is gone because [ListenAndServe]
    failed and its goroutine called [log.Fatalf]. *)
Inductive main_pc : Type := Running | Shutting (rest : list tally.action) | Finished | Crashed.

(** The process is still there. *)
Definition up (m : main_pc) : Prop := match m with Running | Shutting _ => True | _ => False end.
#[global] Instance up_dec m : Decision (up m).
Proof. destruct m; apply _. Defined.

(** A request: the door it came through, and where its handler stands. *)
Record call (P : Type) : Type := MkCall { via : door; pc : P }.
Arguments MkCall {P} via pc.
Arguments via {P} c : rename.
Arguments pc {P} c : rename.

Section calls.
Context {P : Type} {live : P → bool}.
Implicit Types (c : call P) (cs : list (call P)).

(** A handler is still running behind that door. *)
Definition busy (d : door) cs : bool := existsb (λ c, live (pc c) && bool_decide (via c = d)) cs.

Lemma busy_false d cs : busy d cs = false ↔ ∀ c, c ∈ cs → via c = d → live (pc c) = false.
Proof.
  unfold busy. split.
  - intros Hb c Hc Hd. destruct (live (pc c)) eqn:Ha; [|done].
    assert (existsb (λ c, live (pc c) && bool_decide (via c = d)) cs = true) as Ht; [|congruence].
    apply existsb_exists. exists c. split; [by apply list_elem_of_In|].
    by rewrite Ha, bool_decide_eq_true_2.
  - intros Hall. apply not_true_iff_false. intros (c & Hc%list_elem_of_In & Hb)%existsb_exists.
    apply andb_true_iff in Hb as [Ha Hd%bool_decide_eq_true]. by rewrite (Hall c Hc Hd) in Ha.
Qed.

Lemma busy_true d cs : busy d cs = true → ∃ i c, cs !! i = Some c ∧ via c = d ∧ live (pc c) = true.
Proof.
  intros (c & Hc%list_elem_of_In & [Ha Hd%bool_decide_eq_true]%andb_true_iff)%existsb_exists.
  apply list_elem_of_lookup in Hc as [i Hi]. eauto.
Qed.

(** A live request moves on; the door does not get busy. *)
Lemma busy_insert d cs i c pc' :
  cs !! i = Some c → live (pc c) = true → busy d cs = false → busy d (<[i := MkCall (via c) pc']> cs) = false.
Proof.
  intros Hi Ha Hb. pose proof (proj1 (busy_false d cs) Hb c (list_elem_of_lookup_2 _ _ _ Hi)) as Hne.
  apply busy_false. intros c' [j Hj]%list_elem_of_lookup Hd.
  apply list_lookup_insert_Some in Hj as [(_ & <- & _)|(_ & Hj)].
  - simpl in Hd. rewrite Hne in Ha; done.
  - apply (proj1 (busy_false d cs) Hb c'); [|done]. by eapply list_elem_of_lookup_2.
Qed.

Lemma busy_app d cs c : busy d (cs ++ [c]) = busy d cs || (live (pc c) && bool_decide (via c = d)).
Proof. unfold busy. by rewrite existsb_app; simpl; rewrite orb_false_r. Qed.
End calls.
Arguments busy {P} live d cs.
End doors.
