(* ===== verification/Process.v ===== *)
(** * The process: [main] of [cmd/tally] from start to exit, in memory mode

    The goroutines of the process side by side: requests inside the two doors,
    with the two atomic operations of [Memory.Enqueue]; the workers; the depth
    sampler; and the main goroutine, which waits for a signal and then runs the
    shutdown sequence of [Main] one action at a time.  While the HTTP server is up
    its goroutine may fail, and [log.Fatalf] ends the process.  What [Queue]
    assumes as the shutdown contract is proved here of the program. *)

From S2P Require Import Prelude Clock Store StoreSpec StoreProps Queue Metrics Worker Main Doors Pipeline.
From stdpp Require Import prelude list gmap strings relations.
From Stdlib Require Import ZArith Lia.
Open Scope Z_scope.

Module process.
Import doors.
Import store (Event, Store, db).

(** ** State *)

(** A request inside a handler, with the events it has still to enqueue: one
    for [postEvent], the valid ones of the batch for [Publish], none for a
    query.  Before the test of the flag, between the test and the send,
    returned, or dead in a panic. *)
Inductive call_pc : Type :=
  | AtFlag (es : list Event)
  | AtSend (e : Event) (es : list Event)
  | Returned (err : option queue.error)
  | Panicked.

Abbreviation call := (doors.call call_pc).

Definition live (x : call_pc) : bool := match x with AtFlag _ | AtSend _ _ => true | _ => false end.
Abbreviation active c := (live (pc c)).
Abbreviation busy := (doors.busy live).

Section process.
Context {S : Type} {ins : worker.BatchInserter S}.
Abbreviation pool := (worker.pool (S := S) (M := metrics.t)).

Record proc : Type := MkProc {
  pl : pool;             (* the queue's channel, the workers, the store, the metrics *)
  flag : bool;           (* [q.closed], set before the channel is closed *)
  calls : list call;
  http : listener;
  grpc : listener;
  sampling : bool;
  gauge : Z;
  db_open : bool;
  main : main_pc;
  timed_out : bool;      (* [srv.Shutdown] gave up on a request *)
  late_insert : bool;    (* a worker used the store after [Close] *)
}.

Definition set_calls (cs : list call) (pl' : pool) (p : proc) : proc :=
  MkProc pl' (flag p) cs (http p) (grpc p) (sampling p) (gauge p) (db_open p) (main p) (timed_out p) (late_insert p).
Definition set_pool (pl' : pool) (p : proc) : proc := set_calls (calls p) pl' p.
Definition set_main (m : main_pc) (p : proc) : proc :=
  MkProc (pl p) (flag p) (calls p) (http p) (grpc p) (sampling p) (gauge p) (db_open p) m (timed_out p) (late_insert p).
Definition set_http (l : listener) (late : bool) (p : proc) : proc :=
  MkProc (pl p) (flag p) (calls p) l (grpc p) (sampling p) (gauge p) (db_open p) (main p) (timed_out p || late) (late_insert p).
Definition set_grpc (l : listener) (p : proc) : proc :=
  MkProc (pl p) (flag p) (calls p) (http p) l (sampling p) (gauge p) (db_open p) (main p) (timed_out p) (late_insert p).
Definition set_flag (p : proc) : proc :=
  MkProc (pl p) true (calls p) (http p) (grpc p) (sampling p) (gauge p) (db_open p) (main p) (timed_out p) (late_insert p).
Definition stop_sampler (p : proc) : proc :=
  MkProc (pl p) (flag p) (calls p) (http p) (grpc p) false (gauge p) (db_open p) (main p) (timed_out p) (late_insert p).
Definition close_db (p : proc) : proc :=
  MkProc (pl p) (flag p) (calls p) (http p) (grpc p) (sampling p) (gauge p) false (main p) (timed_out p) (late_insert p).
Definition sample (p : proc) : proc :=
  MkProc (pl p) (flag p) (calls p) (http p) (grpc p) (sampling p) (queue.Depth (worker.q (pl p))) (db_open p) (main p)
    (timed_out p) (late_insert p).
Definition insert_late (p : proc) : proc :=
  MkProc (pl p) (flag p) (calls p) (http p) (grpc p) (sampling p) (gauge p) (db_open p) (main p) (timed_out p) true.

Definition set_queue (q : queue.Memory) (acc : list Event) (p : pool) : pool :=
  worker.MkPool q (worker.ws p) (worker.sink p) (worker.hook p) (worker.accepted p ++ acc) (worker.outcomes p).

(** [main] up to the signal: queue, pool, sampler and listeners are started. *)
Definition launch (cfg : worker.Config metrics.t) (w : tally.wiring) (q : queue.Memory) (s : S) : proc :=
  MkProc (worker.start cfg q s metrics.zero) false [] Serving
    (if tally.grpc_listener w then Serving else Stopped) true 0 true Running false false.

(** ** Steps *)

(** One atomic operation of a request. *)
Definition call_step (i : nat) (p : proc) : option proc :=
  c ← calls p !! i;
  let go pc' pl' := Some (set_calls (<[i := MkCall (via c) pc']> (calls p)) pl' p) in
  match pc c with
  | AtFlag [] => go (Returned None) (pl p)
  | AtFlag (e :: es) =>
      if flag p then go (Returned (Some queue.ErrClosed)) (pl p) else go (AtSend e es) (pl p)
  | AtSend e es =>
      match queue.try_send (queue.ch (worker.q (pl p))) e with
      | queue.Sent ch => go (AtFlag es) (set_queue (queue.MkMemory ch (queue.closed (worker.q (pl p)))) [e] (pl p))
      | queue.WouldBlock => go (Returned (Some queue.ErrFull)) (pl p)
      | queue.SendPanic => go Panicked (pl p)
      end
  | _ => None
  end.

(** One step of the main goroutine in the shutdown sequence.  [deadline]: the
    ten seconds of [srv.Shutdown] are over. *)
Definition main_step (deadline : bool) (p : proc) : option proc :=
  match main p with
  | Shutting [] => Some (set_main Finished p)
  | Shutting (a :: rest) =>
      let done p := Some (set_main (Shutting rest) p) in
      match a with
      | tally.StopHTTP =>
          match http p with
          | Serving => Some (set_http Draining false p)
          | _ => if busy DHttp (calls p)
                 then (if deadline then done (set_http Stopped true p) else None)
                 else done (set_http Stopped false p)
          end
      | tally.StopGRPC =>
          match grpc p with
          | Serving => Some (set_grpc Draining p)
          | _ => if busy DGrpc (calls p) then None else done (set_grpc Stopped p)
          end
      | tally.StopSampler => done (stop_sampler p)
      | tally.CloseQueue =>
          if flag p
          then done (set_pool (set_queue (queue.Close (worker.q (pl p))) [] (pl p)) p)
          else Some (set_flag p)
      | tally.WaitPool =>
          if forallb (λ w, match w with worker.Exited => true | _ => false end) (worker.ws (pl p))
          then done p else None
      | tally.CloseStore => done (close_db p)
      | _ => None
      end
  | _ => None
  end.

Inductive step (cfg : worker.Config metrics.t) (w : tally.wiring) : proc → proc → Prop :=
  | st_http p es :
      up (main p) → http p = Serving → (length es ≤ 1)%nat →
      step cfg w p (set_calls (calls p ++ [MkCall DHttp (AtFlag es)]) (pl p) p)
  | st_grpc p es :
      up (main p) → grpc p = Serving →
      step cfg w p (set_calls (calls p ++ [MkCall DGrpc (AtFlag es)]) (pl p) p)
  | st_call p p' i : up (main p) → call_step i p = Some p' → step cfg w p p'
  | st_worker p i now rd pl' :
      up (main p) → worker.worker_step cfg i now rd (pl p) = Some pl' →
      db_open p = true ∨ rd ≠ worker.Insert →
      step cfg w p (set_pool pl' p)
  | st_late p i now pl' :
      up (main p) → worker.worker_step cfg i now worker.Insert (pl p) = Some pl' →
      db_open p = false → step cfg w p (insert_late p)
  | st_sample p : up (main p) → sampling p = true → step cfg w p (sample p)
  | st_hand_over p c i j now e es pl' :
      up (main p) → calls p !! i = Some c → pc c = AtSend e es →
      worker.hand_over cfg j now e (pl p) = Some pl' →
      step cfg w p (set_calls (<[i := MkCall (via c) (AtFlag es)]> (calls p)) pl' p)
  | st_fatal p : up (main p) → http p = Serving → step cfg w p (set_main Crashed p)
  | st_signal p : main p = Running → step cfg w p (set_main (Shutting (tally.shutdown w)) p)
  | st_main p p' deadline : main_step deadline p = Some p' → step cfg w p p'.

(** ** The invariant *)

(** How many actions of the sequence are done. *)
Definition progress (p : proc) : nat :=
  match main p with Running | Crashed => 0 | Shutting rest => 6 - length rest | Finished => 6 end.

Definition memory_shutdown : list tally.action :=
  [tally.StopHTTP; tally.StopGRPC; tally.StopSampler; tally.CloseQueue; tally.WaitPool; tally.CloseStore].

Definition exited (w : worker.worker) : bool := match w with worker.Exited => true | _ => false end.

Record pr_inv (cfg : worker.Config metrics.t) (p0 : pool) (p : proc) : Prop := {
  pv_pool : rtc (worker.pstep cfg) p0 (pl p);
  pv_rest rest : main p = Shutting rest → rest = drop (6 - length rest) memory_shutdown;
  pv_finished : main p = Finished → progress p = 6%nat;
  pv_http : http p = Stopped ↔ (1 ≤ progress p)%nat;
  pv_grpc : grpc p = Stopped ↔ (2 ≤ progress p)%nat;
  pv_flag : flag p = true → (3 ≤ progress p)%nat;
  pv_chan : queue.closed (worker.q (pl p)) = true ↔ (4 ≤ progress p)%nat;
  pv_wait : (5 ≤ progress p)%nat → forallb exited (worker.ws (pl p)) = true;
  pv_db : db_open p = false → (6 ≤ progress p)%nat;
  pv_late : late_insert p = false;
  pv_http_calls : http p = Stopped → timed_out p = false → busy DHttp (calls p) = false;
  pv_grpc_calls : grpc p = Stopped → busy DGrpc (calls p) = false;
  pv_panic c : c ∈ calls p → pc c = Panicked → via c = DHttp ∧ timed_out p = true;
}.

Lemma exited_Forall ws : forallb exited ws = true ↔ Forall (λ w, w = worker.Exited) ws.
Proof.
  rewrite forallb_forall, Forall_forall. split; intros H w Hw.
  - specialize (H w (proj1 (list_elem_of_In _ _) Hw)). by destruct w.
  - apply list_elem_of_In in Hw. by rewrite (H w Hw).
Qed.

Lemma exited_stuck cfg i now rd (q : pool) :
  forallb exited (worker.ws q) = true → worker.worker_step cfg i now rd q = None.
Proof.
  intros Hex%exited_Forall. unfold worker.worker_step.
  destruct (worker.ws q !! i) as [w|] eqn:Hi; [|done].
  by rewrite (Forall_lookup_1 _ _ _ _ Hex Hi).
Qed.

(** A step that leaves the main goroutine and the listeners alone: it moves the
    pool, and may change calls that are active. *)
Lemma pr_inv_frame cfg p0 p pl' cs :
  pr_inv cfg p0 p → rtc (worker.pstep cfg) (pl p) pl' →
  queue.closed (worker.q pl') = queue.closed (worker.q (pl p)) →
  ((5 ≤ progress p)%nat → forallb exited (worker.ws pl') = true) →
  (http p = Stopped → timed_out p = false → busy DHttp cs = false) →
  (grpc p = Stopped → busy DGrpc cs = false) →
  (∀ c, c ∈ cs → pc c = Panicked → via c = DHttp ∧ timed_out p = true) →
  pr_inv cfg p0 (set_calls cs pl' p).
Proof.
  intros [] Hp Hcl Hw Hh Hg Hpan. split; try done.
  - by etrans.
  - simpl. by rewrite Hcl.
Qed.

Context (cfg : worker.Config metrics.t) (p0 : pool).
Hypotheses (Hvalid : worker.valid cfg) (Hstart : worker.pool_inv cfg p0).

Lemma pool_wf p : pr_inv cfg p0 p → queue.wf (worker.q (pl p)).
Proof. intros I. by apply (worker.pool_inv_reachable cfg p0 (pl p) Hvalid Hstart), I. Qed.

Lemma elem_of_insert_inv {A} (l : list A) i x y : y ∈ <[i := x]> l → y = x ∨ y ∈ l.
Proof.
  intros [j Hj]%list_elem_of_lookup. apply list_lookup_insert_Some in Hj as [(_ & <- & _)|(_ & Hj)];
    [by left|right; by eapply list_elem_of_lookup_2].
Qed.

(** An active call moves on. *)
Lemma call_moves p i c pc' pl' :
  pr_inv cfg p0 p → calls p !! i = Some c → active c = true →
  rtc (worker.pstep cfg) (pl p) pl' → worker.ws pl' = worker.ws (pl p) →
  queue.closed (worker.q pl') = queue.closed (worker.q (pl p)) →
  (pc' = Panicked → via c = DHttp ∧ timed_out p = true) →
  pr_inv cfg p0 (set_calls (<[i := MkCall (via c) pc']> (calls p)) pl' p).
Proof.
  intros I Hi Ha Hp Hws Hcl Hpan. apply pr_inv_frame; try done.
  - rewrite Hws. apply I.
  - intros. apply busy_insert; [done..|]. by apply I.
  - intros. apply busy_insert; [done..|]. by apply I.
  - intros c' [->|Hc]%elem_of_insert_inv; [done|by apply I].
Qed.

(** A send on the closed channel is an HTTP request that [srv.Shutdown] gave up on. *)
Lemma active_when_closed p c :
  pr_inv cfg p0 p → c ∈ calls p → active c = true → queue.chan_closed (queue.ch (worker.q (pl p))) = true →
  via c = DHttp ∧ timed_out p = true.
Proof.
  intros I Hc Ha Hcl. destruct (pool_wf p I) as [Hwf _]. rewrite <- Hwf in Hcl.
  pose proof (proj1 (pv_chan _ _ _ I) Hcl) as Hk.
  destruct (via c) eqn:Hv.
  - split; [done|]. destruct (timed_out p) eqn:Ht; [done|].
    pose proof (pv_http_calls _ _ _ I (proj2 (pv_http _ _ _ I) ltac:(lia)) Ht) as Hb.
    rewrite (proj1 (busy_false _ _) Hb c Hc Hv) in Ha. done.
  - pose proof (pv_grpc_calls _ _ _ I (proj2 (pv_grpc _ _ _ I) ltac:(lia))) as Hb.
    rewrite (proj1 (busy_false _ _) Hb c Hc Hv) in Ha. done.
Qed.

Lemma call_step_inv p p' i : pr_inv cfg p0 p → call_step i p = Some p' → pr_inv cfg p0 p'.
Proof.
  intros I. unfold call_step. destruct (calls p !! i) as [c|] eqn:Hi; [|done]. simpl.
  destruct (pc c) as [[|e es]|e es| |] eqn:Hpc; try done.
  - intros [= <-]. apply call_moves; try done. by rewrite Hpc.
  - assert (active c = true) by (by rewrite Hpc).
    destruct (flag p); intros [= <-]; by apply call_moves.
  - assert (active c = true) as Ha by (by rewrite Hpc).
    destruct (queue.try_send _ e) as [ch| |] eqn:Ht; intros [= <-]; apply call_moves; try done.
    + apply rtc_once. apply worker.ps_enqueue. unfold queue.Enqueue. rewrite Ht.
      destruct (pool_wf p I) as [-> _]. unfold queue.try_send in Ht. by destruct (queue.chan_closed _).
    + intros _. apply active_when_closed; [done|by eapply list_elem_of_lookup_2|done|].
      by eapply queue.try_send_panic.
Qed.

Lemma worker_step_frame p i now rd pl' :
  pr_inv cfg p0 p → worker.worker_step cfg i now rd (pl p) = Some pl' → pr_inv cfg p0 (set_pool pl' p).
Proof.
  intros I Hs. apply pr_inv_frame; try apply I.
  - apply rtc_once, worker.ps_worker. by econstructor.
  - by apply (worker.worker_step_closed _ _ _ _ _ _ Hs).
  - intros Hk. by rewrite (exited_stuck cfg i now rd (pl p) (pv_wait _ _ _ I Hk)) in Hs.
Qed.

Lemma hand_over_keeps p c i j now e es pl' :
  pr_inv cfg p0 p → calls p !! i = Some c → pc c = AtSend e es →
  worker.hand_over cfg j now e (pl p) = Some pl' →
  pr_inv cfg p0 (set_calls (<[i := MkCall (via c) (AtFlag es)]> (calls p)) pl' p).
Proof.
  intros I Hi Hpc Hs. assert (active c = true) as Ha by (by rewrite Hpc). apply pr_inv_frame; try apply I.
  - by apply rtc_once; eapply worker.ps_hand_over.
  - by apply worker.hand_over_frame in Hs as (_ & _ & _ & _ & ->).
  - intros Hk. apply (pv_wait _ _ _ I), exited_Forall in Hk. unfold worker.hand_over in Hs.
    destruct (worker.ws (pl p) !! j) as [x|] eqn:Hj; [|done].
    by rewrite (Forall_lookup_1 _ _ _ _ Hk Hj) in Hs.
  - intros. apply busy_insert; [done..|]. by apply I.
  - intros. apply busy_insert; [done..|]. by apply I.
  - intros c' [->|Hc]%elem_of_insert_inv; [done|by apply I].
Qed.

(** Where the main goroutine is, by the number of actions done. *)
Lemma shutting_cases p a rest :
  pr_inv cfg p0 p → main p = Shutting (a :: rest) →
  (length rest < 6)%nat ∧ progress p = (5 - length rest)%nat ∧
  memory_shutdown !! (5 - length rest)%nat = Some a ∧ rest = drop (6 - length rest) memory_shutdown.
Proof.
  intros I Hm. pose proof (pv_rest _ _ _ I _ Hm) as Hr. simpl in Hr.
  assert (length rest < 6)%nat as Hl.
  { pose proof (f_equal length Hr) as Hlen. rewrite length_drop in Hlen. simpl in Hlen. lia. }
  split; [done|]. split; [unfold progress; rewrite Hm; simpl; lia|].
  destruct (lookup_lt_is_Some_2 memory_shutdown (5 - length rest)) as [x Hx]; [simpl; lia|].
  pose proof (drop_S memory_shutdown x _ Hx) as Hd. rewrite <- Hr in Hd. injection Hd as -> Hd.
  split; [done|]. by replace (6 - length rest)%nat with (Datatypes.S (5 - length rest)) by lia.
Qed.

Lemma progress_shutting p rest : main p = Shutting rest → progress p = (6 - length rest)%nat.
Proof. unfold progress. by intros ->. Qed.

(** What is left to show when the main goroutine moves: the fields it changed. *)
Ltac main_inv I Hm :=
  destruct I as [Ipool Irest Ifin Ihttp Igrpc Iflag Ichan Iwait Idb Ilate Ihc Igc Ipanic];
  split; unfold progress in *; simpl in *; rewrite ?Hm in *; simpl in *; rewrite ?orb_false_r in *;
  try done; try lia; try (split; [done|lia]); try (rewrite Ihttp; lia); try (rewrite Igrpc; lia); try (rewrite Ichan; lia);
  try (let H := fresh in intros H; first [apply Iflag in H|apply Idb in H]; lia);
  try (let H := fresh in intros ? H; injection H as <-; done).

Lemma main_step_inv p p' deadline :
  pr_inv cfg p0 p → main_step deadline p = Some p' → pr_inv cfg p0 p'.
Proof.
  intros I. unfold main_step. destruct (main p) as [|[|a rest]| |] eqn:Hm; try done.
  - intros [= <-]. pose proof (progress_shutting p [] Hm) as Hp. simpl in Hp.
    destruct I. rewrite Hp in *. by split.
  - destruct (shutting_cases p a rest I Hm) as (Hl & Hp & Ha & Hr).
    set (n := (5 - length rest)%nat) in *. assert (length rest = 5 - n)%nat as Hlen by lia.
    assert (n = 0 ∨ n = 1 ∨ n = 2 ∨ n = 3 ∨ n = 4 ∨ n = 5)%nat as Hn by lia. clearbody n.
    destruct Hn as [->|[->|[->|[->|[->| ->]]]]]; injection Ha as <-; rewrite Hlen in Hr; simpl in Hr; subst rest.
    + destruct (http p) eqn:Hh; [intros [= <-]; main_inv I Hm| |].
      1-2: destruct (busy DHttp (calls p)) eqn:Hb; [destruct deadline; [|done]|]; intros [= <-]; main_inv I Hm.
      all: rewrite orb_true_r; try done; intros c Hc Hpan; by destruct (Ipanic c Hc Hpan).
    + destruct (grpc p) eqn:Hg; [intros [= <-]; main_inv I Hm| |].
      1-2: destruct (busy DGrpc (calls p)) eqn:Hb; [done|]; intros [= <-]; main_inv I Hm.
    + intros [= <-]. main_inv I Hm.
    + destruct (flag p) eqn:Hf; intros [= <-]; main_inv I Hm.
      * etrans; [exact Ipool|]. apply rtc_once. unfold set_queue. rewrite app_nil_r. apply worker.ps_close.
      * split; [lia|]. intros _. unfold queue.Close. by destruct (queue.closed (worker.q (pl p))) eqn:Hc.
    + destruct (forallb _ _) eqn:Hw; [|done]. intros [= <-]. main_inv I Hm.
    + intros [= <-]. main_inv I Hm. intros _. apply Iwait. lia.
Qed.

Context (w : tally.wiring).
Hypothesis Hprog : tally.shutdown w = memory_shutdown.

Lemma proc_step_inv p p' : pr_inv cfg p0 p → step cfg w p p' → pr_inv cfg p0 p'.
Proof.
  intros I Hs. destruct Hs as [p es Hf Hh Hes|p es Hf Hg|p p' i Hf Hs|p i now rd pl' Hf Hs _|p i now pl' Hf Hs Hd
    |p Hf Hsm|p c i j now e es pl' Hf Hi Hpc Hs|p Hf Hst|p Hm|p p' d Hs].
  - apply pr_inv_frame; try apply I; try done.
    + intros Hst. congruence.
    + intros Hst. rewrite busy_app, (pv_grpc_calls _ _ _ I Hst). done.
    + intros c [Hc| ->%list_elem_of_singleton]%elem_of_app; [by apply I|done].
  - apply pr_inv_frame; try apply I; try done.
    + intros Hst Ht. rewrite busy_app, (pv_http_calls _ _ _ I Hst Ht). done.
    + intros Hst. congruence.
    + intros c [Hc| ->%list_elem_of_singleton]%elem_of_app; [by apply I|done].
  - by eapply call_step_inv.
  - by eapply worker_step_frame.
  - pose proof (pv_db _ _ _ I Hd) as Hk.
    by rewrite (exited_stuck cfg i now worker.Insert (pl p) (pv_wait _ _ _ I ltac:(lia))) in Hs.
  - destruct I. by split.
  - by eapply hand_over_keeps.
  - pose proof (pv_http _ _ _ I) as Hh. assert (progress p = 0%nat) as Hp.
    { destruct (progress p); [done|]. destruct Hh as [_ Hh]. rewrite Hh in Hst by lia. done. }
    destruct I. rewrite Hp in *. by split.
  - assert (progress p = 0%nat) as Hp by (unfold progress; by rewrite Hm).
    destruct I. rewrite Hp in *. rewrite Hprog. split; unfold progress; simpl; try done.
    by intros rest [= <-].
  - by eapply main_step_inv.
Qed.

Lemma proc_reachable_inv p p' : pr_inv cfg p0 p → rtc (step cfg w) p p' → pr_inv cfg p0 p'.
Proof. intros I Hr. induction Hr; eauto using proc_step_inv. Qed.

(** ** Progress *)

(** Steps that are not idle: no new request, no sample of the gauge, no tick of a
    worker without a batch; and [srv.Shutdown] waits as long as it takes. *)
Inductive busy_step : proc → proc → Prop :=
  | bs_call p p' i : up (main p) → call_step i p = Some p' → busy_step p p'
  | bs_worker p pl' :
      up (main p) → db_open p = true → worker.productive cfg (pl p) pl' → busy_step p (set_pool pl' p)
  | bs_hand_over p c i j now e es pl' :
      up (main p) → calls p !! i = Some c → pc c = AtSend e es →
      worker.hand_over cfg j now e (pl p) = Some pl' →
      busy_step p (set_calls (<[i := MkCall (via c) (AtFlag es)]> (calls p)) pl' p)
  | bs_main p p' deadline : main_step deadline p = Some p' → busy_step p p'.

Lemma busy_step_step p p' : busy_step p p' → step cfg w p p'.
Proof.
  intros [p1 p2 i Hf Hs|p1 pl' Hf Hd [Hs _]|p1 c i j now e es pl' Hf Hi Hpc Hs|p1 p2 d Hs];
    [by eapply st_call| |by eapply st_hand_over|by eapply st_main].
  inversion Hs as [q q' i now rd Hs' Hq Hq']; subst. eapply st_worker; [done|exact Hs'|by left].
Qed.

Lemma call_can_step p i c : calls p !! i = Some c → active c = true → ∃ p', call_step i p = Some p'.
Proof.
  intros Hi Ha. unfold call_step. rewrite Hi. simpl.
  destruct (pc c) as [[|e es]|e es| |]; try done; [by eexists|destruct (flag p); by eexists|].
  destruct (queue.try_send _ e); by eexists.
Qed.

Lemma busy_can_step p d :
  up (main p) → busy d (calls p) = true → ∃ p', busy_step p p'.
Proof.
  intros Hf Hb. unfold busy in Hb. apply existsb_exists in Hb as (c & Hc%list_elem_of_In & [Ha _]%andb_true_iff).
  apply list_elem_of_lookup in Hc as [i Hi]. destruct (call_can_step p i c Hi Ha) as [p' Hp].
  exists p'. by eapply bs_call.
Qed.

(** The sequence never blocks for ever: whatever it waits for can move. *)
Lemma shutdown_progress p rest :
  pr_inv cfg p0 p → main p = Shutting rest → ∃ p', busy_step p p'.
Proof.
  intros I Hm. assert (up (main p)) as Hf by (by rewrite Hm).
  assert (∀ p', main_step false p = Some p' → ∃ p', busy_step p p') as Hgo
    by (intros p' Hs; exists p'; by eapply bs_main).
  unfold main_step in Hgo. rewrite Hm in Hgo. destruct rest as [|a rest]; [by eapply Hgo|].
  destruct (shutting_cases p a rest I Hm) as (Hl & Hp & Ha & _).
  assert (∀ d, busy d (calls p) = true → ∃ p', busy_step p p') as Hcalls by (intros d; by apply busy_can_step).
  destruct a; try (by eapply Hgo).
  - destruct (http p); [by eapply Hgo|..]; destruct (busy DHttp (calls p)) eqn:Hb; eauto.
  - destruct (grpc p); [by eapply Hgo|..]; destruct (busy DGrpc (calls p)) eqn:Hb; eauto.
  - destruct (flag p); by eapply Hgo.
  - destruct (forallb _ (worker.ws (pl p))) eqn:Hw; [by eapply Hgo|].
    assert (5 - length rest = 4)%nat as Hk.
    { assert (∃ n, n = 5 - length rest ∧ n < 6)%nat as (n & Hn & Hlt) by (eexists; split; [done|lia]).
      rewrite <- Hn in *. do 6 (destruct n as [|n]; [done || lia|]). lia. }
    assert (queue.closed (worker.q (pl p)) = true) as Hcl by (apply (pv_chan _ _ _ I); lia).
    destruct (worker.stuck_exited cfg (pl p) Hvalid) as [[pl' Hpl]|[Hex _]];
      [by apply (worker.pool_inv_reachable cfg p0), I|done| |].
    + exists (set_pool pl' p). apply bs_worker; [done| |done].
      destruct (db_open p) eqn:Hd; [done|]. pose proof (pv_db _ _ _ I Hd). lia.
    + apply exited_Forall in Hex. unfold exited in Hex. congruence.
  - by apply list_elem_of_lookup_2, (bool_decide_pack _) in Ha.
  - by apply list_elem_of_lookup_2, (bool_decide_pack _) in Ha.
  - by apply list_elem_of_lookup_2, (bool_decide_pack _) in Ha.
Qed.

(** ** Termination *)

Definition send_cost : nat := worker.retries cfg + 5.

Definition call_weight (c : call) : nat :=
  match pc c with
  | AtFlag es => 1 + length es * send_cost
  | AtSend _ es => send_cost + length es * send_cost
  | _ => 0
  end.

Definition main_weight (p : proc) : nat :=
  match main p with
  | Running => 0
  | Shutting rest => 1 + 2 * length rest + (if flag p then 0 else 1)
  | Finished | Crashed => 0
  end.

(** Bounds what is left to do once no door takes new requests. *)
Definition shutdown_work (p : proc) : nat :=
  (main_weight p + sum_list_with call_weight (calls p) + worker.work cfg (pl p))%nat.

Definition doors_shut (p : proc) : Prop := http p ≠ Serving ∧ grpc p ≠ Serving.

Lemma call_moves_work p i c pc' pl' d :
  calls p !! i = Some c →
  (worker.work cfg pl' ≤ worker.work cfg (pl p) + d)%nat →
  (call_weight (MkCall (via c) pc') + d < call_weight c)%nat →
  (shutdown_work (set_calls (<[i := MkCall (via c) pc']> (calls p)) pl' p) < shutdown_work p)%nat.
Proof.
  intros Hi Hw Hlt. pose proof (sum_list_with_insert call_weight (calls p) i c (MkCall (via c) pc') Hi).
  unfold shutdown_work. change (main_weight (set_calls ?cs ?q p)) with (main_weight p).
  change (calls (set_calls ?cs ?q p)) with cs. change (pl (set_calls ?cs ?q p)) with q. lia.
Qed.

Lemma call_step_work p p' i :
  call_step i p = Some p' →
  (shutdown_work p' < shutdown_work p)%nat ∧ http p' = http p ∧ grpc p' = grpc p.
Proof.
  unfold call_step. destruct (calls p !! i) as [c|] eqn:Hi; [|done]. simpl.
  assert (∀ pc', (call_weight (MkCall (via c) pc') < call_weight c)%nat →
    shutdown_work (set_calls (<[i := MkCall (via c) pc']> (calls p)) (pl p) p) < shutdown_work p)%nat as Hgo.
  { intros pc' Hlt. apply (call_moves_work p i c pc' (pl p) 0); [done| |]; lia. }
  unfold call_weight, send_cost in Hgo. simpl in Hgo.
  destruct (pc c) as [[|e es]|e es| |] eqn:Hpc; try done.
  - intros [= <-]. split; [apply Hgo; simpl; lia|done].
  - destruct (flag p); intros [= <-]; (split; [apply Hgo; simpl; lia|done]).
  - destruct (queue.try_send _ e) as [ch| |] eqn:Ht; intros [= <-]; (split; [|done]).
    + apply (call_moves_work p i c (AtFlag es) _ (worker.retries cfg + 3)); [done| |].
      * unfold worker.work. simpl. unfold queue.try_send in Ht. repeat case_match; simplify_eq/=.
        rewrite length_app. simpl. lia.
      * unfold call_weight, send_cost. rewrite Hpc. simpl. lia.
    + apply Hgo. simpl. lia.
    + apply Hgo. simpl. lia.
Qed.

Lemma advance_work p p1 a rest :
  main p = Shutting (a :: rest) → flag p1 = flag p → calls p1 = calls p →
  worker.work cfg (pl p1) = worker.work cfg (pl p) →
  (shutdown_work (set_main (Shutting rest) p1) < shutdown_work p)%nat.
Proof.
  intros Hm Hf Hc Hw. unfold shutdown_work, main_weight. rewrite Hm.
  cbn [set_main main flag calls pl length]. rewrite Hf, Hc, Hw. lia.
Qed.

Lemma main_step_work p p' deadline :
  doors_shut p → main_step deadline p = Some p' →
  (shutdown_work p' < shutdown_work p)%nat ∧ doors_shut p'.
Proof.
  intros [Hh Hg]. unfold main_step.
  destruct (main p) as [|[|a rest]| |] eqn:Hm; try done.
  - intros [= <-]. split; [|done]. unfold shutdown_work, main_weight. rewrite Hm. simpl. lia.
  - pose proof (λ p1, advance_work p p1 a rest Hm) as Hadv. destruct a; try done.
    + destruct (http p) eqn:Hp; [done|..]; destruct (busy DHttp _); [destruct deadline; [|done]| |destruct deadline; [|done]|];
        intros [= <-]; (split; [by apply Hadv|done]).
    + destruct (grpc p) eqn:Hp; [done|..]; destruct (busy DGrpc _); try done; intros [= <-];
        (split; [by apply Hadv|]); split; simpl; done.
    + intros [= <-]. by split; [apply Hadv|].
    + destruct (flag p) eqn:Hf; intros [= <-]; (split; [|done]).
      * apply Hadv; [done|done|]. unfold worker.work. simpl. unfold queue.Close. by destruct (queue.closed _).
      * unfold shutdown_work, main_weight. simpl. rewrite Hm, Hf. lia.
    + destruct (forallb _ _); [|done]. intros [= <-]. by split; [apply Hadv|].
    + intros [= <-]. by split; [apply Hadv|].
Qed.

Lemma busy_step_work p p' :
  pr_inv cfg p0 p → doors_shut p → busy_step p p' →
  (shutdown_work p' < shutdown_work p)%nat ∧ doors_shut p'.
Proof.
  intros I Hd Hs. destruct Hs as [p p' i Hf Hs|p pl' Hf Hdb Hs|p c i j now e es pl' Hf Hi Hpc Hs|p p' d Hs].
  - destruct (call_step_work p p' i Hs) as (Hlt & Hh & Hg). unfold doors_shut in *. by rewrite Hh, Hg.
  - split; [|done]. unfold shutdown_work. simpl.
    pose proof (worker.work_productive cfg (pl p) pl' Hvalid
      (worker.pool_inv_reachable cfg p0 _ Hvalid Hstart (pv_pool _ _ _ I)) Hs). unfold main_weight. simpl. lia.
  - split; [|done]. apply (call_moves_work p i c (AtFlag es) pl' (worker.retries cfg + 2)); [done| |].
    + by eapply worker.hand_over_work.
    + unfold call_weight, send_cost. rewrite Hpc. simpl. lia.
  - by eapply main_step_work.
Qed.

Lemma shutdown_bound n p p' :
  pr_inv cfg p0 p → doors_shut p → nsteps busy_step n p p' → (n ≤ shutdown_work p)%nat.
Proof.
  intros I Hd Hn. revert I Hd. induction Hn as [|n p1 p2 p3 Hs _ IH]; intros I Hd; [lia|].
  destruct (busy_step_work p1 p2 I Hd Hs) as [Hlt Hd2].
  pose proof (IH (proc_step_inv p1 p2 I (busy_step_step p1 p2 Hs)) Hd2). lia.
Qed.

End process.

(** ** The program *)

Section tally.
Context {pg : store.Postgres} {js : store.Json}.
Abbreviation store_proc := (proc (S := Store)).

(** What [loadConfig] and the wiring make of [QUEUE=memory]. *)
Lemma memory_wiring env dial cfg w :
  tally.loadConfig env = Ok cfg → tally.wire dial cfg = Ok w →
  tally.queueBackend cfg = "memory"%string →
  tally.shutdown w = memory_shutdown ∧ tally.grpc_listener w = true ∧
  tally.pool w = Some (pipeline.pool_cfg (tally.workers cfg) (tally.batchSize cfg) (tally.flushInterval cfg)).
Proof.
  intros Hok%tally.loadConfig_ok Hw Hmem. destruct (tally.wire_inv _ _ _ Hok Hw) as [Hb Hg].
  unfold tally.backend, tally.acceptsEvents, tally.is_memory in *.
  rewrite bool_decide_eq_true_2 in Hb, Hg by done. injection Hb as He Hp Hc Hf.
  unfold tally.shutdown. rewrite Hg, <- Hf. done.
Qed.

Lemma launch_inv cfg w q s :
  tally.grpc_listener w = true → queue.closed q = false →
  pr_inv cfg (worker.start cfg q s metrics.zero) (launch (S := Store) cfg w q s).
Proof.
  intros Hg Hq. unfold launch. rewrite Hg. split; unfold progress; simpl; try done; try lia.
  - split; [done|lia].
  - split; [done|lia].
  - split; [congruence|lia].
  - by intros c ?%not_elem_of_nil.
Qed.

(** A process started from a configuration with the memory queue. *)
Record started (env : tally.environ) (dial : string → bool) (cfg : tally.config) (w : tally.wiring)
    (wc : worker.Config metrics.t) (q : queue.Memory) (s : Store) : Prop := {
  sd_config : tally.loadConfig env = Ok cfg;
  sd_wire : tally.wire dial cfg = Ok w;
  sd_memory : tally.queueBackend cfg = "memory"%string;
  sd_pool : tally.pool w = Some wc;
  sd_queue : queue.NewMemory (tally.queueSize cfg) = Some q;
  sd_tables : db s = store.empty_tables;
}.

Lemma started_spec env dial cfg w wc q s :
  started env dial cfg w wc q s →
  tally.shutdown w = memory_shutdown ∧ worker.valid wc ∧
  wc = pipeline.pool_cfg (tally.workers cfg) (tally.batchSize cfg) (tally.flushInterval cfg) ∧
  worker.pool_inv wc (worker.start wc q s metrics.zero) ∧
  pr_inv wc (worker.start wc q s metrics.zero) (launch wc w q s).
Proof.
  intros [Hc Hw Hm Hp Hq _]. destruct (memory_wiring env dial cfg w Hc Hw Hm) as (Hs & Hg & Hp').
  rewrite Hp in Hp'. injection Hp' as ->.
  split; [done|]. pose proof (pipeline.pool_cfg_valid (tally.workers cfg) (tally.batchSize cfg) (tally.flushInterval cfg)) as Hv.
  split; [exact Hv|]. split; [done|]. split; [by eapply worker.start_inv|].
  apply launch_inv; [done|]. unfold queue.NewMemory in Hq. case_match; [done|]. by injection Hq as <-.
Qed.

(** C4: graceful shutdown keeps its promise.  Start the process from any
    configuration with the memory queue and let requests, workers, sampler and
    the main goroutine interleave in any way.  No worker ever uses the store
    after it is closed.  A request panics in a send on the closed channel only if
    it is an HTTP request that [srv.Shutdown] gave up on after its ten seconds.
    When [main] returns, every worker has returned, the queue is empty and every
    accepted event is in a finished batch; no request is left unless [Shutdown]
    gave up; and if the dropped counter is zero the tables represent exactly the
    accepted events. *)
Theorem graceful_shutdown env dial cfg w wc q s (p : store_proc) :
  started env dial cfg w wc q s → rtc (step wc w) (launch wc w q s) p →
  late_insert p = false ∧
  (∀ c, c ∈ calls p → pc c = Panicked → via c = DHttp ∧ timed_out p = true) ∧
  (main p = Finished →
     Forall (λ x, x = worker.Exited) (worker.ws (pl p)) ∧
     queue.buf (queue.ch (worker.q (pl p))) = [] ∧
     worker.accepted (pl p) ≡ₚ worker.flushed (pl p) ∧
     (timed_out p = false → ∀ c, c ∈ calls p → active c = false) ∧
     (Forall pipeline.in_range (worker.accepted (pl p)) → metrics.EventsDropped (worker.hook (pl p)) = 0 →
      store_spec.represents (worker.accepted (pl p)) (db (worker.sink (pl p))))).
Proof.
  intros Hst Hr. destruct (started_spec _ _ _ _ _ _ _ Hst) as (Hsh & Hv & Hwc & Hp0 & Hl).
  pose proof (proc_reachable_inv wc _ Hv Hp0 w Hsh _ _ Hl Hr) as I.
  split; [apply I|]. split; [apply I|]. intros Hfin.
  pose proof (pv_finished _ _ _ I Hfin) as H6.
  assert (Forall (λ x, x = worker.Exited) (worker.ws (pl p))) as Hex
    by (apply exited_Forall, (pv_wait _ _ _ I); lia).
  destruct (worker.exited_drained wc (pl p) Hv) as ([_ Hbuf] & _ & Hperm);
    [by apply (worker.pool_inv_reachable wc _ _ Hv Hp0), I|done|].
  split; [done|]. split; [done|]. split; [done|]. split.
  - intros Ht c Hc. destruct (via c) eqn:Hvia.
    + eapply busy_false; [|exact Hc|exact Hvia]. apply (pv_http_calls _ _ _ I); [apply (pv_http _ _ _ I); lia|done].
    + eapply busy_false; [|exact Hc|exact Hvia]. apply (pv_grpc_calls _ _ _ I). apply (pv_grpc _ _ _ I). lia.
  - intros Hg Hd. subst wc.
    assert (pipeline.store_holds [] s) as H0
      by (unfold pipeline.store_holds; rewrite (sd_tables _ _ _ _ _ _ _ Hst); apply store_spec.represents_empty).
    exact (pipeline.drained_holds _ _ _ _ _ [] s (pl p) (sd_queue _ _ _ _ _ _ _ Hst) H0 (pv_pool _ _ _ I) Hg Hex Hd).
Qed.

(** C5: shutdown finishes.  After the signal the main goroutine is never stuck:
    some request, worker or action can always move, without waiting for the
    deadline of [srv.Shutdown].  Once both doors have stopped taking requests no
    run makes more than [shutdown_work] further operations, so [main] returns. *)
Theorem shutdown_terminates env dial cfg w wc q s (p : store_proc) :
  started env dial cfg w wc q s → rtc (step wc w) (launch wc w q s) p →
  (∀ rest, main p = Shutting rest → ∃ p', busy_step wc p p') ∧
  (doors_shut p → ∀ n p', nsteps (busy_step wc) n p p' → (n ≤ shutdown_work wc p)%nat).
Proof.
  intros Hst Hr. destruct (started_spec _ _ _ _ _ _ _ Hst) as (Hsh & Hv & Hwc & Hp0 & Hl).
  pose proof (proc_reachable_inv wc _ Hv Hp0 w Hsh _ _ Hl Hr) as I. split.
  - intros rest Hm. by eapply shutdown_progress.
  - intros Hd n p'. by apply (shutdown_bound wc _ Hv Hp0 w Hsh).
Qed.
End tally.

(** ** A concrete run *)

(** What happens next, for building runs by computation. *)
Inductive event : Type :=
  | Post (es : list Event)
  | Publish (es : list Event)
  | Call (i : nat)
  | Work (i : nat) (rd : worker.ready)
  | Signal
  | Main (deadline : bool).

Section exec.
Context {S : Type} {ins : worker.BatchInserter S} (cfg : worker.Config metrics.t) (w : tally.wiring).

Definition exec (p : proc (S := S)) (e : event) : option (proc (S := S)) :=
  if negb (bool_decide (up (main p))) then None else
  match e with
  | Post es =>
      if decide (http p = Serving ∧ (length es ≤ 1)%nat)
      then Some (set_calls (calls p ++ [MkCall DHttp (AtFlag es)]) (pl p) p) else None
  | Publish es =>
      if decide (grpc p = Serving)
      then Some (set_calls (calls p ++ [MkCall DGrpc (AtFlag es)]) (pl p) p) else None
  | Call i => call_step i p
  | Work i rd =>
      if db_open p then pl' ← worker.worker_step cfg i 0 rd (pl p); Some (set_pool pl' p) else None
  | Signal => match main p with Running => Some (set_main (Shutting (tally.shutdown w)) p) | _ => None end
  | Main d => main_step d p
  end.

Lemma proc_exec_step p e p' : exec p e = Some p' → step cfg w p p'.
Proof.
  unfold exec. case_bool_decide as Hf; [|done]. cbn [negb].
  destruct e.
  - destruct (decide _) as [[? ?]|]; [|done]. intros [= <-]. by apply st_http.
  - destruct (decide _); [|done]. intros [= <-]. by apply st_grpc.
  - intros H. by eapply st_call.
  - destruct (db_open p) eqn:Hd; [|done].
    destruct (worker.worker_step cfg i 0 rd (pl p)) as [pl'|] eqn:Hs; [|done]. intros [= <-].
    eapply st_worker; [done|exact Hs|by left].
  - destruct (main p) eqn:Hm; [|done..]. intros [= <-]. by apply st_signal.
  - intros H. by eapply st_main.
Qed.

Definition exec_all (p : proc) (es : list event) : option (proc (S := S)) :=
  foldl (λ o e, o ≫= λ p, exec p e) (Some p) es.

Lemma proc_exec_reachable es p p' : exec_all p es = Some p' → rtc (step cfg w) p p'.
Proof.
  unfold exec_all. revert p. induction es as [|e es IH]; intros p; simpl; [by intros [= <-]|].
  destruct (exec p e) as [p1|] eqn:He.
  - intros H. eapply rtc_l; [by eapply proc_exec_step|by apply IH].
  - intros H. exfalso. clear -H. by induction es.
Qed.
End exec.

Section witnesses.
#[local] Existing Instance store_props.utc_server.
#[local] Existing Instance store_props.flat_json.
Import store_props.

(** One worker, a queue for two events, batches of two. *)
Definition small_env : tally.environ := λ k,
  if decide (k = "QUEUE_SIZE"%string) then "2"%string
  else if decide (k = "WORKERS"%string) then "1"%string
  else if decide (k = "BATCH_SIZE"%string) then "2"%string else ""%string.

Definition small_cfg : tally.config := match tally.loadConfig small_env with Ok c => c | Err _ => tally.kafka_cfg end.
Definition small_wiring : tally.wiring :=
  match tally.wire tally.up small_cfg with Ok x => x | Err _ => tally.kafka_wiring end.
Definition small_pool : worker.Config metrics.t := pipeline.pool_cfg 1 2 (200 * clock.Millisecond).
Definition small_queue : queue.Memory := queue.MkMemory (queue.MkChan 2 [] false) false.

Lemma small_started : started small_env tally.up small_cfg small_wiring small_pool small_queue fresh.
Proof. split; vm_compute; reflexivity. Qed.

Abbreviation small_launch := (launch small_pool small_wiring small_queue fresh).

(** Two doors, one event each, then the signal while a request is under way. *)
Definition orderly : list event :=
  [Post [e1]; Publish [e2]; Call 0; Call 0; Work 0 worker.Receive; Call 1; Signal; Main false; Call 0; Main false;
   Main false; Call 1; Call 1; Main false; Main false; Main false; Main false; Work 0 worker.Receive;
   Work 0 worker.Insert; Work 0 worker.Receive; Main false; Main false; Main false].

Definition run_of (es : list event) : proc (S := Store) :=
  default small_launch (exec_all small_pool small_wiring small_launch es).

(** The run is one, up to its last step. *)
Definition runs (es : list event) : bool :=
  match exec_all small_pool small_wiring small_launch es with Some _ => true | None => false end.

Lemma run_reachable es : runs es = true → rtc (step small_pool small_wiring) small_launch (run_of es).
Proof.
  unfold runs, run_of. destruct (exec_all _ _ _ es) as [p|] eqn:He; [|done]. intros _. by eapply proc_exec_reachable.
Qed.

Lemma orderly_runs : runs orderly = true.
Proof. vm_compute. reflexivity. Qed.

Definition is_finished (p : proc (S := Store)) : bool := match main p with Finished => true | _ => false end.

Lemma is_finished_main (p : proc (S := Store)) : is_finished p = true → main p = Finished.
Proof. unfold is_finished. by destruct (main p). Qed.

Lemma orderly_finished : main (run_of orderly) = Finished.
Proof. apply is_finished_main. vm_compute. reflexivity. Qed.

Lemma orderly_accepted : worker.accepted (pl (run_of orderly)) = [e1; e2].
Proof. vm_compute. reflexivity. Qed.

Lemma orderly_in_range : Forall pipeline.in_range (worker.accepted (pl (run_of orderly))).
Proof. rewrite orderly_accepted. repeat constructor; vm_compute; reflexivity. Qed.

Lemma orderly_dropped : metrics.EventsDropped (worker.hook (pl (run_of orderly))) = 0.
Proof. vm_compute. reflexivity. Qed.

(** A request stalls between the flag and the send, [srv.Shutdown] gives up on
    it, and the queue is closed under it. *)
Definition impatient : list event :=
  [Post [e1]; Call 0; Signal; Main false; Main true; Main false; Main false; Main false; Main false; Main false;
   Call 0].

Lemma impatient_panics :
  runs impatient = true ∧
  existsb (λ c, match pc c with Panicked => true | _ => false end) (calls (run_of impatient)) = true ∧
  timed_out (run_of impatient) = true.
Proof. vm_compute. done. Qed.

Lemma graceful_shutdown_witness :
  worker.accepted (pl (run_of orderly)) = [e1; e2] ∧ late_insert (run_of orderly) = false ∧
  queue.buf (queue.ch (worker.q (pl (run_of orderly)))) = [] ∧
  store_spec.represents (worker.accepted (pl (run_of orderly))) (db (worker.sink (pl (run_of orderly)))).
Proof.
  destruct (graceful_shutdown small_env tally.up small_cfg small_wiring small_pool small_queue fresh
    (run_of orderly) small_started (run_reachable orderly orderly_runs)) as (Hl & _ & Hfin).
  destruct (Hfin orderly_finished) as (_ & Hb & _ & _ & Hrep).
  exact (conj orderly_accepted (conj Hl (conj Hb (Hrep orderly_in_range orderly_dropped)))).
Defined.

(** The state of [orderly] when both doors are shut. *)
Definition shut : list event := take 14 orderly.

Lemma shut_runs : runs shut = true.
Proof. vm_compute. reflexivity. Qed.

Lemma shut_main : main (run_of shut) = Shutting (drop 2 memory_shutdown).
Proof. vm_compute. reflexivity. Qed.

Lemma shut_doors : doors_shut (run_of shut).
Proof. split; vm_compute; discriminate. Qed.

Lemma shut_work : (shutdown_work small_pool (run_of shut) ≤ 40)%nat.
Proof. apply Nat.leb_le. vm_compute. reflexivity. Qed.

Lemma shutdown_terminates_witness :
  (∃ p', busy_step small_pool (run_of shut) p') ∧
  ∀ n p', nsteps (busy_step small_pool) n (run_of shut) p' → (n ≤ 40)%nat.
Proof.
  destruct (shutdown_terminates small_env tally.up small_cfg small_wiring small_pool small_queue fresh
    (run_of shut) small_started (run_reachable shut shut_runs)) as [Hp Hn].
  exact (conj (Hp _ shut_main) (λ n p' H, Nat.le_trans _ _ _ (Hn shut_doors n p' H) shut_work)).
Defined.
End witnesses.
End process.
