(* ===== verification/KafkaProcess.v ===== *)
(** * The process: [main] of [cmd/tally] from start to exit, in Kafka mode

    The goroutines of an instance with [QUEUE=kafka], in any of its three modes:
    requests inside the two doors, which test the producer's buffer and then
    hand over their record in two steps; the broker client, which moves records
    on its own; the consumer loop of [Kafka]; and the main goroutine with the
    shutdown sequence of [Main].  A failing [ListenAndServe] ends the process.
    [Process] is the same for the memory queue. *)

From S2P Require Import Prelude Clock Strconv Store StoreProps Queue Metrics Worker Kafka Main Doors Pipeline.
From stdpp Require Import prelude list gmap strings relations.
From Stdlib Require Import ZArith Lia.
Open Scope Z_scope.

Module kprocess.
Import doors.
Import store (Event).

(** ** State *)

(** A request with the events it has still to enqueue: before the test of the
    buffer, between the test and [Produce], answered. *)
Inductive call_pc : Type :=
  | AtCheck (es : list Event)
  | AtProduce (e : Event) (m : kafka.message) (es : list Event)
  | Answered (err : option queue.error).

Definition live (x : call_pc) : bool := match x with Answered _ => false | _ => true end.
Abbreviation call := (doors.call call_pc).
Abbreviation busy := (doors.busy live).

Record front : Type := MkFront {
  calls : list call;
  http : listener;
  grpc : listener;
  timed_out : bool;      (* [srv.Shutdown] gave up on a request *)
}.

Section process.
Context {P C S : Type} {pk : kafka.Kgo P} {ck : kafka.Kgo C} {codec : kafka.Codec} {ins : worker.BatchInserter S}
  {obx : kafka.Outbox P}.
Abbreviation producer := (kafka.KafkaProducer (B := P)).
Abbreviation consumer_loop := (kafka.system (B := C) (S := S) (M := metrics.t)).

Record outlet : Type := MkOutlet {
  prod : producer;
  flushed : bool;
  pclosed : bool;
  accepted : list Event;     (* [Enqueue] returned nil *)
  late_accept : bool;        (* .. after the client was closed *)
}.

Record intake : Type := MkIntake {
  loop : consumer_loop;
  gave_up_wait : bool;       (* consumer did not stop in time *)
  late_insert : bool;        (* an insert met the closed store *)
}.

Record proc : Type := MkProc {
  fr : front;
  po : option outlet;        (* [None]: [queue.Reject] *)
  co : option intake;        (* [None]: no consumer in this mode *)
  db_open : bool;
  main : main_pc;
}.

Definition set_calls (cs : list call) (p : proc) : proc :=
  MkProc (MkFront cs (http (fr p)) (grpc (fr p)) (timed_out (fr p))) (po p) (co p) (db_open p) (main p).
Definition set_po (o : outlet) (p : proc) : proc := MkProc (fr p) (Some o) (co p) (db_open p) (main p).
Definition set_co (c : intake) (p : proc) : proc := MkProc (fr p) (po p) (Some c) (db_open p) (main p).
Definition set_main (m : main_pc) (p : proc) : proc := MkProc (fr p) (po p) (co p) (db_open p) m.
Definition set_http (l : listener) (late : bool) (p : proc) : proc :=
  MkProc (MkFront (calls (fr p)) l (grpc (fr p)) (timed_out (fr p) || late)) (po p) (co p) (db_open p) (main p).
Definition set_grpc (l : listener) (p : proc) : proc :=
  MkProc (MkFront (calls (fr p)) (http (fr p)) l (timed_out (fr p))) (po p) (co p) (db_open p) (main p).
Definition close_db (p : proc) : proc := MkProc (fr p) (po p) (co p) false (main p).

Definition set_client (b : P) (o : outlet) : outlet :=
  MkOutlet (kafka.MkProducer b (kafka.ptopic (prod o)) (kafka.maxBuf (prod o))) (flushed o) (pclosed o)
    (accepted o) (late_accept o).
Definition set_loop (s : consumer_loop) (c : intake) : intake := MkIntake s (gave_up_wait c) (late_insert c).

(** [main] up to the signal. *)
Definition launch (w : tally.wiring) (pr : option producer) (cl : option consumer_loop) : proc :=
  MkProc (MkFront [] Serving (if tally.grpc_listener w then Serving else Stopped) false)
    ((λ x, MkOutlet x false false [] false) <$> pr) ((λ s, MkIntake s false false) <$> cl) true Running.

(** ** Steps *)

Definition full (o : outlet) : bool := kafka.maxBuf (prod o) <=? kafka.BufferedProduceRecords (kafka.cl (prod o)).

(** [p.cl.Produce]: a closed client fails the record at once. *)
Definition produce (e : Event) (m : kafka.message) (o : outlet) : outlet :=
  let b := kafka.Produce m (kafka.cl (prod o)) in
  let o' := set_client (if pclosed o then kafka.CloseClient b else b) o in
  MkOutlet (prod o') (flushed o') (pclosed o') (accepted o ++ [e]) (late_accept o || pclosed o).

(** One operation of a request.  [Produce] blocks while the client's buffer is
    at its [MaxBufferedRecords]. *)
Definition call_step (i : nat) (p : proc) : option proc :=
  c ← calls (fr p) !! i;
  let go pc' p := set_calls (<[i := MkCall (via c) pc']> (calls (fr p))) p in
  match pc c, po p with
  | AtCheck [], _ => Some (go (Answered None) p)
  | AtCheck (e :: es), None => Some (go (Answered (Some queue.ErrUnavailable)) p)
  | AtCheck (e :: es), Some o =>
      Some (go (if full o then Answered (Some queue.ErrFull)
                else match kafka.json_Marshal_event e with
                     | None => Answered (Some queue.ErrOther)
                     | Some b => AtProduce e (kafka.ptopic (prod o), store.Name e, b) es
                     end) p)
  | AtProduce e m es, Some o =>
      if full o && negb (pclosed o) then None
      else Some (go (AtCheck es) (set_po (produce e m o) p))
  | _, _ => None
  end.

(** One step of the main goroutine.  [deadline]: the time limit of the wait it is
    in (ten seconds for [srv.Shutdown], fifteen for the consumer) is over;
    [GracefulStop] has none. *)
Definition main_step (deadline : bool) (p : proc) : option proc :=
  match main p with
  | Shutting [] => Some (set_main Finished p)
  | Shutting (a :: rest) =>
      let done p := Some (set_main (Shutting rest) p) in
      match a with
      | tally.StopHTTP =>
          match http (fr p) with
          | Serving => Some (set_http Draining false p)
          | _ => if busy DHttp (calls (fr p))
                 then (if deadline then done (set_http Stopped true p) else None)
                 else done (set_http Stopped false p)
          end
      | tally.StopGRPC =>
          match grpc (fr p) with
          | Serving => Some (set_grpc Draining p)
          | _ => if busy DGrpc (calls (fr p)) then None else done (set_grpc Stopped p)
          end
      | tally.CloseProducer =>
          match po p with
          | None => None
          | Some o =>
              if flushed o
              then done (set_po (MkOutlet (prod (set_client (kafka.CloseClient (kafka.cl (prod o))) o)) true true
                                   (accepted o) (late_accept o)) p)
              else Some (set_po (MkOutlet (prod (set_client (kafka.Flush (kafka.cl (prod o))).2 o)) true (pclosed o)
                                   (accepted o) (late_accept o)) p)
          end
      | tally.StopConsumer =>
          c ← co p;
          let s := loop c in
          done (set_co (set_loop (kafka.MkSystem (kafka.broker s) (kafka.sink s) (kafka.hook s) (kafka.run s) true) c) p)
      | tally.AwaitConsumer =>
          c ← co p;
          match kafka.run (loop c) with
          | kafka.Returned => done p
          | _ => if deadline then done (set_co (MkIntake (loop c) true (late_insert c)) p) else None
          end
      | tally.CloseStore => done (close_db p)
      | _ => None
      end
  | _ => None
  end.

(** An insert on the closed pool fails without a round trip. *)
Definition late_step (gave_up : bool) (recs : list kafka.record) (evs : list Event) (start : clock.time) (attempt : Z)
    (s : consumer_loop) : consumer_loop :=
  if gave_up then kafka.return_from (kafka.broker s) (kafka.sink s) s
  else kafka.MkSystem (kafka.broker s) (kafka.sink s) (kafka.hook s)
         (kafka.Inserting recs evs start (attempt + 1)) (kafka.ctx_done s).

Definition inserting (s : consumer_loop) : bool := match kafka.run s with kafka.Inserting _ _ _ _ => true | _ => false end.

Inductive step (batchSize : Z) (w : tally.wiring) : proc → proc → Prop :=
  | st_http p es :
      up (main p) → http (fr p) = Serving → (length es ≤ 1)%nat →
      step batchSize w p (set_calls (calls (fr p) ++ [MkCall DHttp (AtCheck es)]) p)
  | st_grpc p es :
      up (main p) → grpc (fr p) = Serving →
      step batchSize w p (set_calls (calls (fr p) ++ [MkCall DGrpc (AtCheck es)]) p)
  | st_call p p' i : up (main p) → call_step i p = Some p' → step batchSize w p p'
  | st_client p o b :
      up (main p) → po p = Some o → kafka.moves (kafka.cl (prod o)) b → step batchSize w p (set_po (set_client b o) p)
  | st_broker p c b :
      up (main p) → co p = Some c →
      step batchSize w p
        (set_co (set_loop (kafka.MkSystem b (kafka.sink (loop c)) (kafka.hook (loop c)) (kafka.run (loop c))
                             (kafka.ctx_done (loop c))) c) p)
  | st_loop p c s' :
      up (main p) → co p = Some c → kafka.rstep batchSize (Some tally.onFlush) (loop c) s' →
      db_open p = true ∨ inserting (loop c) = false → step batchSize w p (set_co (set_loop s' c) p)
  | st_late p c gave_up recs evs start attempt :
      up (main p) → co p = Some c → kafka.run (loop c) = kafka.Inserting recs evs start attempt →
      db_open p = false → (gave_up = true → kafka.ctx_done (loop c) = true) →
      step batchSize w p
        (set_co (MkIntake (late_step gave_up recs evs start attempt (loop c)) (gave_up_wait c) true) p)
  | st_fatal p : up (main p) → http (fr p) = Serving → step batchSize w p (set_main Crashed p)
  | st_signal p : main p = Running → step batchSize w p (set_main (Shutting (tally.shutdown w)) p)
  | st_main p p' deadline : main_step deadline p = Some p' → step batchSize w p p'.

(** Undisturbed, the two operations of a request are [Enqueue] of [Kafka]. *)
Lemma calls_are_Enqueue p i c e es o pr err :
  po p = Some o → pclosed o = false → calls (fr p) !! i = Some c → pc c = AtCheck (e :: es) →
  kafka.Enqueue e (prod o) = Some (pr, err) →
  ∃ p', rtc (λ p p', call_step i p = Some p') p p' ∧ (prod <$> po p') = Some pr ∧
    (pc <$> calls (fr p') !! i) = Some (match err with None => AtCheck es | Some _ => Answered err end).
Proof.
  intros Ho Hcl Hi Hpc. unfold kafka.Enqueue. assert (i < length (calls (fr p)))%nat by (by eapply lookup_lt_Some).
  assert (∀ x, call_step i p = Some (set_calls (<[i := MkCall (via c) x]> (calls (fr p))) p) →
    ∃ p', rtc (λ p p', call_step i p = Some p') p p' ∧ (prod <$> po p') = Some (prod o) ∧ (pc <$> calls (fr p') !! i) = Some x)
    as Hone.
  { intros x Hs. eexists. split; [by apply rtc_once|]. simpl. rewrite Ho, list_lookup_insert_eq by done. done. }
  destruct (kafka.maxBuf (prod o) <=? _) eqn:Hf.
  { intros [= <- <-]. apply Hone. unfold call_step. rewrite Hi. simpl. rewrite Hpc, Ho. unfold full. by rewrite Hf. }
  destruct (kafka.json_Marshal_event e) as [b|] eqn:Hb.
  - intros [= <- <-]. eexists. split.
    + eapply rtc_l; [unfold call_step; rewrite Hi; simpl; by rewrite Hpc, Ho|].
      unfold full. rewrite Hf, Hb. eapply rtc_once. unfold call_step. simpl. rewrite list_lookup_insert_eq by done. simpl.
      rewrite Ho. unfold full. rewrite Hf. done.
    + simpl. rewrite Hcl. split; [done|]. rewrite list_lookup_insert_eq; [done|]. by rewrite length_insert.
  - intros [= <- <-]. apply Hone. unfold call_step. rewrite Hi. simpl. rewrite Hpc, Ho. unfold full. by rewrite Hf, Hb.
Qed.

(** ** The invariant *)

Fixpoint tails (l : list tally.action) : list (list tally.action) :=
  l :: match l with [] => [] | _ :: l' => tails l' end.

(** What the order of a shutdown sequence has to guarantee: no action twice, the
    doors before the producer, the store last. *)
Definition ordered (l : list tally.action) : bool :=
  match l with
  | [] => true
  | a :: rest =>
      bool_decide (a ∉ rest) &&
      (if decide (a = tally.CloseProducer)
       then bool_decide (tally.StopHTTP ∉ rest) && bool_decide (tally.StopGRPC ∉ rest) else true) &&
      (if decide (a = tally.CloseStore) then bool_decide (rest = []) else true)
  end.

Definition sequence_ok (l : list tally.action) : bool :=
  bool_decide (tally.StopHTTP ∈ l) && forallb ordered (tails l).

(** The action is still to be done. *)
Definition pending (a : tally.action) (p : proc) : Prop :=
  match main p with Running | Crashed => True | Shutting rest => a ∈ rest | Finished => False end.

Record out_inv (o : outlet) : Prop := {
  ov_placed : kafka.placed (prod o) (accepted o);
  ov_bound : Z.of_nat (length (kafka.buffered (kafka.cl (prod o)))) ≤ kafka.maxBuf (prod o);
  ov_closed : pclosed o = true → kafka.buffered (kafka.cl (prod o)) = [];
}.

Record inv (shut : list tally.action) (p : proc) : Prop := {
  iv_rest rest : main p = Shutting rest → rest ∈ tails shut;
  iv_http : http (fr p) ≠ Stopped → pending tally.StopHTTP p;
  iv_grpc : grpc (fr p) ≠ Stopped → tally.StopGRPC ∈ shut ∧ pending tally.StopGRPC p;
  iv_hcalls : http (fr p) = Stopped → timed_out (fr p) = false → busy DHttp (calls (fr p)) = false;
  iv_gcalls : grpc (fr p) = Stopped → busy DGrpc (calls (fr p)) = false;
  iv_msg c e m es o :
    c ∈ calls (fr p) → pc c = AtProduce e m es → po p = Some o → kafka.message_of (kafka.ptopic (prod o)) e = Some m;
  iv_out o : po p = Some o → out_inv o;
  iv_shut o : po p = Some o → flushed o = true ∨ pclosed o = true → http (fr p) = Stopped ∧ grpc (fr p) = Stopped;
  iv_late o : po p = Some o → late_accept o = true → timed_out (fr p) = true;
  iv_pdone o : po p = Some o → tally.CloseProducer ∈ shut ∧ (¬ pending tally.CloseProducer p → pclosed o = true);
  iv_cdone c :
    co p = Some c → tally.AwaitConsumer ∈ shut ∧
      (¬ pending tally.AwaitConsumer p → gave_up_wait c = true ∨ kafka.run (loop c) = kafka.Returned);
  iv_cwait c : co p = Some c → late_insert c = true → gave_up_wait c = true;
  iv_db : up (main p) → db_open p = false → ¬ pending tally.AwaitConsumer p;
}.

Context {laws : kafka.OutboxLaws P} (shut : list tally.action).
Hypothesis Hshut : sequence_ok shut = true.

Lemma tails_self l : l ∈ tails l.
Proof. destruct l; left. Qed.

Lemma tails_tail l a rest : a :: rest ∈ tails l → rest ∈ tails l.
Proof.
  induction l as [|b l IH]; cbn [tails].
  - intros H%list_elem_of_singleton. done.
  - intros [[= -> ->]|H]%elem_of_cons; right; [apply tails_self|by apply IH].
Qed.

Lemma shutting_ordered p a rest :
  inv shut p → main p = Shutting (a :: rest) →
  (a ∉ rest) ∧ (a = tally.CloseProducer → (tally.StopHTTP ∉ rest) ∧ (tally.StopGRPC ∉ rest)) ∧
  (a = tally.CloseStore → rest = []).
Proof.
  intros I Hm. pose proof (iv_rest _ _ I _ Hm) as Hin. pose proof Hshut as Hs. unfold sequence_ok in Hs.
  apply andb_true_iff in Hs as [_ Hs]. rewrite forallb_forall in Hs.
  specialize (Hs _ (proj1 (list_elem_of_In _ _) Hin)). cbn [ordered] in Hs. rewrite !andb_true_iff in Hs.
  destruct Hs as ((H1%bool_decide_eq_true & H2) & H3). split; [done|]. split.
  - intros ->. rewrite decide_True in H2 by done. rewrite andb_true_iff, !bool_decide_eq_true in H2. done.
  - intros ->. rewrite decide_True in H3 by done. by apply bool_decide_eq_true in H3.
Qed.

(** A request moves on, or a new one comes in. *)
Lemma inv_calls p cs :
  inv shut p →
  (∀ d, busy d (calls (fr p)) = false → (d = DHttp → http (fr p) = Stopped) → (d = DGrpc → grpc (fr p) = Stopped) →
     busy d cs = false) →
  (∀ c e m es o, c ∈ cs → pc c = AtProduce e m es → po p = Some o →
     kafka.message_of (kafka.ptopic (prod o)) e = Some m) →
  inv shut (set_calls cs p).
Proof.
  intros I Hb Hmsg. destruct I. split; simpl; try done.
  - intros Hh Ht. apply Hb; [by apply iv_hcalls0|done|done].
  - intros Hg. apply Hb; [by apply iv_gcalls0|done|done].
Qed.

Lemma elem_of_insert_call (cs : list call) i x y : y ∈ <[i := x]> cs → y = x ∨ y ∈ cs.
Proof.
  intros [j Hj]%list_elem_of_lookup. apply list_lookup_insert_Some in Hj as [(_ & <- & _)|(_ & Hj)];
    [by left|right; by eapply list_elem_of_lookup_2].
Qed.

Lemma inv_call p i c pc' :
  inv shut p → calls (fr p) !! i = Some c → live (pc c) = true →
  (∀ e m es o, pc' = AtProduce e m es → po p = Some o → kafka.message_of (kafka.ptopic (prod o)) e = Some m) →
  inv shut (set_calls (<[i := MkCall (via c) pc']> (calls (fr p))) p).
Proof.
  intros I Hi Hl Hmsg. apply inv_calls; [done| |].
  - intros d Hb _ _. by apply busy_insert.
  - intros c' e m es o [->|Hc]%elem_of_insert_call; [by apply Hmsg|by eapply (iv_msg _ _ I)].
Qed.

(** The producer's side changes. *)
Lemma inv_po p o o' :
  inv shut p → po p = Some o → out_inv o' → kafka.ptopic (prod o') = kafka.ptopic (prod o) →
  (flushed o' = true ∨ pclosed o' = true → http (fr p) = Stopped ∧ grpc (fr p) = Stopped) →
  (late_accept o' = true → timed_out (fr p) = true) →
  (¬ pending tally.CloseProducer p → pclosed o' = true) → inv shut (set_po o' p).
Proof.
  intros I Ho Hout Ht Hsh Hl Hd. pose proof (proj1 (iv_pdone _ _ I o Ho)). destruct I.
  split; simpl; try done.
  - intros c e m es o'' Hc Hpc [= <-]. rewrite Ht. by eapply iv_msg0.
  - by intros o'' [= <-].
  - by intros o'' [= <-].
  - by intros o'' [= <-].
  - by intros o'' [= <-].
Qed.

(** *** The producer *)

Lemma out_moves o b :
  out_inv o → kafka.moves (kafka.cl (prod o)) b → out_inv (set_client b o).
Proof.
  intros [Hp Hb Hc] Hm. pose proof (kafka.moves_length _ _ Hm) as Hle. split; simpl.
  - by apply (kafka.placed_moves (prod o)).
  - lia.
  - intros Hcl. apply length_zero_iff_nil. rewrite (Hc Hcl) in Hle. simpl in Hle. lia.
Qed.

Lemma out_flags o fl cl :
  out_inv o → (cl = true → kafka.buffered (kafka.cl (prod o)) = []) →
  out_inv (MkOutlet (prod o) fl cl (accepted o) (late_accept o)).
Proof. intros [Hp Hb Hc] Hcl. by split. Qed.

Lemma out_produce o e m :
  out_inv o → kafka.message_of (kafka.ptopic (prod o)) e = Some m → (pclosed o = false → full o = false) →
  out_inv (produce e m o).
Proof.
  intros [(ms & Hms & Hp) Hb Hc] Hm Hfull.
  destruct (kafka.produce_buffers m (kafka.cl (prod o))) as (Hbuf & Ha & Hf).
  assert (kafka.placed (kafka.MkProducer (kafka.Produce m (kafka.cl (prod o))) (kafka.ptopic (prod o)) (kafka.maxBuf (prod o)))
            (accepted o ++ [e])) as Hpl.
  { exists (ms ++ [m]). split; [by apply Forall2_app; [|constructor]|]. simpl. by rewrite Hbuf, Ha, Hf, Hp, !app_assoc. }
  destruct (pclosed o) eqn:Hcl; unfold produce, set_client; rewrite Hcl; simpl.
  - destruct (kafka.close_moves (kafka.Produce m (kafka.cl (prod o)))) as [Hmv Hnil]. split; simpl.
    + by apply (kafka.placed_moves _ _ _ Hpl).
    + rewrite Hnil. simpl. lia.
    + done.
  - specialize (Hfull eq_refl). unfold full in Hfull. rewrite kafka.buffered_count in Hfull. bool_props.
    split; simpl; [done| |done]. rewrite Hbuf, length_app. simpl. lia.
Qed.

Lemma k_call_step_inv p p' i : inv shut p → call_step i p = Some p' → inv shut p'.
Proof.
  intros I. unfold call_step. destruct (calls (fr p) !! i) as [c|] eqn:Hi; [|done]. simpl.
  destruct (pc c) as [[|e es]|e m es|] eqn:Hpc; [| | |done].
  - intros [= <-]. apply inv_call; [done|done|by rewrite Hpc|done].
  - destruct (po p) as [o|] eqn:Ho; intros [= <-]; (apply inv_call; [done|done|by rewrite Hpc|]).
    + intros e' m es' o' Heq Ho'. rewrite Ho in Ho'. injection Ho' as <-. destruct (full o); [done|]. destruct (kafka.json_Marshal_event e) as [b|] eqn:Hb; [|done].
      injection Heq as <- <- <-. unfold kafka.message_of. by rewrite Hb.
    + done.
  - destruct (po p) as [o|] eqn:Ho; [|done]. destruct (full o && negb (pclosed o)) eqn:Hf; [done|]. intros [= <-].
    assert (c ∈ calls (fr p)) as Hc by (by eapply list_elem_of_lookup_2).
    apply (inv_call (set_po (produce e m o) p) i c (AtCheck es)); [|done|by rewrite Hpc|done].
    apply (inv_po p o); [done|done| |done| | |].
    + apply out_produce; [by apply (iv_out _ _ I)|by eapply (iv_msg _ _ I)|].
      intros Hcl. rewrite Hcl in Hf. by rewrite andb_true_r in Hf.
    + exact (iv_shut _ _ I o Ho).
    + unfold produce. simpl. intros [Hl|Hcl]%orb_true_iff; [by apply (iv_late _ _ I o)|].
      destruct (iv_shut _ _ I o Ho (or_intror Hcl)) as [Hh Hg]. destruct (timed_out (fr p)) eqn:Ht; [done|].
      assert (live (pc c) = false) as Hl; [|by rewrite Hpc in Hl].
      destruct (via c) eqn:Hv; [|eapply busy_false; [by apply (iv_gcalls _ _ I)|done|done]].
      eapply busy_false; [by apply (iv_hcalls _ _ I)|done|done].
    + exact (proj2 (iv_pdone _ _ I o Ho)).
Qed.

(** *** The main goroutine *)

(** The consumer's side changes. *)
Lemma inv_co p c c' :
  inv shut p → co p = Some c →
  (¬ pending tally.AwaitConsumer p → gave_up_wait c' = true ∨ kafka.run (loop c') = kafka.Returned) →
  (late_insert c' = true → gave_up_wait c' = true) → inv shut (set_co c' p).
Proof.
  intros I Hc Hw Hl. pose proof (proj1 (iv_cdone _ _ I c Hc)). destruct I.
  split; simpl; try done; by intros c'' [= <-].
Qed.

(** An action is done. *)
Lemma inv_advance p p1 a rest :
  main p = Shutting (a :: rest) → main p1 = main p → a ∉ rest → inv shut p1 →
  (a = tally.StopHTTP → http (fr p1) = Stopped) →
  (a = tally.StopGRPC → grpc (fr p1) = Stopped) →
  (a = tally.CloseProducer → ∀ o, po p1 = Some o → pclosed o = true) →
  (a = tally.AwaitConsumer → ∀ c, co p1 = Some c → gave_up_wait c = true ∨ kafka.run (loop c) = kafka.Returned) →
  inv shut (set_main (Shutting rest) p1).
Proof.
  intros Hm Hm1 Hnin I Hh Hg Hp Hc. rewrite Hm in Hm1.
  assert (∀ b, pending b p1 → b = a ∨ pending b (set_main (Shutting rest) p1)) as Hpend.
  { intros b. unfold pending. rewrite Hm1. simpl. by intros [->|?]%elem_of_cons; [left|right]. }
  destruct I. split; simpl; try done.
  - intros r [= <-]. apply (tails_tail shut a). by apply iv_rest0.
  - intros Hne. destruct (Hpend _ (iv_http0 Hne)) as [<-|?]; [by destruct Hne; apply Hh|done].
  - intros Hne. destruct (iv_grpc0 Hne) as [? Hx]. split; [done|].
    destruct (Hpend _ Hx) as [<-|?]; [by destruct Hne; apply Hg|done].
  - intros o Ho. destruct (iv_pdone0 o Ho) as [? Hd]. split; [done|]. intros Hn.
    destruct (decide (a = tally.CloseProducer)) as [->|Hne]; [by apply Hp|]. apply Hd.
    intros Hx. destruct (Hpend _ Hx) as [?|?]; [congruence|done].
  - intros c Hco. destruct (iv_cdone0 c Hco) as [? Hd]. split; [done|]. intros Hn.
    destruct (decide (a = tally.AwaitConsumer)) as [->|Hne]; [by apply Hc|]. apply Hd.
    intros Hx. destruct (Hpend _ Hx) as [?|?]; [congruence|done].
  - intros _ Hdb Hx. apply (iv_db0 ltac:(by rewrite Hm1) Hdb). unfold pending in *. rewrite Hm1. simpl in Hx. by right.
Qed.

Lemma inv_finish p : inv shut p → main p = Shutting [] → inv shut (set_main Finished p).
Proof.
  intros I Hm. assert (∀ b, ¬ pending b p) as Hno by (intros b; unfold pending; rewrite Hm; apply not_elem_of_nil).
  destruct I. split; simpl; try done.
  - intros Hne. by destruct (Hno _ (iv_http0 Hne)).
  - intros Hne. destruct (iv_grpc0 Hne) as [_ Hx]. by destruct (Hno _ Hx).
  - intros o Ho. destruct (iv_pdone0 o Ho) as [? Hd]. split; [done|]. auto.
  - intros c Hc. destruct (iv_cdone0 c Hc) as [? Hd]. split; [done|]. auto.
Qed.

(** The listeners. *)
Lemma inv_http p l late :
  inv shut p → (l ≠ Stopped → http (fr p) ≠ Stopped) →
  (l = Stopped → late = false → timed_out (fr p) = false → busy DHttp (calls (fr p)) = false) →
  (l = Stopped ∨ http (fr p) ≠ Stopped) → inv shut (set_http l late p).
Proof.
  intros I Hl Hb Hx. destruct I. split; simpl; try done.
  - intros Hne. by apply iv_http0, Hl.
  - intros -> [Ht Hlate]%orb_false_iff. by apply Hb.
  - intros o Ho Hf. destruct (iv_shut0 o Ho Hf) as [H1 H2]. split; [|done].
    destruct Hx as [->|Hne]; [done|]. by destruct (Hne H1).
  - intros o Ho Hlate. by rewrite (iv_late0 o Ho Hlate).
Qed.

Lemma inv_grpc p l :
  inv shut p → (l ≠ Stopped → grpc (fr p) ≠ Stopped) → (l = Stopped → busy DGrpc (calls (fr p)) = false) →
  (l = Stopped ∨ grpc (fr p) ≠ Stopped) → inv shut (set_grpc l p).
Proof.
  intros I Hl Hb Hx. destruct I. split; simpl; try done.
  - intros Hne. by apply iv_grpc0, Hl.
  - intros o Ho Hf. destruct (iv_shut0 o Ho Hf) as [H1 H2]. split; [done|].
    destruct Hx as [->|Hne]; [done|]. by destruct (Hne H2).
Qed.

(** When the producer's turn comes both doors are shut. *)
Lemma doors_before_producer p rest :
  inv shut p → main p = Shutting (tally.CloseProducer :: rest) → http (fr p) = Stopped ∧ grpc (fr p) = Stopped.
Proof.
  intros I Hm. destruct (shutting_ordered p _ _ I Hm) as (_ & Hord & _). destruct (Hord eq_refl) as [H1 H2].
  pose proof (iv_http _ _ I) as Hh. pose proof (iv_grpc _ _ I) as Hg. unfold pending in *. rewrite Hm in *. split.
  - destruct (decide (http (fr p) = Stopped)) as [|Hne]; [done|]. by apply Hh, elem_of_cons in Hne as [?|?].
  - destruct (decide (grpc (fr p) = Stopped)) as [|Hne]; [done|].
    apply Hg in Hne as [_ Hne]. by apply elem_of_cons in Hne as [?|?].
Qed.

Lemma close_producer_inv p p' rest o :
  inv shut p → main p = Shutting (tally.CloseProducer :: rest) → po p = Some o →
  (if flushed o
   then Some (set_main (Shutting rest)
          (set_po (MkOutlet (prod (set_client (kafka.CloseClient (kafka.cl (prod o))) o)) true true
                     (accepted o) (late_accept o)) p))
   else Some (set_po (MkOutlet (prod (set_client (kafka.Flush (kafka.cl (prod o))).2 o)) true (pclosed o)
                        (accepted o) (late_accept o)) p)) = Some p' →
  inv shut p'.
Proof.
  intros I Hm Ho. pose proof (doors_before_producer p rest I Hm) as Hd.
  pose proof (iv_out _ _ I o Ho) as Hout. destruct (shutting_ordered p _ _ I Hm) as (Hnin & _).
  destruct (flushed o) eqn:Hf; intros [= <-].
  - destruct (kafka.close_moves (kafka.cl (prod o))) as [Hmv Hnil].
    eapply (inv_advance p); [exact Hm|done|done| |done..|by intros _ o' [= <-]|done].
    apply (inv_po p o); [done|done| |done|done|by apply (iv_late _ _ I o)|done].
    apply (out_flags (set_client (kafka.CloseClient (kafka.cl (prod o))) o)); [by apply out_moves|done].
  - destruct (kafka.Flush (kafka.cl (prod o))) as [err b] eqn:Hfl.
    destruct (kafka.flush_moves _ _ _ Hfl) as [Hmv _].
    apply (inv_po p o); [done|done| |done|done|by apply (iv_late _ _ I o)|by apply (iv_pdone _ _ I o)].
    pose proof (out_moves o b Hout Hmv) as Hout'. apply (out_flags (set_client b o)); [done|]. apply Hout'.
Qed.

Lemma k_main_step_inv p p' deadline : inv shut p → main_step deadline p = Some p' → inv shut p'.
Proof.
  intros I. unfold main_step. destruct (main p) as [|[|a rest]| |] eqn:Hm; [done| | |done..].
  { intros [= <-]. by apply inv_finish. }
  destruct (shutting_ordered p _ _ I Hm) as (Hnin & _ & Hlast).
  pose proof (λ p1, inv_advance p p1 a rest Hm) as Hadv. destruct a; try done.
  - destruct (http (fr p)) eqn:Hh.
    + intros [= <-]. apply inv_http; [done|by rewrite Hh|done|right; by rewrite Hh].
    + destruct (busy DHttp _) eqn:Hb; [destruct deadline; [|done]|]; intros [= <-]; (apply Hadv; [done|done| |done..]);
        (apply inv_http; [done|done|done|by left]).
    + destruct (busy DHttp _) eqn:Hb; [destruct deadline; [|done]|]; intros [= <-]; (apply Hadv; [done|done| |done..]);
        (apply inv_http; [done|done|done|by left]).
  - destruct (grpc (fr p)) eqn:Hg.
    + intros [= <-]. apply inv_grpc; [done|by rewrite Hg|done|right; by rewrite Hg].
    + destruct (busy DGrpc _) eqn:Hb; [done|]. intros [= <-]. apply Hadv; [done|done| |done..].
      apply inv_grpc; [done|done|done|by left].
    + destruct (busy DGrpc _) eqn:Hb; [done|]. intros [= <-]. apply Hadv; [done|done| |done..].
      apply inv_grpc; [done|done|done|by left].
  - destruct (po p) as [o|] eqn:Ho; [|done]. by apply (close_producer_inv p p' rest o).
  - destruct (co p) as [c|] eqn:Hc; [|done]. intros [= <-]. apply Hadv; [done|done| |done..].
    apply (inv_co p c); [done|done| |by apply (iv_cwait _ _ I c)]. by apply (iv_cdone _ _ I c Hc).
  - destruct (co p) as [c|] eqn:Hc; [|done]. simpl.
    assert (¬ pending tally.AwaitConsumer (set_main (Shutting rest) p)) as Hnp by done.
    destruct (kafka.run (loop c)) eqn:Hrun.
    4: { intros [= <-]. apply Hadv; [done|done|done|done..|]. intros _ c' Hc'. right. congruence. }
    all: destruct deadline; [|done]; intros [= <-]; (apply Hadv; [done|done| |done..|by intros _ c' [= <-]; left]).
    all: apply (inv_co p c); [done|done|by left|done].
  - intros [= <-]. apply Hadv; [done|done| |done..]. specialize (Hlast eq_refl). subst rest.
    destruct I. split; simpl; try done. intros _ _. unfold pending. simpl. rewrite Hm. by intros ?%list_elem_of_singleton.
Qed.

(** *** Every step *)

Lemma loop_returned batchSize s s' :
  kafka.rstep (B := C) (M := metrics.t) batchSize (Some tally.onFlush) s s' → kafka.run s ≠ kafka.Returned.
Proof. intros [s1 now H|s1 now gu recs evs st a H _|s1 recs H]; by rewrite H. Qed.

Lemma k_step_inv batchSize w p p' :
  tally.shutdown w = shut → inv shut p → step batchSize w p p' → inv shut p'.
Proof.
  intros Hw I Hs. destruct Hs as [p es Hf Hh Hes|p es Hf Hg|p p' i Hf Hs|p o b Hf Ho Hm|p c b Hf Hc|p c s' Hf Hc Hr Hdb
    |p c gu recs evs st a Hf Hc Hrun Hdb Hgu|p Hf Hh|p Hm|p p' d Hs].
  - apply inv_calls; [done| |].
    + intros d Hb Hd _. rewrite busy_app, Hb. destruct d; [by rewrite Hd in Hh|done].
    + intros c e m es' o [Hc| ->%list_elem_of_singleton]%elem_of_app; [by eapply (iv_msg _ _ I)|done].
  - apply inv_calls; [done| |].
    + intros d Hb _ Hd. rewrite busy_app, Hb. destruct d; [done|by rewrite Hd in Hg].
    + intros c e m es' o [Hc| ->%list_elem_of_singleton]%elem_of_app; [by eapply (iv_msg _ _ I)|done].
  - by eapply k_call_step_inv.
  - apply (inv_po p o); [done|done|by apply out_moves; [apply (iv_out _ _ I)|]|done|exact (iv_shut _ _ I o Ho)
      |exact (iv_late _ _ I o Ho)|exact (proj2 (iv_pdone _ _ I o Ho))].
  - apply (inv_co p c); [done|done|exact (proj2 (iv_cdone _ _ I c Hc))|exact (iv_cwait _ _ I c Hc)].
  - apply (inv_co p c); [done|done| |exact (iv_cwait _ _ I c Hc)].
    intros Hn. destruct (proj2 (iv_cdone _ _ I c Hc) Hn) as [?|Hret]; [by left|].
    by apply loop_returned in Hr.
  - apply (inv_co p c); [done|done| |].
    + intros Hn. destruct (proj2 (iv_cdone _ _ I c Hc) Hn) as [?|Hret]; [by left|congruence].
    + intros _. simpl. pose proof (iv_db _ _ I Hf Hdb) as Hn.
      destruct (proj2 (iv_cdone _ _ I c Hc) Hn) as [?|Hret]; [done|congruence].
  - destruct I. split; unfold pending; simpl; try done.
    + intros Hne. by destruct (iv_grpc0 Hne).
    + intros o Ho. by destruct (iv_pdone0 o Ho).
    + intros c Hc. by destruct (iv_cdone0 c Hc).
  - pose proof Hshut as [Hhttp _]%andb_true_iff. apply bool_decide_eq_true in Hhttp. rewrite Hw.
    assert (∀ a, pending a p) as Hall by (intros a; unfold pending; by rewrite Hm).
    destruct I. split; unfold pending in *; simpl; try done.
    + intros rest [= <-]. apply tails_self.
    + intros Hne. by destruct (iv_grpc0 Hne).
    + intros o Ho. by destruct (iv_pdone0 o Ho).
    + intros c Hc. by destruct (iv_cdone0 c Hc).
    + intros _ Hdb _. destruct (iv_db0 ltac:(by rewrite Hm) Hdb). apply Hall.
  - by eapply k_main_step_inv.
Qed.

Lemma k_reachable_inv batchSize w p p' :
  tally.shutdown w = shut → inv shut p → rtc (step batchSize w) p p' → inv shut p'.
Proof. intros Hw I Hr. induction Hr; eauto using k_step_inv. Qed.

(** ** Progress *)

(** What an action works on exists. *)
Definition action_ok (a : tally.action) (p : proc) : Prop :=
  match a with
  | tally.StopGRPC | tally.CloseProducer => is_Some (po p)
  | tally.StopConsumer | tally.AwaitConsumer => is_Some (co p)
  | tally.StopHTTP | tally.CloseStore => True
  | tally.StopSampler | tally.CloseQueue | tally.WaitPool => False
  end.

Lemma call_step_parts p p' i :
  call_step i p = Some p' →
  (is_Some (po p) → is_Some (po p')) ∧ co p' = co p ∧ main p' = main p ∧
  http (fr p') = http (fr p) ∧ grpc (fr p') = grpc (fr p) ∧ (flushed <$> po p') = (flushed <$> po p).
Proof.
  unfold call_step. destruct (calls (fr p) !! i) as [c|]; [|done]. simpl.
  destruct (pc c) as [[|e es]|e m es|], (po p) as [o|] eqn:Ho; try done; try (intros [= <-]; simpl; by rewrite Ho).
  destruct (full o && negb (pclosed o)); [done|]. intros [= <-]. done.
Qed.

Lemma main_step_parts p p' d :
  main_step d p = Some p' → (is_Some (po p) → is_Some (po p')) ∧ (is_Some (co p) → is_Some (co p')).
Proof.
  unfold main_step. destruct (main p) as [|[|a rest]| |]; [done|by intros [= <-]| |done..].
  destruct (po p) as [o|] eqn:Ho, (co p) as [c|] eqn:Hc, a; simpl; intros H;
    repeat (case_match; try done); simplify_eq/=; rewrite ?Ho, ?Hc; split; eauto.
Qed.

Lemma step_action_ok batchSize w p p' a : step batchSize w p p' → action_ok a p → action_ok a p'.
Proof.
  intros Hs. assert ((is_Some (po p) → is_Some (po p')) ∧ (is_Some (co p) → is_Some (co p'))) as [H1 H2].
  { destruct Hs as [ | |p p' i _ Hs| | | | | | |p p' d Hs]; simpl; eauto.
    - apply call_step_parts in Hs as (? & -> & _). done.
    - by eapply main_step_parts. }
  destruct a; simpl; auto.
Qed.

(** A gRPC request that waits in [Produce] for room in the buffer. *)
Definition blocked (p : proc) : Prop :=
  ∃ rest i c e m es o,
    main p = Shutting (tally.StopGRPC :: rest) ∧ calls (fr p) !! i = Some c ∧ via c = DGrpc ∧
    pc c = AtProduce e m es ∧ po p = Some o ∧ pclosed o = false ∧
    kafka.maxBuf (prod o) ≤ Z.of_nat (length (kafka.buffered (kafka.cl (prod o)))).

Lemma k_shutdown_progress p rest :
  inv shut p → (∀ a, a ∈ shut → action_ok a p) → main p = Shutting rest →
  (∃ p', main_step true p = Some p') ∨ (∃ i p', call_step i p = Some p') ∨ blocked p.
Proof.
  intros I Hacts Hm. assert (∀ a l, rest = a :: l → action_ok a p) as Hok.
  { intros a l ->. apply Hacts. pose proof (iv_rest _ _ I _ Hm) as Hin. clear -Hin.
    induction shut as [|b l' IH]; cbn [tails] in Hin.
    - by apply list_elem_of_singleton in Hin.
    - apply elem_of_cons in Hin as [[= -> ->]|Hin]; [left|right; by apply IH]. }
  unfold main_step. rewrite Hm. destruct rest as [|a l]; [left; by eexists|].
  specialize (Hok a l eq_refl). destruct a; simpl in Hok; try done.
  - destruct (http (fr p)); [left; by eexists|..]; destruct (busy DHttp _); left; by eexists.
  - destruct (grpc (fr p)) eqn:Hg; [left; by eexists|..].
    all: destruct (busy DGrpc (calls (fr p))) eqn:Hb; [|left; by eexists].
    all: apply busy_true in Hb as (i & c & Hi & Hv & Hl); destruct Hok as [o Ho].
    all: right; destruct (pc c) as [es|e m es|] eqn:Hpc; [left|..|done].
    all: try (exists i; unfold call_step; rewrite Hi; simpl; rewrite Hpc, ?Ho; destruct es; by eexists).
    all: destruct (full o && negb (pclosed o)) eqn:Hf;
      [|left; exists i; unfold call_step; rewrite Hi; simpl; rewrite Hpc, Ho, Hf; by eexists].
    all: right; apply andb_true_iff in Hf as [Hf Hcl%negb_true_iff]; unfold full in Hf;
      rewrite kafka.buffered_count in Hf; bool_props; by exists l, i, c, e, m, es, o.
  - destruct Hok as [o ->]. left. destruct (flushed o); by eexists.
  - destruct Hok as [c ->]. left. by eexists.
  - destruct Hok as [c ->]. left. simpl. destruct (kafka.run (loop c)); by eexists.
  - left. by eexists.
Qed.

(** ** Termination *)

Definition pc_weight (x : call_pc) : nat :=
  match x with AtCheck es => 1 + 2 * length es | AtProduce _ _ es => 2 + 2 * length es | Answered _ => 0 end.
Definition call_weight (c : call) : nat := pc_weight (pc c).

Definition main_weight (p : proc) : nat :=
  match main p with
  | Shutting rest => 1 + 2 * length rest + (match po p with Some o => if flushed o then 0 else 1 | None => 0 end)
  | _ => 0
  end.

(** Bounds what is left to do once no door takes new requests. *)
Definition shutdown_work (p : proc) : nat := (main_weight p + sum_list_with call_weight (calls (fr p)))%nat.

Definition doors_shut (p : proc) : Prop := http (fr p) ≠ Serving ∧ grpc (fr p) ≠ Serving.

(** The operations of requests and of the main goroutine. *)
Inductive busy_step : proc → proc → Prop :=
  | bs_call p p' i : up (main p) → call_step i p = Some p' → busy_step p p'
  | bs_main p p' deadline : main_step deadline p = Some p' → busy_step p p'.

Lemma k_call_step_work p p' i : call_step i p = Some p' → (shutdown_work p' < shutdown_work p)%nat.
Proof.
  intros Hs. pose proof (call_step_parts p p' i Hs) as (_ & _ & Hm & _ & _ & Hfl).
  assert (main_weight p' = main_weight p) as Hw.
  { unfold main_weight. rewrite Hm. destruct (main p); try done.
    destruct (po p) as [o|], (po p') as [o'|]; try done. simpl in Hfl. injection Hfl as Hfl. by rewrite Hfl. }
  unfold shutdown_work. rewrite Hw. revert Hs. unfold call_step.
  destruct (calls (fr p) !! i) as [c|] eqn:Hi; [|done]. simpl.
  assert (∀ pc', (pc_weight pc' < pc_weight (pc c))%nat →
    sum_list_with call_weight (<[i := MkCall (via c) pc']> (calls (fr p))) < sum_list_with call_weight (calls (fr p)))%nat as Hgo.
  { intros pc' Hlt. pose proof (sum_list_with_insert call_weight (calls (fr p)) i c (MkCall (via c) pc') Hi) as Hsum.
    unfold call_weight in *. simpl in Hsum. lia. }
  destruct (pc c) as [[|e es]|e m es|] eqn:Hpc, (po p) as [o|]; try done;
    try (destruct (full o && negb (pclosed o)); [done|]); intros [= <-]; cbn [calls fr set_calls set_po];
    apply Nat.add_lt_mono_l, Hgo; repeat case_match; simplify_eq/=; lia.
Qed.

Lemma k_main_step_work p p' d :
  doors_shut p → main_step d p = Some p' → (shutdown_work p' < shutdown_work p)%nat ∧ doors_shut p'.
Proof.
  intros [Hh Hg]. unfold main_step. destruct (main p) as [|[|a rest]| |] eqn:Hm; [done| | |done..].
  { intros [= <-]. split; [|done]. unfold shutdown_work, main_weight. simpl. rewrite Hm. simpl. lia. }
  assert (∀ p1, calls (fr p1) = calls (fr p) → (po p1 = po p ∨ (flushed <$> po p1) = Some true) →
    (shutdown_work (set_main (Shutting rest) p1) < shutdown_work p)%nat) as Hadv.
  { intros p1 Hc Hpo. unfold shutdown_work, main_weight. simpl. rewrite Hm, Hc. simpl.
    destruct Hpo as [->|Hpo]; [lia|]. destruct (po p1) as [o1|]; [|done]. injection Hpo as ->. lia. }
  destruct a; try done.
  - destruct (http (fr p)) eqn:E; [done|..]; destruct (busy DHttp _); try (destruct d; [|done]); intros [= <-];
      (split; [apply Hadv; [done|by left]|done]).
  - destruct (grpc (fr p)) eqn:E; [done|..]; destruct (busy DGrpc _); try done; intros [= <-];
      (split; [apply Hadv; [done|by left]|by split]).
  - destruct (po p) as [o|] eqn:Ho; [|done]. destruct (flushed o) eqn:Hf; intros [= <-]; (split; [|done]).
    + apply Hadv; [done|by right].
    + unfold shutdown_work, main_weight. simpl. rewrite Hm, Ho, Hf. simpl. lia.
  - destruct (co p) as [c|]; [|done]. intros [= <-]. split; [apply Hadv; [done|by left]|done].
  - destruct (co p) as [c|]; [|done]. simpl. destruct (kafka.run (loop c)); try (destruct d; [|done]);
      intros [= <-]; (split; [apply Hadv; [done|by left]|done]).
  - intros [= <-]. split; [apply Hadv; [done|by left]|done].
Qed.

Lemma k_shutdown_bound n p p' : doors_shut p → nsteps busy_step n p p' → (n ≤ shutdown_work p)%nat.
Proof.
  intros Hd Hn. revert Hd. induction Hn as [|n p1 p2 p3 Hs _ IH]; intros Hd; [lia|].
  assert ((shutdown_work p2 < shutdown_work p1)%nat ∧ doors_shut p2) as [Hlt Hd2].
  { destruct Hs as [p1 p2 i _ Hs|p1 p2 d Hs]; [|by eapply k_main_step_work].
    split; [by eapply k_call_step_work|]. apply call_step_parts in Hs as (_ & _ & _ & Hh & Hg & _).
    unfold doors_shut. by rewrite Hh, Hg. }
  specialize (IH Hd2). lia.
Qed.

(** ** The program *)

(** What [loadConfig] and the wiring make of [QUEUE=kafka]. *)
Lemma kafka_wiring env dial cfg w :
  tally.loadConfig env = Ok cfg → tally.wire dial cfg = Ok w → tally.queueBackend cfg = "kafka"%string →
  let l := tally.shutdown w in
  sequence_ok l = true ∧
  (∀ a, a ∈ [tally.StopSampler; tally.CloseQueue; tally.WaitPool] → a ∉ l) ∧
  (tally.StopGRPC ∈ l ↔ tally.grpc_listener w = true) ∧
  match tally.enq w with
  | tally.EnqProducer n =>
      n = tally.queueSize cfg ∧ tally.grpc_listener w = true ∧ tally.CloseProducer ∈ l
  | tally.EnqReject => tally.grpc_listener w = false ∧ tally.CloseProducer ∉ l
  | tally.EnqMemory _ => False
  end ∧
  match tally.consumer w with
  | Some _ => tally.AwaitConsumer ∈ l
  | None => tally.StopConsumer ∉ l ∧ tally.AwaitConsumer ∉ l
  end.
Proof.
  intros Hok%tally.loadConfig_ok Hw Hk. destruct (tally.wire_inv _ _ _ Hok Hw) as [Hb Hg].
  apply tally.backend_cases in Hb as [(Hq & _)|(_ & _ & Hcases)]; [congruence| |done].
  unfold tally.acceptsEvents, tally.is_memory, tally.is_mode in Hg. rewrite Hk in Hg.
  destruct Hcases as [(Hm & He & Hc & Hf)|[(Hm & He & Hc & Hf)|(Hm & He & Hc & Hf)]];
    rewrite Hm in Hg; simpl in Hg; unfold tally.shutdown; rewrite He, Hg, Hf;
    destruct (tally.consumer w); try done; (split_and!; [done|..]); try done;
    try (apply (bool_decide_unpack _); done); by apply Forall_forall, (bool_decide_unpack _).
Qed.

(** A new client holds no records. *)
Definition fresh_client : Prop :=
  ∀ opts b, kafka.NewClient (B := P) opts = Some b →
    kafka.acked b = [] ∧ kafka.failed b = [] ∧ kafka.buffered b = [].

(** A process started from a configuration with the Kafka queue. *)
Record started (env : tally.environ) (dial : string → bool) (cfg : tally.config) (w : tally.wiring)
    (pr : option producer) (cl : option consumer_loop) : Prop := {
  sd_config : tally.loadConfig env = Ok cfg;
  sd_wire : tally.wire dial cfg = Ok w;
  sd_kafka : tally.queueBackend cfg = "kafka"%string;
  sd_size : 0 ≤ tally.queueSize cfg;
  sd_producer :
    match tally.enq w with
    | tally.EnqProducer n =>
        is_Some pr ∧ pr = kafka.NewKafkaProducer (tally.kafkaBrokers cfg) (tally.kafkaTopic cfg) n
    | _ => pr = None
    end;
  sd_consumer :
    match tally.consumer w with
    | Some _ =>
        ∃ k s m, kafka.NewKafkaConsumer (tally.kafkaBrokers cfg) (tally.kafkaTopic cfg) (tally.kafkaGroup cfg)
                   (tally.batchSize cfg) = Some k ∧
          cl = Some (kafka.MkSystem (kafka.ccl k) s m kafka.Polling false)
    | None => cl = None
    end;
}.

Lemma k_launch_inv env dial cfg w pr cl :
  fresh_client → started env dial cfg w pr cl →
  inv (tally.shutdown w) (launch w pr cl) ∧
  (∀ a, a ∈ tally.shutdown w → action_ok a (launch w pr cl)).
Proof.
  intros Hfresh [Hc Hw Hk Hn Hp Hcs]. destruct (kafka_wiring env dial cfg w Hc Hw Hk) as (_ & Hno & Hg & Hpr & Hco).
  assert (∀ x, pr = Some x → out_inv (MkOutlet x false false [] false) ∧ tally.CloseProducer ∈ tally.shutdown w) as Hout.
  { intros x ->. destruct (tally.enq w) as [| |n]; [done..|]. destruct Hpr as (-> & _ & ?). split; [|done].
    destruct Hp as [_ Hp]. unfold kafka.NewKafkaProducer in Hp.
    destruct (kafka.NewClient _) as [b|] eqn:Hb; [|done]. injection Hp as ->.
    destruct (Hfresh _ _ Hb) as (Ha & Hf & Hbu). split; simpl; [|rewrite Hbu; simpl; lia|done].
    exists []. split; [constructor|]. simpl. by rewrite Ha, Hf, Hbu. }
  assert (∀ s, cl = Some s → tally.AwaitConsumer ∈ tally.shutdown w) as Hcl.
  { intros s ->. by destruct (tally.consumer w). }
  split.
  - split; unfold pending; simpl; try done.
    + intros Hne. split; [|done]. apply Hg. by destruct (tally.grpc_listener w).
    + by intros c e m es o ?%not_elem_of_nil.
    + intros o Ho. destruct pr as [x|]; [|done]. injection Ho as <-. by apply Hout.
    + intros o Ho. destruct pr as [x|]; [|done]. injection Ho as <-. by intros [?|?].
    + intros o Ho. destruct pr as [x|]; [|done]. injection Ho as <-. done.
    + intros o Ho. destruct pr as [x|]; [|done]. injection Ho as <-. split; [by apply (Hout x)|tauto].
    + intros c Ho. destruct cl as [x|]; [|done]. injection Ho as <-. split; [by apply (Hcl x)|tauto].
    + intros c Ho. destruct cl as [x|]; [|done]. injection Ho as <-. done.
  - assert (is_Some pr → is_Some (po (launch w pr cl))) as H1 by (by intros [x ->]; eexists).
    assert (is_Some cl → is_Some (co (launch w pr cl))) as H2 by (by intros [x ->]; eexists).
    intros a Ha. assert (¬ bool_decide (a ∈ [tally.StopSampler; tally.CloseQueue; tally.WaitPool])) as Hmem
      by (intros Hin%bool_decide_unpack; by apply (Hno a)).
    destruct a; cbn [action_ok]; try done; try (by destruct Hmem).
    + apply H1. destruct (tally.enq w) as [| |n]; [|done|apply Hp]. apply Hg in Ha. destruct Hpr. congruence.
    + apply H1. destruct (tally.enq w) as [| |n]; [|done|apply Hp]. by destruct Hpr.
    + apply H2. destruct (tally.consumer w); [|by destruct Hco]. destruct Hcs as (k & s & m & _ & ->). by eexists.
    + apply H2. destruct (tally.consumer w); [|by destruct Hco]. destruct Hcs as (k & s & m & _ & ->). by eexists.
Qed.
End process.

Section tally.
Context {P C S : Type} {pk : kafka.Kgo P} {ck : kafka.Kgo C} {codec : kafka.Codec} {ins : worker.BatchInserter S}
  {obx : kafka.Outbox P} {laws : kafka.OutboxLaws P}.
Abbreviation kproc := (proc (P := P) (C := C) (S := S)).

Lemma started_reachable env dial cfg w pr cl batchSize (p : kproc) :
  fresh_client (P := P) → started env dial cfg w pr cl → rtc (step batchSize w) (launch w pr cl) p →
  sequence_ok (tally.shutdown w) = true ∧ inv (tally.shutdown w) p ∧
  (∀ a, a ∈ tally.shutdown w → action_ok a p).
Proof.
  intros Hf Hst Hr. destruct (k_launch_inv env dial cfg w pr cl Hf Hst) as [I Ha].
  destruct (kafka_wiring env dial cfg w (sd_config _ _ _ _ _ _ Hst) (sd_wire _ _ _ _ _ _ Hst) (sd_kafka _ _ _ _ _ _ Hst))
    as (Hsh & _).
  split; [done|]. split.
  - by apply (k_reachable_inv _ Hsh batchSize w (launch w pr cl) p).
  - intros a Hin. specialize (Ha a Hin). clear -Hr Ha. induction Hr as [|x y z Hs _ IH]; [done|].
    by apply IH, (step_action_ok batchSize w x y).
Qed.

(** C6: graceful shutdown of an instance with the Kafka queue, in any mode.
    Whatever the interleaving of requests, of the broker client, of the consumer
    and of the main goroutine: the accepted events are exactly those the broker
    acknowledged, those whose loss was logged and those still buffered, and no
    more than the configured number is buffered although the test and [Produce]
    are two operations.  An event is accepted after the client was closed only if
    [srv.Shutdown] gave up on its request; the consumer meets the closed store
    only if it did not stop in time.  When [main] returns nothing is buffered, no
    request is left unless [Shutdown] gave up, and the consumer has returned
    unless it was given up. *)
Theorem kafka_graceful_shutdown env dial cfg w pr cl batchSize (p : kproc) :
  fresh_client (P := P) → started env dial cfg w pr cl → rtc (step batchSize w) (launch w pr cl) p →
  (∀ o, po p = Some o →
     kafka.placed (prod o) (accepted o) ∧
     Z.of_nat (length (kafka.buffered (kafka.cl (prod o)))) ≤ kafka.maxBuf (prod o) ∧
     (late_accept o = true → timed_out (fr p) = true)) ∧
  (∀ c, co p = Some c → late_insert c = true → gave_up_wait c = true) ∧
  (main p = Finished →
     (∀ o, po p = Some o → kafka.buffered (kafka.cl (prod o)) = []) ∧
     (timed_out (fr p) = false → ∀ c, c ∈ calls (fr p) → live (pc c) = false) ∧
     (∀ c, co p = Some c → gave_up_wait c = false → kafka.run (loop c) = kafka.Returned)).
Proof.
  intros Hf Hst Hr. destruct (started_reachable _ _ _ _ _ _ _ _ Hf Hst Hr) as (_ & I & _).
  split_and!.
  - intros o Ho. destruct (iv_out _ _ I o Ho) as [Hp Hb _]. split_and!; [done|done|by apply (iv_late _ _ I o)].
  - intros c Hc. by apply (iv_cwait _ _ I c).
  - intros Hm. assert (∀ a, ¬ pending a p) as Hno by (intros a; unfold pending; rewrite Hm; tauto). split_and!.
    + intros o Ho. apply (iv_out _ _ I o Ho). apply (iv_pdone _ _ I o Ho), Hno.
    + intros Ht c Hc. destruct (via c) eqn:Hv.
      * eapply busy_false; [|exact Hc|exact Hv]. apply (iv_hcalls _ _ I); [|done].
        destruct (decide (http (fr p) = Stopped)) as [|Hne]; [done|]. by destruct (Hno _ (iv_http _ _ I Hne)).
      * eapply busy_false; [|exact Hc|exact Hv]. apply (iv_gcalls _ _ I).
        destruct (decide (grpc (fr p) = Stopped)) as [|Hne]; [done|]. destruct (iv_grpc _ _ I Hne) as [_ Hx].
        by destruct (Hno _ Hx).
    + intros c Hc Hg. destruct (proj2 (iv_cdone _ _ I c Hc) (Hno _)) as [?|?]; [congruence|done].
Qed.

(** C7: how far shutdown is bounded in Kafka mode.  After the signal the main
    goroutine or a request can always move, with one exception: [GracefulStop],
    which has no time limit, waits for a gRPC request that is blocked in
    [Produce] because the buffer is full (it passed the test of [Enqueue] before
    others filled it), and only the broker can make room.  Once both doors take
    no more requests no run makes more than [shutdown_work] further operations
    of requests and of [main]. *)
Theorem kafka_shutdown_progress env dial cfg w pr cl batchSize (p : kproc) :
  fresh_client (P := P) → started env dial cfg w pr cl → rtc (step batchSize w) (launch w pr cl) p →
  (∀ rest, main p = Shutting rest →
     (∃ p', main_step true p = Some p') ∨ (∃ i p', call_step i p = Some p') ∨ blocked p) ∧
  (doors_shut p → ∀ n p', nsteps busy_step n p p' → (n ≤ shutdown_work p)%nat).
Proof.
  intros Hf Hst Hr. destruct (started_reachable _ _ _ _ _ _ _ _ Hf Hst Hr) as (_ & I & Ha). split.
  - intros rest Hm. by apply (k_shutdown_progress (tally.shutdown w) p rest).
  - intros Hd n p'. by apply k_shutdown_bound.
Qed.
End tally.


(** ** Concrete runs *)

(** A consumer client that has one batch to deliver. *)
Record feed : Type := MkFeed { to_deliver : list kafka.record; committed : list kafka.record }.

#[global] Instance feed_kgo : kafka.Kgo feed := {
  kafka.NewClient _ := Some (MkFeed [kafka.MkRecord 0 0 "click" "1"] []);
  kafka.BufferedProduceRecords _ := 0;
  kafka.Produce _ b := b;
  kafka.Flush b := (None, b);
  kafka.CloseClient b := b;
  kafka.PollRecords _ b := (kafka.MkFetches false (to_deliver b), MkFeed [] (committed b));
  kafka.CommitRecords recs b := (None, MkFeed (to_deliver b) (committed b ++ recs));
}.

(** What happens next, for building runs by computation. *)
Inductive event : Type :=
  | Post (es : list Event)
  | Publish (es : list Event)
  | Call (i : nat)
  | Ack
  | Poll
  | Insert
  | Commit
  | Signal
  | Main (deadline : bool).

Section exec.
Context {C S : Type} {ck : kafka.Kgo C} {codec : kafka.Codec} {ins : worker.BatchInserter S}
  (batchSize : Z) (w : tally.wiring).
Abbreviation kproc := (proc (P := kafka.out3) (C := C) (S := S)).

Definition ack_all (b : kafka.out3) : kafka.out3 := (kafka.Flush b).2.

(** The consumer's next operation, if it is the named one. *)
Definition loop_step (e : event) (s : kafka.system (B := C) (S := S) (M := metrics.t))
    : option (kafka.system (B := C) (S := S) (M := metrics.t)) :=
  match e, kafka.run s with
  | Poll, kafka.Polling => Some (kafka.poll_step batchSize 0 s)
  | Insert, kafka.Inserting recs evs st a => Some (kafka.insert_step (Some tally.onFlush) 0 false recs evs st a s)
  | Commit, kafka.Committing recs => Some (kafka.commit_step recs s)
  | _, _ => None
  end.

Definition exec (p : kproc) (e : event) : option kproc :=
  match main p, e with
  | (Finished | Crashed), _ => None
  | _, Post es =>
      if decide (http (fr p) = Serving ∧ (length es ≤ 1)%nat)
      then Some (set_calls (calls (fr p) ++ [MkCall DHttp (AtCheck es)]) p) else None
  | _, Publish es =>
      if decide (grpc (fr p) = Serving) then Some (set_calls (calls (fr p) ++ [MkCall DGrpc (AtCheck es)]) p) else None
  | _, Call i => call_step i p
  | _, Ack => o ← po p; Some (set_po (set_client (ack_all (kafka.cl (prod o))) o) p)
  | Running, Signal => Some (set_main (Shutting (tally.shutdown w)) p)
  | _, Main d => main_step d p
  | _, Signal => None
  | _, e => c ← co p; s' ← loop_step e (loop c); if db_open p then Some (set_co (set_loop s' c) p) else None
  end.

Lemma loop_step_rstep e s s' :
  loop_step e s = Some s' → kafka.rstep batchSize (Some tally.onFlush) s s'.
Proof.
  unfold loop_step. destruct e, (kafka.run s) eqn:Hr; try done; intros [= <-]; by econstructor.
Qed.

Lemma kafka_exec_step p e p' : exec p e = Some p' → step batchSize w p p'.
Proof.
  unfold exec. intros H. assert (up (main p)) as Hf by (by destruct (main p)).
  assert (∀ s', (c ← co p; s'' ← loop_step e (loop c); if db_open p then Some (set_co (set_loop s'' c) p) else None) = Some s' →
    step batchSize w p s') as Hloop.
  { intros q. destruct (co p) as [c|] eqn:Hc; [|done]. simpl. destruct (loop_step e (loop c)) as [s'|] eqn:Hs; [|done]. simpl.
    destruct (db_open p) eqn:Hd; [|done]. intros [= <-]. eapply st_loop; [done|done|by eapply loop_step_rstep|by left]. }
  destruct (main p) as [|rest| |] eqn:Hm; [| |done..]; destruct e; try by apply Hloop.
  all: try (destruct (decide _) as [Hd|]; [|done]; injection H as <-; first
    [destruct Hd; by apply st_http; [congruence|..]|by apply st_grpc; [congruence|..]]).
  all: try (eapply st_call; [congruence|exact H]).
  all: try (by eapply st_main).
  all: try (injection H as <-; by apply st_signal).
  all: try done.
  all: destruct (po p) as [o|] eqn:Ho; [|done]; injection H as <-; apply st_client; [congruence|done|];
    by apply (kafka.flush_moves (kafka.cl (prod o)) None).
Qed.

Definition exec_all (p : kproc) (es : list event) : option kproc := foldl (λ o e, o ≫= λ p, exec p e) (Some p) es.

Lemma kafka_exec_reachable es p p' : exec_all p es = Some p' → rtc (step batchSize w) p p'.
Proof.
  unfold exec_all. revert p. induction es as [|e es IH]; intros p; simpl; [by intros [= <-]|].
  destruct (exec p e) as [p1|] eqn:He.
  - intros H. eapply rtc_l; [by eapply kafka_exec_step|by apply IH].
  - intros H. exfalso. clear -H. by induction es.
Qed.
End exec.

Section witnesses.
#[local] Existing Instance store_props.utc_server.
#[local] Existing Instance store_props.flat_json.
#[local] Existing Instance kafka.id_codec.
Import store_props.
Abbreviation kproc := (proc (P := kafka.out3) (C := feed) (S := store.Store)).

(** Both modes in one process, a buffer for one record. *)
Definition tiny_env : tally.environ := λ k,
  if decide (k = "QUEUE"%string) then "kafka"%string
  else if decide (k = "QUEUE_SIZE"%string) then "1"%string else ""%string.
Definition tiny_cfg : tally.config := match tally.loadConfig tiny_env with Ok c => c | Err _ => tally.kafka_cfg end.
Definition tiny_wiring : tally.wiring :=
  match tally.wire tally.up tiny_cfg with Ok x => x | Err _ => tally.kafka_wiring end.
Definition tiny_producer : option (kafka.KafkaProducer (B := kafka.out3)) :=
  kafka.NewKafkaProducer (tally.kafkaBrokers tiny_cfg) (tally.kafkaTopic tiny_cfg) 1.
Definition tiny_loop : kafka.system (B := feed) (S := store.Store) (M := metrics.t) :=
  kafka.MkSystem (MkFeed [kafka.MkRecord 0 0 "click" "1"] []) fresh metrics.zero kafka.Polling false.
Definition tiny_launch : kproc := launch tiny_wiring tiny_producer (Some tiny_loop).

Lemma out3_fresh : fresh_client (P := kafka.out3).
Proof. intros opts b. by intros [= <-]. Qed.

Lemma tiny_started : started tiny_env tally.up tiny_cfg tiny_wiring tiny_producer (Some tiny_loop).
Proof.
  split; try (vm_compute; reflexivity).
  - vm_compute. discriminate.
  - split; [by eexists|vm_compute; reflexivity].
  - exists (kafka.MkConsumer (MkFeed [kafka.MkRecord 0 0 "click" "1"] []) 1000), fresh, metrics.zero. split; vm_compute; reflexivity.
Qed.

(** One event is accepted and acknowledged, the consumer stores its batch, and
    the signal finds a request under way. *)
Definition orderly : list event :=
  [Post [kafka.ev1]; Call 0; Poll; Call 0; Insert; Publish [e2]; Signal; Main false; Call 0; Main false; Main false;
   Ack; Call 1; Call 1; Call 1; Main false; Main false; Main false; Main false; Commit; Poll; Main false; Main false;
   Main false].

Definition run_of (es : list event) : kproc := default tiny_launch (exec_all 1000 tiny_wiring tiny_launch es).

Lemma k_orderly_runs : exec_all 1000 tiny_wiring tiny_launch orderly = Some (run_of orderly).
Proof. unfold run_of. vm_compute. reflexivity. Qed.

Lemma k_orderly_finished :
  main (run_of orderly) = Finished ∧ timed_out (fr (run_of orderly)) = false ∧
  (accepted <$> po (run_of orderly)) = Some [kafka.ev1; e2] ∧ (gave_up_wait <$> co (run_of orderly)) = Some false.
Proof. split_and!; vm_compute; reflexivity. Qed.

Lemma kafka_graceful_shutdown_witness :
  (∀ o, po (run_of orderly) = Some o → kafka.buffered (kafka.cl (prod o)) = []) ∧
  (∀ c, c ∈ calls (fr (run_of orderly)) → live (pc c) = false) ∧
  (∀ c, co (run_of orderly) = Some c → gave_up_wait c = false → kafka.run (loop c) = kafka.Returned).
Proof.
  destruct (kafka_graceful_shutdown tiny_env tally.up tiny_cfg tiny_wiring tiny_producer (Some tiny_loop) 1000
    (run_of orderly) out3_fresh tiny_started (kafka_exec_reachable 1000 tiny_wiring orderly _ _ k_orderly_runs))
    as (_ & _ & Hfin).
  destruct (Hfin (proj1 k_orderly_finished)) as (H1 & H2 & H3).
  split; [exact H1|]. split; [exact (H2 (proj1 (proj2 k_orderly_finished)))|exact H3].
Defined.

(** Two requests pass the test while there is room for one record. *)
Definition crowded : list event :=
  [Publish [kafka.ev1]; Publish [e2]; Call 0; Call 1; Call 0; Call 0; Signal; Main false; Main false; Main false].

Lemma crowded_runs : exec_all 1000 tiny_wiring tiny_launch crowded = Some (run_of crowded).
Proof. unfold run_of. vm_compute. reflexivity. Qed.

Lemma kafka_shutdown_progress_witness :
  (∀ rest, main (run_of crowded) = Shutting rest →
     (∃ p', main_step true (run_of crowded) = Some p') ∨ (∃ i p', call_step i (run_of crowded) = Some p') ∨
     blocked (run_of crowded)) ∧
  (doors_shut (run_of crowded) → ∀ n p', nsteps busy_step n (run_of crowded) p' → (n ≤ shutdown_work (run_of crowded))%nat).
Proof.
  exact (kafka_shutdown_progress tiny_env tally.up tiny_cfg tiny_wiring tiny_producer (Some tiny_loop) 1000
    (run_of crowded) out3_fresh tiny_started (kafka_exec_reachable 1000 tiny_wiring crowded _ _ crowded_runs)).
Defined.

(** The exception is real: [main] cannot move even past its deadlines, and no
    request can, until the broker takes the record that fills the buffer. *)
Lemma shutdown_can_hang :
  main_step true (run_of crowded) = None ∧ (∀ i, call_step i (run_of crowded) = None) ∧
  is_Some (exec_all 1000 tiny_wiring (run_of crowded) [Ack; Call 1; Call 1; Main false]).
Proof.
  split_and!; [vm_compute; reflexivity| |vm_compute; by eexists].
  intros [|[|i]]; [vm_compute; reflexivity..|]. unfold call_step.
  assert (length (calls (fr (run_of crowded))) = 2%nat) as Hl by (vm_compute; reflexivity).
  by rewrite lookup_ge_None_2 by (rewrite Hl; lia).
Qed.
End witnesses.

End kprocess.
