(* ===== verification/Wire.v ===== *)
(** * The wire: clients, doors and Kafka records with their JSON

    [JsonEvent] composed with the components that exchange the text: the doors
    put events on Kafka that the consumers read back, what the producer accepted
    reaches the tables without an assumption on the codec, and the body that the
    load generator posts is the request that the handler sees. *)

From S2P Require Import Prelude Clock Strconv Utf8 Decimal Store StoreSpec StoreProps Json Queue Metrics Worker.
From S2P Require Import Kafka KafkaGroup Ratelimit Ingest Grpc Main Loadgen Pipeline JsonEvent.
From stdpp Require Import prelude list strings gmap relations.
From Stdlib Require Import ZArith Lia.
Open Scope Z_scope.

Module wire.
Import utf8 (text, bytes).
Import store (Event, Store, db, any, AString, AObject).
Import json json_event store_spec pipeline.

(** ** Doors to Kafka *)

Section records.
Context {B : Type} {kgo : kafka.Kgo B}.

(** C13: an event from a door survives the wire.  Whatever JSON body the HTTP door
    decodes, and whatever event the gRPC door receives, [json.Marshal] succeeds
    on the event, so that the producer's [Enqueue] answers [ErrFull] or accepts,
    never the error behind a 500; and the record it produces is keyed by the name
    and unmarshals to the same event: ids, nested properties, numbers to the last
    bit and the time stamp to the nanosecond. *)
Theorem door_events_survive_the_wire e :
  from_door e →
  ∃ v, kafka.json_Marshal_event e = Some v ∧ kafka.json_Unmarshal_event v = Some e ∧
    ∀ p : kafka.KafkaProducer (B := B), kafka.Enqueue e p =
      Some (if kafka.maxBuf p <=? kafka.BufferedProduceRecords (kafka.cl p) then (p, Some queue.ErrFull)
            else (kafka.MkProducer (kafka.Produce (kafka.ptopic p, store.Name e, v) (kafka.cl p))
                    (kafka.ptopic p) (kafka.maxBuf p), None)).
Proof.
  intros (v & Hm & Hu)%from_door_ok%event_round_trip. exists v. split_and!; [exact Hm|exact Hu|].
  intros p. unfold kafka.Enqueue. case_match; [done|].
  change (kafka.json_Marshal_event e) with (Marshal e). by rewrite Hm.
Qed.
End records.

(** ** Doors to the tables *)

Section tables.
Context {pg : store.Postgres} {js : store.Json} {B M : Type} {grp : group.Group B} {glaws : group.GroupLaws B}
  (batchSize : Z) (hook : option (worker.FlushInfo → M → M)).

(** C3: from the doors through Kafka to the tables.  Events come in through the
    doors; the producer that accepted some of them is closed without a logged
    loss; the broker keeps what it acknowledged; the consumer group has caught
    up, through any rebalances, crashes and redeliveries.  Then every accepted
    event has its row, under its id, and is among the events that the tables
    represent. *)
Theorem accepted_reaches_tables {P : Type} {kgo : kafka.Kgo P} {obx : kafka.Outbox P}
    {olaws : kafka.OutboxLaws P} (p p' : kafka.KafkaProducer (B := P)) acc (g g' : group.system (B := B) (M := M)) :
  kafka.acked (kafka.cl p) = [] → kafka.failed (kafka.cl p) = [] →
  kafka.buffered (kafka.cl p) = [] → 0 ≤ kafka.maxBuf p →
  rtc kafka.plife (p, []) (p', acc) → Forall from_door acc →
  kafka.failed (kafka.cl (kafka.Close p').2) = [] →
  (∀ m, m ∈ kafka.acked (kafka.cl (kafka.Close p').2) →
     ∃ r, r ∈ group.topic (group.broker g') ∧ kafka.Value r = m.2) →
  deployed g → rtc (group.gstep batchSize hook) g g' → topic_in_range g' →
  group.uncommitted (group.broker g') = [] →
  ∃ L, represents L (db (group.sink g')) ∧
    ∀ e, e ∈ acc → e ∈ L ∧ is_Some (store.events (db (group.sink g')) !! store.EventID e).
Proof.
  intros Ha Hf Hb Hmax Hp Hdoor Hlost Hdur Hd Hr Hg Hu.
  apply (accepted_in_tables batchSize hook p p' acc g g'); try done. intros e v He Hv.
  rewrite Forall_forall in Hdoor. apply Hdoor, from_door_ok, event_round_trip in He as (v' & Hm & Hun).
  change (Marshal e = Some v) in Hv. change (Unmarshal v = Some e). congruence.
Qed.
End tables.

(** ** The load generator at the HTTP door *)

(** [json.Marshal(map[string]any{..})], the keys in order. *)
Definition payload_entries (b : loadgen.body) : list (string * any) :=
  [("distinct_id", AString (loadgen.distinct_id b));
   ("event_id", AString (loadgen.event_id b));
   ("name", AString (loadgen.name b));
   ("properties", AObject [("source", AString "loadgen")])]%string.

Definition payload (b : loadgen.body) : option string := text <$> encode (AObject (payload_entries b)).

Definition request_of (b : loadgen.body) : ingest.eventRequest :=
  ingest.MkEventRequest (loadgen.event_id b) (loadgen.name b) (loadgen.distinct_id b)
    (Some {["source"%string := AString "loadgen"]}).

Lemma valid_ascii_string s : forallb (λ c, utf8.code c <? 128) (String.list_ascii_of_string s) = true → utf8.valid_string s.
Proof.
  intros H. apply utf8.valid_ascii, Forall_fmap, Forall_forall. intros c Hc.
  rewrite forallb_forall in H. apply list_elem_of_In in Hc. specialize (H c Hc).
  simpl. unfold utf8.code in *. lia.
Qed.

Lemma itoa_ascii z : 0 ≤ z ≤ int64_max → utf8.valid_string (strconv.Itoa z) ∧ strconv.Itoa z ≠ ""%string.
Proof.
  intros Hz. unfold int64_max in Hz. destruct (strconv.decimal_spec z) as (c & l & Heq & Hc & Hl & _); [lia|].
  unfold strconv.Itoa. destruct (Z.ltb_spec z 0); [lia|]. rewrite Heq. split; [|done].
  apply valid_ascii_string. rewrite String.list_ascii_of_string_of_list_ascii. apply forallb_forall.
  intros x Hx%list_elem_of_In. assert (is_Some (clock.undigit x)) as [d Hd].
  { apply elem_of_cons in Hx as [->|Hx]; [done|]. rewrite Forall_forall in Hl. by apply Hl. }
  unfold clock.undigit in Hd. fold (utf8.code x) in Hd. case_match eqn:E; [|done]. lia.
Qed.

Lemma bytes_app s s' : bytes (s +:+ s') = bytes s ++ bytes s'.
Proof.
  unfold bytes. rewrite <- fmap_app. f_equal. induction s as [|c s IH]; [done|]. simpl. by rewrite IH.
Qed.

Lemma valid_string_app s s' : utf8.valid_string s → utf8.valid_string s' → utf8.valid_string (s +:+ s').
Proof. intros H H'. unfold utf8.valid_string. rewrite bytes_app. by apply utf8.valid_app. Qed.

(** What the generator puts into a body is valid text, and not empty. *)
Lemma make_body_valid f now rnd ix who b :
  loadgen.make_body f now rnd ix who = Some b → utf8.valid_string (loadgen.eventName f) →
  utf8.valid_string (loadgen.event_id b) ∧ utf8.valid_string (loadgen.name b) ∧
  utf8.valid_string (loadgen.distinct_id b) ∧ loadgen.event_id b ≠ ""%string ∧ loadgen.name b ≠ ""%string.
Proof.
  unfold loadgen.make_body. case_match eqn:E; [|done]. rewrite !andb_true_iff in E.
  destruct (loadgen.names f !! Z.to_nat ix) as [n|] eqn:Hn; [|done]. intros [= <-] Hf. cbn.
  destruct (itoa_ascii now) as [Hv Hne]; [lia|]. destruct (itoa_ascii rnd) as [Hv' _]; [lia|].
  destruct (itoa_ascii who) as [Hw _]; [unfold int64_max; lia|].
  apply list_elem_of_lookup_2 in Hn. split_and!.
  - unfold loadgen.make_id. repeat apply valid_string_app; try done. by apply valid_ascii_string.
  - unfold loadgen.names in Hn. case_decide; [|by apply list_elem_of_singleton in Hn as ->].
    revert n Hn. apply Forall_forall. repeat (apply Forall_cons; split); try (by apply valid_ascii_string). by apply Forall_nil.
  - apply valid_string_app; [by apply valid_ascii_string|done].
  - unfold loadgen.make_id. by destruct (strconv.Itoa now).
  - unfold loadgen.names in Hn. case_decide; [|by apply list_elem_of_singleton in Hn as ->].
    revert n Hn. apply Forall_forall. by repeat (apply Forall_cons; split).
Qed.

Lemma substring_all n s : (String.length s ≤ n)%nat → String.substring 0 n s = s.
Proof. revert n. induction s as [|c s IH]; intros [|n] Hn; simpl in *; try done; [lia|]. by rewrite IH by lia. Qed.

Lemma payload_entries_ok b :
  utf8.valid_string (loadgen.event_id b) → utf8.valid_string (loadgen.name b) →
  utf8.valid_string (loadgen.distinct_id b) → any_ok (AObject (payload_entries b)).
Proof.
  intros Hid Hn Hd. split.
  - repeat (constructor; [|repeat (apply Forall_cons; split); try apply Forall_nil; split; vm_compute; done]). constructor.
  - apply (fold_and_Forall (λ kv, utf8.valid_string kv.1 ∧ any_ok kv.2)). unfold payload_entries.
    rewrite !Forall_cons, Forall_nil. split_and!; try done; try (by apply valid_ascii_string).
    split; [repeat constructor|]. split; [|done]. split; by apply valid_ascii_string.
Qed.

(** The members of the payload, decoded into an [eventRequest]. *)
Lemma decode_payload_members b vs :
  Forall2 is_member (spec_of <$> payload_entries b) vs → fold_members request_field zero_request vs = Some (request_of b).
Proof.
  unfold payload_entries. cbn [fmap list_fmap]. intros H. repeat match goal with
  | H : Forall2 _ (_ :: _) _ |- _ => apply Forall2_cons_inv_l in H as ([? ?] & ? & [? ?] & ? & ->)
  | H : Forall2 _ [] _ |- _ => apply Forall2_nil_inv_l in H as ->
  end. unfold spec_of in *. cbn [fst snd] in *. cbn [fold_members]. unfold request_field. cbn [fst snd].
  repeat match goal with
  | H : unquote_string ?k = Some _ |- context [unquote_string ?k] => rewrite H; cbn [mbind option_bind]
  | |- context [is_field ?a ?b] => let r := eval vm_compute in (is_field a b) in change (is_field a b) with r; cbn iota
  | H : to_any ?v = _ |- context [set_string ?v _] => rewrite (set_string_string _ _ _ H); cbn [mbind option_bind]
  | H : to_any ?v = _ |- context [set_map ?v _] => rewrite (set_map_object _ _ H); cbn [mbind option_bind]
  | _ => progress cbn [ingest.EventID ingest.Name ingest.DistinctID ingest.Properties zero_request]
  end. done.
Qed.

(** The body that is posted is decoded to the request it was made from. *)
Lemma payload_decodes b :
  utf8.valid_string (loadgen.event_id b) → utf8.valid_string (loadgen.name b) →
  utf8.valid_string (loadgen.distinct_id b) →
  ∃ s, payload b = Some s ∧
    ((String.length s ≤ ingest.max_body)%nat → ingest.read_body s = Some (request_of b)).
Proof.
  intros Hid Hn Hd. pose proof (payload_entries_ok b Hid Hn Hd) as Hok. set (d := S (N.to_nat 9998)).
  destruct (members_encode d (payload_entries b)) as (xs & Hxs & Hl).
  { destruct Hok as [_ Hok%(fold_and_Forall (λ kv, utf8.valid_string kv.1 ∧ any_ok kv.2))].
    apply Forall_forall. intros kv Hkv. rewrite Forall_forall in Hok. destruct (Hok kv Hkv) as [Hk Hv]. split; [done|].
    apply encode_reads; [done|]. clear -Hkv. revert kv Hkv. apply Forall_forall. unfold payload_entries, d.
    rewrite !Forall_cons, Forall_nil. simpl. lia. }
  assert (encode (AObject (payload_entries b)) = Some (123 :: join xs ++ [125])) as Henc by (cbn [encode]; by rewrite Hxs).
  pose proof (encode_bytes _ _ Hok Henc) as Hb. unfold payload. rewrite Henc. eexists. split; [reflexivity|].
  intros Hlen. unfold ingest.read_body. rewrite substring_all by done. rewrite (proj2 (Nat.ltb_ge _ _)) by done.
  destruct (object_parses d _ xs [] (2 * length (123%Z :: join xs ++ [125%Z]) + 1) Hl) as (vs & Hv & Hm); [done|].
  unfold ingest.Decode, go_decoder, decode_request, first_value. rewrite utf8.bytes_text by done.
  rewrite max_depth_eq. fold d. rewrite Hv. cbn [mbind option_bind decode_struct]. by apply decode_payload_members.
Qed.

(** C33: the load generator speaks the language of the door.  The body that a
    sender marshals is decoded by [postEvent] to the id, name, distinct id and
    properties it was made from, and passes validation: over a well-formed memory
    queue the answer is 202 with exactly that event at the end of the queue, or
    429 or 503 with the queue as it was; never 400. *)
Theorem loadgen_body_accepted f now rnd ix who b :
  loadgen.make_body f now rnd ix who = Some b → utf8.valid_string (loadgen.eventName f) →
  ∃ s, payload b = Some s ∧
    ((String.length s ≤ ingest.max_body)%nat →
     ∀ (L : Type) (lim : ratelimit.Limiter L) start t fin caller
       (h : ingest.Handler (Q := queue.Memory) (L := L)) m,
       queue.wf (ingest.queue_of h) →
       ∃ res h' m', ingest.postEvent start t fin (ingest.MkHttp caller s) h m = Some (res, h', m') ∧
         ((ingest.code res = 202 ∧
           queue.buf (queue.ch (ingest.queue_of h')) =
             queue.buf (queue.ch (ingest.queue_of h)) ++ [event_of (request_of b) t]) ∨
          ((ingest.code res = 429 ∨ ingest.code res = 503) ∧ ingest.queue_of h' = ingest.queue_of h))).
Proof.
  intros Hb Hf. destruct (make_body_valid f now rnd ix who b Hb Hf) as (Hid & Hn & Hd & Hne & Hnn).
  destruct (payload_decodes b Hid Hn Hd) as (s & Hs & Hdec). exists s. split; [done|].
  intros Hlen%Hdec L lim start t fin caller h m [Hcl _]. unfold ingest.postEvent. cbn [ingest.req_body ingest.caller].
  destruct (ingest.allow start _ h) as [ok h1] eqn:Ha. apply ingest.allow_queue in Ha. rewrite <- Ha in *. rewrite Hlen.
  destruct ok; simpl; [|eexists _, _, _; split; [done|]; right; split; [by left|done]].
  rewrite !decide_False by done. unfold queue.enqueue, queue.memory_enqueuer, queue.Enqueue, queue.try_send.
  destruct (queue.closed (ingest.queue_of h1)) eqn:Hc;
    [eexists _, _, _; split; [done|]; right; split; [by right|done]|].
  rewrite <- Hcl. cbn iota. destruct (_ <? _)%nat; eexists _, _, _; (split; [reflexivity|]); [by left|].
  right. split; [by right|done].
Qed.

(** ** Concrete instances *)

Section witnesses.
#[local] Existing Instance store_props.utc_server.
#[local] Existing Instance store_props.flat_json.

(** Text in which single quotes stand for double ones. *)
Definition quoted (s : string) : string := text ((λ c, if c =? 39 then 34 else c) <$> bytes s).

Definition wire_body : string :=
  quoted "{'event_id':'e-1', 'NAME':'buy', 'distinct_id':'u', 'properties':{'price':0.10,'tags':['a\u00e9',null]}, 'other':1e999} ".
Definition wire_request : ingest.eventRequest := default zero_request (decode_request wire_body false).
Definition wire_event : Event := event_of wire_request store_props.t0.
Definition wire_text : string := default ""%string (Marshal wire_event).

Lemma read_body_small s : (String.length s ≤ 1000)%nat → ingest.read_body s = decode_request s false.
Proof.
  intros Hs. assert (1000 < ingest.max_body)%nat by (unfold ingest.max_body; lia).
  unfold ingest.read_body. rewrite substring_all by lia. by rewrite (proj2 (Nat.ltb_ge _ _)) by lia.
Qed.

Lemma wire_body_read : ingest.read_body wire_body = Some wire_request.
Proof. rewrite read_body_small; [vm_compute; reflexivity|]. apply Nat.leb_le. vm_compute. reflexivity. Qed.

Lemma wire_event_door : from_door wire_event.
Proof. apply (from_http wire_body); [exact wire_body_read|vm_compute; reflexivity]. Qed.

Lemma wire_text_written :
  Marshal wire_event = Some wire_text ∧
  wire_text = quoted "{'event_id':'e-1','name':'buy','distinct_id':'u','properties':{'price':0.1,'tags':['aé',null]},'ts':'2026-07-11T10:00:00Z'}".
Proof. vm_compute. done. Qed.

Lemma door_events_survive_the_wire_witness :
  kafka.json_Marshal_event wire_event = Some wire_text ∧ kafka.json_Unmarshal_event wire_text = Some wire_event.
Proof.
  destruct (door_events_survive_the_wire (B := kafka.out3) wire_event wire_event_door) as (v & Hm & Hu & _).
  assert (v = wire_text) as -> by exact (eq_sym (f_equal (default ""%string) Hm)).
  exact (conj Hm Hu).
Defined.

(** The record of that event in a topic, taken over by a second consumer while
    the first insert is in doubt. *)
Definition kv_wire : string * string := ("buy"%string, wire_text).

Lemma decode_one {codec : kafka.Codec} kv e :
  kafka.json_Unmarshal_event kv.2 = Some e → kafka.decode [group.rec_of kv] = [e].
Proof. intros H. unfold kafka.decode. simpl. by rewrite H. Qed.

Lemma kv_wire_event : kafka.decode [group.rec_of kv_wire] = [wire_event].
Proof.
  apply decode_one. change (Unmarshal wire_text = Some wire_event).
  destruct (event_round_trip wire_event (from_door_ok _ wire_event_door)) as (v & Hm & Hu).
  pose proof (proj1 wire_text_written) as Hw. rewrite Hm in Hw. apply (inj Some) in Hw. rewrite <- Hw. exact Hu.
Qed.

Definition y1 : Store := (store.InsertBatch [wire_event] lossy).2.
Definition y2 : Store := (store.InsertBatch [wire_event] y1).2.
Definition y3 : Store := (store.InsertBatch [wire_event] y2).2.

Lemma y1_result : store.InsertBatch [wire_event] lossy = (Err store.ErrConn, y1).
Proof. unfold y1. apply pair_fst. vm_compute. reflexivity. Qed.
Lemma y2_result : store.InsertBatch [wire_event] y1 = (Ok 0, y2).
Proof. unfold y2. apply pair_fst. vm_compute. reflexivity. Qed.
Lemma y3_result : store.InsertBatch [wire_event] y2 = (Ok 0, y3).
Proof. unfold y3. apply pair_fst. vm_compute. reflexivity. Qed.

Definition wire_group : group.system (B := group.mini) (S := Store) (M := metrics.t) :=
  group.MkGroup (group.one kv_wire 1 (Some 1%nat) 1) y3
    [group.polling (group.told (Some tally.onFlush) kv_wire 0 metrics.zero);
     group.polling (group.told (Some tally.onFlush) kv_wire 0 metrics.zero)].

Lemma wire_group_reachable : rtc (group.gstep 10 (Some tally.onFlush)) k0 wire_group.
Proof.
  apply (group.takeover_run (Some tally.onFlush) kv_wire lossy y1 y2 y3 store.ErrConn 0 0 metrics.zero);
    rewrite kv_wire_event; [exact y1_result|exact y2_result|exact y3_result].
Qed.

Lemma wire_group_in_range : topic_in_range wire_group.
Proof.
  intros r e Hr Hc. assert (e ∈ kafka.decode [group.rec_of kv_wire]) as He.
  { apply list_elem_of_singleton in Hr as ->. apply group.elem_of_decode. eexists. split; [by left|exact Hc]. }
  rewrite kv_wire_event in He. apply list_elem_of_singleton in He as ->. vm_compute. reflexivity.
Qed.

Definition p_wire : kafka.KafkaProducer (B := kafka.out3) :=
  kafka.MkProducer (kafka.MkOut [("tally.events", "buy", wire_text)] [] [])%string "tally.events"%string 1.

Lemma wire_accepted : kafka.Enqueue wire_event kafka.p_new = Some (p_wire, None).
Proof. vm_compute. reflexivity. Qed.

Lemma p_wire_reachable : rtc kafka.plife (kafka.p_new, []) (p_wire, [wire_event]).
Proof. exact (rtc_once _ _ (kafka.pl_accept wire_event kafka.p_new p_wire [] wire_accepted)). Qed.

Lemma accepted_reaches_tables_witness :
  ∃ L, represents L (db y3) ∧
    ∀ e, e ∈ [wire_event] → e ∈ L ∧ is_Some (store.events (db y3) !! store.EventID e).
Proof.
  refine (accepted_reaches_tables (obx := kafka.out3_outbox) 10 (Some tally.onFlush) kafka.p_new p_wire [wire_event]
    k0 wire_group eq_refl eq_refl eq_refl ltac:(discriminate) p_wire_reachable _ eq_refl _
    k0_deployed wire_group_reachable wire_group_in_range eq_refl).
  - exact (Forall_cons_2 _ _ _ wire_event_door (Forall_nil_2 _)).
  - intros m ->%list_elem_of_singleton. exists (group.rec_of kv_wire). split; [left|reflexivity].
Defined.

(** A body of the load generator at an empty queue of one. *)
Definition a_body : loadgen.body := loadgen.MkBody "17-4" "chaos_test" "user_3".
Definition a_payload : string := default ""%string (payload a_body).

Lemma a_body_made : loadgen.make_body loadgen.one_job 17 4 0 3 = Some a_body.
Proof. vm_compute. reflexivity. Qed.

Lemma a_payload_length : (String.length a_payload ≤ ingest.max_body)%nat.
Proof.
  assert (1000 < ingest.max_body)%nat by (unfold ingest.max_body; lia).
  assert (String.length a_payload ≤ 1000)%nat by (apply Nat.leb_le; vm_compute; reflexivity). lia.
Qed.

Lemma loadgen_body_accepted_witness :
  ∃ res h' m', ingest.postEvent (lim := ingest.no_limit) 1 2 3
      (ingest.MkHttp (ratelimit.MkRequest "k" "1.2.3.4:5") a_payload)
      (ingest.MkHandler queue.q1 None) metrics.zero = Some (res, h', m') ∧
    ((ingest.code res = 202 ∧ queue.buf (queue.ch (ingest.queue_of h')) = [] ++ [event_of (request_of a_body) 2]) ∨
     ((ingest.code res = 429 ∨ ingest.code res = 503) ∧ ingest.queue_of h' = queue.q1)).
Proof.
  destruct (loadgen_body_accepted loadgen.one_job 17 4 0 3 a_body a_body_made (valid_ascii_string "chaos_test" eq_refl))
    as (s & Hs & Hpost).
  assert (s = a_payload) as -> by exact (eq_sym (f_equal (default ""%string) Hs)).
  exact (Hpost a_payload_length unit ingest.no_limit 1 2 3 (ratelimit.MkRequest "k" "1.2.3.4:5")
    (ingest.MkHandler queue.q1 None) metrics.zero queue.q1_wf).
Defined.
End witnesses.

End wire.
