(* ===== verification/Chaos.v ===== *)
(** * The chaos test

    [scripts/chaos.sh] fires events with [loadgen], kills and replaces a worker,
    and compares the number [loadgen] wrote with the answer to
    [GET /v1/counts].  Here the generator of [Loadgen] meets the tables of
    [StoreSpec]: when the two numbers must agree, and by how much they can
    differ; and the script itself, which reads one of them from the text of the
    answer. *)

From S2P Require Import Prelude Hll Clock Strconv Utf8 Decimal Store StoreSpec StoreQuery StoreProps Json.
From S2P Require Import Ingest Response Loadgen.
From stdpp Require Import prelude gmap strings list relations.
From Stdlib Require Import ZArith Lia.
Open Scope Z_scope.

Module chaos.
Import store (Event, Store, db).
Import store_spec store_query loadgen.

Section chaos.
Context {pg : store.Postgres} {js : store.Json}.

(** C34: the two numbers of the chaos test.  Take a run of the generator with one
    event name (as the script runs it) in which the random ids are all different,
    and in which every delivery has that name and is of today (no midnight passes).
    Once the generator has reported and the tables represent a log of the events
    that reached the service, in any number of deliveries, [CountToday] over a quiet
    connection answers a number between [sent] and [sent + failed]: exactly [sent]
    when no request failed.  [sent] itself is less than the number of events known to be accepted by the number
    of second copies whose send failed. *)
Theorem chaos_check f w0 w L (s : Store) now :
  start f = Some w0 → rtc (step f) w0 w → main w = Reporting → NoDup (draws (gh w)) →
  represents L (db s) → (∀ id, id ∈ reached (gh w) ↔ ∃ e, e ∈ L ∧ store.EventID e = id) →
  (∀ e, e ∈ L → event_today now (eventName f) e = true) → store.pg_text (eventName f) = true →
  store.net s = [] → Z.of_nat (length (reached (gh w))) ≤ int64_max →
  ∃ n, store.CountToday now (eventName f) s = (Ok n, s) ∧
    sent w ≤ n ≤ sent w + failed w ∧ (failed w = 0 → n = sent w) ∧
    sent w = Z.of_nat (length (confirmed (gh w))) - failed_copies (gh w).
Proof.
  intros H0 Hr HR Hnd Hrep Hids Htoday Htext Hnet Hmax.
  destruct (sent_matches_reached f w0 w H0 Hr HR Hnd) as (Hlo & Hhi & Hsent & _).
  pose proof (represents_ids L (db s) (reached (gh w)) Hrep Hids) as Hsize.
  assert (size (list_to_set (reached (gh w)) : gset string) ≤ length (reached (gh w)))%nat.
  { by apply (distinct_between [] (reached (gh w))); [constructor|intros x ?%not_elem_of_nil|]. }
  exists (Z.of_nat (size (store.events (db s)))). split; [|rewrite Hsize; split_and!; lia].
  apply (CountToday_all L); [done..|]. rewrite Hsize. lia.
Qed.
End chaos.

(** ** The script *)

(** [s/.*P//] cuts after the last occurrence of [P]; [s/}.*//] cuts at the first
    brace. *)
Fixpoint after_last (P l : list Z) : option (list Z) :=
  match l with
  | [] => None
  | _ :: l' => match after_last P l' with Some r => Some r | None => json.strip_prefix P l end
  end.

Fixpoint until (c : Z) (l : list Z) : list Z :=
  match l with [] => [] | b :: l => if b =? c then [] else b :: until c l end.

Definition marker : list Z := 34 :: utf8.bytes "count_today" ++ [34; 58].
Definition sed_line (l : list Z) : list Z := until 125 (default l (after_last marker l)).

(** The lines of the body, without the empty one after the last newline. *)
Fixpoint lines (l : list Z) : list (list Z) :=
  match l with
  | [] => []
  | c :: l =>
      if c =? 10 then [] :: lines l
      else match lines l with [] => [[c]] | x :: xs => (c :: x) :: xs end
  end.

(** [$( )] drops the newlines at the end. *)
Fixpoint strip_newlines (l : list Z) : list Z :=
  match l with
  | [] => []
  | c :: l => match strip_newlines l with [] => if c =? 10 then [] else [c] | r => c :: r end
  end.

(** [STORED=$(curl .. | sed ..)] *)
Definition stored_of (body : list Z) : string :=
  utf8.text (strip_newlines (lines body ≫= λ l, sed_line l ++ [10])).

(** [if [ "$SENT" = "$STORED" ]] *)
Definition script_passes (sent : string) (body : list Z) : bool := bool_decide (sent = stored_of body).

Lemma lines_one l : Forall (λ c, c ≠ 10) l → lines (l ++ [10]) = [l].
Proof.
  intros Hl. induction Hl as [|c l Hc _ IH]; [done|]. cbn [app lines]. rewrite IH.
  by destruct (Z.eqb_spec c 10).
Qed.

Lemma strip_newlines_one l : Forall (λ c, c ≠ 10) l → strip_newlines (l ++ [10]) = l.
Proof.
  intros Hl. induction Hl as [|c l Hc _ IH]; [done|]. cbn [app strip_newlines]. rewrite IH.
  destruct l; [|done]. by destruct (Z.eqb_spec c 10).
Qed.

Lemma until_Forall (P : Z → Prop) c l : Forall P l → Forall P (until c l).
Proof. intros Hl. induction Hl as [|b l Hb _ IH]; [constructor|]. cbn [until]. case_match; by constructor. Qed.

Lemma until_app c l r : Forall (λ b, b ≠ c) l → until c (l ++ r) = l ++ until c r.
Proof. intros Hl. induction Hl as [|b l Hb _ IH]; [done|]. cbn [app until]. destruct (Z.eqb_spec b c); [done|]. by rewrite IH. Qed.

(** A prefix without the first byte of the marker does not matter. *)
Lemma after_last_app l r : Forall (λ b, b ≠ 34) l → after_last marker r = None → after_last marker (l ++ r) = None.
Proof.
  intros Hl Hr. induction Hl as [|b l Hb _ IH]; [done|]. cbn [app after_last]. rewrite IH.
  unfold marker. cbn [json.strip_prefix]. by destruct (Z.eqb_spec 34 b).
Qed.

(** The bytes of a number: a sign and digits. *)
Definition number_byte (b : Z) : Prop := b = 45 ∨ 48 ≤ b ≤ 57.

Lemma number_bytes z : -10 ^ 20 < z < 10 ^ 20 → Forall number_byte (response.appendInt z).
Proof.
  intros Hz. destruct (response.decimal_scans (Z.abs z)) as (a & ds & Heq & Hall & _); [lia|].
  assert (Forall number_byte (a :: ds)) as Hds.
  { eapply Forall_impl; [exact Hall|]. intros b Hb%decimal.is_digit_spec. by right. }
  unfold response.appendInt, strconv.Itoa, utf8.bytes. rewrite String.list_ascii_of_string_of_list_ascii.
  destruct (Z.ltb_spec z 0); [rewrite Z.abs_neq in Heq by lia|rewrite Z.abs_eq in Heq by lia].
  - rewrite fmap_cons, Heq. constructor; [by left|done].
  - by rewrite Heq.
Qed.

(** What the key order of the encoder leaves behind the count. *)
Definition leftover : list Z := [44; 34] ++ utf8.bytes "event" ++ [34; 58; 34] ++ utf8.bytes "chaos_test" ++ [34].

Lemma count_text zone u n :
  response.body_bytes zone u (ingest.CountOf "chaos_test" n) =
    123 :: marker ++ response.appendInt n ++ leftover ++ [125; 10].
Proof.
  unfold response.body_bytes, response.marshal_body. rewrite response.count_keys. unfold response.object.
  cbn [map fst snd]. rewrite !json.join_cons. unfold json.member. cbn [app]. f_equal.
  rewrite <- !app_assoc. reflexivity.
Qed.

Lemma no_newline n :
  -10 ^ 20 < n < 10 ^ 20 → Forall (λ c, c ≠ 10) (123 :: marker ++ response.appendInt n ++ leftover ++ [125]).
Proof.
  intros Hn. apply Forall_cons. split; [done|]. apply Forall_app. split; [|apply Forall_app; split].
  - by apply (bool_decide_unpack _).
  - eapply Forall_impl; [by apply number_bytes|]. unfold number_byte. lia.
  - by apply (bool_decide_unpack _).
Qed.

(** The script keeps the member that follows the count. *)
Lemma sed_count n :
  -10 ^ 20 < n < 10 ^ 20 →
  sed_line (123 :: marker ++ response.appendInt n ++ leftover ++ [125]) = response.appendInt n ++ leftover.
Proof.
  intros Hn. pose proof (number_bytes n Hn) as Hb. set (ds := response.appendInt n) in *.
  assert (after_last marker (ds ++ leftover ++ [125]) = None) as Hnone.
  { apply after_last_app; [|reflexivity]. eapply Forall_impl; [exact Hb|]. unfold number_byte. lia. }
  assert (after_last marker (123 :: marker ++ ds ++ leftover ++ [125]) = Some (ds ++ leftover ++ [125])) as Hlast.
  { revert Hnone. generalize (ds ++ leftover ++ [125]) as r. intros r Hr. unfold marker at 2. cbn -[marker].
    rewrite Hr. reflexivity. }
  unfold sed_line. rewrite Hlast. cbn [default from_option id].
  rewrite until_app by (eapply Forall_impl; [exact Hb|]; unfold number_byte; lia). reflexivity.
Qed.

Lemma stored_count zone u n :
  -10 ^ 20 < n < 10 ^ 20 →
  stored_of (response.body_bytes zone u (ingest.CountOf "chaos_test" n)) =
    utf8.text (response.appendInt n ++ leftover).
Proof.
  intros Hn. rewrite count_text. pose proof (no_newline n Hn) as Hnl.
  unfold stored_of.
  replace (123 :: marker ++ response.appendInt n ++ leftover ++ [125; 10])
    with ((123 :: marker ++ response.appendInt n ++ leftover ++ [125]) ++ [10])
    by (cbn [app]; by rewrite <- !app_assoc).
  rewrite lines_one by done. cbn [mbind list_bind]. rewrite app_nil_r, sed_count by done.
  f_equal. apply strip_newlines_one. apply Forall_app. split.
  - eapply Forall_impl; [by apply number_bytes|]. unfold number_byte. lia.
  - by apply (bool_decide_unpack _).
Qed.

Section script.
Context {pg : store.Postgres} (zone unspecified : Z).

(** C35: the comparison of the chaos script cannot succeed.  [encoding/json]
    writes a map in the order of its keys, so the answer to the count query is
    an object in which [count_today] comes BEFORE [event]; the [sed] of the
    script keeps what follows the count up to the closing brace, the other
    member included.  Whatever the tables hold, [STORED] is not the decimal of
    a number, and it differs from every count that the generator can have
    written; on a 200 it is the right count with [,event:chaos_test] (quoted)
    behind it. *)
Theorem chaos_script_never_passes now s res s' sent :
  ingest.getCount now "chaos_test" s = (res, s') → strconv.in_int64 sent = true →
  let body := response.body_bytes zone unspecified (ingest.res_body res) in
  script_passes (strconv.Itoa sent) body = false ∧
  (ingest.code res = 200 → ∃ n, store.CountToday now "chaos_test" s = (Ok n, s') ∧
     utf8.bytes (stored_of body) = utf8.bytes (strconv.Itoa n) ++ leftover).
Proof.
  intros Hg Hsent body. unfold strconv.in_int64, int64_max in Hsent. rewrite andb_true_iff in Hsent.
  assert (Forall number_byte (utf8.bytes (strconv.Itoa sent))) as Hnum by (apply number_bytes; lia).
  unfold script_passes. rewrite bool_decide_eq_false. unfold ingest.getCount in Hg.
  rewrite decide_False in Hg by done.
  destruct (store.CountToday now "chaos_test" s) as [[n|] s1] eqn:Hc; injection Hg as <- <-.
  - unfold store.CountToday in Hc. pose proof Hc as Hq. apply response.query_Ok in Hq as [Hq _].
    change (store.pg_text "chaos_test") with true in Hq. apply response.bigint_Ok in Hq as [_ Hn].
    unfold int64_max in Hn. subst body. cbn [ingest.res_body ingest.writeJSON]. rewrite stored_count by lia.
    assert (utf8.bytes (utf8.text (response.appendInt n ++ leftover)) = response.appendInt n ++ leftover) as Hb.
    { apply utf8.bytes_text, Forall_app. split; [apply utf8.bytes_range|].
      exact (bool_decide_unpack (Forall (λ z, 0 ≤ z < 256) leftover) I). }
    split; [|intros _; by exists n]. intros Heq. rewrite Heq, Hb in Hnum.
    apply Forall_app in Hnum as [_ [Hx _]%Forall_cons]. destruct Hx; lia.
  - subst body. split; [|done]. intros Heq. rewrite Heq in Hnum.
    change (Forall number_byte (utf8.bytes "failed to query count")) in Hnum.
    apply Forall_cons in Hnum as [[Hx|Hx] _]; [done|]. vm_compute in Hx. by destruct Hx.
Qed.
End script.

Section witnesses.
#[local] Existing Instance store_props.utc_server.
#[local] Existing Instance store_props.flat_json.

(** The event of [loadgen.w_end], delivered twice at different times. *)
Definition sent_at (t : clock.time) : Event := store.MkEvent "17-4" "chaos_test" "user_3" None t.
Definition deliveries : list Event :=
  [sent_at store_props.t0; sent_at (store_props.t0 + clock.Second)].
Definition after_run : Store := (store.InsertBatch deliveries store_props.fresh).2.

Lemma after_run_represents : represents deliveries (db after_run).
Proof.
  assert (store.InsertBatch deliveries store_props.fresh = (Ok 1, after_run)) as Hib.
  { unfold after_run. apply pair_fst. vm_compute. reflexivity. }
  refine (proj1 (InsertBatch_simulates [] _ store_props.fresh _ _ represents_empty _ Hib)).
  intros e. unfold deliveries. rewrite !elem_of_cons. intros [->|[->|[]%not_elem_of_nil]]; vm_compute; reflexivity.
Qed.

Lemma chaos_check_witness :
  ∃ n, store.CountToday store_props.t0 "chaos_test" after_run = (Ok n, after_run) ∧
    0 ≤ n ≤ 0 + 1 ∧ (1 = 0 → n = 0) ∧ 0 = 1 - 1.
Proof.
  apply (chaos_check one_job w_start w_end deliveries after_run store_props.t0 eq_refl w_end_reachable
           eq_refl (NoDup_singleton _) after_run_represents).
  - intros id. unfold deliveries, w_end. cbn [gh reached]. setoid_rewrite elem_of_cons.
    setoid_rewrite elem_of_cons. split.
    + intros Hid. exists (sent_at store_props.t0). split; [by left|].
      destruct Hid as [->|[->|[]%not_elem_of_nil]]; reflexivity.
    + intros (e & [->|[->|[]%not_elem_of_nil]] & <-); left; reflexivity.
  - intros e. unfold deliveries. rewrite !elem_of_cons.
    intros [->|[->|[]%not_elem_of_nil]]; vm_compute; reflexivity.
  - vm_compute. reflexivity.
  - vm_compute. reflexivity.
  - vm_compute. discriminate.
Defined.

(** One event sent and one stored, and the comparison still fails. *)
Lemma chaos_script_never_passes_witness :
  let res := (ingest.getCount store_props.t0 "chaos_test" after_run).1 in
  let body := response.body_bytes 0 0 (ingest.res_body res) in
  script_passes (strconv.Itoa 1) body = false ∧
  (ingest.code res = 200 → ∃ n,
     store.CountToday store_props.t0 "chaos_test" after_run =
       (Ok n, (ingest.getCount store_props.t0 "chaos_test" after_run).2) ∧
     utf8.bytes (stored_of body) = utf8.bytes (strconv.Itoa n) ++ leftover).
Proof.
  exact (chaos_script_never_passes 0 0 store_props.t0 after_run _ _ 1 (surjective_pairing _) eq_refl).
Defined.

Lemma chaos_script_example :
  ingest.getCount store_props.t0 "chaos_test" after_run =
    (ingest.writeJSON 200 (ingest.CountOf "chaos_test" 1), after_run) ∧
  utf8.bytes (stored_of (response.body_bytes 0 0 (ingest.CountOf "chaos_test" 1))) = 49 :: leftover.
Proof. split; [apply pair_fst|]; vm_compute; reflexivity. Qed.
End witnesses.

End chaos.
